(* ===== verification/_CoqProject ===== *)
-Q . S2P
Prelude.v
HealPlan.v
Db.v
Migrations.v
Gaps.v
Rows.v
Registrations.v
Commit.v
Registry.v
Query.v
Cursor.v
Api.v
Extract.v
Loop.v
Workers.v
System.v
Backfill.v
Heal.v
Rpc.v
Classify.v
HttpAuth.v
Mux.v
Admin.v
Config.v
Metrics.v
Health.v
Routes.v
Diff.v
Captive.v
Boot.v
Derived.v
Provenance.v
Coverage.v
Histories.v
Accepted.v
Together.v
Scene.v
Follow.v
Drain.v
Fulfil.v
