(* ===== verification/Prelude.v ===== *)
(** * A verification library for the sierpe indexer

    Sierpe is an appliance that indexes Soroban contracts of the Stellar network
    into Postgres and serves them over HTTP.  This library models its Go code
    ([cmd/], [internal/]) function by function and proves what the code
    promises: nothing is lost, nothing is written twice, and a page that is
    declared COMPLETE is.

    ** The program and its parts

    A ledger of the chain enters through a source: the RPC pool for the live
    tip, a captive core for history.  Extraction turns it into five kinds of
    records for the contracts a registry snapshot watches.  Three writers commit
    records together with the watermark that vouches for them: the ingestion
    loop (the cursor), the backfiller (a walk's row) and the healer (a gap).  What
    cannot be served becomes a gap, a recorded promise.  The read API derives
    from cursor, walk and gaps what each page can vouch for.  The admin API
    registers contracts and plans heals.

    ** Files and sources (under [internal/] unless said otherwise)

    - [Prelude]: integers at their width, orders, string bytes, list lemmas,
      the hint databases.
    - [HealPlan]: [store/plan.go], the pure interval arithmetic.
    - [Db]: the structs and tables of [store/], the errors, and transactions as
      trees of statements; [run] executes one undisturbed, [BeginFunc] with
      faults and rollback.
    - [Migrations]: [store/store.go], [Migrate].
    - [Gaps]: the gap table ([store/store.go], [plan.go], [heal.go]).
    - [Rows]: the inserts ([store/events.go], [state.go], [transfers.go],
      [trustlines.go], [movements.go]).
    - [Registrations]: [store/contracts.go], [store/backfill.go].
    - [Commit]: [CommitLedger], [CommitBackfillChunk], [CommitHealChunk].
    - [Registry]: [registry/registry.go]; [Classify]: [registry/classify.go].
    - [Query]: the paged reads of [store/]; [Cursor]: [api/cursor.go];
      [Api]: the handlers of [api/].
    - [Extract]: [extract/].
    - [Loop]: [ingest/loop.go], as one function per iteration over what the
      world answers ([turn]), boot, and the process across crashes.
    - [Workers]: worlds, calls and triples shared by the two workers;
      [System]: the components' commits as the steps of one system, and what
      the database declares about the chain; [Backfill]: [ingest/backfill.go];
      [Heal]: [ingest/heal.go] and [ReplayRange] of [source/captive/captive.go];
      [Diff]: the diagnosis of a failed gate, [diffDetail] and [structuredDiff] of [ingest/heal.go].
    - [Captive]: the archive source of [source/captive/captive.go] and the
      configuration of the cores it starts.
    - [Rpc]: [source/rpc/rpc.go].
    - [HttpAuth]: [httpauth/httpauth.go] with the standard library's SHA-256,
      base64 and headers; [Admin]: [admin/admin.go] behind its token.
    - [Mux]: what the program uses of [net/http]'s routing: paths and their
      escapes, patterns, conflicts, the choice of a handler; [Routes]: the
      [Register] methods of [health/], [admin/], [api/] and [ui/], and the surface
      [cmd/sierpe/main.go] composes: gate, mux, handler.
    - [Config]: [config/config.go].
    - [Metrics]: the instruments of [health/health.go] over a Prometheus client,
      and what the three writers report to them; [Health]: the status and the
      probes of [health/health.go] and the feeders of [cmd/sierpe/main.go].
    - [Boot]: [cmd/sierpe/main.go]: commands, exit statuses, the order of the
      boot and what each mode starts.
    - [Derived]: a reference for the events of a ledger, and what identifies
      them; [Provenance]: which event or change a stored transfer, state change,
      trustline change or movement comes from; [Coverage]: every step of the
      system keeps the declaration true, and what a COMPLETE page of events
      holds; [Histories]: the same for the four other histories; [Accepted]: what
      the chain derives is never refused by a constraint, only for its text;
      [Together]: the backfiller and the healer commit nothing but steps of the
      system; [Scene]: neither does the loop, among registrations and reloads in
      progress; [Follow]: the loop catches up with its source; [Drain]: the backfiller ends
      every walk; [Fulfil]: the healer keeps every promise.

    Definitions carry the source's names; a Go struct is a record whose fields
    carry a short prefix, a table is a [gmap] from its primary key, SQL
    statements are functions of the tables, and a handler or method is a
    function that threads state and errors the way the code does.

    ** What the theorems show

    - The system: whatever the components commit, in whatever order, no record
      is stored that the chain does not derive; and along the steps of the system
      cursor, walks and gaps declare the truth about the chain ([coverage_true]),
      and a page of any of the five histories declared COMPLETE holds exactly the
      chain's records ([complete_events_of_the_chain],
      [complete_histories_of_the_chain]).  A step is one committed transaction,
      with what its component established before as its premise ([live_ready],
      [knows], [walk_ready], [heal_ready]).  The components commit nothing else
      ([loop_refines_system], [backfiller_refines_system],
      [healer_refines_system]), each under its own bound on what the others do
      meanwhile.  The loop runs among registrations, deletions and reloads in
      progress, as long as one snapshot serves at most 20 ledgers ([scene_step],
      [timely]); the two workers beside others that leave their rows alone
      ([bystanders], [gap_bystanders]), of which the live loop is one
      ([live_neighbour]), while a registration or a plan in the middle of a round
      or a chunk is not, for the reasons the findings give.  The healer's commits
      are replays of the chain in any case ([replay_step]), and steps of the system
      when every snapshot watches the walks it releases ([informed]).
    - Storage: heal plans cover what was asked ([normalizePlan_correct]) and
      only re-partition the promises ([PlanHeal_correct]); recording and
      reopening never lose a range ([RecordGap_correct], [ReopenGaps_correct]);
      a registration never widens what may be vouched for
      ([EnsureBackfill_honest]); commits are atomic and idempotent and converge
      in any order ([CommitLedger_atomic], [CommitHealChunk_honest],
      [commits_converge]); migrations run once each ([Migrate_once]).
    - Reading: walks over pages end and miss nothing ([walk_events_complete]),
      cursors round-trip ([cursors_round_trip]), COMPLETE pages omit nothing
      ([events_complete_honest], [histories_complete_honest]).
    - Derivation: what is derived is attributed, independent per transaction,
      and the same whether contracts are read together or alone
      ([Events_attributed], [Events_per_transaction], [Events_partition]); the
      events are those of a comprehension ([Events_reference]).
    - Workers: the loop follows one chain without a hole
      ([ingestion_contiguous], [iterate_writes_linked]); the backfiller and the
      healer keep every promise in every interleaving with other writers
      ([Run_honest], [healer_honest], [claims_exclusive], [healChunk_correct]);
      the three of them get their work done: the loop as long as good turns keep
      coming ([live_catches_up]), the backfiller and a worker of the healer, while
      nothing fails, in a number of rounds known in advance ([backfill_drains],
      [promises_fulfilled]), on a chain whose transfers hold no text that Postgres
      refuses ([storable]);
      healing waits for a verified core ([gate_sound], [normalization_exact]),
      and a refusal names the first difference ([structuredDiff_truthful]).
    - Sources: failover, batch sizes and window errors ([call_failover],
      [GetLedgerBatch_adapts], [rpc_answers_justified]); hostile wasm
      ([contractSpecSection_parses], [contractSpecSection_safe],
      [Classify_sound]).
    - Surface: authentication ([Wrap_correct], [admin_gate]), routing
      ([routing_correct]) and both together from a request line to its handler
      ([surface_correct]); every branch of a
      registration ([handleRegister_outcome], [handleRegister_anchored],
      [handleRegister_again]), plans ([handlePlan_correct]); configuration
      ([Load_valid], [Redacted_hides]); status ([feedStatus_counts]) and counters
      ([metrics_account]); the boot, with the archive source ([run_ordered]).
    - Behaviour worth knowing: [registered_before_ingestion],
      [stale_chunk_covers_new_kind], [stale_claim_repeats_chunk],
      [CommitHealChunk_undoes_reopen], [PlanHeal_drops_resolved_piece],
      [EnsureBackfill_leaves_deferred], [events_complete_race],
      [ready_survives_catch_up], [hostile_transfer_stalls].

    ** Fuel and bounds

    Sequences are [uint32] and every operation on them that can wrap is written
    with [u32]; theorems that need room below the maximum say so.  Recursion
    that Go bounds dynamically takes fuel, and the theorems ask for enough of it
    or prove the result from the fuel the definition passes: a scan and a replay
    take one step per ledger of their range ([scan], [replayLoop]), the wall
    search halves it ([findWall]); a batch halves from at most 200, so eight
    halvings suffice ([batchLoop]); the section and spec loops consume at least
    a byte a step ([sectionLoop], [specLoop]); a client's walk takes a page per
    row ([walk]).  Endless loops (the workers' and the loop's [Run]) are
    sequences of rounds, turns or steps of any length.

    ** Not modelled

    Parameters, with their documented laws as classes or hypotheses, each with a
    concrete instance in the witnesses: the Stellar SDK's decoders and encoders
    ([SDK] and its extensions, which may also panic), JSON and URL parsing,
    Postgres's text collation, Unicode tables, the file system, the transport of
    the RPC pool, the SDK's captive core, the Prometheus client, and what a
    migration's script does.

    Left out: logging and the text of errors; the help texts of the metrics;
    signals, tickers, goroutine wiring and server shutdown in
    [cmd/sierpe/main.go]; the text of the embedded page and of /metrics; headers
    other than Authorization and Allow.  Of [http.ServeMux], patterns with a
    host, a trailing slash or a [...] wildcard, which the program does not have.
    Values that Postgres refuses are modelled where a contract chooses them: the
    text columns of a transfer ([pg_text]) and the classification ([jsonb_text]);
    a query parameter with such a text is not refused by the paged reads.
    Columns that only hold the server's clock and are never read are not in the
    tables.  The RPC client's atomics are one sequential state.  Tests, docs and scripts are not code of
    the program. *)

From stdpp Require Export base tactics list numbers option sorting gmap strings pretty.
From Stdlib Require Export Lia.

#[global] Open Scope string_scope.
#[global] Open Scope list_scope.
#[global] Open Scope Z_scope.

(** ** Machine integers

    Go's [uint32], [int32] and [int64] are [Z] with the wrap-around written
    where the code can reach it. *)
Definition max_u32 : Z := 4294967295.

Definition u32 (x : Z) : Z := x mod 4294967296.

Definition is_u32 (x : Z) : Prop := 0 ≤ x ≤ max_u32.

Definition i32 (x : Z) : Z := (x + 2147483648) mod 4294967296 - 2147483648.

(** ** Ordering a result set

    [ORDER BY] and Go's [sort.Slice] produce a permutation sorted by a key;
    ties are left unspecified by both, and broken here by the input order. *)
Definition key_le {A} (key : A → Z) : relation A := λ x y, key x ≤ key y.

#[export] Instance key_le_dec {A} (key : A → Z) x y : Decision (key_le key x y) :=
  Z_le_dec (key x) (key y).

Definition sort_by {A} (key : A → Z) (l : list A) : list A :=
  merge_sort (key_le key) l.

Definition sort_by_desc {A} (key : A → Z) (l : list A) : list A :=
  sort_by (λ x, - key x) l.

(** ** Bytes of a string

    A Go string is a sequence of bytes: its codes, each in [0..255]. *)
Definition codes (s : string) : list Z :=
  (λ c, Z.of_N (Ascii.N_of_ascii c)) <$> String.list_ascii_of_string s.

Definition of_codes (bs : list Z) : string :=
  String.string_of_list_ascii ((λ b, Ascii.ascii_of_N (Z.to_N b)) <$> bs).

Definition is_byte (b : Z) : Prop := 0 ≤ b < 256.

(** ** Text order

    [ORDER BY] and [>] on text columns follow the collation of the database,
    which the program does not choose.  Postgres's deterministic collations are
    strict total orders; that is all the program relies on. *)
Class Collation := text_ltb : string → string → bool.

Class CollationOrder (C : Collation) : Prop := {
  text_ltb_irrefl : ∀ s, text_ltb s s = false;
  text_ltb_trans : ∀ s1 s2 s3,
    text_ltb s1 s2 = true → text_ltb s2 s3 = true → text_ltb s1 s3 = true;
  text_ltb_total : ∀ s1 s2, s1 = s2 ∨ text_ltb s1 s2 = true ∨ text_ltb s2 s1 = true }.

(** The ["C"] collation, for concrete runs. *)
Definition bytewise : Collation := String.ltb.

(** [ORDER BY] a strict order given as a test. *)
Definition not_above {A} (ltb : A → A → bool) : relation A := λ x y, ltb y x = false.

#[export] Instance not_above_dec {A} (ltb : A → A → bool) x y : Decision (not_above ltb x y) :=
  bool_eq_dec (ltb y x) false.

Definition order_by {A} (ltb : A → A → bool) (l : list A) : list A :=
  merge_sort (not_above ltb) l.

(** The number of ledgers of a closed range. *)
Definition span (from to : Z) : Z := to - from + 1.

(** ** Hints and tactics of the development *)
Create HintDb sierpe.
Create Rewrite HintDb sierpe_simp.

(** [uarith] unfolds the machine-integer vocabulary and calls [lia]. *)
Ltac uarith := unfold is_u32, max_u32, span in *; lia.

Lemma u32_small x : is_u32 x → u32 x = x.
Proof. intros ?. apply Z.mod_small. uarith. Qed.

Lemma u32_range x : is_u32 (u32 x).
Proof. pose proof (Z.mod_pos_bound x 4294967296). unfold u32. uarith. Qed.

Lemma u32_idemp x : u32 (u32 x) = u32 x.
Proof. apply u32_small, u32_range. Qed.

#[export] Hint Resolve u32_range : sierpe.
#[export] Hint Rewrite u32_idemp : sierpe_simp.

(** [usimpl] removes the wrap-around of an operation that provably stays in
    range. *)
Ltac usimpl :=
  repeat match goal with
  | |- context [u32 ?x] => rewrite (u32_small x) by uarith
  | H : context [u32 ?x] |- _ => rewrite (u32_small x) in H by uarith
  end.

Lemma sort_by_perm {A} (key : A → Z) l : sort_by key l ≡ₚ l.
Proof. apply merge_sort_Permutation. Qed.

Lemma sort_by_desc_perm {A} (key : A → Z) l : sort_by_desc key l ≡ₚ l.
Proof. apply sort_by_perm. Qed.

#[export] Instance key_le_trans {A} (key : A → Z) : Transitive (key_le key).
Proof. intros x y z. unfold key_le. lia. Qed.

#[export] Instance key_le_total {A} (key : A → Z) : Total (key_le key).
Proof. intros x y. unfold key_le. lia. Qed.

Lemma sort_by_sorted {A} (key : A → Z) l :
  StronglySorted (λ x y, key x ≤ key y) (sort_by key l).
Proof. apply (StronglySorted_merge_sort (key_le key)); apply _. Qed.

Lemma StronglySorted_weaken {A} (R S : relation A) l :
  (∀ x y, R x y → S x y) → StronglySorted R l → StronglySorted S l.
Proof. intros HRS. induction 1; constructor; eauto using Forall_impl. Qed.

Lemma sort_by_desc_sorted {A} (key : A → Z) l :
  StronglySorted (λ x y, key y ≤ key x) (sort_by_desc key l).
Proof.
  eapply StronglySorted_weaken; [|apply (sort_by_sorted (λ x, - key x))].
  intros x y; simpl; lia.
Qed.

Lemma elem_of_sort_by {A} (key : A → Z) l x : x ∈ sort_by key l ↔ x ∈ l.
Proof. by rewrite sort_by_perm. Qed.

Lemma elem_of_sort_by_desc {A} (key : A → Z) l x : x ∈ sort_by_desc key l ↔ x ∈ l.
Proof. by rewrite sort_by_desc_perm. Qed.

#[export] Hint Rewrite @elem_of_sort_by @elem_of_sort_by_desc : sierpe_simp.

(** A sort never looks past its input: the key only orders. *)
Lemma sort_by_nil {A} (key : A → Z) l : sort_by key l = [] ↔ l = [].
Proof.
  split; intros H.
  - apply Permutation_nil. rewrite <- (sort_by_perm key l). by rewrite H.
  - by subst.
Qed.

(** ** Strings as bytes *)

Lemma codes_of_codes l : Forall is_byte l → codes (of_codes l) = l.
Proof.
  unfold codes, of_codes. rewrite String.list_ascii_of_string_of_list_ascii.
  induction 1 as [|b l Hb Hl IH]; [done|]. rewrite !fmap_cons, IH. f_equal. unfold is_byte in Hb.
  rewrite Ascii.N_ascii_embedding; lia.
Qed.

Lemma of_codes_codes s : of_codes (codes s) = s.
Proof.
  unfold codes, of_codes. rewrite <- list_fmap_compose. rewrite <- (String.string_of_list_ascii_of_string s) at 2.
  f_equal. rewrite <- (list_fmap_id (String.list_ascii_of_string s)) at 2. apply list_fmap_ext. intros _ c _. simpl.
  by rewrite N2Z.id, Ascii.ascii_N_embedding.
Qed.

Lemma codes_bytes s : Forall is_byte (codes s).
Proof.
  apply Forall_fmap, Forall_forall. intros c _. unfold is_byte. simpl.
  pose proof (Ascii.N_ascii_bounded c). lia.
Qed.

Lemma codes_inj s1 s2 : codes s1 = codes s2 → s1 = s2.
Proof. intros Hc. by rewrite <- (of_codes_codes s1), Hc, of_codes_codes. Qed.

Lemma codes_app s1 s2 : codes (s1 +:+ s2) = codes s1 ++ codes s2.
Proof.
  unfold codes. rewrite <- fmap_app. f_equal. induction s1 as [|c s1 IH]; [done|].
  simpl. f_equal. apply IH.
Qed.

#[export] Hint Resolve codes_bytes : sierpe.


(** ** Selections that keep nothing, or everything *)

Lemma filter_none {B} (P : B → Prop) `{∀ x, Decision (P x)} (l : list B) :
  (∀ x, x ∈ l → ¬ P x) → filter P l = [].
Proof.
  induction l as [|x l IH]; intros Hl; [done|].
  rewrite filter_cons, decide_False by (apply Hl; by left). apply IH. intros y ?. apply Hl. by right.
Qed.

Lemma filter_every {B} (P : B → Prop) `{∀ x, Decision (P x)} (l : list B) :
  (∀ x, x ∈ l → P x) → filter P l = l.
Proof.
  induction l as [|x l IH]; intros Hl; [done|].
  rewrite filter_cons, decide_True by (apply Hl; by left). f_equal.
  apply IH. intros y ?. apply Hl. by right.
Qed.

Lemma filter_agree {A} (P Q : A → Prop) `{!∀ x, Decision (P x), !∀ x, Decision (Q x)} (l : list A) :
  (∀ x, x ∈ l → P x ↔ Q x) → filter P l = filter Q l.
Proof.
  induction l as [|x l IH]; intros Hl; [done|]. rewrite !filter_cons.
  rewrite IH by (intros y Hy; apply Hl; by right).
  destruct (decide (P x)) as [Hp|Hp], (decide (Q x)) as [Hq|Hq]; try done.
  - exfalso. apply Hq, (Hl x); [by left|done].
  - exfalso. apply Hp, (Hl x); [by left|done].
Qed.

(** ** Orders given as tests *)

Lemma order_by_perm {A} (ltb : A → A → bool) l : order_by ltb l ≡ₚ l.
Proof. apply merge_sort_Permutation. Qed.

Lemma elem_of_order_by {A} (ltb : A → A → bool) l x : x ∈ order_by ltb l ↔ x ∈ l.
Proof. by rewrite order_by_perm. Qed.

#[export] Hint Rewrite @elem_of_order_by : sierpe_simp.

Class StrictTest {A} (ltb : A → A → bool) : Prop := {
  st_irrefl : ∀ x, ltb x x = false;
  st_trans : ∀ x y z, ltb x y = true → ltb y z = true → ltb x z = true;
  st_total : ∀ x y, x = y ∨ ltb x y = true ∨ ltb y x = true }.

Arguments st_irrefl {A} ltb {_}.
Arguments st_trans {A} ltb {_}.
Arguments st_total {A} ltb {_}.

#[export] Instance collation_test (C : Collation) : CollationOrder C → StrictTest text_ltb.
Proof. intros [? ? ?]. by split. Qed.

Section strict_test.
Context {A} (ltb : A → A → bool) `{!StrictTest ltb}.

Lemma st_asym x y : ltb x y = true → ltb y x = false.
Proof.
  intros Hxy. destruct (ltb y x) eqn:Hyx; [|done].
  rewrite <- (st_irrefl ltb x). symmetry. by apply (st_trans ltb x y x).
Qed.

Lemma not_above_spec x y : not_above ltb x y ↔ x = y ∨ ltb x y = true.
Proof.
  unfold not_above. split.
  - intros Hyx. destruct (st_total ltb x y) as [?|[?|?]]; [auto..|congruence].
  - intros [->|?]; [apply (st_irrefl ltb)|by apply st_asym].
Qed.

#[export] Instance not_above_trans : Transitive (not_above ltb).
Proof.
  intros x y z Hxy Hyz. apply not_above_spec in Hxy, Hyz. apply not_above_spec.
  destruct Hxy as [->|?]; [done|]. destruct Hyz as [->|?]; [by right|].
  right. by eapply (st_trans ltb).
Qed.

#[export] Instance not_above_total : Total (not_above ltb).
Proof.
  intros x y. rewrite !not_above_spec. destruct (st_total ltb x y) as [->|[?|?]]; auto.
Qed.

Lemma order_by_sorted l : StronglySorted (not_above ltb) (order_by ltb l).
Proof. apply StronglySorted_merge_sort; apply _. Qed.

(** Without duplicates the order is strict. *)
Lemma order_by_strict l : NoDup l → StronglySorted (λ x y, ltb x y = true) (order_by ltb l).
Proof.
  intros Hnd. rewrite <- (order_by_perm ltb l) in Hnd.
  pose proof (order_by_sorted l) as Hs. induction Hs as [|x xs Hs IH Hall]; constructor.
  - apply IH. by apply NoDup_cons in Hnd as [_ ?].
  - apply NoDup_cons in Hnd as [Hx _]. rewrite Forall_forall in Hall |- *.
    intros y Hy. destruct (proj1 (not_above_spec x y) (Hall y Hy)) as [->|]; done.
Qed.
End strict_test.

(** The two components of a composite key, compared in turn. *)
Definition lex_ltb {A B} `{EqDecision A} (lt1 : A → A → bool) (lt2 : B → B → bool)
    (x y : A * B) : bool :=
  lt1 x.1 y.1 || (bool_decide (x.1 = y.1) && lt2 x.2 y.2).

#[export] Instance lex_test {A B} `{EqDecision A} (lt1 : A → A → bool) (lt2 : B → B → bool) :
  StrictTest lt1 → StrictTest lt2 → StrictTest (lex_ltb lt1 lt2).
Proof.
  intros H1 H2. unfold lex_ltb. split.
  - intros [x1 x2]. simpl. by rewrite (st_irrefl lt1), (st_irrefl lt2), andb_false_r.
  - intros [x1 x2] [y1 y2] [z1 z2]. simpl.
    rewrite !orb_true_iff, !andb_true_iff, !bool_decide_eq_true.
    intros [Hx|[-> Hx]] [Hy|[-> Hy]]; [left; by eapply (st_trans lt1)|by left|by left|].
    right. split; [done|]. by eapply (st_trans lt2).
  - intros [x1 x2] [y1 y2]. simpl.
    rewrite !orb_true_iff, !andb_true_iff, !bool_decide_eq_true.
    destruct (st_total lt1 x1 y1) as [->|[?|?]]; [|by auto..].
    destruct (st_total lt2 x2 y2) as [->|[?|?]]; auto.
Qed.

#[export] Instance Z_ltb_test : StrictTest Z.ltb.
Proof.
  split; intros *; rewrite ?Z.ltb_lt; [apply Z.ltb_irrefl|lia|lia].
Qed.

Lemma bytewise_order : CollationOrder bytewise.
Proof.
  split; unfold text_ltb, bytewise, String.ltb.
  - intros s. assert (Hs : String.compare s s = Eq) by
      (pose proof (String.compare_antisym s s) as Ha; by destruct (String.compare s s)).
    by rewrite Hs.
  - intros s1. induction s1 as [|c1 s1 IH]; intros [|c2 s2] [|c3 s3]; simpl; try done.
    unfold Ascii.compare. destruct (N.compare_spec (Ascii.N_of_ascii c1) (Ascii.N_of_ascii c2)) as [H12|H12|H12];
    destruct (N.compare_spec (Ascii.N_of_ascii c2) (Ascii.N_of_ascii c3)) as [H23|H23|H23];
    destruct (N.compare_spec (Ascii.N_of_ascii c1) (Ascii.N_of_ascii c3)) as [H13|H13|H13]; try done; try lia.
    all: try apply IH.
  - intros s1 s2. rewrite (String.compare_antisym s2 s1).
    destruct (String.compare s1 s2) eqn:Hc; simpl; [|by auto..].
    left. by apply String.compare_eq_iff.
Qed.
