(* ===== verification/HealPlan.v ===== *)
(** * Heal plans: the pure part of [internal/store/plan.go]

    The operator's replay intervals are normalised ([normalizePlan]) and then
    cut every open gap's remainder into replay and deferred pieces
    ([partition]).  Nothing here touches the database; [Gaps] applies it. *)

From S2P Require Import Prelude.

(** ** Definitions *)

Definition HealModeReplay : string := "replay".
Definition HealModeDeferred : string := "deferred".

Definition checkpointFrequency : Z := 64.

(** A closed ledger range. *)
Record Interval := mkInterval { iv_From : Z; iv_To : Z }.

#[export] Instance Interval_eq_dec : EqDecision Interval.
Proof. solve_decision. Defined.

(** One range of a partitioned gap remainder. *)
Record piece := mkPiece { p_from : Z; p_to : Z; p_mode : string }.

#[export] Instance piece_eq_dec : EqDecision piece.
Proof. solve_decision. Defined.

Definition max32 (a b : Z) : Z := if b <? a then a else b.

Definition min32 (a b : Z) : Z := if a <? b then a else b.

(** The body of the first loop of [normalizePlan]: pad one interval, then snap
    it outwards to checkpoint boundaries; every operation on [uint32]. *)
Definition padSnap (padding : Z) (iv : Interval) : Interval :=
  let from := if padding <? iv_From iv then u32 (iv_From iv - padding) else 1 in
  let to := if iv_To iv <? u32 (max_u32 - padding)
            then u32 (iv_To iv + padding) else max_u32 in
  let from := u32 (from - from mod checkpointFrequency) in
  let from := if from =? 0 then 1 else from in
  let pad := u32 (checkpointFrequency - 1 - to mod checkpointFrequency) in
  let to := if to <? u32 (max_u32 - pad) then u32 (to + pad) else max_u32 in
  mkInterval from to.

(** The merge loop: [last] is the interval under construction
    ([merged[len(merged)-1]]), the result is what [merged] holds at the end. *)
Fixpoint mergeLoop (last : Interval) (rest : list Interval) : list Interval :=
  match rest with
  | [] => [last]
  | iv :: rest =>
      if iv_From iv <=? u32 (iv_To last + 1) then
        mergeLoop (if iv_To last <? iv_To iv
                   then mkInterval (iv_From last) (iv_To iv) else last) rest
      else last :: mergeLoop iv rest
  end.

Definition normalizePlan (inp : list Interval) (padding : Z) : list Interval :=
  match sort_by iv_From (padSnap padding <$> inp) with
  | [] => []
  | iv :: rest => mergeLoop iv rest
  end.

(** [partition] cuts [[from, to]] into alternating deferred and replay
    pieces; [cur] is the loop's cursor. *)
Fixpoint partitionLoop (cur to : Z) (plan : list Interval) : list piece :=
  match plan with
  | [] => [mkPiece cur to HealModeDeferred]
  | iv :: plan =>
      if iv_To iv <? cur then partitionLoop cur to plan
      else if to <? iv_From iv then [mkPiece cur to HealModeDeferred]
      else
        let start := max32 (iv_From iv) cur in
        let end_ := min32 (iv_To iv) to in
        (if cur <? start
         then [mkPiece cur (u32 (start - 1)) HealModeDeferred] else [])
        ++ mkPiece start end_ HealModeReplay
        :: (if end_ =? to then [] else partitionLoop (u32 (end_ + 1)) to plan)
  end.

Definition partition (from to : Z) (plan : list Interval) : list piece :=
  partitionLoop from to plan.

(** ** Specification vocabulary *)

(** A ledger belongs to a plan when some interval contains it. *)
Definition in_plan (plan : list Interval) (l : Z) : Prop :=
  Exists (λ iv, iv_From iv ≤ l ≤ iv_To iv) plan.

Definition in_planb (plan : list Interval) (l : Z) : bool :=
  existsb (λ iv, (iv_From iv <=? l) && (l <=? iv_To iv)) plan.

(** [tiles from to ps]: the pieces are non-empty, ascending and adjacent, the
    first starts at [from] and the last ends at [to]. *)
Fixpoint tiles (from to : Z) (ps : list piece) : Prop :=
  match ps with
  | [] => False
  | [p] => p_from p = from ∧ p_to p = to ∧ from ≤ to
  | p :: ps => p_from p = from ∧ from ≤ p_to p < to ∧ tiles (p_to p + 1) to ps
  end.

Definition valid_interval (iv : Interval) : Prop :=
  1 ≤ iv_From iv ≤ iv_To iv ∧ iv_To iv ≤ max_u32.

(** The order a plan needs for the early exit of the partition loop. *)
Definition plan_sorted (plan : list Interval) : Prop :=
  StronglySorted (λ a b, iv_From a ≤ iv_From b) plan.

(** The mode the plan gives a ledger. *)
Definition plan_mode (plan : list Interval) (l : Z) : string :=
  if in_planb plan l then HealModeReplay else HealModeDeferred.

(** ** Bounds of the elementary operations *)

Lemma max32_max a b : max32 a b = Z.max a b.
Proof. unfold max32. destruct (Z.ltb_spec b a); lia. Qed.

Lemma min32_min a b : min32 a b = Z.min a b.
Proof. unfold min32. destruct (Z.ltb_spec a b); lia. Qed.

Lemma in_planb_spec plan l : in_planb plan l = true ↔ in_plan plan l.
Proof.
  unfold in_planb, in_plan. rewrite existsb_exists, Exists_exists.
  setoid_rewrite <- list_elem_of_In. setoid_rewrite andb_true_iff.
  by setoid_rewrite Z.leb_le.
Qed.

(** A plan is a set of intervals: its order does not matter to membership. *)
#[export] Instance in_plan_proper : Proper (Permutation ==> eq ==> iff) in_plan.
Proof.
  intros p q Hpq l _ <-. unfold in_plan. rewrite !Exists_exists. by setoid_rewrite Hpq.
Qed.

Lemma plan_mode_replay plan l : in_plan plan l → plan_mode plan l = HealModeReplay.
Proof. intros ?%in_planb_spec. unfold plan_mode. by case_match. Qed.

Lemma plan_mode_deferred plan l : ¬ in_plan plan l → plan_mode plan l = HealModeDeferred.
Proof. rewrite <- in_planb_spec. unfold plan_mode. by case_match. Qed.

#[export] Hint Rewrite max32_max min32_min : sierpe_simp.

(** [plan_cases] splits the comparisons of the plan loops. *)
Ltac plan_cases :=
  repeat match goal with
  | |- context [?a <? ?b] => destruct (Z.ltb_spec a b)
  | |- context [?a <=? ?b] => destruct (Z.leb_spec a b)
  | |- context [?a =? ?b] => destruct (Z.eqb_spec a b)
  end.

(** ** The partition of one range *)

Lemma tiles_app from mid to ps qs :
  tiles from mid ps → tiles (mid + 1) to qs → tiles from to (ps ++ qs).
Proof.
  revert from. induction ps as [|p ps IH]; intros from; [done|].
  assert (Hne : ∀ a b rs, tiles a b rs → rs ≠ [] ∧ a ≤ b).
  { intros a b rs. revert a. induction rs as [|r rs IHr]; intros a; simpl; [done|].
    destruct rs; [intuition (discriminate || lia)|].
    intros (<- & ? & [_ ?]%IHr). split; [done|lia]. }
  destruct ps as [|p' ps]; simpl.
  - intros (<- & <- & ?) Hq. destruct (Hne _ _ _ Hq) as [? ?].
    destruct qs; [done|]. repeat split; auto; lia.
  - intros (<- & ? & Hps) Hq. destruct (Hne _ _ _ Hq). repeat split; [lia..|].
    by apply (IH (p_to p + 1)).
Qed.

(** What the loop produces from any valid cursor: a tiling of the remainder. *)
Lemma partitionLoop_tiles cur to plan :
  0 ≤ cur ≤ to → to ≤ max_u32 → Forall (λ iv, iv_From iv ≤ iv_To iv) plan →
  tiles cur to (partitionLoop cur to plan).
Proof.
  intros Hc Ht Hv. revert cur Hc. induction Hv as [|iv plan Hiv _ IH]; intros cur Hc; simpl.
  { repeat split; lia. }
  destruct (Z.ltb_spec (iv_To iv) cur); [by apply IH|].
  destruct (Z.ltb_spec to (iv_From iv)); [simpl; repeat split; lia|].
  rewrite max32_max, min32_min.
  assert (Hrest : tiles (Z.max (iv_From iv) cur) to
    (mkPiece (Z.max (iv_From iv) cur) (Z.min (iv_To iv) to) HealModeReplay
     :: (if Z.min (iv_To iv) to =? to then []
         else partitionLoop (u32 (Z.min (iv_To iv) to + 1)) to plan))).
  { destruct (Z.eqb_spec (Z.min (iv_To iv) to) to); [simpl; repeat split; lia|].
    rewrite u32_small by uarith.
    apply (tiles_app _ (Z.min (iv_To iv) to) _ [_]); [simpl; repeat split; lia|].
    apply IH. lia. }
  destruct (Z.ltb_spec cur (Z.max (iv_From iv) cur)) as [Hlt|]; simpl app.
  - apply (tiles_app _ (Z.max (iv_From iv) cur - 1) _ [_]).
    + simpl. rewrite u32_small by uarith. repeat split; lia.
    + by replace (Z.max (iv_From iv) cur - 1 + 1) with (Z.max (iv_From iv) cur) by lia.
  - by replace (Z.max (iv_From iv) cur) with cur in * by lia.
Qed.

Lemma tiles_elem from to ps p :
  tiles from to ps → p ∈ ps → from ≤ p_from p ≤ p_to p ∧ p_to p ≤ to.
Proof.
  revert from. induction ps as [|q ps IH]; intros from; simpl; [done|].
  destruct ps as [|q' ps].
  - intros (<- & <- & ?) ->%list_elem_of_singleton. lia.
  - intros (<- & ? & Ht) [->|Hp]%elem_of_cons; [|apply (IH _ Ht) in Hp; lia].
    assert (p_to q + 1 ≤ to); [|lia].
    lia.
Qed.

(** Every ledger of a tiled range is in exactly one piece. *)
Lemma tiles_cover from to ps l :
  tiles from to ps →
  (from ≤ l ≤ to ↔ ∃ p, p ∈ ps ∧ p_from p ≤ l ≤ p_to p).
Proof.
  intros Ht. split.
  - revert from Ht. induction ps as [|q ps IH]; intros from; simpl; [done|].
    destruct ps as [|q' ps].
    + intros (<- & <- & ?) ?. exists q. split; [by left|lia].
    + intros (<- & ? & Ht) ?. destruct (decide (l ≤ p_to q)).
      * exists q. split; [by left|lia].
      * destruct (IH _ Ht) as (p & ? & ?); [lia|]. exists p. split; [by right|lia].
  - intros (p & Hp & ?). pose proof (tiles_elem _ _ _ _ Ht Hp). lia.
Qed.

Lemma tiles_ordered from to ps :
  tiles from to ps → StronglySorted (λ p q, p_to p < p_from q) ps.
Proof.
  revert from. induction ps as [|q ps IH]; intros from; simpl; [constructor|].
  destruct ps as [|q' ps]; [repeat constructor|].
  intros (<- & ? & Ht). constructor; [by eapply IH|].
  apply Forall_forall. intros p Hp. pose proof (tiles_elem _ _ _ _ Ht Hp). lia.
Qed.

Lemma tiles_last from to ps : tiles from to ps → ∃ p, last ps = Some p ∧ p_to p = to.
Proof.
  revert from. induction ps as [|q ps IH]; intros from; simpl; [done|].
  destruct ps as [|q' ps]; [intros (_ & ? & _); by exists q|].
  intros (_ & _ & Ht). by apply IH in Ht.
Qed.

(** ** The mode of each piece *)


(** Past the first interval that starts above [l], nothing contains [l]. *)
Lemma plan_sorted_above iv plan l :
  plan_sorted (iv :: plan) → l < iv_From iv → ¬ in_plan (iv :: plan) l.
Proof.
  intros [Hall _]%StronglySorted_cons Hl. unfold in_plan.
  rewrite Exists_cons, Exists_exists. rewrite Forall_forall in Hall.
  intros [?|(iv' & Hin%Hall & ?)]; lia.
Qed.

(** [piece_mode_ok lo plan p]: every ledger of [p] has, among the intervals
    still to come and from [lo] on, the mode of the piece. *)
Definition piece_mode_ok (plan : list Interval) (p : piece) : Prop :=
  ∀ l, p_from p ≤ l ≤ p_to p → p_mode p = plan_mode plan l.

Lemma piece_mode_deferred plan from to :
  (∀ l, from ≤ l ≤ to → ¬ in_plan plan l) →
  piece_mode_ok plan (mkPiece from to HealModeDeferred).
Proof. intros H l Hl. symmetry. by apply plan_mode_deferred, H. Qed.

Lemma piece_mode_replay iv plan from to :
  iv ∈ plan → iv_From iv ≤ from → to ≤ iv_To iv →
  piece_mode_ok plan (mkPiece from to HealModeReplay).
Proof.
  intros Hin ?? l Hl. symmetry. apply plan_mode_replay.
  apply Exists_exists. exists iv. simpl in Hl. split; [done|lia].
Qed.

Lemma partitionLoop_modes cur to plan :
  0 ≤ cur ≤ to → to ≤ max_u32 → Forall (λ iv, iv_From iv ≤ iv_To iv) plan →
  plan_sorted plan →
  Forall (piece_mode_ok plan) (partitionLoop cur to plan).
Proof.
  intros Hc Ht Hv. revert cur Hc.
  induction Hv as [|iv plan Hiv Hvs IH]; intros cur Hc Hs; simpl.
  { by repeat constructor. }
  assert (Hskip : ∀ c, iv_To iv < c → 0 ≤ c ≤ to →
            Forall (piece_mode_ok (iv :: plan)) (partitionLoop c to plan)).
  { intros c Hlt Hc'. assert (Hs' : plan_sorted plan) by (by inversion Hs).
    pose proof (partitionLoop_tiles c to plan Hc' Ht Hvs) as Htl.
    apply Forall_forall. intros p Hp l Hl.
    pose proof (tiles_elem _ _ _ _ Htl Hp).
    specialize (IH c Hc' Hs'). rewrite Forall_forall in IH.
    rewrite (IH p Hp l Hl). unfold plan_mode, in_planb. simpl.
    destruct (Z.leb_spec l (iv_To iv)); [lia|]. by rewrite andb_false_r. }
  destruct (Z.ltb_spec (iv_To iv) cur); [by apply Hskip|].
  destruct (Z.ltb_spec to (iv_From iv)).
  { repeat constructor. apply piece_mode_deferred. intros l Hl.
    apply plan_sorted_above; [done|lia]. }
  rewrite max32_max, min32_min. apply Forall_app; split; [|apply Forall_cons; split].
  - destruct (Z.ltb_spec cur (Z.max (iv_From iv) cur)); [|done].
    rewrite u32_small by uarith. repeat constructor. apply piece_mode_deferred.
    intros l Hl. apply plan_sorted_above; [done|lia].
  - apply (piece_mode_replay iv); [by left|lia..].
  - destruct (Z.eqb_spec (Z.min (iv_To iv) to) to); [done|].
    rewrite u32_small by uarith. apply Hskip; lia.
Qed.

(** ** Partitioning a piece again gives the piece *)

Lemma partitionLoop_stable cur to plan p :
  0 ≤ cur ≤ to → to ≤ max_u32 → Forall (λ iv, iv_From iv ≤ iv_To iv) plan →
  p ∈ partitionLoop cur to plan →
  partitionLoop (p_from p) (p_to p) plan = [p].
Proof.
  intros Hc Ht Hv. revert cur Hc.
  induction Hv as [|iv plan Hiv Hvs IH]; intros cur Hc; simpl.
  { by intros ->%list_elem_of_singleton. }
  assert (Hskip : ∀ c, iv_To iv < c → 0 ≤ c ≤ to → p ∈ partitionLoop c to plan →
    (if iv_To iv <? p_from p then partitionLoop (p_from p) (p_to p) plan = [p] else False)).
  { intros c Hlt Hc' Hp.
    pose proof (tiles_elem _ _ _ _ (partitionLoop_tiles c to plan Hc' Ht Hvs) Hp).
    destruct (Z.ltb_spec (iv_To iv) (p_from p)); [|lia]. by apply (IH c). }
  destruct (Z.ltb_spec (iv_To iv) cur).
  { intros Hp. specialize (Hskip cur ltac:(lia) ltac:(lia) Hp). by case_match. }
  destruct (Z.ltb_spec to (iv_From iv)).
  { intros ->%list_elem_of_singleton. simpl.
    destruct (Z.ltb_spec (iv_To iv) cur); [lia|].
    by destruct (Z.ltb_spec to (iv_From iv)); [|lia]. }
  rewrite max32_max, min32_min, elem_of_app, elem_of_cons. intros [Hp|[->|Hp]].
  - destruct (Z.ltb_spec cur (Z.max (iv_From iv) cur)); [|by apply elem_of_nil in Hp].
    apply list_elem_of_singleton in Hp as ->. rewrite u32_small by uarith. simpl.
    destruct (Z.ltb_spec (iv_To iv) cur); [lia|].
    by destruct (Z.ltb_spec (Z.max (iv_From iv) cur - 1) (iv_From iv)); [|lia].
  - simpl. rewrite max32_max, min32_min.
    destruct (Z.ltb_spec (iv_To iv) (Z.max (iv_From iv) cur)); [lia|].
    destruct (Z.ltb_spec (Z.min (iv_To iv) to) (iv_From iv)); [lia|].
    replace (Z.max (iv_From iv) (Z.max (iv_From iv) cur)) with (Z.max (iv_From iv) cur) by lia.
    replace (Z.min (iv_To iv) (Z.min (iv_To iv) to)) with (Z.min (iv_To iv) to) by lia.
    by rewrite Z.ltb_irrefl, Z.eqb_refl.
  - destruct (Z.eqb_spec (Z.min (iv_To iv) to) to); [by apply elem_of_nil in Hp|].
    rewrite u32_small in Hp by uarith.
    apply Hskip in Hp; [|lia..]. by case_match.
Qed.

(** ** Normalisation *)

Lemma padSnap_spec padding iv :
  valid_interval iv → is_u32 padding →
  let r := padSnap padding iv in
  valid_interval r ∧
  iv_From r ≤ Z.max 1 (iv_From iv - padding) ∧
  Z.min max_u32 (iv_To iv + padding) ≤ iv_To r ∧
  (iv_From r = 1 ∨ iv_From r mod 64 = 0) ∧ iv_To r mod 64 = 63 ∧
  iv_From iv - padding - 63 ≤ iv_From r ∧ iv_To r ≤ iv_To iv + padding + 63.
Proof.
  intros [[? ?] ?] ?. unfold padSnap, valid_interval, checkpointFrequency, is_u32, max_u32 in *.
  cbv zeta. set (f := iv_From iv) in *. set (t := iv_To iv) in *.
  rewrite (u32_small (4294967295 - padding)) by uarith.
  assert (∃ f1, (if padding <? f then u32 (f - padding) else 1) = f1 ∧
    f1 = Z.max 1 (f - padding)) as (f1 & -> & ?).
  { eexists; split; [done|]. destruct (Z.ltb_spec padding f); [|lia].
    rewrite u32_small by uarith. lia. }
  assert (∃ t1, (if t <? 4294967295 - padding then u32 (t + padding) else 4294967295) = t1
    ∧ t1 = Z.min 4294967295 (t + padding)) as (t1 & -> & ?).
  { eexists; split; [done|]. destruct (Z.ltb_spec t (4294967295 - padding)); [|lia].
    rewrite u32_small by uarith. lia. }
  pose proof (Z.mod_pos_bound f1 64 ltac:(lia)).
  pose proof (Z.mod_pos_bound t1 64 ltac:(lia)).
  pose proof (Z.div_mod f1 64 ltac:(lia)).
  pose proof (Z.div_mod t1 64 ltac:(lia)).
  rewrite (u32_small (f1 - f1 mod 64)) by uarith.
  rewrite (u32_small (64 - 1 - t1 mod 64)) by uarith.
  rewrite (u32_small (4294967295 - (64 - 1 - t1 mod 64))) by uarith.
  assert (Hf64 : (f1 - f1 mod 64) mod 64 = 0).
  { replace (f1 - f1 mod 64) with (f1 / 64 * 64) by lia. apply Z.mod_mul. lia. }
  assert (Ht64 : (t1 + (63 - t1 mod 64)) mod 64 = 63).
  { replace (t1 + (63 - t1 mod 64)) with (63 + t1 / 64 * 64) by lia.
    rewrite Z.mod_add by lia. done. }
  replace (64 - 1 - t1 mod 64) with (63 - t1 mod 64) by lia.
  destruct (Z.eqb_spec (f1 - f1 mod 64) 0);
    destruct (Z.ltb_spec t1 (4294967295 - (63 - t1 mod 64))); simpl;
    try rewrite (u32_small (t1 + (63 - t1 mod 64))) by uarith;
    repeat split; try lia; try done; auto; lia.
Qed.





Lemma mergeLoop_from last rest :
  plan_sorted (last :: rest) → Forall (λ iv, iv_From last ≤ iv_From iv) (mergeLoop last rest).
Proof.
  revert last. induction rest as [|iv rest IH]; intros last Hs; simpl.
  { constructor; [lia|done]. }
  apply StronglySorted_cons in Hs as [Hle Hs]. apply Forall_cons in Hle as [? Hle].
  assert (Hs' := Hs). apply StronglySorted_cons in Hs' as [Hle' Hs'].
  destruct (Z.leb_spec (iv_From iv) (u32 (iv_To last + 1))).
  - assert (Hm : ∀ m, iv_From m = iv_From last →
      Forall (λ iv, iv_From last ≤ iv_From iv) (mergeLoop m rest)).
    { intros m Hm. rewrite <- Hm. apply IH. apply StronglySorted_cons. split; [|done].
      eapply Forall_impl; [exact Hle|]. simpl. intros; lia. }
    by destruct (Z.ltb_spec (iv_To last) (iv_To iv)); apply Hm.
  - constructor; [lia|]. eapply Forall_impl; [by apply IH|]. simpl. intros; lia.
Qed.

(** The merged plan is valid and sorted, and two neighbours are separated by
    at least one ledger unless the first reaches the end of the number range. *)
Definition plan_separated (plan : list Interval) : Prop :=
  StronglySorted (λ a b, iv_From a ≤ iv_From b ∧
                         (iv_To a = max_u32 ∨ iv_To a + 1 < iv_From b)) plan.

Lemma mergeLoop_separated last rest :
  valid_interval last → Forall valid_interval rest → plan_sorted (last :: rest) →
  Forall valid_interval (mergeLoop last rest) ∧ plan_separated (mergeLoop last rest).
Proof.
  intros Hl Hr. revert last Hl.
  induction Hr as [|iv rest Hiv _ IH]; intros last Hl Hs; simpl.
  { split; repeat constructor; apply Hl. }
  assert (Hs' := Hs).
  apply StronglySorted_cons in Hs as [Hle Hs]. apply Forall_cons in Hle as [? Hle].
  assert (Hcase : ∀ m, iv_From m = iv_From last → plan_sorted (m :: rest)).
  { intros m Hm. apply StronglySorted_cons. split.
    - eapply Forall_impl; [exact Hle|]. simpl. intros; lia.
    - by apply StronglySorted_cons in Hs as [_ ?]. }
  unfold valid_interval in *.
  destruct (Z.leb_spec (iv_From iv) (u32 (iv_To last + 1))) as [Hov|Hov].
  - destruct (Z.ltb_spec (iv_To last) (iv_To iv));
      apply IH; try (by apply Hcase); simpl; lia.
  - destruct (IH iv) as [Hv Hsep]; [done..|]. split; [by constructor|].
    apply StronglySorted_cons. split; [|done].
    eapply Forall_impl; [apply (mergeLoop_from iv rest Hs)|]. simpl. intros x Hx.
    split; [lia|]. destruct (decide (iv_To last = max_u32)) as [|Hne]; [by left|right].
    rewrite u32_small in Hov by uarith. lia.
Qed.

(** The padded intervals, sorted: what the merge loop starts from. *)
Lemma padded_valid inp padding :
  Forall valid_interval inp → is_u32 padding →
  Forall valid_interval (sort_by iv_From (padSnap padding <$> inp)).
Proof.
  intros Hv Hp. rewrite sort_by_perm, Forall_fmap.
  eapply Forall_impl; [exact Hv|]. intros iv Hiv. simpl.
  by apply (padSnap_spec padding iv).
Qed.

Lemma normalizePlan_valid inp padding :
  Forall valid_interval inp → is_u32 padding →
  Forall valid_interval (normalizePlan inp padding) ∧
  plan_separated (normalizePlan inp padding).
Proof.
  intros Hv Hp. pose proof (padded_valid _ _ Hv Hp) as Hpv.
  pose proof (sort_by_sorted iv_From (padSnap padding <$> inp)) as Hs.
  unfold normalizePlan. destruct (sort_by _ _) as [|iv rest]; [split; constructor|].
  apply Forall_cons in Hpv as [? ?]. by apply mergeLoop_separated.
Qed.

Lemma normalizePlan_sorted inp padding :
  Forall valid_interval inp → is_u32 padding → plan_sorted (normalizePlan inp padding).
Proof.
  intros Hv Hp. destruct (normalizePlan_valid _ _ Hv Hp) as [_ Hs].
  eapply StronglySorted_weaken; [|exact Hs]. by intros x y [? _].
Qed.


Lemma valid_interval_le plan :
  Forall valid_interval plan → Forall (λ iv, iv_From iv ≤ iv_To iv) plan.
Proof. intros H. eapply Forall_impl; [exact H|]. by intros iv [[_ ?] _]. Qed.

#[export] Hint Resolve normalizePlan_sorted valid_interval_le : sierpe.

(** ** Properties *)


(** [partition] never loses and never duplicates a ledger: the pieces of a
    range tile it from end to end, and each piece is to be replayed exactly
    when the plan asks for its ledgers. *)
Theorem partition_correct (from to : Z) (plan : list Interval) :
  0 ≤ from ≤ to → to ≤ max_u32 → Forall (λ iv, iv_From iv ≤ iv_To iv) plan →
  plan_sorted plan →
  tiles from to (partition from to plan) ∧
  ∀ p l, p ∈ partition from to plan → p_from p ≤ l ≤ p_to p →
    (p_mode p = HealModeReplay ∧ in_plan plan l) ∨
    (p_mode p = HealModeDeferred ∧ ¬ in_plan plan l).
Proof.
  intros Hc Ht Hv Hs. split; [by apply partitionLoop_tiles|].
  intros p l Hp Hl. pose proof (partitionLoop_modes from to plan Hc Ht Hv Hs) as Hm.
  rewrite Forall_forall in Hm. rewrite (Hm p Hp l Hl).
  unfold plan_mode. pose proof (in_planb_spec plan l) as Hb.
  destruct (in_planb plan l); [left|right]; split; try done; by intuition.
Qed.

(** ** Witnesses and concrete runs *)

Definition demo_intervals : list Interval := [mkInterval 5000 5100; mkInterval 1000 1010].


Lemma partition_correct_witness :
  tiles 900 6000 (partition 900 6000 (normalizePlan demo_intervals 300)).
Proof.
  apply (partition_correct 900 6000 (normalizePlan demo_intervals 300)).
  - lia.
  - uarith.
  - vm_compute. repeat constructor; discriminate.
  - vm_compute. repeat constructor; discriminate.
Defined.

Example partition_demo :
  partition 900 6000 (normalizePlan demo_intervals 300) =
    [mkPiece 900 1343 HealModeReplay; mkPiece 1344 4671 HealModeDeferred;
     mkPiece 4672 5439 HealModeReplay; mkPiece 5440 6000 HealModeDeferred].
Proof. vm_compute. reflexivity. Qed.

(** At the end of the [uint32] range the merge test [last.To+1] wraps to zero
    and an interval contained in the last one is kept beside it. *)
Lemma normalizePlan_overlap_at_max :
  normalizePlan [mkInterval 64 max_u32; mkInterval 128 200] 0
  = [mkInterval 64 max_u32; mkInterval 128 255].
Proof. vm_compute. reflexivity. Qed.
