(* ===== verification/Db.v ===== *)
(** * The database: rows, tables and transactions ([internal/store])

    The tables of [internal/store/migrations] as finite maps from their primary
    keys, the Go structs of the store package as records, and transactions as
    trees of SQL statements with two readings: [run], in which every statement
    reaches the server, and [BeginFunc], in which any statement may fail and
    the whole transaction is rolled back.

    The columns [ingested_at] (every table) and [updated_at] (all tables but
    [backfill]) are written with the server's clock and read by nothing in the
    program; they are left out.  [text] columns that the code writes with
    [::numeric] keep the decimal text the code sends. *)

From S2P Require Import Prelude.

(** ** Errors *)

(** The sentinel errors of the packages and the failures the code tells apart;
    messages are not modelled. *)
Inductive goerr :=
  | ErrSQL                (** a statement or the connection failed *)
  | ErrUnique             (** a unique index other than the arbiter rejected a row *)
  | ErrNoCursor
  | ErrNoContract
  | ErrNoBackfill
  | ErrVanished           (** "vanished mid-chunk": an UPDATE matched no row *)
  | ErrInvertedRange      (** RecordGap on an inverted range *)
  | ErrNotYetAvailable
  | ErrBelowRetention
  | ErrResponseTooLarge
  | ErrOther.             (** any error the code does not single out *)

#[export] Instance goerr_eq_dec : EqDecision goerr.
Proof. solve_decision. Defined.

Inductive res (A : Type) :=
  | Ok (a : A)
  | Err (e : goerr).
Arguments Ok {_} _.
Arguments Err {_} _.

(** ** The structs of the store package *)

(** [store.Event] *)
Record Event := mkEvent {
  ev_ID : string; ev_ContractID : string; ev_LedgerSequence : Z; ev_ClosedAt : Z;
  ev_TxHash : string; ev_TxIndex : Z; ev_OpIndex : Z; ev_EventIndex : Z;
  ev_EventName : string; ev_Topics : list string; ev_ValueXDR : string; ev_RawXDR : string }.

(** [store.StateChange] *)
Record StateChange := mkStateChange {
  sc_ID : string; sc_ContractID : string; sc_LedgerSequence : Z; sc_ClosedAt : Z;
  sc_TxHash : string; sc_TxIndex : Z; sc_OpIndex : Z; sc_ChangeIndex : Z;
  sc_ChangeType : string; sc_KeyXDR : string; sc_Durability : string;
  sc_PreXDR : string; sc_PostXDR : string }.

(** [store.StateEntry] *)
Record StateEntry := mkStateEntry {
  se_ContractID : string; se_KeyXDR : string; se_Durability : string;
  se_ValueXDR : string; se_Deleted : bool; se_LastLedger : Z; se_ClosedAt : Z }.

(** [store.Transfer] *)
Record Transfer := mkTransfer {
  tr_ID : string; tr_ContractID : string; tr_LedgerSequence : Z; tr_ClosedAt : Z;
  tr_TxHash : string; tr_TxIndex : Z; tr_OpIndex : Z; tr_EventIndex : Z;
  tr_TransferType : string; tr_FromAddress : string; tr_ToAddress : string;
  tr_ToMuxedID : string; tr_Amount : string; tr_Asset : string }.

(** [store.TrustlineChange] *)
Record TrustlineChange := mkTrustlineChange {
  tl_ID : string; tl_ContractID : string; tl_AccountID : string; tl_Asset : string;
  tl_LedgerSequence : Z; tl_ClosedAt : Z; tl_TxHash : string; tl_TxIndex : Z;
  tl_OpIndex : Z; tl_ChangeIndex : Z; tl_ChangeType : string;
  tl_PreBalance : option Z; tl_PostBalance : option Z;
  tl_PreLimit : option Z; tl_PostLimit : option Z; tl_Flags : Z }.

(** [store.TrustlineEntry] *)
Record TrustlineEntry := mkTrustlineEntry {
  te_ContractID : string; te_AccountID : string; te_Asset : string;
  te_Balance : option Z; te_Limit : option Z; te_Flags : Z; te_Deleted : bool;
  te_LastLedger : Z; te_ClosedAt : Z }.

(** [store.Movement] *)
Record Movement := mkMovement {
  mv_ContractID : string; mv_TransferID : string; mv_Role : string;
  mv_TokenContractID : string; mv_TransferType : string; mv_Counterparty : string;
  mv_Amount : string; mv_RawXDR : string; mv_LedgerSequence : Z; mv_ClosedAt : Z }.

(** [store.Contract]; [Classification] is raw JSON, nil before classification. *)
Record Contract := mkContract {
  ct_Network : string; ct_ContractID : string; ct_Source : string;
  ct_Kinds : list string; ct_Classification : option string; ct_RegisteredAt : Z }.

(** [store.Backfill] *)
Record Backfill := mkBackfill {
  bf_ContractID : string; bf_TargetFrom : Z; bf_NextTo : Z; bf_Done : bool;
  bf_ClampedAt : option Z; bf_CoveredKinds : list string }.

(** [store.BackfillJob] *)
Record BackfillJob := mkBackfillJob { job_Backfill : Backfill; job_Contract : Contract }.

(** [store.Gap] *)
Record Gap := mkGap {
  gap_ID : string; gap_From : Z; gap_To : Z; gap_Reason : string;
  gap_HealNextTo : Z; gap_HealMode : string; gap_RecordedAt : Z }.

(** [store.Cursor] *)
Record Cursor := mkCursor { cur_Sequence : Z; cur_Hash : string }.

(** [store.LedgerRecord] *)
Record LedgerRecord := mkLedgerRecord {
  lr_Sequence : Z; lr_Hash : string; lr_PreviousHash : string; lr_ClosedAt : Z }.

(** [PlanResult] *)
Record PlanResult := mkPlanResult {
  pr_ReplayGaps : Z; pr_DeferredGaps : Z; pr_ReplayLedgers : Z; pr_DeferredLedgers : Z }.

(** ** The rows of the tables *)

(** Table [events], without its key [(network, id)]; the nullable filter
    columns are the first four topics. *)
Record event_row := mkEventRow {
  er_contract_id : string; er_ledger_sequence : Z; er_closed_at : Z;
  er_tx_hash : string; er_tx_index : Z; er_op_index : Z; er_event_index : Z;
  er_event_name : option string;
  er_topic0 : option string; er_topic1 : option string;
  er_topic2 : option string; er_topic3 : option string;
  er_topics : list string; er_value_xdr : string; er_raw_xdr : string }.

Record state_change_row := mkStateChangeRow {
  scr_contract_id : string; scr_ledger_sequence : Z; scr_closed_at : Z;
  scr_tx_hash : string; scr_tx_index : Z; scr_op_index : Z; scr_change_index : Z;
  scr_change_type : string; scr_key_xdr : string; scr_durability : string;
  scr_pre_xdr : option string; scr_post_xdr : option string }.

(** Table [state_entries], without its key
    [(network, contract_id, key_xdr, durability)]. *)
Record state_entry_row := mkStateEntryRow {
  ser_value_xdr : option string; ser_deleted : bool;
  ser_last_ledger : Z; ser_closed_at : Z }.

Record transfer_row := mkTransferRow {
  trr_contract_id : string; trr_ledger_sequence : Z; trr_closed_at : Z;
  trr_tx_hash : string; trr_tx_index : Z; trr_op_index : Z; trr_event_index : Z;
  trr_transfer_type : string; trr_from_address : option string;
  trr_to_address : option string; trr_to_muxed_id : option string;
  trr_amount : string; trr_asset : option string }.

Record trustline_change_row := mkTrustlineChangeRow {
  tlr_contract_id : string; tlr_account_id : string; tlr_asset : string;
  tlr_ledger_sequence : Z; tlr_closed_at : Z; tlr_tx_hash : string;
  tlr_tx_index : Z; tlr_op_index : Z; tlr_change_index : Z; tlr_change_type : string;
  tlr_pre_balance : option Z; tlr_post_balance : option Z;
  tlr_pre_limit : option Z; tlr_post_limit : option Z; tlr_flags : Z }.

(** Table [trustline_entries], without its key
    [(network, contract_id, account_id)]. *)
Record trustline_entry_row := mkTrustlineEntryRow {
  ter_asset : string; ter_balance : option Z; ter_trust_limit : option Z;
  ter_flags : Z; ter_deleted : bool; ter_last_ledger : Z; ter_closed_at : Z }.

(** Table [movements], without its key
    [(network, contract_id, transfer_id, role)]. *)
Record movement_row := mkMovementRow {
  mvr_token_contract_id : string; mvr_transfer_type : string;
  mvr_counterparty : option string; mvr_amount : string; mvr_raw_xdr : option string;
  mvr_ledger_sequence : Z; mvr_closed_at : Z }.

(** Table [gaps], without its key [id]. *)
Record gap_row := mkGapRow {
  g_network : string; g_from : Z; g_to : Z; g_reason : string; g_recorded_at : Z;
  g_resolved_at : option Z; g_heal_next_to : option Z; g_heal_mode : string }.

(** Table [backfill], without its key [(network, contract_id)]. *)
Record backfill_row := mkBackfillRow {
  b_target_from : Z; b_next_to : Z; b_done : bool; b_clamped_at : option Z;
  b_covered_kinds : list string; b_updated_at : Z }.

(** Table [contracts], without its key [(network, contract_id)]. *)
Record contract_row := mkContractRow {
  c_source : string; c_kinds : list string; c_classification : option string;
  c_registered_at : Z }.

(** Table [ledger_hashes], without its key [sequence]. *)
Record hash_row := mkHashRow { h_hash : string; h_previous_hash : string; h_closed_at : Z }.

#[export] Instance event_row_eq_dec : EqDecision event_row.
Proof. solve_decision. Defined.
#[export] Instance gap_row_eq_dec : EqDecision gap_row.
Proof. solve_decision. Defined.
#[export] Instance backfill_row_eq_dec : EqDecision backfill_row.
Proof. solve_decision. Defined.

Record db := mkDb {
  db_cursor : gmap string Cursor;
  db_ledger_hashes : gmap Z hash_row;
  db_gaps : gmap string gap_row;
  db_contracts : gmap (string * string) contract_row;
  db_backfill : gmap (string * string) backfill_row;
  db_events : gmap (string * string) event_row;
  db_state_changes : gmap (string * string) state_change_row;
  db_state_entries : gmap (string * string * string * string) state_entry_row;
  db_transfers : gmap (string * string) transfer_row;
  db_trustline_changes : gmap (string * string) trustline_change_row;
  db_trustline_entries : gmap (string * string * string) trustline_entry_row;
  db_movements : gmap (string * string * string * string) movement_row }.

Definition empty_db : db := mkDb ∅ ∅ ∅ ∅ ∅ ∅ ∅ ∅ ∅ ∅ ∅ ∅.

(** Replacing one table. *)
Definition set_cursor f (d : db) : db :=
  let 'mkDb a b c e g h i j k l m n := d in mkDb (f a) b c e g h i j k l m n.
Definition set_ledger_hashes f (d : db) : db :=
  let 'mkDb a b c e g h i j k l m n := d in mkDb a (f b) c e g h i j k l m n.
Definition set_gaps f (d : db) : db :=
  let 'mkDb a b c e g h i j k l m n := d in mkDb a b (f c) e g h i j k l m n.
Definition set_contracts f (d : db) : db :=
  let 'mkDb a b c e g h i j k l m n := d in mkDb a b c (f e) g h i j k l m n.
Definition set_backfill f (d : db) : db :=
  let 'mkDb a b c e g h i j k l m n := d in mkDb a b c e (f g) h i j k l m n.
Definition set_events f (d : db) : db :=
  let 'mkDb a b c e g h i j k l m n := d in mkDb a b c e g (f h) i j k l m n.
Definition set_state_changes f (d : db) : db :=
  let 'mkDb a b c e g h i j k l m n := d in mkDb a b c e g h (f i) j k l m n.
Definition set_state_entries f (d : db) : db :=
  let 'mkDb a b c e g h i j k l m n := d in mkDb a b c e g h i (f j) k l m n.
Definition set_transfers f (d : db) : db :=
  let 'mkDb a b c e g h i j k l m n := d in mkDb a b c e g h i j (f k) l m n.
Definition set_trustline_changes f (d : db) : db :=
  let 'mkDb a b c e g h i j k l m n := d in mkDb a b c e g h i j k (f l) m n.
Definition set_trustline_entries f (d : db) : db :=
  let 'mkDb a b c e g h i j k l m n := d in mkDb a b c e g h i j k l (f m) n.
Definition set_movements f (d : db) : db :=
  let 'mkDb a b c e g h i j k l m n := d in mkDb a b c e g h i j k l m (f n).

(** ** Transactions *)

(** A transaction is a tree of statements.  A statement sees the server's
    clock ([now()], fixed for a transaction) and the tables, and answers with a
    value (rows, a count of affected rows) and the new tables, or rejects. *)
Inductive Tx (A : Type) : Type :=
  | TRet (a : A)
  | TThrow (e : goerr)
  | TStmt (B : Type) (s : Z → db → res (B * db)) (k : B → Tx A).
Arguments TRet {_} _.
Arguments TThrow {_} _.
Arguments TStmt {_ _} _ _.

Fixpoint tx_bind {A B} (t : Tx A) (f : A → Tx B) : Tx B :=
  match t with
  | TRet a => f a
  | TThrow e => TThrow e
  | TStmt s k => TStmt s (λ b, tx_bind (k b) f)
  end.

Declare Scope tx_scope.
Notation "x <-- t ; k" := (tx_bind t (λ x, k))
  (at level 20, t at level 100, k at level 200) : tx_scope.
Notation "t ;;; k" := (tx_bind t (λ _, k))
  (at level 100, k at level 200, right associativity) : tx_scope.
#[global] Open Scope tx_scope.

(** A write: the new tables and the number of rows affected. *)
Definition exec (s : Z → db → db * Z) : Tx Z :=
  TStmt (λ now d, let '(d', n) := s now d in Ok (n, d')) TRet.

(** A write that a constraint may reject. *)
Definition exec_checked (s : Z → db → res db) : Tx unit :=
  TStmt (λ now d, match s now d with Ok d' => Ok (tt, d') | Err e => Err e end) TRet.

Definition query {A} (q : db → A) : Tx A :=
  TStmt (λ _ d, Ok (q d, d)) TRet.

Fixpoint foreach {A} (f : A → Tx unit) (l : list A) : Tx unit :=
  match l with
  | [] => TRet tt
  | x :: l => f x ;;; foreach f l
  end.

(** Every statement reaches the server. *)
Fixpoint run {A} (now : Z) (t : Tx A) (d : db) : res (A * db) :=
  match t with
  | TRet a => Ok (a, d)
  | TThrow e => Err e
  | TStmt s k => match s now d with
                 | Ok (b, d') => run now (k b) d'
                 | Err e => Err e
                 end
  end.

(** The failures of the world: the error, if any, that the [n]-th statement of
    the transaction meets (connection lost, deadline, deadlock, ...). *)
Definition faults := nat → option goerr.
Definition no_faults : faults := λ _, None.

Fixpoint run_faulty {A} (fl : faults) (n : nat) (now : Z) (t : Tx A) (d : db)
    : res (A * nat * db) :=
  match t with
  | TRet a => Ok (a, n, d)
  | TThrow e => Err e
  | TStmt s k =>
      match fl n with
      | Some e => Err e
      | None => match s now d with
                | Ok (b, d') => run_faulty fl (S n) now (k b) d'
                | Err e => Err e
                end
      end
  end.

(** [pgx.BeginFunc]: commit when the function returns nil, roll back otherwise;
    the commit is one more statement that can fail. *)
Definition BeginFunc {A} (fl : faults) (now : Z) (t : Tx A) (d : db) : res A * db :=
  match run_faulty fl 0 now t d with
  | Err e => (Err e, d)
  | Ok (a, n, d') => match fl n with
                     | Some e => (Err e, d)
                     | None => (Ok a, d')
                     end
  end.

(** ** Statements over a table *)

(** [SELECT ... WHERE]: the rows a predicate keeps. *)
Definition sel `{Countable K} {V} (P : K → V → bool) (m : gmap K V) : list (K * V) :=
  filter (λ kv, P kv.1 kv.2 = true) (map_to_list m).

(** [UPDATE ... SET ... WHERE], with the number of affected rows. *)
Definition upd `{Countable K} {V} (P : K → V → bool) (f : V → V) (m : gmap K V)
    : gmap K V :=
  map_imap (λ k v, Some (if P k v then f v else v)) m.

Definition affected `{Countable K} {V} (P : K → V → bool) (m : gmap K V) : Z :=
  Z.of_nat (length (sel P m)).

(** [DELETE ... WHERE]. *)
Definition del `{Countable K} {V} (P : K → V → bool) (m : gmap K V) : gmap K V :=
  filter (λ kv, P kv.1 kv.2 = false) m.

(** [INSERT ... ON CONFLICT DO UPDATE]: [f None] is the inserted row, [f (Some
    r)] what a conflict with [r] leaves ([r] itself for [DO NOTHING]). *)
Definition upsert `{Countable K} {V} (k : K) (f : option V → V) (m : gmap K V) : gmap K V :=
  <[k := f (m !! k)]> m.

(** ** Lemmas *)

Section tables.
Context {K : Type} `{Countable K} {V : Type}.
Implicit Types (m : gmap K V) (P : K → V → bool).

Lemma elem_of_sel P m k v : (k, v) ∈ sel P m ↔ m !! k = Some v ∧ P k v = true.
Proof.
  unfold sel. rewrite list_elem_of_filter, elem_of_map_to_list. simpl. tauto.
Qed.

Lemma NoDup_sel P m : NoDup (sel P m).*1.
Proof.
  unfold sel. pose proof (NoDup_fst_map_to_list m) as Hnd.
  induction (map_to_list m) as [|[k v] l IH]; simpl; [constructor|].
  simpl in Hnd. apply NoDup_cons in Hnd as [Hk Hnd].
  rewrite filter_cons. case_decide; [|auto]. simpl. constructor; [|auto].
  intros ([k' v'] & -> & Hin%list_elem_of_filter)%list_elem_of_fmap.
  apply Hk, list_elem_of_fmap. exists (k', v'). tauto.
Qed.

Lemma lookup_upd P f m k : upd P f m !! k = (λ v, if P k v then f v else v) <$> m !! k.
Proof. unfold upd. rewrite map_lookup_imap. by destruct (m !! k). Qed.

Lemma lookup_upd_Some P f m k v :
  upd P f m !! k = Some v ↔ ∃ w, m !! k = Some w ∧ v = if P k w then f w else w.
Proof.
  rewrite lookup_upd. destruct (m !! k) as [w|]; simpl.
  - split; [intros [= <-]; eauto|by intros (? & [= <-] & ->)].
  - by split; [|intros (? & ? & _)].
Qed.

Lemma lookup_del_Some P m k v : del P m !! k = Some v ↔ m !! k = Some v ∧ P k v = false.
Proof. unfold del. by rewrite map_lookup_filter_Some. Qed.

Lemma affected_zero P m : affected P m = 0 ↔ ∀ k v, m !! k = Some v → P k v = false.
Proof.
  unfold affected. split.
  - intros Hz k v Hk. destruct (P k v) eqn:HP; [|done].
    assert ((k, v) ∈ sel P m) as Hin by by apply elem_of_sel.
    destruct (sel P m); [by apply elem_of_nil in Hin|done].
  - intros Hf. destruct (sel P m) as [|[k v] l] eqn:Hs; [done|].
    assert ((k, v) ∈ sel P m) as [Hk HP]%elem_of_sel by (rewrite Hs; by left).
    by rewrite (Hf _ _ Hk) in HP.
Qed.

Lemma upd_none P f m : (∀ k v, m !! k = Some v → P k v = false) → upd P f m = m.
Proof.
  intros Hf. apply map_eq. intros k. rewrite lookup_upd.
  destruct (m !! k) as [v|] eqn:Hk; simpl; [|done]. by rewrite (Hf _ _ Hk).
Qed.

(** A batch of upserts with distinct keys. *)
Section upserts.
Context {A : Type} (key : A → K) (f : A → option V → V).
Implicit Types (xs : list A).

Lemma foldl_upsert_notin xs m k :
  k ∉ key <$> xs → foldl (λ m x, upsert (key x) (f x) m) m xs !! k = m !! k.
Proof.
  revert m. induction xs as [|x xs IH]; intros m; simpl; [done|].
  intros [? ?]%not_elem_of_cons. rewrite IH by done.
  unfold upsert. by rewrite lookup_insert_ne.
Qed.

Lemma foldl_upsert_in xs m x :
  NoDup (key <$> xs) → x ∈ xs →
  foldl (λ m x, upsert (key x) (f x) m) m xs !! key x = Some (f x (m !! key x)).
Proof.
  revert m. induction xs as [|y xs IH]; intros m; simpl.
  { intros _ Hx. by apply elem_of_nil in Hx. }
  intros [Hy Hnd]%NoDup_cons [->|Hx]%elem_of_cons.
  - rewrite foldl_upsert_notin by done. apply lookup_insert_eq.
  - rewrite IH by done. unfold upsert. rewrite lookup_insert_ne; [done|].
    intros Heq. apply Hy. rewrite Heq. by apply list_elem_of_fmap_2.
Qed.

Lemma foldl_upsert_lookup xs m k r :
  NoDup (key <$> xs) →
  foldl (λ m x, upsert (key x) (f x) m) m xs !! k = Some r ↔
  ((k ∉ key <$> xs) ∧ m !! k = Some r) ∨ (∃ x, x ∈ xs ∧ k = key x ∧ r = f x (m !! k)).
Proof.
  intros Hnd. destruct (decide (k ∈ key <$> xs)) as [Hin|Hin].
  - assert (Hin' := Hin). apply list_elem_of_fmap in Hin as (x & -> & Hx).
    rewrite foldl_upsert_in by done. split.
    + intros [= <-]. right. by exists x.
    + intros [[? _]|(y & Hy & Hk & ->)]; [done|]. rewrite Hk.
      by rewrite <- (foldl_upsert_in xs m y Hnd Hy), <- Hk, foldl_upsert_in.
  - rewrite foldl_upsert_notin by done. split; [by left|].
    intros [[_ ?]|(y & Hy & -> & _)]; [done|]. destruct Hin. by apply list_elem_of_fmap_2.
Qed.
End upserts.
End tables.

Lemma run_bind {A B} now (t : Tx A) (f : A → Tx B) d :
  run now (tx_bind t f) d =
  match run now t d with Ok (a, d') => run now (f a) d' | Err e => Err e end.
Proof.
  revert d. induction t as [a|e|C s k IH]; intros d; simpl; [done..|].
  destruct (s now d) as [[b d']|]; [apply IH|done].
Qed.

Lemma tx_bind_assoc {A B C} (t : Tx A) (f : A → Tx B) (g : B → Tx C) now d :
  run now (tx_bind (tx_bind t f) g) d = run now (tx_bind t (λ a, tx_bind (f a) g)) d.
Proof. rewrite !run_bind. destruct (run now t d) as [[? ?]|]; [by rewrite run_bind|done]. Qed.

(** A faulty run either stops at a fault or is the run without faults. *)
Lemma run_faulty_run {A} fl n now (t : Tx A) d :
  (∃ k e, fl k = Some e ∧ run_faulty fl n now t d = Err e) ∨
  ∃ n', run_faulty fl n now t d =
        match run now t d with Ok (a, d') => Ok (a, n', d') | Err e => Err e end.
Proof.
  revert n d. induction t as [a|e|C s k IH]; intros n d; simpl; [eauto..|].
  destruct (fl n) as [e|] eqn:Hf; [eauto|].
  destruct (s now d) as [[b d']|e]; [apply IH|eauto].
Qed.

(** What every transaction of the program has: it is applied entirely or not
    at all, whatever fails and whenever. *)
Lemma BeginFunc_atomic {A} fl now (t : Tx A) d :
  (∃ e, BeginFunc fl now t d = (Err e, d)) ∨
  (∃ a d', BeginFunc fl now t d = (Ok a, d') ∧ run now t d = Ok (a, d')).
Proof.
  unfold BeginFunc.
  destruct (run_faulty_run fl 0 now t d) as [(k & e & _ & ->)|(n' & ->)]; [eauto|].
  destruct (run now t d) as [[a d']|e]; [|eauto].
  destruct (fl n'); eauto.
Qed.

Lemma BeginFunc_quiet {A} now (t : Tx A) d :
  BeginFunc no_faults now t d =
  match run now t d with Ok (a, d') => (Ok a, d') | Err e => (Err e, d) end.
Proof.
  unfold BeginFunc.
  destruct (run_faulty_run no_faults 0 now t d) as [(k & e & ? & _)|(n' & ->)]; [done|].
  by destruct (run now t d) as [[a d']|e].
Qed.

(** Runs of a loop of statements: a property that every body preserves. *)
Lemma run_foreach_inv {A} (P : db → Prop) now (f : A → Tx unit) l d d' u :
  (∀ x d1 d2 v, x ∈ l → P d1 → run now (f x) d1 = Ok (v, d2) → P d2) →
  P d → run now (foreach f l) d = Ok (u, d') → P d'.
Proof.
  revert d. induction l as [|x l IH]; intros d Hf Hd; simpl.
  { by intros [= _ <-]. }
  rewrite run_bind. destruct (run now (f x) d) as [[v d1]|] eqn:Hx; [|done].
  apply IH; [|by eapply Hf; [left| |]].
  intros y d2 d3 w Hy. apply Hf. by right.
Qed.

Lemma run_foreach_app {A} now (f : A → Tx unit) l1 l2 d :
  run now (foreach f (l1 ++ l2)) d =
  match run now (foreach f l1) d with
  | Ok (_, d') => run now (foreach f l2) d'
  | Err e => Err e
  end.
Proof.
  revert d. induction l1 as [|x l IH]; intros d; simpl; [done|].
  rewrite !run_bind. by destruct (run now (f x) d) as [[? ?]|].
Qed.

(** A loop of total writes is the fold of their effects. *)
Lemma run_foreach_exec {A} now (f : A → Tx unit) (g : A → db → db) l d :
  (∀ x d, x ∈ l → run now (f x) d = Ok (tt, g x d)) →
  run now (foreach f l) d = Ok (tt, foldl (λ d x, g x d) d l).
Proof.
  revert d. induction l as [|x l IH]; intros d Hf; simpl; [done|].
  rewrite run_bind, Hf by (by left). apply IH. intros y d1 Hy. apply Hf. by right.
Qed.

Lemma db_gaps_set_gaps f d : db_gaps (set_gaps f d) = f (db_gaps d).
Proof. by destruct d. Qed.
Lemma db_gaps_set_backfill f d : db_gaps (set_backfill f d) = db_gaps d.
Proof. by destruct d. Qed.
Lemma db_backfill_set_gaps f d : db_backfill (set_gaps f d) = db_backfill d.
Proof. by destruct d. Qed.
Lemma db_backfill_set_backfill f d : db_backfill (set_backfill f d) = f (db_backfill d).
Proof. by destruct d. Qed.

(** Everything but the gaps and the backfill walks. *)
Definition rest_of (d : db) : db := set_gaps (λ _, ∅) (set_backfill (λ _, ∅) d).

Lemma rest_of_set_gaps f d : rest_of (set_gaps f d) = rest_of d.
Proof. by destruct d. Qed.
Lemma rest_of_set_backfill f d : rest_of (set_backfill f d) = rest_of d.
Proof. by destruct d. Qed.

Lemma foldl_set_gaps {A} (F : A → gmap string gap_row → gmap string gap_row) xs d :
  foldl (λ d x, set_gaps (F x) d) d xs = set_gaps (λ m, foldl (λ m x, F x m) m xs) d.
Proof.
  revert d. induction xs as [|x xs IH]; intros d; simpl; [by destruct d|].
  rewrite IH. by destruct d.
Qed.

#[export] Hint Rewrite db_gaps_set_gaps db_gaps_set_backfill db_backfill_set_gaps
  db_backfill_set_backfill rest_of_set_gaps rest_of_set_backfill : sierpe_simp.
#[export] Hint Rewrite @run_bind : sierpe_simp.

(** *** Framing

    A transaction that leaves a part of the database as it was. *)
Class Framed {X A : Type} (f : db → X) (t : Tx A) : Prop :=
  framed : ∀ now d a d', run now t d = Ok (a, d') → f d' = f d.

Section framing.
Context {X : Type} (f : db → X).

#[export] Instance framed_ret {A} (a : A) : Framed f (TRet a).
Proof. by intros now d a' d' [= _ <-]. Qed.

#[export] Instance framed_throw {A} e : Framed f (TThrow e : Tx A).
Proof. by intros now d a' d'. Qed.

#[export] Instance framed_bind {A B} (t : Tx A) (k : A → Tx B) :
  Framed f t → (∀ a, Framed f (k a)) → Framed f (tx_bind t k).
Proof.
  intros Ht Hk now d b d'. rewrite run_bind. destruct (run now t d) as [[a d1]|] eqn:H1; [|done].
  intros H2. rewrite (Hk a _ _ _ _ H2). by eapply Ht.
Qed.

#[export] Instance framed_query {A} (q : db → A) : Framed f (query q).
Proof. by intros now d a d' [= _ <-]. Qed.

#[export] Instance framed_foreach {A} (g : A → Tx unit) l : (∀ x, Framed f (g x)) → Framed f (foreach g l).
Proof.
  intros Hg. induction l as [|x l IH]; [apply framed_ret|].
  by apply framed_bind.
Qed.

#[export] Instance framed_if {A} (b : bool) (t1 t2 : Tx A) :
  Framed f t1 → Framed f t2 → Framed f (if b then t1 else t2).
Proof. by destruct b. Qed.

Lemma framed_exec (g : Z → db → db * Z) : (∀ now d, f (g now d).1 = f d) → Framed f (exec g).
Proof.
  intros Hg now d a d'. simpl. pose proof (Hg now d). destruct (g now d) as [d1 n].
  intros [= _ <-]. done.
Qed.

Lemma framed_checked (g : Z → db → res db) :
  (∀ now d d', g now d = Ok d' → f d' = f d) → Framed f (exec_checked g).
Proof. intros Hg now d [] d'. simpl. destruct (g now d) eqn:E; [|done]. intros [= <-]. by eapply Hg. Qed.
End framing.

(** A projection of the tables that a write does not mention. *)
#[export] Hint Extern 1 (Framed _ (exec _)) => apply framed_exec; by intros ? [] : typeclass_instances.
#[export] Hint Extern 2 (Framed _ (match ?x with _ => _ end)) => destruct x : typeclass_instances.

(** [tx_simpl H] unfolds a run into its statements. *)
Ltac tx_simpl := repeat first [rewrite run_bind | progress simpl].
Tactic Notation "tx_simpl" "in" ident(H) := repeat first [rewrite run_bind in H | progress simpl in H].
