(* ===== verification/Migrations.v ===== *)
(** * Migrations ([internal/store/store.go]: [Migrate], [MigrationNames])

    The embedded scripts are a finite map from file names to SQL text; what a
    script does to the database is Postgres's, a parameter.  Instances that
    migrate at once are serialized by the advisory lock, so a fleet's attempts
    are a sequence. *)

From S2P Require Import Prelude Db.

(** ** Definitions *)

(** The embedded directory [migrations/]. *)
Definition migrationsFS := gmap string string.

(** [MigrationNames]: the directory's entries, sorted ([sort.Strings]). *)
Definition MigrationNames (files : migrationsFS) : list string :=
  order_by String.ltb (map_to_list files).*1.

(** One attempt: the binary's scripts, the statements that fail, and whether
    the acknowledgement of the commit is lost. *)
Record attempt := mkAttempt { at_files : migrationsFS; at_faults : faults; at_lost : bool }.

Section migrate.
Context {D : Type} (exec_sql : string → D → option D).

(** The table [schema_migrations], once created, in insertion order, beside
    everything the scripts create. *)
Record database := mkDatabase { dm_migrations : option (list string); dm_body : D }.

Definition recorded (s : database) : list string := default [] (dm_migrations s).

(** A statement of the transaction; [n] counts them. *)
Definition statement {A} (fl : faults) (n : nat) (k : res A) : res A :=
  match fl n with Some e => Err e | None => k end.

(** The loop over the names, from the [n]-th statement. *)
Fixpoint apply_names (files : migrationsFS) (fl : faults) (n : nat) (names table : list string) (d : D)
    : res (nat * list string * D) :=
  match names with
  | [] => Ok (n, table, d)
  | name :: names =>
      statement fl n
        (if bool_decide (name ∈ table) then apply_names files fl (n + 1) names table d
         else match files !! name with
              | None => Err ErrOther
              | Some sql =>
                  statement fl (n + 1)
                    (match exec_sql sql d with
                     | None => Err ErrSQL
                     | Some d' =>
                         statement fl (n + 2)
                           (if bool_decide (name ∈ table) then Err ErrUnique
                            else apply_names files fl (n + 3) names (table ++ [name]) d')
                     end)
              end)
  end.

(** [Migrate]: the table first, outside the transaction; then the lock, the
    loop and the commit.  A commit whose acknowledgement is lost is an error of
    a transaction that happened. *)
Definition Migrate (a : attempt) (s : database) : res unit * database :=
  match at_faults a 0%nat with
  | Some e => (Err e, s)
  | None =>
      let s := mkDatabase (Some (recorded s)) (dm_body s) in
      match statement (at_faults a) 1
              (apply_names (at_files a) (at_faults a) 2 (MigrationNames (at_files a)) (recorded s) (dm_body s)) with
      | Err e => (Err e, s)
      | Ok (n, table, d) =>
          match at_faults a n with
          | Some e => (Err e, s)
          | None => (if at_lost a then Err ErrSQL else Ok tt, mkDatabase (Some table) d)
          end
      end
  end.

(** The attempts of a fleet's life, one after the other. *)
Definition migrations (tries : list attempt) (s : database) : database :=
  foldl (λ s a, (Migrate a s).2) s tries.

(** *** Specification *)

(** The scripts of some names, run in that order. *)
Fixpoint run_scripts (files : migrationsFS) (names : list string) (d : D) : option D :=
  match names with
  | [] => Some d
  | name :: names =>
      match files !! name with
      | Some sql => match exec_sql sql d with Some d' => run_scripts files names d' | None => None end
      | None => None
      end
  end.

(** What a binary has not applied yet. *)
Definition missing (a : attempt) (s : database) : list string :=
  filter (λ name, name ∉ recorded s) (MigrationNames (at_files a)).

(** Every recorded script ran once, in the recorded order, and nothing else. *)
Definition migrated (all : migrationsFS) (d0 : D) (s : database) : Prop :=
  NoDup (recorded s) ∧ run_scripts all (recorded s) d0 = Some (dm_body s).

(** ** Lemmas *)

Lemma MigrationNames_in files name : name ∈ MigrationNames files ↔ is_Some (files !! name).
Proof.
  unfold MigrationNames. rewrite elem_of_order_by, list_elem_of_fmap. split.
  - intros ([k v] & -> & Hkv%elem_of_map_to_list). by eexists.
  - intros [v Hv]. exists (name, v). split; [done|]. by apply elem_of_map_to_list.
Qed.

Lemma MigrationNames_NoDup files : NoDup (MigrationNames files).
Proof. unfold MigrationNames. rewrite order_by_perm. apply NoDup_fst_map_to_list. Qed.

Lemma run_scripts_app files xs ys d :
  run_scripts files (xs ++ ys) d = run_scripts files xs d ≫= run_scripts files ys.
Proof.
  revert d. induction xs as [|x xs IH]; intros d; simpl; [done|].
  destruct (files !! x) as [sql|]; simpl; [|done]. by destruct (exec_sql sql d).
Qed.

Lemma run_scripts_mono files all names d d' : files ⊆ all →
  run_scripts files names d = Some d' → run_scripts all names d = Some d'.
Proof.
  intros Hsub. revert d. induction names as [|name names IH]; intros d; cbn; [done|].
  destruct (files !! name) as [sql|] eqn:Hf; [|done].
  assert (all !! name = Some sql) as -> by by eapply lookup_weaken.
  destruct (exec_sql sql d); [apply IH|done].
Qed.

(** A name applied is not looked at again. *)
Lemma filter_fresh (name : string) (names table : list string) : name ∉ names →
  filter (λ x, x ∉ table ++ [name]) names = filter (λ x, x ∉ table) names.
Proof.
  intros Hname. apply filter_agree. intros x Hx.
  rewrite elem_of_app, list_elem_of_singleton. split; [tauto|].
  by intros Ht [?| ->].
Qed.

Lemma apply_names_ok files fl names n table d n' table' d' : NoDup names →
  apply_names files fl n names table d = Ok (n', table', d') →
  let new := filter (λ x, x ∉ table) names in
  table' = table ++ new ∧ run_scripts files new d = Some d'.
Proof.
  revert n table d. induction names as [|name names IH]; intros n table d Hnd; simpl.
  { intros [= _ <- <-]. by rewrite app_nil_r. }
  apply NoDup_cons in Hnd as [Hname Hnd]. unfold statement.
  destruct (fl n); [done|]. rewrite filter_cons. case_bool_decide as Hin.
  - rewrite decide_False by tauto. by apply IH.
  - rewrite decide_True by done. simpl. destruct (files !! name) as [sql|]; [|done].
    destruct (fl (n + 1)%nat); [done|]. destruct (exec_sql sql d) as [d1|]; [|done].
    destruct (fl (n + 2)%nat); [done|]. intros Hrun.
    destruct (IH _ _ _ Hnd Hrun) as [-> Hs]. rewrite filter_fresh in * by done.
    split; [by rewrite <- app_assoc|done].
Qed.

Lemma apply_names_quiet files fl names n table d : NoDup names → (∀ i, fl i = None) →
  is_Some (run_scripts files (filter (λ x, x ∉ table) names) d) →
  ∃ r, apply_names files fl n names table d = Ok r.
Proof.
  intros Hnd Hfl. revert n table d Hnd. induction names as [|name names IH]; intros n table d Hnd; simpl.
  { intros _. by eexists. }
  apply NoDup_cons in Hnd as [Hname Hnd]. unfold statement. rewrite !Hfl, filter_cons.
  case_bool_decide as Hin.
  - rewrite decide_False by tauto. by apply IH.
  - rewrite decide_True by done. simpl. destruct (files !! name) as [sql|]; [|by intros [? ?]].
    destruct (exec_sql sql d) as [d1|]; [|by intros [? ?]]. intros Hs. apply IH; [done|].
    by rewrite filter_fresh.
Qed.

(** The two outcomes of an attempt. *)
Lemma Migrate_cases a s :
  (∃ e, (Migrate a s).1 = Err e ∧ recorded (Migrate a s).2 = recorded s ∧ dm_body (Migrate a s).2 = dm_body s) ∨
  (∃ d, recorded (Migrate a s).2 = recorded s ++ missing a s ∧ dm_body (Migrate a s).2 = d ∧
     run_scripts (at_files a) (missing a s) (dm_body s) = Some d ∧
     (Migrate a s).1 = if at_lost a then Err ErrSQL else Ok tt).
Proof.
  unfold Migrate, missing. destruct (at_faults a 0%nat) as [e|]; [left; by exists e|].
  change (recorded (mkDatabase (Some (recorded s)) (dm_body s))) with (recorded s). cbn [dm_body].
  unfold statement. destruct (at_faults a 1%nat) as [e|]; [left; by exists e|].
  destruct (apply_names _ _ _ _ _ _) as [[[n table] d]|e] eqn:Hrun; [|left; by exists e].
  destruct (at_faults a n) as [e|]; [left; by exists e|].
  destruct (apply_names_ok _ _ _ _ _ _ _ _ _ (MigrationNames_NoDup _) Hrun) as [-> Hs].
  right. by exists d.
Qed.

Lemma Migrate_migrated all d0 a s : at_files a ⊆ all → migrated all d0 s → migrated all d0 (Migrate a s).2.
Proof.
  intros Hsub [Hnd Hrun]. destruct (Migrate_cases a s) as [(e & _ & Hr & Hb)|(d & Hr & Hb & Hs & _)];
    unfold migrated; rewrite Hr, Hb; [done|]. split.
  - apply NoDup_app. split; [done|]. split.
    + intros x Hx. unfold missing. intros [Hnot _]%list_elem_of_filter. done.
    + apply NoDup_filter, MigrationNames_NoDup.
  - rewrite run_scripts_app, Hrun. simpl. by eapply run_scripts_mono.
Qed.

Lemma migrations_migrated all d0 tries s : Forall (λ a, at_files a ⊆ all) tries →
  migrated all d0 s → migrated all d0 (migrations tries s).
Proof.
  intros Hsub. revert s. induction Hsub as [|a tries Ha _ IH]; intros s Hs; [done|].
  apply IH. by apply Migrate_migrated.
Qed.

(** An undisturbed attempt. *)
Lemma Migrate_quiet a s : (∀ n, at_faults a n = None) → at_lost a = false →
  is_Some (run_scripts (at_files a) (missing a s) (dm_body s)) →
  ∃ d, Migrate a s = (Ok tt, mkDatabase (Some (recorded s ++ missing a s)) d) ∧
    run_scripts (at_files a) (missing a s) (dm_body s) = Some d.
Proof.
  intros Hfl Hlost Hruns. unfold Migrate, statement. rewrite !Hfl, Hlost.
  change (recorded (mkDatabase (Some (recorded s)) (dm_body s))) with (recorded s). cbn [dm_body].
  destruct (apply_names_quiet (at_files a) (at_faults a) _ 2 (recorded s) (dm_body s)
    (MigrationNames_NoDup _) Hfl Hruns) as [[[n table] d] Hrun]. rewrite Hrun, Hfl.
  destruct (apply_names_ok _ _ _ _ _ _ _ _ _ (MigrationNames_NoDup _) Hrun) as [-> Hs].
  by exists d.
Qed.

Lemma missing_none a s table d : (∀ x, x ∈ missing a s → x ∈ table) → (∀ x, x ∈ recorded s → x ∈ table) →
  missing a (mkDatabase (Some table) d) = [].
Proof.
  intros Hm Hr. unfold missing. apply filter_none. intros x Hx Hnot. apply Hnot. cbn.
  destruct (decide (x ∈ recorded s)); [by apply Hr|]. apply Hm. by apply list_elem_of_filter.
Qed.

Lemma Migrate_Ok a s s' : Migrate a s = (Ok tt, s') → missing a s' = [].
Proof.
  intros E. destruct (Migrate_cases a s) as [(e & He & _)|(d & Hr & _)]; rewrite E in *; cbn in *; [done|].
  unfold missing. apply filter_none. intros x Hx Hnot. apply Hnot. rewrite Hr. apply elem_of_app.
  destruct (decide (x ∈ recorded s)); [by left|right]. by apply list_elem_of_filter.
Qed.

Lemma Migrate_again a s d : (∀ n, at_faults a n = None) → at_lost a = false →
  let s' := mkDatabase (Some (recorded s ++ missing a s)) d in (Migrate a s').2 = s'.
Proof.
  intros Hfl Hlost s'.
  assert (Hm : missing a s' = []).
  { apply (missing_none _ s); intros x Hx; apply elem_of_app; auto. }
  destruct (Migrate_quiet a s' Hfl Hlost) as (d' & -> & Hd); rewrite Hm in *; [by eexists|].
  injection Hd as <-. cbn. by rewrite app_nil_r.
Qed.

(** Releases that only append. *)
Lemma missing_of_prefix (names table full : list string) : NoDup full →
  names `prefix_of` full → table `prefix_of` full →
  table ++ filter (λ x, x ∉ table) names `prefix_of` full.
Proof.
  intros Hnd Hn Ht. destruct (prefix_weak_total _ _ _ Hn Ht) as [[k ->]|[k ->]].
  - rewrite filter_none; [by rewrite app_nil_r|].
    intros x Hx Hnot. apply Hnot, elem_of_app. by left.
  - rewrite filter_app, filter_none by (intros x Hx Hnot; by apply Hnot). simpl.
    rewrite filter_every; [done|]. intros x Hx Hin. destruct Hn as [l ->].
    apply NoDup_app in Hnd as [Hnd _]. apply NoDup_app in Hnd as (_ & Hd & _). by eapply Hd.
Qed.

Lemma recorded_prefix all tries d0 :
  Forall (λ a, MigrationNames (at_files a) `prefix_of` MigrationNames all) tries →
  recorded (migrations tries (mkDatabase None d0)) `prefix_of` MigrationNames all.
Proof.
  intros Htries. assert (Hgen : ∀ s, recorded s `prefix_of` MigrationNames all →
    recorded (migrations tries s) `prefix_of` MigrationNames all).
  { induction Htries as [|a tries Ha _ IH]; intros s Hs; [done|]. apply IH.
    destruct (Migrate_cases a s) as [(e & _ & -> & _)|(d & -> & _)]; [done|].
    apply missing_of_prefix; [apply MigrationNames_NoDup|done..]. }
  apply Hgen, prefix_nil.
Qed.
End migrate.

(** ** Properties *)

(** C39.  A fleet's migrations.  Through any attempts of any releases that agree
    on the text of a script, with any failures and lost acknowledgements: every
    recorded script has run exactly once, in the recorded order, and the
    database holds that and nothing else.  The next attempt either reports an
    error and leaves the scripts as they were (unless only the acknowledgement
    was lost), or has run exactly its missing scripts, in name order, after the
    others; undisturbed, with scripts that run, it succeeds, and repeating it
    changes nothing.  When releases only ever append scripts, the database is
    always that of a fresh installation of a prefix of them. *)
Theorem Migrate_once {D} (exec_sql : string → D → option D) (all : migrationsFS) (tries : list attempt)
    (a : attempt) (d0 : D) :
  Forall (λ a, at_files a ⊆ all) (a :: tries) →
  let s := migrations exec_sql tries (mkDatabase None d0) in
  let s' := (Migrate exec_sql a s).2 in
  NoDup (recorded s) ∧ run_scripts exec_sql all (recorded s) d0 = Some (dm_body s) ∧
  (recorded s' = recorded s ∧ dm_body s' = dm_body s ∧ (Migrate exec_sql a s).1 ≠ Ok tt ∨
   recorded s' = recorded s ++ missing a s ∧
   run_scripts exec_sql (at_files a) (missing a s) (dm_body s) = Some (dm_body s') ∧
   ((Migrate exec_sql a s).1 = Ok tt ∨ at_lost a = true)) ∧
  ((∀ n, at_faults a n = None) → at_lost a = false →
   is_Some (run_scripts exec_sql (at_files a) (missing a s) (dm_body s)) →
   (Migrate exec_sql a s).1 = Ok tt ∧ (Migrate exec_sql a s').2 = s') ∧
  (Forall (λ a, MigrationNames (at_files a) `prefix_of` MigrationNames all) tries →
   recorded s `prefix_of` MigrationNames all).
Proof.
  intros [Ha Hall]%Forall_cons s s'.
  assert (Hs : migrated exec_sql all d0 s).
  { apply migrations_migrated; [done|]. split; [constructor|done]. }
  split; [apply Hs|]. split; [apply Hs|]. split; [|split].
  - destruct (Migrate_cases exec_sql a s) as [(e & He & Hr & Hb)|(d & Hr & Hb & Hd & Ho)].
    + left. by rewrite He.
    + right. unfold s'. rewrite Hr, Hb, Ho. split; [done|]. split; [done|]. destruct (at_lost a); auto.
  - intros Hfl Hlost Hruns. destruct (Migrate_quiet exec_sql a s Hfl Hlost Hruns) as (d & E & Ed).
    split; [by rewrite E|]. unfold s'. rewrite E. by apply Migrate_again.
  - intros Hpre. by apply recorded_prefix.
Qed.

(** ** Witnesses and concrete runs *)

(** A database that is the list of the scripts it has run. *)
Definition demo_exec (sql : string) (d : list string) : option (list string) := Some (d ++ [sql]).

Definition demo_release : migrationsFS :=
  list_to_map [("0002_contracts.sql", "contracts"); ("0001_init.sql", "init")].

Definition demo_newer : migrationsFS := <["0003_events.sql" := "events"]> demo_release.

(** The first attempt loses its connection while recording a script, the second
    loses the acknowledgement of its commit. *)
Definition demo_tries : list attempt :=
  [mkAttempt demo_release (λ n, if Nat.eqb n 4 then Some ErrSQL else None) false;
   mkAttempt demo_release no_faults true].

Lemma Migrate_once_witness :
  (Migrate demo_exec (mkAttempt demo_newer no_faults false)
     (migrations demo_exec demo_tries (mkDatabase None []))).1 = Ok tt ∧
  recorded (migrations demo_exec demo_tries (mkDatabase None [])) `prefix_of` MigrationNames demo_newer.
Proof.
  assert (Hsub : demo_release ⊆ demo_newer) by (apply insert_subseteq; reflexivity).
  destruct (Migrate_once demo_exec demo_newer demo_tries (mkAttempt demo_newer no_faults false) []
    ltac:(constructor; [reflexivity|constructor; [exact Hsub|constructor; [exact Hsub|constructor]]]))
    as (_ & _ & _ & Hok & Hpre).
  split.
  - apply Hok; [intros n; reflexivity|reflexivity|vm_compute; eexists; reflexivity].
  - apply Hpre. constructor; [|constructor; [|constructor]];
      (exists ["0003_events.sql"]; vm_compute; reflexivity).
Defined.

Example demo_migrated :
  migrations demo_exec (demo_tries ++ [mkAttempt demo_newer no_faults false]) (mkDatabase None [])
  = mkDatabase (Some ["0001_init.sql"; "0002_contracts.sql"; "0003_events.sql"]) ["init"; "contracts"; "events"].
Proof. vm_compute. reflexivity. Qed.

(** A script added under an earlier name runs after those already applied: the
    order is the file names' only within one attempt. *)
Example demo_late_script :
  dm_body (migrations demo_exec [mkAttempt demo_release no_faults false;
    mkAttempt (<["0001_extra.sql" := "extra"]> demo_release) no_faults false] (mkDatabase None []))
  = ["init"; "contracts"; "extra"].
Proof. vm_compute. reflexivity. Qed.
