(* ===== verification/Gaps.v ===== *)
(** * The gap table ([internal/store/store.go], [plan.go], [heal.go])

    A gap is a recorded promise that a ledger range is missing.  Gaps are
    recorded minus what open gaps already promise ([RecordGap]), reopened when a
    registration asks for their range ([ReopenGaps]) and split by a heal plan
    ([PlanHeal]).  The specification is per ledger: [owes m net l mode] says
    that ledger [l] is promised by an open gap of mode [mode]. *)

From Stdlib Require Import Ascii.
From S2P Require Import Prelude HealPlan Db.

(** ** Definitions *)

(** [fmt.Sprintf("gap:%s:%d:%d", network, from, to)] *)
Definition gap_id (network : string) (from to : Z) : string :=
  "gap:" +:+ network +:+ ":" +:+ pretty from +:+ ":" +:+ pretty to.

(** [WHERE network = $1 AND resolved_at IS NULL] *)
Definition is_open (network : string) (r : gap_row) : bool :=
  bool_decide (g_network r = network) && bool_decide (g_resolved_at r = None).

Definition scanGap (row : string * gap_row) : Gap :=
  let '(id, r) := row in
  {| gap_ID := id; gap_From := u32 (g_from r); gap_To := u32 (g_to r);
     gap_Reason := g_reason r;
     gap_HealNextTo := match g_heal_next_to r with
                       | Some n => u32 n
                       | None => u32 (g_to r)
                       end;
     gap_HealMode := g_heal_mode r; gap_RecordedAt := g_recorded_at r |}.

Definition ListOpenGaps (network : string) : Tx (list Gap) :=
  query (λ d, scanGap <$> sort_by_desc (λ row, g_to row.2)
    (sel (λ _ r, is_open network r && bool_decide (g_heal_mode r = HealModeReplay))
         (db_gaps d))).

Definition lockOpenGaps (network : string) : Tx (list Gap) :=
  query (λ d, scanGap <$> sort_by_desc (λ row, g_to row.2)
    (sel (λ _ r, is_open network r) (db_gaps d))).

Definition OpenGaps (network : string) : Tx Z :=
  query (λ d, affected (λ _ r, is_open network r) (db_gaps d)).

(** [COALESCE(sum(to_sequence - from_sequence + 1), 0)] over selected rows *)
Definition sum_ledgers (rows : list (string * gap_row)) : Z :=
  foldr (λ row s, g_to row.2 - g_from row.2 + 1 + s) 0 rows.

Definition DeferredGaps (network : string) : Tx (Z * Z) :=
  query (λ d,
    let rows := sel (λ _ r, is_open network r
                            && bool_decide (g_heal_mode r = HealModeDeferred)) (db_gaps d) in
    (Z.of_nat (length rows), sum_ledgers rows)).

(** The [INSERT ... ON CONFLICT (id) DO UPDATE SET heal_mode ... WHERE
    gaps.resolved_at IS NULL] of [splitGap]. *)
Definition piece_row (network reason : string) (now : Z) (p : piece)
    (old : option gap_row) : gap_row :=
  match old with
  | None => mkGapRow network (p_from p) (p_to p) reason now None (Some (p_to p)) (p_mode p)
  | Some r =>
      if bool_decide (g_resolved_at r = None)
      then mkGapRow (g_network r) (g_from r) (g_to r) (g_reason r) (g_recorded_at r)
                    (g_resolved_at r) (g_heal_next_to r) (p_mode p)
      else r
  end.

Definition piece_id (network : string) (p : piece) : string :=
  gap_id network (p_from p) (p_to p).

(** [UPDATE backfill SET clamped_at = new WHERE clamped_at = old] *)
Definition repoint_clamps (network : string) (old new now : Z)
    (m : gmap (string * string) backfill_row) : gmap (string * string) backfill_row :=
  upd (λ k b, bool_decide (k.1 = network) && bool_decide (b_clamped_at b = Some old))
      (λ b, mkBackfillRow (b_target_from b) (b_next_to b) (b_done b) (Some new)
                          (b_covered_kinds b) now) m.

Definition splitGap (network : string) (g : Gap) (pieces : list piece) : Tx unit :=
  exec (λ _ d, (set_gaps (del (λ id r, bool_decide (g_network r = network)
                                       && bool_decide (id = gap_ID g))) d, 0)) ;;;
  foreach (λ p, exec (λ now d,
    (set_gaps (upsert (piece_id network p) (piece_row network (gap_Reason g) now p)) d, 1)) ;;; TRet tt) pieces ;;;
  match last pieces with
  | None => TThrow ErrOther  (* pieces[len(pieces)-1] of an empty slice: a panic *)
  | Some top =>
      exec (λ now d, (set_backfill (repoint_clamps network (gap_To g + 1) (p_to top + 1) now) d, 0)) ;;;
      TRet tt
  end.

(** The body of the loop of [PlanHeal]. *)
Definition planGap (network : string) (plan : list Interval) (g : Gap) : Tx unit :=
  if gap_HealNextTo g <? gap_From g then TRet tt
  else
    let pieces := partition (gap_From g) (gap_HealNextTo g) plan in
    match pieces with
    | [p] => if bool_decide (p_mode p = gap_HealMode g) then TRet tt
             else splitGap network g pieces
    | _ => splitGap network g pieces
    end.

Definition countPlan (network : string) : Tx PlanResult :=
  query (λ d,
    let with_mode mode := sel (λ _ r, is_open network r && bool_decide (g_heal_mode r = mode))
                       (db_gaps d) in
    mkPlanResult (Z.of_nat (length (with_mode HealModeReplay)))
                 (Z.of_nat (length (with_mode HealModeDeferred)))
                 (sum_ledgers (with_mode HealModeReplay)) (sum_ledgers (with_mode HealModeDeferred))).

Definition PlanHeal (network : string) (replay : list Interval) (padding : Z)
    : Tx PlanResult :=
  let plan := normalizePlan replay padding in
  gaps <-- lockOpenGaps network ;
  foreach (planGap network plan) gaps ;;;
  countPlan network.

(** [WHERE ... from_sequence <= to AND to_sequence >= from] *)
Definition overlaps (from to : Z) (r : gap_row) : bool :=
  (g_from r <=? to) && (from <=? g_to r).

Definition ReopenGaps (network : string) (from to : Z) : Tx Z :=
  exec (λ _ d,
    let P := λ (_ : string) r,
      is_open network r && overlaps from to r &&
      (bool_decide (g_heal_mode r = HealModeDeferred)
       || bool_decide (g_heal_next_to r ≠ Some (g_to r))) in
    (set_gaps (upd P (λ r, mkGapRow (g_network r) (g_from r) (g_to r) (g_reason r)
                             (g_recorded_at r) (g_resolved_at r)
                             (Some (g_to r)) HealModeReplay)) d,
     affected P (db_gaps d))).

(** [uncoveredRanges]: the parts of [[cursor, to]] that no covering range
    claims; [covered] is sorted by its first components. *)
Fixpoint uncoveredRanges (cursor to : Z) (covered : list (Z * Z)) : list (Z * Z) :=
  match covered with
  | [] => if cursor <=? to then [(cursor, to)] else []
  | (c0, c1) :: covered =>
      if to <? cursor then []
      else if c1 <? c0 then uncoveredRanges cursor to covered
      else
        (if cursor <? c0
         then [(cursor, if to <? c0 - 1 then to else c0 - 1)] else [])
        ++ uncoveredRanges (if cursor <? c1 + 1 then c1 + 1 else cursor) to covered
  end.

(** The [INSERT ... ON CONFLICT (id) DO UPDATE ... WHERE gaps.resolved_at IS
    NOT NULL] of [RecordGap]; a new row has a null watermark and the default
    mode. *)
Definition hole_row (network reason : string) (now : Z) (hole : Z * Z)
    (old : option gap_row) : gap_row :=
  match old with
  | None => mkGapRow network hole.1 hole.2 reason now None None HealModeReplay
  | Some r =>
      if bool_decide (g_resolved_at r = None) then r
      else mkGapRow (g_network r) (g_from r) (g_to r) reason (g_recorded_at r)
                    None (Some hole.2) HealModeReplay
  end.

Definition hole_id (network : string) (hole : Z * Z) : string :=
  gap_id network hole.1 hole.2.

(** [UPDATE gaps SET heal_next_to = to_sequence WHERE ...] of [RecordGap]. *)
Definition rewind_gaps (network : string) (from to : Z) (m : gmap string gap_row)
    : gmap string gap_row :=
  upd (λ _ r, is_open network r && overlaps from to r
              && match g_heal_next_to r with Some n => n <? g_to r | None => false end)
      (λ r, mkGapRow (g_network r) (g_from r) (g_to r) (g_reason r) (g_recorded_at r)
                     (g_resolved_at r) (Some (g_to r)) (g_heal_mode r)) m.

Definition covering (network : string) (from to : Z) (m : gmap string gap_row)
    : list (Z * Z) :=
  (λ row, (g_from row.2, g_to row.2)) <$>
    sort_by (λ row, g_from row.2) (sel (λ _ r, is_open network r && overlaps from to r) m).

Definition RecordGap (network : string) (from to : Z) (reason : string) : Tx unit :=
  if to <? from then TThrow ErrInvertedRange
  else
    exec (λ _ d, (set_gaps (rewind_gaps network from to) d, 0)) ;;;
    covered <-- query (λ d, covering network from to (db_gaps d)) ;
    foreach (λ hole, exec (λ now d,
      (set_gaps (upsert (hole_id network hole) (hole_row network reason now hole)) d, 1)) ;;; TRet tt)
      (uncoveredRanges from to covered).

(** ** Specification *)

(** The highest ledger a row still owes. *)
Definition heal_next (r : gap_row) : Z := default (g_to r) (g_heal_next_to r).

Definition row_owes (net : string) (l : Z) (mode : string) (r : gap_row) : Prop :=
  g_network r = net ∧ g_resolved_at r = None ∧
  g_from r ≤ l ≤ heal_next r ∧ g_heal_mode r = mode.

Definition owes (m : gmap string gap_row) (net : string) (l : Z) (mode : string) : Prop :=
  ∃ id r, m !! id = Some r ∧ row_owes net l mode r.

(** Ledger [l] is promised: still missing. *)
Definition owed (m : gmap string gap_row) (net : string) (l : Z) : Prop :=
  ∃ mode, owes m net l mode.

(** Ledger [l] is inside the range of an open gap, healed or not. *)
Definition claimed (m : gmap string gap_row) (net : string) (l : Z) : Prop :=
  ∃ id r, m !! id = Some r ∧ g_network r = net ∧ g_resolved_at r = None ∧
          g_from r ≤ l ≤ g_to r.

Definition row_open (net : string) (r : gap_row) : Prop :=
  g_network r = net ∧ g_resolved_at r = None.

(** The invariant of the table: keys are the deterministic ids, ranges are
    ledger ranges, watermarks stay inside their range, modes obey the CHECK
    constraint, and open gaps of a network never overlap. *)
Record gaps_wf (m : gmap string gap_row) : Prop := {
  wf_key : ∀ id r, m !! id = Some r → id = gap_id (g_network r) (g_from r) (g_to r);
  wf_range : ∀ id r, m !! id = Some r → 1 ≤ g_from r ≤ g_to r ∧ g_to r ≤ max_u32;
  wf_next : ∀ id r, m !! id = Some r → g_from r - 1 ≤ heal_next r ≤ g_to r;
  wf_mode : ∀ id r, m !! id = Some r →
    g_heal_mode r = HealModeReplay ∨ g_heal_mode r = HealModeDeferred;
  wf_disjoint : ∀ id1 r1 id2 r2 net l, m !! id1 = Some r1 → m !! id2 = Some r2 →
    row_open net r1 → row_open net r2 →
    g_from r1 ≤ l ≤ g_to r1 → g_from r2 ≤ l ≤ g_to r2 → id1 = id2 }.

Lemma gaps_wf_empty : gaps_wf ∅.
Proof. split; intros id r; rewrite lookup_empty; discriminate. Qed.

(** ** Gap ids are injective *)

Section ids.
Fixpoint no_colon (s : string) : Prop :=
  match s with
  | EmptyString => True
  | String c s => c ≠ ":"%char ∧ no_colon s
  end.

Lemma no_colon_app s t : no_colon (s +:+ t) ↔ no_colon s ∧ no_colon t.
Proof. induction s as [|c s IH]; simpl; [tauto|]. rewrite IH. tauto. Qed.

Lemma pretty_N_go_no_colon x s : no_colon s → no_colon (pretty_N_go x s).
Proof.
  revert s. induction (N.lt_wf_0 x) as [x _ IH]; intros s Hs.
  destruct (decide (x = 0%N)) as [->|]; [done|].
  rewrite pretty_N_go_step by lia. apply IH; [apply N.div_lt; lia|].
  split; [|done]. unfold pretty_N_char. by repeat case_match.
Qed.

Lemma pretty_N_no_colon (x : N) : no_colon (pretty x).
Proof.
  unfold pretty, pretty_N. case_decide; [repeat split; done|].
  by apply pretty_N_go_no_colon.
Qed.

Lemma pretty_Z_no_colon (z : Z) : no_colon (pretty z).
Proof.
  unfold pretty, pretty_Z. destruct z; [repeat split; done| |].
  - apply pretty_N_no_colon.
  - apply no_colon_app. split; [repeat split; done|apply pretty_N_no_colon].
Qed.

(** A separator absent from both tails splits a string uniquely. *)
Lemma colon_split s1 t1 s2 t2 :
  s1 +:+ String ":" t1 = s2 +:+ String ":" t2 → no_colon t1 → no_colon t2 →
  s1 = s2 ∧ t1 = t2.
Proof.
  revert s2. induction s1 as [|c s1 IH]; intros [|c2 s2]; simpl.
  - by intros [= ->].
  - intros [= _ ->] [_ [? _]]%no_colon_app _. done.
  - intros [= _ <-] _ [_ [? _]]%no_colon_app. done.
  - intros [= -> H] ? ?. by destruct (IH _ H) as [-> ->].
Qed.

Lemma string_app_assoc (s1 s2 s3 : string) : s1 +:+ (s2 +:+ s3) = (s1 +:+ s2) +:+ s3.
Proof. induction s1 as [|c s1 IH]; [done|].
  change (String c (s1 +:+ (s2 +:+ s3)) = String c ((s1 +:+ s2) +:+ s3)). by rewrite IH.
Qed.
End ids.

Lemma gap_id_inj net1 f1 t1 net2 f2 t2 :
  gap_id net1 f1 t1 = gap_id net2 f2 t2 → net1 = net2 ∧ f1 = f2 ∧ t1 = t2.
Proof.
  unfold gap_id. intros H. simpl in H. injection H as H.
  change (":" +:+ pretty t1) with (String ":" (pretty t1)) in H.
  rewrite (string_app_assoc net1), (string_app_assoc net2) in H.
  rewrite (string_app_assoc (net1 +:+ ":")), (string_app_assoc (net2 +:+ ":")) in H.
  apply colon_split in H as [H ?%(inj pretty)]; [|apply pretty_Z_no_colon..].
  rewrite <- !string_app_assoc in H. simpl in H.
  apply colon_split in H as [-> ?%(inj pretty)]; [done|apply pretty_Z_no_colon..].
Qed.

(** ** Rows and ledgers *)

Lemma is_open_spec net r : is_open net r = true ↔ row_open net r.
Proof. unfold is_open, row_open. by rewrite andb_true_iff, !bool_decide_eq_true. Qed.

Lemma overlaps_spec from to r : overlaps from to r = true ↔ g_from r ≤ to ∧ from ≤ g_to r.
Proof. unfold overlaps. by rewrite andb_true_iff, !Z.leb_le. Qed.

Lemma row_owes_open net l mode r : row_owes net l mode r → row_open net r.
Proof. by intros (? & ? & _). Qed.

Lemma row_owes_range m id r net l mode :
  gaps_wf m → m !! id = Some r → row_owes net l mode r → g_from r ≤ l ≤ g_to r.
Proof. intros Hwf Hr (_ & _ & ? & _). pose proof (wf_next _ Hwf _ _ Hr). lia. Qed.

Lemma scanGap_fields m id r :
  gaps_wf m → m !! id = Some r →
  gap_From (scanGap (id, r)) = g_from r ∧ gap_To (scanGap (id, r)) = g_to r ∧
  gap_HealNextTo (scanGap (id, r)) = heal_next r ∧ gap_ID (scanGap (id, r)) = id ∧
  gap_HealMode (scanGap (id, r)) = g_heal_mode r.
Proof.
  intros Hwf Hr. pose proof (wf_range _ Hwf _ _ Hr). pose proof (wf_next _ Hwf _ _ Hr).
  unfold heal_next in *. simpl.
  rewrite (u32_small (g_from r)), (u32_small (g_to r)) by uarith.
  destruct (g_heal_next_to r); simpl in *; repeat split; try done.
  apply u32_small. uarith.
Qed.

(** Two open rows of a network that share a ledger are the same row. *)
Lemma wf_same m id1 r1 id2 r2 net l :
  gaps_wf m → m !! id1 = Some r1 → m !! id2 = Some r2 →
  row_open net r1 → row_open net r2 →
  g_from r1 ≤ l ≤ g_to r1 → g_from r2 ≤ l ≤ g_to r2 → id1 = id2 ∧ r1 = r2.
Proof.
  intros Hwf H1 H2 Ho1 Ho2 ??.
  assert (id1 = id2) as -> by (by eapply (wf_disjoint _ Hwf id1 r1 id2 r2)).
  by simplify_eq.
Qed.

(** The ranges that [uncoveredRanges] returns are exactly the ledgers of the
    request outside every covering range. *)
Definition in_ranges (rs : list (Z * Z)) (l : Z) : Prop :=
  Exists (λ r, r.1 ≤ l ≤ r.2) rs.

Lemma in_ranges_cons a b rs l : in_ranges ((a, b) :: rs) l ↔ a ≤ l ≤ b ∨ in_ranges rs l.
Proof. apply Exists_cons. Qed.

Lemma in_ranges_app rs1 rs2 l : in_ranges (rs1 ++ rs2) l ↔ in_ranges rs1 l ∨ in_ranges rs2 l.
Proof. apply Exists_app. Qed.

Lemma in_ranges_nil l : ¬ in_ranges [] l.
Proof. intros H. by apply Exists_nil in H. Qed.

Lemma in_ranges_above lo rs l :
  Forall (λ c, lo ≤ c.1) rs → in_ranges rs l → lo ≤ l.
Proof.
  rewrite Forall_forall. intros Hlo (c & Hc & ?)%Exists_exists.
  specialize (Hlo _ Hc). lia.
Qed.

Lemma uncoveredRanges_spec cursor to covered l :
  StronglySorted (λ a b, a.1 ≤ b.1) covered →
  in_ranges (uncoveredRanges cursor to covered) l ↔
  cursor ≤ l ≤ to ∧ ¬ in_ranges covered l.
Proof.
  intros Hs. revert cursor. induction Hs as [|[c0 c1] cs Hs IH Hle]; intros cursor; simpl.
  { destruct (Z.leb_spec cursor to).
    - rewrite in_ranges_cons. pose proof (in_ranges_nil l). simpl. intuition lia.
    - pose proof (in_ranges_nil l). intuition lia. }
  assert (Hab : in_ranges cs l → c0 ≤ l) by (by apply in_ranges_above).
  rewrite in_ranges_cons.
  destruct (Z.ltb_spec to cursor).
  { pose proof (in_ranges_nil l). intuition lia. }
  destruct (Z.ltb_spec c1 c0); [rewrite IH; intuition lia|].
  rewrite in_ranges_app, IH.
  destruct (Z.ltb_spec cursor c0); destruct (Z.ltb_spec to (c0 - 1));
    destruct (Z.ltb_spec cursor (c1 + 1)); rewrite ?in_ranges_cons;
    pose proof (in_ranges_nil l);
    destruct (decide (l < c0)), (decide (l ≤ c1)); intuition lia.
Qed.

Lemma uncoveredRanges_bounds cursor to covered :
  Forall (λ r, cursor ≤ r.1 ≤ r.2 ∧ r.2 ≤ to) (uncoveredRanges cursor to covered).
Proof.
  revert cursor. induction covered as [|[c0 c1] cs IH]; intros cursor; simpl.
  { destruct (Z.leb_spec cursor to); repeat constructor; simpl; lia. }
  destruct (Z.ltb_spec to cursor); [constructor|].
  destruct (Z.ltb_spec c1 c0); [apply IH|].
  apply Forall_app. split.
  - destruct (Z.ltb_spec cursor c0); [|constructor].
    destruct (Z.ltb_spec to (c0 - 1)); repeat constructor; simpl; lia.
  - eapply Forall_impl; [apply IH|]. simpl.
    intros r. destruct (Z.ltb_spec cursor (c1 + 1)); lia.
Qed.

Lemma uncoveredRanges_sorted cursor to covered :
  StronglySorted (λ a b : Z * Z, a.1 ≤ b.1) covered →
  StronglySorted (λ a b : Z * Z, a.2 + 1 < b.1) (uncoveredRanges cursor to covered).
Proof.
  intros Hs. revert cursor. induction Hs as [|[c0 c1] cs Hs IH Hle]; intros cursor; simpl.
  { destruct (Z.leb_spec cursor to); repeat constructor. }
  destruct (Z.ltb_spec to cursor); [constructor|].
  destruct (Z.ltb_spec c1 c0); [apply IH|].
  destruct (Z.ltb_spec cursor c0); [|apply IH]. simpl.
  constructor; [apply IH|].
  eapply Forall_impl; [apply uncoveredRanges_bounds|]. simpl.
  intros r. destruct (Z.ltb_spec to (c0 - 1)), (Z.ltb_spec cursor (c1 + 1)); lia.
Qed.

(** ** Splitting a gap *)

(** The effect of the statements of [splitGap]. *)
Definition split_gaps (network : string) (g : Gap) (pieces : list piece) (now : Z)
    (m : gmap string gap_row) : gmap string gap_row :=
  foldl (λ m p, upsert (piece_id network p) (piece_row network (gap_Reason g) now p) m)
    (del (λ id r, bool_decide (g_network r = network) && bool_decide (id = gap_ID g)) m)
    pieces.

Lemma run_splitGap net g pieces top now d :
  last pieces = Some top →
  run now (splitGap net g pieces) d =
  Ok (tt, set_backfill (repoint_clamps net (gap_To g + 1) (p_to top + 1) now)
            (set_gaps (split_gaps net g pieces now) d)).
Proof.
  intros Hlast. unfold splitGap. tx_simpl.
  rewrite (run_foreach_exec _ _ (λ p d, set_gaps (upsert (piece_id net p)
    (piece_row net (gap_Reason g) now p)) d)) by done.
  rewrite Hlast. simpl. rewrite (foldl_set_gaps (λ p, upsert (piece_id net p)
    (piece_row net (gap_Reason g) now p))). by destruct d.
Qed.

Lemma tiles_ids_NoDup net from to ps : tiles from to ps → NoDup (piece_id net <$> ps).
Proof.
  intros Ht. apply NoDup_fmap_2_strong.
  - intros p q Hp Hq (_ & Hf & Hto)%gap_id_inj.
    assert (p_mode p = p_mode q ∨ p ≠ q) as [Hm|Hne].
    { destruct (decide (p_mode p = p_mode q)); [by left|]. right. by intros ->. }
    + destruct p, q. simpl in *. congruence.
    + exfalso. pose proof (tiles_ordered _ _ _ Ht) as Ho.
      apply list_elem_of_split in Hp as (l1 & l2 & ->).
      pose proof (tiles_elem _ _ _ q Ht Hq).
      apply elem_of_app in Hq as [Hq|[->|Hq]%elem_of_cons]; [|done|].
      * apply StronglySorted_app_1_elem_of with (x1 := q) (x2 := p) in Ho; [lia|done|by left].
      * apply StronglySorted_app in Ho as (_ & _ & [Ho _]%StronglySorted_cons).
        rewrite Forall_forall in Ho. specialize (Ho _ Hq). lia.
  - pose proof (tiles_ordered _ _ _ Ht) as Ho.
    assert (Hv : ∀ p, p ∈ ps → p_from p ≤ p_to p) by
      (intros p Hp; pose proof (tiles_elem _ _ _ _ Ht Hp); lia).
    clear Ht. induction Ho as [|p ps Ho IH Hall]; constructor.
    + rewrite Forall_forall in Hall. intros Hin. specialize (Hall _ Hin).
      specialize (Hv p ltac:(by left)). lia.
    + apply IH. intros q Hq. apply Hv. by right.
Qed.

Section split.
Context (m : gmap string gap_row) (net id : string) (r : gap_row) (now : Z).
Context (Hwf : gaps_wf m) (Hr : m !! id = Some r) (Hopen : row_open net r).
Context (pieces : list piece) (Htiles : tiles (g_from r) (heal_next r) pieces).
Context (Hmodes : Forall (λ p, p_mode p = HealModeReplay ∨ p_mode p = HealModeDeferred) pieces).

Abbreviation g := (scanGap (id, r)).
Abbreviation m' := (split_gaps net g pieces now m).

Lemma split_piece_range p : p ∈ pieces → g_from r ≤ p_from p ≤ p_to p ∧ p_to p ≤ g_to r.
Proof.
  intros Hp. pose proof (tiles_elem _ _ _ _ Htiles Hp).
  pose proof (wf_next _ Hwf _ _ Hr). lia.
Qed.

(** A row already stored under the id of a piece is resolved, or is [id]. *)
Lemma split_piece_old p old :
  p ∈ pieces → m !! piece_id net p = Some old →
  g_resolved_at old = None → piece_id net p = id.
Proof.
  intros Hp Hold Hres. pose proof (split_piece_range p Hp).
  pose proof (wf_key _ Hwf _ _ Hold) as (Hn & Hf & Ht)%gap_id_inj.
  eapply (wf_disjoint _ Hwf _ old id r net (p_from p)); try done; try lia.
Qed.

Lemma split_lookup k x :
  m' !! k = Some x ↔
  (k ≠ id ∧ m !! k = Some x) ∨
  (∃ p, p ∈ pieces ∧ k = piece_id net p ∧ (k = id ∨ m !! k = None) ∧
        x = mkGapRow net (p_from p) (p_to p) (g_reason r) now None (Some (p_to p)) (p_mode p)).
Proof.
  unfold split_gaps.
  rewrite foldl_upsert_lookup by (by eapply tiles_ids_NoDup).
  set (md := del _ m).
  assert (Hmd : ∀ j y, md !! j = Some y ↔ m !! j = Some y ∧ j ≠ id).
  { intros j y. unfold md. rewrite lookup_del_Some, andb_false_iff, !bool_decide_eq_false. simpl.
    split; [|tauto]. intros [Hj [Hne|]]; [|done]. split; [done|].
    intros ->. destruct Hopen. simplify_eq. }
  assert (Hold : ∀ p, p ∈ pieces →
    piece_row net (gap_Reason g) now p (md !! piece_id net p) =
    match md !! piece_id net p with
    | Some old => old
    | None => mkGapRow net (p_from p) (p_to p) (g_reason r) now None (Some (p_to p)) (p_mode p)
    end).
  { intros p Hp. destruct (md !! piece_id net p) as [old|] eqn:Ho; simpl; [|done].
    apply Hmd in Ho as [Ho Hne]. case_bool_decide as Hres; [|done].
    by destruct Hne; eapply split_piece_old. }
  split.
  - intros [[_ [? ?]%Hmd]|(p & Hp & -> & ->)]; [by left|].
    rewrite Hold by done. destruct (md !! piece_id net p) as [old|] eqn:Ho.
    + left. apply Hmd in Ho as []. by split.
    + right. exists p. split_and!; try done.
      destruct (decide (piece_id net p = id)); [by left|right].
      destruct (m !! piece_id net p) as [y|] eqn:Hy; [|done].
      assert (md !! piece_id net p = Some y) by (by apply Hmd). congruence.
  - intros [[Hne Hk]|(p & Hp & -> & Hk & ->)].
    + destruct (decide (k ∈ piece_id net <$> pieces)) as [Hin|]; [|left; by rewrite Hmd].
      right. apply list_elem_of_fmap in Hin as (p & -> & Hp). exists p.
      split_and!; [done..|]. rewrite Hold by done.
      by rewrite (proj2 (Hmd _ _) (conj Hk Hne)).
    + right. exists p. split_and!; [done..|]. rewrite Hold by done.
      destruct (md !! piece_id net p) as [y|] eqn:Hy; [|done].
      apply Hmd in Hy as [Hy Hne]. destruct Hk as [|Hk]; [done|congruence].
Qed.

Lemma split_wf : gaps_wf m'.
Proof.
  pose proof (wf_range _ Hwf _ _ Hr) as Hrange.
  split.
  - intros k x [[_ Hk]|(p & _ & -> & _ & ->)]%split_lookup; [by eapply wf_key|done].
  - intros k x [[_ Hk]|(p & Hp%split_piece_range & -> & _ & ->)]%split_lookup;
      [by eapply wf_range|simpl; lia].
  - intros k x [[_ Hk]|(p & Hp%split_piece_range & -> & _ & ->)]%split_lookup;
      [by eapply wf_next|unfold heal_next; simpl; lia].
  - intros k x [[_ Hk]|(p & Hp & -> & _ & ->)]%split_lookup; [by eapply wf_mode|].
    rewrite Forall_forall in Hmodes. by apply Hmodes.
  - intros k1 x1 k2 x2 n l H1 H2 Ho1 Ho2 Hl1 Hl2.
    apply split_lookup in H1 as [[Hne1 H1]|(p & Hp & -> & _ & ->)];
    apply split_lookup in H2 as [[Hne2 H2]|(q & Hq & -> & _ & ->)].
    + by eapply (wf_disjoint _ Hwf k1 x1 k2 x2 n l).
    + pose proof (split_piece_range q Hq). destruct Ho2 as [Hn _]. simpl in Hn, Hl2. subst n.
      destruct Hne1. eapply (wf_disjoint _ Hwf k1 x1 id r net l); try done; lia.
    + pose proof (split_piece_range p Hp). destruct Ho1 as [Hn _]. simpl in Hn, Hl1. subst n.
      destruct Hne2. eapply (wf_disjoint _ Hwf k2 x2 id r net l); try done; lia.
    + simpl in Hl1, Hl2. assert (p = q) as ->; [|done].
      pose proof (tiles_ordered _ _ _ Htiles) as Hs.
      apply list_elem_of_split in Hp as (l1 & l2 & Hps). rewrite Hps in Hq, Hs.
      apply elem_of_app in Hq as [Hq|[->|Hq]%elem_of_cons]; [|done|].
      * apply StronglySorted_app_1_elem_of with (x1 := q) (x2 := p) in Hs; [lia|done|by left].
      * apply StronglySorted_app in Hs as (_ & _ & [Hs _]%StronglySorted_cons).
        rewrite Forall_forall in Hs. specialize (Hs _ Hq). lia.
Qed.

(** Outside the split gap nothing changes. *)
Lemma split_out n l mode :
  ¬ (n = net ∧ g_from r ≤ l ≤ g_to r) → owes m' n l mode ↔ owes m n l mode.
Proof.
  intros Hout. split.
  - intros (k & x & [[_ Hk]|(p & Hp%split_piece_range & -> & _ & ->)]%split_lookup & Ho).
    + by exists k, x.
    + destruct Ho as (<- & _ & Hl & _). unfold heal_next in Hl. simpl in *. destruct Hout. split; [done|lia].
  - intros (k & x & Hk & Ho). exists k, x. split; [|done]. apply split_lookup. left.
    split; [|done]. intros ->. simplify_eq.
    apply Hout. split; [|by eapply row_owes_range].
    destruct Ho as [? _], Hopen as [? _]. congruence.
Qed.

Context (plan : list Interval).
Context (Hpm : ∀ p l, p ∈ pieces → p_from p ≤ l ≤ p_to p → p_mode p = plan_mode plan l).

(** Inside it, the pieces never promise more than the gap did, and with the
    plan's mode... *)
Lemma split_in l mode :
  g_from r ≤ l ≤ g_to r → owes m' net l mode →
  owed m net l ∧ mode = plan_mode plan l.
Proof.
  intros Hl (k & x & [[Hne Hk]|(p & Hp & -> & _ & ->)]%split_lookup & Ho).
  - destruct Hne. eapply (wf_disjoint _ Hwf k x id r net l); try done.
    + by eapply row_owes_open.
    + by eapply row_owes_range.
  - destruct Ho as (_ & _ & Hl' & <-). unfold heal_next in Hl'. simpl in *. split.
    + exists (g_heal_mode r), id, r. split; [done|]. destruct Hopen. split_and!; try done.
      * lia.
      * pose proof (tiles_elem _ _ _ _ Htiles Hp). lia.
    + by apply Hpm.
Qed.

(** ... and they promise all of it, unless a piece met a resolved row. *)
Lemma split_in_full l :
  (∀ p old, p ∈ pieces → m !! piece_id net p = Some old → g_resolved_at old = None) →
  g_from r ≤ l ≤ g_to r → owed m net l → owes m' net l (plan_mode plan l).
Proof.
  intros Hnc Hl (mode & k & x & Hk & Ho).
  assert (k = id ∧ x = r) as [-> ->].
  { eapply (wf_same m k x id r net l); try done;
      [by eapply row_owes_open|by eapply row_owes_range]. }
  destruct Ho as (_ & _ & Hlr & _).
  apply (tiles_cover _ _ _ l Htiles) in Hlr as (p & Hp & Hlp).
  exists (piece_id net p), (mkGapRow net (p_from p) (p_to p) (g_reason r) now None
                              (Some (p_to p)) (p_mode p)).
  split.
  - apply split_lookup. right. exists p. split_and!; try done.
    destruct (m !! piece_id net p) as [old|] eqn:Hold; [|by right]. left.
    by eapply split_piece_old; [..|by eapply Hnc].
  - split_and!; try done; [unfold heal_next; simpl; lia..|]. simpl. by apply Hpm.
Qed.
End split.

(** ** Planning every gap *)

(** A row that a plan leaves alone. *)
Definition stable (plan : list Interval) (r : gap_row) : Prop :=
  heal_next r < g_from r ∨
  ∃ p, partition (g_from r) (heal_next r) plan = [p] ∧ p_mode p = g_heal_mode r.

(** No piece of [r] falls on the id of a gap that was resolved before. *)
Definition no_clash (net : string) (plan : list Interval) (m : gmap string gap_row)
    (r : gap_row) : Prop :=
  ∀ p old, g_from r ≤ heal_next r → p ∈ partition (g_from r) (heal_next r) plan →
    m !! piece_id net p = Some old → g_resolved_at old = None.

Definition no_resolved_clash (net : string) (plan : list Interval)
    (m : gmap string gap_row) : Prop :=
  ∀ id r, m !! id = Some r → row_open net r → no_clash net plan m r.

(** What planning the gap [id] does to the table. *)
Record plan_step (net : string) (plan : list Interval) (id : string) (r : gap_row)
    (m m' : gmap string gap_row) : Prop := {
  ps_wf : gaps_wf m';
  ps_out : ∀ n l mode, ¬ (n = net ∧ g_from r ≤ l ≤ g_to r) →
    owes m' n l mode ↔ owes m n l mode;
  ps_in : ∀ l mode, g_from r ≤ l ≤ g_to r → owes m' net l mode →
    owed m net l ∧ mode = plan_mode plan l;
  ps_full : no_clash net plan m r → ∀ l, g_from r ≤ l ≤ g_to r → owed m net l →
    owes m' net l (plan_mode plan l);
  ps_old : ∀ k x, k ≠ id → m !! k = Some x → m' !! k = Some x;
  ps_resolved : ∀ k x, g_resolved_at x ≠ None → m' !! k = Some x → m !! k = Some x;
  ps_open : ∀ k x, m' !! k = Some x → row_open net x →
    (k ≠ id ∧ m !! k = Some x) ∨
    (stable plan x ∧ g_from r ≤ g_from x ∧ g_to x ≤ g_to r) }.

Section planning.
Context (net : string) (plan : list Interval).
Context (Hvalid : Forall (λ iv, iv_From iv ≤ iv_To iv) plan) (Hsorted : plan_sorted plan).

Section one.
Context (m : gmap string gap_row) (id : string) (r : gap_row).
Context (Hwf : gaps_wf m) (Hr : m !! id = Some r) (Hopen : row_open net r).

Lemma remainder_bounds : g_from r ≤ heal_next r → 0 ≤ g_from r ≤ heal_next r ∧ heal_next r ≤ max_u32.
Proof.
  pose proof (wf_range _ Hwf _ _ Hr). pose proof (wf_next _ Hwf _ _ Hr). lia.
Qed.

Abbreviation pieces := (partition (g_from r) (heal_next r) plan).

Lemma pieces_modes : g_from r ≤ heal_next r →
  ∀ p l, p ∈ pieces → p_from p ≤ l ≤ p_to p → p_mode p = plan_mode plan l.
Proof.
  intros [Hb Hm]%remainder_bounds p l Hp Hl.
  pose proof (partitionLoop_modes _ _ _ Hb Hm Hvalid Hsorted) as Hmo.
  rewrite Forall_forall in Hmo. by apply (Hmo _ Hp).
Qed.

Lemma plan_mode_cases l : plan_mode plan l = HealModeReplay ∨ plan_mode plan l = HealModeDeferred.
Proof. unfold plan_mode. case_match; auto. Qed.

(** The split case. *)
Lemma split_plan_step now :
  g_from r ≤ heal_next r →
  plan_step net plan id r m (split_gaps net (scanGap (id, r)) pieces now m).
Proof.
  intros Hle. destruct (remainder_bounds Hle) as [Hb Hmax].
  pose proof (partitionLoop_tiles _ _ _ Hb Hmax Hvalid) as Ht.
  pose proof (pieces_modes Hle) as Hpm.
  assert (Hmodes : Forall (λ p, p_mode p = HealModeReplay ∨ p_mode p = HealModeDeferred) pieces).
  { apply Forall_forall. intros p Hp. pose proof (tiles_elem _ _ _ _ Ht Hp).
    rewrite (Hpm p (p_from p) Hp) by lia. apply plan_mode_cases. }
  split.
  - by apply split_wf.
  - intros n l mode ?. by apply split_out.
  - intros l mode ? ?. by eapply split_in.
  - intros Hnc l ? ?. eapply split_in_full; try done. intros p old Hp Hold.
    by eapply (Hnc p old).
  - intros k x Hne Hk. apply split_lookup; try done. by left.
  - intros k x Hres Hk. apply split_lookup in Hk as [[? ?]|(p & _ & -> & _ & ->)]; done.
  - intros k x Hk _. apply split_lookup in Hk as [?|(p & Hp & -> & _ & ->)]; try done;
      [by left|right].
    split_and!; simpl.
    + right. exists p. split; [|done]. unfold heal_next. simpl.
      by apply (partitionLoop_stable (g_from r) (heal_next r)).
    + by eapply split_piece_range.
    + by eapply split_piece_range.
Qed.

(** A gap that is left alone. *)
Lemma skip_plan_step : stable plan r → plan_step net plan id r m m.
Proof.
  intros Hst. split; try done.
  - intros l mode Hl (k & x & Hk & Ho).
    assert (k = id ∧ x = r) as [-> ->].
    { eapply (wf_same m k x id r net l); try done;
        [by eapply row_owes_open|by eapply row_owes_range]. }
    split; [by exists mode, id, r|]. destruct Ho as (_ & _ & Hl' & <-).
    destruct Hst as [?|(p & Hp & <-)]; [lia|].
    assert (Hpin : p ∈ pieces) by (rewrite Hp; by left).
    destruct (remainder_bounds ltac:(lia)) as [Hb Hmax].
    pose proof (partitionLoop_tiles _ _ _ Hb Hmax Hvalid) as Ht.
    fold (partition (g_from r) (heal_next r) plan) in Ht. rewrite Hp in Ht.
    destruct Ht as (? & ? & _). apply pieces_modes; [lia|done|lia].
  - intros Hnc l Hl (mode & k & x & Hk & Ho).
    assert (k = id ∧ x = r) as [-> ->].
    { eapply (wf_same m k x id r net l); try done;
        [by eapply row_owes_open|by eapply row_owes_range]. }
    exists id, r. split; [done|]. destruct Ho as (? & ? & Hl' & _). split_and!; try done; try lia.
    destruct Hst as [?|(p & Hp & <-)]; [lia|].
    assert (Hpin : p ∈ pieces) by (rewrite Hp; by left).
    destruct (remainder_bounds ltac:(lia)) as [Hb Hmax].
    pose proof (partitionLoop_tiles _ _ _ Hb Hmax Hvalid) as Ht.
    fold (partition (g_from r) (heal_next r) plan) in Ht. rewrite Hp in Ht.
    destruct Ht as (? & ? & _). apply pieces_modes; [lia|done|lia].
  - intros k x Hk Ho. destruct (decide (k = id)) as [->|]; [|by left].
    simplify_eq. right. split_and!; [done|lia..].
Qed.

(** The run of the loop body. *)
Lemma planGap_run now d :
  db_gaps d = m →
  ∃ d', run now (planGap net plan (scanGap (id, r))) d = Ok (tt, d') ∧
        plan_step net plan id r m (db_gaps d') ∧ rest_of d' = rest_of d ∧
        (stable plan r → d' = d).
Proof.
  intros Hd. unfold planGap.
  destruct (scanGap_fields m id r Hwf Hr) as (-> & _ & -> & _ & ->).
  destruct (Z.ltb_spec (heal_next r) (g_from r)) as [|Hle].
  { exists d. split_and!; try done. rewrite Hd. apply skip_plan_step. by left. }
  assert (Hsplit : ∃ d', run now (splitGap net (scanGap (id, r)) pieces) d = Ok (tt, d') ∧
    plan_step net plan id r m (db_gaps d') ∧ rest_of d' = rest_of d).
  { destruct (remainder_bounds Hle) as [Hb Hmax].
    destruct (tiles_last _ _ _ (partitionLoop_tiles _ _ _ Hb Hmax Hvalid)) as (top & Htop & _).
    eexists. split; [by apply run_splitGap|].
    autorewrite with sierpe_simp. split; [|done]. rewrite Hd. by apply split_plan_step. }
  destruct pieces as [|p [|p2 ps]] eqn:Hps.
  - destruct (remainder_bounds Hle) as [Hb Hmax].
    pose proof (partitionLoop_tiles _ _ _ Hb Hmax Hvalid) as Ht.
    fold (partition (g_from r) (heal_next r) plan) in Ht. by rewrite Hps in Ht.
  - case_bool_decide as Hm.
    + exists d. split_and!; try done. rewrite Hd. apply skip_plan_step. right. by exists p.
    + destruct Hsplit as (d' & ? & ? & ?). exists d'. split_and!; try done.
      intros [?|(q & Hq & ?)]; [lia|]. simplify_eq. congruence.
  - destruct Hsplit as (d' & ? & ? & ?). exists d'. split_and!; try done.
    intros [?|(q & Hq & _)]; [lia|congruence].
Qed.
End one.

(** The whole loop, gap after gap. *)
Definition planned (gs : list (string * gap_row)) (m m' : gmap string gap_row) : Prop :=
  gaps_wf m' ∧
  (∀ n l mode, ¬ (n = net ∧ Exists (λ row, g_from row.2 ≤ l ≤ g_to row.2) gs) →
     owes m' n l mode ↔ owes m n l mode) ∧
  (∀ l mode, Exists (λ row, g_from row.2 ≤ l ≤ g_to row.2) gs → owes m' net l mode →
     owed m net l ∧ mode = plan_mode plan l) ∧
  (Forall (λ row, no_clash net plan m row.2) gs →
   ∀ l, Exists (λ row, g_from row.2 ≤ l ≤ g_to row.2) gs → owed m net l →
     owes m' net l (plan_mode plan l)) ∧
  (∀ k x, m' !! k = Some x → row_open net x →
     ((k ∉ gs.*1) ∧ m !! k = Some x) ∨ stable plan x).


Lemma planGaps_run now gs d :
  gaps_wf (db_gaps d) → NoDup gs.*1 →
  Forall (λ row, db_gaps d !! row.1 = Some row.2 ∧ row_open net row.2) gs →
  ∃ d', run now (foreach (planGap net plan) (scanGap <$> gs)) d = Ok (tt, d') ∧
        planned gs (db_gaps d) (db_gaps d') ∧ rest_of d' = rest_of d ∧
        (Forall (λ row, stable plan row.2) gs → d' = d).
Proof.
  revert d. induction gs as [|[id r] gs IH]; intros d Hwf Hnd Hgs;
    rewrite ?fmap_cons; cbn [foreach].
  { exists d. split_and!; try done. split_and!; try done.
    - intros l mode Hex. by apply Exists_nil in Hex.
    - intros _ l Hex. by apply Exists_nil in Hex.
    - intros k x ? ?. left. split; [|done]. by intros ?%elem_of_nil. }
  apply NoDup_cons in Hnd as [Hid Hnd]. apply Forall_cons in Hgs as [[Hr Ho] Hgs].
  simpl in Hr, Ho, Hid.
  destruct (planGap_run (db_gaps d) id r Hwf Hr Ho now d eq_refl)
    as (d1 & Hrun & Hst & Hrest & Hsame).
  rewrite run_bind, Hrun.
  destruct (IH d1) as (d' & Hrun' & (Hwf' & Hout & Hin & Hfull & Hopen') & Hrest' & Hsame').
  { by apply (ps_wf _ _ _ _ _ _ Hst). }
  { done. }
  { apply Forall_forall. intros [k x] Hk. rewrite Forall_forall in Hgs.
    destruct (Hgs _ Hk) as [Hkx ?]. simpl in Hkx. split; [|done]. simpl.
    apply (ps_old _ _ _ _ _ _ Hst); [|done]. intros ->. apply Hid.
    apply list_elem_of_fmap. by exists (id, x). }
  assert (Hdisj : ∀ l, g_from r ≤ l ≤ g_to r →
            ¬ Exists (λ row, g_from row.2 ≤ l ≤ g_to row.2) gs).
  { intros l Hl ([k x] & Hk & Hlx)%Exists_exists. rewrite Forall_forall in Hgs.
    destruct (Hgs _ Hk) as [Hkx Hox]. apply Hid.
    rewrite <- (wf_disjoint _ Hwf k x id r net l); try done.
    apply list_elem_of_fmap. by exists (k, x). }
  exists d'. split_and!; [done| |congruence|].
  2:{ intros [Hs1 Hs2]%Forall_cons. rewrite (Hsame' Hs2). by apply Hsame. }
  split_and!; [done| | | |].
  - intros n l mode Hno. rewrite Hout, (ps_out _ _ _ _ _ _ Hst); [done| |].
    + intros [-> Hl]. apply Hno. split; [done|]. by left.
    + intros [-> Hl]. apply Hno. split; [done|]. by right.
  - intros l mode [Hl|Hl]%Exists_cons Hw.
    + apply Hout in Hw; [|by intros [_ ?%Hdisj]].
      by apply (ps_in _ _ _ _ _ _ Hst) in Hw.
    + destruct (Hin l mode Hl Hw) as [[md Hw'] ->]. split; [|done]. exists md.
      apply (ps_out _ _ _ _ _ _ Hst) in Hw'; [done|]. by intros [_ ?%Hdisj].
  - intros [Hnc Hncs]%Forall_cons l [Hl|Hl]%Exists_cons Hw.
    + apply Hout; [by intros [_ ?%Hdisj]|]. by apply (ps_full _ _ _ _ _ _ Hst).
    + apply Hfull; [|done|].
      * eapply Forall_impl; [exact Hncs|]. intros [k x] Hx p old Hle Hp Hold.
        destruct (decide (g_resolved_at old = None)); [done|].
        eapply Hx; try done. by eapply (ps_resolved _ _ _ _ _ _ Hst).
      * destruct Hw as [md Hw]. exists md. apply (ps_out _ _ _ _ _ _ Hst); [|done].
        by intros [_ ?%Hdisj].
  - intros k x Hk Hox. destruct (Hopen' k x Hk Hox) as [[Hkn Hk1]|]; [|by right].
    destruct (ps_open _ _ _ _ _ _ Hst k x Hk1 Hox) as [[? ?]|[? _]]; [left|by right].
    split; [|done]. simpl. by apply not_elem_of_cons.
Qed.
End planning.

(** The gaps that a plan locks are the open rows of the network. *)
Lemma lockOpenGaps_rows net d now :
  ∃ rows, run now (lockOpenGaps net) d = Ok (scanGap <$> rows, d) ∧
    NoDup rows.*1 ∧ StronglySorted (λ a b, g_to b.2 ≤ g_to a.2) rows ∧
    ∀ id r, (id, r) ∈ rows ↔ db_gaps d !! id = Some r ∧ row_open net r.
Proof.
  eexists. split; [done|]. split_and!.
  - rewrite (fmap_Permutation _ _ _ (sort_by_desc_perm _ _)). apply NoDup_sel.
  - apply sort_by_desc_sorted.
  - intros id r. by rewrite elem_of_sort_by_desc, elem_of_sel, is_open_spec.
Qed.

Lemma plan_hypotheses replay padding :
  Forall valid_interval replay → is_u32 padding →
  Forall (λ iv, iv_From iv ≤ iv_To iv) (normalizePlan replay padding) ∧
  plan_sorted (normalizePlan replay padding).
Proof.
  intros Hv Hp. split; [|by apply normalizePlan_sorted].
  apply valid_interval_le. by apply normalizePlan_valid.
Qed.

(** The run of [PlanHeal], in terms of the table before and after. *)
Lemma PlanHeal_run net replay padding now d :
  Forall valid_interval replay → is_u32 padding → gaps_wf (db_gaps d) →
  let plan := normalizePlan replay padding in
  ∃ res d' rows, run now (PlanHeal net replay padding) d = Ok (res, d') ∧
    (∀ id r, (id, r) ∈ rows ↔ db_gaps d !! id = Some r ∧ row_open net r) ∧
    planned net plan rows (db_gaps d) (db_gaps d') ∧ rest_of d' = rest_of d ∧
    (Forall (λ row, stable plan row.2) rows → d' = d) ∧
    run now (countPlan net) d' = Ok (res, d').
Proof.
  intros Hv Hp Hwf plan. destruct (plan_hypotheses _ _ Hv Hp) as [Hv' Hs'].
  unfold PlanHeal. fold plan in Hv', Hs' |- *. cbv zeta. destruct (lockOpenGaps_rows net d now) as (rows & Hlock & Hnd & _ & Hrows).
  rewrite run_bind, Hlock, run_bind.
  destruct (planGaps_run net plan Hv' Hs' now rows d Hwf Hnd) as (d' & -> & ? & ? & ?).
  { apply Forall_forall. intros [id r] Hin. by apply Hrows in Hin. }
  eexists _, d', rows. by split_and!.
Qed.

Lemma rows_cover net m rows l mode :
  gaps_wf m → (∀ id r, (id, r) ∈ rows ↔ m !! id = Some r ∧ row_open net r) →
  owes m net l mode → Exists (λ row, g_from row.2 ≤ l ≤ g_to row.2) rows.
Proof.
  intros Hwf Hrows (id & r & Hr & Ho). apply Exists_exists. exists (id, r). split.
  - apply Hrows. split; [done|by eapply row_owes_open].
  - by eapply row_owes_range.
Qed.

(** ** Reopening *)

(** Ledger [l] is inside an open gap that overlaps [[from, to]]. *)
Definition touched (m : gmap string gap_row) (net : string) (from to l : Z) : Prop :=
  ∃ id r, m !! id = Some r ∧ row_open net r ∧ g_from r ≤ to ∧ from ≤ g_to r ∧
          g_from r ≤ l ≤ g_to r.

(** An update that keeps a row's identity and sends its watermark back to the
    top of its range. *)
Definition rewound (r r' : gap_row) : Prop :=
  g_network r' = g_network r ∧ g_from r' = g_from r ∧ g_to r' = g_to r ∧
  g_resolved_at r' = g_resolved_at r ∧ heal_next r' = g_to r ∧
  (g_heal_mode r' = g_heal_mode r ∨ g_heal_mode r' = HealModeReplay).

Lemma upd_wf P f m :
  gaps_wf m → (∀ id r, m !! id = Some r → P id r = true → rewound r (f r)) →
  gaps_wf (upd P f m).
Proof.
  intros Hwf Hf.
  assert (Hrow : ∀ id x, upd P f m !! id = Some x →
    ∃ r, m !! id = Some r ∧ (x = r ∨ rewound r x)).
  { intros id x (r & Hr & ->)%lookup_upd_Some. exists r. split; [done|].
    destruct (P id r) eqn:HP; [right|by left]. by eapply Hf. }
  split.
  - intros id x (r & Hr & [->|Hx])%Hrow; [by eapply wf_key|].
    destruct Hx as (-> & -> & -> & _). by eapply wf_key.
  - intros id x (r & Hr & [->|Hx])%Hrow; [by eapply wf_range|].
    destruct Hx as (_ & -> & -> & _). by eapply wf_range.
  - intros id x (r & Hr & [->|Hx])%Hrow; [by eapply wf_next|].
    destruct Hx as (_ & -> & -> & _ & -> & _).
    pose proof (wf_range _ Hwf _ _ Hr). lia.
  - intros id x (r & Hr & [->|Hx])%Hrow; [by eapply wf_mode|].
    destruct Hx as (_ & _ & _ & _ & _ & [->| ->]); [by eapply wf_mode|by left].
  - intros id1 x1 id2 x2 net l (r1 & H1 & Hx1)%Hrow (r2 & H2 & Hx2)%Hrow [Hn1 Ho1] [Hn2 Ho2] Hl1 Hl2.
    apply (wf_disjoint _ Hwf id1 r1 id2 r2 net l); try done.
    + destruct Hx1 as [->|(? & _ & _ & ? & _)]; split; congruence.
    + destruct Hx2 as [->|(? & _ & _ & ? & _)]; split; congruence.
    + destruct Hx1 as [->|(_ & <- & <- & _)]; done.
    + destruct Hx2 as [->|(_ & <- & <- & _)]; done.
Qed.

Definition reopen_cond (net : string) (from to : Z) (r : gap_row) : bool :=
  is_open net r && overlaps from to r &&
  (bool_decide (g_heal_mode r = HealModeDeferred)
   || bool_decide (g_heal_next_to r ≠ Some (g_to r))).

Definition reopen_row (r : gap_row) : gap_row :=
  mkGapRow (g_network r) (g_from r) (g_to r) (g_reason r) (g_recorded_at r)
           (g_resolved_at r) (Some (g_to r)) HealModeReplay.

Lemma run_ReopenGaps net from to now d :
  run now (ReopenGaps net from to) d =
  Ok (affected (λ _, reopen_cond net from to) (db_gaps d),
      set_gaps (upd (λ _, reopen_cond net from to) reopen_row) d).
Proof. done. Qed.

(** Rows outside the condition already owe all of themselves, to the healer. *)
Lemma reopen_cond_false net from to m id r :
  gaps_wf m → m !! id = Some r → row_open net r → g_from r ≤ to → from ≤ g_to r →
  reopen_cond net from to r = false →
  heal_next r = g_to r ∧ g_heal_mode r = HealModeReplay.
Proof.
  intros Hwf Hr Ho ??. unfold reopen_cond.
  rewrite (proj2 (is_open_spec net r)), (proj2 (overlaps_spec from to r)) by done. simpl.
  rewrite orb_false_iff, !bool_decide_eq_false. intros [Hm Hn].
  destruct (wf_mode _ Hwf _ _ Hr); [|done]. split; [|done].
  unfold heal_next. destruct (g_heal_next_to r) as [n|]; [|done].
  apply dec_stable. intros Hne. apply Hn. simpl in *. congruence.
Qed.

Section reopening.
Context (m : gmap string gap_row) (net : string) (from to : Z) (Hwf : gaps_wf m).

Lemma reopen_wf : gaps_wf (upd (λ _, reopen_cond net from to) reopen_row m).
Proof. apply upd_wf; [done|]. intros id r _ _. repeat split; auto. Qed.

Lemma reopen_owes n l mode :
  owes (upd (λ _, reopen_cond net from to) reopen_row m) n l mode ↔
  (¬ (n = net ∧ touched m net from to l) ∧ owes m n l mode) ∨
  (n = net ∧ touched m net from to l ∧ mode = HealModeReplay).
Proof.
  assert (Hsame : ∀ id r, m !! id = Some r → row_owes net l mode r →
    touched m net from to l → g_from r ≤ to ∧ from ≤ g_to r).
  { intros id r Hr Ho (k & x & Hk & Hox & ? & ? & ?).
    assert (id = k ∧ r = x) as [-> ->]; [|done].
    eapply (wf_same m id r k x net l); try done; [by eapply row_owes_open|by eapply row_owes_range]. }
  split.
  - intros (id & x & (r & Hr & ->)%lookup_upd_Some & Hx).
    destruct (reopen_cond net from to r) eqn:Hc.
    + unfold reopen_cond in Hc. apply andb_true_iff in Hc as [[Hop Hov]%andb_true_iff _].
      apply is_open_spec in Hop. apply overlaps_spec in Hov as [? ?].
      destruct Hx as (Hn & _ & Hl & Hm). unfold heal_next in Hl. simpl in *. right.
      assert (n = net) as -> by (destruct Hop; congruence). split_and!; [done| |done].
      exists id, r. split_and!; try done; lia.
    + destruct (decide (n = net)) as [->|].
      * destruct (decide (g_from r ≤ to ∧ from ≤ g_to r)) as [[? ?]|Hno].
        -- right. assert (row_open net r) by (by eapply row_owes_open).
           assert (Hlr : g_from r ≤ l ≤ g_to r) by (by eapply row_owes_range).
           destruct (reopen_cond_false net from to m id r) as [_ Hmode]; try done.
           destruct Hx as (_ & _ & _ & <-). split_and!; try done. by exists id, r.
        -- left. split; [|by exists id, r]. intros [_ Ht]. apply Hno. by eapply Hsame.
      * left. split; [by intros []|by exists id, r].
  - intros [[Hno (id & r & Hr & Hx)]|(-> & (id & r & Hr & Ho & ? & ? & ?) & ->)].
    + exists id. exists r. split; [|done]. rewrite lookup_upd_Some. exists r. split; [done|].
      destruct (reopen_cond net from to r) eqn:Hc; [|done]. destruct Hno.
      unfold reopen_cond in Hc. apply andb_true_iff in Hc as [[Hop Hov]%andb_true_iff _].
      apply is_open_spec in Hop. apply overlaps_spec in Hov as [? ?].
      assert (g_from r ≤ l ≤ g_to r) by (by eapply row_owes_range).
      split; [destruct Hop, Hx; congruence|].
      exists id, r. split_and!; try done; lia.
    + exists id, (if reopen_cond net from to r then reopen_row r else r).
      split; [apply lookup_upd_Some; by exists r|].
      assert (Ho' := Ho). destruct Ho' as [? ?].
      destruct (reopen_cond net from to r) eqn:Hc.
      * split_and!; try done; unfold heal_next; simpl; lia.
      * destruct (reopen_cond_false net from to m id r) as [Hn Hm]; try done.
        split_and!; try done; lia.
Qed.
End reopening.

(** ** Recording *)

Definition rewind_cond (net : string) (from to : Z) (r : gap_row) : bool :=
  is_open net r && overlaps from to r
  && match g_heal_next_to r with Some n => n <? g_to r | None => false end.

Definition rewind_row (r : gap_row) : gap_row :=
  mkGapRow (g_network r) (g_from r) (g_to r) (g_reason r) (g_recorded_at r)
           (g_resolved_at r) (Some (g_to r)) (g_heal_mode r).

Section recording.
Context (m : gmap string gap_row) (net : string) (from to : Z) (Hwf : gaps_wf m).

Abbreviation m1 := (rewind_gaps net from to m).

Lemma rewind_wf : gaps_wf m1.
Proof. apply upd_wf; [done|]. intros id r _ _. repeat split; auto. Qed.

Lemma rewind_cond_false id r :
  m !! id = Some r → row_open net r → g_from r ≤ to → from ≤ g_to r →
  rewind_cond net from to r = false → heal_next r = g_to r.
Proof.
  intros Hr Ho ??. unfold rewind_cond, heal_next.
  rewrite (proj2 (is_open_spec net r)), (proj2 (overlaps_spec from to r)) by done. simpl.
  pose proof (wf_next _ Hwf _ _ Hr) as Hn. unfold heal_next in Hn.
  destruct (g_heal_next_to r); simpl in *; [|done]. rewrite Z.ltb_ge. lia.
Qed.

(** Rewinding keeps every row and makes the overlapping ones owe all of
    their range. *)
Lemma rewind_lookup id x :
  m1 !! id = Some x ↔
  ∃ r, m !! id = Some r ∧
    ((x = r ∧ ¬ (row_open net r ∧ g_from r ≤ to ∧ from ≤ g_to r)) ∨
     (row_open net r ∧ g_from r ≤ to ∧ from ≤ g_to r ∧ heal_next x = g_to r ∧
      x = (if rewind_cond net from to r then rewind_row r else r))).
Proof.
  change m1 with (upd (λ _ r, rewind_cond net from to r) rewind_row m).
  rewrite lookup_upd_Some. split; intros (r & Hr & Hx); exists r; (split; [done|]).
  - destruct (decide (row_open net r ∧ g_from r ≤ to ∧ from ≤ g_to r)) as [(Ho & ? & ?)|Hno].
    + right. split_and!; [done..| |done]. subst x.
      destruct (rewind_cond net from to r) eqn:Hc; [done|]. by eapply rewind_cond_false.
    + left. split; [|done]. subst x. destruct (rewind_cond net from to r) eqn:Hc; [|done].
      destruct Hno. unfold rewind_cond in Hc.
      apply andb_true_iff in Hc as [[Hop%is_open_spec Hov%overlaps_spec]%andb_true_iff _]. tauto.
  - destruct Hx as [[-> Hno]|(_ & _ & _ & _ & ->)]; [|done].
    destruct (rewind_cond net from to r) eqn:Hc; [|done]. destruct Hno.
    unfold rewind_cond in Hc.
    apply andb_true_iff in Hc as [[Hop%is_open_spec Hov%overlaps_spec]%andb_true_iff _]. tauto.
Qed.

Lemma rewind_owed n l :
  owed m1 n l ↔ owed m n l ∨ (n = net ∧ touched m net from to l).
Proof.
  split.
  - intros (md & id & x & (r & Hr & [[-> _]|(Ho & ? & ? & Hn & Hx)])%rewind_lookup & Hox).
    + left. by exists md, id, r.
    + right. destruct Hox as (Hnx & _ & Hl & _). destruct Ho as [Hon ?].
      assert (g_network x = net ∧ g_from x = g_from r) as [Hxn Hxf]
        by (subst x; by destruct (rewind_cond _ _ _ _)).
      split; [congruence|]. exists id, r. split_and!; try done; lia.
  - intros [(md & id & r & Hr & Ho)|(-> & (id & r & Hr & Ho & ? & ? & ?))].
    + assert (Hl : g_from r ≤ l ≤ g_to r) by (by eapply row_owes_range).
      destruct (decide (row_open net r ∧ g_from r ≤ to ∧ from ≤ g_to r)) as [(Hop & ? & ?)|Hno].
      * exists md, id, (if rewind_cond net from to r then rewind_row r else r).
        destruct Ho as (? & ? & ? & ?). split.
        -- apply rewind_lookup. exists r. split; [done|]. right. split_and!; try done.
           destruct (rewind_cond net from to r) eqn:Hc; [done|]. by eapply rewind_cond_false.
        -- destruct (rewind_cond net from to r); [|done].
           split_and!; try done; unfold heal_next; simpl; lia.
      * exists md, id, r. split; [|done]. apply rewind_lookup. exists r. tauto.
    + exists (g_heal_mode r), id, (if rewind_cond net from to r then rewind_row r else r).
      assert (Hh : heal_next (if rewind_cond net from to r then rewind_row r else r) = g_to r).
      { destruct (rewind_cond net from to r) eqn:Hc; [done|]. by eapply rewind_cond_false. }
      split; [apply rewind_lookup; exists r; tauto|]. destruct Ho.
      destruct (rewind_cond net from to r); split_and!; try done; try lia;
        unfold heal_next; simpl; lia.
Qed.

(** What the covering query returns. *)
Lemma covering_spec l :
  from ≤ l ≤ to →
  in_ranges (covering net from to m1) l ↔ claimed m1 net l.
Proof.
  intros Hl. unfold in_ranges, covering. rewrite Exists_fmap, Exists_exists. split.
  - intros ([id r] & Hin & Hlr). apply elem_of_sort_by, elem_of_sel in Hin as [Hr Hc].
    apply andb_true_iff in Hc as [[? ?]%is_open_spec _]. by exists id, r.
  - intros (id & r & Hr & Hn & Ho & Hlr). exists (id, r). split; [|done].
    apply elem_of_sort_by, elem_of_sel. split; [done|].
    apply andb_true_iff. split; [by apply is_open_spec|]. apply overlaps_spec. lia.
Qed.

Lemma covering_sorted : StronglySorted (λ a b, a.1 ≤ b.1) (covering net from to m1).
Proof.
  unfold covering.
  pose proof (sort_by_sorted (λ row : string * gap_row, g_from row.2)
    (sel (λ _ r, is_open net r && overlaps from to r) m1)) as Hs.
  induction Hs as [|a l _ IH Hall]; constructor; [done|].
  apply Forall_forall. intros b (x & -> & Hx)%list_elem_of_fmap.
  rewrite Forall_forall in Hall. by apply Hall.
Qed.

(** The holes that are inserted. *)
Context (reason : string) (now : Z) (Hrange : 1 ≤ from ≤ to) (Hmax : to ≤ max_u32).

Abbreviation holes := (uncoveredRanges from to (covering net from to m1)).
Abbreviation m2 := (foldl (λ m hole, upsert (hole_id net hole) (hole_row net reason now hole) m)
                      m1 holes).

Lemma holes_bounds h : h ∈ holes → from ≤ h.1 ≤ h.2 ∧ h.2 ≤ to.
Proof.
  intros Hh. pose proof (uncoveredRanges_bounds from to (covering net from to m1)) as Hb.
  rewrite Forall_forall in Hb. by apply Hb.
Qed.

Lemma in_holes l : in_ranges holes l ↔ from ≤ l ≤ to ∧ ¬ claimed m1 net l.
Proof.
  rewrite uncoveredRanges_spec by apply covering_sorted. split; intros [? Hc]; (split; [done|]).
  - by rewrite <- covering_spec.
  - by rewrite covering_spec.
Qed.

Lemma holes_NoDup : NoDup (hole_id net <$> holes).
Proof.
  apply NoDup_fmap_2_strong.
  - intros [a b] [c e] _ _ (_ & ? & ?)%gap_id_inj. simpl in *. congruence.
  - pose proof (uncoveredRanges_sorted from to _ covering_sorted) as Hs.
    pose proof (uncoveredRanges_bounds from to (covering net from to m1)) as Hb.
    induction Hs as [|h hs Hs IH Hall]; constructor.
    + rewrite Forall_forall in Hall. intros Hin. specialize (Hall _ Hin).
      apply Forall_cons in Hb as [? _]. lia.
    + apply IH. by apply Forall_cons in Hb as [_ ?].
Qed.

Lemma holes_disjoint h1 h2 l :
  h1 ∈ holes → h2 ∈ holes → h1.1 ≤ l ≤ h1.2 → h2.1 ≤ l ≤ h2.2 → h1 = h2.
Proof.
  intros H1 H2 Hl1 Hl2. pose proof (uncoveredRanges_sorted from to _ covering_sorted) as Hs.
  apply list_elem_of_split in H1 as (l1 & l2 & Hps). rewrite Hps in H2, Hs.
  apply elem_of_app in H2 as [H2|[->|H2]%elem_of_cons]; [|done|].
  - apply StronglySorted_app_1_elem_of with (x1 := h2) (x2 := h1) in Hs; [lia|done|by left].
  - apply StronglySorted_app in Hs as (_ & _ & [Hs _]%StronglySorted_cons).
    rewrite Forall_forall in Hs. specialize (Hs _ H2). lia.
Qed.

Lemma hole_unclaimed h l : h ∈ holes → h.1 ≤ l ≤ h.2 → ¬ claimed m1 net l.
Proof.
  intros Hh Hl. assert (Hin : in_ranges holes l) by (apply Exists_exists; by exists h).
  by apply in_holes in Hin as [_ ?].
Qed.

(** A row stored under the id of a hole was resolved before. *)
Lemma hole_old h old :
  h ∈ holes → m1 !! hole_id net h = Some old →
  g_network old = net ∧ g_from old = h.1 ∧ g_to old = h.2 ∧ g_resolved_at old ≠ None.
Proof.
  intros Hh Hold. pose proof (wf_key _ rewind_wf _ _ Hold) as (Hn & Hf & Ht)%gap_id_inj.
  split_and!; [done..|]. intros Hres. pose proof (holes_bounds h Hh).
  apply (hole_unclaimed h h.1 Hh); [lia|]. exists (hole_id net h), old.
  split_and!; try done; lia.
Qed.

(** The row a hole leaves in the table. *)
Definition is_hole_row (h : Z * Z) (x : gap_row) : Prop :=
  g_network x = net ∧ g_from x = h.1 ∧ g_to x = h.2 ∧ g_resolved_at x = None ∧
  heal_next x = h.2 ∧ g_heal_mode x = HealModeReplay.

Lemma hole_row_spec h : h ∈ holes → is_hole_row h (hole_row net reason now h (m1 !! hole_id net h)).
Proof.
  intros Hh. destruct (m1 !! hole_id net h) as [old|] eqn:Hold; [|by repeat split].
  destruct (hole_old h old Hh Hold) as (? & ? & ? & ?). simpl.
  rewrite bool_decide_eq_false_2 by done. by repeat split.
Qed.

Lemma record_lookup k x :
  m2 !! k = Some x →
  (m1 !! k = Some x ∧ ∀ h, h ∈ holes → k ≠ hole_id net h) ∨
  (∃ h, h ∈ holes ∧ k = hole_id net h ∧ is_hole_row h x).
Proof.
  intros [[Hk ?]|(h & Hh & -> & ->)]%foldl_upsert_lookup; [left|right|apply holes_NoDup].
  - split; [done|]. intros h Hh ->. apply Hk. by apply list_elem_of_fmap_2.
  - exists h. split_and!; [done..|]. by apply hole_row_spec.
Qed.

Lemma record_lookup_open k x : m1 !! k = Some x → row_open net x → m2 !! k = Some x.
Proof.
  intros Hk [? ?]. apply foldl_upsert_lookup; [apply holes_NoDup|]. left. split; [|done].
  intros (h & -> & Hh)%list_elem_of_fmap. by apply (hole_old h x Hh) in Hk as (_ & _ & _ & ?).
Qed.

Lemma record_lookup_other k x : m1 !! k = Some x → g_network x ≠ net → m2 !! k = Some x.
Proof.
  intros Hk ?. apply foldl_upsert_lookup; [apply holes_NoDup|]. left. split; [|done].
  intros (h & -> & Hh)%list_elem_of_fmap. by apply (hole_old h x Hh) in Hk as (? & _).
Qed.

Lemma record_lookup_hole h : h ∈ holes → ∃ x, m2 !! hole_id net h = Some x ∧ is_hole_row h x.
Proof.
  intros Hh. exists (hole_row net reason now h (m1 !! hole_id net h)).
  split; [|by apply hole_row_spec].
  apply foldl_upsert_lookup; [apply holes_NoDup|]. right. by exists h.
Qed.

Lemma record_wf : gaps_wf m2.
Proof.
  pose proof rewind_wf as Hwf1. split.
  - intros k x [[Hk _]|(h & _ & -> & -> & -> & -> & _)]%record_lookup; [by eapply wf_key|done].
  - intros k x [[Hk _]|(h & Hh%holes_bounds & -> & _ & -> & -> & _)]%record_lookup;
      [by eapply wf_range|lia].
  - intros k x [[Hk _]|(h & Hh%holes_bounds & -> & _ & -> & -> & _ & -> & _)]%record_lookup;
      [by eapply wf_next|lia].
  - intros k x [[Hk _]|(h & _ & -> & _ & _ & _ & _ & _ & ->)]%record_lookup;
      [by eapply wf_mode|by left].
  - intros k1 x1 k2 x2 n l H1 H2 Ho1 Ho2 Hl1 Hl2.
    apply record_lookup in H1 as [[H1 _]|(h1 & Hh1 & -> & Hx1)];
    apply record_lookup in H2 as [[H2 _]|(h2 & Hh2 & -> & Hx2)].
    + by eapply (wf_disjoint _ Hwf1 k1 x1 k2 x2 n l).
    + destruct Hx2 as (Hn & Hf & Ht & _), Ho1, Ho2. destruct (hole_unclaimed h2 l Hh2); [lia|].
      exists k1, x1. split_and!; try done; congruence || lia.
    + destruct Hx1 as (Hn & Hf & Ht & _), Ho1, Ho2. destruct (hole_unclaimed h1 l Hh1); [lia|].
      exists k2, x2. split_and!; try done; congruence || lia.
    + destruct Hx1 as (_ & Hf1 & Ht1 & _), Hx2 as (_ & Hf2 & Ht2 & _).
      f_equal. apply (holes_disjoint h1 h2 l); try done; lia.
Qed.

Lemma record_owed n l :
  owed m2 n l ↔ owed m1 n l ∨ (n = net ∧ from ≤ l ≤ to ∧ ¬ claimed m1 net l).
Proof.
  split.
  - intros (md & k & x & [[Hk _]|(h & Hh & -> & Hx)]%record_lookup & Ho).
    + left. by exists md, k, x.
    + destruct Hx as (Hn & Hf & Ht & _ & Hh' & _), Ho as (<- & _ & Hl & _).
      right. split; [done|]. apply in_holes, Exists_exists. exists h. split; [done|lia].
  - intros [(md & k & x & Hk & Ho)|(-> & Hin)].
    + exists md, k, x. split; [|done]. destruct (decide (n = net)) as [->|].
      * apply record_lookup_open; [done|by eapply row_owes_open].
      * apply record_lookup_other; [done|]. destruct Ho; congruence.
    + apply in_holes in Hin. apply Exists_exists in Hin as (h & Hh & Hl).
      destruct (record_lookup_hole h Hh) as (x & Hk & Hn & Hf & Ht & Hr & Hh' & Hm).
      exists HealModeReplay, (hole_id net h), x. split; [done|]. split_and!; try done; lia.
Qed.

(** A claimed ledger of the request is owed after rewinding. *)
Lemma claimed_touched l : from ≤ l ≤ to → claimed m1 net l → touched m net from to l.
Proof.
  intros Hl (k & x & (r & Hr & Hx)%rewind_lookup & Hn & Ho & Hlx).
  destruct Hx as [[-> Hno]|(Hop & ? & ? & _ & ->)].
  - destruct Hno. split_and!; try done; lia.
  - exists k, r. destruct (rewind_cond net from to r); simpl in *; split_and!; try done; lia.
Qed.

Lemma record_owed_total n l :
  owed m2 n l ↔
  owed m n l ∨ (n = net ∧ (from ≤ l ≤ to ∨ touched m net from to l)).
Proof.
  rewrite record_owed, rewind_owed. split.
  - intros [[?|[-> ?]]|(-> & ? & _)]; tauto.
  - intros [?|[-> [Hl|?]]]; [tauto| |tauto].
    destruct (decide (Exists (λ c, c.1 ≤ l ≤ c.2) (covering net from to m1))) as [Hc|Hc].
    + left. right. split; [done|]. by apply claimed_touched, covering_spec.
    + right. split_and!; try done; try lia. by rewrite <- covering_spec.
Qed.
End recording.

Lemma RecordGap_run net from to reason now d :
  from ≤ to →
  run now (RecordGap net from to reason) d =
  Ok (tt, set_gaps (λ m, let m1 := rewind_gaps net from to m in
     foldl (λ m hole, upsert (hole_id net hole) (hole_row net reason now hole) m) m1
       (uncoveredRanges from to (covering net from to m1))) d).
Proof.
  intros Hle. unfold RecordGap. destruct (Z.ltb_spec to from); [lia|].
  tx_simpl. rewrite db_gaps_set_gaps.
  rewrite (run_foreach_exec _ _ (λ h d, set_gaps (upsert (hole_id net h)
    (hole_row net reason now h)) d)) by done.
  rewrite (foldl_set_gaps (λ h, upsert (hole_id net h) (hole_row net reason now h))).
  by destruct d.
Qed.

(** ** Properties *)

(** C25.  [PlanHeal] re-partitions the open gaps without inventing or moving a
    promise: on a well-formed table and valid intervals it always succeeds, it
    keeps the table well formed, touches nothing but the network's gaps and the
    backfill clamps, never promises a ledger that was not promised, and every
    promised ledger carries the mode the plan gives it.  When no piece falls on
    the id of a gap resolved earlier, the promised ledgers are exactly those
    promised before. *)
Theorem PlanHeal_correct (net : string) (replay : list Interval) (padding now : Z) (d : db) :
  Forall valid_interval replay → is_u32 padding → gaps_wf (db_gaps d) →
  let plan := normalizePlan replay padding in
  ∃ res d', run now (PlanHeal net replay padding) d = Ok (res, d') ∧
    gaps_wf (db_gaps d') ∧ rest_of d' = rest_of d ∧
    (∀ n l mode, n ≠ net → owes (db_gaps d') n l mode ↔ owes (db_gaps d) n l mode) ∧
    (∀ l mode, owes (db_gaps d') net l mode →
       owed (db_gaps d) net l ∧ mode = plan_mode plan l) ∧
    (no_resolved_clash net plan (db_gaps d) → ∀ l mode,
       owes (db_gaps d') net l mode ↔ owed (db_gaps d) net l ∧ mode = plan_mode plan l).
Proof.
  intros Hv Hp Hwf plan.
  destruct (PlanHeal_run net replay padding now d Hv Hp Hwf)
    as (res & d' & rows & Hrun & Hrows & (Hwf' & Hout & Hin & Hfull & Hop) & Hrest & _ & _).
  assert (Hin' : ∀ l mode, owes (db_gaps d') net l mode →
                 owed (db_gaps d) net l ∧ mode = plan_mode plan l).
  { intros l mode Ho.
    destruct (decide (Exists (λ row, g_from row.2 ≤ l ≤ g_to row.2) rows)) as [Hex|Hex];
      [by apply Hin|].
    apply Hout in Ho; [|tauto]. destruct Hex. exact (rows_cover _ _ _ _ _ Hwf Hrows Ho). }
  exists res, d'. split_and!; try done.
  - intros n l mode Hn. apply Hout. by intros [? _].
  - intros Hnc l mode. split; [apply Hin'|]. intros [[md Ho] ->]. apply Hfull.
    + apply Forall_forall. intros [id r] Hir. apply Hrows in Hir as [? ?]. by eapply Hnc.
    + exact (rows_cover _ _ _ _ _ Hwf Hrows Ho).
    + by exists md.
Qed.

(** Planning is idempotent: running the same heal plan a second time, at
    any later moment, reports the same counts and leaves the whole database as
    it is. *)
Theorem PlanHeal_idempotent (net : string) (replay : list Interval) (padding now now' : Z)
    (d d' : db) (res : PlanResult) :
  Forall valid_interval replay → is_u32 padding → gaps_wf (db_gaps d) →
  run now (PlanHeal net replay padding) d = Ok (res, d') →
  run now' (PlanHeal net replay padding) d' = Ok (res, d').
Proof.
  intros Hv Hp Hwf Hrun0.
  destruct (PlanHeal_run net replay padding now d Hv Hp Hwf)
    as (res1 & d1 & rows & Hrun & Hrows & (Hwf' & _ & _ & _ & Hop) & _ & _ & Hc).
  assert (res1 = res ∧ d1 = d') as [-> ->] by (split; congruence).
  destruct (PlanHeal_run net replay padding now' d' Hv Hp Hwf')
    as (res2 & d2 & rows2 & Hrun2 & Hrows2 & _ & _ & Hsame & Hc2).
  assert (d2 = d') as ->.
  { apply Hsame, Forall_forall. intros [id r] [Hr Ho]%Hrows2.
    destruct (Hop id r Hr Ho) as [[Hno Hr0]|?]; [|done].
    destruct Hno. apply list_elem_of_fmap. exists (id, r). split; [done|]. by apply Hrows. }
  rewrite Hrun2. unfold countPlan, query in Hc, Hc2. simpl in Hc, Hc2. congruence.
Qed.

(** [ReopenGaps] makes every open gap that overlaps the request owe its
    whole range to the healer, changes no other promise, keeps the table well
    formed, and asked again finds nothing to do. *)
Theorem ReopenGaps_correct (net : string) (from to now : Z) (d : db) :
  gaps_wf (db_gaps d) →
  ∃ n d', run now (ReopenGaps net from to) d = Ok (n, d') ∧
    gaps_wf (db_gaps d') ∧ rest_of d' = rest_of d ∧
    (∀ k l mode, owes (db_gaps d') k l mode ↔
       (¬ (k = net ∧ touched (db_gaps d) net from to l) ∧ owes (db_gaps d) k l mode) ∨
       (k = net ∧ touched (db_gaps d) net from to l ∧ mode = HealModeReplay)) ∧
    run now (ReopenGaps net from to) d' = Ok (0, d').
Proof.
  intros Hwf. eexists _, _. split; [apply run_ReopenGaps|].
  autorewrite with sierpe_simp. split_and!; try done.
  - by apply reopen_wf.
  - intros k l mode. by apply reopen_owes.
  - rewrite run_ReopenGaps. autorewrite with sierpe_simp.
    assert (Hno : ∀ id r, upd (λ _, reopen_cond net from to) reopen_row (db_gaps d) !! id = Some r →
                  reopen_cond net from to r = false).
    { intros id r (x & Hx & ->)%lookup_upd_Some.
      destruct (reopen_cond net from to x) eqn:Hc; [|done]. unfold reopen_cond. simpl.
      rewrite (bool_decide_eq_false_2 (Some (g_to x) ≠ Some (g_to x))) by tauto.
      by rewrite andb_false_r. }
    f_equal. f_equal; [by apply affected_zero|].
    destruct d; simpl in *. unfold set_gaps. f_equal. by apply upd_none.
Qed.

(** C26.  [RecordGap] never loses a range and never promises one twice: on an
    inverted range it fails; otherwise it succeeds, the promised ledgers
    become those promised before, the whole request, and whatever open gaps
    overlap it (their progress is undone), and no two open gaps overlap. *)
Theorem RecordGap_correct (net : string) (from to : Z) (reason : string) (now : Z) (d : db) :
  gaps_wf (db_gaps d) → 1 ≤ from → to ≤ max_u32 →
  (to < from → run now (RecordGap net from to reason) d = Err ErrInvertedRange) ∧
  (from ≤ to → ∃ d', run now (RecordGap net from to reason) d = Ok (tt, d') ∧
     gaps_wf (db_gaps d') ∧ rest_of d' = rest_of d ∧ db_backfill d' = db_backfill d ∧
     ∀ n l, owed (db_gaps d') n l ↔
       owed (db_gaps d) n l ∨
       (n = net ∧ (from ≤ l ≤ to ∨ touched (db_gaps d) net from to l))).
Proof.
  intros Hwf Hf Ht. split.
  - intros ?. unfold RecordGap. by destruct (Z.ltb_spec to from); [|lia].
  - intros Hle. eexists. split; [by apply RecordGap_run|].
    autorewrite with sierpe_simp. split_and!; try done.
    + apply record_wf; [done|lia..].
    + intros n l. apply record_owed_total; [done|lia..].
Qed.

(** ** Witnesses and concrete runs *)

Definition demo_net : string := "testnet".

Definition demo_gap (from to : Z) (resolved : option Z) (mode : string) : string * gap_row :=
  (gap_id demo_net from to, mkGapRow demo_net from to "wall" 7 resolved (Some to) mode).

Definition demo_db : db :=
  set_gaps (λ _, list_to_map [demo_gap 64 300 None HealModeReplay]) empty_db.

(** A decision procedure for the invariant, row against row. *)
Definition gaps_wfb (m : gmap string gap_row) : bool :=
  let rows := map_to_list m in
  forallb (λ row, bool_decide (row.1 = gap_id (g_network row.2) (g_from row.2) (g_to row.2))
    && (1 <=? g_from row.2) && (g_from row.2 <=? g_to row.2) && (g_to row.2 <=? max_u32)
    && (g_from row.2 - 1 <=? heal_next row.2) && (heal_next row.2 <=? g_to row.2)
    && (bool_decide (g_heal_mode row.2 = HealModeReplay)
        || bool_decide (g_heal_mode row.2 = HealModeDeferred))
    && forallb (λ row2, bool_decide (row.1 = row2.1)
         || negb (bool_decide (g_network row.2 = g_network row2.2))
         || negb (bool_decide (g_resolved_at row.2 = None))
         || negb (bool_decide (g_resolved_at row2.2 = None))
         || (g_to row.2 <? g_from row2.2) || (g_to row2.2 <? g_from row.2)) rows) rows.

Lemma gaps_wfb_sound m : gaps_wfb m = true → gaps_wf m.
Proof.
  unfold gaps_wfb. rewrite forallb_forall. intros H.
  assert (Hrow : ∀ id r, m !! id = Some r → In (id, r) (map_to_list m)).
  { intros id r Hr. by apply list_elem_of_In, elem_of_map_to_list. }
  split.
  - intros id r Hr. specialize (H _ (Hrow _ _ Hr)). rewrite !andb_true_iff in H.
    destruct H as [[[[[[[Hk ?]?]?]?]?]?]?]. by apply bool_decide_eq_true in Hk.
  - intros id r Hr. specialize (H _ (Hrow _ _ Hr)). rewrite !andb_true_iff, !Z.leb_le in H.
    simpl in H. lia.
  - intros id r Hr. specialize (H _ (Hrow _ _ Hr)). rewrite !andb_true_iff, !Z.leb_le in H.
    simpl in H. lia.
  - intros id r Hr. specialize (H _ (Hrow _ _ Hr)). rewrite !andb_true_iff in H.
    destruct H as [[_ Hm] _]. by rewrite orb_true_iff, !bool_decide_eq_true in Hm.
  - intros id1 r1 id2 r2 net l Hr1 H2 [Hn1 Ho1] [Hn2 Ho2] Hl1 Hl2.
    specialize (H _ (Hrow _ _ Hr1)). apply andb_true_iff in H as [_ H].
    rewrite forallb_forall in H. rename H into H1. specialize (H1 _ (Hrow _ _ H2)). simpl in H1.
    rewrite !orb_true_iff, !negb_true_iff, !bool_decide_eq_false, bool_decide_eq_true,
      !Z.ltb_lt in H1.
    destruct H1 as [[[[[?|Hx]|Hx]|Hx]|?]|?]; try done; try lia. congruence.
Qed.

Lemma PlanHeal_correct_witness :
  ∃ res d', run 9 (PlanHeal demo_net [mkInterval 128 191] 0) demo_db = Ok (res, d') ∧
            gaps_wf (db_gaps d').
Proof.
  destruct (PlanHeal_correct demo_net [mkInterval 128 191] 0 9 demo_db)
    as (res & d' & Hrun & Hwf & _).
  - repeat constructor; simpl; uarith.
  - uarith.
  - apply gaps_wfb_sound. vm_compute. reflexivity.
  - exists res, d'. split; [exact Hrun|exact Hwf].
Defined.

Lemma PlanHeal_idempotent_witness :
  ∃ res d', run 9 (PlanHeal demo_net [mkInterval 128 191] 0) demo_db = Ok (res, d') ∧
            run 10 (PlanHeal demo_net [mkInterval 128 191] 0) d' = Ok (res, d').
Proof.
  eexists _, _. split; [vm_compute; reflexivity|].
  eapply (PlanHeal_idempotent _ _ _ 9 10 demo_db).
  - repeat constructor; simpl; uarith.
  - uarith.
  - apply gaps_wfb_sound. vm_compute. reflexivity.
  - vm_compute. reflexivity.
Defined.

Lemma ReopenGaps_correct_witness :
  ∃ n d', run 9 (ReopenGaps demo_net 100 110) demo_db = Ok (n, d') ∧ gaps_wf (db_gaps d').
Proof.
  destruct (ReopenGaps_correct demo_net 100 110 9 demo_db) as (n & d' & Hrun & Hwf & _).
  - apply gaps_wfb_sound. vm_compute. reflexivity.
  - exists n, d'. split; [exact Hrun|exact Hwf].
Defined.

Lemma RecordGap_correct_witness :
  ∃ d', run 9 (RecordGap demo_net 200 400 "manual") demo_db = Ok (tt, d') ∧
        gaps_wf (db_gaps d').
Proof.
  destruct (RecordGap_correct demo_net 200 400 "manual" 9 demo_db) as [_ H].
  - apply gaps_wfb_sound. vm_compute. reflexivity.
  - lia.
  - uarith.
  - destruct H as (d' & Hrun & Hwf & _); [lia|]. exists d'. split; [exact Hrun|exact Hwf].
Defined.

Example RecordGap_demo :
  (λ r, match r with
        | Ok (_, d') => map (λ row, (g_from row.2, g_to row.2)) (sort_by (λ row, g_from row.2)
                          (map_to_list (db_gaps d')))
        | Err _ => []
        end) (run 9 (RecordGap demo_net 10 400 "manual") demo_db)
  = [(10, 63); (64, 300); (301, 400)].
Proof. vm_compute. reflexivity. Qed.

(** The table that the last property is about: an open gap, and a shorter one
    with the same start that was healed earlier. *)
Definition clash_db : db :=
  set_gaps (λ _, list_to_map [demo_gap 64 300 None HealModeReplay;
                              demo_gap 64 127 (Some 5) HealModeReplay]) empty_db.

(** The insert of a piece is keyed by its range, and a range that was
    healed once is never inserted again: on a well-formed table, planning can
    delete an open gap and leave a piece of it out, so that a ledger that was
    missing is promised by nothing. *)
Theorem PlanHeal_drops_resolved_piece :
  gaps_wf (db_gaps clash_db) ∧ owed (db_gaps clash_db) demo_net 100 ∧
  ∃ res d', run 9 (PlanHeal demo_net [mkInterval 128 191] 0) clash_db = Ok (res, d') ∧
            ¬ owed (db_gaps d') demo_net 100.
Proof.
  split; [apply gaps_wfb_sound; vm_compute; reflexivity|]. split.
  { exists HealModeReplay, (gap_id demo_net 64 300), (demo_gap 64 300 None HealModeReplay).2.
    split; [vm_compute; reflexivity|]. repeat split; vm_compute; discriminate. }
  eexists _, _. split; [vm_compute; reflexivity|].
  intros (mode & id & r & Hr & Ho).
  apply elem_of_map_to_list in Hr. revert Hr. vm_compute map_to_list.
  rewrite !elem_of_cons, elem_of_nil. unfold row_owes, heal_next in Ho.
  intros [[= -> ->]|[[= -> ->]|[[= -> ->]|[]]]]; simpl in Ho; intuition (lia || discriminate).
Qed.
