(* ===== verification/Rows.v ===== *)
(** * Derived rows: the inserts shared by every commit
    ([internal/store/events.go], [state.go], [transfers.go], [trustlines.go],
    [movements.go])

    History tables are append-only behind an idempotency constraint; the two
    snapshot tables keep the last change of each key, guarded by [last_ledger]
    so that replays in any order converge. *)

From S2P Require Import Prelude Db.

(** ** Definitions *)

Definition nullable (s : string) : option string :=
  if bool_decide (s = "") then None else Some s.

(** [COALESCE(column, '')] *)
Definition coalesce (o : option string) : string := default "" o.

Section insert_once.
Context {V : Type} (conflict : V → V → bool).

(** Some row of the network already holds the constraint's columns of [v]. *)
Definition taken (net : string) (v : V) (m : gmap (string * string) V) : bool :=
  existsb (λ kv, bool_decide (kv.1.1 = net) && conflict kv.2 v) (map_to_list m).

(** [INSERT ... ON CONFLICT ON CONSTRAINT <table>_idempotency DO NOTHING]: the
    named constraint absorbs the row, the primary key rejects it. *)
Definition insert_once (net id : string) (v : V) (m : gmap (string * string) V)
    : res (gmap (string * string) V) :=
  if taken net v m then Ok m
  else match m !! (net, id) with
       | Some _ => Err ErrUnique
       | None => Ok (<[(net, id) := v]> m)
       end.
End insert_once.

(** Lifting a checked table update to the database. *)
Definition checked {T} (get : db → T) (put : T → db → db) (f : T → res T) : Tx unit :=
  exec_checked (λ _ d, match f (get d) with Ok t => Ok (put t d) | Err e => Err e end).

(** *** Events *)

Definition event_conflict (a b : event_row) : bool :=
  bool_decide (er_contract_id a = er_contract_id b)
  && bool_decide (er_tx_hash a = er_tx_hash b)
  && (er_event_index a =? er_event_index b).

Definition event_row_of (e : Event) : event_row :=
  {| er_contract_id := ev_ContractID e; er_ledger_sequence := ev_LedgerSequence e;
     er_closed_at := ev_ClosedAt e; er_tx_hash := ev_TxHash e;
     er_tx_index := ev_TxIndex e; er_op_index := ev_OpIndex e;
     er_event_index := ev_EventIndex e; er_event_name := nullable (ev_EventName e);
     er_topic0 := ev_Topics e !! 0%nat; er_topic1 := ev_Topics e !! 1%nat;
     er_topic2 := ev_Topics e !! 2%nat; er_topic3 := ev_Topics e !! 3%nat;
     er_topics := ev_Topics e; er_value_xdr := ev_ValueXDR e; er_raw_xdr := ev_RawXDR e |}.

Definition insertEvents (network : string) (events : list Event) : Tx unit :=
  foreach (λ e, checked db_events (λ t, set_events (λ _, t))
    (insert_once event_conflict network (ev_ID e) (event_row_of e))) events.

(** *** State changes and their snapshot *)

Definition state_change_conflict (a b : state_change_row) : bool :=
  bool_decide (scr_contract_id a = scr_contract_id b)
  && bool_decide (scr_tx_hash a = scr_tx_hash b)
  && (scr_change_index a =? scr_change_index b).

Definition state_change_row_of (c : StateChange) : state_change_row :=
  {| scr_contract_id := sc_ContractID c; scr_ledger_sequence := sc_LedgerSequence c;
     scr_closed_at := sc_ClosedAt c; scr_tx_hash := sc_TxHash c;
     scr_tx_index := sc_TxIndex c; scr_op_index := sc_OpIndex c;
     scr_change_index := sc_ChangeIndex c; scr_change_type := sc_ChangeType c;
     scr_key_xdr := sc_KeyXDR c; scr_durability := sc_Durability c;
     scr_pre_xdr := nullable (sc_PreXDR c); scr_post_xdr := nullable (sc_PostXDR c) |}.

Definition insertStateChanges (network : string) (changes : list StateChange) : Tx unit :=
  foreach (λ c, checked db_state_changes (λ t, set_state_changes (λ _, t))
    (insert_once state_change_conflict network (sc_ID c) (state_change_row_of c))) changes.

(** The maps [final] and [order] of the two snapshot folds: the last change of
    each key, in the order in which the keys first appear. *)
Section final_changes.
Context `{Countable K} {A : Type} (key : A → K).

Definition final_step (acc : gmap K A * list K) (c : A) : gmap K A * list K :=
  let '(final, order) := acc in
  (<[key c := c]> final,
   if decide (is_Some (final !! key c)) then order else order ++ [key c]).

Definition final_changes (changes : list A) : list A :=
  let '(final, order) := foldl final_step (∅, []) changes in
  omap (λ k, final !! k) order.
End final_changes.

Definition state_key (network : string) (c : StateChange) : string * string * string * string :=
  (network, sc_ContractID c, sc_KeyXDR c, sc_Durability c).

Definition state_entry_of (c : StateChange) : state_entry_row :=
  let deleted := bool_decide (sc_ChangeType c = "removed") in
  {| ser_value_xdr := if negb deleted && bool_decide (sc_PostXDR c ≠ "")
                      then Some (sc_PostXDR c) else None;
     ser_deleted := deleted; ser_last_ledger := sc_LedgerSequence c;
     ser_closed_at := sc_ClosedAt c |}.

(** [ON CONFLICT ... DO UPDATE ... WHERE last_ledger <= EXCLUDED.last_ledger] *)
Definition newest {V} (last_ledger : V → Z) (new : V) (old : option V) : V :=
  match old with
  | None => new
  | Some r => if last_ledger r <=? last_ledger new then new else r
  end.

Definition applyStateEntries (network : string) (changes : list StateChange) : Tx unit :=
  foreach (λ c, exec (λ _ d,
    (set_state_entries (upsert (state_key network c)
       (newest ser_last_ledger (state_entry_of c))) d, 1)) ;;; TRet tt)
    (final_changes (state_key network) changes).

(** *** The text Postgres stores

    A [text] column of a UTF-8 database refuses a value that holds a NUL byte or
    is not well-formed UTF-8: shortest form only, no surrogates, nothing above
    U+10FFFF. *)
Definition in_range (lo hi x : Z) : bool := (lo <=? x) && (x <=? hi).
Definition continuation : Z → bool := in_range 128 191.

(** The second byte a lead of three or four bytes allows. *)
Definition second (lead : Z) : Z → bool :=
  if lead =? 224 then in_range 160 191
  else if lead =? 237 then in_range 128 159
  else if lead =? 240 then in_range 144 191
  else if lead =? 244 then in_range 128 143
  else continuation.

Fixpoint utf8 (bytes : list Z) : bool :=
  match bytes with
  | [] => true
  | a :: r =>
      if in_range 1 127 a then utf8 r
      else match r with
           | [] => false
           | b :: r =>
               if in_range 194 223 a then continuation b && utf8 r
               else match r with
                    | [] => false
                    | c :: r =>
                        if in_range 224 239 a then second a b && continuation c && utf8 r
                        else match r with
                             | [] => false
                             | e :: r => in_range 240 244 a && second a b && continuation c
                                         && continuation e && utf8 r
                             end
                    end
           end
  end.

Definition pg_text (s : string) : bool := utf8 (codes s).

(** *** Transfers *)

Definition transfer_conflict (a b : transfer_row) : bool :=
  bool_decide (trr_contract_id a = trr_contract_id b)
  && bool_decide (trr_tx_hash a = trr_tx_hash b)
  && (trr_event_index a =? trr_event_index b).

Definition transfer_row_of (t : Transfer) : transfer_row :=
  {| trr_contract_id := tr_ContractID t; trr_ledger_sequence := tr_LedgerSequence t;
     trr_closed_at := tr_ClosedAt t; trr_tx_hash := tr_TxHash t;
     trr_tx_index := tr_TxIndex t; trr_op_index := tr_OpIndex t;
     trr_event_index := tr_EventIndex t; trr_transfer_type := tr_TransferType t;
     trr_from_address := nullable (tr_FromAddress t);
     trr_to_address := nullable (tr_ToAddress t);
     trr_to_muxed_id := nullable (tr_ToMuxedID t);
     trr_amount := tr_Amount t; trr_asset := nullable (tr_Asset t) |}.

(** The columns a contract writes: whatever bytes its event carries as a string
    reach the row (the others hold ids, addresses, digests and numerals). *)
Definition transfer_text (t : Transfer) : bool := pg_text (tr_ToMuxedID t) && pg_text (tr_Asset t).

(** Postgres looks at the values before it looks for conflicts. *)
Definition insert_transfer (network : string) (t : Transfer) (m : gmap (string * string) transfer_row)
    : res (gmap (string * string) transfer_row) :=
  if transfer_text t then insert_once transfer_conflict network (tr_ID t) (transfer_row_of t) m
  else Err ErrSQL.

Definition insertTransfers (network : string) (transfers : list Transfer) : Tx unit :=
  foreach (λ t, checked db_transfers (λ tb, set_transfers (λ _, tb)) (insert_transfer network t)) transfers.

(** *** Trustline changes and their snapshot *)

Definition trustline_change_conflict (a b : trustline_change_row) : bool :=
  bool_decide (tlr_contract_id a = tlr_contract_id b)
  && bool_decide (tlr_tx_hash a = tlr_tx_hash b)
  && (tlr_change_index a =? tlr_change_index b).

Definition trustline_change_row_of (c : TrustlineChange) : trustline_change_row :=
  {| tlr_contract_id := tl_ContractID c; tlr_account_id := tl_AccountID c;
     tlr_asset := tl_Asset c; tlr_ledger_sequence := tl_LedgerSequence c;
     tlr_closed_at := tl_ClosedAt c; tlr_tx_hash := tl_TxHash c;
     tlr_tx_index := tl_TxIndex c; tlr_op_index := tl_OpIndex c;
     tlr_change_index := tl_ChangeIndex c; tlr_change_type := tl_ChangeType c;
     tlr_pre_balance := tl_PreBalance c; tlr_post_balance := tl_PostBalance c;
     tlr_pre_limit := tl_PreLimit c; tlr_post_limit := tl_PostLimit c;
     tlr_flags := tl_Flags c |}.

Definition insertTrustlineChanges (network : string) (changes : list TrustlineChange) : Tx unit :=
  foreach (λ c, checked db_trustline_changes (λ t, set_trustline_changes (λ _, t))
    (insert_once trustline_change_conflict network (tl_ID c) (trustline_change_row_of c))) changes.

Definition trustline_key (network : string) (c : TrustlineChange) : string * string * string :=
  (network, tl_ContractID c, tl_AccountID c).

Definition trustline_entry_of (c : TrustlineChange) : trustline_entry_row :=
  let deleted := bool_decide (tl_ChangeType c = "removed") in
  {| ter_asset := tl_Asset c;
     ter_balance := if deleted then None else tl_PostBalance c;
     ter_trust_limit := if deleted then None else tl_PostLimit c;
     ter_flags := tl_Flags c; ter_deleted := deleted;
     ter_last_ledger := tl_LedgerSequence c; ter_closed_at := tl_ClosedAt c |}.

Definition applyTrustlineEntries (network : string) (changes : list TrustlineChange) : Tx unit :=
  foreach (λ c, exec (λ _ d,
    (set_trustline_entries (upsert (trustline_key network c)
       (newest ter_last_ledger (trustline_entry_of c))) d, 1)) ;;; TRet tt)
    (final_changes (trustline_key network) changes).

(** *** Movements *)

Definition movement_key (network : string) (m : Movement) : string * string * string * string :=
  (network, mv_ContractID m, mv_TransferID m, mv_Role m).

Definition movement_row_of (m : Movement) : movement_row :=
  {| mvr_token_contract_id := mv_TokenContractID m; mvr_transfer_type := mv_TransferType m;
     mvr_counterparty := nullable (mv_Counterparty m); mvr_amount := mv_Amount m;
     mvr_raw_xdr := nullable (mv_RawXDR m);
     mvr_ledger_sequence := mv_LedgerSequence m; mvr_closed_at := mv_ClosedAt m |}.

Definition insertMovements (network : string) (movements : list Movement) : Tx unit :=
  foreach (λ m, exec (λ _ d,
    (set_movements (upsert (movement_key network m)
       (λ old, default (movement_row_of m) old)) d, 1)) ;;; TRet tt) movements.

(** *** The records of a commit, in the order every commit writes them *)
Record Records := mkRecords {
  rc_events : list Event; rc_states : list StateChange; rc_transfers : list Transfer;
  rc_trustlines : list TrustlineChange; rc_movements : list Movement }.

Definition insertRecords (network : string) (r : Records) : Tx unit :=
  insertEvents network (rc_events r) ;;;
  insertStateChanges network (rc_states r) ;;;
  applyStateEntries network (rc_states r) ;;;
  insertTransfers network (rc_transfers r) ;;;
  insertTrustlineChanges network (rc_trustlines r) ;;;
  applyTrustlineEntries network (rc_trustlines r) ;;;
  insertMovements network (rc_movements r).

(** ** Specification *)

(** A fold whose steps may fail. *)
Fixpoint fold_res {A T} (f : A → T → res T) (l : list A) (t : T) : res T :=
  match l with
  | [] => Ok t
  | x :: l => match f x t with Ok t' => fold_res f l t' | Err e => Err e end
  end.

(** A catalogue says which row each id of a network stands for.  It is sound for
    a constraint when ids and constraint columns name the same rows. *)
Record sound_catalogue {V} (conflict : V → V → bool) (cat : string → V → Prop) : Prop := {
  cat_conflict : ∀ i v j w, cat i v → cat j w → conflict v w = true ↔ i = j;
  cat_row : ∀ i v w, cat i v → cat i w → v = w }.

(** The rows of the network come from the catalogue. *)
Definition catalogued {V} (net : string) (cat : string → V → Prop)
    (m : gmap (string * string) V) : Prop :=
  ∀ id v, m !! (net, id) = Some v → cat id v.

(** The last change of a key in a slice. *)
Definition last_of {K A} `{EqDecision K} (key : A → K) (k : K) (cs : list A) : option A :=
  last (filter (λ c, key c = k) cs).

(** ** History tables *)

Lemma run_foreach_checked {A T} (get : db → T) (put : T → db → db) (f : A → T → res T) now l d :
  (∀ t d, get (put t d) = t) → (∀ t u d, put t (put u d) = put t d) →
  (∀ d, put (get d) d = d) →
  run now (foreach (λ x, checked get put (f x)) l) d =
  match fold_res f l (get d) with Ok t => Ok (tt, put t d) | Err e => Err e end.
Proof.
  intros Hgp Hpp Hpg. revert d. induction l as [|x l IH]; intros d; simpl; [by rewrite Hpg|].
  destruct (f x (get d)) as [t|]; [|done].
  rewrite IH, Hgp. by destruct (fold_res f l t); [rewrite Hpp|].
Qed.

Section histories.
Context {V A : Type} (conflict : V → V → bool) (net : string).
Context (id : A → string) (row : A → V).
Implicit Types (m : gmap (string * string) V).

Definition insert_rows : list A → gmap (string * string) V → res (gmap (string * string) V) :=
  fold_res (λ x, insert_once conflict net (id x) (row x)).

Lemma insert_rows_cons x xs m :
  insert_rows (x :: xs) m =
  match insert_once conflict net (id x) (row x) m with
  | Ok m' => insert_rows xs m' | Err e => Err e end.
Proof. done. Qed.

Lemma taken_spec v m :
  taken conflict net v m = true ↔ ∃ i w, m !! (net, i) = Some w ∧ conflict w v = true.
Proof.
  unfold taken. rewrite existsb_exists. split.
  - intros ([[n i] w] & Hin & [Hn Hc]%andb_true_iff). simpl in *.
    apply bool_decide_eq_true in Hn as ->.
    exists i, w. split; [|done]. by apply elem_of_map_to_list, list_elem_of_In.
  - intros (i & w & Hm & Hc). exists ((net, i), w). split.
    + by apply list_elem_of_In, elem_of_map_to_list.
    + apply andb_true_iff. split; [by apply bool_decide_eq_true|done].
Qed.

(** Rows are never removed or changed by an insert... *)
Lemma insert_rows_mono xs m m' k v :
  insert_rows xs m = Ok m' → m !! k = Some v → m' !! k = Some v.
Proof.
  revert m. induction xs as [|x xs IH]; intros m; [by intros [= ->]|].
  rewrite insert_rows_cons. unfold insert_once. destruct (taken _ _ _ _); [apply IH|].
  destruct (m !! (net, id x)) eqn:Hk; [done|]. intros Hxs Hv. eapply IH; [exact Hxs|].
  rewrite lookup_insert_ne; [done|]. intros <-. congruence.
Qed.

(** ... so that everything inserted once is absorbed ever after. *)
Lemma insert_rows_taken (Hrefl : ∀ v, conflict v v = true) xs m m' x :
  insert_rows xs m = Ok m' → x ∈ xs → taken conflict net (row x) m' = true.
Proof.
  revert m. induction xs as [|y xs IH]; intros m; [|rewrite insert_rows_cons].
  { intros _ Hx. by apply elem_of_nil in Hx. }
  destruct (insert_once conflict net (id y) (row y) m) as [m1|] eqn:Hy; [|done].
  intros Hxs [->|Hx]%elem_of_cons; [|by eapply IH].
  apply taken_spec. unfold insert_once in Hy.
  destruct (taken conflict net (row y) m) eqn:Ht.
  - apply taken_spec in Ht as (i & w & Hm & ?). injection Hy as <-.
    exists i, w. split; [|done]. by eapply insert_rows_mono.
  - destruct (m !! (net, id y)); [done|]. injection Hy as <-. exists (id y), (row y).
    split; [|done]. eapply insert_rows_mono; [exact Hxs|]. apply lookup_insert_eq.
Qed.

Lemma insert_rows_again (Hrefl : ∀ v, conflict v v = true) xs m m' :
  insert_rows xs m = Ok m' → insert_rows xs m' = Ok m'.
Proof.
  intros Hxs. assert (Ht : Forall (λ x, taken conflict net (row x) m' = true) xs).
  { apply Forall_forall. intros x. by eapply insert_rows_taken. }
  clear Hxs. induction Ht as [|x xs Hx _ IH]; [done|]. rewrite insert_rows_cons.
  unfold insert_once. by rewrite Hx.
Qed.

(** Against a sound catalogue no insert is ever rejected, and the table gains
    exactly the rows of the slice. *)
Lemma insert_rows_catalogue cat xs m :
  sound_catalogue conflict cat → catalogued net cat m →
  Forall (λ x, cat (id x) (row x)) xs →
  ∃ m', insert_rows xs m = Ok m' ∧ catalogued net cat m' ∧
    ∀ n i v, m' !! (n, i) = Some v ↔
      m !! (n, i) = Some v ∨ (n = net ∧ ∃ x, x ∈ xs ∧ id x = i ∧ row x = v).
Proof.
  intros Hs. revert m. induction xs as [|x xs IH]; intros m Hm Hxs; [|rewrite insert_rows_cons].
  { exists m. split_and!; try done. intros n i v. split; [by left|].
    intros [?|(_ & x & Hx & _)]; [done|by apply elem_of_nil in Hx]. }
  apply Forall_cons in Hxs as [Hx Hxs].
  assert (∃ m1, insert_once conflict net (id x) (row x) m = Ok m1 ∧ catalogued net cat m1 ∧
    ∀ n i v, m1 !! (n, i) = Some v ↔ m !! (n, i) = Some v ∨ (n = net ∧ id x = i ∧ row x = v))
    as (m1 & -> & Hm1 & Hl1).
  { unfold insert_once. destruct (taken conflict net (row x) m) eqn:Ht.
    - exists m. split_and!; try done. intros n i v. split; [by left|].
      intros [?|(-> & <- & <-)]; [done|].
      apply taken_spec in Ht as (i & w & Hw & Hc). assert (Hw' := Hm _ _ Hw).
      apply (cat_conflict _ _ Hs _ _ _ _ Hw' Hx) in Hc as ->.
      by rewrite (cat_row _ _ Hs _ _ _ Hx Hw').
    - destruct (m !! (net, id x)) as [w|] eqn:Hk.
      { assert (taken conflict net (row x) m = true); [|congruence].
        apply taken_spec. exists (id x), w. split; [done|].
        by apply (cat_conflict _ _ Hs (id x) w (id x) (row x)); [apply Hm| |]. }
      eexists. split; [done|].
      assert (Hl : ∀ n i v, <[(net, id x) := row x]> m !! (n, i) = Some v ↔
               m !! (n, i) = Some v ∨ (n = net ∧ id x = i ∧ row x = v)).
      { intros n i v. rewrite lookup_insert_Some. split.
        - intros [[[= <- <-] <-]|[? ?]]; tauto.
        - intros [Hi|(-> & <- & <-)]; [|by left]. right. split; [|done].
          intros [= <- <-]. congruence. }
      split; [|done]. intros i v [?|(_ & <- & <-)]%Hl; [by apply Hm|done]. }
  destruct (IH m1 Hm1 Hxs) as (m' & Hrun & Hcat & Hl). exists m'. split_and!; try done.
  intros n i v. rewrite Hl, Hl1. setoid_rewrite elem_of_cons. split.
  - intros [[?|(-> & ? & ?)]|(-> & y & ? & ?)]; [by left| |]; right; split; try done; eauto.
  - intros [?|(-> & y & [->|?] & ? & ?)]; [by do 2 left|left; right; tauto|].
    right. split; [done|]. eauto.
Qed.
End histories.

Ltac conflict_refl := intros v; rewrite !bool_decide_eq_true_2, Z.eqb_refl by done; done.

Lemma event_conflict_refl v : event_conflict v v = true.
Proof. unfold event_conflict. revert v. conflict_refl. Qed.
Lemma state_change_conflict_refl v : state_change_conflict v v = true.
Proof. unfold state_change_conflict. revert v. conflict_refl. Qed.
Lemma transfer_conflict_refl v : transfer_conflict v v = true.
Proof. unfold transfer_conflict. revert v. conflict_refl. Qed.
Lemma trustline_change_conflict_refl v : trustline_change_conflict v v = true.
Proof. unfold trustline_change_conflict. revert v. conflict_refl. Qed.

(** The history inserts are folds over their table. *)
Lemma run_insertEvents net now xs d :
  run now (insertEvents net xs) d =
  match insert_rows event_conflict net ev_ID event_row_of xs (db_events d) with
  | Ok t => Ok (tt, set_events (λ _, t) d) | Err e => Err e end.
Proof.
  apply (run_foreach_checked db_events (λ t, set_events (λ _, t))
    (λ x, insert_once event_conflict net (ev_ID x) (event_row_of x))); intros; by repeat match goal with d : db |- _ => destruct d end.
Qed.

Lemma run_insertStateChanges net now xs d :
  run now (insertStateChanges net xs) d =
  match insert_rows state_change_conflict net sc_ID state_change_row_of xs (db_state_changes d) with
  | Ok t => Ok (tt, set_state_changes (λ _, t) d) | Err e => Err e end.
Proof.
  apply (run_foreach_checked db_state_changes (λ t, set_state_changes (λ _, t))
    (λ x, insert_once state_change_conflict net (sc_ID x) (state_change_row_of x))); intros; by repeat match goal with d : db |- _ => destruct d end.
Qed.

Definition insert_transfers (net : string) : list Transfer → gmap (string * string) transfer_row →
    res (gmap (string * string) transfer_row) := fold_res (insert_transfer net).

(** A batch of transfers goes in if their text does and no constraint objects. *)
Lemma insert_transfers_Ok net xs m m' :
  insert_transfers net xs m = Ok m' ↔
  Forall (λ t, transfer_text t = true) xs ∧ insert_rows transfer_conflict net tr_ID transfer_row_of xs m = Ok m'.
Proof.
  revert m. induction xs as [|x xs IH]; intros m; [split; [by split|by intros [_ ?]]|].
  rewrite Forall_cons, insert_rows_cons. unfold insert_transfers. cbn [fold_res]. unfold insert_transfer at 1.
  change (fold_res (insert_transfer net) xs) with (insert_transfers net xs).
  destruct (transfer_text x); [|split; [done|by intros [[? _] _]]].
  destruct (insert_once _ _ _ _ _) as [m1|]; [|split; [done|by intros [_ ?]]]. rewrite IH. tauto.
Qed.

Lemma run_insertTransfers net now xs d :
  run now (insertTransfers net xs) d =
  match insert_transfers net xs (db_transfers d) with
  | Ok t => Ok (tt, set_transfers (λ _, t) d) | Err e => Err e end.
Proof.
  apply (run_foreach_checked db_transfers (λ t, set_transfers (λ _, t)) (insert_transfer net));
    intros; by repeat match goal with d : db |- _ => destruct d end.
Qed.

Lemma run_insertTrustlineChanges net now xs d :
  run now (insertTrustlineChanges net xs) d =
  match insert_rows trustline_change_conflict net tl_ID trustline_change_row_of xs (db_trustline_changes d) with
  | Ok t => Ok (tt, set_trustline_changes (λ _, t) d) | Err e => Err e end.
Proof.
  apply (run_foreach_checked db_trustline_changes (λ t, set_trustline_changes (λ _, t))
    (λ x, insert_once trustline_change_conflict net (tl_ID x) (trustline_change_row_of x))); intros; by repeat match goal with d : db |- _ => destruct d end.
Qed.

Lemma insert_transfers_again net xs m m' : insert_transfers net xs m = Ok m' → insert_transfers net xs m' = Ok m'.
Proof.
  intros [Ht Hi]%insert_transfers_Ok. apply insert_transfers_Ok. split; [done|].
  eapply insert_rows_again; [apply transfer_conflict_refl|exact Hi].
Qed.

(** ** Snapshots *)

Section last_of.
Context `{Countable K} {A : Type} (key : A → K).
Implicit Types (cs : list A) (k : K).

Lemma last_of_app k cs1 cs2 :
  last_of key k (cs1 ++ cs2) =
  match last_of key k cs2 with Some c => Some c | None => last_of key k cs1 end.
Proof. unfold last_of. by rewrite filter_app, last_app. Qed.

Lemma last_of_snoc k cs c :
  last_of key k (cs ++ [c]) = if decide (key c = k) then Some c else last_of key k cs.
Proof.
  rewrite last_of_app. unfold last_of at 1. rewrite filter_cons, filter_nil.
  by case_decide.
Qed.

Lemma last_of_Some k cs c : last_of key k cs = Some c → c ∈ cs ∧ key c = k.
Proof.
  unfold last_of. intros (l & Hl)%last_Some.
  assert (c ∈ filter (λ c, key c = k) cs) as Hc%list_elem_of_filter
    by (rewrite Hl; apply elem_of_app; right; by left).
  tauto.
Qed.

Lemma last_of_None k cs : last_of key k cs = None ↔ k ∉ key <$> cs.
Proof.
  unfold last_of. rewrite last_None. split.
  - intros Hn (c & -> & Hc)%list_elem_of_fmap.
    assert (c ∈ filter (λ c', key c' = key c) cs) as Hin by (by apply list_elem_of_filter).
    rewrite Hn in Hin. by apply elem_of_nil in Hin.
  - intros Hn. destruct (filter _ cs) as [|c l] eqn:Hf; [done|].
    assert (c ∈ filter (λ c, key c = k) cs) as [<- ?]%list_elem_of_filter
      by (rewrite Hf; by left).
    destruct Hn. by apply list_elem_of_fmap_2.
Qed.

(** The two maps of the fold after a slice. *)
Lemma final_fold cs :
  let acc := foldl (final_step key) (∅, []) cs in
  (∀ k, acc.1 !! k = last_of key k cs) ∧ NoDup acc.2 ∧
  (∀ k, k ∈ acc.2 ↔ is_Some (acc.1 !! k)).
Proof.
  induction cs as [|c cs IH] using rev_ind; simpl.
  { split_and!; [done|constructor|]. intros k. rewrite elem_of_nil, lookup_empty.
    split; [done|by intros [? ?]]. }
  rewrite foldl_app. simpl. destruct (foldl _ _ cs) as [final order]. simpl in *.
  destruct IH as (Hf & Hnd & Ho). split_and!.
  - intros k. rewrite last_of_snoc, lookup_insert, Hf. done.
  - case_decide as Hs; [done|]. apply NoDup_app. split_and!; [done| |by repeat constructor; intros ?%elem_of_nil].
    intros k Hk ->%list_elem_of_singleton. by apply Hs, Ho.
  - intros k. case_decide as Hs.
    + rewrite Ho. destruct (decide (k = key c)) as [->|].
      * rewrite lookup_insert_eq. split; [done|]. intros _. done.
      * by rewrite lookup_insert_ne.
    + rewrite elem_of_app, list_elem_of_singleton, Ho.
      destruct (decide (k = key c)) as [->|].
      * rewrite lookup_insert_eq. split; [done|]. intros _. by right.
      * rewrite lookup_insert_ne by done. tauto.
Qed.

Lemma elem_of_final_changes cs c :
  c ∈ final_changes key cs ↔ last_of key (key c) cs = Some c.
Proof.
  unfold final_changes. pose proof (final_fold cs) as (Hf & _ & Ho).
  destruct (foldl _ _ cs) as [final order]. simpl in *. rewrite list_elem_of_omap. split.
  - intros (k & Hk & Hc). rewrite Hf in Hc. by assert (key c = k) as ->
      by (by apply last_of_Some in Hc as [_ ?]).
  - intros Hc. exists (key c). rewrite Ho, Hf, Hc. by split.
Qed.

Lemma final_changes_NoDup cs : NoDup (key <$> final_changes key cs).
Proof.
  unfold final_changes. pose proof (final_fold cs) as (Hf & Hnd & Ho).
  destruct (foldl _ _ cs) as [final order]. simpl in *.
  assert (Hkey : ∀ k c, final !! k = Some c → key c = k).
  { intros k c Hc. rewrite Hf in Hc. by apply last_of_Some in Hc as [_ ?]. }
  clear Hf. assert (Hin : ∀ k, k ∈ order → is_Some (final !! k)) by (intros; by apply Ho).
  clear Ho. induction Hnd as [|k order Hk Hnd IH]; simpl; [constructor|].
  destruct (Hin k) as [c Hc]; [by left|]. rewrite Hc. simpl. constructor.
  - rewrite (Hkey _ _ Hc). intros (c' & -> & Hc')%list_elem_of_fmap.
    apply list_elem_of_omap in Hc' as (k' & Hk' & Hc'). by rewrite <- (Hkey _ _ Hc') in Hk'.
  - apply IH. intros k' ?. apply Hin. by right.
Qed.

(** The snapshot after a slice: per key, the slice's last change, unless the
    stored row is newer. *)
Context {V : Type} (row : A → V) (last_ledger : V → Z).

Definition apply_changes (cs : list A) (m : gmap K V) : gmap K V :=
  foldl (λ m c, upsert (key c) (newest last_ledger (row c)) m) m (final_changes key cs).

Lemma lookup_apply_changes cs m k :
  apply_changes cs m !! k =
  match last_of key k cs with
  | Some c => Some (newest last_ledger (row c) (m !! k))
  | None => m !! k
  end.
Proof.
  unfold apply_changes. destruct (last_of key k cs) as [c|] eqn:Hc.
  - assert (key c = k) as <- by (by apply last_of_Some in Hc as [_ ?]).
    apply (foldl_upsert_in key (λ c, newest last_ledger (row c)));
      [apply final_changes_NoDup|]. by apply elem_of_final_changes.
  - apply (foldl_upsert_notin key (λ c, newest last_ledger (row c))).
    apply last_of_None in Hc. intros (c & -> & Hin)%list_elem_of_fmap.
    apply Hc. apply elem_of_final_changes, last_of_Some in Hin as [? _].
    by apply list_elem_of_fmap_2.
Qed.
End last_of.

(** *** Convergence *)

(** The changes of the ledgers [a .. b] of a chain, in chain order. *)
Definition slice {A} (hist : Z → list A) (a b : Z) : list A :=
  mjoin (hist <$> seqZ a (b - a + 1)).

Section convergence.
Context `{Countable K} {A V : Type} (key : A → K) (row : A → V) (last_ledger : V → Z).
Context (net_key : K → Prop) (hist : Z → list A).
Context (Hledger : ∀ l c, c ∈ hist l → last_ledger (row c) = l).

(** The snapshot of the ledgers [cov]: for each key the last change of the
    highest covered ledger that changed it. *)
Definition converged (cov : Z → Prop) (m : gmap K V) : Prop :=
  ∀ k, net_key k →
    match m !! k with
    | None => ∀ l, cov l → last_of key k (hist l) = None
    | Some r => ∃ l c, cov l ∧ last_of key k (hist l) = Some c ∧ r = row c ∧
                       ∀ l', cov l' → l < l' → last_of key k (hist l') = None
    end.

Lemma slice_snoc a b : a ≤ b + 1 → slice hist a (b + 1) = slice hist a b ++ hist (b + 1).
Proof.
  intros ?. unfold slice. replace (b + 1 - a + 1) with ((b - a + 1) + 1) by lia.
  rewrite seqZ_app by lia. rewrite fmap_app, join_app. simpl.
  replace (a + (b - a + 1)) with (b + 1) by lia. unfold seqZ. simpl.
  rewrite app_nil_r. repeat f_equal; lia.
Qed.

(** What a slice says about a key. *)
Lemma last_of_slice k a b :
  a ≤ b + 1 →
  match last_of key k (slice hist a b) with
  | None => ∀ l, a ≤ l ≤ b → last_of key k (hist l) = None
  | Some c => ∃ l, a ≤ l ≤ b ∧ last_of key k (hist l) = Some c ∧
                   ∀ l', l < l' ≤ b → last_of key k (hist l') = None
  end.
Proof.
  intros Hab. remember (Z.to_nat (b + 1 - a)) as n eqn:Hn. revert b Hab Hn.
  induction n as [|n IH]; intros b Hab Hn.
  { unfold slice. rewrite (seqZ_nil _ (b - a + 1)) by lia. simpl. lia. }
  replace b with ((b - 1) + 1) by lia. rewrite slice_snoc, last_of_app by lia.
  replace (b - 1 + 1) with b by lia.
  destruct (last_of key k (hist b)) as [c|] eqn:Hc.
  - exists b. split_and!; try done; intros; lia.
  - specialize (IH (b - 1) ltac:(lia) ltac:(lia)).
    destruct (last_of key k (slice hist a (b - 1))) as [c|].
    + destruct IH as (l & ? & Hl & Hafter). exists l. split; [lia|]. split; [done|].
      intros l' ?. destruct (decide (l' = b)) as [->|]; [done|]. apply Hafter. lia.
    + intros l ?. destruct (decide (l = b)) as [->|]; [done|]. apply IH. lia.
Qed.

Lemma last_of_ledger k l c : last_of key k (hist l) = Some c → last_ledger (row c) = l.
Proof. intros [Hc _]%last_of_Some. by apply Hledger. Qed.

(** Applying a slice, in any order, adds its ledgers to the snapshot. *)
Lemma converged_apply cov m a b :
  a ≤ b + 1 → converged cov m →
  converged (λ l, cov l ∨ a ≤ l ≤ b)
    (apply_changes key row last_ledger (slice hist a b) m).
Proof.
  intros Hab Hconv k Hk. specialize (Hconv k Hk). rewrite lookup_apply_changes.
  pose proof (last_of_slice k a b Hab) as Hs.
  destruct (last_of key k (slice hist a b)) as [c|].
  - destruct Hs as (l & Hl & Hc & Hafter). pose proof (last_of_ledger _ _ _ Hc) as Hlc.
    destruct (m !! k) as [r|]; simpl.
    + destruct Hconv as (l0 & c0 & Hcov0 & Hc0 & -> & Hafter0).
      rewrite (last_of_ledger _ _ _ Hc0), Hlc.
      destruct (Z.leb_spec l0 l).
      * exists l, c. split_and!; [by right|done|done|].
        intros l' [?|?] ?; [apply Hafter0; [done|lia]|apply Hafter; lia].
      * exists l0, c0. split_and!; [by left|done|done|].
        intros l' [?|?] ?; [by apply Hafter0|apply Hafter; lia].
    + exists l, c. split_and!; [by right|done|done|].
      intros l' [?|?] ?; [by apply Hconv|apply Hafter; lia].
  - destruct (m !! k) as [r|].
    + destruct Hconv as (l0 & c0 & Hcov0 & Hc0 & -> & Hafter0).
      exists l0, c0. split_and!; [by left|done|done|].
      intros l' [?|?] ?; [by apply Hafter0|by apply Hs].
    + intros l' [?|?]; [by apply Hconv|by apply Hs].
Qed.

(** The covered ledgers determine the snapshot, whatever wrote it. *)
Lemma converged_unique cov m1 m2 k :
  net_key k → converged cov m1 → converged cov m2 → m1 !! k = m2 !! k.
Proof.
  intros Hk H1 H2. specialize (H1 k Hk). specialize (H2 k Hk).
  destruct (m1 !! k) as [r1|], (m2 !! k) as [r2|]; [| | |done].
  - destruct H1 as (l1 & c1 & Hv1 & Hc1 & -> & Ha1), H2 as (l2 & c2 & Hv2 & Hc2 & -> & Ha2).
    destruct (Z.lt_trichotomy l1 l2) as [Hlt|[->|Hlt]].
    + specialize (Ha1 _ Hv2 Hlt). congruence.
    + congruence.
    + specialize (Ha2 _ Hv1 Hlt). congruence.
  - destruct H1 as (l1 & c1 & Hv1 & Hc1 & _). rewrite (H2 _ Hv1) in Hc1. done.
  - destruct H2 as (l2 & c2 & Hv2 & Hc2 & _). rewrite (H1 _ Hv2) in Hc2. done.
Qed.

Lemma converged_empty : converged (λ _, False) ∅.
Proof. intros k _. by rewrite lookup_empty. Qed.

Lemma converged_iff cov cov' m :
  (∀ l, cov l ↔ cov' l) → converged cov m → converged cov' m.
Proof.
  intros Hiff Hc k Hk. specialize (Hc k Hk). destruct (m !! k).
  - by setoid_rewrite <- Hiff.
  - by setoid_rewrite <- Hiff.
Qed.
End convergence.

Lemma foldl_set_state_entries {A} F (xs : list A) d :
  foldl (λ d x, set_state_entries (F x) d) d xs =
  set_state_entries (λ m, foldl (λ m x, F x m) m xs) d.
Proof. revert d. induction xs as [|x xs IH]; intros d; simpl; [by destruct d|]. rewrite IH. by destruct d. Qed.

Lemma foldl_set_trustline_entries {A} F (xs : list A) d :
  foldl (λ d x, set_trustline_entries (F x) d) d xs =
  set_trustline_entries (λ m, foldl (λ m x, F x m) m xs) d.
Proof. revert d. induction xs as [|x xs IH]; intros d; simpl; [by destruct d|]. rewrite IH. by destruct d. Qed.

Lemma foldl_set_movements {A} F (xs : list A) d :
  foldl (λ d x, set_movements (F x) d) d xs = set_movements (λ m, foldl (λ m x, F x m) m xs) d.
Proof. revert d. induction xs as [|x xs IH]; intros d; simpl; [by destruct d|]. rewrite IH. by destruct d. Qed.

Lemma run_applyStateEntries net now cs d :
  run now (applyStateEntries net cs) d =
  Ok (tt, set_state_entries (apply_changes (state_key net) state_entry_of ser_last_ledger cs) d).
Proof.
  unfold applyStateEntries, apply_changes.
  rewrite (run_foreach_exec _ _ (λ c, set_state_entries (upsert (state_key net c)
    (newest ser_last_ledger (state_entry_of c))))) by done.
  by rewrite (foldl_set_state_entries (λ c, upsert (state_key net c)
    (newest ser_last_ledger (state_entry_of c)))).
Qed.

Lemma run_applyTrustlineEntries net now cs d :
  run now (applyTrustlineEntries net cs) d =
  Ok (tt, set_trustline_entries
            (apply_changes (trustline_key net) trustline_entry_of ter_last_ledger cs) d).
Proof.
  unfold applyTrustlineEntries, apply_changes.
  rewrite (run_foreach_exec _ _ (λ c, set_trustline_entries (upsert (trustline_key net c)
    (newest ter_last_ledger (trustline_entry_of c))))) by done.
  by rewrite (foldl_set_trustline_entries (λ c, upsert (trustline_key net c)
    (newest ter_last_ledger (trustline_entry_of c)))).
Qed.

(** Movements are keyed by their primary key: the first row of a key stays. *)
Definition add_movements (net : string) (ms : list Movement)
    (t : gmap (string * string * string * string) movement_row) :=
  foldl (λ t m, upsert (movement_key net m) (λ old, default (movement_row_of m) old) t) t ms.

Lemma run_insertMovements net now ms d :
  run now (insertMovements net ms) d = Ok (tt, set_movements (add_movements net ms) d).
Proof.
  unfold insertMovements, add_movements.
  rewrite (run_foreach_exec _ _ (λ m, set_movements (upsert (movement_key net m)
    (λ old, default (movement_row_of m) old)))) by done.
  by rewrite (foldl_set_movements (λ m, upsert (movement_key net m)
    (λ old, default (movement_row_of m) old))).
Qed.

Lemma add_movements_mono net ms t k r :
  t !! k = Some r → add_movements net ms t !! k = Some r.
Proof.
  unfold add_movements. revert t. induction ms as [|m ms IH]; intros t Hk; simpl; [done|].
  apply IH. unfold upsert. destruct (decide (k = movement_key net m)) as [->|].
  - by rewrite lookup_insert_eq, Hk.
  - by rewrite lookup_insert_ne.
Qed.

Lemma add_movements_in net ms t m :
  m ∈ ms → is_Some (add_movements net ms t !! movement_key net m).
Proof.
  revert t. induction ms as [|m0 ms IH]; intros t; simpl.
  { intros Hm. by apply elem_of_nil in Hm. }
  intros [->|Hm]%elem_of_cons; [|by apply IH].
  eexists. apply (add_movements_mono net ms). unfold upsert. apply lookup_insert_eq.
Qed.

Lemma add_movements_again net ms t :
  add_movements net ms (add_movements net ms t) = add_movements net ms t.
Proof.
  assert (Hall : ∀ m, m ∈ ms → is_Some (add_movements net ms t !! movement_key net m))
    by (intros; by apply add_movements_in).
  generalize dependent (add_movements net ms t). clear t. intros t.
  unfold add_movements. induction ms as [|m ms IH]; intros Hall; simpl; [done|].
  destruct (Hall m) as [r Hr]; [by left|]. unfold upsert at 2. rewrite Hr. simpl.
  rewrite insert_id by done. apply IH. intros m' ?. apply Hall. by right.
Qed.
