(* ===== verification/Registrations.v ===== *)
(** * Registrations and backfill walks ([internal/store/contracts.go],
    [backfill.go])

    A registration names the kinds to derive for a contract; its backfill row
    is a walk from an anchor down to the oldest ledger asked for.  The row's
    covered kinds and watermark are what the API later vouches for. *)

From S2P Require Import Prelude HealPlan Db Gaps.

(** ** Definitions *)

(** *** Contracts *)

Definition HasKind (c : Contract) (kind : string) : bool :=
  bool_decide (kind ∈ ct_Kinds c).

Definition jsonbParam (raw : option string) : option string :=
  match raw with
  | Some s => if bool_decide (s = "") then None else Some s
  | None => None
  end.

Definition contract_of (row : (string * string) * contract_row) : Contract :=
  let '((net, cid), r) := row in
  mkContract net cid (c_source r) (c_kinds r) (c_classification r) (c_registered_at r).

(** The row that [INSERT ... ON CONFLICT (network, contract_id) DO UPDATE]
    leaves. *)
Definition registered_row (c : Contract) (now : Z) (old : option contract_row) : contract_row :=
  match old with
  | None => mkContractRow (ct_Source c) (ct_Kinds c) (jsonbParam (ct_Classification c)) now
  | Some r =>
      mkContractRow (ct_Source c) (ct_Kinds c)
        (match jsonbParam (ct_Classification c) with
         | Some j => Some j
         | None => c_classification r
         end) (c_registered_at r)
  end.

Definition backslash : Ascii.ascii := Ascii.ascii_of_nat 92.
Definition letter_u : Ascii.ascii := Ascii.ascii_of_nat 117.

(** JSON with an escaped NUL, which a [jsonb] column refuses. *)
Fixpoint nul_escape (s : string) : bool :=
  match s with
  | "" => false
  | String c rest =>
      if Ascii.eqb c backslash then
        match rest with
        | "" => false
        | String c rest => Ascii.eqb c letter_u && String.prefix "0000" rest || nul_escape rest
        end
      else nul_escape rest
  end.

Definition jsonb_text (raw : option string) : bool :=
  match jsonbParam raw with Some s => negb (nul_escape s) | None => true end.

Definition UpsertContract (c : Contract) : Tx Contract :=
  TStmt (λ now d,
    let key := (ct_Network c, ct_ContractID c) in
    let row := registered_row c now (db_contracts d !! key) in
    if jsonb_text (ct_Classification c) then Ok (contract_of (key, row), set_contracts <[key := row]> d)
    else Err ErrOther) TRet.

Definition DeleteContract (network contractID : string) : Tx bool :=
  exec (λ _ d, (set_backfill (delete (network, contractID)) d, 0)) ;;;
  n <-- exec (λ _ d, (set_contracts (delete (network, contractID)) d,
                      if decide (is_Some (db_contracts d !! (network, contractID)))
                      then 1 else 0)) ;
  TRet (0 <? n).

Definition GetContract (network contractID : string) : Tx Contract :=
  row <-- query (λ d, db_contracts d !! (network, contractID)) ;
  match row with
  | None => TThrow ErrNoContract
  | Some r => TRet (contract_of ((network, contractID), r))
  end.

(** [ORDER BY registered_at, contract_id] *)
Definition registration_ltb `{Collation} (a b : Contract) : bool :=
  lex_ltb Z.ltb text_ltb (ct_RegisteredAt a, ct_ContractID a) (ct_RegisteredAt b, ct_ContractID b).

Definition ListContracts `{Collation} (network : string) : Tx (list Contract) :=
  query (λ d, order_by registration_ltb
    (contract_of <$> sel (λ k _, bool_decide (k.1 = network)) (db_contracts d))).

(** *** Backfill *)

Definition CoversKind (b : Backfill) (kind : string) : bool :=
  existsb (λ k, bool_decide (k = kind)) (bf_CoveredKinds b).

Definition intersect (covered kinds : list string) : list string :=
  filter (λ k, k ∈ kinds) covered.

Definition coversAll (b : Backfill) (kinds : list string) : bool :=
  forallb (CoversKind b) kinds.

(** Scanning a bigint column into a [uint32] fails out of range. *)
Definition scan_u32 (x : Z) : Tx Z :=
  if decide (is_u32 x) then TRet x else TThrow ErrOther.

(** [reopenDeferrals], the closure of [EnsureBackfill]. *)
Definition reopenDeferrals (network : string) (targetFrom nextTo : Z) : Tx unit :=
  if nextTo <? targetFrom then TRet tt
  else ReopenGaps network targetFrom nextTo ;;; TRet tt.

(** [UPDATE backfill SET ... WHERE network = $1 AND contract_id = $2] *)
Definition update_backfill (network contractID : string) (f : Z → backfill_row → backfill_row)
    : Tx Z :=
  exec (λ now d,
    let P := λ (k : string * string) (_ : backfill_row),
               bool_decide (k.1 = network) && bool_decide (k.2 = contractID) in
    (set_backfill (upd P (f now)) d, affected P (db_backfill d))).

Definition EnsureBackfill (network contractID : string) (targetFrom nextTo : Z)
    (kinds : list string) : Tx unit :=
  row <-- query (λ d, db_backfill d !! (network, contractID)) ;
  match row with
  | None =>
      reopenDeferrals network targetFrom nextTo ;;;
      let done := nextTo <? targetFrom in
      exec_checked (λ now d,
        match db_backfill d !! (network, contractID) with
        | Some _ => Err ErrUnique
        | None => Ok (set_backfill <[(network, contractID) :=
                        mkBackfillRow targetFrom nextTo done None kinds now]> d)
        end)
  | Some r =>
      curTarget <-- scan_u32 (b_target_from r) ;
      curNext <-- scan_u32 (b_next_to r) ;
      let current := mkBackfill "" curTarget curNext (b_done r) None (b_covered_kinds r) in
      let extends := targetFrom <? curTarget in
      let newKinds := negb (coversAll current kinds) in
      let covered := intersect (bf_CoveredKinds current) kinds in
      let narrowed := negb (Nat.eqb (length covered) (length (bf_CoveredKinds current))) in
      if negb extends && negb newKinds && negb narrowed then TRet tt
      else
        let target := if extends then targetFrom else curTarget in
        let next := if newKinds then nextTo else curNext in
        if negb extends && negb newKinds then
          update_backfill network contractID (λ now b,
            mkBackfillRow (b_target_from b) (b_next_to b) (b_done b) (b_clamped_at b) covered now) ;;;
          TRet tt
        else
          reopenDeferrals network targetFrom nextTo ;;;
          update_backfill network contractID (λ now b,
            mkBackfillRow target next false None kinds now) ;;;
          TRet tt
  end.

Definition backfill_of (contractID : string) (r : backfill_row) : Backfill :=
  mkBackfill contractID (u32 (b_target_from r)) (u32 (b_next_to r)) (b_done r)
             (u32 <$> b_clamped_at r) (b_covered_kinds r).

Definition GetBackfill (network contractID : string) : Tx Backfill :=
  row <-- query (λ d, db_backfill d !! (network, contractID)) ;
  match row with
  | None => TThrow ErrNoBackfill
  | Some r => TRet (backfill_of contractID r)
  end.

(** The join of [ListPendingBackfills]; it selects neither the clamp nor the
    covered kinds. *)
Definition pending_jobs (network : string) (d : db) : list (Z * BackfillJob) :=
  omap (λ row : (string * string) * backfill_row,
    let '((net, cid), b) := row in
    match db_contracts d !! (net, cid) with
    | None => None
    | Some c =>
        Some (b_updated_at b,
              mkBackfillJob (mkBackfill cid (u32 (b_target_from b)) (u32 (b_next_to b))
                                        (b_done b) None [])
                            (contract_of ((net, cid), c)))
    end)
    (sel (λ k b, bool_decide (k.1 = network) && negb (b_done b)) (db_backfill d)).

Definition ListPendingBackfills (network : string) : Tx (list BackfillJob) :=
  query (λ d, (sort_by fst (pending_jobs network d)).*2).

Definition CountPendingBackfills (network : string) : Tx Z :=
  query (λ d, affected (λ k b, bool_decide (k.1 = network) && negb (b_done b)) (db_backfill d)).

(** ** Specification *)

(** What a walk vouches for: kind [kind] was derived at ledger [l] (above the
    watermark, up to the cursor). *)
Definition vouches (b : backfill_row) (kind : string) (l : Z) : Prop :=
  kind ∈ b_covered_kinds b ∧ b_next_to b < l.

Definition backfill_wf (d : db) : Prop :=
  ∀ k b, db_backfill d !! k = Some b → is_u32 (b_target_from b) ∧ is_u32 (b_next_to b).

(** A request brings something the row did not have. *)
Definition asks_new (b : backfill_row) (targetFrom : Z) (kinds : list string) : Prop :=
  targetFrom < b_target_from b ∨ ∃ k, k ∈ kinds ∧ k ∉ b_covered_kinds b.

(** ** Lemmas *)

Lemma run_UpsertContract now c d : run now (UpsertContract c) d =
  if jsonb_text (ct_Classification c) then
    Ok (contract_of ((ct_Network c, ct_ContractID c),
          registered_row c now (db_contracts d !! (ct_Network c, ct_ContractID c))),
        set_contracts <[(ct_Network c, ct_ContractID c) :=
          registered_row c now (db_contracts d !! (ct_Network c, ct_ContractID c))]> d)
  else Err ErrOther.
Proof. simpl. by destruct (jsonb_text _). Qed.

(** A saved registration is the row of its statement. *)
Lemma UpsertContract_Ok now c d saved d' : run now (UpsertContract c) d = Ok (saved, d') →
  jsonb_text (ct_Classification c) = true ∧
  saved = contract_of ((ct_Network c, ct_ContractID c),
            registered_row c now (db_contracts d !! (ct_Network c, ct_ContractID c))) ∧
  d' = set_contracts <[(ct_Network c, ct_ContractID c) :=
         registered_row c now (db_contracts d !! (ct_Network c, ct_ContractID c))]> d.
Proof. rewrite run_UpsertContract. destruct (jsonb_text _); [|done]. by intros [= <- <-]. Qed.

Lemma CoversKind_spec b k : CoversKind b k = true ↔ k ∈ bf_CoveredKinds b.
Proof.
  unfold CoversKind. rewrite existsb_exists. setoid_rewrite bool_decide_eq_true.
  setoid_rewrite <- list_elem_of_In. split; [by intros (? & ? & ->)|eauto].
Qed.

Lemma coversAll_spec b kinds :
  coversAll b kinds = true ↔ ∀ k, k ∈ kinds → k ∈ bf_CoveredKinds b.
Proof.
  unfold coversAll. rewrite forallb_forall. setoid_rewrite <- list_elem_of_In.
  by setoid_rewrite CoversKind_spec.
Qed.

Lemma elem_of_intersect covered kinds k : k ∈ intersect covered kinds ↔ k ∈ covered ∧ k ∈ kinds.
Proof. unfold intersect. rewrite list_elem_of_filter. tauto. Qed.

Lemma intersect_full covered kinds :
  length (intersect covered kinds) = length covered ↔ ∀ k, k ∈ covered → k ∈ kinds.
Proof.
  unfold intersect. split.
  - intros Hl k Hk. induction covered as [|c cs IH]; [by apply elem_of_nil in Hk|].
    rewrite filter_cons in Hl. pose proof (length_filter (λ k, k ∈ kinds) cs).
    case_decide; simpl in Hl; [|lia]. apply elem_of_cons in Hk as [->|?]; [done|]. apply IH; [lia|done].
  - intros Hk. induction covered as [|c cs IH]; [done|].
    rewrite filter_cons, decide_True by (apply Hk; by left). simpl. rewrite IH; [done|].
    intros k ?. apply Hk. by right.
Qed.

Lemma intersect_idemp covered kinds :
  length (intersect (intersect covered kinds) kinds) = length (intersect covered kinds).
Proof. apply intersect_full. intros k Hk. by apply elem_of_intersect in Hk as [_ ?]. Qed.

Section update.
Context (network contractID : string) (f : Z → backfill_row → backfill_row).

Lemma run_update_backfill now d r :
  db_backfill d !! (network, contractID) = Some r →
  run now (update_backfill network contractID f ;;; TRet tt) d =
  Ok (tt, set_backfill <[(network, contractID) := f now r]> d).
Proof.
  intros Hr. unfold update_backfill. simpl. f_equal. f_equal. destruct d. simpl in *. f_equal.
  apply map_eq. intros [n c]. rewrite lookup_upd. simpl.
  destruct (decide ((n, c) = (network, contractID))) as [[= -> ->]|Hne].
  - rewrite Hr, lookup_insert_eq. simpl. by rewrite !bool_decide_eq_true_2.
  - rewrite lookup_insert_ne by done. destruct (_ !! (n, c)); [|done]. simpl.
    case_bool_decide as Hn; [|done]. case_bool_decide as Hc; [|done]. by subst.
Qed.
End update.

Lemma db_backfill_set_contracts f d : db_backfill (set_contracts f d) = db_backfill d.
Proof. by destruct d. Qed.
Lemma db_contracts_set_contracts f d : db_contracts (set_contracts f d) = f (db_contracts d).
Proof. by destruct d. Qed.
Lemma db_contracts_set_backfill f d : db_contracts (set_backfill f d) = db_contracts d.
Proof. by destruct d. Qed.
Lemma db_contracts_set_gaps f d : db_contracts (set_gaps f d) = db_contracts d.
Proof. by destruct d. Qed.

#[export] Hint Rewrite db_backfill_set_contracts db_contracts_set_contracts
  db_contracts_set_backfill db_contracts_set_gaps : sierpe_simp.

(** The gaps that a request hands back to the healer. *)
Definition reopened (network : string) (targetFrom nextTo : Z) (d : db) : db :=
  if nextTo <? targetFrom then d
  else set_gaps (upd (λ _, reopen_cond network targetFrom nextTo) reopen_row) d.

Lemma run_reopenDeferrals network targetFrom nextTo now d :
  run now (reopenDeferrals network targetFrom nextTo) d =
  Ok (tt, reopened network targetFrom nextTo d).
Proof. unfold reopenDeferrals, reopened. by destruct (nextTo <? targetFrom). Qed.

Lemma db_backfill_reopened network a b d : db_backfill (reopened network a b d) = db_backfill d.
Proof. unfold reopened. case_match; by autorewrite with sierpe_simp. Qed.
Lemma db_contracts_reopened network a b d : db_contracts (reopened network a b d) = db_contracts d.
Proof. unfold reopened. case_match; by autorewrite with sierpe_simp. Qed.

#[export] Hint Rewrite db_backfill_reopened db_contracts_reopened : sierpe_simp.

#[local] Opaque update_backfill reopenDeferrals.

Section ensure.
Context (network contractID : string) (targetFrom nextTo : Z) (kinds : list string) (now : Z).
Abbreviation key := (network, contractID).
Abbreviation ensure := (EnsureBackfill network contractID targetFrom nextTo kinds).

(** A first registration. *)
Lemma run_EnsureBackfill_new d :
  db_backfill d !! key = None →
  run now ensure d = Ok (tt, set_backfill <[key :=
    mkBackfillRow targetFrom nextTo (nextTo <? targetFrom) None kinds now]>
    (reopened network targetFrom nextTo d)).
Proof.
  intros Hr. unfold EnsureBackfill. tx_simpl. rewrite Hr, run_bind, run_reopenDeferrals.
  simpl. by rewrite db_backfill_reopened, Hr.
Qed.

Context (d : db) (r : backfill_row) (Hr : db_backfill d !! key = Some r).
Context (Ht : is_u32 (b_target_from r)) (Hn : is_u32 (b_next_to r)).

(** The three outcomes of a re-registration: nothing to record, a smaller set
    of covered kinds, or a walk to (re)open. *)
Definition narrowed_row : backfill_row :=
  mkBackfillRow (b_target_from r) (b_next_to r) (b_done r) (b_clamped_at r)
    (intersect (b_covered_kinds r) kinds) now.

Definition reopened_row : backfill_row :=
  mkBackfillRow (Z.min targetFrom (b_target_from r))
    (if decide (Forall (λ k, k ∈ b_covered_kinds r) kinds) then b_next_to r else nextTo)
    false None kinds now.

Lemma run_EnsureBackfill_old :
  run now ensure d = Ok (tt,
    if decide (Forall (λ k, k ∈ b_covered_kinds r) kinds ∧ b_target_from r ≤ targetFrom) then
      if decide (Forall (λ k, k ∈ kinds) (b_covered_kinds r)) then d
      else set_backfill <[key := narrowed_row]> d
    else set_backfill <[key := reopened_row]> (reopened network targetFrom nextTo d)).
Proof.
  unfold EnsureBackfill. tx_simpl. rewrite Hr. unfold scan_u32.
  rewrite (decide_True _ _ Ht). simpl. rewrite (decide_True _ _ Hn). simpl.
  set (cur := mkBackfill _ _ _ _ _ _).
  assert (Hcov : coversAll cur kinds = bool_decide (Forall (λ k, k ∈ b_covered_kinds r) kinds)).
  { apply eq_true_iff_eq. rewrite coversAll_spec, bool_decide_eq_true, Forall_forall. done. }
  assert (Hnar : (length (intersect (b_covered_kinds r) kinds) =? length (b_covered_kinds r))%nat
                 = bool_decide (Forall (λ k, k ∈ kinds) (b_covered_kinds r))).
  { apply eq_true_iff_eq. rewrite Nat.eqb_eq, bool_decide_eq_true, Forall_forall.
    apply intersect_full. }
  rewrite Hcov, Hnar. unfold narrowed_row, reopened_row.
  destruct (decide (Forall (λ k, k ∈ b_covered_kinds r) kinds)) as [Hf|Hf].
  - rewrite (bool_decide_eq_true_2 _ Hf). simpl.
    destruct (Z.ltb_spec targetFrom (b_target_from r)) as [Hlt|Hge]; simpl.
    + rewrite decide_False by (intros [_ ?]; lia).
      rewrite run_bind, run_reopenDeferrals. cbv beta iota.
      rewrite (run_update_backfill _ _ _ now _ r) by (by rewrite db_backfill_reopened).
      rewrite Z.min_l by lia. done.
    + rewrite decide_True by (split; [done|lia]). case_bool_decide as Hk; simpl.
      * by rewrite decide_True.
      * rewrite decide_False by done. by rewrite (run_update_backfill _ _ _ now _ r).
  - rewrite (bool_decide_eq_false_2 _ Hf). rewrite (decide_False (P := _ ∧ _)) by tauto. simpl.
    rewrite andb_false_r. simpl. rewrite run_bind, run_reopenDeferrals. cbv beta iota.
    rewrite (run_update_backfill _ _ _ now _ r) by (by rewrite db_backfill_reopened).
    destruct (Z.ltb_spec targetFrom (b_target_from r)); simpl;
      [rewrite Z.min_l by lia|rewrite Z.min_r by lia]; done.
Qed.
End ensure.

#[local] Transparent update_backfill reopenDeferrals.

Lemma set_backfill_insert_id k b d :
  db_backfill d !! k = Some b → set_backfill <[k := b]> d = d.
Proof. destruct d. simpl. intros Hk. by rewrite insert_id. Qed.

(** After the request, asking again finds nothing to do, whatever happened to
    the other tables in the meantime. *)
Lemma EnsureBackfill_again network contractID targetFrom nextTo nextTo' kinds now now' d d' d2 :
  backfill_wf d → is_u32 targetFrom → is_u32 nextTo →
  run now (EnsureBackfill network contractID targetFrom nextTo kinds) d = Ok (tt, d') →
  db_backfill d2 = db_backfill d' →
  run now' (EnsureBackfill network contractID targetFrom nextTo' kinds) d2 = Ok (tt, d2).
Proof.
  intros Hwf Htf Hnt Hrun Hd2.
  assert (Hdone : ∀ x, db_backfill d' !! (network, contractID) = Some x →
    is_u32 (b_target_from x) → is_u32 (b_next_to x) →
    (∀ k, k ∈ kinds → k ∈ b_covered_kinds x) → (∀ k, k ∈ b_covered_kinds x → k ∈ kinds) →
    b_target_from x ≤ targetFrom →
    run now' (EnsureBackfill network contractID targetFrom nextTo' kinds) d2 = Ok (tt, d2)).
  { intros x Hx ??. rewrite <- Hd2 in Hx. rewrite <- !Forall_forall. intros H1 H2 ?.
    rewrite (run_EnsureBackfill_old _ _ _ _ _ _ _ x) by done.
    rewrite decide_True by done. by rewrite decide_True. }
  destruct (db_backfill d !! (network, contractID)) as [r|] eqn:Hr.
  - destruct (Hwf _ _ Hr) as [Ht Hn].
    rewrite (run_EnsureBackfill_old _ _ _ _ _ _ _ r) in Hrun by done.
    case_decide as Hc.
    + destruct Hc as [Hk ?]. rewrite Forall_forall in Hk.
      case_decide as Hs; injection Hrun as <-.
      * rewrite Forall_forall in Hs. by apply (Hdone r).
      * eapply Hdone; autorewrite with sierpe_simp; [by rewrite lookup_insert_eq|..];
          simpl; try done; intros k; rewrite elem_of_intersect; auto; by intros [_ ?].
    + injection Hrun as <-.
      eapply Hdone; autorewrite with sierpe_simp; [by rewrite lookup_insert_eq|..]; simpl; try done.
      * unfold is_u32 in *. lia.
      * case_decide; done.
      * lia.
  - rewrite run_EnsureBackfill_new in Hrun by done. injection Hrun as <-.
    eapply Hdone; autorewrite with sierpe_simp; [by rewrite lookup_insert_eq|..]; simpl; done.
Qed.

(** Only the contract's own walk changes. *)
Lemma EnsureBackfill_frame network contractID targetFrom nextTo kinds now d u d' :
  backfill_wf d →
  run now (EnsureBackfill network contractID targetFrom nextTo kinds) d = Ok (u, d') →
  (∀ k, k ≠ (network, contractID) → db_backfill d' !! k = db_backfill d !! k) ∧
  rest_of d' = rest_of d.
Proof.
  intros Hwf Hrun.
  assert (Hre : rest_of (reopened network targetFrom nextTo d) = rest_of d).
  { unfold reopened. case_match; by autorewrite with sierpe_simp. }
  assert (d' = d ∨ ∃ row d1, d' = set_backfill <[(network, contractID) := row]> d1 ∧
            db_backfill d1 = db_backfill d ∧ rest_of d1 = rest_of d)
    as [->|(row & d1 & -> & Hb & Hd)].
  { destruct (db_backfill d !! (network, contractID)) as [r|] eqn:Hr.
    - destruct (Hwf _ _ Hr) as [Ht Hn].
      rewrite (run_EnsureBackfill_old _ _ _ _ _ _ _ r) in Hrun by done.
      repeat case_decide; injection Hrun as _ <-; [by left|right|right];
        eexists _, _; (split; [done|]); by autorewrite with sierpe_simp.
    - rewrite run_EnsureBackfill_new in Hrun by done. injection Hrun as _ <-. right.
      eexists _, _. split; [done|]. by autorewrite with sierpe_simp. }
  - done.
  - autorewrite with sierpe_simp. rewrite Hb. split; [|done].
    intros k Hk. by rewrite lookup_insert_ne.
Qed.

(** What an [EnsureBackfill] does to the contract's row. *)
Lemma EnsureBackfill_promise (network contractID : string) (targetFrom nextTo now : Z)
    (kinds : list string) (d : db) :
  backfill_wf d → is_u32 targetFrom → is_u32 nextTo →
  ∃ d' b', run now (EnsureBackfill network contractID targetFrom nextTo kinds) d = Ok (tt, d') ∧
    backfill_wf d' ∧ db_backfill d' !! (network, contractID) = Some b' ∧
    (∀ k, k ∈ b_covered_kinds b' → k ∈ kinds) ∧
    b_target_from b' ≤ targetFrom ∧
    match db_backfill d !! (network, contractID) with
    | None => b_next_to b' = nextTo ∧ (b_done b' = true ↔ nextTo < targetFrom)
    | Some b =>
        b_target_from b' = Z.min targetFrom (b_target_from b) ∧
        (∀ k l, vouches b' k l → vouches b k l ∨ nextTo < l) ∧
        (asks_new b targetFrom kinds → b_done b' = false ∧ b_clamped_at b' = None) ∧
        (¬ asks_new b targetFrom kinds →
           b_next_to b' = b_next_to b ∧ b_done b' = b_done b ∧
           b_clamped_at b' = b_clamped_at b)
    end.
Proof.
  intros Hwf Htf Hnt.
  assert (Hwf1 : ∀ d1 x, db_backfill d1 = db_backfill d →
    is_u32 (b_target_from x) → is_u32 (b_next_to x) →
    backfill_wf (set_backfill <[(network, contractID) := x]> d1)).
  { intros d1 x H1 ?? k b. autorewrite with sierpe_simp. rewrite H1.
    intros [[<- <-]|[_ ?]]%lookup_insert_Some; [done|by eapply Hwf]. }
  destruct (db_backfill d !! (network, contractID)) as [b|] eqn:Hb.
  - destruct (Hwf _ _ Hb) as [Ht Hn].
    assert (Hasks : asks_new b targetFrom kinds ↔
      ¬ (Forall (λ k, k ∈ b_covered_kinds b) kinds ∧ b_target_from b ≤ targetFrom)).
    { unfold asks_new. split.
      - intros [?|(k & Hk & Hnk)] [Hf ?]; [lia|]. rewrite Forall_forall in Hf. by apply Hnk, Hf.
      - intros Hno. destruct (decide (targetFrom < b_target_from b)) as [|Hge]; [by left|right].
        destruct (decide (Forall (λ k, k ∈ b_covered_kinds b) kinds)) as [|Hf]; [destruct Hno; split; [done|lia]|].
        apply not_Forall_Exists in Hf; [|intros ?; apply _].
        apply Exists_exists in Hf as (k & ? & ?). eauto. }
    rewrite (run_EnsureBackfill_old _ _ _ _ _ _ _ b) by done. setoid_rewrite Hasks.
    destruct (decide _) as [[Hk Hge]|Hc].
    + destruct (decide _) as [Hs|Hs].
      * eexists _, b. split_and!; try done; try lia; try tauto. by apply Forall_forall.
      * eexists _, _. split; [done|]. split; [by apply Hwf1|].
        autorewrite with sierpe_simp. split; [by rewrite lookup_insert_eq|]. simpl.
        split_and!; try done; try lia; try tauto.
        -- intros k ?%elem_of_intersect. tauto.
        -- intros k l [[? _]%elem_of_intersect ?]. left. by split.
    + eexists _, _. split; [done|]. split; [apply Hwf1|].
      * by autorewrite with sierpe_simp.
      * simpl. unfold is_u32 in *. lia.
      * simpl. by case_decide.
      * autorewrite with sierpe_simp. split; [by rewrite lookup_insert_eq|]. simpl.
        split_and!; try done; try lia; try tauto.
        intros k l [Hk Hl]. simpl in Hk, Hl. case_decide as Hf; [left|by right].
        rewrite Forall_forall in Hf. split; [by apply Hf|done].
  - rewrite run_EnsureBackfill_new by done. eexists _, _. split; [done|].
    split; [apply Hwf1; by autorewrite with sierpe_simp|].
    autorewrite with sierpe_simp. split; [by rewrite lookup_insert_eq|]. simpl.
    split_and!; try done. apply Z.ltb_lt.
Qed.

(** ** Properties *)

(** [EnsureBackfill] never widens what the API may vouch for: on a
    registration or a re-registration, whatever the row claims afterwards was
    claimed before or lies above the anchor of the request; a kind the
    registration does not derive is never claimed; the target never moves up;
    and a kind whose history is not walked, or a deeper target, leaves the walk
    open. *)
Theorem EnsureBackfill_honest (network contractID : string) (targetFrom nextTo now : Z)
    (kinds : list string) (d : db) :
  backfill_wf d → is_u32 targetFrom → is_u32 nextTo →
  ∃ d' b', run now (EnsureBackfill network contractID targetFrom nextTo kinds) d = Ok (tt, d') ∧
    backfill_wf d' ∧ db_backfill d' !! (network, contractID) = Some b' ∧
    (∀ k, k ∈ b_covered_kinds b' → k ∈ kinds) ∧
    b_target_from b' ≤ targetFrom ∧
    match db_backfill d !! (network, contractID) with
    | None => b_next_to b' = nextTo ∧ (b_done b' = true ↔ nextTo < targetFrom)
    | Some b =>
        b_target_from b' = Z.min targetFrom (b_target_from b) ∧
        (∀ k l, vouches b' k l → vouches b k l ∨ nextTo < l) ∧
        (asks_new b targetFrom kinds → b_done b' = false ∧ b_clamped_at b' = None) ∧
        (¬ asks_new b targetFrom kinds →
           b_next_to b' = b_next_to b ∧ b_done b' = b_done b ∧
           b_clamped_at b' = b_clamped_at b)
    end.
Proof. apply EnsureBackfill_promise. Qed.

(** Reconciling the same registration twice is a genuine no-op: the second
    [EnsureBackfill], at any later moment and from any later anchor, leaves the whole database (progress,
    deferrals, clamps) as it is, even if a heal plan ran in between. *)
Theorem EnsureBackfill_idempotent (network contractID : string) (targetFrom nextTo nextTo' now now' : Z)
    (kinds : list string) (d d1 d2 : db) :
  backfill_wf d → is_u32 targetFrom → is_u32 nextTo →
  run now (EnsureBackfill network contractID targetFrom nextTo kinds) d = Ok (tt, d1) →
  (∃ gaps, d2 = set_gaps (λ _, gaps) d1) →
  run now' (EnsureBackfill network contractID targetFrom nextTo' kinds) d2 = Ok (tt, d2).
Proof.
  intros Hwf Htf Hnt Hrun (gaps & ->).
  eapply (EnsureBackfill_again _ _ _ nextTo nextTo' _ now now' d d1); try done.
  by autorewrite with sierpe_simp.
Qed.

(** The life of a registration: a classification with an escaped NUL is
    refused and nothing is stored; else registering stores the requested source and
    kinds, keeps the first registration date and, when the request carries no
    classification, the stored one; reading it back gives that row; deleting it
    removes the registration and its walk, says whether it existed, and is
    idempotent; no other contract's registration or walk is touched. *)
Theorem registration_lifecycle (c : Contract) (now : Z) (d : db) :
  let key := (ct_Network c, ct_ContractID c) in
  let stored := registered_row c now (db_contracts d !! key) in
  if negb (jsonb_text (ct_Classification c)) then run now (UpsertContract c) d = Err ErrOther else
  ∃ d1 d2, run now (UpsertContract c) d = Ok (contract_of (key, stored), d1) ∧
    run now (GetContract key.1 key.2) d1 = Ok (contract_of (key, stored), d1) ∧
    c_source stored = ct_Source c ∧ c_kinds stored = ct_Kinds c ∧
    (∀ r, db_contracts d !! key = Some r →
       c_registered_at stored = c_registered_at r ∧
       (jsonbParam (ct_Classification c) = None → c_classification stored = c_classification r)) ∧
    db_backfill d1 = db_backfill d ∧
    run now (DeleteContract key.1 key.2) d1 = Ok (true, d2) ∧
    run now (DeleteContract key.1 key.2) d2 = Ok (false, d2) ∧
    run now (GetContract key.1 key.2) d2 = Err ErrNoContract ∧
    run now (GetBackfill key.1 key.2) d2 = Err ErrNoBackfill ∧
    (∀ k, k ≠ key → db_contracts d2 !! k = db_contracts d !! k ∧
                    db_backfill d2 !! k = db_backfill d !! k).
Proof.
  intros key stored. destruct (jsonb_text (ct_Classification c)) eqn:Hj; cbn [negb].
  2: { by rewrite run_UpsertContract, Hj. }
  exists (set_contracts <[key := stored]> d),
    (set_contracts (delete key) (set_backfill (delete key) (set_contracts <[key := stored]> d))).
  split; [by rewrite run_UpsertContract, Hj|].
  unfold GetContract, GetBackfill, DeleteContract. simpl. fold key. autorewrite with sierpe_simp.
  rewrite !lookup_insert_eq, !lookup_delete_eq. simpl. split; [done|].
  split_and!; try done.
  - by destruct (db_contracts d !! key).
  - by destruct (db_contracts d !! key).
  - intros r Hr. unfold stored. rewrite Hr. simpl. split; [done|]. by intros ->.
  - destruct d. simpl. by rewrite !delete_delete_eq.
  - intros k Hk. split; by rewrite lookup_delete_ne, ?lookup_insert_ne.
Qed.

(** [ListPendingBackfills] returns every unfinished walk of the network
    whose contract is still registered, each with that registration, and
    nothing else, the least recently advanced first; none is returned twice. *)
Theorem ListPendingBackfills_correct (network : string) (now : Z) (d : db) :
  ∃ jobs, run now (ListPendingBackfills network) d = Ok (jobs, d) ∧
    (∀ j, j ∈ jobs ↔ ∃ cid b c,
       db_backfill d !! (network, cid) = Some b ∧ b_done b = false ∧
       db_contracts d !! (network, cid) = Some c ∧
       j = mkBackfillJob (mkBackfill cid (u32 (b_target_from b)) (u32 (b_next_to b)) false None [])
                         (contract_of ((network, cid), c))) ∧
    NoDup ((bf_ContractID ∘ job_Backfill) <$> jobs) ∧
    ∃ stamped, jobs = stamped.*2 ∧ StronglySorted (λ x y, x.1 ≤ y.1) stamped ∧
      ∀ t j, (t, j) ∈ stamped → ∃ b,
        db_backfill d !! (network, bf_ContractID (job_Backfill j)) = Some b ∧ t = b_updated_at b.
Proof.
  assert (Hjob : ∀ t j, (t, j) ∈ pending_jobs network d ↔ ∃ cid b c,
     db_backfill d !! (network, cid) = Some b ∧ b_done b = false ∧
     db_contracts d !! (network, cid) = Some c ∧ t = b_updated_at b ∧
     j = mkBackfillJob (mkBackfill cid (u32 (b_target_from b)) (u32 (b_next_to b)) false None [])
                       (contract_of ((network, cid), c))).
  { intros t j. unfold pending_jobs. rewrite list_elem_of_omap. split.
    - intros ([[n cid] b] & Hin & Hj). apply elem_of_sel in Hin as [Hb [Hn Hd]%andb_true_iff].
      apply bool_decide_eq_true in Hn. simpl in *. subst n. apply negb_true_iff in Hd.
      destruct (db_contracts d !! (network, cid)) as [c|] eqn:Hc; [|done].
      injection Hj as <- <-. rewrite Hd. by exists cid, b, c.
    - intros (cid & b & c & Hb & Hd & Hc & -> & ->). exists ((network, cid), b). split.
      + apply elem_of_sel. split; [done|]. simpl. by rewrite bool_decide_eq_true_2, Hd.
      + by rewrite Hc, Hd. }
  eexists. split; [done|]. split_and!.
  - intros j. rewrite list_elem_of_fmap. split.
    + intros ([t j'] & -> & Hin). apply elem_of_sort_by, Hjob in Hin as (cid & b & c & ? & ? & ? & _ & ->).
      by exists cid, b, c.
    + intros (cid & b & c & ? & ? & ? & ->). eexists (_, _). split; [done|].
      apply elem_of_sort_by, Hjob. by exists cid, b, c.
  - rewrite <- list_fmap_compose, sort_by_perm. unfold pending_jobs.
    pose proof (NoDup_sel (λ k b, bool_decide (k.1 = network) && negb (b_done b)) (db_backfill d)) as Hnd.
    assert (Hnet : ∀ k b, (k, b) ∈ sel (λ k b, bool_decide (k.1 = network) && negb (b_done b)) (db_backfill d) →
                          k.1 = network).
    { intros k b [_ [Hk _]%andb_true_iff]%elem_of_sel. by apply bool_decide_eq_true in Hk. }
    induction (sel _ _) as [|[[n cid] b] l IH]; simpl; [constructor|].
    simpl in Hnd. apply NoDup_cons in Hnd as [Hk Hnd].
    assert (Hn : n = network) by (apply (Hnet (n, cid) b); by left). subst n.
    specialize (IH Hnd ltac:(intros k x Hx; apply (Hnet k x); by right)).
    destruct (db_contracts d !! (network, cid)) as [c|]; [|done]. simpl. constructor; [|done].
    intros Hin. apply Hk.
    apply list_elem_of_fmap in Hin as ([t j] & Hcid & Hin). simpl in Hcid.
    apply list_elem_of_omap in Hin as ([[n2 cid2] b2] & Hin2 & Hj).
    destruct (db_contracts d !! (n2, cid2)); [|done]. injection Hj as <- <-. simpl in Hcid.
    assert (Hn2 : n2 = network) by (apply (Hnet (n2, cid2) b2); by right). subst n2.
    apply list_elem_of_fmap. exists ((network, cid2), b2). simpl. split; [congruence|done].
  - eexists. split; [done|]. split; [apply sort_by_sorted|].
    intros t j Hin. apply elem_of_sort_by, Hjob in Hin as (cid & b & c & ? & ? & ? & -> & ->).
    by exists b.
Qed.

(** ** Witnesses and concrete runs *)

Definition demo_contract : Contract := mkContract demo_net "CA" "api" ["events"] None 0.

Definition demo_walk_db : db :=
  set_backfill (λ _, {[ (demo_net, "CA") := mkBackfillRow 100 49 true None ["events"] 3 ]})
    (set_gaps (λ _, list_to_map [demo_gap 64 300 None HealModeDeferred]) empty_db).

Lemma demo_walk_wf : backfill_wf demo_walk_db.
Proof.
  intros k b Hb.
  change (({[ (demo_net, "CA") := mkBackfillRow 100 49 true None ["events"] 3 ]}
           : gmap (string * string) backfill_row) !! k = Some b) in Hb.
  apply lookup_singleton_Some in Hb as [_ <-]. simpl. uarith.
Qed.

Lemma EnsureBackfill_honest_witness :
  ∃ d' b', run 9 (EnsureBackfill demo_net "CA" 60 500 ["events"; "state"]) demo_walk_db = Ok (tt, d')
    ∧ db_backfill d' !! (demo_net, "CA") = Some b'.
Proof.
  destruct (EnsureBackfill_honest demo_net "CA" 60 500 9 ["events"; "state"] demo_walk_db)
    as (d' & b' & Hrun & _ & Hb & _).
  - exact demo_walk_wf.
  - uarith.
  - uarith.
  - exists d', b'. split; [exact Hrun|exact Hb].
Defined.

Lemma EnsureBackfill_idempotent_witness :
  ∃ d1, run 9 (EnsureBackfill demo_net "CA" 60 500 ["events"; "state"]) demo_walk_db = Ok (tt, d1)
    ∧ run 10 (EnsureBackfill demo_net "CA" 60 700 ["events"; "state"]) (set_gaps (λ _, ∅) d1)
      = Ok (tt, set_gaps (λ _, ∅) d1).
Proof.
  eexists. split; [vm_compute; reflexivity|].
  eapply (EnsureBackfill_idempotent demo_net "CA" 60 500 700 9 10 _ demo_walk_db).
  - exact demo_walk_wf.
  - uarith.
  - uarith.
  - vm_compute. reflexivity.
  - exists ∅. reflexivity.
Defined.

(** A walk reopened for a new kind descends to the old target, but only
    the gaps from the request's own lower bound up are handed back to the
    healer: a deferred gap between the two targets stays deferred. *)
Theorem EnsureBackfill_leaves_deferred :
  ∃ d' b', run 9 (EnsureBackfill demo_net "CA" 400 500 ["events"; "state"]) demo_walk_db = Ok (tt, d')
    ∧ db_backfill d' !! (demo_net, "CA") = Some b'
    ∧ b_target_from b' = 100 ∧ b_next_to b' = 500
    ∧ run 9 (ListOpenGaps demo_net) d' = Ok ([], d')
    ∧ run 9 (DeferredGaps demo_net) d' = Ok ((1, 237), d').
Proof.
  eexists _, _. split; [vm_compute; reflexivity|]. by repeat split.
Qed.
