(* ===== verification/Commit.v ===== *)
(** * The commits ([CommitLedger], [CommitBackfillChunk], [CommitHealChunk])

    Each commit writes the records of a stretch of the chain together with the
    watermark that says so: the live cursor, a backfill row, a gap.  The
    properties: a commit happens entirely or not at all, repeating one is a
    no-op, and what the tables hold depends only on which ledgers were
    committed, not on the order, the overlaps or the failures. *)

From S2P Require Import Prelude HealPlan Db Gaps Rows Registrations.

(** ** Definitions *)

Definition hashRingSize : Z := 1000.

Definition LoadCursor (network : string) : Tx Cursor :=
  row <-- query (λ d, db_cursor d !! network) ;
  match row with
  | None => TThrow ErrNoCursor
  | Some c => TRet (mkCursor (u32 (cur_Sequence c)) (cur_Hash c))
  end.

(** [ON CONFLICT (network) DO UPDATE ... WHERE cursor.last_sequence <
    EXCLUDED.last_sequence] *)
Definition cursor_row (rec : LedgerRecord) (old : option Cursor) : Cursor :=
  match old with
  | None => mkCursor (lr_Sequence rec) (lr_Hash rec)
  | Some c => if cur_Sequence c <? lr_Sequence rec
              then mkCursor (lr_Sequence rec) (lr_Hash rec) else c
  end.

Definition hash_row_of (rec : LedgerRecord) : hash_row :=
  mkHashRow (lr_Hash rec) (lr_PreviousHash rec) (lr_ClosedAt rec).

Definition CommitLedger (network : string) (rec : LedgerRecord) (records : Records) : Tx unit :=
  insertRecords network records ;;;
  exec (λ _ d, (set_cursor (upsert network (cursor_row rec)) d, 1)) ;;;
  exec (λ _ d, (set_ledger_hashes (upsert (lr_Sequence rec)
                  (λ old, default (hash_row_of rec) old)) d, 1)) ;;;
  exec (λ _ d, (set_ledger_hashes (del (λ seq _, seq <? lr_Sequence rec - hashRingSize)) d, 0)) ;;;
  TRet tt.

Definition CommitBackfillChunk (network : string) (b : Backfill) (records : Records) : Tx unit :=
  insertRecords network records ;;;
  n <-- update_backfill network (bf_ContractID b) (λ now r,
          mkBackfillRow (b_target_from r) (bf_NextTo b) (bf_Done b) (bf_ClampedAt b)
                        (b_covered_kinds r) now) ;
  if n =? 0 then TThrow ErrVanished else TRet tt.

(** The four updates of [backfill] in [CommitHealChunk]; [clamp] is
    [int64(gap.To)+1]. *)
Definition lower_frontier (network : string) (clamp newNextTo now : Z)
    : gmap (string * string) backfill_row → gmap (string * string) backfill_row :=
  upd (λ k b, bool_decide (k.1 = network) && bool_decide (b_clamped_at b = Some clamp)
              && (newNextTo <? b_next_to b) && (b_target_from b <=? newNextTo))
      (λ b, mkBackfillRow (b_target_from b) newNextTo (b_done b) (b_clamped_at b)
                          (b_covered_kinds b) now).

Definition cleared (now : Z) (b : backfill_row) : backfill_row :=
  mkBackfillRow (b_target_from b) (Z.max (b_target_from b) 1 - 1) (b_done b) None
                (b_covered_kinds b) now.

Definition clear_clamps (network : string) (clamp newNextTo now : Z)
    : gmap (string * string) backfill_row → gmap (string * string) backfill_row :=
  upd (λ k b, bool_decide (k.1 = network) && bool_decide (b_clamped_at b = Some clamp)
              && (newNextTo <? b_target_from b)) (cleared now).

(** [SELECT max(to_sequence) FROM gaps WHERE network = $1 AND resolved_at IS NULL
    AND to_sequence < $3] *)
Definition top_below (network : string) (from : Z) (gaps : gmap string gap_row) : option Z :=
  foldr (λ row acc, Some (match acc with Some x => Z.max (g_to row.2) x | None => g_to row.2 end))
    None (sel (λ _ r, is_open network r && (g_to r <? from)) gaps).

Definition hand_clamps (network : string) (clamp from now : Z) (gaps : gmap string gap_row)
    : gmap (string * string) backfill_row → gmap (string * string) backfill_row :=
  upd (λ k b, bool_decide (k.1 = network) && bool_decide (b_clamped_at b = Some clamp)
              && (b_target_from b <? from)
              && match top_below network from gaps with
                 | Some top => b_target_from b <=? top
                 | None => false
                 end)
      (λ b, mkBackfillRow (b_target_from b) (b_next_to b) (b_done b)
              ((λ top, top + 1) <$> top_below network from gaps) (b_covered_kinds b) now).

Definition close_clamps (network : string) (clamp from now : Z) (gaps : gmap string gap_row)
    : gmap (string * string) backfill_row → gmap (string * string) backfill_row :=
  upd (λ k b, bool_decide (k.1 = network) && bool_decide (b_clamped_at b = Some clamp)
              && (affected (λ _ r, is_open network r && (g_to r <? from)
                                   && (b_target_from b <=? g_to r)) gaps =? 0))
      (cleared now).

(** [UPDATE gaps SET heal_next_to = $3, resolved_at = COALESCE($4, resolved_at)
    WHERE network = $1 AND id = $2 AND resolved_at IS NULL] *)
Definition advance_cond (network id : string) (k : string) (r : gap_row) : bool :=
  is_open network r && bool_decide (k = id).

Definition advance_row (newNextTo : Z) (resolvedAt : option Z) (r : gap_row) : gap_row :=
  mkGapRow (g_network r) (g_from r) (g_to r) (g_reason r) (g_recorded_at r)
    (match resolvedAt with Some t => Some t | None => g_resolved_at r end)
    (Some newNextTo) (g_heal_mode r).

(** [goNow] is the client's [time.Now()]. *)
Definition CommitHealChunk (network : string) (gap : Gap) (newNextTo : Z) (resolved : bool)
    (goNow : Z) (records : Records) : Tx unit :=
  let clamp := gap_To gap + 1 in
  insertRecords network records ;;;
  n <-- exec (λ _ d,
    (set_gaps (upd (advance_cond network (gap_ID gap))
                (advance_row newNextTo (if resolved then Some goNow else None))) d,
     affected (advance_cond network (gap_ID gap)) (db_gaps d))) ;
  if n =? 0 then TThrow ErrVanished
  else
    exec (λ now d, (set_backfill (lower_frontier network clamp newNextTo now) d, 0)) ;;;
    exec (λ now d, (set_backfill (clear_clamps network clamp newNextTo now) d, 0)) ;;;
    if resolved then
      exec (λ now d, (set_backfill (hand_clamps network clamp (gap_From gap) now (db_gaps d)) d, 0)) ;;;
      exec (λ now d, (set_backfill (close_clamps network clamp (gap_From gap) now (db_gaps d)) d, 0)) ;;;
      TRet tt
    else TRet tt.

(** ** The records of a commit *)

(** The tables that records touch, after records that no constraint rejects. *)
Record tables := mkTables {
  tb_events : gmap (string * string) event_row;
  tb_state_changes : gmap (string * string) state_change_row;
  tb_state_entries : gmap (string * string * string * string) state_entry_row;
  tb_transfers : gmap (string * string) transfer_row;
  tb_trustline_changes : gmap (string * string) trustline_change_row;
  tb_trustline_entries : gmap (string * string * string) trustline_entry_row;
  tb_movements : gmap (string * string * string * string) movement_row }.

Definition get_tables (d : db) : tables :=
  mkTables (db_events d) (db_state_changes d) (db_state_entries d) (db_transfers d)
           (db_trustline_changes d) (db_trustline_entries d) (db_movements d).

Definition put_tables (t : tables) (d : db) : db :=
  mkDb (db_cursor d) (db_ledger_hashes d) (db_gaps d) (db_contracts d) (db_backfill d)
    (tb_events t) (tb_state_changes t) (tb_state_entries t) (tb_transfers t)
    (tb_trustline_changes t) (tb_trustline_entries t) (tb_movements t).

(** The tables after the records, or what rejected one. *)
Definition add_records (net : string) (r : Records) (t : tables) : res tables :=
  match insert_rows event_conflict net ev_ID event_row_of (rc_events r) (tb_events t) with
  | Err e => Err e
  | Ok ev =>
  match insert_rows state_change_conflict net sc_ID state_change_row_of (rc_states r)
          (tb_state_changes t) with
  | Err e => Err e
  | Ok sc =>
  match insert_transfers net (rc_transfers r) (tb_transfers t) with
  | Err e => Err e
  | Ok tr =>
  match insert_rows trustline_change_conflict net tl_ID trustline_change_row_of
          (rc_trustlines r) (tb_trustline_changes t) with
  | Err e => Err e
  | Ok tl =>
      Ok (mkTables ev sc
            (apply_changes (state_key net) state_entry_of ser_last_ledger (rc_states r)
               (tb_state_entries t))
            tr tl
            (apply_changes (trustline_key net) trustline_entry_of ter_last_ledger
               (rc_trustlines r) (tb_trustline_entries t))
            (add_movements net (rc_movements r) (tb_movements t)))
  end end end end.

Lemma run_insertRecords net r now d :
  run now (insertRecords net r) d =
  match add_records net r (get_tables d) with
  | Ok t => Ok (tt, put_tables t d)
  | Err e => Err e
  end.
Proof.
  unfold insertRecords, add_records. rewrite run_bind, run_insertEvents. simpl.
  destruct (insert_rows event_conflict _ _ _ _ _) as [ev|]; [|done].
  rewrite run_bind, run_insertStateChanges. replace (db_state_changes _) with (db_state_changes d) by (by destruct d).
  destruct (insert_rows state_change_conflict _ _ _ _ _) as [sc|]; [|done].
  rewrite run_bind, run_applyStateEntries, run_bind, run_insertTransfers.
  replace (db_transfers _) with (db_transfers d) by (by destruct d).
  destruct (insert_transfers _ _ _) as [tr|]; [|done].
  rewrite run_bind, run_insertTrustlineChanges.
  replace (db_trustline_changes _) with (db_trustline_changes d) by (by destruct d).
  destruct (insert_rows trustline_change_conflict _ _ _ _ _) as [tl|]; [|done].
  rewrite run_bind, run_applyTrustlineEntries, run_insertMovements. by destruct d.
Qed.

Lemma get_put_tables t d : get_tables (put_tables t d) = t.
Proof. by destruct t. Qed.
Lemma put_put_tables t u d : put_tables t (put_tables u d) = put_tables t d.
Proof. done. Qed.
Lemma put_get_tables d : put_tables (get_tables d) d = d.
Proof. by destruct d. Qed.

(** Replaying a slice that is already in a snapshot changes nothing. *)
Lemma apply_changes_again `{Countable K} {A V} (key : A → K) (row : A → V) (last_ledger : V → Z) cs m :
  apply_changes key row last_ledger cs (apply_changes key row last_ledger cs m) =
  apply_changes key row last_ledger cs m.
Proof.
  apply map_eq. intros k. rewrite !lookup_apply_changes.
  destruct (last_of key k cs) as [c|]; [|done]. f_equal.
  destruct (m !! k) as [r|]; simpl; [|by rewrite Z.leb_refl].
  destruct (Z.leb_spec (last_ledger r) (last_ledger (row c))); [by rewrite Z.leb_refl|].
  destruct (Z.leb_spec (last_ledger r) (last_ledger (row c))); [lia|done].
Qed.

Lemma add_records_again net r t t' :
  add_records net r t = Ok t' → add_records net r t' = Ok t'.
Proof.
  unfold add_records.
  destruct (insert_rows event_conflict _ _ _ _ _) as [ev|] eqn:Hev; [|done].
  destruct (insert_rows state_change_conflict _ _ _ _ _) as [sc|] eqn:Hsc; [|done].
  destruct (insert_transfers _ _ _) as [tr|] eqn:Htr; [|done].
  destruct (insert_rows trustline_change_conflict _ _ _ _ _) as [tl|] eqn:Htl; [|done].
  intros [= <-]. simpl.
  apply insert_rows_again in Hev as ->; [|apply event_conflict_refl].
  apply insert_rows_again in Hsc as ->; [|apply state_change_conflict_refl].
  rewrite (insert_transfers_again _ _ _ _ Htr).
  apply insert_rows_again in Htl as ->; [|apply trustline_change_conflict_refl].
  by rewrite !apply_changes_again, add_movements_again.
Qed.

(** ** The live commit *)

(** What [CommitLedger] leaves outside the record tables. *)
Definition ledger_done (net : string) (rec : LedgerRecord) (d : db) : db :=
  set_ledger_hashes (λ m, del (λ seq _, seq <? lr_Sequence rec - hashRingSize)
      (upsert (lr_Sequence rec) (λ old, default (hash_row_of rec) old) m))
    (set_cursor (upsert net (cursor_row rec)) d).

Lemma run_CommitLedger net rec r now d :
  run now (CommitLedger net rec r) d =
  match add_records net r (get_tables d) with
  | Ok t => Ok (tt, ledger_done net rec (put_tables t d))
  | Err e => Err e
  end.
Proof.
  unfold CommitLedger. rewrite run_bind, run_insertRecords.
  destruct (add_records net r (get_tables d)); [|done]. by destruct d.
Qed.

Lemma get_tables_ledger_done net rec d : get_tables (ledger_done net rec d) = get_tables d.
Proof. by destruct d. Qed.

Lemma ledger_done_put net rec t d :
  ledger_done net rec (put_tables t d) = put_tables t (ledger_done net rec d).
Proof. by destruct d. Qed.

Lemma cursor_row_again rec old : cursor_row rec (Some (cursor_row rec old)) = cursor_row rec old.
Proof.
  destruct old as [c|]; simpl; [|by rewrite Z.ltb_irrefl].
  destruct (Z.ltb_spec (cur_Sequence c) (lr_Sequence rec)) as [|Hge]; simpl.
  - by rewrite Z.ltb_irrefl.
  - by destruct (Z.ltb_spec (cur_Sequence c) (lr_Sequence rec)); [lia|].
Qed.

Lemma ledger_done_again net rec d :
  ledger_done net rec (ledger_done net rec d) = ledger_done net rec d.
Proof.
  destruct d as [cu lh ? ? ? ? ? ? ? ? ? ?].
  unfold ledger_done, set_cursor, set_ledger_hashes, upsert. f_equal.
  - rewrite lookup_insert_eq, cursor_row_again. apply insert_insert_eq.
  - set (m := <[_ := _]> lh).
    set (P := λ (seq : Z) (_ : hash_row), seq <? lr_Sequence rec - hashRingSize).
    assert (Hk : ∃ h, del P m !! lr_Sequence rec = Some h).
    { exists (default (hash_row_of rec) (lh !! lr_Sequence rec)).
      apply lookup_del_Some. split; [unfold m; apply lookup_insert_eq|].
      unfold P, hashRingSize. apply Z.ltb_ge. lia. }
    destruct Hk as [h0 Hk]. rewrite Hk. simpl. rewrite insert_id by done.
    apply map_eq. intros s. apply option_eq. intros h.
    rewrite !lookup_del_Some. tauto.
Qed.

(** The position of a cursor never moves back. *)
Lemma cursor_row_monotone rec c : cur_Sequence c ≤ cur_Sequence (cursor_row rec (Some c)).
Proof. simpl. destruct (Z.ltb_spec (cur_Sequence c) (lr_Sequence rec)); simpl; lia. Qed.

(** ** Chunks *)

(** What a chunk commit does outside the record tables, or its refusal. *)
Lemma run_CommitBackfillChunk net b r now d :
  run now (CommitBackfillChunk net b r) d =
  match add_records net r (get_tables d) with
  | Err e => Err e
  | Ok t =>
      match db_backfill d !! (net, bf_ContractID b) with
      | None => Err ErrVanished
      | Some w => Ok (tt, put_tables t (set_backfill
          <[(net, bf_ContractID b) := mkBackfillRow (b_target_from w) (bf_NextTo b) (bf_Done b)
              (bf_ClampedAt b) (b_covered_kinds w) now]> d))
      end
  end.
Proof.
  unfold CommitBackfillChunk. rewrite run_bind, run_insertRecords.
  destruct (add_records net r (get_tables d)) as [t|]; [|done].
  set (P := λ (k : string * string) (_ : backfill_row),
              bool_decide (k.1 = net) && bool_decide (k.2 = bf_ContractID b)).
  destruct (db_backfill d !! (net, bf_ContractID b)) as [w|] eqn:Hw.
  - rewrite run_bind. unfold update_backfill at 1. simpl. fold P.
    replace (db_backfill (put_tables t d)) with (db_backfill d) by done.
    destruct (affected P (db_backfill d) =? 0) eqn:Ha.
    + apply Z.eqb_eq in Ha. apply (proj1 (affected_zero P _)) with (k := (net, bf_ContractID b)) (v := w) in Ha; [|done].
      unfold P in Ha. simpl in Ha. by rewrite !bool_decide_eq_true_2 in Ha.
    + pose proof (run_update_backfill net (bf_ContractID b) (λ now r,
          mkBackfillRow (b_target_from r) (bf_NextTo b) (bf_Done b) (bf_ClampedAt b)
                        (b_covered_kinds r) now) now (put_tables t d) w Hw) as Hu.
      unfold update_backfill in Hu. simpl in Hu. fold P in Hu. simpl. rewrite Hu.
      by destruct d.
  - rewrite run_bind. unfold update_backfill. simpl. fold P.
    replace (db_backfill (put_tables t d)) with (db_backfill d) by done.
    assert (affected P (db_backfill d) = 0) as ->; [|done].
    apply affected_zero. intros [n c] v Hk. unfold P. simpl.
    case_bool_decide as Hn; [|done]. case_bool_decide as Hc; [|done]. by subst; rewrite Hw in Hk.
Qed.

(** The backfill rows after the updates of a heal commit. *)
Definition heal_backfill (net : string) (gap : Gap) (newNextTo : Z) (resolved : bool) (now : Z)
    (gaps : gmap string gap_row) (m : gmap (string * string) backfill_row)
    : gmap (string * string) backfill_row :=
  let clamp := gap_To gap + 1 in
  let m := clear_clamps net clamp newNextTo now (lower_frontier net clamp newNextTo now m) in
  if resolved
  then close_clamps net clamp (gap_From gap) now gaps
         (hand_clamps net clamp (gap_From gap) now gaps m)
  else m.

Definition heal_gaps (net : string) (gap : Gap) (newNextTo : Z) (resolved : bool) (goNow : Z)
    : gmap string gap_row → gmap string gap_row :=
  upd (advance_cond net (gap_ID gap))
      (advance_row newNextTo (if resolved then Some goNow else None)).

Lemma run_CommitHealChunk net gap newNextTo resolved goNow r now d :
  run now (CommitHealChunk net gap newNextTo resolved goNow r) d =
  match add_records net r (get_tables d) with
  | Err e => Err e
  | Ok t =>
      if affected (advance_cond net (gap_ID gap)) (db_gaps d) =? 0 then Err ErrVanished
      else
        let gaps := heal_gaps net gap newNextTo resolved goNow (db_gaps d) in
        Ok (tt, put_tables t (set_gaps (λ _, gaps)
          (set_backfill (heal_backfill net gap newNextTo resolved now gaps) d)))
  end.
Proof.
  unfold CommitHealChunk. rewrite run_bind, run_insertRecords.
  destruct (add_records net r (get_tables d)) as [t|]; [|done].
  rewrite run_bind. simpl.
  replace (db_gaps (put_tables t d)) with (db_gaps d) by done.
  destruct (affected (advance_cond net (gap_ID gap)) (db_gaps d) =? 0); [done|].
  unfold heal_gaps, heal_backfill. destruct resolved; by destruct d.
Qed.

(** ** Convergence of the record tables *)

(** The records of the ledgers [a .. b] of a chain. *)
Definition range_records (chain : Z → Records) (a b : Z) : Records :=
  mkRecords (slice (rc_events ∘ chain) a b) (slice (rc_states ∘ chain) a b)
    (slice (rc_transfers ∘ chain) a b) (slice (rc_trustlines ∘ chain) a b)
    (slice (rc_movements ∘ chain) a b).

(** A commit of one of the three writers, or anything that leaves the record
    tables alone (registrations, gap bookkeeping, plans, other networks'
    cursors, ...). *)
Inductive Commit :=
  | LiveCommit (rec : LedgerRecord)
  | BackfillCommit (b : Backfill) (from to : Z)
  | HealCommit (gap : Gap) (newNextTo : Z) (resolved : bool) (goNow from to : Z)
  | Elsewhere (d : db).

Definition commit_range (c : Commit) : Z * Z :=
  match c with
  | LiveCommit rec => (lr_Sequence rec, lr_Sequence rec)
  | BackfillCommit _ from to | HealCommit _ _ _ _ from to => (from, to)
  | Elsewhere _ => (1, 0)
  end.

Definition commit_tx (net : string) (chain : Z → Records) (c : Commit) : Tx unit :=
  let records := range_records chain (commit_range c).1 (commit_range c).2 in
  match c with
  | LiveCommit rec => CommitLedger net rec records
  | BackfillCommit b _ _ => CommitBackfillChunk net b records
  | HealCommit gap newNextTo resolved goNow _ _ =>
      CommitHealChunk net gap newNextTo resolved goNow records
  | Elsewhere d1 => exec (λ _ d, (put_tables (get_tables d) d1, 0)) ;;; TRet tt
  end.

(** A run of attempts, each with the faults it meets and the clock it sees; the
    ranges are those of the attempts that succeeded. *)
Fixpoint run_attempts (net : string) (chain : Z → Records) (l : list (faults * Z * Commit))
    (ranges : list (Z * Z)) (d : db) : list (Z * Z) * db :=
  match l with
  | [] => (ranges, d)
  | (fl, now, c) :: l =>
      match BeginFunc fl now (commit_tx net chain c) d with
      | (Ok _, d') => run_attempts net chain l (commit_range c :: ranges) d'
      | (Err _, d') => run_attempts net chain l ranges d'
      end
  end.

(** Identity of records along the chain: ids are never reused, and ids and
    constraint columns name the same records. *)
Definition of_chain {A V} (hist : Z → list A) (id : A → string) (row : A → V)
    : string → V → Prop := λ i v, ∃ l x, x ∈ hist l ∧ id x = i ∧ row x = v.

Record chain_ok (net : string) (chain : Z → Records) : Prop := {
  co_events : sound_catalogue event_conflict (of_chain (rc_events ∘ chain) ev_ID event_row_of);
  co_states : sound_catalogue state_change_conflict
                (of_chain (rc_states ∘ chain) sc_ID state_change_row_of);
  co_transfers : sound_catalogue transfer_conflict
                   (of_chain (rc_transfers ∘ chain) tr_ID transfer_row_of);
  co_trustlines : sound_catalogue trustline_change_conflict
                    (of_chain (rc_trustlines ∘ chain) tl_ID trustline_change_row_of);
  co_state_ledger : ∀ l c, c ∈ rc_states (chain l) → sc_LedgerSequence c = l;
  co_trustline_ledger : ∀ l c, c ∈ rc_trustlines (chain l) → tl_LedgerSequence c = l;
  co_movements : ∀ l1 m1 l2 m2, m1 ∈ rc_movements (chain l1) → m2 ∈ rc_movements (chain l2) →
    movement_key net m1 = movement_key net m2 → movement_row_of m1 = movement_row_of m2 }.

(** A history table holds exactly the network's records of the ledgers [cov]. *)
Definition recorded {A V} (net : string) (hist : Z → list A) (id : A → string) (row : A → V)
    (cov : Z → Prop) (t : gmap (string * string) V) : Prop :=
  ∀ i v, t !! (net, i) = Some v ↔ ∃ l x, cov l ∧ x ∈ hist l ∧ id x = i ∧ row x = v.

Definition moved (net : string) (hist : Z → list Movement) (cov : Z → Prop)
    (t : gmap (string * string * string * string) movement_row) : Prop :=
  ∀ c i r v, t !! (net, c, i, r) = Some v ↔
    ∃ l m, cov l ∧ m ∈ hist l ∧ movement_key net m = (net, c, i, r) ∧ movement_row_of m = v.

(** The record tables hold the ledgers [cov] of the chain, nothing more and
    nothing less; the snapshots hold the last change of each key. *)
Record synced (net : string) (chain : Z → Records) (cov : Z → Prop) (t : tables) : Prop := {
  sy_events : recorded net (rc_events ∘ chain) ev_ID event_row_of cov (tb_events t);
  sy_state_changes : recorded net (rc_states ∘ chain) sc_ID state_change_row_of cov (tb_state_changes t);
  sy_transfers : recorded net (rc_transfers ∘ chain) tr_ID transfer_row_of cov (tb_transfers t);
  sy_trustline_changes :
    recorded net (rc_trustlines ∘ chain) tl_ID trustline_change_row_of cov (tb_trustline_changes t);
  sy_state_entries : converged (state_key net) state_entry_of (λ k, k.1.1.1 = net)
                       (rc_states ∘ chain) cov (tb_state_entries t);
  sy_trustline_entries : converged (trustline_key net) trustline_entry_of (λ k, k.1.1 = net)
                           (rc_trustlines ∘ chain) cov (tb_trustline_entries t);
  sy_movements : moved net (rc_movements ∘ chain) cov (tb_movements t) }.

Lemma elem_of_slice {A} (hist : Z → list A) a b x :
  x ∈ slice hist a b ↔ ∃ l, a ≤ l ≤ b ∧ x ∈ hist l.
Proof.
  unfold slice. rewrite list_elem_of_join. setoid_rewrite list_elem_of_fmap.
  setoid_rewrite elem_of_seqZ. split.
  - intros (xs & Hx & l & -> & ?). exists l. split; [lia|done].
  - intros (l & ? & ?). exists (hist l). split; [done|]. exists l. split; [done|lia].
Qed.

Section one_history.
Context {A V : Type} (conflict : V → V → bool) (net : string).
Context (hist : Z → list A) (id : A → string) (row : A → V).
Context (Hsound : sound_catalogue conflict (of_chain hist id row)).

Lemma recorded_insert cov t a b :
  recorded net hist id row cov t →
  ∃ t', insert_rows conflict net id row (slice hist a b) t = Ok t' ∧
        recorded net hist id row (λ l, cov l ∨ a ≤ l ≤ b) t'.
Proof.
  intros Hr.
  destruct (insert_rows_catalogue conflict net id row (of_chain hist id row) (slice hist a b) t)
    as (t' & Hrun & _ & Hl); [done| | |].
  - intros i v (l & x & _ & ? & ? & ?)%Hr. by exists l, x.
  - apply Forall_forall. intros x (l & _ & Hx)%elem_of_slice. by exists l, x.
  - exists t'. split; [done|]. intros i v. rewrite Hl, (Hr i v). split.
    + intros [(l & x & ? & ?)|(_ & x & (l & ? & ?)%elem_of_slice & ?)]; exists l, x; tauto.
    + intros (l & x & [?|?] & ? & ? & ?); [left; by exists l, x|right].
      split; [done|]. exists x. split; [|done]. apply elem_of_slice. by exists l.
Qed.
End one_history.

Lemma moved_insert net hist cov t a b :
  (∀ l1 m1 l2 m2, m1 ∈ hist l1 → m2 ∈ hist l2 →
     movement_key net m1 = movement_key net m2 → movement_row_of m1 = movement_row_of m2) →
  moved net hist cov t →
  moved net hist (λ l, cov l ∨ a ≤ l ≤ b) (add_movements net (slice hist a b) t).
Proof.
  intros Huniq Hm.
  assert (Hl : ∀ ms t k v, Forall (λ m, ∃ l, m ∈ hist l) ms →
    (∀ m w, m ∈ ms → t !! movement_key net m = Some w → w = movement_row_of m) →
    add_movements net ms t !! k = Some v ↔
    t !! k = Some v ∨ ∃ m, m ∈ ms ∧ movement_key net m = k ∧ movement_row_of m = v).
  { clear t Hm. intros ms. induction ms as [|m ms IH]; intros t k v Hms Ht.
    - split; [by left|]. intros [?|(m & Hm & _)]; [done|by apply elem_of_nil in Hm].
    - apply Forall_cons in Hms as [(l0 & Hl0) Hms].
      assert (Hrow : default (movement_row_of m) (t !! movement_key net m) = movement_row_of m).
      { destruct (t !! movement_key net m) as [w|] eqn:Hw; [|done].
        simpl. eapply Ht; [by left|done]. }
      change (add_movements net (m :: ms) t) with (add_movements net ms
        (upsert (movement_key net m) (λ old, default (movement_row_of m) old) t)).
      unfold upsert. rewrite Hrow, IH; [|done|].
      + rewrite lookup_insert_Some. setoid_rewrite elem_of_cons. split.
        * intros [[[<- <-]|[_ ?]]|(m' & ? & ?)]; [right; exists m; tauto|by left|right; exists m'; tauto].
        * intros [Hk|(m' & [->|?] & <- & <-)]; [|by do 2 left|right; by exists m'].
          left. destruct (decide (movement_key net m = k)) as [<-|]; [|by right].
          left. split; [done|]. symmetry. eapply Ht; [by left|done].
      + intros m' w Hm' [[Hk <-]|[_ Hw]]%lookup_insert_Some; [|eapply Ht; [by right|done]].
        rewrite Forall_forall in Hms. destruct (Hms _ Hm') as (l' & ?).
        by apply (Huniq l0 m l' m'). }
  intros c i r v. rewrite Hl, (Hm c i r v).
  - split.
    + intros [(l & m & ? & ?)|(m & (l & ? & ?)%elem_of_slice & ?)]; exists l, m; tauto.
    + intros (l & m & [?|?] & ? & ? & ?); [left; by exists l, m|right].
      exists m. split; [|done]. apply elem_of_slice. by exists l.
  - apply Forall_forall. intros m (l & _ & ?)%elem_of_slice. by exists l.
  - intros m w (l & _ & Hin)%elem_of_slice Hw. unfold movement_key in Hw.
    apply Hm in Hw as (l' & m' & _ & Hin' & Hk & <-). by apply (Huniq l' m' l m).
Qed.

Lemma converged_slice `{Countable K} {A V} (key : A → K) (row : A → V) (last_ledger : V → Z)
    net_key hist cov m a b :
  (∀ l c, c ∈ hist l → last_ledger (row c) = l) →
  converged key row net_key hist cov m →
  converged key row net_key hist (λ l, cov l ∨ a ≤ l ≤ b)
    (apply_changes key row last_ledger (slice hist a b) m).
Proof.
  intros Hl Hc. destruct (decide (a ≤ b + 1)); [by apply converged_apply|].
  replace (slice hist a b) with (@nil A).
  - eapply converged_iff; [|exact Hc]. intros l. split; [by left|]. intros [?|?]; [done|lia].
  - unfold slice. by rewrite seqZ_nil by lia.
Qed.

(** No constraint objects to the chain's records; Postgres may, to a text. *)
Lemma synced_add net chain cov t a b t' :
  chain_ok net chain → synced net chain cov t → add_records net (range_records chain a b) t = Ok t' →
  synced net chain (λ l, cov l ∨ a ≤ l ≤ b) t'.
Proof.
  intros Hco Hs. unfold add_records. simpl.
  destruct (recorded_insert _ net _ _ _ (co_events _ _ Hco) cov _ a b (sy_events _ _ _ _ Hs)) as (ev & -> & ?).
  destruct (recorded_insert _ net _ _ _ (co_states _ _ Hco) cov _ a b (sy_state_changes _ _ _ _ Hs)) as (sc & -> & ?).
  destruct (recorded_insert _ net _ _ _ (co_transfers _ _ Hco) cov _ a b (sy_transfers _ _ _ _ Hs)) as (tr & Htr & ?).
  destruct (recorded_insert _ net _ _ _ (co_trustlines _ _ Hco) cov _ a b (sy_trustline_changes _ _ _ _ Hs)) as (tl & -> & ?).
  destruct (insert_transfers _ _ _) as [tr'|] eqn:Hok; [|done]. apply insert_transfers_Ok in Hok as [_ Hok].
  rewrite Htr in Hok. injection Hok as ->. intros [= <-]. split; simpl; try done.
  - apply converged_slice; [|apply Hs]. intros l c Hc. by apply (co_state_ledger _ _ Hco).
  - apply converged_slice; [|apply Hs]. intros l c Hc. by apply (co_trustline_ledger _ _ Hco).
  - apply moved_insert; [apply (co_movements _ _ Hco)|apply Hs].
Qed.

Lemma synced_iff net chain cov cov' t :
  (∀ l, cov l ↔ cov' l) → synced net chain cov t → synced net chain cov' t.
Proof.
  intros Hiff [H1 H2 H3 H4 H5 H6 H7]. split.
  - intros i v. setoid_rewrite <- Hiff. apply H1.
  - intros i v. setoid_rewrite <- Hiff. apply H2.
  - intros i v. setoid_rewrite <- Hiff. apply H3.
  - intros i v. setoid_rewrite <- Hiff. apply H4.
  - by eapply converged_iff.
  - by eapply converged_iff.
  - intros c i r v. setoid_rewrite <- Hiff. apply H7.
Qed.

(** ** Healing *)

Lemma top_below_spec net from m :
  match top_below net from m with
  | Some top =>
      (∃ id r, m !! id = Some r ∧ row_open net r ∧ g_to r = top ∧ top < from) ∧
      ∀ id r, m !! id = Some r → row_open net r → g_to r < from → g_to r ≤ top
  | None => ∀ id r, m !! id = Some r → row_open net r → from ≤ g_to r
  end.
Proof.
  unfold top_below.
  assert (Hsel : ∀ id r, (id, r) ∈ sel (λ _ r, is_open net r && (g_to r <? from)) m ↔
            m !! id = Some r ∧ row_open net r ∧ g_to r < from).
  { intros id r. by rewrite elem_of_sel, andb_true_iff, is_open_spec, Z.ltb_lt. }
  assert (Hall : ∀ id r, m !! id = Some r → row_open net r → g_to r < from →
            (id, r) ∈ sel (λ _ r, is_open net r && (g_to r <? from)) m)
    by (intros; by apply Hsel).
  assert (Hin : ∀ id r, (id, r) ∈ sel (λ _ r, is_open net r && (g_to r <? from)) m →
            m !! id = Some r ∧ row_open net r ∧ g_to r < from) by (intros id r; by apply Hsel).
  clear Hsel. revert Hall Hin. generalize (sel (λ _ r, is_open net r && (g_to r <? from)) m).
  intros rows Hall Hin.
  assert (Hf : match foldr (λ (row : string * gap_row) acc, Some (match acc with
                 Some x => Z.max (g_to row.2) x | None => g_to row.2 end)) None rows with
    | Some top => (∃ row, row ∈ rows ∧ g_to row.2 = top) ∧ Forall (λ row, g_to row.2 ≤ top) rows
    | None => rows = []
    end).
  { clear Hall Hin. induction rows as [|row rows IH]; simpl; [done|].
    destruct (foldr _ None rows) as [x|].
    - destruct IH as [(row' & ? & Hx) IH]. split.
      + destruct (Z.max_spec (g_to row.2) x) as [[? ->]|[? ->]].
        * exists row'. split; [by right|done].
        * exists row. split; [by left|done].
      + constructor; [lia|]. eapply Forall_impl; [exact IH|]. simpl. intros; lia.
    - subst. split; [exists row; split; [by left|done]|]. repeat constructor. lia. }
  destruct (foldr _ None rows) as [top|].
  - destruct Hf as [([id r] & Hrow & <-) Hmax]. rewrite Forall_forall in Hmax. split.
    + destruct (Hin _ _ Hrow) as (? & ? & ?). by exists id, r.
    + intros id' r' ???. by apply (Hmax (id', r')), Hall.
  - intros id r ??. destruct (decide (from ≤ g_to r)); [done|].
    assert ((id, r) ∈ rows) as Hr by (apply Hall; [done|done|lia]).
    rewrite Hf in Hr. by apply elem_of_nil in Hr.
Qed.

(** What happens to a walk that is clamped at the healed gap. *)
Definition healed_row (net : string) (gap : Gap) (newNextTo : Z) (resolved : bool)
    (gaps : gmap string gap_row) (b b' : backfill_row) : Prop :=
  let next1 := if (newNextTo <? b_next_to b) && (b_target_from b <=? newNextTo)
               then newNextTo else b_next_to b in
  b_target_from b' = b_target_from b ∧ b_covered_kinds b' = b_covered_kinds b ∧
  b_done b' = b_done b ∧
  ((b_clamped_at b' = None ∧ b_next_to b' = Z.max (b_target_from b) 1 - 1 ∧
    (newNextTo < b_target_from b ∨
     (resolved = true ∧ ∀ id r, gaps !! id = Some r → row_open net r →
        g_to r < gap_From gap → g_to r < b_target_from b))) ∨
   (resolved = false ∧ b_clamped_at b' = b_clamped_at b ∧ b_next_to b' = next1 ∧
    b_target_from b ≤ newNextTo) ∨
   (resolved = true ∧ ∃ top, top_below net (gap_From gap) gaps = Some top ∧
    b_clamped_at b' = Some (top + 1) ∧ b_next_to b' = next1 ∧ b_target_from b ≤ top ∧
    b_target_from b ≤ newNextTo)).

Lemma close_cond_spec net from target gaps :
  affected (λ (_ : string) r, is_open net r && (g_to r <? from) && (target <=? g_to r)) gaps = 0 ↔
  ∀ id r, gaps !! id = Some r → row_open net r → g_to r < from → g_to r < target.
Proof.
  rewrite affected_zero. split; intros Hall id r Hr.
  - intros Ho ?. specialize (Hall id r Hr).
    rewrite (proj2 (is_open_spec net r) Ho), (proj2 (Z.ltb_lt _ _)) in Hall by done. simpl in Hall.
    by apply Z.leb_gt in Hall.
  - apply not_true_iff_false. rewrite !andb_true_iff, is_open_spec, Z.ltb_lt, Z.leb_le.
    intros [[Ho ?] ?]. specialize (Hall id r Hr Ho). lia.
Qed.

Section healing.
Context (net : string) (gap : Gap) (newNextTo : Z) (resolved : bool) (now goNow : Z).
Context (gaps : gmap string gap_row) (m : gmap (string * string) backfill_row).
Context (Hft : gap_From gap ≤ gap_To gap) (Hnn : resolved = (newNextTo <? gap_From gap)).

Abbreviation clamp := (gap_To gap + 1).
Abbreviation m' := (heal_backfill net gap newNextTo resolved now gaps m).

Lemma heal_backfill_other k b :
  ¬ (k.1 = net ∧ b_clamped_at b = Some clamp) → m !! k = Some b → m' !! k = Some b.
Proof.
  intros Hno Hk.
  assert (Hc : bool_decide (k.1 = net) && bool_decide (b_clamped_at b = Some clamp) = false).
  { apply not_true_iff_false. by rewrite andb_true_iff, !bool_decide_eq_true. }
  unfold heal_backfill, lower_frontier, clear_clamps, hand_clamps, close_clamps.
  destruct resolved; rewrite !lookup_upd, Hk; simpl; repeat (rewrite Hc; simpl); done.
Qed.

Lemma heal_backfill_clamped k b :
  k.1 = net → b_clamped_at b = Some clamp → m !! k = Some b →
  ∃ b', m' !! k = Some b' ∧ healed_row net gap newNextTo resolved gaps b b'.
Proof.
  intros Hn Hc Hk. destruct b as [tgt nxt dn cl kinds upd_at]. simpl in Hc. subst cl.
  pose proof (top_below_spec net (gap_From gap) gaps) as Htop.
  pose proof (close_cond_spec net (gap_From gap) tgt gaps) as Hclose.
  unfold healed_row. simpl.
  set (next1 := if (newNextTo <? nxt) && (tgt <=? newNextTo) then newNextTo else nxt).
  assert (H1 : lower_frontier net clamp newNextTo now m !! k =
    Some (mkBackfillRow tgt next1 dn (Some clamp) kinds
            (if (newNextTo <? nxt) && (tgt <=? newNextTo) then now else upd_at))).
  { unfold lower_frontier. rewrite lookup_upd, Hk. simpl.
    rewrite !bool_decide_eq_true_2 by done. simpl. unfold next1.
    by destruct ((newNextTo <? nxt) && (tgt <=? newNextTo)). }
  assert (H2 : clear_clamps net clamp newNextTo now (lower_frontier net clamp newNextTo now m) !! k =
    Some (if newNextTo <? tgt
          then mkBackfillRow tgt (Z.max tgt 1 - 1) dn None kinds now
          else mkBackfillRow tgt next1 dn (Some clamp) kinds
            (if (newNextTo <? nxt) && (tgt <=? newNextTo) then now else upd_at))).
  { unfold clear_clamps. rewrite lookup_upd, H1. simpl.
    rewrite !bool_decide_eq_true_2 by done. simpl. by destruct (newNextTo <? tgt). }
  unfold heal_backfill. destruct (Z.ltb_spec newNextTo tgt) as [Hlt|Hge].
  { assert (Hkeep : ∀ P f (mm : gmap (string * string) backfill_row) x,
      mm !! k = Some x → P k x = false → upd P f mm !! k = Some x).
    { intros P f mm x Hx HP. rewrite lookup_upd, Hx. simpl. by rewrite HP. }
    exists (mkBackfillRow tgt (Z.max tgt 1 - 1) dn None kinds now). split.
    - destruct resolved; [|done]. unfold close_clamps, hand_clamps.
      apply Hkeep; [apply Hkeep; [done|]|]; simpl; by rewrite andb_false_r.
    - simpl. split_and!; try done. left. split_and!; try done. by left. }
  destruct resolved.
  2:{ eexists. split; [exact H2|]. simpl. split_and!; try done. right. left. done. }
  unfold close_clamps, hand_clamps. rewrite !lookup_upd, H2. simpl.
  rewrite !bool_decide_eq_true_2 by done. simpl.
  symmetry in Hnn. apply Z.ltb_lt in Hnn.
  destruct (Z.ltb_spec tgt (gap_From gap)) as [Htf|]; [|lia]. simpl.
  destruct (top_below net (gap_From gap) gaps) as [top|] eqn:Htb; simpl.
  - destruct Htop as [(id & r & Hr & Ho & Hto & Hlt) Hmax].
    destruct (Z.leb_spec tgt top) as [Hle|Hgt]; simpl.
    + rewrite !(bool_decide_eq_true_2 (Some clamp = Some clamp)) by done. simpl.
      rewrite (bool_decide_eq_false_2 (Some (top + 1) = Some clamp)) by (intros [= ?]; lia).
      simpl. eexists. split; [done|]. simpl.
      split_and!; try done. right. right. split; [done|]. by exists top.
    + repeat (rewrite (bool_decide_eq_true_2 (Some clamp = Some clamp)) by done; simpl).
      assert (∀ id r, gaps !! id = Some r → row_open net r → g_to r < gap_From gap → g_to r < tgt).
      { intros id2 r2 ? ? ?. assert (g_to r2 ≤ top) by (by eapply Hmax). lia. }
      rewrite (proj2 Hclose) by done. simpl. eexists. split; [done|]. simpl.
      split_and!; try done. left. split_and!; try done. by right.
  - repeat (rewrite (bool_decide_eq_true_2 (Some clamp = Some clamp)) by done; simpl).
    assert (∀ id r, gaps !! id = Some r → row_open net r → g_to r < gap_From gap → g_to r < tgt).
    { intros id2 r2 Hr2 Ho2 ?. specialize (Htop _ _ Hr2 Ho2). lia. }
    rewrite (proj2 Hclose) by done. simpl. eexists. split; [done|]. simpl.
    split_and!; try done. left. split_and!; try done. by right.
Qed.
End healing.

(** *** The gaps after a heal commit *)
Section heal_gap.
Context (m : gmap string gap_row) (net id : string) (r : gap_row).
Context (Hwf : gaps_wf m) (Hr : m !! id = Some r) (Hopen : row_open net r).
Context (gap : Gap) (newNextTo goNow : Z) (resolved : bool).
Context (Hid : gap_ID gap = id).
Context (Hlo : g_from r - 1 ≤ newNextTo ≤ g_to r).
Context (Hres : resolved = (newNextTo <? g_from r)).

Abbreviation m' := (heal_gaps net gap newNextTo resolved goNow m).

Lemma heal_gaps_lookup k x :
  m' !! k = Some x ↔
  (k ≠ id ∧ m !! k = Some x) ∨
  (k = id ∧ x = advance_row newNextTo (if resolved then Some goNow else None) r).
Proof.
  unfold heal_gaps. rewrite lookup_upd_Some. unfold advance_cond. rewrite Hid. split.
  - intros (w & Hw & ->). destruct (decide (k = id)) as [->|].
    + right. rewrite Hr in Hw. injection Hw as <-. split; [done|].
      rewrite (proj2 (is_open_spec net r) Hopen), bool_decide_eq_true_2 by done. done.
    + left. split; [done|]. rewrite (bool_decide_eq_false_2 (k = id)), andb_false_r by done. done.
  - intros [[Hk Hx]|[-> ->]].
    + exists x. split; [done|]. by rewrite (bool_decide_eq_false_2 (k = id)), andb_false_r by done.
    + exists r. split; [done|].
      by rewrite (proj2 (is_open_spec net r) Hopen), bool_decide_eq_true_2 by done.
Qed.

Lemma heal_gaps_affected : (affected (advance_cond net (gap_ID gap)) m =? 0) = false.
Proof.
  apply Z.eqb_neq. rewrite affected_zero. intros Hno. specialize (Hno id r Hr).
  unfold advance_cond in Hno. rewrite Hid in Hno.
  by rewrite (proj2 (is_open_spec net r) Hopen), bool_decide_eq_true_2 in Hno.
Qed.

Lemma heal_row_open :
  row_open net (advance_row newNextTo (if resolved then Some goNow else None) r) ↔
  resolved = false.
Proof.
  destruct Hopen as [Hn Ho]. unfold row_open. simpl. destruct resolved; [|done].
  split; [by intros [_ ?]|done].
Qed.

Lemma heal_wf : gaps_wf m'.
Proof.
  pose proof (wf_range _ Hwf _ _ Hr) as Hrange. pose proof (wf_next _ Hwf _ _ Hr) as Hnext.
  split.
  - intros k x [[_ Hk]|[-> ->]]%heal_gaps_lookup; [by eapply wf_key|]. simpl. by eapply wf_key.
  - intros k x [[_ Hk]|[-> ->]]%heal_gaps_lookup; [by eapply wf_range|]. simpl. by eapply wf_range.
  - intros k x [[_ Hk]|[-> ->]]%heal_gaps_lookup; [by eapply wf_next|].
    change (heal_next _) with newNextTo. simpl. lia.
  - intros k x [[_ Hk]|[-> ->]]%heal_gaps_lookup; [by eapply wf_mode|]. simpl. by eapply wf_mode.
  - assert (Hsrc : ∀ k x n, m' !! k = Some x → row_open n x →
      ∃ w, m !! k = Some w ∧ row_open n w ∧ g_from w = g_from x ∧ g_to w = g_to x).
    { intros k x n [[_ Hk]|[-> ->]]%heal_gaps_lookup Ho; [by exists x|].
      exists r. split; [done|]. split; [|done]. destruct Ho as [Hn Hx]. simpl in *.
      by destruct Hopen, resolved. }
    intros k1 x1 k2 x2 n l H1 H2 Ho1 Ho2 Hl1 Hl2.
    destruct (Hsrc _ _ _ H1 Ho1) as (w1 & ? & ? & Hf1 & Ht1).
    destruct (Hsrc _ _ _ H2 Ho2) as (w2 & ? & ? & Hf2 & Ht2).
    rewrite <- Hf1, <- Ht1 in Hl1. rewrite <- Hf2, <- Ht2 in Hl2.
    by eapply (wf_disjoint _ Hwf k1 w1 k2 w2 n l).
Qed.

(** The heal discharges only the ledgers of the gap above its watermark. *)
Lemma heal_owed_still n l :
  owed m n l → ¬ (n = net ∧ newNextTo < l ∧ g_from r ≤ l ≤ g_to r) → owed m' n l.
Proof.
  intros (md & k & x & Hx & Ho) Hno. destruct (decide (k = id)) as [->|Hk].
  - rewrite Hr in Hx. injection Hx as <-. assert (Ho' := Ho). destruct Ho' as (Hn & Hu & Hl & Hm).
    destruct Hopen as [Hn' _]. pose proof (wf_next _ Hwf _ _ Hr).
    assert (l ≤ newNextTo). { destruct (decide (l ≤ newNextTo)); [done|]. destruct Hno.
      split; [congruence|lia]. }
    exists md, id, (advance_row newNextTo (if resolved then Some goNow else None) r).
    split; [apply heal_gaps_lookup; by right|].
    assert (resolved = false) as -> by (rewrite Hres; apply Z.ltb_ge; lia).
    split_and!; try done; unfold heal_next; simpl; lia.
  - exists md, k, x. split; [|done]. apply heal_gaps_lookup. by left.
Qed.

(** When its watermark moves down, it discharges them all. *)
Lemma heal_owed n l : newNextTo ≤ heal_next r →
  owed m' n l ↔ owed m n l ∧ ¬ (n = net ∧ newNextTo < l ∧ g_from r ≤ l ≤ g_to r).
Proof.
  intros Hdown. split; [|intros [? ?]; by apply heal_owed_still].
  intros (md & k & x & [[Hk Hx]|[-> ->]]%heal_gaps_lookup & Ho).
  - split; [by exists md, k, x|]. intros (-> & _ & Hl).
    destruct Hk. eapply (wf_disjoint _ Hwf k x id r net l); try done;
      [by eapply row_owes_open|by eapply row_owes_range].
  - destruct Ho as (Hn & Hu & Hl & Hm). unfold heal_next in Hl. simpl in *.
    split; [|lia]. exists md, id, r. split; [done|]. destruct Hopen.
    split_and!; try done; lia.
Qed.

(** An open gap that owes a ledger below the healed one ends below it. *)
Lemma heal_below l k x :
  resolved = true → l < g_from r → m' !! k = Some x → row_open net x →
  g_from x ≤ l ≤ g_to x → g_to x < g_from r.
Proof.
  intros Ht Hl Hk Ho Hlx. destruct (decide (g_to x < g_from r)); [done|].
  apply heal_gaps_lookup in Hk as [[Hk Hx]|[-> ->]].
  - destruct Hk. pose proof (wf_range _ Hwf _ _ Hr).
    eapply (wf_disjoint _ Hwf k x id r net (g_from r)); try done; lia.
  - apply heal_row_open in Ho. congruence.
Qed.

(** Below a resolved gap, a ledger is owed only by gaps that end below it. *)
Lemma heal_owed_below l : resolved = true → l < g_from r → owed m' net l →
  ∃ k x, m' !! k = Some x ∧ row_open net x ∧ l ≤ g_to x ∧ g_to x < g_from r.
Proof.
  intros Ht Hl (md & k & x & Hk & Ho). exists k, x.
  assert (Hx : row_open net x) by (by eapply row_owes_open).
  pose proof (row_owes_range _ _ _ _ _ _ heal_wf Hk Ho).
  split_and!; try done; [lia|]. eapply heal_below; try done.
Qed.
End heal_gap.

(** A clamped walk claims nothing that is still missing above its clamp. *)
Definition frontier_clear (m : gmap string gap_row) (net : string) (b : backfill_row) : Prop :=
  ∀ c l, b_clamped_at b = Some c → c ≤ l ≤ b_next_to b → b_target_from b ≤ l → ¬ owed m net l.

Section heal_frontier.
Context (m : gmap string gap_row) (net id : string) (r : gap_row).
Context (Hwf : gaps_wf m) (Hr : m !! id = Some r) (Hopen : row_open net r).
Context (gap : Gap) (newNextTo goNow : Z) (resolved : bool).
Context (Hid : gap_ID gap = id) (Hfrom : gap_From gap = g_from r) (Hto : gap_To gap = g_to r).
Context (Hlo : g_from r - 1 ≤ newNextTo ≤ heal_next r).
Context (Hres : resolved = (newNextTo <? g_from r)).

Lemma heal_below_top : g_from r - 1 ≤ newNextTo ≤ g_to r.
Proof. pose proof (wf_next _ Hwf _ _ Hr). lia. Qed.

Abbreviation m' := (heal_gaps net gap newNextTo resolved goNow m).

Lemma frontier_owed n l :
  owed m' n l ↔ owed m n l ∧ ¬ (n = net ∧ newNextTo < l ∧ g_from r ≤ l ≤ g_to r).
Proof. apply (heal_owed m net id r); try done. lia. Qed.

Lemma heal_not_owed l : newNextTo < l → l ≤ g_to r → ¬ owed m' net l.
Proof. intros ?? Ho. apply frontier_owed in Ho as [_ Hno]. apply Hno. split; [done|lia]. Qed.

Lemma heal_owed_sub n l : owed m' n l → owed m n l.
Proof. by intros [? _]%frontier_owed. Qed.

(** Below the resolved gap, a ledger is owed only by gaps that end below it. *)
Lemma frontier_owed_below l : resolved = true → l < g_from r → owed m' net l →
  ∃ k x, m' !! k = Some x ∧ row_open net x ∧ l ≤ g_to x ∧ g_to x < g_from r.
Proof. apply (heal_owed_below m net id r); try done. apply heal_below_top. Qed.

Lemma healed_row_clear b b' :
  healed_row net gap newNextTo resolved m' b b' → b_clamped_at b = Some (gap_To gap + 1) →
  frontier_clear m net b →
  frontier_clear m' net b' ∧
  ∀ l, b_target_from b ≤ l → b_next_to b' < l ≤ b_next_to b → ¬ owed m' net l.
Proof.
  unfold healed_row. rewrite Hfrom, Hto. intros (Htg & _ & _ & Hcases) Hcl Hclear.
  assert (Habove : ∀ l, b_target_from b ≤ l → newNextTo < l ≤ b_next_to b → ¬ owed m' net l).
  { intros l ? [? ?].
    destruct (decide (l ≤ g_to r)); [by apply heal_not_owed|].
    intros Ho%heal_owed_sub. revert Ho. apply (Hclear _ _ Hcl); lia. }
  set (next1 := if _ : bool then _ else _) in Hcases.
  assert (Hn1 : next1 ≤ b_next_to b ∧
    (next1 = newNextTo ∨ b_next_to b ≤ newNextTo ∧ next1 = b_next_to b ∨ newNextTo < b_target_from b)).
  { unfold next1. destruct (Z.ltb_spec newNextTo (b_next_to b)); simpl; [|lia].
    destruct (Z.leb_spec (b_target_from b) newNextTo); lia. }
  unfold frontier_clear. rewrite Htg.
  destruct Hcases as [(Hc' & Hn' & Hwhy)|[(Hf & Hc' & Hn' & Hle)|(Ht & top & Htop & Hc' & Hn' & Hle & Hle2)]].
  - split; [by intros c l; rewrite Hc'|]. intros l ??.
    destruct Hwhy as [?|[Ht Hnone]]; [apply Habove; lia|].
    destruct (decide (newNextTo < l)); [apply Habove; lia|].
    assert (newNextTo < g_from r) by (rewrite Hres in Ht; by apply Z.ltb_lt).
    intros Ho. apply frontier_owed_below in Ho as (k & x & Hk & Hx & ? & ?); [|done|lia].
    specialize (Hnone k x Hk Hx). lia.
  - split.
    + intros c l Hc ? ? Ho%heal_owed_sub. rewrite Hc' in Hc. revert Ho. apply (Hclear c l Hc); lia.
    + intros l ??. apply Habove; lia.
  - assert (newNextTo < g_from r) by (rewrite Hres in Ht; by apply Z.ltb_lt).
    pose proof (top_below_spec net (g_from r) m') as Hspec. rewrite Htop in Hspec.
    destruct Hspec as [_ Hmax]. split.
    + intros c l Hc ? ? Ho. rewrite Hc' in Hc. injection Hc as <-.
      apply frontier_owed_below in Ho as (k & x & Hk & Hx & ? & ?); [|done|lia].
      specialize (Hmax k x Hk Hx). lia.
    + intros l ??. apply Habove; lia.
Qed.
End heal_frontier.

(** ** Properties *)

(** The ledgers of a list of ranges. *)
Definition covered_by (ranges : list (Z * Z)) (l : Z) : Prop :=
  Exists (λ r, r.1 ≤ l ≤ r.2) ranges.

(** What a commit does to the record tables when it succeeds. *)
Lemma commit_tx_tables net chain c now d u d' :
  run now (commit_tx net chain c) d = Ok (u, d') →
  match c with
  | Elsewhere _ => get_tables d' = get_tables d
  | _ => add_records net (range_records chain (commit_range c).1 (commit_range c).2)
           (get_tables d) = Ok (get_tables d')
  end.
Proof.
  destruct c as [rec|b from to|gap nn res gn from to|d1]; simpl commit_tx.
  - rewrite run_CommitLedger. destruct (add_records _ _ _); [|done]. intros [= _ <-].
    by rewrite ledger_done_put, get_put_tables.
  - rewrite run_CommitBackfillChunk. destruct (add_records _ _ _); [|done].
    destruct (db_backfill d !! _); [|done]. intros [= _ <-]. by rewrite get_put_tables.
  - rewrite run_CommitHealChunk. destruct (add_records _ _ _); [|done].
    destruct (_ =? 0); [done|]. intros [= _ <-]. by rewrite get_put_tables.
  - simpl. intros [= _ <-]. by rewrite get_put_tables.
Qed.

Lemma run_attempts_synced net chain l ranges d ranges' d' :
  chain_ok net chain → synced net chain (covered_by ranges) (get_tables d) →
  run_attempts net chain l ranges d = (ranges', d') →
  synced net chain (covered_by ranges') (get_tables d').
Proof.
  intros Hco. revert ranges d. induction l as [|[[fl now] c] l IH]; intros ranges d Hs; simpl.
  { by intros [= <- <-]. }
  destruct (BeginFunc_atomic fl now (commit_tx net chain c) d) as [(e & ->)|(a & d1 & -> & Hrun)];
    [by apply IH|].
  apply IH. apply commit_tx_tables in Hrun.
  assert (Hc : ∀ a b t, synced net chain (λ l, covered_by ranges l ∨ a ≤ l ≤ b) t →
                        synced net chain (covered_by ((a, b) :: ranges)) t).
  { intros x y t. apply synced_iff. intros k. unfold covered_by. rewrite Exists_cons. simpl. tauto. }
  destruct c as [rec|b from to|gap nn res gn from to|d2]; simpl in *.
  1-3: by apply Hc; eapply synced_add.
  apply Hc. rewrite Hrun. eapply synced_iff; [|exact Hs]. intros k.
  split; [by left|]. intros [?|?]; [done|lia].
Qed.

Definition no_tables : tables := mkTables ∅ ∅ ∅ ∅ ∅ ∅ ∅.

(** C11.  What Sierpe stores about a network depends only on which ledgers were
    committed.  Start from empty record tables and let the live loop, the
    descending backfill and the healer commit ranges of one chain in any order,
    overlapping and repeated, each attempt failing anywhere the world pleases:
    the history tables then hold exactly the records of the ledgers of the
    successful attempts, and the snapshots the last change of each key in the
    highest of them.  An attempt fails if the world does, or if Postgres refuses
    a text; no constraint ever rejects one. *)
Theorem commits_converge (net : string) (chain : Z → Records)
    (l : list (faults * Z * Commit)) (d d' : db) (ranges : list (Z * Z)) :
  chain_ok net chain → get_tables d = no_tables →
  run_attempts net chain l [] d = (ranges, d') →
  synced net chain (covered_by ranges) (get_tables d').
Proof.
  intros Hco Hd. apply run_attempts_synced; [done|]. rewrite Hd.
  assert (Hn : ∀ l, ¬ covered_by [] l) by (intros k Hk; by apply Exists_nil in Hk).
  split; simpl.
  1-4: intros i v; rewrite lookup_empty; split; [done|]; intros (k & ? & Hk & _); by apply Hn in Hk.
  - intros k _. rewrite lookup_empty. intros k' Hk. by apply Hn in Hk.
  - intros k _. rewrite lookup_empty. intros k' Hk. by apply Hn in Hk.
  - intros c i r v. rewrite lookup_empty. split; [done|].
    intros (k & ? & Hk & _). by apply Hn in Hk.
Qed.

(** C12.  A ledger either fully happens or never did: whatever fails during
    [CommitLedger], the database is unchanged or holds the ledger's records, its
    hash and a cursor at or past it; no cursor ever moves back, nothing else
    changes, and committing the same ledger again is a no-op. *)
Theorem CommitLedger_atomic (fl : faults) (net : string) (rec : LedgerRecord) (r : Records)
    (now : Z) (d d' : db) (out : res unit) :
  BeginFunc fl now (CommitLedger net rec r) d = (out, d') →
  (∃ e, out = Err e ∧ d' = d) ∨
  (out = Ok tt ∧ add_records net r (get_tables d) = Ok (get_tables d') ∧
   (∃ c, db_cursor d' = <[net := c]> (db_cursor d) ∧ lr_Sequence rec ≤ cur_Sequence c ∧
         (∀ c0, db_cursor d !! net = Some c0 → cur_Sequence c0 ≤ cur_Sequence c) ∧
         (cur_Sequence c = lr_Sequence rec → db_cursor d !! net = Some c ∨ cur_Hash c = lr_Hash rec)) ∧
   is_Some (db_ledger_hashes d' !! lr_Sequence rec) ∧
   (∀ s h, db_ledger_hashes d' !! s = Some h → lr_Sequence rec - hashRingSize ≤ s) ∧
   db_gaps d' = db_gaps d ∧ db_backfill d' = db_backfill d ∧ db_contracts d' = db_contracts d ∧
   ∀ now', run now' (CommitLedger net rec r) d' = Ok (tt, d')).
Proof.
  intros Hb. destruct (BeginFunc_atomic fl now (CommitLedger net rec r) d)
    as [(e & He)|(a & d1 & Ha & Hrun)]; [left; exists e; rewrite He in Hb; by injection Hb as <- <-|].
  right. rewrite Ha in Hb. injection Hb as <- <-. rewrite run_CommitLedger in Hrun.
  destruct (add_records net r (get_tables d)) as [t|] eqn:Hadd; [|done].
  injection Hrun as <- <-. rewrite ledger_done_put, get_put_tables. split_and!; try done.
  - exists (cursor_row rec (db_cursor d !! net)). split; [by destruct d|].
    destruct (db_cursor d !! net) as [c0|]; simpl;
      [|split_and!; [lia|done|by right]].
    destruct (Z.ltb_spec (cur_Sequence c0) (lr_Sequence rec)); simpl; split_and!; try lia; auto.
    + intros c1 [= <-]. lia.
    + by intros c1 [= <-].
  - exists (default (hash_row_of rec) (db_ledger_hashes d !! lr_Sequence rec)).
    destruct d as [cu lh ? ? ? ? ? ? ? ? ? ?]. apply lookup_del_Some. unfold upsert.
    rewrite lookup_insert_eq. split; [done|]. unfold hashRingSize. apply Z.ltb_ge. lia.
  - intros s h. destruct d as [cu lh ? ? ? ? ? ? ? ? ? ?]. intros [_ Hs]%lookup_del_Some.
    by apply Z.ltb_ge in Hs.
  - by destruct d.
  - by destruct d.
  - by destruct d.
  - intros now'. rewrite run_CommitLedger, get_put_tables, (add_records_again _ _ _ _ Hadd).
    by rewrite !ledger_done_put, ledger_done_again.
Qed.

(** A backfill chunk is all or nothing: whatever fails, the database is
    unchanged or holds the chunk's records and the walk's new watermark, and
    only that walk moved; a walk whose registration is gone is refused, so no
    orphan progress is ever written. *)
Theorem CommitBackfillChunk_atomic (fl : faults) (net : string) (b : Backfill) (r : Records)
    (now : Z) (d d' : db) (out : res unit) :
  BeginFunc fl now (CommitBackfillChunk net b r) d = (out, d') →
  (db_backfill d !! (net, bf_ContractID b) = None → out ≠ Ok tt) ∧
  ((∃ e, out = Err e ∧ d' = d) ∨
   (out = Ok tt ∧ add_records net r (get_tables d) = Ok (get_tables d') ∧
    ∃ w, db_backfill d !! (net, bf_ContractID b) = Some w ∧
      db_backfill d' = <[(net, bf_ContractID b) :=
        mkBackfillRow (b_target_from w) (bf_NextTo b) (bf_Done b) (bf_ClampedAt b)
                      (b_covered_kinds w) now]> (db_backfill d) ∧
      db_gaps d' = db_gaps d ∧ db_cursor d' = db_cursor d ∧ db_contracts d' = db_contracts d ∧
      db_ledger_hashes d' = db_ledger_hashes d)).
Proof.
  intros Hb. destruct (BeginFunc_atomic fl now (CommitBackfillChunk net b r) d)
    as [(e & He)|(a & d1 & Ha & Hrun)].
  { rewrite He in Hb. injection Hb as <- <-. split; [done|]. left. by exists e. }
  rewrite Ha in Hb. injection Hb as <- <-. rewrite run_CommitBackfillChunk in Hrun.
  destruct (add_records net r (get_tables d)) as [t|] eqn:Hadd; [|done].
  destruct (db_backfill d !! (net, bf_ContractID b)) as [w|] eqn:Hw; [|done].
  split; [done|]. right. injection Hrun as <- <-. rewrite get_put_tables.
  split_and!; try done. exists w. split; [done|]. destruct d. done.
Qed.

(** C18.  A heal commit discharges exactly what it read and keeps the declared
    coverage honest.  When the gap is still open and the watermark moves down,
    the commit succeeds (its records permitting): the missing ledgers become
    those missing before minus the gap's ledgers above the new watermark; walks
    not clamped at this gap keep their state; a walk clamped at it never comes
    to claim a ledger that is still missing; and once the gap is resolved no
    walk stays clamped at it: each is closed at its own target or handed to the
    top of an open gap that reaches its target. *)
Theorem CommitHealChunk_honest (net id : string) (gap : Gap) (r : gap_row)
    (newNextTo goNow now : Z) (resolved : bool) (records : Records) (t : tables) (d : db) :
  gaps_wf (db_gaps d) → db_gaps d !! id = Some r → row_open net r →
  gap_ID gap = id → gap_From gap = g_from r → gap_To gap = g_to r →
  g_from r - 1 ≤ newNextTo ≤ heal_next r → resolved = (newNextTo <? g_from r) →
  add_records net records (get_tables d) = Ok t →
  ∃ d', run now (CommitHealChunk net gap newNextTo resolved goNow records) d = Ok (tt, d') ∧
    get_tables d' = t ∧ gaps_wf (db_gaps d') ∧
    (∀ n l, owed (db_gaps d') n l ↔
       owed (db_gaps d) n l ∧ ¬ (n = net ∧ newNextTo < l ∧ g_from r ≤ l ≤ g_to r)) ∧
    (∀ k b, db_backfill d !! k = Some b →
       ∃ b', db_backfill d' !! k = Some b' ∧
         (¬ (k.1 = net ∧ b_clamped_at b = Some (g_to r + 1)) → b' = b) ∧
         b_target_from b' = b_target_from b ∧ b_covered_kinds b' = b_covered_kinds b ∧
         (k.1 = net → frontier_clear (db_gaps d) net b →
            frontier_clear (db_gaps d') net b' ∧
            ∀ l, b_target_from b ≤ l → b_next_to b' < l ≤ b_next_to b → ¬ owed (db_gaps d') net l) ∧
         (k.1 = net → b_clamped_at b = Some (g_to r + 1) → resolved = true →
            (b_clamped_at b' = None ∧ b_next_to b' = Z.max (b_target_from b) 1 - 1) ∨
            ∃ gid g, db_gaps d' !! gid = Some g ∧ row_open net g ∧
              b_clamped_at b' = Some (g_to g + 1) ∧ b_target_from b ≤ g_to g < g_from r)).
Proof.
  intros Hwf Hr Ho Hid Hfrom Hto Hnn Hres Hadd.
  assert (Hnn' : g_from r - 1 ≤ newNextTo ≤ g_to r) by (by eapply heal_below_top).
  rewrite run_CommitHealChunk, Hadd, (heal_gaps_affected (db_gaps d) net id r) by done. cbv zeta.
  eexists. split; [done|]. rewrite get_put_tables.
  set (gaps := heal_gaps net gap newNextTo resolved goNow (db_gaps d)).
  assert (Hg : db_gaps (put_tables t (set_gaps (λ _, gaps)
    (set_backfill (heal_backfill net gap newNextTo resolved now gaps) d))) = gaps) by (by destruct d).
  assert (Hb : db_backfill (put_tables t (set_gaps (λ _, gaps)
    (set_backfill (heal_backfill net gap newNextTo resolved now gaps) d))) =
    heal_backfill net gap newNextTo resolved now gaps (db_backfill d)) by (by destruct d).
  rewrite Hg, Hb. split; [done|]. split; [by eapply heal_wf|].
  assert (Howed : ∀ n l, owed gaps n l ↔
       owed (db_gaps d) n l ∧ ¬ (n = net ∧ newNextTo < l ∧ g_from r ≤ l ≤ g_to r))
    by (intros n l; apply (heal_owed _ net id r); try done; lia).
  split; [exact Howed|]. intros k b Hk.
  pose proof (wf_range _ Hwf _ _ Hr).
  destruct (decide (k.1 = net ∧ b_clamped_at b = Some (gap_To gap + 1))) as [[Hn Hc]|Hno].
  - destruct (heal_backfill_clamped net gap newNextTo resolved now gaps (db_backfill d)
      ltac:(lia) ltac:(by rewrite Hfrom) k b Hn Hc Hk) as (b' & Hb' & Hrow).
    exists b'. rewrite <- Hto. assert (Hrow' := Hrow).
    destruct Hrow' as (Htg & Hcov & _ & Hcases).
    split_and!; try done; [tauto| |].
    + intros _ Hclear. by eapply (healed_row_clear (db_gaps d) net id r).
    + intros _ _ Hresd.
      destruct Hcases as [(? & ? & _)|[(? & _)|(_ & top & Htop & Hcl & _ & Hle & _)]];
        [by left|congruence|]. right.
      pose proof (top_below_spec net (gap_From gap) gaps) as Hspec. rewrite Htop in Hspec.
      destruct Hspec as [(gid & g & ? & ? & <- & ?) _]. exists gid, g.
      rewrite <- Hfrom. split_and!; try done; lia.
  - exists b. rewrite <- Hto. split; [apply heal_backfill_other; [by rewrite Hfrom|done..]|].
    split_and!; try done; [|tauto]. intros Hn Hclear. split; [|lia].
    intros c l Hc ? ? [? _]%Howed. by eapply (Hclear c l).
Qed.

(** A chunk that was being read while a registration handed the gap back
    undoes that hand-back: the commit writes its own watermark over the rewound
    one, and everything above it stops being declared missing although nothing
    was replayed after the registration. *)
Theorem CommitHealChunk_undoes_reopen (net id : string) (r : gap_row) (from to newNextTo now : Z)
    (goNow : Z) (records : Records) (t : tables) (d : db) (n : Z) (d1 : db) :
  gaps_wf (db_gaps d) → db_gaps d !! id = Some r → row_open net r →
  g_from r ≤ to → from ≤ g_to r → g_from r ≤ newNextTo → newNextTo ≤ heal_next r →
  add_records net records (get_tables d) = Ok t →
  run now (ReopenGaps net from to) d = Ok (n, d1) →
  (∀ l, g_from r ≤ l ≤ g_to r → owed (db_gaps d1) net l) ∧
  ∃ d2, run now (CommitHealChunk net (scanGap (id, r)) newNextTo false goNow records) d1 = Ok (tt, d2) ∧
        ∀ l, newNextTo < l ≤ g_to r → ¬ owed (db_gaps d2) net l.
Proof.
  intros Hwf Hr Ho ?? Hlo Hhi Hadd Hre.
  pose proof (wf_next _ Hwf _ _ Hr). pose proof (wf_range _ Hwf _ _ Hr).
  rewrite run_ReopenGaps in Hre. injection Hre as _ <-.
  assert (Hwf1 : gaps_wf (upd (λ _, reopen_cond net from to) reopen_row (db_gaps d)))
    by (by apply reopen_wf).
  autorewrite with sierpe_simp. split.
  { intros l Hl. exists HealModeReplay. apply reopen_owes; [done|]. right.
    split_and!; try done. by exists id, r. }
  set (x := if reopen_cond net from to r then reopen_row r else r).
  assert (Hx : upd (λ _, reopen_cond net from to) reopen_row (db_gaps d) !! id = Some x)
    by (apply lookup_upd_Some; by exists r).
  assert (Hxr : row_open net x ∧ g_from x = g_from r ∧ g_to x = g_to r ∧ heal_next r ≤ heal_next x).
  { unfold x. destruct Ho. destruct (reopen_cond _ _ _ _); [|by split_and!].
    split_and!; try done. change (heal_next (reopen_row r)) with (g_to r). lia. }
  destruct Hxr as (Hox & Hfx & Htx & Hnx).
  destruct (scanGap_fields _ id r Hwf Hr) as (Hf & Ht & _ & Hi & _).
  destruct (CommitHealChunk_honest net id (scanGap (id, r)) x newNextTo goNow now false records t
    (set_gaps (upd (λ _, reopen_cond net from to) reopen_row) d)) as (d2 & Hrun & _ & _ & Howed & _);
    autorewrite with sierpe_simp; try done; try congruence; try lia.
  - by destruct d.
  - exists d2. split; [done|]. intros l Hl Hol. apply Howed in Hol as [_ Hno]. apply Hno.
    split; [done|]. lia.
Qed.

(** ** Witnesses and concrete runs *)

(** A chain in which every ledger updates one contract entry. *)
Definition demo_change (l : Z) : StateChange :=
  mkStateChange (pretty l) "CA" l (5 * l) (pretty l) 1 0 0 "updated" "K" "persistent" "" (pretty l).

Definition demo_chain (l : Z) : Records := mkRecords [] [demo_change l] [] [] [].

Lemma demo_chain_ok : chain_ok demo_net demo_chain.
Proof.
  split.
  - split; [intros i v j w (l & x & Hx & _)|intros i v w (l & x & Hx & _)];
      by apply elem_of_nil in Hx.
  - assert (Hx : ∀ i v, of_chain (rc_states ∘ demo_chain) sc_ID state_change_row_of i v →
              ∃ l, i = pretty l ∧ v = state_change_row_of (demo_change l)).
    { intros i v (l & x & ->%list_elem_of_singleton & <- & <-). by exists l. }
    split.
    + intros i v j w (l1 & -> & ->)%Hx (l2 & -> & ->)%Hx. unfold state_change_conflict. simpl.
      rewrite !andb_true_r. by rewrite bool_decide_eq_true.
    + intros i v w (l1 & -> & ->)%Hx (l2 & Heq & ->)%Hx. by apply (inj pretty) in Heq as ->.
  - split; [intros i v j w (l & x & Hx & _)|intros i v w (l & x & Hx & _)];
      by apply elem_of_nil in Hx.
  - split; [intros i v j w (l & x & Hx & _)|intros i v w (l & x & Hx & _)];
      by apply elem_of_nil in Hx.
  - by intros l c ->%list_elem_of_singleton.
  - intros l c Hx. by apply elem_of_nil in Hx.
  - intros l1 m1 l2 m2 Hx. by apply elem_of_nil in Hx.
Qed.

Definition demo_rec (l : Z) : LedgerRecord := mkLedgerRecord l (pretty l) (pretty (l - 1)) (5 * l).

(** The live loop commits 8, then a failing attempt at 9, then 8 again, 9, and
    finally a backfill of an unregistered contract, which is refused. *)
Definition demo_attempts : list (faults * Z * Commit) :=
  [(no_faults, 1, LiveCommit (demo_rec 8));
   ((λ n, if Nat.eqb n 3 then Some ErrSQL else None), 2, LiveCommit (demo_rec 9));
   (no_faults, 3, LiveCommit (demo_rec 8)); (no_faults, 4, LiveCommit (demo_rec 9));
   (no_faults, 5, BackfillCommit (mkBackfill "CA" 1 3 false None []) 4 7)].

Lemma commits_converge_witness :
  ∃ ranges d', run_attempts demo_net demo_chain demo_attempts [] empty_db = (ranges, d') ∧
    synced demo_net demo_chain (covered_by ranges) (get_tables d').
Proof.
  destruct (run_attempts demo_net demo_chain demo_attempts [] empty_db) as [ranges d'] eqn:Hrun.
  exists ranges, d'. split; [reflexivity|].
  apply (commits_converge demo_net demo_chain demo_attempts empty_db).
  - exact demo_chain_ok.
  - reflexivity.
  - exact Hrun.
Defined.

Example commits_demo :
  (λ r, (r.1, map fst (map_to_list (db_state_changes r.2)),
         map (λ kv, ser_last_ledger kv.2) (map_to_list (db_state_entries r.2)),
         option_map cur_Sequence (db_cursor r.2 !! demo_net)))
    (run_attempts demo_net demo_chain demo_attempts [] empty_db)
  = ([(9, 9); (8, 8); (8, 8)], [(demo_net, "9"); (demo_net, "8")], [9], Some 9).
Proof. vm_compute. reflexivity. Qed.

Lemma CommitLedger_atomic_witness :
  ∃ out d', BeginFunc no_faults 1 (CommitLedger demo_net (demo_rec 8) (demo_chain 8)) empty_db = (out, d')
    ∧ ((∃ e, out = Err e ∧ d' = empty_db) ∨ out = Ok tt).
Proof.
  destruct (BeginFunc no_faults 1 (CommitLedger demo_net (demo_rec 8) (demo_chain 8)) empty_db)
    as [out d'] eqn:Hb.
  exists out, d'. split; [reflexivity|].
  destruct (CommitLedger_atomic _ _ _ _ _ _ _ _ Hb) as [H|[H _]]; [left; exact H|right; exact H].
Defined.

Lemma CommitBackfillChunk_atomic_witness :
  ∃ out d', BeginFunc no_faults 1 (CommitBackfillChunk demo_net
      (mkBackfill "CB" 1 3 false None []) (demo_chain 4)) demo_walk_db = (out, d') ∧ out ≠ Ok tt.
Proof.
  destruct (BeginFunc no_faults 1 (CommitBackfillChunk demo_net
      (mkBackfill "CB" 1 3 false None []) (demo_chain 4)) demo_walk_db) as [out d'] eqn:Hb.
  exists out, d'. split; [reflexivity|].
  destruct (CommitBackfillChunk_atomic _ _ _ _ _ _ _ _ Hb) as [H _]. apply H.
  vm_compute. reflexivity.
Defined.

Definition demo_gap_row : gap_row := (demo_gap 64 300 None HealModeReplay).2.

Lemma demo_db_wf : gaps_wf (db_gaps demo_db).
Proof. apply gaps_wfb_sound. vm_compute. reflexivity. Qed.

Lemma CommitHealChunk_honest_witness :
  ∃ d', run 9 (CommitHealChunk demo_net (scanGap (gap_id demo_net 64 300, demo_gap_row)) 63 true 8
                (demo_chain 70)) demo_db = Ok (tt, d') ∧ gaps_wf (db_gaps d').
Proof.
  destruct (CommitHealChunk_honest demo_net (gap_id demo_net 64 300)
    (scanGap (gap_id demo_net 64 300, demo_gap_row)) demo_gap_row 63 8 9 true (demo_chain 70)
    (match add_records demo_net (demo_chain 70) no_tables with Ok t => t | Err _ => no_tables end)
    demo_db) as (d' & Hrun & _ & Hwf & _).
  - exact demo_db_wf.
  - vm_compute. reflexivity.
  - split; reflexivity.
  - reflexivity.
  - reflexivity.
  - reflexivity.
  - vm_compute. split; discriminate.
  - reflexivity.
  - vm_compute. reflexivity.
  - exists d'. split; [exact Hrun|exact Hwf].
Defined.

Lemma CommitHealChunk_undoes_reopen_witness :
  ∃ n d1 d2, run 9 (ReopenGaps demo_net 250 260) demo_db = Ok (n, d1) ∧
    owed (db_gaps d1) demo_net 280 ∧
    run 9 (CommitHealChunk demo_net (scanGap (gap_id demo_net 64 300, demo_gap_row)) 200 false 8
             (demo_chain 70)) d1 = Ok (tt, d2) ∧ ¬ owed (db_gaps d2) demo_net 280.
Proof.
  destruct (run 9 (ReopenGaps demo_net 250 260) demo_db) as [[n d1]|] eqn:Hre; [|discriminate].
  destruct (CommitHealChunk_undoes_reopen demo_net (gap_id demo_net 64 300) demo_gap_row
    250 260 200 9 8 (demo_chain 70)
    (match add_records demo_net (demo_chain 70) no_tables with Ok t => t | Err _ => no_tables end)
    demo_db n d1) as [H1 (d2 & Hrun & H2)].
  - exact demo_db_wf.
  - vm_compute. reflexivity.
  - split; reflexivity.
  - vm_compute. discriminate.
  - vm_compute. discriminate.
  - vm_compute. discriminate.
  - vm_compute. discriminate.
  - vm_compute. reflexivity.
  - exact Hre.
  - exists n, d1, d2. split; [reflexivity|]. split; [apply H1; simpl; lia|].
    split; [exact Hrun|]. apply H2. simpl. lia.
Defined.
