(* ===== verification/Registry.v ===== *)
(** * The watched contracts ([internal/registry/registry.go])

    An immutable snapshot of the registrations, rebuilt from the store.  The
    atomic pointer is the [rg_snap] field; a snapshot is a value, so readers
    share it freely. *)

From S2P Require Import Prelude Db Registrations.

(** ** Definitions *)

(** [Snapshot]: the map [byID]. *)
Definition Snapshot : Type := gmap string Contract.

Definition Watching (s : Snapshot) (contractID : string) : bool :=
  match s !! contractID with Some _ => true | None => false end.

Definition Get (s : Snapshot) (contractID : string) : option Contract := s !! contractID.

Definition Len (s : Snapshot) : nat := size s.

Definition AnyKind (s : Snapshot) (kind : string) : bool :=
  existsb (λ row, HasKind row.2 kind) (map_to_list s).

(** The loop [for _, c := range contracts { byID[c.ContractID] = c }]. *)
Definition byID (contracts : list Contract) : Snapshot :=
  foldl (λ (m : gmap string Contract) c, <[ct_ContractID c := c]> m) ∅ contracts.

Definition StaticSnapshot (contracts : list Contract) : Snapshot := byID contracts.

Record Registry := mkRegistry { rg_network : string; rg_snap : Snapshot }.

Definition New (network : string) : Registry := mkRegistry network ∅.

(** [Reload] with the store's answer to [ListContracts]. *)
Definition Reload_with (answer : res (list Contract)) (r : Registry) : res unit * Registry :=
  match answer with
  | Err e => (Err e, r)
  | Ok contracts => (Ok tt, mkRegistry (rg_network r) (byID contracts))
  end.

Definition Reload `{Collation} (fl : faults) (now : Z) (d : db) (r : Registry)
    : res unit * Registry :=
  Reload_with (BeginFunc fl now (ListContracts (rg_network r)) d).1 r.

(** [reloadRegistry] of [cmd/sierpe/main.go], over its ticks: what the server
    does to each reload, and the database it reads.  A failed reload is logged. *)
Definition reloadRegistry `{Collation} (ticks : list (faults * Z * db)) (r : Registry) : Registry :=
  foldl (λ r tick, (Reload tick.1.1 tick.1.2 tick.2 r).2) r ticks.

(** ** Lemmas *)

Lemma lookup_byID_notin cs (m : gmap string Contract) id :
  id ∉ ct_ContractID <$> cs → foldl (λ m c, <[ct_ContractID c := c]> m) m cs !! id = m !! id.
Proof.
  revert m. induction cs as [|c cs IH]; intros m; simpl; [done|].
  intros [? ?]%not_elem_of_cons. rewrite IH by done. by rewrite lookup_insert_ne.
Qed.

Lemma lookup_byID cs id c :
  NoDup (ct_ContractID <$> cs) → (byID cs : gmap string Contract) !! id = Some c ↔ c ∈ cs ∧ ct_ContractID c = id.
Proof.
  unfold byID. assert (Hgen : ∀ m : gmap string Contract, (∀ x, x ∈ ct_ContractID <$> cs → m !! x = None) →
    NoDup (ct_ContractID <$> cs) →
    foldl (λ m c, <[ct_ContractID c := c]> m) m cs !! id = Some c ↔
    (c ∈ cs ∧ ct_ContractID c = id) ∨ ((id ∉ ct_ContractID <$> cs) ∧ m !! id = Some c)).
  { induction cs as [|c0 cs IH]; intros m Hm Hnd; simpl.
    - rewrite !elem_of_nil. tauto.
    - simpl in Hnd. apply NoDup_cons in Hnd as [Hc0 Hnd]. rewrite IH; [|intros x Hx; rewrite lookup_insert_ne;
        [apply Hm; by right|intros Heq; by rewrite <- Heq in Hx]|done].
      rewrite !elem_of_cons. destruct (decide (ct_ContractID c0 = id)) as [<-|Hne].
      + rewrite lookup_insert_eq. split.
        * intros [[? ?]|[_ [= ->]]]; left; tauto.
        * intros [[[->|?] ?]|[Hno _]]; [by right|by left|]. destruct Hno. by left.
      + rewrite lookup_insert_ne by done. split.
        * intros [[? ?]|[? ?]]; [left; tauto|right]. split; [|done]. by intros [->|?].
        * intros [[[->|?] ?]|[Hno ?]]; [done|by left|right]. split; [|done]. intros ?. apply Hno. by right. }
  intros Hnd. rewrite Hgen; [|done|done]. rewrite lookup_empty. split; [by intros [?|[_ ?]]|by left].
Qed.

Lemma AnyKind_spec s kind :
  AnyKind s kind = true ↔ ∃ id c, s !! id = Some c ∧ HasKind c kind = true.
Proof.
  unfold AnyKind. rewrite existsb_exists. split.
  - intros ([id c] & Hin & ?). exists id, c. split; [|done].
    by apply elem_of_map_to_list, list_elem_of_In.
  - intros (id & c & ? & ?). exists (id, c). split; [|done].
    by apply list_elem_of_In, elem_of_map_to_list.
Qed.

(** The rows [ListContracts] returns. *)
Lemma run_ListContracts `{Collation} network now d :
  ∃ cs, run now (ListContracts network) d = Ok (cs, d) ∧
    NoDup (ct_ContractID <$> cs) ∧
    ∀ c, c ∈ cs ↔ ∃ row, db_contracts d !! (network, ct_ContractID c) = Some row ∧
                         c = contract_of ((network, ct_ContractID c), row).
Proof.
  eexists. split; [done|]. split.
  - rewrite order_by_perm, <- list_fmap_compose.
    pose proof (NoDup_sel (λ k _, bool_decide (k.1 = network)) (db_contracts d)) as Hnd.
    assert (Hnet : ∀ k x, (k, x) ∈ sel (λ k _, bool_decide (k.1 = network)) (db_contracts d) →
                     k.1 = network).
    { intros k x [_ Hk]%elem_of_sel. by apply bool_decide_eq_true in Hk. }
    induction (sel _ _) as [|[[n cid] x] l IH]; simpl; [constructor|].
    simpl in Hnd. apply NoDup_cons in Hnd as [Hk Hnd]. constructor.
    + intros ([[n2 cid2] x2] & Hcid & Hin)%list_elem_of_fmap. simpl in Hcid. subst cid2.
      assert (n = network) as -> by (apply (Hnet (n, cid) x); by left).
      assert (n2 = network) as -> by (apply (Hnet (n2, cid) x2); by right).
      apply Hk, list_elem_of_fmap. by exists ((network, cid), x2).
    + apply IH; [done|]. intros k y ?. apply (Hnet k y). by right.
  - intros c. rewrite elem_of_order_by, list_elem_of_fmap. split.
    + intros ([[n cid] x] & -> & [Hx Hn]%elem_of_sel). apply bool_decide_eq_true in Hn.
      simpl in *. subst n. by exists x.
    + intros (row & Hrow & Hc). exists ((network, ct_ContractID c), row). split; [done|].
      apply elem_of_sel. split; [done|]. by apply bool_decide_eq_true.
Qed.

(** ** Properties *)

(** After a successful [Reload] the snapshot is the store's registrations of
    the network: [Get] answers what [GetContract] would, [Watching] and
    [AnyKind] follow; when the store fails, the previous snapshot stays
    published. *)
Theorem Reload_correct `{Collation} (fl : faults) (now : Z) (d : db) (r r' : Registry)
    (out : res unit) :
  Reload fl now d r = (out, r') →
  (∃ e, out = Err e ∧ r' = r) ∨
  (out = Ok tt ∧ rg_network r' = rg_network r ∧
   (∀ id, match Get (rg_snap r') id with
          | Some c => run now (GetContract (rg_network r) id) d = Ok (c, d)
          | None => run now (GetContract (rg_network r) id) d = Err ErrNoContract
          end) ∧
   (∀ kind, AnyKind (rg_snap r') kind = true ↔
      ∃ id c, run now (GetContract (rg_network r) id) d = Ok (c, d) ∧ HasKind c kind = true)).
Proof.
  unfold Reload. destruct (BeginFunc_atomic fl now (ListContracts (rg_network r)) d)
    as [(e & ->)|(cs & d1 & -> & Hrun)]; simpl.
  { intros [= <- <-]. left. by exists e. }
  intros [= <- <-]. right. split_and!; try done.
  - destruct (run_ListContracts (rg_network r) now d) as (cs' & Hrun' & Hnd & Hcs).
    rewrite Hrun in Hrun'. injection Hrun' as <- _. simpl.
    assert (Hget : ∀ id, match Get (byID cs) id with
          | Some c => run now (GetContract (rg_network r) id) d = Ok (c, d)
          | None => run now (GetContract (rg_network r) id) d = Err ErrNoContract end); [|exact Hget].
    intros id. unfold Get, GetContract. simpl.
    destruct (byID cs !! id) as [c|] eqn:Hc.
    + apply lookup_byID in Hc as [Hin <-]; [|done]. apply Hcs in Hin as (row & Hrow & Hc).
      rewrite Hrow. simpl. by rewrite Hc at 2.
    + destruct (db_contracts d !! (rg_network r, id)) as [row|] eqn:Hrow; [|done].
      assert (byID cs !! id = Some (contract_of ((rg_network r, id), row))); [|congruence].
      apply lookup_byID; [done|]. split; [|done]. apply Hcs. by exists row.
  - destruct (run_ListContracts (rg_network r) now d) as (cs' & Hrun' & Hnd & Hcs).
    rewrite Hrun in Hrun'. injection Hrun' as <- _. simpl. intros kind.
    rewrite AnyKind_spec. unfold GetContract. simpl. split.
    + intros (id & c & [Hin <-]%lookup_byID & Hk); [|done].
      apply Hcs in Hin as (row & Hrow & Hc). exists (ct_ContractID c), c. rewrite Hrow. simpl.
      split; [|done]. by rewrite Hc at 2.
    + intros (id & c & Hget & Hk). exists id, c. split; [|done].
      destruct (db_contracts d !! (rg_network r, id)) as [row|] eqn:Hrow; [|done].
      simpl in Hget. injection Hget as <-. apply lookup_byID; [done|].
      split; [|done]. apply Hcs. by exists row.
Qed.

(** The reloader never loses a registry: its snapshot is the one it had, or what
    the store held at one of its ticks. *)
Theorem reloadRegistry_follows `{Collation} (ticks : list (faults * Z * db)) (r : Registry) :
  let r' := reloadRegistry ticks r in
  r' = r ∨ ∃ fl now d, (fl, now, d) ∈ ticks ∧
    ∀ id, match Get (rg_snap r') id with
          | Some c => run now (GetContract (rg_network r) id) d = Ok (c, d)
          | None => run now (GetContract (rg_network r) id) d = Err ErrNoContract
          end.
Proof.
  cbv zeta. assert (Hnet : rg_network (reloadRegistry ticks r) = rg_network r ∧
    (reloadRegistry ticks r = r ∨ ∃ fl now d, (fl, now, d) ∈ ticks ∧
      ∀ id, match Get (rg_snap (reloadRegistry ticks r)) id with
          | Some c => run now (GetContract (rg_network r) id) d = Ok (c, d)
          | None => run now (GetContract (rg_network r) id) d = Err ErrNoContract
          end)); [|by destruct Hnet].
  induction ticks as [|[[fl now] d] ticks IH] using rev_ind; [by split; [|left]|].
  unfold reloadRegistry in *. rewrite foldl_app. simpl. set (r1 := foldl _ r ticks) in *.
  destruct (Reload fl now d r1) as [out r2] eqn:Hr. simpl. destruct IH as [Hn IH].
  destruct (Reload_correct _ _ _ _ _ _ Hr) as [(e & _ & ->)|(_ & Hn2 & Hget & _)].
  - split; [done|]. destruct IH as [?|(fl' & now' & d' & Hin & Hget)]; [by left|right].
    exists fl', now', d'. split; [apply elem_of_app; by left|done].
  - split; [congruence|]. right. exists fl, now, d. split; [apply elem_of_app; right; by left|]. by rewrite <- Hn.
Qed.

Lemma Reload_correct_witness :
  ∃ out r', @Reload bytewise no_faults 1 demo_walk_db (New "testnet") = (out, r') ∧
            ((∃ e, out = Err e ∧ r' = New "testnet") ∨ out = Ok tt).
Proof.
  destruct (@Reload bytewise no_faults 1 demo_walk_db (New "testnet")) as [out r'] eqn:Hr.
  exists out, r'. split; [reflexivity|].
  destruct (Reload_correct _ _ _ _ _ _ Hr) as [H|[H _]]; [left; exact H|right; exact H].
Defined.
