(* ===== verification/Query.v ===== *)
(** * The read queries ([Query*], [EventCountsByName], [CountStateEntries])

    Each query selects rows of one contract, orders them and returns one page;
    an extra row says whether more match.  The specification is the walk a
    client makes: asking again after the last row of each page visits every
    matching row once, in order. *)

From S2P Require Import Prelude Db Rows.

(** ** Definitions *)

Section page.
Context {A K : Type} (key : A → K) (ltb : K → K → bool).

Definition row_ltb (a b : A) : bool := ltb (key a) (key b).

(** [ORDER BY key LIMIT limit+1], then the cut to [limit] rows; a negative
    LIMIT is rejected by the server and [out[:limit]] panics below zero. *)
Definition page (limit : Z) (rows : list A) : res (list A * bool) :=
  if limit + 1 <? 0 then Err ErrSQL
  else
    let out := take (Z.to_nat (limit + 1)) (order_by row_ltb rows) in
    if limit <? Z.of_nat (length out) then
      if limit <? 0 then Err ErrOther else Ok (take (Z.to_nat limit) out, true)
    else Ok (out, false).
End page.

(** A query is one statement over the tables. *)
Definition select_page {A K} (key : A → K) (ltb : K → K → bool) (limit : Z) (select : db → list A)
    : Tx (list A * bool) :=
  TStmt (λ _ d, match page key ltb limit (select d) with
                | Ok r => Ok (r, d)
                | Err e => Err e
                end) TRet.

(** An optional bound or filter of a query: absent when zero or empty. *)
Definition upto (to ledger : Z) : bool := if 0 <? to then ledger <=? to else true.
Definition from_on (from ledger : Z) : bool := if 0 <? from then from <=? ledger else true.
Definition matches (want : string) (have : option string) : bool :=
  if bool_decide (want = "") then true else bool_decide (have = Some want).

Section queries.
Context `{Collation}.

Definition after_text (after s : string) : bool :=
  if bool_decide (after = "") then true else text_ltb after s.

Definition text2_ltb : string * string → string * string → bool := lex_ltb text_ltb text_ltb.

Definition after_text2 (after1 after2 : string) (k : string * string) : bool :=
  if bool_decide (after1 = "") then true else text2_ltb (after1, after2) k.

(** *** Events *)
Record EventQuery := mkEventQuery {
  eq_ContractID : string; eq_Topics : list (option string);
  eq_FromLedger : Z; eq_ToLedger : Z; eq_AfterID : string; eq_Limit : Z }.

(** The [i]-th topic filter; the array has four of them. *)
Definition topic_ok (q : EventQuery) (i : nat) (column : option string) : bool :=
  match eq_Topics q !! i with
  | Some (Some t) => bool_decide (column = Some t)
  | _ => true
  end.

Definition scanEvent (row : (string * string) * event_row) : Event :=
  let '((_, id), r) := row in
  mkEvent id (er_contract_id r) (u32 (er_ledger_sequence r)) (er_closed_at r)
    (er_tx_hash r) (er_tx_index r) (er_op_index r) (er_event_index r)
    (coalesce (er_event_name r)) (er_topics r) (er_value_xdr r) (er_raw_xdr r).

Definition event_matches (network : string) (q : EventQuery) (k : string * string) (r : event_row)
    : bool :=
  bool_decide (k.1 = network) && bool_decide (er_contract_id r = eq_ContractID q)
  && (eq_FromLedger q <=? er_ledger_sequence r) && upto (eq_ToLedger q) (er_ledger_sequence r)
  && topic_ok q 0 (er_topic0 r) && topic_ok q 1 (er_topic1 r)
  && topic_ok q 2 (er_topic2 r) && topic_ok q 3 (er_topic3 r).

Definition QueryEvents (network : string) (q : EventQuery) : Tx (list Event * bool) :=
  select_page ev_ID text_ltb (eq_Limit q) (λ d,
    scanEvent <$> sel (λ k r, event_matches network q k r && after_text (eq_AfterID q) k.2)
                      (db_events d)).

(** [GROUP BY COALESCE(event_name, '')] *)
Definition EventCountsByName (network contractID : string) : Tx (gmap string Z) :=
  query (λ d, foldr (λ row m, <[coalesce (er_event_name row.2) :=
      default 0 (m !! coalesce (er_event_name row.2)) + 1]> m) ∅
    (sel (λ k r, bool_decide (k.1 = network) && bool_decide (er_contract_id r = contractID))
         (db_events d))).

(** *** State *)
Record StateQuery := mkStateQuery {
  sq_ContractID : string; sq_KeyXDR : string; sq_FromLedger : Z; sq_ToLedger : Z;
  sq_AfterID : string; sq_AfterKey : string; sq_AfterDurability : string; sq_Limit : Z }.

Definition scanStateEntry (row : (string * string * string * string) * state_entry_row)
    : StateEntry :=
  let '((_, cid, key, dur), r) := row in
  mkStateEntry cid key dur (coalesce (ser_value_xdr r)) (ser_deleted r)
    (u32 (ser_last_ledger r)) (ser_closed_at r).

Definition state_entry_matches (network : string) (q : StateQuery)
    (k : string * string * string * string) (r : state_entry_row) : bool :=
  let '(net, cid, key, _) := k in
  bool_decide (net = network) && bool_decide (cid = sq_ContractID q) && negb (ser_deleted r)
  && matches (sq_KeyXDR q) (Some key).

Definition QueryStateEntries (network : string) (q : StateQuery) : Tx (list StateEntry * bool) :=
  select_page (λ e, (se_KeyXDR e, se_Durability e)) text2_ltb (sq_Limit q) (λ d,
    scanStateEntry <$> sel (λ k r, state_entry_matches network q k r
        && after_text2 (sq_AfterKey q) (sq_AfterDurability q) (k.1.2, k.2)) (db_state_entries d)).

Definition scanStateChange (row : (string * string) * state_change_row) : StateChange :=
  let '((_, id), r) := row in
  mkStateChange id (scr_contract_id r) (u32 (scr_ledger_sequence r)) (scr_closed_at r)
    (scr_tx_hash r) (scr_tx_index r) (scr_op_index r) (scr_change_index r)
    (scr_change_type r) (scr_key_xdr r) (scr_durability r)
    (coalesce (scr_pre_xdr r)) (coalesce (scr_post_xdr r)).

Definition state_change_matches (network : string) (q : StateQuery) (k : string * string)
    (r : state_change_row) : bool :=
  bool_decide (k.1 = network) && bool_decide (scr_contract_id r = sq_ContractID q)
  && from_on (sq_FromLedger q) (scr_ledger_sequence r)
  && upto (sq_ToLedger q) (scr_ledger_sequence r)
  && matches (sq_KeyXDR q) (Some (scr_key_xdr r)).

Definition QueryStateChanges (network : string) (q : StateQuery) : Tx (list StateChange * bool) :=
  select_page sc_ID text_ltb (sq_Limit q) (λ d,
    scanStateChange <$> sel (λ k r, state_change_matches network q k r
        && after_text (sq_AfterID q) k.2) (db_state_changes d)).

Definition CountStateEntries (network contractID : string) : Tx Z :=
  query (λ d, affected (λ k r, bool_decide (k.1.1.1 = network)
    && bool_decide (k.1.1.2 = contractID) && negb (ser_deleted r)) (db_state_entries d)).

(** *** Transfers *)
Record TransferQuery := mkTransferQuery {
  tq_ContractID : string; tq_Account : string; tq_From : string; tq_To : string;
  tq_TransferType : string; tq_FromLedger : Z; tq_ToLedger : Z; tq_AfterID : string;
  tq_Limit : Z }.

Definition scanTransfer (row : (string * string) * transfer_row) : Transfer :=
  let '((_, id), r) := row in
  mkTransfer id (trr_contract_id r) (u32 (trr_ledger_sequence r)) (trr_closed_at r)
    (trr_tx_hash r) (trr_tx_index r) (trr_op_index r) (trr_event_index r)
    (trr_transfer_type r) (coalesce (trr_from_address r)) (coalesce (trr_to_address r))
    (coalesce (trr_to_muxed_id r)) (trr_amount r) (coalesce (trr_asset r)).

Definition transfer_matches (network : string) (q : TransferQuery) (k : string * string)
    (r : transfer_row) : bool :=
  bool_decide (k.1 = network) && bool_decide (trr_contract_id r = tq_ContractID q)
  && (tq_FromLedger q <=? trr_ledger_sequence r) && upto (tq_ToLedger q) (trr_ledger_sequence r)
  && matches (tq_TransferType q) (Some (trr_transfer_type r))
  && (matches (tq_Account q) (trr_from_address r) || matches (tq_Account q) (trr_to_address r))
  && matches (tq_From q) (trr_from_address r) && matches (tq_To q) (trr_to_address r).

Definition QueryTransfers (network : string) (q : TransferQuery) : Tx (list Transfer * bool) :=
  select_page tr_ID text_ltb (tq_Limit q) (λ d,
    scanTransfer <$> sel (λ k r, transfer_matches network q k r
        && after_text (tq_AfterID q) k.2) (db_transfers d)).

(** *** Trustlines *)
Record TrustlineQuery := mkTrustlineQuery {
  lq_ContractID : string; lq_AccountID : string; lq_FromLedger : Z; lq_ToLedger : Z;
  lq_AfterID : string; lq_AfterAccount : string; lq_Limit : Z }.

(** The entry scan leaves [Deleted] at its zero value. *)
Definition scanTrustlineEntry (row : (string * string * string) * trustline_entry_row)
    : TrustlineEntry :=
  let '((_, cid, acc), r) := row in
  mkTrustlineEntry cid acc (ter_asset r) (ter_balance r) (ter_trust_limit r)
    (u32 (ter_flags r)) false (u32 (ter_last_ledger r)) (ter_closed_at r).

Definition trustline_entry_matches (network : string) (q : TrustlineQuery)
    (k : string * string * string) (r : trustline_entry_row) : bool :=
  let '(net, cid, acc) := k in
  bool_decide (net = network) && bool_decide (cid = lq_ContractID q) && negb (ter_deleted r)
  && matches (lq_AccountID q) (Some acc).

Definition QueryTrustlineEntries (network : string) (q : TrustlineQuery)
    : Tx (list TrustlineEntry * bool) :=
  select_page te_AccountID text_ltb (lq_Limit q) (λ d,
    scanTrustlineEntry <$> sel (λ k r, trustline_entry_matches network q k r
        && after_text (lq_AfterAccount q) k.2) (db_trustline_entries d)).

Definition scanTrustlineChange (row : (string * string) * trustline_change_row)
    : TrustlineChange :=
  let '((_, id), r) := row in
  mkTrustlineChange id (tlr_contract_id r) (tlr_account_id r) (tlr_asset r)
    (u32 (tlr_ledger_sequence r)) (tlr_closed_at r) (tlr_tx_hash r) (tlr_tx_index r)
    (tlr_op_index r) (tlr_change_index r) (tlr_change_type r)
    (tlr_pre_balance r) (tlr_post_balance r) (tlr_pre_limit r) (tlr_post_limit r)
    (u32 (tlr_flags r)).

Definition trustline_change_matches (network : string) (q : TrustlineQuery) (k : string * string)
    (r : trustline_change_row) : bool :=
  bool_decide (k.1 = network) && bool_decide (tlr_contract_id r = lq_ContractID q)
  && (lq_FromLedger q <=? tlr_ledger_sequence r) && upto (lq_ToLedger q) (tlr_ledger_sequence r)
  && matches (lq_AccountID q) (Some (tlr_account_id r)).

Definition QueryTrustlineChanges (network : string) (q : TrustlineQuery)
    : Tx (list TrustlineChange * bool) :=
  select_page tl_ID text_ltb (lq_Limit q) (λ d,
    scanTrustlineChange <$> sel (λ k r, trustline_change_matches network q k r
        && after_text (lq_AfterID q) k.2) (db_trustline_changes d)).

(** *** Movements *)
Record MovementQuery := mkMovementQuery {
  mq_ContractID : string; mq_Role : string; mq_Token : string; mq_Type : string;
  mq_FromLedger : Z; mq_ToLedger : Z; mq_AfterID : string; mq_AfterRole : string;
  mq_Limit : Z }.

Definition scanMovement (row : (string * string * string * string) * movement_row) : Movement :=
  let '((_, cid, tid, role), r) := row in
  mkMovement cid tid role (mvr_token_contract_id r) (mvr_transfer_type r)
    (coalesce (mvr_counterparty r)) (mvr_amount r) (coalesce (mvr_raw_xdr r))
    (u32 (mvr_ledger_sequence r)) (mvr_closed_at r).

Definition movement_matches (network : string) (q : MovementQuery)
    (k : string * string * string * string) (r : movement_row) : bool :=
  let '(net, cid, tid, role) := k in
  bool_decide (net = network) && bool_decide (cid = mq_ContractID q)
  && (mq_FromLedger q <=? mvr_ledger_sequence r) && upto (mq_ToLedger q) (mvr_ledger_sequence r)
  && matches (mq_Role q) (Some role) && matches (mq_Token q) (Some (mvr_token_contract_id r))
  && matches (mq_Type q) (Some (mvr_transfer_type r)).

Definition QueryMovements (network : string) (q : MovementQuery) : Tx (list Movement * bool) :=
  select_page (λ m, (mv_TransferID m, mv_Role m)) text2_ltb (mq_Limit q) (λ d,
    scanMovement <$> sel (λ k r, movement_matches network q k r
        && after_text2 (mq_AfterID q) (mq_AfterRole q) (k.1.2, k.2)) (db_movements d)).
End queries.

(** ** Walking the pages *)

(** A client's walk: fetch after the last row seen until no more match. *)
Fixpoint walk {A K} (key : A → K) (fetch : option K → res (list A * bool)) (fuel : nat)
    (after : option K) : res (list A) :=
  match fuel with
  | O => Err ErrOther
  | S fuel =>
      match fetch after with
      | Err e => Err e
      | Ok (rows, false) => Ok rows
      | Ok (rows, true) =>
          match walk key fetch fuel (match last rows with Some r => Some (key r) | None => after end) with
          | Ok rest => Ok (rows ++ rest)
          | Err e => Err e
          end
      end
  end.

Section walking.
Context {A K : Type} (key : A → K) (ltb : K → K → bool) `{!StrictTest ltb}.
Context (limit : Z) (Hlimit : 1 ≤ limit).
Context (all : list A) (Hnd : NoDup (key <$> all)).

Definition above (after : option K) (a : A) : bool :=
  match after with None => true | Some k => ltb k (key a) end.

Abbreviation R := (λ a b, ltb (key a) (key b) = true).

Lemma filter_sorted {B} (S : relation B) (P : B → Prop) `{∀ x, Decision (P x)} l :
  StronglySorted S l → StronglySorted S (filter P l).
Proof.
  induction 1 as [|x l Hs IH Hall]; [constructor|]. rewrite filter_cons.
  case_decide; [|done]. constructor; [done|]. rewrite Forall_forall in Hall |- *.
  intros y [_ ?]%list_elem_of_filter. by apply Hall.
Qed.

(** [order_by] on rows with distinct keys sorts strictly by key. *)
Lemma order_by_key l : NoDup (key <$> l) → StronglySorted R (order_by (row_ltb key ltb) l).
Proof.
  intros Hl. assert (Hs : StronglySorted (not_above (row_ltb key ltb)) (order_by (row_ltb key ltb) l)).
  { apply StronglySorted_merge_sort.
    - intros x y z. unfold row_ltb. intros Hxy Hyz.
      eapply (not_above_trans ltb); [exact Hxy|exact Hyz].
    - intros x y. unfold not_above, row_ltb.
      destruct (st_total ltb (key x) (key y)) as [->|[Hxy|Hxy]];
        [left; apply (st_irrefl ltb)|left; by apply st_asym|right; by apply st_asym]. }
  assert (Hp : NoDup (key <$> order_by (row_ltb key ltb) l)) by (by rewrite order_by_perm).
  induction Hs as [|x l' Hs IH Hall]; constructor.
  - apply IH. by apply NoDup_cons in Hp as [_ ?].
  - apply NoDup_cons in Hp as [Hx _]. rewrite Forall_forall in Hall |- *. intros y Hy.
    specialize (Hall y Hy). destruct (proj1 (not_above_spec ltb (key x) (key y)) Hall) as [He|]; [|done].
    destruct Hx. rewrite He. by apply list_elem_of_fmap_2.
Qed.

Lemma sorted_unique l1 l2 : StronglySorted R l1 → StronglySorted R l2 → l1 ≡ₚ l2 → l1 = l2.
Proof.
  intros H1 H2. apply StronglySorted_unique_strong with (R := R); [|done..].
  intros x1 x2 _ _ Hx Hy. by rewrite (st_asym ltb _ _ Hx) in Hy.
Qed.

Abbreviation full := (order_by (row_ltb key ltb) all).

Lemma NoDup_key_filter (P : A → Prop) `{∀ x, Decision (P x)} l :
  NoDup (key <$> l) → NoDup (key <$> filter P l).
Proof.
  intros Hl. eapply sublist_NoDup; [exact Hl|]. apply fmap_sublist, sublist_filter.
Qed.

Lemma order_by_filter after :
  order_by (row_ltb key ltb) (filter (λ a, above after a = true) all) =
  filter (λ a, above after a = true) full.
Proof.
  apply sorted_unique.
  - by apply order_by_key, NoDup_key_filter.
  - by apply filter_sorted, order_by_key.
  - rewrite order_by_perm. by rewrite order_by_perm.
Qed.

(** After the last row of a prefix comes the rest. *)
Lemma above_suffix pre x post :
  full = pre ++ x :: post → filter (λ a, above (Some (key x)) a = true) full = post.
Proof.
  intros Hf. pose proof (order_by_key all Hnd) as Hs. rewrite Hf in Hs |- *.
  rewrite filter_app, filter_cons. simpl.
  rewrite decide_False by (by rewrite (st_irrefl ltb)).
  apply StronglySorted_app in Hs as (Hcross & _ & [Hpost _]%StronglySorted_cons).
  rewrite Forall_forall in Hpost. rewrite filter_none, filter_every; [done|done|].
  intros y Hy Hlt. specialize (Hcross y x Hy ltac:(by left)). simpl in Hcross.
  by rewrite (st_asym ltb _ _ Hcross) in Hlt.
Qed.

Lemma page_spec after pre post :
  full = pre ++ post → filter (λ a, above after a = true) full = post →
  page key ltb limit (filter (λ a, above after a = true) all) =
  Ok (take (Z.to_nat limit) post, bool_decide (limit < Z.of_nat (length post))).
Proof.
  intros Hf Hp. unfold page. rewrite order_by_filter, Hp.
  destruct (Z.ltb_spec (limit + 1) 0); [lia|].
  rewrite length_take. case_bool_decide as Hc.
  - destruct (Z.ltb_spec limit (Z.of_nat (Z.to_nat (limit + 1) `min` length post))); [|lia].
    destruct (Z.ltb_spec limit 0); [lia|]. rewrite take_take.
    by replace (Z.to_nat limit `min` Z.to_nat (limit + 1))%nat with (Z.to_nat limit) by lia.
  - destruct (Z.ltb_spec limit (Z.of_nat (Z.to_nat (limit + 1) `min` length post))); [lia|].
    rewrite !take_ge by lia. done.
Qed.

(** The positions a walk resumes from: the start, or a row it has seen. *)
Definition resumable (after : option K) : Prop :=
  match after with None => True | Some k => k ∈ key <$> all end.

(** Every walk ends, and visits the matching rows once, in order. *)
Lemma walk_complete fetch fuel :
  (∀ after, resumable after → fetch after = page key ltb limit (filter (λ a, above after a = true) all)) →
  (length all < fuel)%nat →
  walk key fetch fuel None = Ok full.
Proof.
  intros Hfetch Hfuel.
  assert (Hgen : ∀ fuel after pre post, full = pre ++ post → resumable after →
    filter (λ a, above after a = true) full = post → (length post < fuel)%nat →
    walk key fetch fuel after = Ok post).
  { clear fuel Hfuel. intros fuel. induction fuel as [|fuel IH]; intros after pre post Hf Ha Hp Hl; [lia|].
    simpl. rewrite Hfetch, (page_spec after pre post Hf Hp) by done. case_bool_decide as Hc.
    - destruct (last (take (Z.to_nat limit) post)) as [x|] eqn:Hx.
      + apply last_Some in Hx as (l' & Hx).
        assert (Hpost : post = l' ++ x :: drop (Z.to_nat limit) post).
        { rewrite <- (take_drop (Z.to_nat limit) post) at 1. by rewrite Hx, <- app_assoc. }
        rewrite (IH (Some (key x)) (pre ++ l' ++ [x]) (drop (Z.to_nat limit) post)).
        * by rewrite take_drop.
        * rewrite Hf, <- app_assoc. f_equal. rewrite <- app_assoc. done.
        * simpl. apply list_elem_of_fmap_2, (elem_of_order_by (row_ltb key ltb)).
          rewrite Hf, Hpost. apply elem_of_app. right. apply elem_of_app. right. by left.
        * apply (above_suffix (pre ++ l')). rewrite Hf, <- app_assoc. by f_equal.
        * rewrite length_drop. lia.
      + apply last_None in Hx. assert (length (take (Z.to_nat limit) post) = 0%nat) by by rewrite Hx.
        rewrite length_take in *. lia.
    - by rewrite take_ge by lia. }
  apply (Hgen fuel None []); [done|done| |].
  - by apply filter_every.
  - rewrite (Permutation_length (order_by_perm _ _)). done.
Qed.
End walking.

(** ** Selections *)

Section selecting.
Context `{Countable K0} {V A K : Type} (m : gmap K0 V) (P : K0 → V → bool).
Context (scan : K0 * V → A) (key : A → K) (ltb : K → K → bool) `{!StrictTest ltb}.

Lemma fmap_filter_scan (Q : K0 * V → bool) (Q' : A → bool) (l : list (K0 * V)) :
  (∀ kv, kv ∈ l → Q kv = Q' (scan kv)) →
  scan <$> filter (λ kv, Q kv = true) l = filter (λ a, Q' a = true) (scan <$> l).
Proof.
  induction l as [|kv l IH]; intros Hq; [done|].
  rewrite fmap_cons, !filter_cons, (Hq kv) by (by left).
  rewrite <- IH by (intros; apply Hq; by right). by case_decide.
Qed.

Lemma sel_and (Q : K0 → V → bool) :
  sel (λ k r, P k r && Q k r) m = filter (λ kv, Q kv.1 kv.2 = true) (sel P m).
Proof.
  unfold sel. rewrite list_filter_filter. apply list_filter_iff.
  intros [k v]. simpl. rewrite andb_true_iff. tauto.
Qed.

Context (Hinj : ∀ kv1 kv2, kv1 ∈ sel P m → kv2 ∈ sel P m →
           key (scan kv1) = key (scan kv2) → kv1.1 = kv2.1).

Lemma select_NoDup : NoDup (key <$> (scan <$> sel P m)).
Proof.
  rewrite <- list_fmap_compose.
  assert (Hgen : ∀ l, (∀ kv, kv ∈ l → kv ∈ sel P m) → NoDup l.*1 → NoDup (key ∘ scan <$> l)).
  { induction l as [|kv l IH]; intros Hin Hnd; [constructor|].
    rewrite fmap_cons in Hnd. apply NoDup_cons in Hnd as [Hk Hnd]. rewrite fmap_cons. constructor.
    - intros (kv2 & Heq & Hkv2)%list_elem_of_fmap. apply Hk, list_elem_of_fmap. exists kv2.
      split; [|done]. apply Hinj; [apply Hin; by left|apply Hin; by right|exact Heq].
    - apply IH; [|done]. intros kv2 ?. apply Hin. by right. }
  apply Hgen; [done|apply NoDup_sel].
Qed.

(** The walk over any query of this shape. *)
Lemma select_walk limit fuel fetch (after_ok : option K → K0 → V → bool) :
  1 ≤ limit →
  (∀ after k v, resumable key (scan <$> sel P m) after → (k, v) ∈ sel P m →
     after_ok after k v = above key ltb after (scan (k, v))) →
  (∀ after, fetch after = page key ltb limit (scan <$> sel (λ k v, P k v && after_ok after k v) m)) →
  (size m < fuel)%nat →
  ∃ rows, walk key fetch fuel None = Ok rows ∧
    StronglySorted (λ a b, ltb (key a) (key b) = true) rows ∧
    ∀ a, a ∈ rows ↔ ∃ k v, m !! k = Some v ∧ P k v = true ∧ a = scan (k, v).
Proof.
  intros Hl Hafter Hfetch Hfuel.
  assert (Hlen : (length (sel P m) ≤ size m)%nat).
  { unfold sel. rewrite <- length_map_to_list. apply length_filter. }
  exists (order_by (row_ltb key ltb) (scan <$> sel P m)). split_and!.
  - apply (walk_complete key ltb limit); [done|apply select_NoDup| |rewrite length_fmap; lia].
    intros after Ha. rewrite Hfetch, sel_and. f_equal. apply fmap_filter_scan.
    intros [k v] Hkv. simpl. by apply Hafter.
  - apply order_by_key; [done|apply select_NoDup].
  - intros a. rewrite elem_of_order_by, list_elem_of_fmap. split.
    + intros ([k v] & -> & [? ?]%elem_of_sel). by exists k, v.
    + intros (k & v & ? & ? & ->). exists (k, v). split; [done|]. by apply elem_of_sel.
Qed.
End selecting.

Definition fetched {A} (r : res (A * db)) : res A :=
  match r with Ok (a, _) => Ok a | Err e => Err e end.

Lemma fetched_select_page {A K} (key : A → K) ltb limit select now d :
  fetched (run now (select_page key ltb limit select) d) = page key ltb limit (select d).
Proof. unfold select_page. simpl. by destruct (page _ _ _ _) as [[? ?]|]. Qed.

(** The requests a client's walk makes: the same query after the last row. *)
Definition resume_events (q : EventQuery) (after : option string) : EventQuery :=
  mkEventQuery (eq_ContractID q) (eq_Topics q) (eq_FromLedger q) (eq_ToLedger q)
    (default "" after) (eq_Limit q).

Definition resume_entries (q : StateQuery) (after : option (string * string)) : StateQuery :=
  mkStateQuery (sq_ContractID q) (sq_KeyXDR q) (sq_FromLedger q) (sq_ToLedger q) (sq_AfterID q)
    (default "" (fst <$> after)) (default "" (snd <$> after)) (sq_Limit q).

Definition resume_movements (q : MovementQuery) (after : option (string * string)) : MovementQuery :=
  mkMovementQuery (mq_ContractID q) (mq_Role q) (mq_Token q) (mq_Type q) (mq_FromLedger q)
    (mq_ToLedger q) (default "" (fst <$> after)) (default "" (snd <$> after)) (mq_Limit q).

(** ** Properties *)

Section properties.
Context {C : Collation}.

Definition walk_events (network : string) (q : EventQuery) (fuel : nat) (d : db) : res (list Event) :=
  walk ev_ID (λ after, fetched (run 0 (QueryEvents network (resume_events q after)) d)) fuel None.

Definition walk_entries (network : string) (q : StateQuery) (fuel : nat) (d : db) : res (list StateEntry) :=
  walk (λ e, (se_KeyXDR e, se_Durability e))
    (λ after, fetched (run 0 (QueryStateEntries network (resume_entries q after)) d)) fuel None.

Definition walk_movements (network : string) (q : MovementQuery) (fuel : nat) (d : db)
    : res (list Movement) :=
  walk (λ m, (mv_TransferID m, mv_Role m))
    (λ after, fetched (run 0 (QueryMovements network (resume_movements q after)) d)) fuel None.
End properties.

(** What the fixed columns of a selection pin down. *)
Lemma event_matches_key network q k r : event_matches network q k r = true → k.1 = network.
Proof. unfold event_matches. rewrite !andb_true_iff, !bool_decide_eq_true. tauto. Qed.

Lemma state_change_matches_key network q k r : state_change_matches network q k r = true → k.1 = network.
Proof. unfold state_change_matches. rewrite !andb_true_iff, !bool_decide_eq_true. tauto. Qed.

Lemma transfer_matches_key network q k r : transfer_matches network q k r = true → k.1 = network.
Proof. unfold transfer_matches. rewrite !andb_true_iff, !bool_decide_eq_true. tauto. Qed.

Lemma trustline_change_matches_key network q k r : trustline_change_matches network q k r = true → k.1 = network.
Proof. unfold trustline_change_matches. rewrite !andb_true_iff, !bool_decide_eq_true. tauto. Qed.

Lemma state_entry_matches_key network q k r :
  state_entry_matches network q k r = true → k.1.1 = (network, sq_ContractID q).
Proof.
  destruct k as [[[n c] ?] ?]. unfold state_entry_matches.
  rewrite !andb_true_iff, !bool_decide_eq_true. simpl. intuition congruence.
Qed.

Lemma movement_matches_key network q k r :
  movement_matches network q k r = true → k.1.1 = (network, mq_ContractID q).
Proof.
  destruct k as [[[n c] ?] ?]. unfold movement_matches.
  rewrite !andb_true_iff, !bool_decide_eq_true. simpl. intuition congruence.
Qed.

Lemma after_text_above `{C : Collation} (after : option string) s :
  (∀ a, after = Some a → a ≠ "") →
  after_text (default "" after) s = match after with None => true | Some a => text_ltb a s end.
Proof.
  intros Ha. unfold after_text. destruct after as [a|]; simpl; [|done].
  rewrite bool_decide_eq_false_2; [done|]. by apply Ha.
Qed.

Lemma after_text2_above `{C : Collation} (after : option (string * string)) k :
  (∀ a, after = Some a → a.1 ≠ "") →
  after_text2 (default "" (fst <$> after)) (default "" (snd <$> after)) k =
  match after with None => true | Some a => text2_ltb a k end.
Proof.
  intros Ha. unfold after_text2. destruct after as [[a b]|]; simpl; [|done].
  rewrite bool_decide_eq_false_2; [done|]. by apply (Ha (a, b)).
Qed.

#[export] Instance text2_test (C : Collation) : CollationOrder C → StrictTest text2_ltb.
Proof. intros ?. unfold text2_ltb. apply _. Qed.

(** C30.  Paging over events is complete and never repeats: for every collation
    and every page size, following the last id of each page ends and returns
    exactly the stored events of the contract that match the query, each once,
    in id order. *)
Theorem walk_events_complete (C : Collation) (network : string) (q : EventQuery) (fuel : nat) (d : db) :
  CollationOrder C → 1 ≤ eq_Limit q → (size (db_events d) < fuel)%nat →
  (∀ k r, db_events d !! k = Some r → k.2 ≠ "") →
  ∃ events, walk_events network q fuel d = Ok events ∧
    StronglySorted (λ a b, text_ltb (ev_ID a) (ev_ID b) = true) events ∧
    ∀ e, e ∈ events ↔ ∃ k r, db_events d !! k = Some r ∧
      event_matches network q k r = true ∧ e = scanEvent (k, r).
Proof.
  intros HC Hl Hfuel Hne.
  apply (select_walk (db_events d) (event_matches network q) scanEvent ev_ID text_ltb)
    with (after_ok := λ after k (_ : event_row), after_text (default "" after) k.2)
         (limit := eq_Limit q); try done.
  - intros [[n1 i1] r1] [[n2 i2] r2] [_ H1%event_matches_key]%elem_of_sel
      [_ H2%event_matches_key]%elem_of_sel. simpl in *. congruence.
  - intros after [n i] r Ha [Hr _]%elem_of_sel. simpl. rewrite after_text_above; [done|].
    intros a ->. simpl in Ha. apply list_elem_of_fmap in Ha as (e & -> & He).
    apply list_elem_of_fmap in He as ([[n2 i2] r2] & -> & [Hr2 _]%elem_of_sel).
    by apply Hne in Hr2.
  - intros after. etransitivity; [apply fetched_select_page|done].
Qed.

(** The state snapshot pages over the compound key (entry key,
    durability): the walk ends and returns exactly the live entries of the
    contract, tombstones excluded, each once, in key order. *)
Theorem walk_entries_complete (C : Collation) (network : string) (q : StateQuery) (fuel : nat) (d : db) :
  CollationOrder C → 1 ≤ sq_Limit q → (size (db_state_entries d) < fuel)%nat →
  (∀ k r, db_state_entries d !! k = Some r → k.1.2 ≠ "") →
  ∃ entries, walk_entries network q fuel d = Ok entries ∧
    StronglySorted (λ a b, text2_ltb (se_KeyXDR a, se_Durability a) (se_KeyXDR b, se_Durability b) = true)
      entries ∧
    ∀ e, e ∈ entries ↔ ∃ k r, db_state_entries d !! k = Some r ∧
      state_entry_matches network q k r = true ∧ e = scanStateEntry (k, r).
Proof.
  intros HC Hl Hfuel Hne.
  apply (select_walk (db_state_entries d) (state_entry_matches network q) scanStateEntry
    (λ e, (se_KeyXDR e, se_Durability e)) text2_ltb)
    with (after_ok := λ after k (_ : state_entry_row),
            after_text2 (default "" (fst <$> after)) (default "" (snd <$> after)) (k.1.2, k.2))
         (limit := sq_Limit q); try done.
  - intros [[[[n1 c1] k1] d1] r1] [[[[n2 c2] k2] d2] r2] [_ H1%state_entry_matches_key]%elem_of_sel
      [_ H2%state_entry_matches_key]%elem_of_sel. simpl in *. congruence.
  - intros after [[[n c] k] du] r Ha [Hr _]%elem_of_sel. rewrite after_text2_above; [by destruct after|].
    intros a ->. simpl in Ha. apply list_elem_of_fmap in Ha as (e & -> & He).
    apply list_elem_of_fmap in He as ([[[[n2 c2] k2] d2] r2] & -> & [Hr2 _]%elem_of_sel).
    by apply Hne in Hr2.
  - intros after. etransitivity; [apply fetched_select_page|done].
Qed.

(** Movements page over (transfer id, role): a self-transfer's two
    attributions are both returned even when a page boundary falls between
    them, and every matching movement is returned once. *)
Theorem walk_movements_complete (C : Collation) (network : string) (q : MovementQuery) (fuel : nat) (d : db) :
  CollationOrder C → 1 ≤ mq_Limit q → (size (db_movements d) < fuel)%nat →
  (∀ k r, db_movements d !! k = Some r → k.1.2 ≠ "") →
  ∃ ms, walk_movements network q fuel d = Ok ms ∧
    StronglySorted (λ a b, text2_ltb (mv_TransferID a, mv_Role a) (mv_TransferID b, mv_Role b) = true)
      ms ∧
    ∀ e, e ∈ ms ↔ ∃ k r, db_movements d !! k = Some r ∧
      movement_matches network q k r = true ∧ e = scanMovement (k, r).
Proof.
  intros HC Hl Hfuel Hne.
  apply (select_walk (db_movements d) (movement_matches network q) scanMovement
    (λ m, (mv_TransferID m, mv_Role m)) text2_ltb)
    with (after_ok := λ after k (_ : movement_row),
            after_text2 (default "" (fst <$> after)) (default "" (snd <$> after)) (k.1.2, k.2))
         (limit := mq_Limit q); try done.
  - intros [[[[n1 c1] k1] d1] r1] [[[[n2 c2] k2] d2] r2] [_ H1%movement_matches_key]%elem_of_sel
      [_ H2%movement_matches_key]%elem_of_sel. simpl in *. congruence.
  - intros after [[[n c] k] du] r Ha [Hr _]%elem_of_sel. rewrite after_text2_above; [by destruct after|].
    intros a ->. simpl in Ha. apply list_elem_of_fmap in Ha as (e & -> & He).
    apply list_elem_of_fmap in He as ([[[[n2 c2] k2] d2] r2] & -> & [Hr2 _]%elem_of_sel).
    by apply Hne in Hr2.
  - intros after. etransitivity; [apply fetched_select_page|done].
Qed.

(** ** Witnesses and concrete runs *)

Definition demo_event (id : string) (ledger idx : Z) : Event :=
  mkEvent id "CA" ledger (5 * ledger) "tx" 1 0 idx "ping" ["AAAA"; "BBBB"] "" "".

Definition demo_movement (role : string) : Movement :=
  mkMovement "CA" "0001-1" role "CT" "transfer" "CA" "7" "" 3 15.

Definition demo_rows_db : db :=
  match run 0 (insertRecords "testnet"
      (mkRecords [demo_event "0001-1" 3 1; demo_event "0003-1" 5 3; demo_event "0002-1" 4 2]
         [mkStateChange "0001-1" "CA" 3 15 "tx" 1 0 1 "created" "K1" "persistent" "" "V1";
          mkStateChange "0001-2" "CA" 3 15 "tx" 1 0 2 "created" "K2" "persistent" "" "V2";
          mkStateChange "0002-1" "CA" 4 20 "ty" 1 0 1 "removed" "K2" "persistent" "V2" ""]
         [] [] [demo_movement "sender"; demo_movement "recipient"])) empty_db with
  | Ok (_, d) => d
  | Err _ => empty_db
  end.

Definition demo_event_query : EventQuery := mkEventQuery "CA" [None; Some "BBBB"] 4 0 "" 1.

Lemma walk_events_complete_witness :
  ∃ events, @walk_events bytewise "testnet" demo_event_query 9 demo_rows_db = Ok events ∧
    (demo_event "0002-1" 4 2 ∈ events).
Proof.
  destruct (walk_events_complete bytewise "testnet" demo_event_query 9 demo_rows_db)
    as (events & Hw & _ & Hin).
  - exact bytewise_order.
  - vm_compute. discriminate.
  - apply (bool_decide_unpack (size (db_events demo_rows_db) < 9)%nat). vm_compute. exact I.
  - refine (bool_decide_unpack (map_Forall (λ k _, k.2 ≠ "") (db_events demo_rows_db)) _).
    vm_compute. exact I.
  - exists events. split; [exact Hw|]. apply Hin.
    exists ("testnet", "0002-1"), (event_row_of (demo_event "0002-1" 4 2)).
    split; [vm_compute; reflexivity|]. split; vm_compute; reflexivity.
Defined.

Example walk_events_demo :
  (match @walk_events bytewise "testnet" demo_event_query 9 demo_rows_db with
   | Ok events => map ev_ID events | Err _ => [] end) = ["0002-1"; "0003-1"].
Proof. vm_compute. reflexivity. Qed.

Lemma walk_entries_complete_witness :
  ∃ entries, @walk_entries bytewise "testnet" (mkStateQuery "CA" "" 0 0 "" "" "" 1) 9 demo_rows_db
             = Ok entries.
Proof.
  destruct (walk_entries_complete bytewise "testnet" (mkStateQuery "CA" "" 0 0 "" "" "" 1) 9
    demo_rows_db) as (entries & Hw & _).
  - exact bytewise_order.
  - vm_compute. discriminate.
  - apply (bool_decide_unpack (size (db_state_entries demo_rows_db) < 9)%nat). vm_compute. exact I.
  - refine (bool_decide_unpack (map_Forall (λ k _, k.1.2 ≠ "") (db_state_entries demo_rows_db)) _).
    vm_compute. exact I.
  - exists entries. exact Hw.
Defined.

Example walk_entries_demo :
  (match @walk_entries bytewise "testnet" (mkStateQuery "CA" "" 0 0 "" "" "" 1) 9 demo_rows_db with
   | Ok entries => map se_KeyXDR entries | Err _ => [] end) = ["K1"].
Proof. vm_compute. reflexivity. Qed.

Definition demo_movement_query : MovementQuery := mkMovementQuery "CA" "" "" "" 1 0 "" "" 1.

Lemma walk_movements_complete_witness :
  ∃ ms, @walk_movements bytewise "testnet" demo_movement_query 9 demo_rows_db = Ok ms.
Proof.
  destruct (walk_movements_complete bytewise "testnet" demo_movement_query 9 demo_rows_db)
    as (ms & Hw & _).
  - exact bytewise_order.
  - vm_compute. discriminate.
  - apply (bool_decide_unpack (size (db_movements demo_rows_db) < 9)%nat). vm_compute. exact I.
  - refine (bool_decide_unpack (map_Forall (λ k _, k.1.2 ≠ "") (db_movements demo_rows_db)) _).
    vm_compute. exact I.
  - exists ms. exact Hw.
Defined.

Example walk_movements_demo :
  (match @walk_movements bytewise "testnet" demo_movement_query 9 demo_rows_db with
   | Ok ms => map mv_Role ms | Err _ => [] end) = ["recipient"; "sender"].
Proof. vm_compute. reflexivity. Qed.
