(* ===== verification/Cursor.v ===== *)
(** * Page cursors ([internal/api/cursor.go])

    A cursor is the whole query plus the position to resume from, serialised.
    The serialisation (JSON in raw URL base64) is an interface: what the codecs
    promise is that a payload of valid strings survives it.  The decoders
    validate everything, since a cursor arrives from the client. *)

From Stdlib Require Import Ascii.
From S2P Require Import Prelude Db Query.

(** ** Definitions *)

Definition defaultLimit : Z := 100.
Definition maxLimit : Z := 1000.

Definition cursorVersion : Z := 1.

Definition kindEvents : string := "events".
Definition kindSnapshot : string := "state".
Definition kindHistory : string := "state_history".
Definition kindTransfers : string := "transfers".
Definition kindTrustlines : string := "trustlines".
Definition kindTrustlineHistory : string := "trustlines_history".
Definition kindMovements : string := "movements".

(** [json.Marshal] then [base64.RawURLEncoding.EncodeToString], and back;
    [decode_payload] fails when either layer does. *)
Class Codec (P : Type) := {
  encode_payload : P → string;
  decode_payload : string → option P;
  encodable : P → Prop }.

(** JSON replaces bytes that are not UTF-8, so only payloads of valid strings
    are [encodable]. *)
Class CodecLaws (P : Type) `{!Codec P} : Prop :=
  codec_round_trip : ∀ p : P, encodable p → decode_payload (encode_payload p) = Some p.

Definition validateCursorLimit (limit : Z) : bool := negb ((limit <? 1) || (maxLimit <? limit)).

Record cursorPayload := mkCursorPayload {
  cp_V : Z; cp_Kind : string; cp_Network : string; cp_ContractID : string;
  cp_Topics : list (option string); cp_FromLedger : Z; cp_ToLedger : Z; cp_Limit : Z;
  cp_AfterID : string }.

Record movementsCursorPayload := mkMovementsCursorPayload {
  mcp_V : Z; mcp_Kind : string; mcp_Network : string; mcp_ContractID : string;
  mcp_Role : string; mcp_Token : string; mcp_Type : string; mcp_FromLedger : Z;
  mcp_ToLedger : Z; mcp_Limit : Z; mcp_AfterID : string; mcp_AfterRole : string }.

Record trustlinesCursorPayload := mkTrustlinesCursorPayload {
  lcp_V : Z; lcp_Kind : string; lcp_Network : string; lcp_ContractID : string;
  lcp_AccountID : string; lcp_FromLedger : Z; lcp_ToLedger : Z; lcp_Limit : Z;
  lcp_AfterID : string; lcp_AfterAccount : string }.

Record transfersCursorPayload := mkTransfersCursorPayload {
  tcp_V : Z; tcp_Kind : string; tcp_Network : string; tcp_ContractID : string;
  tcp_Account : string; tcp_From : string; tcp_To : string; tcp_TransferType : string;
  tcp_FromLedger : Z; tcp_ToLedger : Z; tcp_Limit : Z; tcp_AfterID : string }.

Record stateCursorPayload := mkStateCursorPayload {
  scp_V : Z; scp_Kind : string; scp_Network : string; scp_ContractID : string;
  scp_KeyXDR : string; scp_FromLedger : Z; scp_ToLedger : Z; scp_Limit : Z;
  scp_AfterID : string; scp_AfterKey : string; scp_AfterDur : string }.

Section codecs.
Context `{!Codec cursorPayload} `{!Codec movementsCursorPayload} `{!Codec trustlinesCursorPayload}
  `{!Codec transfersCursorPayload} `{!Codec stateCursorPayload}.

Definition encodeCursor (network : string) (q : EventQuery) (afterID : string) : string :=
  encode_payload (mkCursorPayload cursorVersion kindEvents network (eq_ContractID q)
    (eq_Topics q) (eq_FromLedger q) (eq_ToLedger q) (eq_Limit q) afterID).

Definition decodeCursor (network contractID cursor : string) : option EventQuery :=
  match decode_payload cursor with
  | None => None
  | Some p =>
      if negb (cp_V p =? cursorVersion) then None
      else if bool_decide (cp_Kind p ≠ "") && bool_decide (cp_Kind p ≠ kindEvents) then None
      else if bool_decide (cp_Network p ≠ network) || bool_decide (cp_ContractID p ≠ contractID)
      then None
      else if negb (validateCursorLimit (cp_Limit p)) then None
      else Some (mkEventQuery (cp_ContractID p) (cp_Topics p) (cp_FromLedger p) (cp_ToLedger p)
                   (cp_AfterID p) (cp_Limit p))
  end.

Definition encodeMovementsCursor (network : string) (q : MovementQuery) : string :=
  encode_payload (mkMovementsCursorPayload cursorVersion kindMovements network
    (mq_ContractID q) (mq_Role q) (mq_Token q) (mq_Type q) (mq_FromLedger q) (mq_ToLedger q)
    (mq_Limit q) (mq_AfterID q) (mq_AfterRole q)).

Definition decodeMovementsCursor (network contractID cursor : string) : option MovementQuery :=
  match decode_payload cursor with
  | None => None
  | Some p =>
      if negb (mcp_V p =? cursorVersion) then None
      else if bool_decide (mcp_Kind p ≠ kindMovements) then None
      else if bool_decide (mcp_Network p ≠ network) || bool_decide (mcp_ContractID p ≠ contractID)
      then None
      else if negb (validateCursorLimit (mcp_Limit p)) then None
      else Some (mkMovementQuery (mcp_ContractID p) (mcp_Role p) (mcp_Token p) (mcp_Type p)
                   (mcp_FromLedger p) (mcp_ToLedger p) (mcp_AfterID p) (mcp_AfterRole p)
                   (mcp_Limit p))
  end.

Definition encodeTrustlinesCursor (network kind : string) (q : TrustlineQuery) : string :=
  encode_payload (mkTrustlinesCursorPayload cursorVersion kind network
    (lq_ContractID q) (lq_AccountID q) (lq_FromLedger q) (lq_ToLedger q) (lq_Limit q)
    (lq_AfterID q) (lq_AfterAccount q)).

Definition decodeTrustlinesCursor (network contractID kind cursor : string)
    : option TrustlineQuery :=
  match decode_payload cursor with
  | None => None
  | Some p =>
      if negb (lcp_V p =? cursorVersion) then None
      else if bool_decide (lcp_Kind p ≠ kind) then None
      else if bool_decide (lcp_Network p ≠ network) || bool_decide (lcp_ContractID p ≠ contractID)
      then None
      else if negb (validateCursorLimit (lcp_Limit p)) then None
      else Some (mkTrustlineQuery (lcp_ContractID p) (lcp_AccountID p) (lcp_FromLedger p)
                   (lcp_ToLedger p) (lcp_AfterID p) (lcp_AfterAccount p) (lcp_Limit p))
  end.

Definition encodeTransfersCursor (network : string) (q : TransferQuery) : string :=
  encode_payload (mkTransfersCursorPayload cursorVersion kindTransfers network
    (tq_ContractID q) (tq_Account q) (tq_From q) (tq_To q) (tq_TransferType q)
    (tq_FromLedger q) (tq_ToLedger q) (tq_Limit q) (tq_AfterID q)).

Definition decodeTransfersCursor (network contractID cursor : string) : option TransferQuery :=
  match decode_payload cursor with
  | None => None
  | Some p =>
      if negb (tcp_V p =? cursorVersion) then None
      else if bool_decide (tcp_Kind p ≠ kindTransfers) then None
      else if bool_decide (tcp_Network p ≠ network) || bool_decide (tcp_ContractID p ≠ contractID)
      then None
      else if negb (validateCursorLimit (tcp_Limit p)) then None
      else Some (mkTransferQuery (tcp_ContractID p) (tcp_Account p) (tcp_From p) (tcp_To p)
                   (tcp_TransferType p) (tcp_FromLedger p) (tcp_ToLedger p) (tcp_AfterID p)
                   (tcp_Limit p))
  end.

Definition encodeStateCursor (network kind : string) (q : StateQuery) : string :=
  encode_payload (mkStateCursorPayload cursorVersion kind network
    (sq_ContractID q) (sq_KeyXDR q) (sq_FromLedger q) (sq_ToLedger q) (sq_Limit q)
    (sq_AfterID q) (sq_AfterKey q) (sq_AfterDurability q)).

Definition decodeStateCursor (network contractID kind cursor : string) : option StateQuery :=
  match decode_payload cursor with
  | None => None
  | Some p =>
      if negb (scp_V p =? cursorVersion) then None
      else if bool_decide (scp_Kind p ≠ kind) then None
      else if bool_decide (scp_Network p ≠ network) || bool_decide (scp_ContractID p ≠ contractID)
      then None
      else if negb (validateCursorLimit (scp_Limit p)) then None
      else Some (mkStateQuery (scp_ContractID p) (scp_KeyXDR p) (scp_FromLedger p) (scp_ToLedger p)
                   (scp_AfterID p) (scp_AfterKey p) (scp_AfterDur p) (scp_Limit p))
  end.
End codecs.

(** ** Lemmas *)

Lemma validateCursorLimit_spec limit : validateCursorLimit limit = true ↔ 1 ≤ limit ≤ maxLimit.
Proof. unfold validateCursorLimit. rewrite negb_true_iff, orb_false_iff, !Z.ltb_ge. tauto. Qed.

(** The guards that every decoder runs: [decode_guards] peels them off a
    hypothesis that a decoder accepted. *)
Ltac decode_guards H :=
  repeat match type of H with
  | context [if ?b then None else _] => destruct b eqn:?; [discriminate H|]
  | context [match ?o with Some _ => _ | None => None end] => destruct o eqn:?; [|discriminate H]
  end;
  repeat match goal with
  | E : negb _ = false |- _ => apply negb_false_iff in E
  | E : _ || _ = false |- _ => apply orb_false_iff in E as [? ?]
  | E : _ && _ = false |- _ => apply andb_false_iff in E
  | E : bool_decide (?x ≠ ?y) = false |- _ => apply bool_decide_eq_false, dec_stable in E
  | E : validateCursorLimit _ = true |- _ => apply validateCursorLimit_spec in E
  end.

(** [decode_ok] runs a decoder on a payload that passes every guard. *)
Ltac decode_ok Hl :=
  simpl; unfold cursorVersion; simpl;
  rewrite ?bool_decide_eq_false_2 by tauto; simpl;
  rewrite (proj2 (validateCursorLimit_spec _) Hl); simpl.

(** ** Properties *)

Section round_trips.
Context `{!Codec cursorPayload} `{!Codec movementsCursorPayload} `{!Codec trustlinesCursorPayload}
  `{!Codec transfersCursorPayload} `{!Codec stateCursorPayload}.

(** Every payload the encoders build from valid strings can be serialised. *)
Class Encodable : Prop := {
  enc_events : CodecLaws cursorPayload;
  enc_movements : CodecLaws movementsCursorPayload;
  enc_trustlines : CodecLaws trustlinesCursorPayload;
  enc_transfers : CodecLaws transfersCursorPayload;
  enc_state : CodecLaws stateCursorPayload }.

Lemma decodeCursor_encode `{!CodecLaws cursorPayload} network q afterID :
  encodable (mkCursorPayload cursorVersion kindEvents network (eq_ContractID q)
    (eq_Topics q) (eq_FromLedger q) (eq_ToLedger q) (eq_Limit q) afterID) →
  1 ≤ eq_Limit q ≤ maxLimit →
  decodeCursor network (eq_ContractID q) (encodeCursor network q afterID) =
  Some (resume_events q (Some afterID)).
Proof.
  intros He Hl. unfold decodeCursor, encodeCursor. rewrite codec_round_trip by done. by decode_ok Hl.
Qed.

Lemma decodeMovementsCursor_encode `{!CodecLaws movementsCursorPayload} network q :
  encodable (mkMovementsCursorPayload cursorVersion kindMovements network
    (mq_ContractID q) (mq_Role q) (mq_Token q) (mq_Type q) (mq_FromLedger q) (mq_ToLedger q)
    (mq_Limit q) (mq_AfterID q) (mq_AfterRole q)) →
  1 ≤ mq_Limit q ≤ maxLimit →
  decodeMovementsCursor network (mq_ContractID q) (encodeMovementsCursor network q) = Some q.
Proof.
  intros He Hl. unfold decodeMovementsCursor, encodeMovementsCursor.
  rewrite codec_round_trip by done. decode_ok Hl. by destruct q.
Qed.

Lemma decodeTrustlinesCursor_encode `{!CodecLaws trustlinesCursorPayload} network kind q :
  encodable (mkTrustlinesCursorPayload cursorVersion kind network
    (lq_ContractID q) (lq_AccountID q) (lq_FromLedger q) (lq_ToLedger q) (lq_Limit q)
    (lq_AfterID q) (lq_AfterAccount q)) →
  1 ≤ lq_Limit q ≤ maxLimit →
  decodeTrustlinesCursor network (lq_ContractID q) kind (encodeTrustlinesCursor network kind q)
  = Some q.
Proof.
  intros He Hl. unfold decodeTrustlinesCursor, encodeTrustlinesCursor.
  rewrite codec_round_trip by done. decode_ok Hl. by destruct q.
Qed.

Lemma decodeTransfersCursor_encode `{!CodecLaws transfersCursorPayload} network q :
  encodable (mkTransfersCursorPayload cursorVersion kindTransfers network
    (tq_ContractID q) (tq_Account q) (tq_From q) (tq_To q) (tq_TransferType q)
    (tq_FromLedger q) (tq_ToLedger q) (tq_Limit q) (tq_AfterID q)) →
  1 ≤ tq_Limit q ≤ maxLimit →
  decodeTransfersCursor network (tq_ContractID q) (encodeTransfersCursor network q) = Some q.
Proof.
  intros He Hl. unfold decodeTransfersCursor, encodeTransfersCursor.
  rewrite codec_round_trip by done. decode_ok Hl. by destruct q.
Qed.

Lemma decodeStateCursor_encode `{!CodecLaws stateCursorPayload} network kind q :
  encodable (mkStateCursorPayload cursorVersion kind network
    (sq_ContractID q) (sq_KeyXDR q) (sq_FromLedger q) (sq_ToLedger q) (sq_Limit q)
    (sq_AfterID q) (sq_AfterKey q) (sq_AfterDurability q)) →
  1 ≤ sq_Limit q ≤ maxLimit →
  decodeStateCursor network (sq_ContractID q) kind (encodeStateCursor network kind q) = Some q.
Proof.
  intros He Hl. unfold decodeStateCursor, encodeStateCursor.
  rewrite codec_round_trip by done. decode_ok Hl. by destruct q.
Qed.
End round_trips.

(** What each decoder accepts. *)
Section validity.
Context (network contractID : string).

Lemma decodeCursor_valid `{!Codec cursorPayload} cursor q :
  decodeCursor network contractID cursor = Some q →
  eq_ContractID q = contractID ∧ 1 ≤ eq_Limit q ≤ maxLimit ∧
  ∃ p : cursorPayload, decode_payload cursor = Some p ∧ cp_Network p = network ∧ (cp_Kind p = "" ∨ cp_Kind p = kindEvents).
Proof.
  intros H. unfold decodeCursor in H. decode_guards H. injection H as <-. split_and!; try tauto.
  eexists. split_and!; [done..|].
  match goal with E : _ ∨ _ |- _ =>
    destruct E as [E|E]; apply bool_decide_eq_false, dec_stable in E; auto end.
Qed.

Lemma decodeMovementsCursor_valid `{!Codec movementsCursorPayload} cursor q :
  decodeMovementsCursor network contractID cursor = Some q →
  mq_ContractID q = contractID ∧ 1 ≤ mq_Limit q ≤ maxLimit ∧
  ∃ p : movementsCursorPayload, decode_payload cursor = Some p ∧ mcp_Network p = network ∧ mcp_Kind p = kindMovements.
Proof.
  intros H. unfold decodeMovementsCursor in H. decode_guards H. injection H as <-. split_and!; try tauto.
  eauto.
Qed.

Lemma decodeTrustlinesCursor_valid `{!Codec trustlinesCursorPayload} kind cursor q :
  decodeTrustlinesCursor network contractID kind cursor = Some q →
  lq_ContractID q = contractID ∧ 1 ≤ lq_Limit q ≤ maxLimit ∧
  ∃ p : trustlinesCursorPayload, decode_payload cursor = Some p ∧ lcp_Network p = network ∧ lcp_Kind p = kind.
Proof.
  intros H. unfold decodeTrustlinesCursor in H. decode_guards H. injection H as <-. split_and!; try tauto.
  eauto.
Qed.

Lemma decodeTransfersCursor_valid `{!Codec transfersCursorPayload} cursor q :
  decodeTransfersCursor network contractID cursor = Some q →
  tq_ContractID q = contractID ∧ 1 ≤ tq_Limit q ≤ maxLimit ∧
  ∃ p : transfersCursorPayload, decode_payload cursor = Some p ∧ tcp_Network p = network ∧ tcp_Kind p = kindTransfers.
Proof.
  intros H. unfold decodeTransfersCursor in H. decode_guards H. injection H as <-. split_and!; try tauto.
  eauto.
Qed.

Lemma decodeStateCursor_valid `{!Codec stateCursorPayload} kind cursor q :
  decodeStateCursor network contractID kind cursor = Some q →
  sq_ContractID q = contractID ∧ 1 ≤ sq_Limit q ≤ maxLimit ∧
  ∃ p : stateCursorPayload, decode_payload cursor = Some p ∧ scp_Network p = network ∧ scp_Kind p = kind.
Proof.
  intros H. unfold decodeStateCursor in H. decode_guards H. injection H as <-. split_and!; try tauto.
  eauto.
Qed.
End validity.

(** A cursor never widens what a client may ask: whatever string arrives,
    every decoder either rejects it or yields a query on the same network's and
    contract's data, for its own endpoint, with a page size between 1 and the
    maximum. *)
Theorem decoders_validate `{!Codec cursorPayload} `{!Codec movementsCursorPayload}
    `{!Codec trustlinesCursorPayload} `{!Codec transfersCursorPayload} `{!Codec stateCursorPayload}
    (network contractID kind cursor : string) :
  (∀ q, decodeCursor network contractID cursor = Some q →
     eq_ContractID q = contractID ∧ 1 ≤ eq_Limit q ≤ maxLimit ∧
     ∃ p : cursorPayload, decode_payload cursor = Some p ∧ cp_Network p = network ∧
       (cp_Kind p = "" ∨ cp_Kind p = kindEvents)) ∧
  (∀ q, decodeMovementsCursor network contractID cursor = Some q →
     mq_ContractID q = contractID ∧ 1 ≤ mq_Limit q ≤ maxLimit ∧
     ∃ p : movementsCursorPayload, decode_payload cursor = Some p ∧ mcp_Network p = network ∧
       mcp_Kind p = kindMovements) ∧
  (∀ q, decodeTrustlinesCursor network contractID kind cursor = Some q →
     lq_ContractID q = contractID ∧ 1 ≤ lq_Limit q ≤ maxLimit ∧
     ∃ p : trustlinesCursorPayload, decode_payload cursor = Some p ∧ lcp_Network p = network ∧
       lcp_Kind p = kind) ∧
  (∀ q, decodeTransfersCursor network contractID cursor = Some q →
     tq_ContractID q = contractID ∧ 1 ≤ tq_Limit q ≤ maxLimit ∧
     ∃ p : transfersCursorPayload, decode_payload cursor = Some p ∧ tcp_Network p = network ∧
       tcp_Kind p = kindTransfers) ∧
  (∀ q, decodeStateCursor network contractID kind cursor = Some q →
     sq_ContractID q = contractID ∧ 1 ≤ sq_Limit q ≤ maxLimit ∧
     ∃ p : stateCursorPayload, decode_payload cursor = Some p ∧ scp_Network p = network ∧
       scp_Kind p = kind).
Proof.
  split_and!; intros q.
  - apply decodeCursor_valid.
  - apply decodeMovementsCursor_valid.
  - apply decodeTrustlinesCursor_valid.
  - apply decodeTransfersCursor_valid.
  - apply decodeStateCursor_valid.
Qed.

(** C36.  Every cursor the API mints is accepted by its own endpoint and resumes
    exactly the query it was minted for: same filters, same bounds, same page
    size, from the row it was minted after. *)
Theorem cursors_round_trip `{!Codec cursorPayload} `{!Codec movementsCursorPayload}
    `{!Codec trustlinesCursorPayload} `{!Codec transfersCursorPayload} `{!Codec stateCursorPayload}
    (network kind afterID : string) (qe : EventQuery) (qm : MovementQuery) (ql : TrustlineQuery)
    (qt : TransferQuery) (qs : StateQuery) :
  Encodable →
  (encodable (mkCursorPayload cursorVersion kindEvents network (eq_ContractID qe) (eq_Topics qe)
     (eq_FromLedger qe) (eq_ToLedger qe) (eq_Limit qe) afterID) → 1 ≤ eq_Limit qe ≤ maxLimit →
   decodeCursor network (eq_ContractID qe) (encodeCursor network qe afterID)
   = Some (resume_events qe (Some afterID))) ∧
  (encodable (mkMovementsCursorPayload cursorVersion kindMovements network (mq_ContractID qm)
     (mq_Role qm) (mq_Token qm) (mq_Type qm) (mq_FromLedger qm) (mq_ToLedger qm) (mq_Limit qm)
     (mq_AfterID qm) (mq_AfterRole qm)) → 1 ≤ mq_Limit qm ≤ maxLimit →
   decodeMovementsCursor network (mq_ContractID qm) (encodeMovementsCursor network qm) = Some qm) ∧
  (encodable (mkTrustlinesCursorPayload cursorVersion kind network (lq_ContractID ql)
     (lq_AccountID ql) (lq_FromLedger ql) (lq_ToLedger ql) (lq_Limit ql) (lq_AfterID ql)
     (lq_AfterAccount ql)) → 1 ≤ lq_Limit ql ≤ maxLimit →
   decodeTrustlinesCursor network (lq_ContractID ql) kind (encodeTrustlinesCursor network kind ql)
   = Some ql) ∧
  (encodable (mkTransfersCursorPayload cursorVersion kindTransfers network (tq_ContractID qt)
     (tq_Account qt) (tq_From qt) (tq_To qt) (tq_TransferType qt) (tq_FromLedger qt)
     (tq_ToLedger qt) (tq_Limit qt) (tq_AfterID qt)) → 1 ≤ tq_Limit qt ≤ maxLimit →
   decodeTransfersCursor network (tq_ContractID qt) (encodeTransfersCursor network qt) = Some qt) ∧
  (encodable (mkStateCursorPayload cursorVersion kind network (sq_ContractID qs) (sq_KeyXDR qs)
     (sq_FromLedger qs) (sq_ToLedger qs) (sq_Limit qs) (sq_AfterID qs) (sq_AfterKey qs)
     (sq_AfterDurability qs)) → 1 ≤ sq_Limit qs ≤ maxLimit →
   decodeStateCursor network (sq_ContractID qs) kind (encodeStateCursor network kind qs) = Some qs).
Proof.
  intros [? ? ? ? ?]. split_and!; intros.
  - by apply decodeCursor_encode.
  - by apply decodeMovementsCursor_encode.
  - by apply decodeTrustlinesCursor_encode.
  - by apply decodeTransfersCursor_encode.
  - by apply decodeStateCursor_encode.
Qed.

(** ** Witnesses *)

(** A concrete codec for any countable payload: the bits of its code. *)
Fixpoint bits (p : positive) : string :=
  match p with
  | xH => ""
  | xO p => String "0"%char (bits p)
  | xI p => String "1"%char (bits p)
  end.

Fixpoint unbits (s : string) : option positive :=
  match s with
  | EmptyString => Some xH
  | String c s =>
      if Ascii.eqb c "0"%char then xO <$> unbits s
      else if Ascii.eqb c "1"%char then xI <$> unbits s else None
  end.

Lemma unbits_bits p : unbits (bits p) = Some p.
Proof. induction p as [p IH|p IH|]; simpl; rewrite ?IH; done. Qed.

Definition bit_codec (P : Type) `{Countable P} : Codec P := {|
  encode_payload p := bits (encode p);
  decode_payload s := unbits s ≫= decode;
  encodable _ := True |}.

Lemma bit_codec_laws (P : Type) `{Countable P} : @CodecLaws P (bit_codec P).
Proof. intros p _. simpl. rewrite unbits_bits. simpl. apply decode_encode. Qed.

#[export] Instance cursorPayload_eq_dec : EqDecision cursorPayload.
Proof. solve_decision. Defined.
#[export] Instance movementsCursorPayload_eq_dec : EqDecision movementsCursorPayload.
Proof. solve_decision. Defined.
#[export] Instance trustlinesCursorPayload_eq_dec : EqDecision trustlinesCursorPayload.
Proof. solve_decision. Defined.
#[export] Instance transfersCursorPayload_eq_dec : EqDecision transfersCursorPayload.
Proof. solve_decision. Defined.
#[export] Instance stateCursorPayload_eq_dec : EqDecision stateCursorPayload.
Proof. solve_decision. Defined.

#[export] Instance cursorPayload_countable : Countable cursorPayload.
Proof.
  refine (inj_countable' (λ '(mkCursorPayload a b c d e f g h i), (a, b, c, d, e, f, g, h, i))
    (λ '(a, b, c, d, e, f, g, h, i), mkCursorPayload a b c d e f g h i) _); by intros [].
Defined.
#[export] Instance movementsCursorPayload_countable : Countable movementsCursorPayload.
Proof.
  refine (inj_countable' (λ '(mkMovementsCursorPayload a b c d e f g h i j k l),
      (a, b, c, d, e, f, g, h, i, j, k, l))
    (λ '(a, b, c, d, e, f, g, h, i, j, k, l), mkMovementsCursorPayload a b c d e f g h i j k l) _);
    by intros [].
Defined.
#[export] Instance trustlinesCursorPayload_countable : Countable trustlinesCursorPayload.
Proof.
  refine (inj_countable' (λ '(mkTrustlinesCursorPayload a b c d e f g h i j), (a, b, c, d, e, f, g, h, i, j))
    (λ '(a, b, c, d, e, f, g, h, i, j), mkTrustlinesCursorPayload a b c d e f g h i j) _); by intros [].
Defined.
#[export] Instance transfersCursorPayload_countable : Countable transfersCursorPayload.
Proof.
  refine (inj_countable' (λ '(mkTransfersCursorPayload a b c d e f g h i j k l),
      (a, b, c, d, e, f, g, h, i, j, k, l))
    (λ '(a, b, c, d, e, f, g, h, i, j, k, l), mkTransfersCursorPayload a b c d e f g h i j k l) _);
    by intros [].
Defined.
#[export] Instance stateCursorPayload_countable : Countable stateCursorPayload.
Proof.
  refine (inj_countable' (λ '(mkStateCursorPayload a b c d e f g h i j k), (a, b, c, d, e, f, g, h, i, j, k))
    (λ '(a, b, c, d, e, f, g, h, i, j, k), mkStateCursorPayload a b c d e f g h i j k) _); by intros [].
Defined.

Lemma bit_encodable :
  @Encodable (bit_codec _) (bit_codec _) (bit_codec _) (bit_codec _) (bit_codec _).
Proof. split; apply bit_codec_laws. Qed.

Lemma cursors_round_trip_witness :
  @decodeMovementsCursor (bit_codec _) "testnet" "CA"
    (@encodeMovementsCursor (bit_codec _) "testnet" demo_movement_query) = Some demo_movement_query.
Proof.
  apply (@cursors_round_trip (bit_codec _) (bit_codec _) (bit_codec _) (bit_codec _) (bit_codec _)
    "testnet" "trustlines" "0001-1" demo_event_query demo_movement_query
    (mkTrustlineQuery "CA" "" 0 0 "" "" 5) (mkTransferQuery "CA" "" "" "" "" 0 0 "" 5)
    (mkStateQuery "CA" "" 0 0 "" "" "" 5)).
  - exact bit_encodable.
  - exact I.
  - vm_compute. split; discriminate.
Defined.
