(* ===== verification/Api.v ===== *)
(** * The public read API ([internal/api])

    Each handler validates the request, reads a page, the live cursor and the
    walk's state, and declares what the page can vouch for.  The store is an
    interface ([Reader]), as in the code: its reads may see different moments
    of the database.  Timestamps are kept as instants (the code renders them in
    RFC 3339). *)

From Stdlib Require Import Ascii.
From S2P Require Import Prelude HealPlan Db Gaps Rows Registrations Commit Query Cursor.

(** ** Definitions *)

Definition KindEvents : string := "events".
Definition KindState : string := "state".
Definition KindTransfers : string := "transfers".
Definition KindTrustlines : string := "trustlines".
Definition KindMovements : string := "movements".

Definition scanHasMore : string := "HAS_MORE".
Definition scanWaitingForLedgers : string := "WAITING_FOR_LEDGERS".
Definition scanOldestReached : string := "OLDEST_REACHED".
Definition scanComplete : string := "COMPLETE".

(** *** Replies *)

Definition StatusBadRequest : Z := 400.
Definition StatusNotFound : Z := 404.
Definition StatusInternalServerError : Z := 500.

(** [writeJSON] with 200, or [writeError] with another status. *)
Inductive reply (A : Type) :=
  | Reply (a : A)
  | Fail (status : Z).
Arguments Reply {_} _.
Arguments Fail {_} _.

Definition reply_bind {A B} (r : reply A) (f : A → reply B) : reply B :=
  match r with Reply a => f a | Fail s => Fail s end.

Declare Scope reply_scope.
Notation "x <~ t ; k" := (reply_bind t (λ x, k))
  (at level 20, t at level 100, k at level 200) : reply_scope.
#[local] Open Scope reply_scope.

(** A failing store call is a server error. *)
Definition or_500 {A} (r : res A) : reply A :=
  match r with Ok a => Reply a | Err _ => Fail StatusInternalServerError end.

(** A rejected parameter is a bad request. *)
Definition or_400 {A} (r : option A) : reply A :=
  match r with Some a => Reply a | None => Fail StatusBadRequest end.

Definition require (b : bool) : reply unit := if b then Reply tt else Fail StatusBadRequest.

(** *** Request parameters *)

(** [url.Values] *)
Definition Values : Type := list (string * string).

Definition getParam (ps : Values) (name : string) : string :=
  match list_find (λ p, p.1 = name) ps with Some (_, p) => p.2 | None => "" end.

Definition hasParam (ps : Values) (name : string) : bool :=
  existsb (λ p, bool_decide (p.1 = name)) ps.

Definition digit (c : ascii) : option Z :=
  let n := Z.of_N (N_of_ascii c) in
  if (48 <=? n) && (n <=? 57) then Some (n - 48) else None.

Fixpoint parse_digits (s : string) (acc : Z) : option Z :=
  match s with
  | EmptyString => Some acc
  | String c s => match digit c with Some v => parse_digits s (10 * acc + v) | None => None end
  end.

(** [strconv.ParseUint(raw, 10, 32)] *)
Definition ParseUint32 (raw : string) : option Z :=
  if bool_decide (raw = "") then None
  else match parse_digits raw 0 with
       | Some v => if v <=? max_u32 then Some v else None
       | None => None
       end.

(** [strconv.Atoi] on a 64-bit platform. *)
Definition Atoi (raw : string) : option Z :=
  let in_range := λ v, (-9223372036854775808 <=? v) && (v <=? 9223372036854775807) in
  let parse := λ (s : string) (sign : Z),
    if bool_decide (s = "") then None
    else match parse_digits s 0 with
         | Some v => if in_range (sign * v) then Some (sign * v) else None
         | None => None
         end in
  match raw with
  | String c s => if Ascii.eqb c "-"%char then parse s (-1)
                  else if Ascii.eqb c "+"%char then parse s 1 else parse raw 1
  | EmptyString => None
  end.

Definition limitParam (raw : string) : reply Z :=
  if bool_decide (raw = "") then Reply defaultLimit
  else v <~ or_400 (Atoi raw) ;
       _ <~ require (negb ((v <? 1) || (maxLimit <? v))) ;
       Reply v.

(** The [startLedger]/[endLedger] stanza of the handlers; the query starts from
    ledger 1 and no upper bound. *)
Definition ledgerBounds (ps : Values) : reply (Z * Z) :=
  from <~ (if bool_decide (getParam ps "startLedger" = "") then Reply 1
           else v <~ or_400 (ParseUint32 (getParam ps "startLedger")) ;
                _ <~ require (negb (v =? 0)) ;
                Reply v) ;
  to <~ (if bool_decide (getParam ps "endLedger" = "") then Reply 0
         else v <~ or_400 (ParseUint32 (getParam ps "endLedger")) ;
              _ <~ require (negb ((v =? 0) || (v <? from))) ;
              Reply v) ;
  Reply (from, to).

(** No parameter of the list may accompany a cursor. *)
Definition noneOf (ps : Values) (banned : list string) : reply unit :=
  require (negb (existsb (hasParam ps) banned)).

(** The SDK's validators. *)
Class SDKValidators := {
  IsValidContractAddress : string → bool;
  SafeUnmarshalBase64 : string → bool }.

(** *** The store, as the handlers see it *)
Record Reader := mkReader {
  rd_GetContract : string → res Contract;
  rd_ListContracts : res (list Contract);
  rd_LoadCursor : res Cursor;
  rd_GetBackfill : string → res Backfill;
  rd_EventCountsByName : string → res (gmap string Z);
  rd_CountStateEntries : string → res Z;
  rd_QueryEvents : EventQuery → res (list Event * bool);
  rd_QueryStateEntries : StateQuery → res (list StateEntry * bool);
  rd_QueryStateChanges : StateQuery → res (list StateChange * bool);
  rd_QueryTransfers : TransferQuery → res (list Transfer * bool);
  rd_QueryTrustlineEntries : TrustlineQuery → res (list TrustlineEntry * bool);
  rd_QueryTrustlineChanges : TrustlineQuery → res (list TrustlineChange * bool);
  rd_QueryMovements : MovementQuery → res (list Movement * bool) }.

(** *** Coverage *)

Record coverageInfo := mkCoverage {
  cov_Kind : string; cov_KindDerived : bool; cov_RequestedFromLedger : Z;
  cov_RequestedToLedger : option Z; cov_IndexedFromLedger : Z; cov_IndexedToLedger : Z;
  cov_BackfillPending : bool; cov_ClampedAt : option Z }.

(** [from] and [to] are [q.FromLedger] and [q.ToLedger], all that [coverage]
    reads of the query. *)
Definition coverage (rd : Reader) (contract : Contract) (kind : string) (from to cursorSeq : Z)
    : coverageInfo :=
  let derived := HasKind contract kind in
  let requestedTo := if 0 <? to then Some to else None in
  let indexedTo := if (0 <? to) && (to <? cursorSeq) then to else cursorSeq in
  if negb derived then mkCoverage kind false from requestedTo 0 0 false None
  else
    let '(indexedFrom, pending, clamped) :=
      match rd_GetBackfill rd (ct_ContractID contract) with
      | Err _ => (cursorSeq, false, None)
      | Ok bf => if negb (CoversKind bf kind) then (cursorSeq, true, None)
                 else (u32 (bf_NextTo bf + 1), negb (bf_Done bf), bf_ClampedAt bf)
      end in
    mkCoverage kind true from requestedTo
      (if indexedFrom <? from then from else indexedFrom) indexedTo pending clamped.

Definition coverageByKind (rd : Reader) (contract : Contract) (cursorSeq : Z)
    : list coverageInfo :=
  (λ kind, coverage rd contract kind 1 0 cursorSeq) <$>
    filter (λ kind, HasKind contract kind = true)
      [KindEvents; KindState; KindTransfers; KindTrustlines; KindMovements].

Definition scanStatus (hasMore : bool) (from to : Z) (cov : coverageInfo) (cursorSeq : Z) : string :=
  if hasMore then scanHasMore
  else if negb (cov_KindDerived cov) then scanOldestReached
  else if (to =? 0) || (cursorSeq <? to) then scanWaitingForLedgers
  else if from <? cov_IndexedFromLedger cov then scanOldestReached
  else scanComplete.

(** *** Shared helpers *)

Definition cursorSequence (rd : Reader) : Z :=
  match rd_LoadCursor rd with Ok c => cur_Sequence c | Err _ => 0 end.

Definition int64String (v : option Z) : string :=
  match v with None => "" | Some x => pretty x end.

Section handlers.
Context `{SDK : SDKValidators} `{!Codec cursorPayload} `{!Codec movementsCursorPayload}
  `{!Codec trustlinesCursorPayload} `{!Codec transfersCursorPayload} `{!Codec stateCursorPayload}.
Context (network : string).

Definition knownContract (rd : Reader) (contractID : string) : reply Contract :=
  if negb (IsValidContractAddress contractID) then Fail StatusBadRequest
  else match rd_GetContract rd contractID with
       | Ok c => Reply c
       | Err e => if bool_decide (e = ErrNoContract) then Fail StatusNotFound
                  else Fail StatusInternalServerError
       end.

Definition keyParam (raw : string) : reply string :=
  if bool_decide (raw = "") then Reply ""
  else _ <~ require (SafeUnmarshalBase64 raw) ; Reply raw.

(** *** Events *)

Record eventRecord := mkEventRecord {
  evr_ID : string; evr_Type : string; evr_Ledger : Z; evr_LedgerClosedAt : Z;
  evr_ContractID : string; evr_Topic : list string; evr_Value : string;
  evr_InSuccessfulContractCall : bool; evr_TxHash : string; evr_TxIndex : Z;
  evr_OpIndex : Z; evr_EventName : string }.

Record eventsResponse := mkEventsResponse {
  evs_Events : list eventRecord; evs_Cursor : string; evs_ScanStatus : string;
  evs_Coverage : coverageInfo; evs_LatestLedger : Z }.

Definition event_record (e : Event) : eventRecord :=
  mkEventRecord (ev_ID e) "contract" (ev_LedgerSequence e) (ev_ClosedAt e) (ev_ContractID e)
    (ev_Topics e) (ev_ValueXDR e) true (ev_TxHash e) (ev_TxIndex e) (ev_OpIndex e)
    (ev_EventName e).

(** One topic filter of [buildQuery]. *)
Definition topicParam (raw : string) : reply (option string) :=
  if bool_decide (raw = "") then Reply None
  else _ <~ require (SafeUnmarshalBase64 raw) ; Reply (Some raw).

Definition buildQuery (ps : Values) (contractID : string) : reply EventQuery :=
  if bool_decide (getParam ps "cursor" ≠ "") then
    _ <~ noneOf ps ["topic0"; "topic1"; "topic2"; "topic3"; "startLedger"; "endLedger"; "type"] ;
    or_400 (decodeCursor network contractID (getParam ps "cursor"))
  else
    _ <~ require (negb (bool_decide (getParam ps "type" ≠ "")
                        && bool_decide (getParam ps "type" ≠ "contract"))) ;
    bounds <~ ledgerBounds ps ;
    limit <~ limitParam (getParam ps "limit") ;
    t0 <~ topicParam (getParam ps "topic0") ;
    t1 <~ topicParam (getParam ps "topic1") ;
    t2 <~ topicParam (getParam ps "topic2") ;
    t3 <~ topicParam (getParam ps "topic3") ;
    Reply (mkEventQuery contractID [t0; t1; t2; t3] bounds.1 bounds.2 "" limit).

Definition handleEvents (rd : Reader) (contractID : string) (ps : Values)
    : reply eventsResponse :=
  contract <~ knownContract rd contractID ;
  q <~ buildQuery ps (ct_ContractID contract) ;
  page <~ or_500 (rd_QueryEvents rd q) ;
  let '(events, hasMore) := page in
  cursorSeq <~ match rd_LoadCursor rd with
               | Ok c => Reply (cur_Sequence c)
               | Err e => if bool_decide (e = ErrNoCursor) then Reply 0
                          else Fail StatusInternalServerError
               end ;
  let cov := coverage rd contract KindEvents (eq_FromLedger q) (eq_ToLedger q) cursorSeq in
  let afterID := match last events with Some e => ev_ID e | None => eq_AfterID q end in
  Reply (mkEventsResponse (event_record <$> events) (encodeCursor network q afterID)
    (scanStatus hasMore (eq_FromLedger q) (eq_ToLedger q) cov cursorSeq) cov cursorSeq).

(** *** State *)

Record stateEntryRecord := mkStateEntryRecord {
  ser_Key : string; ser_Durability : string; ser_Value : string;
  ser_LastModifiedLedger : Z; ser_ClosedAt : Z }.

Record stateSnapshotResponse := mkStateSnapshotResponse {
  sss_Entries : list stateEntryRecord; sss_Cursor : string;
  sss_Coverage : coverageInfo; sss_LatestLedger : Z }.

Definition state_entry_record (e : StateEntry) : stateEntryRecord :=
  mkStateEntryRecord (se_KeyXDR e) (se_Durability e) (se_ValueXDR e) (se_LastLedger e)
    (se_ClosedAt e).

Definition stateSnapshotQuery (ps : Values) (contractID : string) : reply StateQuery :=
  if bool_decide (getParam ps "cursor" ≠ "") then
    _ <~ noneOf ps ["key"; "limit"] ;
    or_400 (decodeStateCursor network contractID kindSnapshot (getParam ps "cursor"))
  else
    key <~ keyParam (getParam ps "key") ;
    limit <~ limitParam (getParam ps "limit") ;
    Reply (mkStateQuery contractID key 0 0 "" "" "" limit).

Definition handleStateSnapshot (rd : Reader) (contractID : string) (ps : Values)
    : reply stateSnapshotResponse :=
  contract <~ knownContract rd contractID ;
  q <~ stateSnapshotQuery ps (ct_ContractID contract) ;
  page <~ or_500 (rd_QueryStateEntries rd q) ;
  let '(entries, hasMore) := page in
  let cursorSeq := cursorSequence rd in
  let cursor := match last entries with
                | Some e => if hasMore
                    then encodeStateCursor network kindSnapshot
                           (resume_entries q (Some (se_KeyXDR e, se_Durability e)))
                    else ""
                | None => ""
                end in
  Reply (mkStateSnapshotResponse (state_entry_record <$> entries) cursor
    (coverage rd contract KindState 1 0 cursorSeq) cursorSeq).

Record stateChangeRecord := mkStateChangeRecord {
  scd_ID : string; scd_Ledger : Z; scd_LedgerClosedAt : Z; scd_ContractID : string;
  scd_Key : string; scd_Durability : string; scd_ChangeType : string; scd_Pre : string;
  scd_Post : string; scd_TxHash : string; scd_TxIndex : Z; scd_OpIndex : Z }.

Record stateHistoryResponse := mkStateHistoryResponse {
  shr_Changes : list stateChangeRecord; shr_Cursor : string; shr_ScanStatus : string;
  shr_Coverage : coverageInfo; shr_LatestLedger : Z }.

Definition state_change_record (c : StateChange) : stateChangeRecord :=
  mkStateChangeRecord (sc_ID c) (sc_LedgerSequence c) (sc_ClosedAt c) (sc_ContractID c)
    (sc_KeyXDR c) (sc_Durability c) (sc_ChangeType c) (sc_PreXDR c) (sc_PostXDR c)
    (sc_TxHash c) (sc_TxIndex c) (sc_OpIndex c).

Definition stateHistoryQuery (ps : Values) (contractID : string) : reply StateQuery :=
  if bool_decide (getParam ps "cursor" ≠ "") then
    _ <~ noneOf ps ["key"; "limit"; "startLedger"; "endLedger"] ;
    or_400 (decodeStateCursor network contractID kindHistory (getParam ps "cursor"))
  else
    key <~ keyParam (getParam ps "key") ;
    limit <~ limitParam (getParam ps "limit") ;
    bounds <~ ledgerBounds ps ;
    Reply (mkStateQuery contractID key bounds.1 bounds.2 "" "" "" limit).

Definition handleStateHistory (rd : Reader) (contractID : string) (ps : Values)
    : reply stateHistoryResponse :=
  contract <~ knownContract rd contractID ;
  q <~ stateHistoryQuery ps (ct_ContractID contract) ;
  page <~ or_500 (rd_QueryStateChanges rd q) ;
  let '(changes, hasMore) := page in
  let cursorSeq := cursorSequence rd in
  let cov := coverage rd contract KindState (sq_FromLedger q) (sq_ToLedger q) cursorSeq in
  let q' := match last changes with
            | Some c => mkStateQuery (sq_ContractID q) (sq_KeyXDR q) (sq_FromLedger q)
                          (sq_ToLedger q) (sc_ID c) (sq_AfterKey q) (sq_AfterDurability q) (sq_Limit q)
            | None => q
            end in
  Reply (mkStateHistoryResponse (state_change_record <$> changes)
    (encodeStateCursor network kindHistory q')
    (scanStatus hasMore (sq_FromLedger q) (sq_ToLedger q) cov cursorSeq) cov cursorSeq).

(** *** Transfers *)

Record transferRecord := mkTransferRecord {
  tfr_ID : string; tfr_Ledger : Z; tfr_LedgerClosedAt : Z; tfr_ContractID : string;
  tfr_TransferType : string; tfr_From : string; tfr_To : string; tfr_ToMuxedID : string;
  tfr_Amount : string; tfr_Asset : string; tfr_TxHash : string; tfr_TxIndex : Z;
  tfr_OpIndex : Z }.

Record transfersResponse := mkTransfersResponse {
  tfs_Transfers : list transferRecord; tfs_Cursor : string; tfs_ScanStatus : string;
  tfs_Coverage : coverageInfo; tfs_LatestLedger : Z }.

Definition transfer_record (t : Transfer) : transferRecord :=
  mkTransferRecord (tr_ID t) (tr_LedgerSequence t) (tr_ClosedAt t) (tr_ContractID t)
    (tr_TransferType t) (tr_FromAddress t) (tr_ToAddress t) (tr_ToMuxedID t) (tr_Amount t)
    (tr_Asset t) (tr_TxHash t) (tr_TxIndex t) (tr_OpIndex t).

Definition isTransferType (t : string) : bool :=
  existsb (λ x, bool_decide (x = t)) ["transfer"; "mint"; "burn"; "clawback"].

Definition transfersQuery (ps : Values) (contractID : string) : reply TransferQuery :=
  if bool_decide (getParam ps "cursor" ≠ "") then
    _ <~ noneOf ps ["account"; "from"; "to"; "type"; "limit"; "startLedger"; "endLedger"] ;
    or_400 (decodeTransfersCursor network contractID (getParam ps "cursor"))
  else
    let account := getParam ps "account" in
    let from := getParam ps "from" in
    let to := getParam ps "to" in
    _ <~ require (negb (bool_decide (account ≠ "")
                        && (bool_decide (from ≠ "") || bool_decide (to ≠ "")))) ;
    _ <~ require (bool_decide (getParam ps "type" = "") || isTransferType (getParam ps "type")) ;
    limit <~ limitParam (getParam ps "limit") ;
    bounds <~ ledgerBounds ps ;
    Reply (mkTransferQuery contractID account from to (getParam ps "type") bounds.1 bounds.2 "" limit).

Definition handleTransfers (rd : Reader) (contractID : string) (ps : Values)
    : reply transfersResponse :=
  contract <~ knownContract rd contractID ;
  q <~ transfersQuery ps (ct_ContractID contract) ;
  page <~ or_500 (rd_QueryTransfers rd q) ;
  let '(rows, hasMore) := page in
  let cursorSeq := cursorSequence rd in
  let cov := coverage rd contract KindTransfers (tq_FromLedger q) (tq_ToLedger q) cursorSeq in
  let q' := match last rows with
            | Some t => mkTransferQuery (tq_ContractID q) (tq_Account q) (tq_From q) (tq_To q)
                          (tq_TransferType q) (tq_FromLedger q) (tq_ToLedger q) (tr_ID t) (tq_Limit q)
            | None => q
            end in
  Reply (mkTransfersResponse (transfer_record <$> rows) (encodeTransfersCursor network q')
    (scanStatus hasMore (tq_FromLedger q) (tq_ToLedger q) cov cursorSeq) cov cursorSeq).

(** *** Trustlines *)

Record trustlineEntryRecord := mkTrustlineEntryRecord {
  ter_AccountID : string; ter_Asset : string; ter_Balance : string; ter_Limit : string;
  ter_Flags : Z; ter_LastModifiedLedger : Z; ter_ClosedAt : Z }.

Record trustlineSnapshotResponse := mkTrustlineSnapshotResponse {
  tss_Trustlines : list trustlineEntryRecord; tss_Cursor : string;
  tss_Coverage : coverageInfo; tss_LatestLedger : Z }.

Definition trustline_entry_record (e : TrustlineEntry) : trustlineEntryRecord :=
  mkTrustlineEntryRecord (te_AccountID e) (te_Asset e) (int64String (te_Balance e))
    (int64String (te_Limit e)) (te_Flags e) (te_LastLedger e) (te_ClosedAt e).

Definition trustlineSnapshotQuery (ps : Values) (contractID : string) : reply TrustlineQuery :=
  if bool_decide (getParam ps "cursor" ≠ "") then
    _ <~ noneOf ps ["account"; "limit"] ;
    or_400 (decodeTrustlinesCursor network contractID kindTrustlines (getParam ps "cursor"))
  else
    limit <~ limitParam (getParam ps "limit") ;
    Reply (mkTrustlineQuery contractID (getParam ps "account") 0 0 "" "" limit).

Definition handleTrustlineSnapshot (rd : Reader) (contractID : string) (ps : Values)
    : reply trustlineSnapshotResponse :=
  contract <~ knownContract rd contractID ;
  q <~ trustlineSnapshotQuery ps (ct_ContractID contract) ;
  page <~ or_500 (rd_QueryTrustlineEntries rd q) ;
  let '(entries, hasMore) := page in
  let cursorSeq := cursorSequence rd in
  let cursor := match last entries with
                | Some e => if hasMore
                    then encodeTrustlinesCursor network kindTrustlines
                           (mkTrustlineQuery (lq_ContractID q) (lq_AccountID q) (lq_FromLedger q)
                              (lq_ToLedger q) (lq_AfterID q) (te_AccountID e) (lq_Limit q))
                    else ""
                | None => ""
                end in
  Reply (mkTrustlineSnapshotResponse (trustline_entry_record <$> entries) cursor
    (coverage rd contract KindTrustlines 1 0 cursorSeq) cursorSeq).

Record trustlineChangeRecord := mkTrustlineChangeRecord {
  tcr_ID : string; tcr_Ledger : Z; tcr_LedgerClosedAt : Z; tcr_ContractID : string;
  tcr_AccountID : string; tcr_Asset : string; tcr_ChangeType : string;
  tcr_PreBalance : string; tcr_PostBalance : string; tcr_PreLimit : string;
  tcr_PostLimit : string; tcr_Flags : Z; tcr_TxHash : string; tcr_TxIndex : Z;
  tcr_OpIndex : Z }.

Record trustlineHistoryResponse := mkTrustlineHistoryResponse {
  thr_Changes : list trustlineChangeRecord; thr_Cursor : string; thr_ScanStatus : string;
  thr_Coverage : coverageInfo; thr_LatestLedger : Z }.

Definition trustline_change_record (c : TrustlineChange) : trustlineChangeRecord :=
  mkTrustlineChangeRecord (tl_ID c) (tl_LedgerSequence c) (tl_ClosedAt c) (tl_ContractID c)
    (tl_AccountID c) (tl_Asset c) (tl_ChangeType c) (int64String (tl_PreBalance c))
    (int64String (tl_PostBalance c)) (int64String (tl_PreLimit c)) (int64String (tl_PostLimit c))
    (tl_Flags c) (tl_TxHash c) (tl_TxIndex c) (tl_OpIndex c).

Definition trustlineHistoryQuery (ps : Values) (contractID : string) : reply TrustlineQuery :=
  if bool_decide (getParam ps "cursor" ≠ "") then
    _ <~ noneOf ps ["account"; "limit"; "startLedger"; "endLedger"] ;
    or_400 (decodeTrustlinesCursor network contractID kindTrustlineHistory (getParam ps "cursor"))
  else
    limit <~ limitParam (getParam ps "limit") ;
    bounds <~ ledgerBounds ps ;
    Reply (mkTrustlineQuery contractID (getParam ps "account") bounds.1 bounds.2 "" "" limit).

Definition handleTrustlineHistory (rd : Reader) (contractID : string) (ps : Values)
    : reply trustlineHistoryResponse :=
  contract <~ knownContract rd contractID ;
  q <~ trustlineHistoryQuery ps (ct_ContractID contract) ;
  page <~ or_500 (rd_QueryTrustlineChanges rd q) ;
  let '(changes, hasMore) := page in
  let cursorSeq := cursorSequence rd in
  let cov := coverage rd contract KindTrustlines (lq_FromLedger q) (lq_ToLedger q) cursorSeq in
  let q' := match last changes with
            | Some c => mkTrustlineQuery (lq_ContractID q) (lq_AccountID q) (lq_FromLedger q)
                          (lq_ToLedger q) (tl_ID c) (lq_AfterAccount q) (lq_Limit q)
            | None => q
            end in
  Reply (mkTrustlineHistoryResponse (trustline_change_record <$> changes)
    (encodeTrustlinesCursor network kindTrustlineHistory q')
    (scanStatus hasMore (lq_FromLedger q) (lq_ToLedger q) cov cursorSeq) cov cursorSeq).

(** *** Movements; the response's fixed [note] text is left out *)

Record movementRecord := mkMovementRecord {
  mvd_ID : string; mvd_Role : string; mvd_TokenContractID : string; mvd_TransferType : string;
  mvd_Counterparty : string; mvd_Amount : string; mvd_RawXDR : string; mvd_Ledger : Z;
  mvd_LedgerClosedAt : Z }.

Record movementsResponse := mkMovementsResponse {
  mvs_Movements : list movementRecord; mvs_Cursor : string; mvs_ScanStatus : string;
  mvs_Coverage : coverageInfo; mvs_LatestLedger : Z }.

Definition movement_record (m : Movement) : movementRecord :=
  mkMovementRecord (mv_TransferID m) (mv_Role m) (mv_TokenContractID m) (mv_TransferType m)
    (mv_Counterparty m) (mv_Amount m) (mv_RawXDR m) (mv_LedgerSequence m) (mv_ClosedAt m).

Definition movementsQuery (ps : Values) (contractID : string) : reply MovementQuery :=
  if bool_decide (getParam ps "cursor" ≠ "") then
    _ <~ noneOf ps ["role"; "token"; "type"; "startLedger"; "endLedger"; "limit"] ;
    or_400 (decodeMovementsCursor network contractID (getParam ps "cursor"))
  else
    let role := getParam ps "role" in
    let type := getParam ps "type" in
    let token := getParam ps "token" in
    limit <~ limitParam (getParam ps "limit") ;
    _ <~ require (existsb (λ x, bool_decide (x = role)) [""; "sender"; "recipient"]) ;
    _ <~ require (bool_decide (type = "") || isTransferType type) ;
    _ <~ require (bool_decide (token = "") || IsValidContractAddress token) ;
    bounds <~ ledgerBounds ps ;
    Reply (mkMovementQuery contractID role token type bounds.1 bounds.2 "" "" limit).

Definition handleMovements (rd : Reader) (contractID : string) (ps : Values)
    : reply movementsResponse :=
  contract <~ knownContract rd contractID ;
  q <~ movementsQuery ps (ct_ContractID contract) ;
  page <~ or_500 (rd_QueryMovements rd q) ;
  let '(rows, hasMore) := page in
  let cursorSeq := cursorSequence rd in
  let cov := coverage rd contract KindMovements (mq_FromLedger q) (mq_ToLedger q) cursorSeq in
  let q' := match last rows with
            | Some m => resume_movements q (Some (mv_TransferID m, mv_Role m))
            | None => q
            end in
  Reply (mkMovementsResponse (movement_record <$> rows) (encodeMovementsCursor network q')
    (scanStatus hasMore (mq_FromLedger q) (mq_ToLedger q) cov cursorSeq) cov cursorSeq).

(** *** Contracts *)

Record contractDetail := mkContractDetail {
  cd_Contract : Contract; cd_Coverage : list coverageInfo; cd_EventsTotal : Z;
  cd_EventsByName : gmap string Z; cd_StateEntries : Z }.

Definition handleContract (rd : Reader) (contractID : string) : reply contractDetail :=
  contract <~ knownContract rd contractID ;
  let cursorSeq := cursorSequence rd in
  counts <~ or_500 (rd_EventCountsByName rd (ct_ContractID contract)) ;
  let total := foldr (λ kv s, kv.2 + s) 0 (map_to_list counts) in
  entries <~ or_500 (rd_CountStateEntries rd (ct_ContractID contract)) ;
  Reply (mkContractDetail contract (coverageByKind rd contract cursorSeq) total counts entries).

Definition handleContractList (rd : Reader) : reply (list Contract) :=
  or_500 (rd_ListContracts rd).
End handlers.

(** The reads of the store at given moments: the registration, the page, the
    live cursor and the walk each see their own. *)
Definition reader_at `{Collation} (network : string) (dContract dPage dCursor dWalk : db) : Reader :=
  let at_ := λ A (d : db) (t : Tx A), fetched (run 0 t d) in
  {| rd_GetContract := λ id, at_ _ dContract (GetContract network id);
     rd_ListContracts := at_ _ dContract (ListContracts network);
     rd_LoadCursor := at_ _ dCursor (LoadCursor network);
     rd_GetBackfill := λ id, at_ _ dWalk (GetBackfill network id);
     rd_EventCountsByName := λ id, at_ _ dPage (EventCountsByName network id);
     rd_CountStateEntries := λ id, at_ _ dPage (CountStateEntries network id);
     rd_QueryEvents := λ q, at_ _ dPage (QueryEvents network q);
     rd_QueryStateEntries := λ q, at_ _ dPage (QueryStateEntries network q);
     rd_QueryStateChanges := λ q, at_ _ dPage (QueryStateChanges network q);
     rd_QueryTransfers := λ q, at_ _ dPage (QueryTransfers network q);
     rd_QueryTrustlineEntries := λ q, at_ _ dPage (QueryTrustlineEntries network q);
     rd_QueryTrustlineChanges := λ q, at_ _ dPage (QueryTrustlineChanges network q);
     rd_QueryMovements := λ q, at_ _ dPage (QueryMovements network q) |}.

(** ** Lemmas *)

Lemma reply_bind_Reply {A B} (r : reply A) (f : A → reply B) b :
  reply_bind r f = Reply b ↔ ∃ a, r = Reply a ∧ f a = Reply b.
Proof. destruct r; simpl; split; [eauto|by intros (? & [= <-] & ?)|done|by intros (? & ? & _)]. Qed.

Lemma require_Reply b u : require b = Reply u ↔ b = true.
Proof. destruct b, u; by split. Qed.

Lemma or_400_Reply {A} (r : option A) a : or_400 r = Reply a ↔ r = Some a.
Proof. destruct r; simpl; split; congruence. Qed.

Lemma or_500_Reply {A} (r : res A) a : or_500 r = Reply a ↔ r = Ok a.
Proof. destruct r; simpl; split; congruence. Qed.

(** [reply_inv H] turns a successful reply into the successes of its parts. *)
Ltac reply_part H :=
  first [ rewrite require_Reply in H | rewrite or_400_Reply in H | rewrite or_500_Reply in H ].
Ltac reply_inv H :=
  repeat (apply reply_bind_Reply in H; let x := fresh "x" in let Hx := fresh "Hx" in
          destruct H as (x & Hx & H); try reply_part Hx);
  try reply_part H.

Lemma limitParam_range raw v : limitParam raw = Reply v → 1 ≤ v ≤ maxLimit.
Proof.
  unfold limitParam. case_bool_decide; [intros [= <-]; unfold defaultLimit, maxLimit; lia|].
  intros Hr. reply_inv Hr. rewrite negb_true_iff, orb_false_iff, !Z.ltb_ge in Hx0.
  injection Hr as <-. lia.
Qed.

Lemma parse_digits_ge s acc v : 0 ≤ acc → parse_digits s acc = Some v → 0 ≤ v.
Proof.
  revert acc. induction s as [|c s IH]; intros acc Hacc; simpl; [by intros [= <-]|].
  unfold digit. destruct (_ && _) eqn:Hd; [|done]. apply andb_true_iff in Hd as [?%Z.leb_le _].
  apply IH. lia.
Qed.

Lemma ParseUint32_range raw v : ParseUint32 raw = Some v → is_u32 v.
Proof.
  unfold ParseUint32. case_bool_decide; [done|]. destruct (parse_digits raw 0) as [x|] eqn:Hp; [|done].
  apply parse_digits_ge in Hp; [|done]. destruct (Z.leb_spec x max_u32); [|done].
  intros [= <-]. by split.
Qed.

Lemma startLedger_range raw v :
  (if bool_decide (raw = "") then Reply 1
   else v <~ or_400 (ParseUint32 raw) ; _ <~ require (negb (v =? 0)) ; Reply v) = Reply v →
  1 ≤ v ≤ max_u32.
Proof.
  case_bool_decide; intros Hr; [injection Hr as <-; unfold max_u32; lia|].
  reply_inv Hr. apply ParseUint32_range in Hx. apply negb_true_iff, Z.eqb_neq in Hx0.
  injection Hr as <-. uarith.
Qed.

Lemma endLedger_range raw from v :
  (if bool_decide (raw = "") then Reply 0
   else v <~ or_400 (ParseUint32 raw) ; _ <~ require (negb ((v =? 0) || (v <? from))) ; Reply v)
  = Reply v →
  v = 0 ∨ from ≤ v ≤ max_u32.
Proof.
  case_bool_decide; intros Hr; [injection Hr as <-; by left|].
  reply_inv Hr. apply ParseUint32_range in Hx.
  rewrite negb_true_iff, orb_false_iff, Z.eqb_neq, Z.ltb_ge in Hx0. injection Hr as <-.
  right. uarith.
Qed.

Lemma ledgerBounds_range ps b :
  ledgerBounds ps = Reply b → 1 ≤ b.1 ≤ max_u32 ∧ (b.2 = 0 ∨ b.1 ≤ b.2 ≤ max_u32).
Proof.
  unfold ledgerBounds. intros Hr. apply reply_bind_Reply in Hr as (from & Hfrom & Hr).
  apply reply_bind_Reply in Hr as (to & Hto & Hr). injection Hr as <-. simpl.
  split; [by eapply startLedger_range|by eapply endLedger_range].
Qed.

(** A query is for the contract asked about, whether its bounds come from the
    parameters or from a cursor. *)
Ltac query_contract :=
  case_bool_decide; intros Hq; repeat (apply reply_bind_Reply in Hq as (? & _ & Hq));
  [|by injection Hq as <-];
  apply or_400_Reply in Hq;
  unfold decodeCursor, decodeStateCursor, decodeTransfersCursor, decodeTrustlinesCursor, decodeMovementsCursor in Hq;
  repeat match type of Hq with
  | match decode_payload ?c with _ => _ end = _ => destruct (decode_payload c); [|done]
  | (if negb ?b then _ else _) = _ => destruct b; simpl negb in Hq; cbv iota in Hq; [|done]
  | (if ?b then _ else _) = _ => let Hb := fresh "Hb" in destruct b eqn:Hb; [done|]
  end;
  injection Hq as <-; cbn;
  match goal with Hb : _ || bool_decide (?a ≠ ?b) = false |- ?a = ?b =>
    apply orb_false_iff in Hb as [_ Hb]; by apply bool_decide_eq_false, dec_stable in Hb end.

Section contracts.
Context `{SDKValidators} (net contractID : string) (ps : Values).

Lemma buildQuery_contract `{!Codec cursorPayload} q : buildQuery net ps contractID = Reply q → eq_ContractID q = contractID.
Proof. unfold buildQuery. query_contract. Qed.

Lemma stateHistoryQuery_contract `{!Codec stateCursorPayload} q : stateHistoryQuery net ps contractID = Reply q → sq_ContractID q = contractID.
Proof. unfold stateHistoryQuery. query_contract. Qed.

Lemma transfersQuery_contract `{!Codec transfersCursorPayload} q : transfersQuery net ps contractID = Reply q → tq_ContractID q = contractID.
Proof. unfold transfersQuery. query_contract. Qed.

Lemma trustlineHistoryQuery_contract `{!Codec trustlinesCursorPayload} q : trustlineHistoryQuery net ps contractID = Reply q → lq_ContractID q = contractID.
Proof. unfold trustlineHistoryQuery. query_contract. Qed.

Lemma movementsQuery_contract `{!Codec movementsCursorPayload} q : movementsQuery net ps contractID = Reply q → mq_ContractID q = contractID.
Proof. unfold movementsQuery. query_contract. Qed.
End contracts.

(** What COMPLETE means, for any kind and any moment of the reads. *)
Lemma complete_vouched rd contract kind hasMore from to cursorSeq :
  scanStatus hasMore from to (coverage rd contract kind from to cursorSeq) cursorSeq = scanComplete →
  hasMore = false ∧ HasKind contract kind = true ∧ to ≠ 0 ∧ to ≤ cursorSeq ∧
  ((∃ bf, rd_GetBackfill rd (ct_ContractID contract) = Ok bf ∧ CoversKind bf kind = true ∧
          u32 (bf_NextTo bf + 1) ≤ from) ∨ cursorSeq ≤ from).
Proof.
  unfold scanStatus, coverage. destruct hasMore; [done|].
  destruct (HasKind contract kind) eqn:Hk; simpl; [|done].
  destruct (rd_GetBackfill rd (ct_ContractID contract)) as [bf|]; simpl.
  - destruct (CoversKind bf kind) eqn:Hc; simpl;
      destruct (Z.eqb_spec to 0); simpl; try done; destruct (Z.ltb_spec cursorSeq to); try done;
      match goal with |- context [if ?a <? from then _ else _] => destruct (Z.ltb_spec a from) end;
      try (intros; split_and!; auto; right; lia).
    + intros _. split_and!; auto. left. exists bf. split_and!; auto. lia.
    + destruct (Z.ltb_spec from (u32 (bf_NextTo bf + 1))); [done|].
      intros _. split_and!; auto. left. exists bf. by split_and!.
    + destruct (Z.ltb_spec from cursorSeq); [done|]. intros _. split_and!; auto.
  - destruct (Z.eqb_spec to 0); simpl; [done|]. destruct (Z.ltb_spec cursorSeq to); [done|].
    destruct (Z.ltb_spec cursorSeq from).
    + intros. split_and!; auto. right; lia.
    + destruct (Z.ltb_spec from cursorSeq); [done|]. intros _. split_and!; auto.
Qed.

(** A page without more rows holds every selected row. *)
Lemma page_all {A K} (key : A → K) ltb limit rows out :
  page key ltb limit rows = Ok (out, false) → out ≡ₚ rows.
Proof.
  unfold page. destruct (Z.ltb_spec (limit + 1) 0); [done|].
  set (l := take _ _). destruct (Z.ltb_spec limit (Z.of_nat (length l))); [by destruct (limit <? 0)|].
  intros [= <-]. unfold l in *. rewrite length_take in *.
  rewrite take_ge by lia. apply order_by_perm.
Qed.

Lemma fetched_all {A K} (key : A → K) ltb limit select now d out :
  fetched (run now (select_page key ltb limit select) d) = Ok (out, false) → out ≡ₚ select d.
Proof. rewrite fetched_select_page. apply page_all. Qed.

(** Every selected row is in such a page. *)
Lemma listed `{Countable K0} {V A B} (P Q : K0 → V → bool) (scan : K0 * V → A) (record : A → B)
    (m : gmap K0 V) out k r :
  out ≡ₚ scan <$> sel (λ k r, P k r && Q k r) m →
  m !! k = Some r → P k r = true → Q k r = true → record (scan (k, r)) ∈ record <$> out.
Proof.
  intros Hout Hkr Hp Hq. apply list_elem_of_fmap_2. rewrite Hout.
  apply (list_elem_of_fmap_2 scan _ (k, r)), elem_of_sel. by rewrite Hp, Hq.
Qed.

(** The ledgers of a range that the walk of [contractID] vouches for, or that
    the live loop has just committed. *)
Definition range_vouched (network contractID kind : string) (from to cursorSeq : Z) (d : db) : Prop :=
  ∀ l, from ≤ l ≤ to → l ≤ cursorSeq ∧
    (l = cursorSeq ∨ ∃ b, db_backfill d !! (network, contractID) = Some b ∧ vouches b kind l).

Lemma complete_range `{Collation} network d1 d2 d3 dWalk contract kind hasMore from to cursorSeq :
  (∀ k b, db_backfill dWalk !! k = Some b → is_u32 (b_next_to b) ∧ b_next_to b < max_u32) →
  scanStatus hasMore from to
    (coverage (reader_at network d1 d2 d3 dWalk) contract kind from to cursorSeq) cursorSeq
  = scanComplete →
  hasMore = false ∧ HasKind contract kind = true ∧ to ≠ 0 ∧
  range_vouched network (ct_ContractID contract) kind from to cursorSeq dWalk.
Proof.
  intros Hwf (-> & Hk & Ht & Hto & Hcase)%complete_vouched. split_and!; try done.
  intros l Hl. split; [lia|]. destruct Hcase as [(bf & Hbf & Hc & Hnext)|?]; [right|left; lia].
  simpl in Hbf. unfold GetBackfill in Hbf. simpl in Hbf.
  destruct (db_backfill dWalk !! (network, ct_ContractID contract)) as [b|] eqn:Hb; [|done].
  simpl in Hbf. injection Hbf as <-. exists b. split; [done|].
  destruct (Hwf _ _ Hb) as [Hu Hm]. simpl in Hnext. rewrite (u32_small (b_next_to b)) in Hnext by done.
  rewrite u32_small in Hnext by uarith. split; [by apply CoversKind_spec in Hc|lia].
Qed.

(** ** Properties *)

(** A known contract is a row of the registration table. *)
Lemma knownContract_reader `{SDKValidators} `{Collation} network d1 d2 d3 d4 contractID contract :
  knownContract (reader_at network d1 d2 d3 d4) contractID = Reply contract →
  ∃ c, db_contracts d1 !! (network, contractID) = Some c ∧
       contract = contract_of ((network, contractID), c).
Proof.
  unfold knownContract. destruct (IsValidContractAddress contractID); [|done]. simpl.
  unfold GetContract. simpl. destruct (db_contracts d1 !! (network, contractID)) as [c|]; simpl.
  - intros [= <-]. by exists c.
  - done.
Qed.

(** The page size and bounds of a built query: a cursor's were re-validated, the
    others come from [limitParam] and [ledgerBounds]. *)
Ltac builder Hq dec :=
  unfold buildQuery, stateSnapshotQuery, stateHistoryQuery, transfersQuery,
    trustlineSnapshotQuery, trustlineHistoryQuery, movementsQuery in Hq;
  case_bool_decide;
  [ reply_inv Hq; apply dec in Hq as (_ & ? & _); tauto
  | reply_inv Hq; injection Hq as <-; simpl;
    repeat match goal with
      | E : limitParam _ = Reply _ |- _ => apply limitParam_range in E
      | E : ledgerBounds _ = Reply _ |- _ => apply ledgerBounds_range in E
      end; tauto ].

(** The honesty of a scanning handler, once unfolded. *)
Ltac honest Hh Hs Hwf :=
  let contract := fresh "contract" in let Hc := fresh "Hc" in let c := fresh "c" in
  let q := fresh "q" in let Hq := fresh "Hq" in let pg := fresh "pg" in let Hp := fresh "Hp" in
  let Hk := fresh "Hk" in let Hr := fresh "Hr" in
  apply reply_bind_Reply in Hh as (contract & Hc & Hh);
  apply reply_bind_Reply in Hh as (q & Hq & Hh);
  apply reply_bind_Reply in Hh as (pg & Hp & Hh); rewrite or_500_Reply in Hp;
  destruct pg as [? ?]; injection Hh as <-; simpl in Hs;
  apply knownContract_reader in Hc as (c & Hc & ->); simpl in Hq;
  apply complete_range in Hs as (-> & Hk & _ & Hr); [|done];
  apply bool_decide_eq_true in Hk; apply fetched_all in Hp;
  exists q, c; split_and!; [done..|]; intros; by apply (listed _ _ _ _ _ _ _ _ Hp).

(** COMPLETE means complete (events).  When the handler's reads see one
    state of the database, a page of events declared COMPLETE leaves nothing
    out: the contract derives events, every ledger of the requested range was
    derived by its walk (or is the one just committed) and is not past the
    cursor, and every stored event that matches the query after the resume
    position is in the page. *)
Theorem events_complete_honest `{SDKValidators} `{!Codec cursorPayload} `{Collation}
    (network contractID : string) (ps : Values) (d : db) (resp : eventsResponse) :
  (∀ k b, db_backfill d !! k = Some b → is_u32 (b_next_to b) ∧ b_next_to b < max_u32) →
  handleEvents network (reader_at network d d d d) contractID ps = Reply resp →
  evs_ScanStatus resp = scanComplete →
  ∃ q c, buildQuery network ps contractID = Reply q ∧
    db_contracts d !! (network, contractID) = Some c ∧ KindEvents ∈ c_kinds c ∧
    range_vouched network contractID KindEvents (eq_FromLedger q) (eq_ToLedger q)
      (evs_LatestLedger resp) d ∧
    ∀ k r, db_events d !! k = Some r → event_matches network q k r = true →
      after_text (eq_AfterID q) k.2 = true → event_record (scanEvent (k, r)) ∈ evs_Events resp.
Proof.
  intros Hwf Hh Hs. unfold handleEvents in Hh. reply_inv Hh.
  rename x into contract, x0 into q, x1 into pg. destruct pg as [events hasMore].
  reply_inv Hh. rename x into cursorSeq. injection Hh as <-. simpl in Hs.
  apply knownContract_reader in Hx as (c & Hc & ->). simpl in Hx0.
  apply complete_range in Hs as (-> & Hk & _ & Hr); [|done].
  exists q, c. split_and!; try done.
  - apply bool_decide_eq_true in Hk. done.
  - apply fetched_all in Hx1. intros k r Hkr Hm Ha. by apply (listed _ _ _ _ _ _ _ _ Hx1).
Qed.

(** COMPLETE means complete (histories).  The same holds of the state,
    transfer, trustline and movement endpoints: a page they declare COMPLETE,
    read from one state of the database, omits no stored row that matches the
    query after the resume position, and every ledger of the requested range
    was derived for that kind. *)
Theorem histories_complete_honest `{SDKValidators} `{!Codec movementsCursorPayload}
    `{!Codec trustlinesCursorPayload} `{!Codec transfersCursorPayload} `{!Codec stateCursorPayload}
    `{Collation} (network contractID : string) (ps : Values) (d : db) :
  (∀ k b, db_backfill d !! k = Some b → is_u32 (b_next_to b) ∧ b_next_to b < max_u32) →
  (∀ resp, handleStateHistory network (reader_at network d d d d) contractID ps = Reply resp →
     shr_ScanStatus resp = scanComplete →
     ∃ q c, stateHistoryQuery network ps contractID = Reply q ∧
       db_contracts d !! (network, contractID) = Some c ∧ KindState ∈ c_kinds c ∧
       range_vouched network contractID KindState (sq_FromLedger q) (sq_ToLedger q)
         (shr_LatestLedger resp) d ∧
       ∀ k r, db_state_changes d !! k = Some r → state_change_matches network q k r = true →
         after_text (sq_AfterID q) k.2 = true → state_change_record (scanStateChange (k, r)) ∈ shr_Changes resp) ∧
  (∀ resp, handleTransfers network (reader_at network d d d d) contractID ps = Reply resp →
     tfs_ScanStatus resp = scanComplete →
     ∃ q c, transfersQuery network ps contractID = Reply q ∧
       db_contracts d !! (network, contractID) = Some c ∧ KindTransfers ∈ c_kinds c ∧
       range_vouched network contractID KindTransfers (tq_FromLedger q) (tq_ToLedger q)
         (tfs_LatestLedger resp) d ∧
       ∀ k r, db_transfers d !! k = Some r → transfer_matches network q k r = true →
         after_text (tq_AfterID q) k.2 = true → transfer_record (scanTransfer (k, r)) ∈ tfs_Transfers resp) ∧
  (∀ resp, handleTrustlineHistory network (reader_at network d d d d) contractID ps = Reply resp →
     thr_ScanStatus resp = scanComplete →
     ∃ q c, trustlineHistoryQuery network ps contractID = Reply q ∧
       db_contracts d !! (network, contractID) = Some c ∧ KindTrustlines ∈ c_kinds c ∧
       range_vouched network contractID KindTrustlines (lq_FromLedger q) (lq_ToLedger q)
         (thr_LatestLedger resp) d ∧
       ∀ k r, db_trustline_changes d !! k = Some r → trustline_change_matches network q k r = true →
         after_text (lq_AfterID q) k.2 = true → trustline_change_record (scanTrustlineChange (k, r)) ∈ thr_Changes resp) ∧
  (∀ resp, handleMovements network (reader_at network d d d d) contractID ps = Reply resp →
     mvs_ScanStatus resp = scanComplete →
     ∃ q c, movementsQuery network ps contractID = Reply q ∧
       db_contracts d !! (network, contractID) = Some c ∧ KindMovements ∈ c_kinds c ∧
       range_vouched network contractID KindMovements (mq_FromLedger q) (mq_ToLedger q)
         (mvs_LatestLedger resp) d ∧
       ∀ k r, db_movements d !! k = Some r → movement_matches network q k r = true →
         after_text2 (mq_AfterID q) (mq_AfterRole q) (k.1.2, k.2) = true → movement_record (scanMovement (k, r)) ∈ mvs_Movements resp).
Proof.
  intros Hwf. split_and!; intros resp Hh Hs.
  - unfold handleStateHistory in Hh. honest Hh Hs Hwf.
  - unfold handleTransfers in Hh. honest Hh Hs Hwf.
  - unfold handleTrustlineHistory in Hh. honest Hh Hs Hwf.
  - unfold handleMovements in Hh. honest Hh Hs Hwf.
Qed.

(** No request reaches the store with a page size outside 1..1000 or an
    empty ledger range: whatever the parameters, each query builder either
    refuses or yields such a query (cursors keep the bounds they were minted
    with, so only their page size is re-checked). *)
Theorem queries_validated `{SDKValidators} `{!Codec cursorPayload} `{!Codec movementsCursorPayload}
    `{!Codec trustlinesCursorPayload} `{!Codec transfersCursorPayload} `{!Codec stateCursorPayload}
    (network contractID : string) (ps : Values) :
  let bounded from to := getParam ps "cursor" = "" →
        1 ≤ from ≤ max_u32 ∧ (to = 0 ∨ from ≤ to ≤ max_u32) in
  (∀ q, buildQuery network ps contractID = Reply q →
     1 ≤ eq_Limit q ≤ maxLimit ∧ bounded (eq_FromLedger q) (eq_ToLedger q)) ∧
  (∀ q, stateSnapshotQuery network ps contractID = Reply q → 1 ≤ sq_Limit q ≤ maxLimit) ∧
  (∀ q, stateHistoryQuery network ps contractID = Reply q →
     1 ≤ sq_Limit q ≤ maxLimit ∧ bounded (sq_FromLedger q) (sq_ToLedger q)) ∧
  (∀ q, transfersQuery network ps contractID = Reply q →
     1 ≤ tq_Limit q ≤ maxLimit ∧ bounded (tq_FromLedger q) (tq_ToLedger q)) ∧
  (∀ q, trustlineSnapshotQuery network ps contractID = Reply q → 1 ≤ lq_Limit q ≤ maxLimit) ∧
  (∀ q, trustlineHistoryQuery network ps contractID = Reply q →
     1 ≤ lq_Limit q ≤ maxLimit ∧ bounded (lq_FromLedger q) (lq_ToLedger q)) ∧
  (∀ q, movementsQuery network ps contractID = Reply q →
     1 ≤ mq_Limit q ≤ maxLimit ∧ bounded (mq_FromLedger q) (mq_ToLedger q)).
Proof.
  intros bounded. unfold bounded.
  split_and!; intros q Hq.
  - builder Hq (decodeCursor_valid network contractID).
  - builder Hq (decodeStateCursor_valid network contractID kindSnapshot).
  - builder Hq (decodeStateCursor_valid network contractID kindHistory).
  - builder Hq (decodeTransfersCursor_valid network contractID).
  - builder Hq (decodeTrustlinesCursor_valid network contractID kindTrustlines).
  - builder Hq (decodeTrustlinesCursor_valid network contractID kindTrustlineHistory).
  - builder Hq (decodeMovementsCursor_valid network contractID).
Qed.

(** ** Witnesses and concrete replies *)

(** Validators that accept everything. *)
Definition lax_validators : SDKValidators :=
  {| IsValidContractAddress := λ _, true; SafeUnmarshalBase64 := λ _, true |}.

(** A codec for first pages, whose requests carry no cursor. *)
Definition void_codec (P : Type) : Codec P := {|
  encode_payload _ := "cursor"; decode_payload _ := None; encodable _ := False |}.

Definition demo_ping (ledger : Z) (id : string) : Event :=
  mkEvent id "CA" ledger (5 * ledger) id 0 0 0 "ping" [] "" "".

Definition demo_move (ledger : Z) (id : string) : Movement :=
  mkMovement "CA" id "sender" "CT" "transfer" "" "1" "" ledger (5 * ledger).

(** One contract whose walk has vouched for ledgers 5 and up; cursor at 7. *)
Definition demo_live_db : db :=
  set_cursor (λ _, {[ "testnet" := mkCursor 7 "h7" ]})
    (set_backfill (λ _, {[ ("testnet", "CA") := mkBackfillRow 5 4 true None ["events"; "movements"] 1 ]})
      (set_contracts (λ _, {[ ("testnet", "CA") :=
                                mkContractRow "api" ["events"; "movements"] None 1 ]})
        match run 1 (insertRecords "testnet"
                 (mkRecords [demo_ping 6 "0006-1"] [] [] [] [demo_move 6 "0006-1"])) empty_db with
        | Ok (_, d) => d
        | Err _ => empty_db
        end)).

(** The live loop's commit of ledger 8, which carries an event. *)
Definition demo_commit_8 : Tx unit :=
  CommitLedger "testnet" (mkLedgerRecord 8 "h8" "h7" 40)
    (mkRecords [demo_ping 8 "0008-1"] [] [] [] []).

Lemma demo_live_wf : ∀ k b, db_backfill demo_live_db !! k = Some b →
  is_u32 (b_next_to b) ∧ b_next_to b < max_u32.
Proof.
  intros k b Hb.
  change (({[ ("testnet", "CA") := mkBackfillRow 5 4 true None ["events"; "movements"] 1 ]}
           : gmap (string * string) backfill_row) !! k = Some b) in Hb.
  apply lookup_singleton_Some in Hb as [_ <-]. simpl. uarith.
Qed.

Lemma events_complete_honest_witness :
  ∃ resp, @handleEvents lax_validators (void_codec _) "testnet"
      (@reader_at bytewise "testnet" demo_live_db demo_live_db demo_live_db demo_live_db) "CA"
      [("startLedger", "5"); ("endLedger", "7")] = Reply resp ∧
    event_record (demo_ping 6 "0006-1") ∈ evs_Events resp.
Proof.
  eexists. split; [vm_compute; reflexivity|].
  edestruct (@events_complete_honest lax_validators (void_codec _) bytewise "testnet" "CA"
      [("startLedger", "5"); ("endLedger", "7")] demo_live_db)
    as (q & c & Hq & _ & _ & _ & Hall).
  - exact demo_live_wf.
  - vm_compute. reflexivity.
  - vm_compute. reflexivity.
  - vm_compute in Hq. injection Hq as <-.
    apply (Hall ("testnet", "0006-1") (event_row_of (demo_ping 6 "0006-1")));
      vm_compute; reflexivity.
Defined.

Lemma histories_complete_honest_witness :
  ∃ resp, @handleMovements lax_validators (void_codec _) "testnet"
      (@reader_at bytewise "testnet" demo_live_db demo_live_db demo_live_db demo_live_db) "CA"
      [("startLedger", "5"); ("endLedger", "7")] = Reply resp ∧
    movement_record (demo_move 6 "0006-1") ∈ mvs_Movements resp.
Proof.
  eexists. split; [vm_compute; reflexivity|].
  edestruct (@histories_complete_honest lax_validators (void_codec _) (void_codec _) (void_codec _)
      (void_codec _) bytewise "testnet" "CA" [("startLedger", "5"); ("endLedger", "7")] demo_live_db)
    as (_ & _ & _ & Hm).
  - exact demo_live_wf.
  - edestruct Hm as (q & c & Hq & _ & _ & _ & Hall).
    + vm_compute. reflexivity.
    + vm_compute. reflexivity.
    + vm_compute in Hq. injection Hq as <-.
      apply (Hall ("testnet", "CA", "0006-1", "sender") (movement_row_of (demo_move 6 "0006-1")));
        vm_compute; reflexivity.
Defined.

(** Reading the page before the cursor breaks that promise.  When the live
    loop commits ledger 8 between the handler's page read and its cursor read,
    the reply is COMPLETE for a range ending at 8 although it omits the event
    of ledger 8 that the database already holds. *)
Theorem events_complete_race :
  ∃ d2 resp, run 2 demo_commit_8 demo_live_db = Ok (tt, d2) ∧
    @handleEvents lax_validators (void_codec _) "testnet"
      (@reader_at bytewise "testnet" demo_live_db demo_live_db d2 d2) "CA"
      [("startLedger", "7"); ("endLedger", "8")] = Reply resp ∧
    evs_ScanStatus resp = scanComplete ∧ evs_LatestLedger resp = 8 ∧ evs_Events resp = [] ∧
    db_events d2 !! ("testnet", "0008-1") = Some (event_row_of (demo_ping 8 "0008-1")).
Proof.
  eexists _, _. split; [vm_compute; reflexivity|]. split; [vm_compute; reflexivity|].
  split_and!; vm_compute; reflexivity.
Qed.
