(* ===== verification/Extract.v ===== *)
(** * Extraction ([internal/extract])

    From one ledger's metadata to Sierpe's records.  The Stellar SDK is a
    parameter ([SDK]): its decoders answer, fail, or panic.  XDR unions are a
    tag with an arm that may be nil, as their Go structs are.  [Result] is
    written through a pointer: a panic keeps what was appended before it. *)

From Stdlib Require Import Ascii.
From S2P Require Import Prelude Db Rows Registrations Registry Api.

(** ** Definitions *)

(** *** The SDK's data, as far as the code reads it *)

(** A call into the SDK: a value, an error, or a panic. *)
Inductive sdk (A : Type) := SOk (a : A) | SErr | SPanic.
Arguments SOk {_} _.
Arguments SErr {_}.
Arguments SPanic {_}.

(** [xdr.ScAddress]: is it of the contract type, and its [ContractId] arm. *)
Record ScAddress := mkScAddress { sa_IsContract : bool; sa_ContractId : option string }.

(** [xdr.Int128Parts] *)
Record Int128Parts := mkInt128 { i128_Hi : Z; i128_Lo : Z }.

(** [xdr.ScVal]: the arms the code opens; [None] is a nil arm. *)
#[warnings="-register-all"] Inductive ScVal :=
  | ScvAddress (a : option ScAddress)
  | ScvString (s : option string)
  | ScvSymbol (s : option string)
  | ScvI128 (p : option Int128Parts)
  | ScvU64 (n : option Z)
  | ScvBytes (b : option string)
  | ScvMap (m : option (list (ScVal * ScVal)))
  | ScvOther (tag : Z).

(** [xdr.ContractEventV0], and the versioned body around it. *)
Record ContractEventV0 := mkEventV0 { v0_Topics : list ScVal; v0_Data : ScVal }.

Inductive EventBody := BodyV0 (v0 : option ContractEventV0) | BodyOther (v : Z).

Record ContractEvent := mkContractEvent {
  ce_IsContract : bool; ce_ContractId : option string; ce_Body : EventBody }.

(** [xdr.ContractDataEntry] *)
Record ContractDataEntry := mkContractData {
  cde_Contract : ScAddress; cde_Key : ScVal; cde_Temporary : bool; cde_Val : ScVal }.

(** *** The SDK's functions *)
Class SDK := {
  LedgerCloseMeta : Type;
  LedgerTransaction : Type;
  TrustLineAsset : Type;
  Asset : Type;
  AccountId : Type;
  LedgerSeq : LedgerCloseMeta → Z;
  CloseTime : LedgerCloseMeta → Z;
  (** [ingest.NewLedgerTransactionReaderFromLedgerCloseMeta] and the answers of
      its [Read] before [io.EOF]; [None] is a failing [Read]. *)
  ReadLedger : string → LedgerCloseMeta → option (list (option LedgerTransaction));
  Successful : LedgerTransaction → sdk bool;
  GetTransactionEvents : LedgerTransaction → sdk (list (list ContractEvent));
  TransactionHash : LedgerTransaction → string;
  tx_Index : LedgerTransaction → Z;
  (** [toid.New(ledger, tx, 0).ToInt64()] *)
  toid : Z → Z → sdk Z;
  strkey_EncodeContract : string → option string;
  MarshalBase64_event : ContractEvent → sdk string;
  MarshalBase64 : ScVal → sdk string;
  address_String : ScAddress → sdk string;
  String128Raw : Int128Parts → string;
  IsPoolShare : TrustLineAsset → bool;
  ToAsset : TrustLineAsset → sdk Asset;
  StringCanonical : Asset → sdk string;
  asset_ContractID : Asset → string → sdk string;
  GetAddress : AccountId → sdk string }.

(** [xdr.TrustLineEntry] *)
Record TrustLineEntry `{SDK} := mkTrustLine {
  tle_AccountId : AccountId; tle_Asset : TrustLineAsset; tle_Balance : Z; tle_Limit : Z;
  tle_Flags : Z }.

(** [xdr.LedgerEntry]'s data. *)
Inductive LedgerEntry `{SDK} :=
  | EntryContractData (d : option ContractDataEntry)
  | EntryTrustLine (t : option TrustLineEntry)
  | EntryOther.

Inductive LedgerEntryType := TypeContractData | TypeTrustline | TypeOther.

Inductive LedgerEntryChangeType := Created | Updated | Removed | Restored | ChangeOther (tag : Z).

(** [ingest.Change] *)
Record Change `{SDK} := mkChange {
  ch_Type : LedgerEntryType; ch_Pre : option LedgerEntry; ch_Post : option LedgerEntry;
  ch_ChangeType : LedgerEntryChangeType; ch_OperationIndex : Z }.

Class SDKChanges `{SDK} := GetChanges : LedgerTransaction → sdk (list Change).

(** Getters of a union: absent when the tag differs, a panic on a nil arm. *)
Definition arm {A} (a : option A) : sdk (option A) :=
  match a with Some x => SOk (Some x) | None => SPanic end.

Definition GetV0 (b : EventBody) : sdk (option ContractEventV0) :=
  match b with BodyV0 v0 => arm v0 | BodyOther _ => SOk None end.

Definition GetSym (v : ScVal) : sdk (option string) :=
  match v with ScvSymbol s => arm s | _ => SOk None end.

Definition GetContractData `{SDK} (e : LedgerEntry) : sdk (option ContractDataEntry) :=
  match e with EntryContractData d => arm d | _ => SOk None end.

Definition GetTrustLine `{SDK} (e : LedgerEntry) : sdk (option TrustLineEntry) :=
  match e with EntryTrustLine t => arm t | _ => SOk None end.

(** The [Must] accessors panic on a nil arm. *)
Definition must {A} (a : option A) : sdk A :=
  match a with Some x => SOk x | None => SPanic end.

Definition sdk_bind {A B} (m : sdk A) (f : A → sdk B) : sdk B :=
  match m with SOk a => f a | SErr => SErr | SPanic => SPanic end.

Declare Scope sdk_scope.
Notation "x <~~ t ; k" := (sdk_bind t (λ x, k))
  (at level 20, t at level 100, k at level 200) : sdk_scope.
#[local] Open Scope sdk_scope.

Fixpoint sdk_map {A B} (f : A → sdk B) (l : list A) : sdk (list B) :=
  match l with
  | [] => SOk []
  | x :: l => y <~~ f x ; ys <~~ sdk_map f l ; SOk (y :: ys)
  end.

(** [fmt.Sprintf("%0<width>d", x)]: at least [width] characters, zero-padded,
    a sign counted among them. *)
Definition digit_char (d : Z) : ascii := ascii_of_N (Z.to_N (48 + d)).

Fixpoint digits (n : nat) (x : Z) : string :=
  match n with
  | O => EmptyString
  | S n => (digits n (x / 10) ++ String (digit_char (x mod 10)) EmptyString)%string
  end.

Definition pad_nonneg (width : nat) (x : Z) : string :=
  if x <? 10 ^ Z.of_nat width then digits width x else pretty x.

Definition pad (width : nat) (x : Z) : string :=
  if x <? 0 then ("-" ++ pad_nonneg (width - 1) (- x))%string else pad_nonneg width x.

Definition record_id (prefix index : Z) : string := (pad 19 prefix ++ "-" ++ pad 10 index)%string.

(** *** [Result] *)
Record Result := mkResult {
  rs_Events : list Event; rs_StateChanges : list StateChange; rs_Transfers : list Transfer;
  rs_TrustlineChanges : list TrustlineChange; rs_Movements : list Movement;
  rs_FailedTxs : Z; rs_SuppressedTxs : Z; rs_SuppressedEvents : Z;
  rs_SuppressedTransfers : Z; rs_SuppressedTrustlines : Z; rs_ForeignUndecodable : Z }.

Definition no_result : Result := mkResult [] [] [] [] [] 0 0 0 0 0 0.

(** Appending to the lists and adding to the counters. *)
Definition res_app (a b : Result) : Result :=
  mkResult (rs_Events a ++ rs_Events b) (rs_StateChanges a ++ rs_StateChanges b)
    (rs_Transfers a ++ rs_Transfers b) (rs_TrustlineChanges a ++ rs_TrustlineChanges b)
    (rs_Movements a ++ rs_Movements b)
    (rs_FailedTxs a + rs_FailedTxs b) (rs_SuppressedTxs a + rs_SuppressedTxs b)
    (rs_SuppressedEvents a + rs_SuppressedEvents b)
    (rs_SuppressedTransfers a + rs_SuppressedTransfers b)
    (rs_SuppressedTrustlines a + rs_SuppressedTrustlines b)
    (rs_ForeignUndecodable a + rs_ForeignUndecodable b).

Definition of_events l := mkResult l [] [] [] [] 0 0 0 0 0 0.
Definition of_states l := mkResult [] l [] [] [] 0 0 0 0 0 0.
Definition of_transfers l := mkResult [] [] l [] [] 0 0 0 0 0 0.
Definition of_trustlines l := mkResult [] [] [] l [] 0 0 0 0 0 0.
Definition of_movements l := mkResult [] [] [] [] l 0 0 0 0 0 0.
Definition one_FailedTx := mkResult [] [] [] [] [] 1 0 0 0 0 0.
Definition one_SuppressedTx := mkResult [] [] [] [] [] 0 1 0 0 0 0.
Definition one_SuppressedEvent := mkResult [] [] [] [] [] 0 0 1 0 0 0.
Definition one_SuppressedTransfer := mkResult [] [] [] [] [] 0 0 0 1 0 0.
Definition one_SuppressedTrustline := mkResult [] [] [] [] [] 0 0 0 0 1 0.
Definition one_Foreign := mkResult [] [] [] [] [] 0 0 0 0 0 1.

(** The computations of this package: the [*Result] they write and the memo of
    [assetContracts]; [None] is a panic. *)
Definition mem : Type := Result * gmap string string.
Definition X (A : Type) : Type := mem → option A * mem.

Definition ret {A} (a : A) : X A := λ m, (Some a, m).

Definition x_bind {A B} (t : X A) (f : A → X B) : X B := λ m,
  match t m with
  | (Some a, m) => f a m
  | (None, m) => (None, m)
  end.

Declare Scope extract_scope.
Notation "x <-x t ; k" := (x_bind t (λ x, k))
  (at level 20, t at level 100, k at level 200) : extract_scope.
Notation "t ;;x k" := (x_bind t (λ _, k))
  (at level 100, k at level 200, right associativity) : extract_scope.
#[local] Open Scope extract_scope.

Definition emit (delta : Result) : X unit := λ m, (Some tt, (res_app m.1 delta, m.2)).

(** A call that may fail: [None] is an error. *)
Definition try {A} (s : sdk A) : X (option A) := λ m,
  match s with
  | SOk a => (Some (Some a), m)
  | SErr => (Some None, m)
  | SPanic => (None, m)
  end.

(** A call whose signature returns no error: it answers or panics. *)
Definition call {A} (s : sdk A) : X A := λ m,
  match s with SOk a => (Some a, m) | SErr | SPanic => (None, m) end.

Fixpoint x_iter {A} (f : Z → A → X unit) (i : Z) (l : list A) : X unit :=
  match l with
  | [] => ret tt
  | x :: l => f i x ;;x x_iter f (i + 1) l
  end.

(** *** Transfers ([transfers.go]) *)

Definition RoleSender : string := "sender".
Definition RoleRecipient : string := "recipient".

Definition transferEventNames (sym : string) : option string :=
  if existsb (λ n, bool_decide (n = sym)) ["transfer"; "mint"; "burn"; "clawback"]
  then Some sym else None.

Definition i128Amount `{SDK} (parts : Int128Parts) : sdk string :=
  let s := String128Raw parts in
  match s with
  | String c _ => if Ascii.eqb c "-"%char then SErr else SOk s
  | EmptyString => SOk s
  end.

Definition mapKey (v : ScVal) : sdk (option string) :=
  match v with
  | ScvSymbol s => x <~~ must s ; SOk (Some x)
  | ScvString s => x <~~ must s ; SOk (Some x)
  | _ => SOk None
  end.

(** [hex.EncodeToString] *)
Definition hex_digit (n : N) : ascii :=
  ascii_of_N (if (n <? 10)%N then 48 + n else 87 + n)%N.

Fixpoint hex_encode (b : string) : string :=
  match b with
  | EmptyString => EmptyString
  | String c b => String (hex_digit (N_of_ascii c / 16)%N)
                    (String (hex_digit (N_of_ascii c mod 16)%N) (hex_encode b))
  end.

Definition muxedIDString (v : ScVal) : sdk string :=
  match v with
  | ScvU64 n => x <~~ must n ; SOk (pretty x)
  | ScvBytes b => x <~~ must b ; SOk (hex_encode x)
  | ScvString s => must s
  | _ => SErr
  end.

(** The loop over the entries of a CAP-67 map. *)
Fixpoint decodeMap `{SDK} (amt muxedID : string) (entries : list (ScVal * ScVal))
    : sdk (string * string) :=
  match entries with
  | [] => if bool_decide (amt = "") then SErr else SOk (amt, muxedID)
  | (k, v) :: entries =>
      key <~~ mapKey k ;
      match key with
      | None => SErr
      | Some key =>
          if bool_decide (key = "amount") then
            match v with
            | ScvI128 p => parts <~~ must p ; a <~~ i128Amount parts ; decodeMap a muxedID entries
            | _ => SErr
            end
          else if bool_decide (key = "to_muxed_id") then
            id <~~ muxedIDString v ; decodeMap amt id entries
          else SErr
      end
  end.

Definition decodeTransferData `{SDK} (v : ScVal) : sdk (string * string) :=
  match v with
  | ScvI128 p => parts <~~ must p ; a <~~ i128Amount parts ; SOk (a, "")
  | ScvMap None => SErr
  | ScvMap (Some entries) => decodeMap "" "" entries
  | _ => SErr
  end.

(** The addresses and the asset among the topics after the first. *)
Fixpoint decodeTopics `{SDK} (addrs : list string) (asset : string) (topics : list ScVal)
    : sdk (list string * string) :=
  match topics with
  | [] => SOk (addrs, asset)
  | ScvAddress a :: topics =>
      a <~~ must a ; s <~~ address_String a ; decodeTopics (addrs ++ [s]) asset topics
  | ScvString s :: topics => s <~~ must s ; decodeTopics addrs s topics
  | _ :: _ => SErr
  end.

(** The [switch transferType]: sender and recipient. *)
Definition transferParties (transferType : string) (addrs : list string) : sdk (string * string) :=
  if bool_decide (transferType = "transfer") then
    match addrs with [from; to] => SOk (from, to) | _ => SErr end
  else if bool_decide (transferType = "mint") then
    match last addrs with Some to => SOk ("", to) | None => SErr end
  else if bool_decide (transferType = "burn") then
    match addrs with from :: _ => SOk (from, "") | [] => SErr end
  else if bool_decide (transferType = "clawback") then
    match last addrs with Some from => SOk (from, "") | None => SErr end
  else SOk ("", "").

(** Where a record comes from: [seq, closedAt, txHash, txIndex, opIndex,
    eventIndex, prefix] of the builders. *)
Record origin := mkOrigin {
  or_seq : Z; or_closedAt : Z; or_txHash : string; or_txIndex : Z; or_opIndex : Z;
  or_index : Z; or_prefix : Z }.

(** [body.Topics[1:]] panics on an event without topics. *)
Definition buildTransfer `{SDK} (body : ContractEventV0) (transferType contractID : string)
    (o : origin) : sdk Transfer :=
  match v0_Topics body with
  | [] => SPanic
  | _ :: topics =>
      ta <~~ decodeTopics [] "" topics ;
      ft <~~ transferParties transferType ta.1 ;
      am <~~ decodeTransferData (v0_Data body) ;
      SOk (mkTransfer (record_id (or_prefix o) (or_index o)) contractID (or_seq o) (or_closedAt o)
             (or_txHash o) (or_txIndex o) (or_opIndex o) (or_index o) transferType
             ft.1 ft.2 am.2 am.1 ta.2)
  end.

(** *** Movements ([movements.go]) *)

Definition watches (watch : Snapshot) (contractID kind : string) : bool :=
  match Get watch contractID with Some c => HasKind c kind | None => false end.

Fixpoint participants `{SDK} (topics : list ScVal) (watch : Snapshot) : sdk bool :=
  match topics with
  | [] => SOk false
  | ScvAddress a :: topics =>
      addr <~~ must a ;
      if negb (sa_IsContract addr) then participants topics watch
      else
        cid <~~ must (sa_ContractId addr) ;
        match strkey_EncodeContract cid with
        | None => participants topics watch
        | Some id => if watches watch id KindMovements then SOk true
                     else participants topics watch
        end
  | _ :: topics => participants topics watch
  end.

Definition participatesWatched `{SDK} (body : ContractEventV0) (watch : Snapshot) : sdk bool :=
  match v0_Topics body with [] => SPanic | _ :: topics => participants topics watch end.

(** [add] of [movementsOf]. *)
Definition attribution (t : Transfer) (rawXDR : string) (watch : Snapshot)
    (owner role counterparty : string) : list Movement :=
  if bool_decide (owner = "") then []
  else if negb (watches watch owner KindMovements) then []
  else [mkMovement owner (tr_ID t) role (tr_ContractID t) (tr_TransferType t) counterparty
          (tr_Amount t) rawXDR (tr_LedgerSequence t) (tr_ClosedAt t)].

Definition movementsOf (t : Transfer) (rawXDR : string) (watch : Snapshot) : list Movement :=
  attribution t rawXDR watch (tr_FromAddress t) RoleSender (tr_ToAddress t) ++
  attribution t rawXDR watch (tr_ToAddress t) RoleRecipient (tr_FromAddress t).

(** *** Events ([extract.go]) *)

Definition buildEvent `{SDK} (ev : ContractEvent) (contractID : string) (o : origin) : sdk Event :=
  rawXDR <~~ MarshalBase64_event ev ;
  body <~~ GetV0 (ce_Body ev) ;
  match body with
  | None => SErr
  | Some body =>
      topics <~~ sdk_map MarshalBase64 (v0_Topics body) ;
      value <~~ MarshalBase64 (v0_Data body) ;
      name <~~ match v0_Topics body with
               | [] => SOk None
               | t :: _ => GetSym t
               end ;
      SOk (mkEvent (record_id (or_prefix o) (or_index o)) contractID (or_seq o) (or_closedAt o)
             (or_txHash o) (or_txIndex o) (or_opIndex o) (or_index o) (default "" name)
             topics value rawXDR)
  end.

(** *** State changes *)

Definition changeTypeName (t : LedgerEntryChangeType) : sdk string :=
  match t with
  | Created => SOk "created" | Updated => SOk "updated"
  | Removed => SOk "removed" | Restored => SOk "restored"
  | ChangeOther _ => SErr
  end.

(** [valueOf]: the encoded value of one side of a change. *)
Definition valueOf `{SDK} (e : option LedgerEntry) : sdk string :=
  match e with
  | None => SOk ""
  | Some e => d <~~ GetContractData e ;
              match d with None => SErr | Some d => MarshalBase64 (cde_Val d) end
  end.

Definition buildStateChange `{SDK} (ch : Change) (data : ContractDataEntry) (contractID : string)
    (o : origin) : sdk StateChange :=
  keyXDR <~~ MarshalBase64 (cde_Key data) ;
  changeType <~~ changeTypeName (ch_ChangeType ch) ;
  pre <~~ valueOf (ch_Pre ch) ;
  post <~~ valueOf (ch_Post ch) ;
  SOk (mkStateChange (record_id (or_prefix o) (or_index o)) contractID (or_seq o) (or_closedAt o)
         (or_txHash o) (or_txIndex o) (i32 (ch_OperationIndex ch)) (or_index o) changeType
         keyXDR (if cde_Temporary data then "temporary" else "persistent") pre post).

(** *** Trustlines ([trustlines.go]) *)

(** [side]: the balance, limit and flags of one side of a change. *)
Definition trustlineSide `{SDK} (e : option LedgerEntry) : sdk (option TrustLineEntry) :=
  match e with None => SOk None | Some e => GetTrustLine e end.

Definition buildTrustlineChange `{SDK} (ch : Change) (tl : TrustLineEntry) (contractID asset : string)
    (o : origin) : sdk TrustlineChange :=
  changeType <~~ changeTypeName (ch_ChangeType ch) ;
  account <~~ GetAddress (tle_AccountId tl) ;
  pre <~~ trustlineSide (ch_Pre ch) ;
  post <~~ trustlineSide (ch_Post ch) ;
  match post, pre with
  | None, None => SErr
  | _, _ =>
      let flags := match post, pre with
                   | Some t, _ => tle_Flags t
                   | None, Some t => tle_Flags t
                   | None, None => 0
                   end in
      SOk (mkTrustlineChange (record_id (or_prefix o) (or_index o)) contractID account asset
             (or_seq o) (or_closedAt o) (or_txHash o) (or_txIndex o) (i32 (ch_OperationIndex ch))
             (or_index o) changeType (tle_Balance <$> pre) (tle_Balance <$> post)
             (tle_Limit <$> pre) (tle_Limit <$> post) flags)
  end.

(** *** One ledger *)
Section extraction.
Context `{S : SDK} `{!SDKChanges}.

(** [scope]: [sc_assets] is the passphrase of a non-nil [assetContracts]. *)
Record scope := mkScope { sc_assets : option string; sc_wantMovements : bool }.

(** [contractIDFor], reading and filling the memo. *)
Definition contractIDFor (passphrase : string) (asset : Asset) : X (option string) :=
  key <-x call (StringCanonical asset) ;
  known <-x (λ m, (Some (m.2 !! key), m)) ;
  match known with
  | Some id => ret (Some id)
  | None =>
      raw <-x try (asset_ContractID asset passphrase) ;
      match raw ≫= strkey_EncodeContract with
      | None => ret None
      | Some id => λ m, (Some (Some id), (m.1, <[key := id]> m.2))
      end
  end.

Section ledger.
Context (watch : Snapshot) (scp : scope).

(** The record or, on an error, what is counted instead. *)
Definition record_or {A} (built : sdk A) (on_err : Result) (wrap : list A → Result) : X unit :=
  r <-x try built ;
  match r with Some x => emit (wrap [x]) | None => emit on_err end.

(** The token-movement half of the loop body of [txEvents]. *)
Definition txTransfer (ev : ContractEvent) (contractID : string) (o : origin) : X unit :=
  let emitsTransfers := watches watch contractID KindTransfers in
  let lost := if emitsTransfers then one_SuppressedTransfer else one_Foreign in
  if negb emitsTransfers && negb (sc_wantMovements scp) then ret tt
  else
    body <-x call (GetV0 (ce_Body ev)) ;
    match body with
    | None => ret tt
    | Some body =>
        match v0_Topics body with
        | [] => ret tt
        | topic0 :: _ =>
            sym <-x call (GetSym topic0) ;
            match sym ≫= transferEventNames with
            | None => ret tt
            | Some transferType =>
                wantMovements <-x (if sc_wantMovements scp
                                   then call (participatesWatched body watch)
                                   else ret false) ;
                if negb emitsTransfers && negb wantMovements then ret tt
                else
                  record <-x try (buildTransfer body transferType contractID o) ;
                  match record with
                  | None => emit lost
                  | Some record =>
                      (if emitsTransfers then emit (of_transfers [record]) else ret tt) ;;x
                      if wantMovements then
                        rawXDR <-x try (MarshalBase64_event ev) ;
                        match rawXDR with
                        | None => emit lost
                        | Some rawXDR => emit (of_movements (movementsOf record rawXDR watch))
                        end
                      else ret tt
                  end
            end
        end
    end.

(** The loop body of [txEvents]. *)
Definition txEvent (ev : ContractEvent) (o : origin) : X unit :=
  if negb (ce_IsContract ev) then ret tt
  else
    match ce_ContractId ev with
    | None => ret tt
    | Some cid =>
        match strkey_EncodeContract cid with
        | None => emit one_SuppressedEvent
        | Some contractID =>
            (if watches watch contractID KindEvents
             then record_or (buildEvent ev contractID o) one_SuppressedEvent of_events
             else ret tt) ;;x
            txTransfer ev contractID o
        end
    end.

Definition at_index (o : origin) (opIndex index : Z) : origin :=
  mkOrigin (or_seq o) (or_closedAt o) (or_txHash o) (or_txIndex o) opIndex index (or_prefix o).

(** The two nested loops of [txEvents]; [eventIndex] is an [int32] counted
    before any filtering. *)
Fixpoint opEvents (o : origin) (opIndex eventIndex : Z) (evs : list ContractEvent) : X unit :=
  match evs with
  | [] => ret tt
  | ev :: evs =>
      txEvent ev (at_index o opIndex eventIndex) ;;x
      opEvents o opIndex (i32 (eventIndex + 1)) evs
  end.

Fixpoint operationEvents (o : origin) (opIndex eventIndex : Z) (ops : list (list ContractEvent))
    : X unit :=
  match ops with
  | [] => ret tt
  | evs :: ops =>
      opEvents o (i32 opIndex) eventIndex evs ;;x
      operationEvents o (opIndex + 1) (i32 (eventIndex + Z.of_nat (length evs))) ops
  end.

(** [toid.New(int32(seq), int32(tx.Index), 0).ToInt64()] and the transaction's
    own fields. *)
Definition tx_origin (tx : LedgerTransaction) (seq closedAt : Z) : X origin :=
  prefix <-x call (toid (i32 seq) (i32 (tx_Index tx))) ;
  ret (mkOrigin seq closedAt (TransactionHash tx) (i32 (tx_Index tx)) 0 0 prefix).

Definition txEvents (tx : LedgerTransaction) (seq closedAt : Z) : X bool :=
  events <-x try (GetTransactionEvents tx) ;
  match events with
  | None => ret false
  | Some ops =>
      o <-x tx_origin tx seq closedAt ;
      operationEvents o 0 0 ops ;;x
      ret true
  end.

(** The entry a change is attributed to: its post side, else its pre side. *)
Definition sideOf (ch : Change) : option LedgerEntry :=
  match ch_Post ch with Some e => Some e | None => ch_Pre ch end.

Definition stateChange (ch : Change) (o : origin) : X unit :=
  match sideOf ch with
  | None => ret tt
  | Some entry =>
      data <-x call (GetContractData entry) ;
      match data with
      | None => ret tt
      | Some data =>
          match sa_ContractId (cde_Contract data) with
          | None => ret tt
          | Some cid =>
              match strkey_EncodeContract cid with
              | None => emit one_SuppressedEvent
              | Some contractID =>
                  if watches watch contractID KindState
                  then record_or (buildStateChange ch data contractID o) one_SuppressedEvent of_states
                  else ret tt
              end
          end
      end
  end.

Definition trustline (passphrase : string) (ch : Change) (o : origin) : X unit :=
  match sideOf ch with
  | None => ret tt
  | Some entry =>
      tl <-x call (GetTrustLine entry) ;
      match tl with
      | None => ret tt
      | Some tl =>
          if IsPoolShare (tle_Asset tl) then ret tt
          else
            asset <-x call (ToAsset (tle_Asset tl)) ;
            contractID <-x contractIDFor passphrase asset ;
            match contractID with
            | None => emit one_SuppressedTrustline
            | Some contractID =>
                if watches watch contractID KindTrustlines
                then
                  canonical <-x call (StringCanonical asset) ;
                  record_or (buildTrustlineChange ch tl contractID canonical o)
                    one_SuppressedTrustline of_trustlines
                else ret tt
            end
      end
  end.

(** The loop body of [txLedgerChanges]; the index counts every change. *)
Definition ledgerChange (o : origin) (i : Z) (ch : Change) : X unit :=
  let o := at_index o 0 (i32 i) in
  match ch_Type ch with
  | TypeContractData => stateChange ch o
  | TypeTrustline => match sc_assets scp with
                     | Some passphrase => trustline passphrase ch o
                     | None => ret tt
                     end
  | TypeOther => ret tt
  end.

Definition txLedgerChanges (tx : LedgerTransaction) (seq closedAt : Z) : X bool :=
  changes <-x try (GetChanges tx) ;
  match changes with
  | None => ret false
  | Some changes =>
      o <-x tx_origin tx seq closedAt ;
      x_iter (ledgerChange o) 0 changes ;;x
      ret true
  end.

(** The deferred [recover]: a panic is one more suppressed transaction. *)
Definition recover (t : X unit) : mem → mem := λ m,
  match t m with
  | (Some _, m) => m
  | (None, m) => (res_app m.1 one_SuppressedTx, m.2)
  end.

Definition processTx (tx : LedgerTransaction) (seq closedAt : Z) : mem → mem :=
  recover (
    ok <-x call (Successful tx) ;
    if negb ok then emit one_FailedTx
    else
      eventsOK <-x txEvents tx seq closedAt ;
      stateOK <-x txLedgerChanges tx seq closedAt ;
      if negb eventsOK || negb stateOK then emit one_SuppressedTx else ret tt).

(** The loop of [Events] over the reader's answers. *)
Definition readTx (seq closedAt : Z) (m : mem) (answer : option LedgerTransaction) : mem :=
  match answer with
  | None => (res_app m.1 one_SuppressedTx, m.2)
  | Some tx => processTx tx seq closedAt m
  end.
End ledger.

Definition scopeOf (passphrase : string) (watch : Snapshot) : scope :=
  mkScope (if AnyKind watch KindTrustlines then Some passphrase else None)
          (AnyKind watch KindMovements).

Definition Events (lcm : LedgerCloseMeta) (passphrase : string) (watch : Snapshot) : option Result :=
  if Nat.eqb (Len watch) 0 then Some no_result
  else
    match ReadLedger passphrase lcm with
    | None => None
    | Some answers =>
        Some (foldl (readTx watch (scopeOf passphrase watch) (u32 (LedgerSeq lcm)) (CloseTime lcm))
                (no_result, ∅) answers).1
    end.
End extraction.

(** ** Specification *)

(** Documented behaviour of the SDK the derivations rely on: assets with the
    same canonical string wrap to the same contract, and an address whose
    string is a contract strkey is the address of that contract. *)
Class SDKLaws `{SDK} : Prop := {
  canonical_asset : ∀ a b key passphrase,
    StringCanonical a = SOk key → StringCanonical b = SOk key →
    asset_ContractID a passphrase = asset_ContractID b passphrase;
  address_contract : ∀ a s raw,
    address_String a = SOk s → strkey_EncodeContract raw = Some s →
    sa_IsContract a = true ∧
    ∃ cid, sa_ContractId a = Some cid ∧ strkey_EncodeContract cid = Some s }.

(** Every record is owed to a contract watched for its kind, in this ledger. *)
Record attributed (watch : Snapshot) (seq closedAt : Z) (r : Result) : Prop := {
  at_events : ∀ e, e ∈ rs_Events r →
    watches watch (ev_ContractID e) KindEvents = true ∧
    ev_LedgerSequence e = seq ∧ ev_ClosedAt e = closedAt;
  at_states : ∀ c, c ∈ rs_StateChanges r →
    watches watch (sc_ContractID c) KindState = true ∧
    sc_LedgerSequence c = seq ∧ sc_ClosedAt c = closedAt ∧
    sc_ChangeType c ∈ ["created"; "updated"; "removed"; "restored"];
  at_transfers : ∀ t, t ∈ rs_Transfers r →
    watches watch (tr_ContractID t) KindTransfers = true ∧
    tr_LedgerSequence t = seq ∧ tr_ClosedAt t = closedAt ∧
    isTransferType (tr_TransferType t) = true;
  at_trustlines : ∀ c, c ∈ rs_TrustlineChanges r →
    watches watch (tl_ContractID c) KindTrustlines = true ∧
    tl_LedgerSequence c = seq ∧ tl_ClosedAt c = closedAt ∧
    (is_Some (tl_PreBalance c) ∨ is_Some (tl_PostBalance c));
  at_movements : ∀ m, m ∈ rs_Movements r →
    watches watch (mv_ContractID m) KindMovements = true ∧
    mv_LedgerSequence m = seq ∧ mv_ClosedAt m = closedAt ∧
    mv_Role m ∈ [RoleSender; RoleRecipient] ∧ isTransferType (mv_TransferType m) = true }.

(** The records of one contract. *)
Definition records_of (cid : string) (r : Result) : Records :=
  mkRecords (filter (λ e, ev_ContractID e = cid) (rs_Events r))
    (filter (λ c, sc_ContractID c = cid) (rs_StateChanges r))
    (filter (λ t, tr_ContractID t = cid) (rs_Transfers r))
    (filter (λ c, tl_ContractID c = cid) (rs_TrustlineChanges r))
    (filter (λ m, mv_ContractID m = cid) (rs_Movements r)).

Definition all_records (r : Result) : Records :=
  mkRecords (rs_Events r) (rs_StateChanges r) (rs_Transfers r) (rs_TrustlineChanges r)
    (rs_Movements r).

(** What one answer of the reader derives when it is the whole ledger. *)
Definition alone `{S : SDK} `{!SDKChanges} (watch : Snapshot) (scp : scope) (seq closedAt : Z)
    (answer : option LedgerTransaction) : Result :=
  (readTx watch scp seq closedAt (no_result, ∅) answer).1.

(** ** Lemmas *)

Lemma res_app_assoc a b c : res_app a (res_app b c) = res_app (res_app a b) c.
Proof. unfold res_app. simpl. rewrite !app_assoc, !Z.add_assoc. done. Qed.

Lemma res_app_nil_l a : res_app no_result a = a.
Proof. by destruct a. Qed.

Lemma res_app_nil_r a : res_app a no_result = a.
Proof. destruct a. unfold res_app. simpl. by rewrite !app_nil_r, !Z.add_0_r. Qed.

Lemma res_app_cancel a b c : res_app a b = res_app a c → b = c.
Proof.
  destruct a, b, c. unfold res_app. simpl. intros [=].
  repeat match goal with E : _ ++ _ = _ ++ _ |- _ => apply app_inv_head in E end.
  subst. f_equal; lia.
Qed.

(** *** Computations whose effect does not depend on what was written before *)
Section uniform.
Context `{S : SDK} `{!SDKChanges} `{!SDKLaws} (passphrase : string).

Definition derive (a : Asset) : option string :=
  match asset_ContractID a passphrase with SOk raw => strkey_EncodeContract raw | _ => None end.

Definition memo_ok (memo : gmap string string) : Prop :=
  ∀ key id a, memo !! key = Some id → StringCanonical a = SOk key → derive a = Some id.

Definition acts {A} (t : X A) (o : option A) (delta : Result) : Prop :=
  ∀ res memo, memo_ok memo →
  ∃ memo', memo_ok memo' ∧ t (res, memo) = (o, (res_app res delta, memo')).

Definition uniform {A} (t : X A) : Prop := ∃ o delta, acts t o delta.

Lemma memo_ok_empty : memo_ok ∅.
Proof. intros key id a Hm. by rewrite lookup_empty in Hm. Qed.

Lemma acts_inj {A} (t : X A) o1 d1 o2 d2 : acts t o1 d1 → acts t o2 d2 → o1 = o2 ∧ d1 = d2.
Proof.
  intros H1 H2. destruct (H1 no_result ∅ memo_ok_empty) as (m1 & _ & E1).
  destruct (H2 no_result ∅ memo_ok_empty) as (m2 & _ & E2).
  rewrite !res_app_nil_l in *. rewrite E1 in E2. by injection E2 as -> ->.
Qed.

Lemma acts_ret {A} (a : A) : acts (ret a) (Some a) no_result.
Proof. intros res memo Hm. exists memo. by rewrite res_app_nil_r. Qed.

Lemma acts_emit d : acts (emit d) (Some tt) d.
Proof. intros res memo Hm. by exists memo. Qed.

Lemma acts_call {A} (s : sdk A) :
  acts (call s) (match s with SOk a => Some a | _ => None end) no_result.
Proof. intros res memo Hm. exists memo. rewrite res_app_nil_r. by destruct s. Qed.

Lemma acts_try {A} (s : sdk A) :
  acts (try s) (match s with SOk a => Some (Some a) | SErr => Some None | SPanic => None end)
    no_result.
Proof. intros res memo Hm. exists memo. rewrite res_app_nil_r. by destruct s. Qed.

Lemma acts_bind {A B} (t : X A) (f : A → X B) a d1 o d2 :
  acts t (Some a) d1 → acts (f a) o d2 → acts (x_bind t f) o (res_app d1 d2).
Proof.
  intros Ht Hf res memo Hm. destruct (Ht res memo Hm) as (m1 & Hm1 & E1).
  destruct (Hf (res_app res d1) m1 Hm1) as (m2 & Hm2 & E2). exists m2. split; [done|].
  unfold x_bind. by rewrite E1, E2, res_app_assoc.
Qed.

Lemma acts_bind_panic {A B} (t : X A) (f : A → X B) d :
  acts t None d → acts (x_bind t f) None d.
Proof.
  intros Ht res memo Hm. destruct (Ht res memo Hm) as (m1 & Hm1 & E1). exists m1.
  unfold x_bind. by rewrite E1.
Qed.

Lemma uniform_bind {A B} (t : X A) (f : A → X B) :
  uniform t → (∀ a, uniform (f a)) → uniform (x_bind t f).
Proof.
  intros ([a|] & d & Ht) Hf.
  - destruct (Hf a) as (o & d2 & Hfa). eexists _, _. by eapply acts_bind.
  - eexists _, _. by apply acts_bind_panic.
Qed.

(** What a computation that does not panic did, part by part. *)
Lemma acts_bind_inv {A B} (t : X A) (f : A → X B) b d :
  uniform t → (∀ a, uniform (f a)) → acts (x_bind t f) (Some b) d →
  ∃ a d1 d2, acts t (Some a) d1 ∧ acts (f a) (Some b) d2 ∧ d = res_app d1 d2.
Proof.
  intros ([a|] & d1 & Ht) Hf Hb.
  - destruct (Hf a) as (o & d2 & Hfa). pose proof (acts_bind _ _ _ _ _ _ Ht Hfa) as Hb'.
    destruct (acts_inj _ _ _ _ _ Hb Hb') as [<- ->]. by exists a, d1, d2.
  - pose proof (acts_bind_panic _ f _ Ht) as Hb'. by destruct (acts_inj _ _ _ _ _ Hb Hb').
Qed.

Lemma uniform_ret {A} (a : A) : uniform (ret a).
Proof. eexists _, _. apply acts_ret. Qed.
Lemma uniform_emit d : uniform (emit d).
Proof. eexists _, _. apply acts_emit. Qed.
Lemma uniform_call {A} (s : sdk A) : uniform (call s).
Proof. eexists _, _. apply acts_call. Qed.
Lemma uniform_try {A} (s : sdk A) : uniform (try s).
Proof. eexists _, _. apply acts_try. Qed.

(** The memo only saves work. *)
Lemma acts_contractIDFor a :
  acts (contractIDFor passphrase a)
    match StringCanonical a with
    | SOk _ => match asset_ContractID a passphrase with
               | SPanic => None
               | SErr => Some None
               | SOk raw => Some (strkey_EncodeContract raw)
               end
    | _ => None
    end no_result.
Proof.
  intros res memo Hm. rewrite res_app_nil_r. unfold contractIDFor, x_bind, call, try.
  destruct (StringCanonical a) as [key| |] eqn:Hkey; [|by exists memo..].
  simpl. destruct (memo !! key) as [id|] eqn:Hid.
  - pose proof (Hm key id a Hid Hkey) as Hd. unfold derive in Hd.
    destruct (asset_ContractID a passphrase); try done. rewrite Hd. by exists memo.
  - destruct (asset_ContractID a passphrase) as [raw| |] eqn:Hraw; [|by exists memo..].
    simpl. destruct (strkey_EncodeContract raw) as [id|] eqn:He; [|by exists memo].
    exists (<[key := id]> memo). split; [|done].
    intros k i b [[-> ->]|[_ Hb]]%lookup_insert_Some Hc; [|by eapply Hm].
    unfold derive. by rewrite (canonical_asset b a k passphrase Hc Hkey), Hraw.
Qed.

Lemma uniform_contractIDFor a : uniform (contractIDFor passphrase a).
Proof. eexists _, _. apply acts_contractIDFor. Qed.
End uniform.

Create HintDb extract.
#[export] Hint Resolve uniform_ret uniform_emit uniform_call uniform_try uniform_contractIDFor
  : extract.

(** [uniformity] decomposes a computation along its binds and tests. *)
Ltac uniformity :=
  repeat first
    [ solve [eauto with extract]
    | apply uniform_bind; [|intros ?]
    | progress simpl
    | match goal with
      | |- uniform _ (match ?x with _ => _ end) => destruct x
      | |- uniform _ (if ?x then _ else _) => destruct x
      end ].

Lemma uniform_record_or `{SDKLaws} {A} p (built : sdk A) e w : uniform p (record_or built e w).
Proof. unfold record_or. uniformity. Qed.
#[export] Hint Resolve uniform_record_or : extract.

Section uniform_ledger.
Context `{S : SDK} `{!SDKChanges} `{!SDKLaws} (watch : Snapshot) (scp : scope).

Abbreviation pass := (default "" (sc_assets scp)).


Lemma uniform_txTransfer ev cid o : uniform pass (txTransfer watch scp ev cid o).
Proof. unfold txTransfer. uniformity. Qed.
#[local] Hint Resolve uniform_txTransfer : extract.

Lemma uniform_txEvent ev o : uniform pass (txEvent watch scp ev o).
Proof. unfold txEvent. uniformity. Qed.
#[local] Hint Resolve uniform_txEvent : extract.

Lemma uniform_opEvents o opIndex i evs : uniform pass (opEvents watch scp o opIndex i evs).
Proof. revert i. induction evs as [|ev evs IH]; intros i; simpl; uniformity. Qed.
#[local] Hint Resolve uniform_opEvents : extract.

Lemma uniform_operationEvents o opIndex i ops : uniform pass (operationEvents watch scp o opIndex i ops).
Proof. revert opIndex i. induction ops as [|evs ops IH]; intros opIndex i; simpl; uniformity. Qed.
#[local] Hint Resolve uniform_operationEvents : extract.

Lemma uniform_tx_origin tx seq closedAt : uniform pass (tx_origin tx seq closedAt).
Proof. unfold tx_origin. uniformity. Qed.
#[local] Hint Resolve uniform_tx_origin : extract.

Lemma uniform_txEvents tx seq closedAt : uniform pass (txEvents watch scp tx seq closedAt).
Proof. unfold txEvents. uniformity. Qed.
#[local] Hint Resolve uniform_txEvents : extract.

Lemma uniform_stateChange ch o : uniform pass (stateChange watch ch o).
Proof. unfold stateChange. uniformity. Qed.
#[local] Hint Resolve uniform_stateChange : extract.

Lemma uniform_trustline p ch o : sc_assets scp = Some p → uniform pass (trustline watch p ch o).
Proof. intros ->. unfold trustline. simpl. uniformity. Qed.

Lemma uniform_ledgerChange o i ch : uniform pass (ledgerChange watch scp o i ch).
Proof.
  unfold ledgerChange. destruct (ch_Type ch); [uniformity| |uniformity].
  destruct (sc_assets scp) as [p|] eqn:Hp; [|uniformity].
  pose proof (uniform_trustline p ch (at_index o 0 (i32 i)) Hp) as Hu. by rewrite Hp in Hu.
Qed.
#[local] Hint Resolve uniform_ledgerChange : extract.

Lemma uniform_x_iter {A} (f : Z → A → X unit) i l :
  (∀ i a, uniform pass (f i a)) → uniform pass (x_iter f i l).
Proof. intros Hf. revert i. induction l as [|a l IH]; intros i; simpl; uniformity. Qed.

Lemma uniform_txLedgerChanges tx seq closedAt : uniform pass (txLedgerChanges watch scp tx seq closedAt).
Proof.
  unfold txLedgerChanges. apply uniform_bind; [auto with extract|]. intros [chs|]; [|auto with extract].
  apply uniform_bind; [auto with extract|]. intros o.
  apply uniform_bind; [apply uniform_x_iter; auto with extract|auto with extract].
Qed.
End uniform_ledger.

(** *** Transactions are independent *)
Section transactions.
Context `{S : SDK} `{!SDKChanges} `{!SDKLaws} (watch : Snapshot) (scp : scope) (seq closedAt : Z).

Abbreviation pass := (default "" (sc_assets scp)).

(** The body of [processTx], under the recover frontier. *)
Definition tx_body (tx : LedgerTransaction) : X unit :=
  ok <-x call (Successful tx) ;
  if negb ok then emit one_FailedTx
  else
    eventsOK <-x txEvents watch scp tx seq closedAt ;
    stateOK <-x txLedgerChanges watch scp tx seq closedAt ;
    if negb eventsOK || negb stateOK then emit one_SuppressedTx else ret tt.

Lemma uniform_tx_body tx : uniform pass (tx_body tx).
Proof.
  unfold tx_body. apply uniform_bind; [auto with extract|]. intros [|]; [|simpl; auto with extract].
  apply uniform_bind; [apply uniform_txEvents|]. intros ok1.
  apply uniform_bind; [apply uniform_txLedgerChanges|]. intros ok2.
  destruct (_ || _); auto with extract.
Qed.

(** Each answer adds what it derives alone, whatever came before. *)
Lemma readTx_alone answer res memo :
  memo_ok pass memo → ∃ memo', memo_ok pass memo' ∧
    readTx watch scp seq closedAt (res, memo) answer
    = (res_app res (alone watch scp seq closedAt answer), memo').
Proof.
  intros Hm. unfold alone. destruct answer as [tx|]; simpl.
  - unfold processTx, recover. fold (tx_body tx).
    destruct (uniform_tx_body tx) as (o & d & Ht).
    destruct (Ht res memo Hm) as (m1 & Hm1 & E1).
    destruct (Ht no_result ∅ (memo_ok_empty pass)) as (m2 & _ & E2).
    rewrite E1, E2, res_app_nil_l. exists m1.
    destruct o; simpl; [done|]. by rewrite res_app_assoc.
  - exists memo. split; [done|]. by rewrite res_app_nil_l.
Qed.

Lemma readTx_all answers res memo :
  memo_ok pass memo → ∃ memo',
    foldl (readTx watch scp seq closedAt) (res, memo) answers
    = (res_app res (foldr res_app no_result (alone watch scp seq closedAt <$> answers)), memo').
Proof.
  revert res memo. induction answers as [|a answers IH]; intros res memo Hm; simpl.
  - exists memo. by rewrite res_app_nil_r.
  - destruct (readTx_alone a res memo Hm) as (m1 & Hm1 & ->).
    destruct (IH (res_app res (alone watch scp seq closedAt a)) m1 Hm1) as (m2 & ->).
    exists m2. by rewrite res_app_assoc.
Qed.

(** The outcome of a transaction whose body does not panic. *)
Lemma alone_body tx :
  (∃ d, acts pass (tx_body tx) (Some tt) d ∧ alone watch scp seq closedAt (Some tx) = d) ∨
  (∃ d, acts pass (tx_body tx) None d ∧
        alone watch scp seq closedAt (Some tx) = res_app d one_SuppressedTx).
Proof.
  unfold alone. simpl. unfold processTx, recover. fold (tx_body tx).
  destruct (uniform_tx_body tx) as (o & d & Ht).
  destruct (Ht no_result ∅ (memo_ok_empty pass)) as (m & _ & E). rewrite E, res_app_nil_l.
  destruct o as [[]|]; [left|right]; by exists d.
Qed.
End transactions.

(** *** Invariants of what is written *)
Definition keeps {A} (Q : Result → Prop) (t : X A) : Prop := ∀ m, Q m.1 → Q (t m).2.1.

Section keeps.
Context (Q : Result → Prop).

Lemma keeps_ret {A} (a : A) : keeps Q (ret a).
Proof. by intros m. Qed.
Lemma keeps_call {A} (s : sdk A) : keeps Q (call s).
Proof. intros m. by destruct s. Qed.
Lemma keeps_try {A} (s : sdk A) : keeps Q (try s).
Proof. intros m. by destruct s. Qed.
Lemma keeps_emit d : (∀ r, Q r → Q (res_app r d)) → keeps Q (emit d).
Proof. intros Hd m Hm. by apply Hd. Qed.
Lemma keeps_bind {A B} (t : X A) (f : A → X B) :
  keeps Q t → (∀ a, keeps Q (f a)) → keeps Q (x_bind t f).
Proof.
  intros Ht Hf m Hm. specialize (Ht m Hm). unfold x_bind.
  destruct (t m) as [[a|] m1]; [by apply Hf|done].
Qed.
Lemma keeps_iter {A} (f : Z → A → X unit) i l :
  (∀ i a, keeps Q (f i a)) → keeps Q (x_iter f i l).
Proof.
  intros Hf. revert i. induction l as [|a l IH]; intros i; simpl; [apply keeps_ret|].
  by apply keeps_bind.
Qed.
Lemma keeps_contractIDFor `{SDK} p a : keeps Q (contractIDFor p a).
Proof.
  unfold contractIDFor. apply keeps_bind; [apply keeps_call|]. intros key.
  apply keeps_bind; [by intros m|]. intros [id|]; [apply keeps_ret|].
  apply keeps_bind; [apply keeps_try|]. intros raw. destruct (raw ≫= _); [by intros m|apply keeps_ret].
Qed.
End keeps.

Lemma sdk_bind_SOk {A B} (s : sdk A) (f : A → sdk B) b :
  sdk_bind s f = SOk b ↔ ∃ a, s = SOk a ∧ f a = SOk b.
Proof. destruct s; simpl; split; [eauto|by intros (? & [= <-] & ?)|done|by intros (? & ? & _)|done|by intros (? & ? & _)]. Qed.

Ltac sdk_inv H :=
  repeat (apply sdk_bind_SOk in H; let x := fresh "v" in let Hx := fresh "Hv" in
          destruct H as (x & Hx & H)).

(** What the builders produce. *)
Lemma buildEvent_fields `{SDK} ev cid o e : buildEvent ev cid o = SOk e →
  ev_ContractID e = cid ∧ ev_LedgerSequence e = or_seq o ∧ ev_ClosedAt e = or_closedAt o ∧
  ev_ID e = record_id (or_prefix o) (or_index o) ∧ ev_EventIndex e = or_index o.
Proof.
  unfold buildEvent. intros Hb. sdk_inv Hb. destruct v0 as [body|]; [|done]. sdk_inv Hb.
  by injection Hb as <-.
Qed.

Lemma buildStateChange_fields `{SDK} ch data cid o c : buildStateChange ch data cid o = SOk c →
  sc_ContractID c = cid ∧ sc_LedgerSequence c = or_seq o ∧ sc_ClosedAt c = or_closedAt o ∧
  changeTypeName (ch_ChangeType ch) = SOk (sc_ChangeType c).
Proof. unfold buildStateChange. intros Hb. sdk_inv Hb. by injection Hb as <-. Qed.

Lemma buildTransfer_fields `{SDK} body ty cid o t : buildTransfer body ty cid o = SOk t →
  tr_ContractID t = cid ∧ tr_LedgerSequence t = or_seq o ∧ tr_ClosedAt t = or_closedAt o ∧
  tr_TransferType t = ty.
Proof.
  unfold buildTransfer. destruct (v0_Topics body); [done|]. intros Hb. sdk_inv Hb.
  by injection Hb as <-.
Qed.

Lemma buildTrustlineChange_fields `{SDK} ch tl cid asset o c :
  buildTrustlineChange ch tl cid asset o = SOk c →
  tl_ContractID c = cid ∧ tl_LedgerSequence c = or_seq o ∧ tl_ClosedAt c = or_closedAt o ∧
  (is_Some (tl_PreBalance c) ∨ is_Some (tl_PostBalance c)).
Proof.
  unfold buildTrustlineChange. intros Hb. sdk_inv Hb.
  destruct v2 as [post|], v1 as [pre|]; try done; injection Hb as <-; simpl;
    split_and!; try done; eauto.
Qed.

Lemma changeTypeName_known ty s : changeTypeName ty = SOk s →
  s ∈ ["created"; "updated"; "removed"; "restored"].
Proof. destruct ty; simpl; intros [= <-]; set_solver. Qed.

Lemma transferEventNames_type sym ty : transferEventNames sym = Some ty → isTransferType ty = true.
Proof.
  unfold transferEventNames, isTransferType. destruct (existsb _ _) eqn:He; [|done].
  by intros [= <-].
Qed.

Lemma movementsOf_spec t raw watch m : m ∈ movementsOf t raw watch →
  watches watch (mv_ContractID m) KindMovements = true ∧ mv_LedgerSequence m = tr_LedgerSequence t ∧
  mv_ClosedAt m = tr_ClosedAt t ∧ mv_Role m ∈ [RoleSender; RoleRecipient] ∧
  mv_TransferType m = tr_TransferType t ∧ mv_TransferID m = tr_ID t ∧
  mv_TokenContractID m = tr_ContractID t.
Proof.
  unfold movementsOf, attribution. rewrite elem_of_app.
  intros [Hm|Hm]; case_bool_decide; try (by apply elem_of_nil in Hm);
    destruct (watches watch _ KindMovements) eqn:Hw; simpl in Hm; try (by apply elem_of_nil in Hm);
    apply list_elem_of_singleton in Hm as ->; simpl; split_and!; try done; set_solver.
Qed.

(** *** Attribution *)
Section attribution.
Context `{S : SDK} `{!SDKChanges} (watch : Snapshot) (scp : scope) (seq closedAt : Z).

Abbreviation att := (attributed watch seq closedAt).

Lemma attributed_app a b : att a → att b → att (res_app a b).
Proof.
  intros [? ? ? ? ?] [? ? ? ? ?]; split; intros x Hx; simpl in Hx;
    apply elem_of_app in Hx as [?|?]; auto.
Qed.

Lemma attributed_nil r : all_records r = all_records no_result → att r.
Proof.
  unfold all_records. destruct r; simpl. intros [= -> -> -> -> ->].
  split; simpl; intros x Hx; by apply elem_of_nil in Hx.
Qed.

Lemma keeps_att d : att d → keeps att (emit d).
Proof. intros Hd. apply keeps_emit. intros r Hr. by apply attributed_app. Qed.

Lemma keeps_try_bind {A B} (Q : Result → Prop) (s : sdk A) (f : option A → X B) :
  keeps Q (f None) → (∀ a, s = SOk a → keeps Q (f (Some a))) → keeps Q (x_bind (try s) f).
Proof. intros H1 H2 m Hm. unfold x_bind, try. destruct s as [a| |]; [by apply H2|by apply H1|done]. Qed.

Lemma keeps_call_bind {A B} (Q : Result → Prop) (s : sdk A) (f : A → X B) :
  (∀ a, s = SOk a → keeps Q (f a)) → keeps Q (x_bind (call s) f).
Proof. intros H2 m Hm. unfold x_bind, call. destruct s as [a| |]; [by apply H2|done..]. Qed.

Definition here (o : origin) : Prop := or_seq o = seq ∧ or_closedAt o = closedAt.

Lemma keeps_record_or {A} (built : sdk A) e wrap :
  att e → (∀ x, built = SOk x → att (wrap [x])) → keeps att (record_or built e wrap).
Proof.
  intros He Hw. unfold record_or. apply keeps_try_bind; [by apply keeps_att|].
  intros x Hx. by apply keeps_att, Hw.
Qed.

Lemma keeps_txTransfer ev cid o : here o → keeps att (txTransfer watch scp ev cid o).
Proof.
  intros [Ho1 Ho2]. unfold txTransfer.
  assert (Hlost : keeps att (emit (if watches watch cid KindTransfers
                                   then one_SuppressedTransfer else one_Foreign)))
    by (apply keeps_att, attributed_nil; by destruct (watches watch cid KindTransfers)).
  destruct (_ && _); [apply keeps_ret|].
  apply keeps_call_bind. intros [body|] _; [|apply keeps_ret].
  destruct (v0_Topics body) as [|t0 ts]; [apply keeps_ret|].
  apply keeps_call_bind. intros sym _. destruct (sym ≫= transferEventNames) as [ty|] eqn:Hty;
    [|apply keeps_ret].
  apply bind_Some in Hty as (s & -> & Hty%transferEventNames_type).
  apply keeps_bind; [destruct (sc_wantMovements scp); [apply keeps_call|apply keeps_ret]|].
  intros want. destruct (negb _ && negb want); [apply keeps_ret|].
  apply keeps_try_bind; [done|]. intros t Ht.
  pose proof (buildTransfer_fields _ _ _ _ _ Ht) as (Hc & Hs & Hcl & Hk).
  apply keeps_bind.
  - destruct (watches watch cid KindTransfers) eqn:Hw; [|apply keeps_ret]. apply keeps_att.
    split; simpl; intros x Hx; try (by apply elem_of_nil in Hx).
    apply list_elem_of_singleton in Hx as ->. rewrite Hc, Hk. split_and!; congruence.
  - intros _. destruct want; [|apply keeps_ret]. apply keeps_try_bind; [done|].
    intros raw _. apply keeps_att. split; simpl; intros x Hx; try (by apply elem_of_nil in Hx).
    apply movementsOf_spec in Hx as (? & ? & ? & ? & ? & _). split_and!; congruence.
Qed.

Lemma keeps_txEvent ev o : here o → keeps att (txEvent watch scp ev o).
Proof.
  intros Ho. unfold txEvent. destruct (negb _); [apply keeps_ret|].
  destruct (ce_ContractId ev); [|apply keeps_ret].
  destruct (strkey_EncodeContract _) as [cid|]; [|apply keeps_att; by apply attributed_nil].
  apply keeps_bind; [|intros _; by apply keeps_txTransfer].
  destruct (watches watch cid KindEvents) eqn:Hw; [|apply keeps_ret].
  apply keeps_record_or; [by apply attributed_nil|]. intros e He.
  apply buildEvent_fields in He as (Hc & Hs & Hcl & _). destruct Ho as [Ho1 Ho2].
  split; simpl; intros x Hx; try (by apply elem_of_nil in Hx).
  apply list_elem_of_singleton in Hx as ->. rewrite Hc. split_and!; congruence.
Qed.

Lemma keeps_operationEvents o opIndex i ops :
  here o → keeps att (operationEvents watch scp o opIndex i ops).
Proof.
  intros Ho. revert opIndex i. induction ops as [|evs ops IH]; intros opIndex i; simpl;
    [apply keeps_ret|]. apply keeps_bind; [|auto]. clear IH. generalize (i32 opIndex). intros op.
  revert i. induction evs as [|ev evs IH]; intros i; simpl; [apply keeps_ret|].
  apply keeps_bind; [|auto]. by apply keeps_txEvent.
Qed.

Lemma keeps_stateChange ch o : here o → keeps att (stateChange watch ch o).
Proof.
  intros [Ho1 Ho2]. unfold stateChange. destruct (sideOf ch); [|apply keeps_ret].
  apply keeps_call_bind. intros [data|] _; [|apply keeps_ret].
  destruct (sa_ContractId _); [|apply keeps_ret].
  destruct (strkey_EncodeContract _) as [cid|]; [|apply keeps_att; by apply attributed_nil].
  destruct (watches watch cid KindState) eqn:Hw; [|apply keeps_ret].
  apply keeps_record_or; [by apply attributed_nil|]. intros c Hc.
  apply buildStateChange_fields in Hc as (Hc & Hs & Hcl & Hty%changeTypeName_known).
  split; simpl; intros x Hx; try (by apply elem_of_nil in Hx).
  apply list_elem_of_singleton in Hx as ->. rewrite Hc. split_and!; congruence.
Qed.

Lemma keeps_trustline p ch o : here o → keeps att (trustline watch p ch o).
Proof.
  intros [Ho1 Ho2]. unfold trustline. destruct (sideOf ch); [|apply keeps_ret].
  apply keeps_call_bind. intros [tl|] _; [|apply keeps_ret].
  destruct (IsPoolShare _); [apply keeps_ret|].
  apply keeps_call_bind. intros asset _. apply keeps_bind; [apply keeps_contractIDFor|].
  intros [cid|]; [|apply keeps_att; by apply attributed_nil].
  destruct (watches watch cid KindTrustlines) eqn:Hw; [|apply keeps_ret].
  apply keeps_call_bind. intros canonical _.
  apply keeps_record_or; [by apply attributed_nil|]. intros c Hc.
  apply buildTrustlineChange_fields in Hc as (Hc & Hs & Hcl & Hsides).
  split; simpl; intros x Hx; try (by apply elem_of_nil in Hx).
  apply list_elem_of_singleton in Hx as ->. rewrite Hc. split_and!; congruence.
Qed.

Lemma keeps_tx_origin {B} tx (f : origin → X B) :
  (∀ o, here o → keeps att (f o)) → keeps att (x_bind (tx_origin tx seq closedAt) f).
Proof.
  intros Hf m Hm. unfold tx_origin, x_bind, call. destruct (toid _ _); [|done..].
  by apply Hf.
Qed.

Lemma keeps_tx_body tx : keeps att (tx_body watch scp seq closedAt tx).
Proof.
  unfold tx_body. apply keeps_call_bind. intros ok _.
  destruct (negb ok); [apply keeps_att; by apply attributed_nil|].
  apply keeps_bind.
  { unfold txEvents. apply keeps_try_bind; [apply keeps_ret|]. intros ops _.
    apply keeps_tx_origin. intros o Ho.
    apply keeps_bind; [by apply keeps_operationEvents|]. intros _. apply keeps_ret. }
  intros ok1. apply keeps_bind.
  { unfold txLedgerChanges. apply keeps_try_bind; [apply keeps_ret|]. intros chs _.
    apply keeps_tx_origin. intros o Ho.
    apply keeps_bind; [|intros _; apply keeps_ret]. apply keeps_iter. intros i ch.
    unfold ledgerChange. destruct (ch_Type ch); [by apply keeps_stateChange| |apply keeps_ret].
    destruct (sc_assets scp); [by apply keeps_trustline|apply keeps_ret]. }
  intros ok2. destruct (_ || _); [apply keeps_att; by apply attributed_nil|apply keeps_ret].
Qed.

Lemma attributed_readTx m answer : att m.1 → att (readTx watch scp seq closedAt m answer).1.
Proof.
  intros Hm. destruct answer as [tx|]; simpl; [|apply attributed_app; [done|by apply attributed_nil]].
  unfold processTx, recover. fold (tx_body watch scp seq closedAt tx).
  pose proof (keeps_tx_body tx m Hm) as Hk.
  destruct (tx_body watch scp seq closedAt tx m) as [[[]|] m']; simpl in *; [done|].
  apply attributed_app; [done|by apply attributed_nil].
Qed.

Lemma attributed_answers m answers :
  att m.1 → att (foldl (readTx watch scp seq closedAt) m answers).1.
Proof.
  revert m. induction answers as [|a answers IH]; intros m Hm; simpl; [done|].
  by apply IH, attributed_readTx.
Qed.
End attribution.

(** *** The transaction counters *)
Section counters.
Context `{S : SDK} `{!SDKChanges} (watch : Snapshot) (scp : scope) (seq closedAt : Z).

Definition tx_counts (failed suppressed : Z) (r : Result) : Prop :=
  rs_FailedTxs r = failed ∧ rs_SuppressedTxs r = suppressed.

Lemma keeps_counts a b d : tx_counts 0 0 d → keeps (tx_counts a b) (emit d).
Proof. intros [? ?]. apply keeps_emit. intros r [? ?]. unfold tx_counts in *. simpl. lia. Qed.

(** [counting] decomposes a computation whose emissions leave them alone. *)
Ltac counting :=
  repeat first
    [ apply keeps_ret | apply keeps_call | apply keeps_try | apply keeps_contractIDFor
    | apply keeps_counts; by split
    | apply keeps_bind; [|intros ?]
    | match goal with
      | |- keeps _ (match ?x with _ => _ end) => destruct x
      | |- keeps _ (if ?x then _ else _) => destruct x
      end ].

Lemma counts_txTransfer a b ev cid o : keeps (tx_counts a b) (txTransfer watch scp ev cid o).
Proof. unfold txTransfer. destruct (watches watch cid KindTransfers); counting. Qed.

Lemma counts_txEvent a b ev o : keeps (tx_counts a b) (txEvent watch scp ev o).
Proof.
  unfold txEvent, record_or. destruct (negb _); [counting|].
  destruct (ce_ContractId ev); [|counting]. destruct (strkey_EncodeContract _); [|counting].
  apply keeps_bind; [counting|intros _; apply counts_txTransfer].
Qed.

Lemma counts_txEvents a b tx : keeps (tx_counts a b) (txEvents watch scp tx seq closedAt).
Proof.
  unfold txEvents, tx_origin. apply keeps_bind; [counting|]. intros [ops|]; [|counting].
  apply keeps_bind; [counting|]. intros o. apply keeps_bind; [|intros; counting].
  assert (Hops : ∀ opIndex i, keeps (tx_counts a b) (operationEvents watch scp o opIndex i ops)); [|apply Hops].
  induction ops as [|evs ops IH]; intros opIndex i; simpl; [counting|].
  apply keeps_bind; [|intros _; apply IH]. clear IH. generalize (i32 opIndex). intros op. revert i.
  induction evs as [|ev evs IH]; intros i; simpl; [counting|].
  apply keeps_bind; [apply counts_txEvent|intros _; apply IH].
Qed.

Lemma counts_txLedgerChanges a b tx : keeps (tx_counts a b) (txLedgerChanges watch scp tx seq closedAt).
Proof.
  unfold txLedgerChanges, tx_origin. apply keeps_bind; [counting|]. intros [chs|]; [|counting].
  apply keeps_bind; [counting|]. intros o. apply keeps_bind; [|intros; counting].
  apply keeps_iter. intros i ch. unfold ledgerChange, stateChange, trustline, record_or. counting.
Qed.

(** A transaction costs at most one count: failed, suppressed or neither. *)
Lemma alone_counts answer :
  let d := alone watch scp seq closedAt answer in
  tx_counts 0 0 d ∨
  (tx_counts 0 1 d ∧ ∀ tx, answer = Some tx → Successful tx ≠ SOk false) ∨
  (d = one_FailedTx ∧ ∃ tx, answer = Some tx ∧ Successful tx = SOk false).
Proof.
  cbv zeta. unfold alone. destruct answer as [tx|]; simpl; [|right; left; by repeat split].
  unfold processTx, recover, x_bind, call.
  destruct (Successful tx) as [[|]| |] eqn:Hs; simpl;
    [|right; right; split; [done|by eauto]|right; left; repeat split; congruence..].
  assert (H0 : tx_counts 0 0 (no_result, ∅ : gmap string string).1) by (by split).
  pose proof (counts_txEvents 0 0 tx _ H0) as H1.
  destruct (txEvents _ _ _ _ _ _) as [[ok1|] m1]; simpl in *.
  - pose proof (counts_txLedgerChanges 0 0 tx m1 H1) as H2.
    destruct (txLedgerChanges _ _ _ _ _ _) as [[ok2|] m2]; simpl in *.
    + destruct (negb ok1 || negb ok2); simpl; [right; left|by left].
      destruct H2. unfold tx_counts in *. simpl. repeat split; [lia|lia|congruence].
    + right; left. destruct H2. unfold tx_counts in *. simpl. repeat split; [lia|lia|congruence].
  - right; left. destruct H1. unfold tx_counts in *. simpl. repeat split; [lia|lia|congruence].
Qed.
End counters.

(** *** Sums of results *)

Lemma foldr_res_suppressed ds :
  (∀ d, d ∈ ds → 0 ≤ rs_SuppressedTxs d) →
  0 ≤ rs_SuppressedTxs (foldr res_app no_result ds) ∧
  (rs_SuppressedTxs (foldr res_app no_result ds) = 0 → ∀ d, d ∈ ds → rs_SuppressedTxs d = 0).
Proof.
  induction ds as [|d ds IH]; intros Hd; simpl.
  - split; [lia|]. intros _ d Hin. by apply elem_of_nil in Hin.
  - destruct IH as [H0 Hz]; [intros; apply Hd; by right|].
    pose proof (Hd d ltac:(by left)). split; [lia|]. intros Hs x [Hx|Hx]%elem_of_cons; [subst x; lia|].
    apply Hz; [lia|done].
Qed.

Definition recs_app (a b : Records) : Records :=
  mkRecords (rc_events a ++ rc_events b) (rc_states a ++ rc_states b)
    (rc_transfers a ++ rc_transfers b) (rc_trustlines a ++ rc_trustlines b)
    (rc_movements a ++ rc_movements b).

Lemma records_of_app cid a b :
  records_of cid (res_app a b) = recs_app (records_of cid a) (records_of cid b).
Proof. unfold records_of, recs_app. simpl. by rewrite !filter_app. Qed.

Lemma records_of_foldr cid ds es :
  Forall2 (λ d e, records_of cid d = records_of cid e) ds es →
  records_of cid (foldr res_app no_result ds) = records_of cid (foldr res_app no_result es).
Proof.
  induction 1 as [|d e ds es Hde _ IH]; simpl; [done|]. by rewrite !records_of_app, Hde, IH.
Qed.

(** *** One contract's share of a ledger *)

(** An address among the topics is one of the decoded addresses. *)
Lemma decodeTopics_addrs `{SDK} addrs asset topics addrs' asset' s :
  decodeTopics addrs asset topics = SOk (addrs', asset') → s ∈ addrs' →
  s ∈ addrs ∨ ∃ a, ScvAddress (Some a) ∈ topics ∧ address_String a = SOk s.
Proof.
  revert addrs asset. induction topics as [|v topics IH]; intros addrs asset; simpl.
  - intros [= <- <-]. by left.
  - destruct v as [a|str| | | | | |]; try done; intros Hd Hs; sdk_inv Hd.
    + destruct (IH _ _ Hd Hs) as [Hin|(b & ? & ?)].
      * apply elem_of_app in Hin as [?|Hin]; [by left|]. apply list_elem_of_singleton in Hin as ->.
        right. destruct a as [a|]; [|done]. injection Hv as ->. exists v. split; [by left|done].
      * right. exists b. split; [by right|done].
    + destruct (IH _ _ Hd Hs) as [?|(b & ? & ?)]; [by left|]. right. exists b. split; [by right|done].
Qed.

Lemma transferParties_addrs ty addrs ft : transferParties ty addrs = SOk ft →
  (ft.1 = "" ∨ ft.1 ∈ addrs) ∧ (ft.2 = "" ∨ ft.2 ∈ addrs).
Proof.
  unfold transferParties. repeat case_bool_decide.
  - destruct addrs as [|a [|b [|]]]; try done. intros [= <-]. simpl. split; right; set_solver.
  - destruct (last addrs) eqn:Hl; [|done]. intros [= <-]. simpl.
    apply last_Some_elem_of in Hl. auto.
  - destruct addrs as [|a addrs]; [done|]. intros [= <-]. simpl. split; [right; by left|by left].
  - destruct (last addrs) eqn:Hl; [|done]. intros [= <-]. simpl.
    apply last_Some_elem_of in Hl. auto.
  - intros [= <-]. auto.
Qed.

(** The pre-check sees every watched contract among the addresses. *)
Lemma participants_true `{SDK} topics watch a cid id b :
  participants topics watch = SOk b → ScvAddress (Some a) ∈ topics →
  sa_IsContract a = true → sa_ContractId a = Some cid → strkey_EncodeContract cid = Some id →
  watches watch id KindMovements = true → b = true.
Proof.
  intros Hp Hin Hc Hid He Hw. revert Hp Hin.
  induction topics as [|v topics IH]; simpl; [by intros _ ?%elem_of_nil|].
  intros Hp [Heq|Hin]%elem_of_cons.
  - subst v. simpl in Hp. rewrite Hc in Hp. simpl in Hp. rewrite Hid in Hp. simpl in Hp. rewrite He, Hw in Hp.
    by injection Hp as <-.
  - destruct v as [a'| | | | | | |]; try by auto. sdk_inv Hp.
    destruct (negb _); [by auto|]. sdk_inv Hp.
    destruct (strkey_EncodeContract v0) as [id'|]; [|by auto].
    destruct (watches watch id' KindMovements); [by injection Hp as <-|by auto].
Qed.

Lemma participants_mono `{SDK} topics (w1 w2 : Snapshot) b :
  (∀ id, watches w2 id KindMovements = true → watches w1 id KindMovements = true) →
  participants topics w2 = SOk true → participants topics w1 = SOk b → b = true.
Proof.
  intros Hsub. induction topics as [|v topics IH]; simpl; [done|].
  destruct v as [a| | | | | | |]; try done. intros H2 H1. sdk_inv H2. sdk_inv H1.
  rewrite Hv in Hv0. injection Hv0 as <-. destruct (negb _); [by auto|].
  sdk_inv H2. sdk_inv H1. rewrite Hv0 in Hv1. injection Hv1 as <-.
  destruct (strkey_EncodeContract v0) as [id|]; [|by auto].
  destruct (watches w2 id KindMovements) eqn:Hw2.
  - rewrite (Hsub id Hw2) in H1. by injection H1 as <-.
  - destruct (watches w1 id KindMovements); [by injection H1 as <-|by auto].
Qed.

(** Reading a ledger for many contracts, then for one of them. *)
Section share.
Context `{S : SDK} `{!SDKChanges} `{!SDKLaws}.
Context (passphrase : string) (watch : gmap string Contract) (cid : string) (contract : Contract).
Context (Hget : watch !! cid = Some contract).
Context (Hstrkey : ∃ raw, strkey_EncodeContract raw = Some cid).

Abbreviation single := ({[ cid := contract ]} : gmap string Contract).
Abbreviation scp1 := (scopeOf passphrase watch).
Abbreviation scp2 := (scopeOf passphrase single).
Abbreviation pass1 := (default "" (sc_assets scp1)).
Abbreviation pass2 := (default "" (sc_assets scp2)).
Abbreviation mine := (records_of cid).

Lemma watches_mine kind : watches watch cid kind = watches single cid kind.
Proof. unfold watches, Get, Snapshot. by rewrite Hget, lookup_singleton_eq. Qed.

Lemma watches_other id kind : id ≠ cid → watches single id kind = false.
Proof. intros Hne. unfold watches, Get, Snapshot. by rewrite lookup_singleton_ne. Qed.

Lemma watches_sub id kind : watches single id kind = true → watches watch id kind = true.
Proof.
  intros Hw. destruct (decide (id = cid)) as [->|Hne]; [by rewrite watches_mine|].
  by rewrite watches_other in Hw.
Qed.

Lemma AnyKind_single kind : AnyKind single kind = watches single cid kind.
Proof.
  unfold AnyKind, watches, Get, Snapshot. rewrite map_to_list_singleton, lookup_singleton_eq. simpl.
  by rewrite orb_false_r.
Qed.

Lemma AnyKind_sub kind : AnyKind single kind = true → AnyKind watch kind = true.
Proof.
  rewrite AnyKind_single, <- watches_mine. intros Hw. apply AnyKind_spec. exists cid, contract.
  split; [done|]. unfold watches, Get, Snapshot in Hw. by rewrite Hget in Hw.
Qed.

(** Two computations that, when neither panics, answer alike and write the same
    records of the contract. *)
Definition alike {A} (t1 t2 : X A) : Prop := ∀ a1 a2 d1 d2,
  acts pass1 t1 (Some a1) d1 → acts pass2 t2 (Some a2) d2 → a1 = a2 ∧ mine d1 = mine d2.

Lemma alike_refl {A} (t : X A) : alike t t.
Proof.
  intros a1 a2 d1 d2 H1 H2.
  destruct (H1 no_result ∅ (memo_ok_empty _)) as (m1 & _ & E1).
  destruct (H2 no_result ∅ (memo_ok_empty _)) as (m2 & _ & E2).
  rewrite !res_app_nil_l in *. rewrite E1 in E2. by injection E2 as -> ->.
Qed.

Lemma alike_bind {A B} (t1 t2 : X A) (f1 f2 : A → X B) :
  uniform pass1 t1 → (∀ a, uniform pass1 (f1 a)) →
  uniform pass2 t2 → (∀ a, uniform pass2 (f2 a)) →
  alike t1 t2 → (∀ a, alike (f1 a) (f2 a)) → alike (x_bind t1 f1) (x_bind t2 f2).
Proof.
  intros Hu1 Hf1 Hu2 Hf2 Ht Hf b1 b2 d1 d2 H1 H2.
  apply acts_bind_inv in H1 as (a1 & d11 & d12 & Ha1 & Hb1 & ->); [|done..].
  apply acts_bind_inv in H2 as (a2 & d21 & d22 & Ha2 & Hb2 & ->); [|done..].
  destruct (Ht _ _ _ _ Ha1 Ha2) as [-> E1]. destruct (Hf _ _ _ _ _ Hb1 Hb2) as [-> E2].
  by rewrite !records_of_app, E1, E2.
Qed.

Lemma alike_emit d1 d2 : mine d1 = mine d2 → alike (emit d1) (emit d2).
Proof.
  intros Hd [] [] x1 x2 H1 H2. split; [done|].
  destruct (acts_inj _ _ _ _ _ _ H1 (acts_emit _ d1)) as [_ ->].
  by destruct (acts_inj _ _ _ _ _ _ H2 (acts_emit _ d2)) as [_ ->].
Qed.

Lemma alike_emit_ret d : mine d = mine no_result → alike (emit d) (ret tt).
Proof.
  intros Hd [] [] x1 x2 H1 H2. split; [done|].
  destruct (acts_inj _ _ _ _ _ _ H1 (acts_emit _ d)) as [_ ->].
  by destruct (acts_inj _ _ _ _ _ _ H2 (acts_ret _ tt)) as [_ ->].
Qed.

(** A computation that writes no record of the contract. *)
Lemma alike_silent (t : X unit) :
  keeps (λ r, mine r = mine no_result) t → alike t (ret tt).
Proof.
  intros Hk [] [] d1 d2 H1 H2. split; [done|].
  destruct (acts_inj _ _ _ _ _ _ H2 (acts_ret _ tt)) as [_ ->].
  destruct (H1 no_result ∅ (memo_ok_empty _)) as (m1 & _ & E1).
  specialize (Hk (no_result, ∅) eq_refl). rewrite E1, res_app_nil_l in Hk. done.
Qed.

Lemma keeps_silent d : mine d = mine no_result → keeps (λ r, mine r = mine no_result) (emit d).
Proof.
  intros Hd. apply keeps_emit. intros r Hr. by rewrite records_of_app, Hd, Hr.
Qed.

Lemma alike_call_bind {A B} (s : sdk A) (f1 f2 : A → X B) :
  (∀ a, uniform pass1 (f1 a)) → (∀ a, uniform pass2 (f2 a)) →
  (∀ a, alike (f1 a) (f2 a)) → alike (x_bind (call s) f1) (x_bind (call s) f2).
Proof. intros. apply alike_bind; auto with extract. apply alike_refl. Qed.

Lemma alike_try_bind {A B} (s : sdk A) (f1 f2 : option A → X B) :
  (∀ a, uniform pass1 (f1 a)) → (∀ a, uniform pass2 (f2 a)) →
  (∀ a, alike (f1 a) (f2 a)) → alike (x_bind (try s) f1) (x_bind (try s) f2).
Proof. intros. apply alike_bind; auto with extract. apply alike_refl. Qed.

Lemma alike_try_SOk {A B} (s : sdk A) (f1 f2 : option A → X B) :
  (∀ a, uniform pass1 (f1 a)) → (∀ a, uniform pass2 (f2 a)) →
  (∀ a, s = SOk a → alike (f1 (Some a)) (f2 (Some a))) → alike (f1 None) (f2 None) →
  alike (x_bind (try s) f1) (x_bind (try s) f2).
Proof.
  intros Hu1 Hu2 Hok Herr b1 b2 d1 d2 H1 H2.
  apply acts_bind_inv in H1 as (a1 & d11 & d12 & Ha1 & Hb1 & ->); [|auto with extract..].
  apply acts_bind_inv in H2 as (a2 & d21 & d22 & Ha2 & Hb2 & ->); [|auto with extract..].
  destruct (acts_inj _ _ _ _ _ _ Ha1 (acts_try _ s)) as [E1 ->].
  destruct (acts_inj _ _ _ _ _ _ Ha2 (acts_try _ s)) as [E2 ->].
  rewrite !res_app_nil_l. destruct s as [a| |]; [|by injection E1 as ->; injection E2 as ->; apply Herr|done].
  injection E1 as ->. injection E2 as ->. by apply (Hok a eq_refl).
Qed.

(** *** Movements *)

Lemma attribution_mine t raw owner role other :
  filter (λ m, mv_ContractID m = cid) (attribution t raw watch owner role other)
  = attribution t raw single owner role other.
Proof.
  unfold attribution. case_bool_decide; [done|].
  destruct (decide (owner = cid)) as [->|Hne].
  - rewrite watches_mine. destruct (watches single cid _); simpl; [|done].
    rewrite filter_cons. simpl. by rewrite decide_True.
  - rewrite (watches_other owner) by done. destruct (watches watch owner _); simpl; [|done].
    rewrite filter_cons. simpl. by rewrite decide_False.
Qed.

Lemma movementsOf_mine t raw :
  filter (λ m, mv_ContractID m = cid) (movementsOf t raw watch) = movementsOf t raw single.
Proof. unfold movementsOf. by rewrite filter_app, !attribution_mine. Qed.

Lemma movementsOf_single t raw :
  filter (λ m, mv_ContractID m = cid) (movementsOf t raw single) = movementsOf t raw single.
Proof.
  unfold movementsOf, attribution. rewrite filter_app.
  f_equal; case_bool_decide; try done;
    (match goal with |- context [watches single ?o _] =>
       destruct (decide (o = cid)) as [->|?]; [|by rewrite watches_other] end);
    destruct (watches single cid _); simpl; try done;
    rewrite filter_cons; simpl; by rewrite decide_True.
Qed.

Lemma movementsOf_unwanted t raw :
  watches single cid KindMovements = false → movementsOf t raw single = [].
Proof.
  intros Hw. assert (Hall : ∀ o, watches single o KindMovements = false).
  { intros o. destruct (decide (o = cid)) as [->|?]; [done|by apply watches_other]. }
  unfold movementsOf, attribution. rewrite !Hall. by repeat case_bool_decide.
Qed.

(** Without participation, nothing to attribute. *)
Lemma movementsOf_absent body ty token o t raw :
  participatesWatched body single = SOk false → buildTransfer body ty token o = SOk t →
  movementsOf t raw single = [].
Proof.
  intros Hp Hb. destruct (watches single cid KindMovements) eqn:Hw; [|by apply movementsOf_unwanted].
  unfold participatesWatched, buildTransfer in *. destruct (v0_Topics body) as [|t0 topics]; [done|].
  sdk_inv Hb. destruct v as [addrs asset]. injection Hb as <-.
  apply transferParties_addrs in Hv0 as [Hf Ht].
  assert (Habs : cid ∉ addrs).
  { intros Hin. destruct (decodeTopics_addrs _ _ _ _ _ _ Hv Hin) as [Hn|(a & Ha & Hs)];
      [by apply elem_of_nil in Hn|].
    destruct Hstrkey as [raw0 Hraw].
    destruct (address_contract a cid raw0 Hs Hraw) as (Hc & i & Hi & He).
    discriminate (participants_true _ _ _ _ _ _ Hp Ha Hc Hi He Hw). }
  assert (Hnone : ∀ owner role other, (owner = "" ∨ owner ∈ addrs) →
    attribution (mkTransfer (record_id (or_prefix o) (or_index o)) token (or_seq o) (or_closedAt o)
      (or_txHash o) (or_txIndex o) (or_opIndex o) (or_index o) ty v0.1 v0.2 v1.2 v1.1 asset)
      raw single owner role other = []).
  { intros owner role other [->|Hin]; unfold attribution; case_bool_decide; try done.
    rewrite watches_other; [done|]. intros ->. by apply Habs. }
  unfold movementsOf. by rewrite !Hnone.
Qed.
(** *** The derivations, one by one *)

Ltac inert := unfold mine; simpl; by rewrite ?filter_cons, ?decide_False.

Lemma silent_record_or {A} (built : sdk A) e wrap :
  mine e = mine no_result → (∀ x, built = SOk x → mine (wrap [x]) = mine no_result) →
  keeps (λ r, mine r = mine no_result) (record_or built e wrap).
Proof.
  intros He Hw. unfold record_or. apply keeps_try_bind; [by apply keeps_silent|].
  intros x Hx. by apply keeps_silent, Hw.
Qed.

(** What [txTransfer] writes about the contract, once decoded. *)
Lemma alike_movements (ev : ContractEvent) t lost1 lost2 (want1 want2 : bool) :
  mine lost1 = mine no_result → mine lost2 = mine no_result →
  (want2 = true → want1 = true) →
  (want2 = false → ∀ raw, movementsOf t raw single = []) →
  alike
    (if want1 then
       rawXDR <-x try (MarshalBase64_event ev) ;
       match rawXDR with
       | None => emit lost1
       | Some rawXDR => emit (of_movements (movementsOf t rawXDR watch))
       end
     else ret tt)
    (if want2 then
       rawXDR <-x try (MarshalBase64_event ev) ;
       match rawXDR with
       | None => emit lost2
       | Some rawXDR => emit (of_movements (movementsOf t rawXDR single))
       end
     else ret tt).
Proof.
  intros Hl1 Hl2 Hsub Hnone.
  destruct want1, want2; [| |discriminate Hsub; done|apply alike_refl].
  - apply alike_try_bind; [intros [|]; auto with extract..|]. intros [raw|]; apply alike_emit.
    + unfold mine. simpl. by rewrite movementsOf_mine, movementsOf_single.
    + by rewrite Hl1, Hl2.
  - apply alike_silent. apply keeps_try_bind; [by apply keeps_silent|]. intros raw _.
    apply keeps_silent. unfold mine. simpl. by rewrite movementsOf_mine, Hnone.
Qed.

Lemma mine_transfers t : tr_ContractID t ≠ cid → mine (of_transfers [t]) = mine no_result.
Proof. intros Hne. unfold mine. simpl. rewrite filter_cons. simpl. by rewrite decide_False. Qed.

(** The decoding half of [txTransfer]. *)
Lemma alike_decoded ev body ty token o (e1 e2 want1 want2 : bool) lost1 lost2 :
  mine lost1 = mine no_result → mine lost2 = mine no_result →
  (e2 = true → e1 = true) → (token = cid → e1 = e2) → (token ≠ cid → e2 = false) →
  (want2 = true → want1 = true) →
  (want2 = false → ∀ t raw, buildTransfer body ty token o = SOk t → movementsOf t raw single = []) →
  let decoded lost (e want : bool) w :=
    if negb e && negb want then ret tt
    else
      record <-x try (buildTransfer body ty token o) ;
      match record with
      | None => emit lost
      | Some record =>
          (if e then emit (of_transfers [record]) else ret tt) ;;x
          if want then
            rawXDR <-x try (MarshalBase64_event ev) ;
            match rawXDR with
            | None => emit lost
            | Some rawXDR => emit (of_movements (movementsOf record rawXDR w))
            end
          else ret tt
      end in
  alike (decoded lost1 e1 want1 watch) (decoded lost2 e2 want2 single).
Proof.
  intros Hl1 Hl2 He Hmine Hother Hwant Hnone. simpl.
  assert (Hrest : ∀ lost w (e want : bool) p t, uniform p
    ((if e then emit (of_transfers [t]) else ret tt) ;;x
     if want then
       rawXDR <-x try (MarshalBase64_event ev) ;
       match rawXDR with
       | None => emit lost
       | Some rawXDR => emit (of_movements (movementsOf t rawXDR w))
       end
     else ret tt)) by (intros; uniformity).
  destruct (negb e2 && negb want2) eqn:Hoff.
  - apply andb_true_iff in Hoff as [->%negb_true_iff ->%negb_true_iff].
    destruct (negb e1 && negb want1); [apply alike_refl|]. apply alike_silent.
    apply keeps_try_bind; [by apply keeps_silent|]. intros t Ht. apply keeps_bind.
    + destruct e1; [|apply keeps_ret]. apply keeps_silent, mine_transfers.
      apply buildTransfer_fields in Ht as (-> & _). intros ->. by discriminate Hmine.
    + intros _. destruct want1; [|apply keeps_ret]. apply keeps_try_bind; [by apply keeps_silent|].
      intros raw _. apply keeps_silent. unfold mine. simpl. by rewrite movementsOf_mine, (Hnone eq_refl t raw Ht).
  - replace (negb e1 && negb want1) with false
      by (destruct e1, e2, want1, want2; naive_solver).
    apply alike_try_SOk.
    + intros [t|]; [apply Hrest|auto with extract].
    + intros [t|]; [apply Hrest|auto with extract].
    + intros t Ht. apply alike_bind.
      * destruct e1; auto with extract.
      * intros _. destruct want1; uniformity.
      * destruct e2; auto with extract.
      * intros _. destruct want2; uniformity.
      * destruct e2; [rewrite He by done; apply alike_refl|]. destruct e1; [|apply alike_refl].
        apply alike_emit_ret, mine_transfers.
        apply buildTransfer_fields in Ht as (-> & _). intros ->. by discriminate Hmine.
      * intros _. apply alike_movements; try done. intros Hw raw. by eapply Hnone.
    + apply alike_emit. by rewrite Hl1, Hl2.
Qed.
Lemma mine_counter (d : Result) : all_records d = all_records no_result → mine d = mine no_result.
Proof. unfold all_records, mine. destruct d; simpl. by intros [= -> -> -> -> ->]. Qed.

Lemma wants_sub : sc_wantMovements scp2 = true → sc_wantMovements scp1 = true.
Proof. apply AnyKind_sub. Qed.

(** The participation flag of a run that does not panic. *)
Lemma acts_want p (b : bool) (s : sdk bool) want d :
  acts p (if b then call s else ret false) (Some want) d →
  d = no_result ∧ (if b then s = SOk want else want = false).
Proof.
  intros Ha. destruct b.
  - destruct (acts_inj _ _ _ _ _ _ Ha (acts_call _ s)) as [E ->]. destruct s; try done.
    by injection E as ->.
  - destruct (acts_inj _ _ _ _ _ _ Ha (acts_ret _ false)) as [E ->]. by injection E as ->.
Qed.

Lemma alike_txTransfer ev token o :
  alike (txTransfer watch scp1 ev token o) (txTransfer single scp2 ev token o).
Proof.
  pose proof wants_sub as Hsub.
  assert (Hw2 : sc_wantMovements scp2 = watches single cid KindMovements) by apply AnyKind_single.
  unfold txTransfer.
  set (e1 := watches watch token KindTransfers). set (e2 := watches single token KindTransfers).
  assert (He : e2 = true → e1 = true) by apply watches_sub.
  assert (Hmine : token = cid → e1 = e2) by (intros ->; apply watches_mine).
  assert (Hother : token ≠ cid → e2 = false) by apply watches_other.
  set (lost1 := if e1 then one_SuppressedTransfer else one_Foreign).
  set (lost2 := if e2 then one_SuppressedTransfer else one_Foreign).
  assert (Hl1 : mine lost1 = mine no_result) by (apply mine_counter; by destruct e1).
  assert (Hl2 : mine lost2 = mine no_result) by (apply mine_counter; by destruct e2).
  destruct (negb e2 && negb (sc_wantMovements scp2)) eqn:Hoff.
  - apply andb_true_iff in Hoff as [He2%negb_true_iff Hw%negb_true_iff]. rewrite Hw in Hw2.
    destruct (negb e1 && _); [apply alike_refl|]. apply alike_silent.
    apply keeps_call_bind. intros [body|] _; [|apply keeps_ret].
    destruct (v0_Topics body); [apply keeps_ret|]. apply keeps_call_bind. intros sym _.
    destruct (sym ≫= _); [|apply keeps_ret].
    apply keeps_bind; [destruct (sc_wantMovements scp1); [apply keeps_call|apply keeps_ret]|].
    intros want. destruct (negb e1 && negb want); [apply keeps_ret|].
    apply keeps_try_bind; [by apply keeps_silent|]. intros t Ht. apply keeps_bind.
    + destruct e1; [|apply keeps_ret]. apply keeps_silent, mine_transfers.
      apply buildTransfer_fields in Ht as (-> & _). intros ->. rewrite He2 in Hmine. by discriminate Hmine.
    + intros _. destruct want; [|apply keeps_ret]. apply keeps_try_bind; [by apply keeps_silent|].
      intros raw _. apply keeps_silent. unfold mine. simpl.
      by rewrite movementsOf_mine, movementsOf_unwanted.
  - replace (negb e1 && negb (sc_wantMovements scp1)) with false
      by (destruct e1, e2, (sc_wantMovements scp1), (sc_wantMovements scp2); simpl in *; try done;
          (by discriminate He) || (by discriminate Hsub)).
    apply alike_call_bind; [intros; uniformity..|].
    intros [body|]; [|apply alike_refl]. destruct (v0_Topics body) as [|topic0 topics] eqn:Htop; [apply alike_refl|].
    apply alike_call_bind; [intros; uniformity..|]. intros sym.
    destruct (sym ≫= transferEventNames) as [ty|]; [|apply alike_refl].
    intros [] [] d1 d2 H1 H2. split; [done|].
    apply acts_bind_inv in H1 as (want1 & x1 & y1 & Hp1 & H1 & ->); [|uniformity..|intros; uniformity].
    apply acts_bind_inv in H2 as (want2 & x2 & y2 & Hp2 & H2 & ->); [|uniformity..|intros; uniformity].
    apply acts_want in Hp1 as [-> Hp1]. apply acts_want in Hp2 as [-> Hp2].
    rewrite !records_of_app. f_equal.
    assert (Hwant : want2 = true → want1 = true).
    { intros ->. destruct (sc_wantMovements scp2); [|done]. rewrite Hsub in Hp1 by done.
      unfold participatesWatched in *. rewrite Htop in *.
      eapply participants_mono; [|exact Hp2|exact Hp1]. intros id. apply watches_sub. }
    assert (Hnone : want2 = false → ∀ t raw, buildTransfer body ty token o = SOk t →
              movementsOf t raw single = []).
    { intros -> t raw Ht. destruct (sc_wantMovements scp2).
      - by eapply movementsOf_absent.
      - by apply movementsOf_unwanted. }
    by destruct (alike_decoded ev body ty token o e1 e2 want1 want2 lost1 lost2 Hl1 Hl2 He Hmine Hother
             Hwant Hnone _ _ _ _ H1 H2).
Qed.

Lemma alike_txEvent ev o : alike (txEvent watch scp1 ev o) (txEvent single scp2 ev o).
Proof.
  unfold txEvent. destruct (negb _); [apply alike_refl|].
  destruct (ce_ContractId ev); [|apply alike_refl].
  destruct (strkey_EncodeContract _) as [token|]; [|apply alike_refl].
  apply alike_bind; [| | | |
    |intros _; apply alike_txTransfer].
  1,3: destruct (watches _ token KindEvents); [apply uniform_record_or|auto with extract].
  1,2: intros _; apply uniform_txTransfer.
  destruct (decide (token = cid)) as [->|Hne]; [rewrite watches_mine; apply alike_refl|].
  rewrite (watches_other token) by done. destruct (watches watch token KindEvents); [|apply alike_refl].
  apply alike_silent, silent_record_or; [done|]. intros e He.
  apply buildEvent_fields in He as (<- & _). unfold mine. simpl. rewrite filter_cons. simpl.
  by rewrite decide_False.
Qed.

Lemma alike_operationEvents o opIndex i ops :
  alike (operationEvents watch scp1 o opIndex i ops) (operationEvents single scp2 o opIndex i ops).
Proof.
  revert opIndex i. induction ops as [|evs ops IH]; intros opIndex i; simpl; [apply alike_refl|].
  apply alike_bind; [apply uniform_opEvents|intros _; apply uniform_operationEvents
                    |apply uniform_opEvents|intros _; apply uniform_operationEvents|
                    |intros _; apply IH].
  clear IH. generalize (i32 opIndex). intros op. revert i.
  induction evs as [|ev evs IH]; intros i; simpl; [apply alike_refl|].
  apply alike_bind; [apply uniform_txEvent|intros _; apply uniform_opEvents
                    |apply uniform_txEvent|intros _; apply uniform_opEvents
                    |apply alike_txEvent|intros _; apply IH].
Qed.

Lemma alike_stateChange ch o : alike (stateChange watch ch o) (stateChange single ch o).
Proof.
  unfold stateChange. destruct (sideOf ch); [|apply alike_refl].
  apply alike_call_bind; [intros; uniformity; apply uniform_record_or..|].
  intros [data|]; [|apply alike_refl]. destruct (sa_ContractId _); [|apply alike_refl].
  destruct (strkey_EncodeContract _) as [id|]; [|apply alike_refl].
  destruct (decide (id = cid)) as [->|Hne]; [rewrite watches_mine; apply alike_refl|].
  rewrite (watches_other id) by done. destruct (watches watch id KindState); [|apply alike_refl].
  apply alike_silent, silent_record_or; [done|]. intros c Hc.
  apply buildStateChange_fields in Hc as (<- & _). unfold mine. simpl. rewrite filter_cons. simpl.
  by rewrite decide_False.
Qed.

Lemma silent_trustline p ch o : watches single cid KindTrustlines = false →
  keeps (λ r, mine r = mine no_result) (trustline watch p ch o).
Proof.
  intros Hoff. unfold trustline. destruct (sideOf ch); [|apply keeps_ret].
  apply keeps_call_bind. intros [tl|] _; [|apply keeps_ret].
  destruct (IsPoolShare _); [apply keeps_ret|]. apply keeps_call_bind. intros asset _.
  apply keeps_bind; [apply keeps_contractIDFor|]. intros [id|]; [|by apply keeps_silent].
  destruct (watches watch id KindTrustlines) eqn:Hw; [|apply keeps_ret].
  apply keeps_call_bind. intros canonical _. apply silent_record_or; [done|]. intros c Hc.
  apply buildTrustlineChange_fields in Hc as (Hc & _). unfold mine. simpl. rewrite filter_cons. simpl.
  rewrite decide_False; [done|]. intros E. rewrite <- Hc, E, watches_mine, Hoff in Hw. done.
Qed.

Ltac same E1 E2 := intros; rewrite ?E1, ?E2; simpl; uniformity.

Lemma alike_trustline ch o :
  sc_assets scp1 = Some passphrase → sc_assets scp2 = Some passphrase →
  alike (trustline watch passphrase ch o) (trustline single passphrase ch o).
Proof.
  intros E1 E2. unfold trustline. destruct (sideOf ch); [|apply alike_refl].
  apply alike_call_bind; [same E1 E2..|]. intros [tl|]; [|apply alike_refl].
  destruct (IsPoolShare _); [apply alike_refl|].
  apply alike_call_bind; [same E1 E2..|]. intros asset.
  apply alike_bind; [same E1 E2..|apply alike_refl|].
  intros [id|]; [|apply alike_refl].
  destruct (decide (id = cid)) as [->|Hne]; [rewrite watches_mine; apply alike_refl|].
  rewrite (watches_other id) by done. destruct (watches watch id KindTrustlines); [|apply alike_refl].
  apply alike_silent. apply keeps_call_bind. intros canonical _.
  apply silent_record_or; [done|]. intros c Hc.
  apply buildTrustlineChange_fields in Hc as (<- & _). unfold mine. simpl. rewrite filter_cons. simpl.
  by rewrite decide_False.
Qed.

Lemma alike_ledgerChange o i ch :
  alike (ledgerChange watch scp1 o i ch) (ledgerChange single scp2 o i ch).
Proof.
  unfold ledgerChange. destruct (ch_Type ch); [apply alike_stateChange| |apply alike_refl].
  pose proof (AnyKind_single KindTrustlines) as Hs. pose proof (AnyKind_sub KindTrustlines) as Hsub.
  destruct (AnyKind single KindTrustlines) eqn:E2.
  - specialize (Hsub eq_refl).
    assert (P1 : sc_assets scp1 = Some passphrase) by (unfold scopeOf; simpl; by rewrite Hsub).
    assert (P2 : sc_assets scp2 = Some passphrase) by (unfold scopeOf; simpl; by rewrite E2).
    rewrite P1, P2. by apply alike_trustline.
  - replace (sc_assets scp2) with (@None string) by (unfold scopeOf; simpl; by rewrite E2).
    destruct (sc_assets scp1); [|apply alike_refl]. by apply alike_silent, silent_trustline.
Qed.

Lemma alike_changes o i chs :
  alike (x_iter (ledgerChange watch scp1 o) i chs) (x_iter (ledgerChange single scp2 o) i chs).
Proof.
  revert i. induction chs as [|ch chs IH]; intros i; simpl; [apply alike_refl|].
  apply alike_bind; [apply uniform_ledgerChange|intros _; apply uniform_x_iter; intros; apply uniform_ledgerChange
                    |apply uniform_ledgerChange|intros _; apply uniform_x_iter; intros; apply uniform_ledgerChange
                    |apply alike_ledgerChange|intros _; apply IH].
Qed.

Lemma alike_tx_body seq closedAt tx :
  alike (tx_body watch scp1 seq closedAt tx) (tx_body single scp2 seq closedAt tx).
Proof.
  unfold tx_body.
  assert (Hlast : ∀ p ok1 w sc, p = default "" (sc_assets sc) → uniform p (
    stateOK <-x txLedgerChanges w sc tx seq closedAt ;
    if negb ok1 || negb stateOK then emit one_SuppressedTx else ret tt)).
  { intros p ok1 w sc ->. apply uniform_bind; [apply uniform_txLedgerChanges|].
    intros ok2. destruct (_ || _); auto with extract. }
  assert (Hbody : ∀ p (ok : bool) w sc, p = default "" (sc_assets sc) → uniform p (
    if negb ok then emit one_FailedTx
    else
      eventsOK <-x txEvents w sc tx seq closedAt ;
      stateOK <-x txLedgerChanges w sc tx seq closedAt ;
      if negb eventsOK || negb stateOK then emit one_SuppressedTx else ret tt)).
  { intros p ok w sc ->. destruct (negb ok); [auto with extract|].
    apply uniform_bind; [apply uniform_txEvents|]. intros ok1. by apply Hlast. }
  apply alike_call_bind; [intros; by apply Hbody..|]. intros ok.
  destruct (negb ok); [apply alike_refl|].
  apply alike_bind; [apply uniform_txEvents|intros; by apply Hlast
                    |apply uniform_txEvents|intros; by apply Hlast| |].
  - unfold txEvents. apply alike_try_bind; [intros [|]..|]; try (intros [ops|]; [|apply alike_refl]);
      auto with extract.
    1,2: apply uniform_bind; [apply uniform_tx_origin|]; intros o;
         apply uniform_bind; [apply uniform_operationEvents|auto with extract].
    apply alike_bind; [apply uniform_tx_origin| |apply uniform_tx_origin| |apply alike_refl|];
      [intros o; apply uniform_bind; [apply uniform_operationEvents|auto with extract]..|].
    intros o. apply alike_bind; [apply uniform_operationEvents|auto with extract
      |apply uniform_operationEvents|auto with extract|apply alike_operationEvents|].
    intros _. apply alike_refl.
  - intros ok1. apply alike_bind; [apply uniform_txLedgerChanges| |apply uniform_txLedgerChanges| | |];
      [intros ok2; destruct (_ || _); auto with extract..| |intros ok2; apply alike_refl].
    unfold txLedgerChanges. apply alike_try_bind; [intros [|]..|]; try (intros [chs|]; [|apply alike_refl]);
      auto with extract.
    1,2: apply uniform_bind; [apply uniform_tx_origin|]; intros o;
         apply uniform_bind; [apply uniform_x_iter; intros; apply uniform_ledgerChange|auto with extract].
    apply alike_bind; [apply uniform_tx_origin| |apply uniform_tx_origin| |apply alike_refl|];
      [intros o; apply uniform_bind;
         [apply uniform_x_iter; intros; apply uniform_ledgerChange|auto with extract]..|].
    intros o. apply alike_bind; [apply uniform_x_iter; intros; apply uniform_ledgerChange|auto with extract
      |apply uniform_x_iter; intros; apply uniform_ledgerChange|auto with extract|apply alike_changes|].
    intros _. apply alike_refl.
Qed.
End share.

(** *** The whole ledger *)

Lemma Events_answers `{S : SDK} `{!SDKChanges} lcm passphrase watch answers r :
  ReadLedger passphrase lcm = Some answers → Len watch ≠ 0%nat →
  Events lcm passphrase watch = Some r →
  r = (foldl (readTx watch (scopeOf passphrase watch) (u32 (LedgerSeq lcm)) (CloseTime lcm))
        (no_result, ∅) answers).1.
Proof.
  intros Ha Hl. unfold Events. destruct (Nat.eqb_spec (Len watch) 0) as [?|_]; [done|].
  rewrite Ha. congruence.
Qed.

Lemma Events_sum `{S : SDK} `{!SDKChanges} `{!SDKLaws} lcm passphrase watch answers r :
  ReadLedger passphrase lcm = Some answers → Len watch ≠ 0%nat →
  Events lcm passphrase watch = Some r →
  r = foldr res_app no_result
        (alone watch (scopeOf passphrase watch) (u32 (LedgerSeq lcm)) (CloseTime lcm) <$> answers).
Proof.
  intros Ha Hl Hr. rewrite (Events_answers _ _ _ _ _ Ha Hl Hr).
  destruct (readTx_all watch (scopeOf passphrase watch) (u32 (LedgerSeq lcm)) (CloseTime lcm)
              answers no_result ∅ (memo_ok_empty _)) as (m & ->).
  simpl. by rewrite res_app_nil_l.
Qed.

(** The body of a transaction never lowers the count of suppressed ones. *)
Lemma keeps_suppressed `{S : SDK} `{!SDKChanges} watch scp seq closedAt c tx :
  keeps (λ r, c ≤ rs_SuppressedTxs r) (tx_body watch scp seq closedAt tx).
Proof.
  assert (Hgen : ∀ (t : X bool), (∀ a b, keeps (tx_counts a b) t) → keeps (λ r, c ≤ rs_SuppressedTxs r) t).
  { intros t Ht m Hm. pose proof (Ht _ _ m (conj eq_refl eq_refl)) as [_ Hs]. simpl in Hs. lia. }
  unfold tx_body. apply keeps_bind; [apply keeps_call|]. intros ok.
  destruct (negb ok); [apply keeps_emit; simpl; lia|].
  apply keeps_bind; [apply Hgen; intros; apply counts_txEvents|]. intros ok1.
  apply keeps_bind; [apply Hgen; intros; apply counts_txLedgerChanges|]. intros ok2.
  destruct (_ || _); [apply keeps_emit; simpl; lia|apply keeps_ret].
Qed.

(** Without a suppressed transaction, no body panicked. *)
Lemma alone_clean `{S : SDK} `{!SDKChanges} `{!SDKLaws} watch scp seq closedAt tx :
  rs_SuppressedTxs (alone watch scp seq closedAt (Some tx)) = 0 →
  acts (default "" (sc_assets scp)) (tx_body watch scp seq closedAt tx) (Some tt)
    (alone watch scp seq closedAt (Some tx)).
Proof.
  intros Hz. destruct (alone_body watch scp seq closedAt tx) as [(d & Hd & ->)|(d & Hd & He)]; [done|].
  exfalso. rewrite He in Hz. simpl in Hz.
  pose proof (alone_counts watch scp seq closedAt (Some tx)) as Hc. cbv zeta in Hc. rewrite He in Hc.
  assert (rs_SuppressedTxs d = 0 ∨ rs_SuppressedTxs d = -1) as [Hd0|Hd1].
  { destruct Hc as [[_ H2]|[[[_ H2] _]|[H2 _]]]; [simpl in H2; lia..|].
    apply (f_equal rs_SuppressedTxs) in H2. simpl in H2. lia. }
  - lia.
  - destruct (Hd no_result ∅ (memo_ok_empty _)) as (m & _ & E). rewrite res_app_nil_l in E.
    pose proof (keeps_suppressed watch scp seq closedAt 0 tx) as Hk.
    specialize (Hk (no_result, ∅) ltac:(simpl; lia)). rewrite E in Hk. simpl in Hk. lia.
Qed.

Lemma Events_owned `{S : SDK} `{!SDKChanges} lcm passphrase watch r :
  Events lcm passphrase watch = Some r →
  attributed watch (u32 (LedgerSeq lcm)) (CloseTime lcm) r.
Proof.
  unfold Events. destruct (Nat.eqb _ 0); [intros [= <-]; by apply attributed_nil|].
  destruct (ReadLedger passphrase lcm) as [answers|]; [|done]. intros [= <-].
  apply attributed_answers. by apply attributed_nil.
Qed.

(** A single contract owns everything it is read for. *)
Lemma attributed_single cid contract seq closedAt r :
  attributed ({[ cid := contract ]} : gmap string Contract) seq closedAt r →
  records_of cid r = all_records r.
Proof.
  assert (Hid : ∀ id kind, watches ({[ cid := contract ]} : gmap string Contract) id kind = true → id = cid).
  { intros id kind Hw. destruct (decide (id = cid)) as [|Hne]; [done|].
    by rewrite (watches_other cid contract) in Hw. }
  intros [He Hs Ht Hl Hm]. unfold records_of, all_records.
  f_equal; apply filter_every; intros x Hx.
  - apply He in Hx as [? _]. eauto.
  - apply Hs in Hx as [? _]. eauto.
  - apply Ht in Hx as [? _]. eauto.
  - apply Hl in Hx as [? _]. eauto.
  - apply Hm in Hx as [? _]. eauto.
Qed.

Lemma alone_list_nonneg `{S : SDK} `{!SDKChanges} watch scp seq closedAt
    (answers : list (option LedgerTransaction)) d :
  d ∈ alone watch scp seq closedAt <$> answers → 0 ≤ rs_SuppressedTxs d.
Proof.
  intros (a & -> & _)%list_elem_of_fmap. pose proof (alone_counts watch scp seq closedAt a) as Hc.
  cbv zeta in Hc. destruct Hc as [[_ ->]|[[[_ ->] _]|[-> _]]]; simpl; lia.
Qed.

(** *** Identifiers *)

Lemma compare_app a b c d : String.length a = String.length b →
  String.compare (a ++ c) (b ++ d)
  = match String.compare a b with Eq => String.compare c d | r => r end.
Proof.
  revert b. induction a as [|x a IH]; intros [|y b] Hl; simpl in *; try done.
  destruct (Ascii.compare x y); [|done..]. apply IH. lia.
Qed.

Lemma compare_refl s : String.compare s s = Eq.
Proof. pose proof (String.compare_antisym s s) as Ha. by destruct (String.compare s s). Qed.

Lemma digits_length n x : String.length (digits n x) = n.
Proof.
  assert (Happ : ∀ a b, String.length (a ++ b) = (String.length a + String.length b)%nat)
    by (induction a as [|? a IH]; intros b; simpl; [done|by rewrite IH]).
  revert x. induction n as [|n IH]; intros x; simpl; [done|]. rewrite Happ, IH. simpl. lia.
Qed.

Lemma digit_char_compare a b : 0 ≤ a < 10 → 0 ≤ b < 10 →
  Ascii.compare (digit_char a) (digit_char b) = Z.compare a b.
Proof.
  intros Ha Hb. unfold Ascii.compare, digit_char.
  rewrite !N_ascii_embedding by lia. rewrite Z2N.inj_compare by lia.
  destruct (Z.compare_spec a b), (Z.compare_spec (48 + a) (48 + b)); try done; lia.
Qed.

Lemma digits_compare n x y : 0 ≤ x < 10 ^ Z.of_nat n → 0 ≤ y < 10 ^ Z.of_nat n →
  String.compare (digits n x) (digits n y) = Z.compare x y.
Proof.
  revert x y. induction n as [|n IH]; intros x y Hx Hy.
  - simpl in *. replace x with 0 by lia. by replace y with 0 by lia.
  - rewrite Nat2Z.inj_succ, Z.pow_succ_r in Hx, Hy by lia. simpl.
    rewrite compare_app by by rewrite !digits_length.
    pose proof (Z.div_mod x 10 ltac:(lia)). pose proof (Z.div_mod y 10 ltac:(lia)).
    pose proof (Z.mod_pos_bound x 10 ltac:(lia)). pose proof (Z.mod_pos_bound y 10 ltac:(lia)).
    rewrite IH by lia. simpl. rewrite digit_char_compare by lia.
    destruct (Z.compare_spec (x / 10) (y / 10)), (Z.compare_spec (x mod 10) (y mod 10)),
      (Z.compare_spec x y); try done; lia.
Qed.

Lemma pad_in_range n x : 0 ≤ x < 10 ^ Z.of_nat n → pad n x = digits n x.
Proof.
  intros Hx. unfold pad, pad_nonneg. destruct (Z.ltb_spec x 0); [lia|].
  by destruct (Z.ltb_spec x (10 ^ Z.of_nat n)); [|lia].
Qed.

Lemma record_id_compare p i p' i' :
  0 ≤ p < 10 ^ 19 → 0 ≤ p' < 10 ^ 19 → 0 ≤ i < 10 ^ 10 → 0 ≤ i' < 10 ^ 10 →
  String.compare (record_id p i) (record_id p' i')
  = match Z.compare p p' with Eq => Z.compare i i' | r => r end.
Proof.
  intros. unfold record_id. rewrite !(pad_in_range 19), !(pad_in_range 10) by done.
  rewrite compare_app by by rewrite !digits_length.
  rewrite (digits_compare 19) by done. destruct (Z.compare p p'); [|done..].
  change (String.compare (digits 10 i) (digits 10 i') = Z.compare i i').
  by rewrite (digits_compare 10).
Qed.

Lemma record_id_inj p i p' i' :
  0 ≤ p < 10 ^ 19 → 0 ≤ p' < 10 ^ 19 → 0 ≤ i < 10 ^ 10 → 0 ≤ i' < 10 ^ 10 →
  record_id p i = record_id p' i' → p = p' ∧ i = i'.
Proof.
  intros Hp Hp' Hi Hi' E. pose proof (record_id_compare p i p' i' Hp Hp' Hi Hi') as Hc.
  rewrite E, compare_refl in Hc. destruct (Z.compare_spec p p'), (Z.compare_spec i i'); done.
Qed.

(** *** Decoding *)

Lemma i128Amount_unsigned `{SDK} parts s rest : i128Amount parts = SOk s → s ≠ String "-"%char rest.
Proof.
  unfold i128Amount. destruct (String128Raw parts) as [|c x]; [by intros [= <-]|].
  destruct (Ascii.eqb_spec c "-"%char) as [->|Hc]; [done|]. intros [= <-] [= ? _]. done.
Qed.

Lemma decodeMap_unsigned `{SDK} entries amt mux a m rest :
  amt ≠ String "-"%char rest → decodeMap amt mux entries = SOk (a, m) → a ≠ String "-"%char rest.
Proof.
  revert amt mux. induction entries as [|[k v] entries IH]; intros amt mux Ha; simpl.
  - case_bool_decide; [done|]. by intros [= <- <-].
  - intros Hd. sdk_inv Hd. destruct v0 as [key|]; [|done]. case_bool_decide.
    + destruct v; try done. sdk_inv Hd. apply (IH v0 mux); [by eapply i128Amount_unsigned|done].
    + case_bool_decide; [|done]. sdk_inv Hd. by apply (IH amt v0).
Qed.

Lemma decodeTransferData_unsigned `{SDK} v a m rest :
  decodeTransferData v = SOk (a, m) → a ≠ String "-"%char rest.
Proof.
  destruct v as [| | |parts| | |[entries|]|]; try done; simpl; intros Hd.
  - sdk_inv Hd. injection Hd as <- _. by eapply i128Amount_unsigned.
  - eapply decodeMap_unsigned; [|exact Hd]. done.
Qed.

(** ** Properties *)

(** C17.  One hostile transaction costs exactly one transaction: a ledger's
    result is the sum of what each transaction derives alone, in order, so no
    transaction changes what another yields; and each counts at most once,
    as failed (and then it derives nothing) or as suppressed. *)
Theorem Events_per_transaction `{S : SDK} `{!SDKChanges} `{!SDKLaws} (lcm : LedgerCloseMeta)
    (passphrase : string) (watch : Snapshot) (answers : list (option LedgerTransaction)) (r : Result) :
  ReadLedger passphrase lcm = Some answers → Len watch ≠ 0%nat →
  Events lcm passphrase watch = Some r →
  let one := alone watch (scopeOf passphrase watch) (u32 (LedgerSeq lcm)) (CloseTime lcm) in
  r = foldr res_app no_result (one <$> answers) ∧
  one None = one_SuppressedTx ∧
  ∀ tx, (Successful tx = SOk false → one (Some tx) = one_FailedTx) ∧
        (Successful tx ≠ SOk false → rs_FailedTxs (one (Some tx)) = 0 ∧
           (rs_SuppressedTxs (one (Some tx)) = 0 ∨ rs_SuppressedTxs (one (Some tx)) = 1)).
Proof.
  intros Ha Hl Hr one. split; [by apply Events_sum|]. split; [done|]. intros tx.
  pose proof (alone_counts watch (scopeOf passphrase watch) (u32 (LedgerSeq lcm)) (CloseTime lcm)
                (Some tx)) as Hc. cbv zeta in Hc. fold (one (Some tx)) in Hc. split; intros Hs.
  - unfold one, alone. simpl. unfold processTx, recover, x_bind, call. by rewrite Hs.
  - destruct Hc as [[? ?]|[[[? ?] _]|[_ (tx' & [= <-] & ?)]]]; [by auto..|done].
Qed.

(** Nothing is derived for a contract that did not ask for it: every event,
    state change, transfer, trustline change and movement belongs to a watched
    contract registered for that kind, carries this ledger's sequence and close
    time, and is well formed (known change and transfer types, a readable
    trustline side, a known role). *)
Theorem Events_attributed `{S : SDK} `{!SDKChanges} (lcm : LedgerCloseMeta) (passphrase : string)
    (watch : Snapshot) (r : Result) :
  Events lcm passphrase watch = Some r →
  attributed watch (u32 (LedgerSeq lcm)) (CloseTime lcm) r.
Proof. apply Events_owned. Qed.

(** C16.  Reading a ledger once for many contracts gives each of them what
    reading it for that contract alone would: as long as neither reading had
    to suppress a transaction, the contract's share of the joint result is the
    whole result of its own. *)
Theorem Events_partition `{S : SDK} `{!SDKChanges} `{!SDKLaws} (lcm : LedgerCloseMeta)
    (passphrase : string) (watch : gmap string Contract) (cid : string) (contract : Contract)
    (r r' : Result) :
  watch !! cid = Some contract → (∃ raw, strkey_EncodeContract raw = Some cid) →
  Events lcm passphrase watch = Some r → Events lcm passphrase {[ cid := contract ]} = Some r' →
  rs_SuppressedTxs r = 0 → rs_SuppressedTxs r' = 0 →
  records_of cid r = all_records r'.
Proof.
  intros Hget Hstr Hr Hr' Hz Hz'.
  rewrite <- (attributed_single cid contract _ _ r' (Events_owned _ _ _ _ Hr')).
  assert (Hl : Len watch ≠ 0%nat).
  { unfold Len. intros E. apply map_size_empty_inv in E. rewrite E, lookup_empty in Hget. done. }
  assert (Hl' : Len ({[ cid := contract ]} : gmap string Contract) ≠ 0%nat)
    by (unfold Len, Snapshot; by rewrite map_size_singleton).
  destruct (ReadLedger passphrase lcm) as [answers|] eqn:Ha;
    [|unfold Events in Hr; rewrite Ha in Hr; by destruct (Nat.eqb_spec (Len watch) 0)].
  rewrite (Events_sum _ _ _ _ _ Ha Hl Hr) in *. rewrite (Events_sum _ _ _ _ _ Ha Hl' Hr') in *.
  apply records_of_foldr. apply Forall2_fmap.
  set (seq := u32 (LedgerSeq lcm)) in *. set (closedAt := CloseTime lcm) in *.
  pose proof (proj2 (foldr_res_suppressed _ (alone_list_nonneg _ _ _ _ _)) Hz) as Hc.
  pose proof (proj2 (foldr_res_suppressed _ (alone_list_nonneg _ _ _ _ _)) Hz') as Hc'.
  apply Forall_Forall2_diag, Forall_forall. intros [tx|] Hin; [|done].
  assert (H1 := alone_clean watch _ seq closedAt tx (Hc _ (list_elem_of_fmap_2 _ _ _ Hin))).
  assert (H2 := alone_clean _ _ seq closedAt tx (Hc' _ (list_elem_of_fmap_2 _ _ _ Hin))).
  by destruct (alike_tx_body passphrase watch cid contract Hget Hstr seq closedAt tx _ _ _ _ H1 H2).
Qed.

(** Record ids sort in chain order: as text, the zero-padded ids of two
    records compare like their positions, first by the transaction's prefix
    and then by the index inside it (64-bit prefixes and 32-bit indexes always
    fit the padding). *)
Theorem record_id_chain_order (p i p' i' : Z) :
  0 ≤ p ≤ 9223372036854775807 → 0 ≤ p' ≤ 9223372036854775807 →
  0 ≤ i ≤ 2147483647 → 0 ≤ i' ≤ 2147483647 →
  (record_id p i = record_id p' i' ↔ p = p' ∧ i = i') ∧
  (@text_ltb bytewise (record_id p i) (record_id p' i') = true ↔ p < p' ∨ (p = p' ∧ i < i')).
Proof.
  intros. pose proof (record_id_compare p i p' i' ltac:(lia) ltac:(lia) ltac:(lia) ltac:(lia)) as Hc.
  split.
  - split; [|by intros [-> ->]]. intros E. rewrite E in Hc.
    rewrite compare_refl in Hc.
    destruct (Z.compare_spec p p'), (Z.compare_spec i i'); done.
  - unfold text_ltb, bytewise, String.ltb. rewrite Hc.
    destruct (Z.compare_spec p p'), (Z.compare_spec i i'); split; try done; try lia; auto.
Qed.

(** Token events decode to one shape whatever generation emitted them: an
    accepted transfer's amount is unsigned and its parties are placed by type
    (a mint has no sender, a burn or clawback no recipient); and the classic
    layout (admin among the topics, bare amount) and the unified one (no admin,
    amount in a map) of a mint or a clawback decode to the same row. *)
Theorem buildTransfer_shapes `{SDK} (o : origin) (token : string) :
  (∀ body ty t, buildTransfer body ty token o = SOk t →
     (∀ rest, tr_Amount t ≠ String "-"%char rest) ∧
     (ty = "mint" → tr_FromAddress t = "") ∧
     (ty = "burn" ∨ ty = "clawback" → tr_ToAddress t = "")) ∧
  (∀ ty topic0 admin adminS party partyS asset parts,
     ty = "mint" ∨ ty = "clawback" →
     address_String admin = SOk adminS → address_String party = SOk partyS →
     String128Raw parts ≠ "" →
     buildTransfer (mkEventV0 [topic0; ScvAddress (Some admin); ScvAddress (Some party);
                               ScvString (Some asset)] (ScvI128 (Some parts))) ty token o
     = buildTransfer (mkEventV0 [topic0; ScvAddress (Some party); ScvString (Some asset)]
         (ScvMap (Some [(ScvSymbol (Some "amount"), ScvI128 (Some parts))]))) ty token o).
Proof.
  split.
  - intros body ty t Hb. unfold buildTransfer in Hb. destruct (v0_Topics body); [done|].
    sdk_inv Hb. injection Hb as <-. simpl. split_and!.
    + intros rest. destruct v1 as [a m]. by eapply decodeTransferData_unsigned.
    + intros ->. unfold transferParties in Hv0. simpl in Hv0.
      destruct (last v.1); [|done]. by injection Hv0 as <-.
    + intros [->| ->]; unfold transferParties in Hv0; simpl in Hv0.
      * destruct v.1; [done|]. by injection Hv0 as <-.
      * destruct (last v.1); [|done]. by injection Hv0 as <-.
  - intros ty topic0 admin adminS party partyS asset parts Hty Ha Hp Hne.
    unfold buildTransfer. simpl. rewrite Ha, Hp. simpl.
    assert (Hdata : (a <~~ i128Amount parts ; SOk (a, "")) =
                    (a <~~ i128Amount parts ; if bool_decide (a = "") then SErr else SOk (a, ""))).
    { unfold i128Amount. destruct (String128Raw parts) as [|c x] eqn:E; [done|].
      by destruct (Ascii.eqb c "-"%char). }
    rewrite Hdata. destruct Hty as [->| ->]; done.
Qed.

(** ** Witnesses and concrete runs *)

(** A toy SDK: a ledger is its sequence and its transactions; contract ids are
    the strings that start with [C]; encodings are the values themselves. *)
Record demo_tx := mkDemoTx {
  dt_index : Z; dt_ok : sdk bool; dt_events : sdk (list (list ContractEvent)) }.

Definition demo_strkey (raw : string) : option string :=
  match raw with
  | String c _ => if Ascii.eqb c "C"%char then Some raw else None
  | EmptyString => None
  end.

Definition demo_address (a : ScAddress) : sdk string :=
  if sa_IsContract a then
    match sa_ContractId a with
    | Some cid => match demo_strkey cid with Some s => SOk s | None => SErr end
    | None => SPanic
    end
  else SOk "GACCOUNT".

#[local] Instance demo_sdk : SDK := {|
  LedgerCloseMeta := Z * list (option demo_tx);
  LedgerTransaction := demo_tx;
  TrustLineAsset := string; Asset := string; AccountId := string;
  LedgerSeq := fst; CloseTime l := 5 * l.1;
  ReadLedger _ l := Some l.2;
  Successful := dt_ok; GetTransactionEvents := dt_events;
  TransactionHash tx := ("tx" ++ pretty (dt_index tx))%string;
  tx_Index := dt_index;
  toid l t := SOk (4294967296 * l + 4096 * t);
  strkey_EncodeContract := demo_strkey;
  MarshalBase64_event _ := SOk "raw"; MarshalBase64 _ := SOk "xdr";
  address_String := demo_address;
  String128Raw p := pretty (i128_Lo p);
  IsPoolShare _ := false; ToAsset a := SOk a; StringCanonical a := SOk a;
  asset_ContractID a _ := SOk ("C" ++ a)%string; GetAddress a := SOk a |}.

#[local] Instance demo_changes : SDKChanges := λ _, SOk [].

#[local] Instance demo_laws : SDKLaws.
Proof.
  split; simpl.
  - intros a b key _ [= ->] [= ->]. done.
  - intros a s raw. unfold demo_address, demo_strkey.
    destruct (sa_IsContract a).
    + destruct (sa_ContractId a) as [cid|]; [|done].
      destruct cid as [|c rest]; [done|]. destruct (Ascii.eqb c "C"%char) eqn:Hc; [|done].
      intros [= <-] _. split; [done|]. exists (String c rest). by rewrite Hc.
    + intros [= <-]. destruct raw as [|c rest]; [done|].
      destruct (Ascii.eqb_spec c "C"%char) as [->|]; [|done]. intros [=].
Qed.

(** A payment from an account into the contract [CA], emitted by the token
    [CT], in a ledger that also holds a failed, an unreadable and a panicking
    transaction. *)
Definition demo_transfer_event : ContractEvent :=
  mkContractEvent true (Some "CT") (BodyV0 (Some (mkEventV0
    [ScvSymbol (Some "transfer"); ScvAddress (Some (mkScAddress false None));
     ScvAddress (Some (mkScAddress true (Some "CA")))]
    (ScvI128 (Some (mkInt128 0 7)))))).

Definition demo_ledger : Z * list (option demo_tx) :=
  (9, [Some (mkDemoTx 1 (SOk true) (SOk [[demo_transfer_event]]));
       Some (mkDemoTx 2 (SOk false) SErr); None; Some (mkDemoTx 3 SPanic SErr)]).

Definition quiet_ledger : Z * list (option demo_tx) :=
  (9, [Some (mkDemoTx 1 (SOk true) (SOk [[demo_transfer_event]]));
       Some (mkDemoTx 2 (SOk false) SErr)]).

Definition demo_watch : gmap string Contract :=
  {[ "CA" := mkContract "testnet" "CA" "api" ["movements"] None 0;
     "CT" := mkContract "testnet" "CT" "api" ["events"; "transfers"] None 0 ]}.

Example demo_Events :
  option_map (λ r, (map ev_ContractID (rs_Events r), map tr_Amount (rs_Transfers r),
     map (λ m, (mv_ContractID m, mv_Role m, mv_TokenContractID m, mv_Counterparty m)) (rs_Movements r),
     rs_FailedTxs r, rs_SuppressedTxs r)) (Events (S:=demo_sdk) demo_ledger "pass" demo_watch)
  = Some (["CT"], ["7"], [("CA", "recipient", "CT", "GACCOUNT")], 1, 2).
Proof. vm_compute. reflexivity. Qed.

Lemma Events_per_transaction_witness :
  ∃ r, Events (S:=demo_sdk) demo_ledger "pass" demo_watch = Some r ∧
    r = foldr res_app no_result
          (alone (S:=demo_sdk) demo_watch (scopeOf "pass" demo_watch) 9 45 <$> demo_ledger.2).
Proof.
  eexists. split; [vm_compute; reflexivity|].
  refine (proj1 (Events_per_transaction (S:=demo_sdk) demo_ledger "pass" demo_watch demo_ledger.2 _ _ _ _)).
  - reflexivity.
  - vm_compute. discriminate.
  - vm_compute. reflexivity.
Defined.

Lemma Events_attributed_witness :
  ∃ r, Events (S:=demo_sdk) demo_ledger "pass" demo_watch = Some r ∧ attributed demo_watch 9 45 r.
Proof.
  eexists. split; [vm_compute; reflexivity|].
  apply (Events_attributed (S:=demo_sdk) demo_ledger "pass" demo_watch). vm_compute. reflexivity.
Defined.

Lemma Events_partition_witness :
  ∃ r r', Events (S:=demo_sdk) quiet_ledger "pass" demo_watch = Some r ∧
    Events (S:=demo_sdk) quiet_ledger "pass" {[ "CA" := mkContract "testnet" "CA" "api" ["movements"] None 0 ]}
      = Some r' ∧
    length (rs_Movements r') = 1%nat ∧ records_of "CA" r = all_records r'.
Proof.
  eexists _, _. split; [vm_compute; reflexivity|]. split; [vm_compute; reflexivity|].
  split; [reflexivity|].
  apply (Events_partition (S:=demo_sdk) quiet_ledger "pass" demo_watch "CA"
           (mkContract "testnet" "CA" "api" ["movements"] None 0)).
  - vm_compute. reflexivity.
  - exists "CA". reflexivity.
  - vm_compute. reflexivity.
  - vm_compute. reflexivity.
  - reflexivity.
  - reflexivity.
Defined.

Lemma record_id_chain_order_witness :
  @text_ltb bytewise (record_id 38654709760 9) (record_id 38654709760 10) = true.
Proof.
  apply (record_id_chain_order 38654709760 9 38654709760 10); [lia|lia|lia|lia|]. right. lia.
Defined.
