(* ===== verification/Loop.v ===== *)
(** * The ingestion loop ([internal/ingest/loop.go])

    One iteration of [Run] is a function of the loop's state and of what the
    world answers during it ([turn]): the context, the source, the registry's
    snapshot, the server.  Durations are nanoseconds. *)

From stdpp Require Import relations.
From S2P Require Import Prelude Db Rows Registrations Commit Registry Extract.

(** ** Definitions *)

Definition Second : Z := 1000000000.
Definition tipPollInterval : Z := 2 * Second.
Definition backoffMin : Z := Second.
Definition backoffMax : Z := 30 * Second.
Definition resetSlack : Z := 17280.
Definition readyLagThreshold : Z := 6.

(** The header fields of a ledger, from the SDK. *)
Class LedgerHeaders `{SDK} := {
  LedgerHash : LedgerCloseMeta → string;
  PreviousLedgerHash : LedgerCloseMeta → string }.

(** [source.Info], [source.InfoOf] *)
Record Info := mkInfo {
  in_Sequence : Z; in_Hash : string; in_PreviousHash : string; in_ClosedAt : Z }.

Definition InfoOf `{LedgerHeaders} (lcm : LedgerCloseMeta) : Info :=
  mkInfo (u32 (LedgerSeq lcm)) (LedgerHash lcm) (PreviousLedgerHash lcm) (CloseTime lcm).

Record Config := mkConfig { cf_Network : string; cf_Passphrase : string; cf_StartLedger : Z }.

(** The counters of [instruments]. *)
Record Instruments := mkInstruments {
  im_LedgersIngested : Z; im_TipLag : option Z; im_Commits : Z;
  im_Events : Z; im_StateChanges : Z; im_Transfers : Z; im_TrustlineChanges : Z;
  im_Movements : Z; im_FailedTxs : Z; im_SuppressedTxs : Z; im_SuppressedEvents : Z;
  im_SuppressedTransfers : Z; im_SuppressedTrustlines : Z; im_ForeignUndecodable : Z }.

Definition no_instruments : Instruments := mkInstruments 0 None 0 0 0 0 0 0 0 0 0 0 0 0.

(** The counts after extraction, and those after a commit. *)
Definition inc_suppressed (r : Result) (i : Instruments) : Instruments :=
  mkInstruments (im_LedgersIngested i) (im_TipLag i) (im_Commits i) (im_Events i)
    (im_StateChanges i) (im_Transfers i) (im_TrustlineChanges i) (im_Movements i)
    (im_FailedTxs i + rs_FailedTxs r) (im_SuppressedTxs i + rs_SuppressedTxs r)
    (im_SuppressedEvents i + rs_SuppressedEvents r)
    (im_SuppressedTransfers i + rs_SuppressedTransfers r)
    (im_SuppressedTrustlines i + rs_SuppressedTrustlines r)
    (im_ForeignUndecodable i + rs_ForeignUndecodable r).

Definition inc_ingested (r : Result) (tipLag : Z) (i : Instruments) : Instruments :=
  let len := λ n, Z.of_nat n in
  mkInstruments (im_LedgersIngested i + 1) (Some tipLag) (im_Commits i + 1)
    (im_Events i + len (length (rs_Events r)))
    (im_StateChanges i + len (length (rs_StateChanges r)))
    (im_Transfers i + len (length (rs_Transfers r)))
    (im_TrustlineChanges i + len (length (rs_TrustlineChanges r)))
    (im_Movements i + len (length (rs_Movements r)))
    (im_FailedTxs i) (im_SuppressedTxs i) (im_SuppressedEvents i) (im_SuppressedTransfers i)
    (im_SuppressedTrustlines i) (im_ForeignUndecodable i).

(** What [observer] was last told. *)
Record Observed := mkObserved { ob_ready : option bool; ob_seen : option (Z * Z * Z) }.

(** The local variables of [Run] ([next], [expectedPrev], [backoff]), the fields
    of [Loop] and the database behind the store; [lp_slept] lists the pauses
    asked of [sleepCtx], newest first. *)
Record loop := mkLoop {
  lp_next : Z; lp_expectedPrev : string; lp_backoff : Z; lp_lastKnownTip : Z;
  lp_obs : Observed; lp_inst : Instruments; lp_slept : list Z; lp_db : db }.

(** What the world does during one iteration. *)
Record turn `{SDK} := mkTurn {
  tn_cancelled : bool;              (** [ctx.Err()] at the top *)
  tn_get : res LedgerCloseMeta;     (** [GetLedger] *)
  tn_dying : bool;                  (** [ctx.Err()] after a failing call *)
  tn_latest : option Z;             (** [LatestLedger] of [markTipReached] *)
  tn_slept : bool;                  (** [sleepCtx]: the timer fired *)
  tn_watch : Snapshot;              (** [watch.Snapshot()] *)
  tn_faults : faults;               (** the server during [CommitLedger] *)
  tn_lost : bool;                   (** its acknowledgement lost after the commit *)
  tn_now : Z;                       (** its clock *)
  tn_clock : Z }.                   (** [time.Now()] *)

(** The errors [Run] gives up with. *)
Inductive loop_err :=
  | NetworkMismatch
  | LoadCursorFailed (e : goerr)
  | TipUnknown
  | NetworkReset (cursor latest : Z)
  | BelowRetention (next : Z)
  | WrongLedger (asked got : Z)
  | ChainDivergence (seq : Z) (expected got : string).

(** [Stopped None] is the nil error of a cancelled context. *)
Inductive verdict := Again | Stopped (e : option loop_err).

Definition maxU32 (a b : Z) : Z := if b <? a then a else b.

(** [resumePoint]: [loaded] is the store's answer, [latest] the source's. *)
Definition resumePoint (cfg : Config) (loaded : res Cursor) (latest : option Z)
    : loop_err + Z * string :=
  match loaded with
  | Err e =>
      if bool_decide (e = ErrNoCursor) then
        match latest with
        | None => inl TipUnknown
        | Some latest => inr (if cf_StartLedger cfg =? 0 then latest else cf_StartLedger cfg, "")
        end
      else inl (LoadCursorFailed e)
  | Ok cursor =>
      match latest with
      | Some latest => if u32 (latest + resetSlack) <? cur_Sequence cursor
                       then inl (NetworkReset (cur_Sequence cursor) latest)
                       else inr (u32 (cur_Sequence cursor + 1), cur_Hash cursor)
      | None => inr (u32 (cur_Sequence cursor + 1), cur_Hash cursor)
      end
  end.

(** [markTipReached] *)
Definition markTipReached (next : Z) (latest : option Z) (lp : loop) : loop :=
  match latest with
  | None => lp
  | Some latest =>
      mkLoop (lp_next lp) (lp_expectedPrev lp) (lp_backoff lp) latest
        (mkObserved (Some (latest <=? u32 (next + readyLagThreshold)))
           (if 0 <? next then Some (next - 1, latest, 0) else ob_seen (lp_obs lp)))
        (lp_inst lp) (lp_slept lp) (lp_db lp)
  end.

(** [sleepCtx]: pause, and stop if the context ended first. *)
Definition pause (d : Z) (fired : bool) (backoff : Z) (lp : loop) : verdict * loop :=
  (if fired then Again else Stopped None,
   mkLoop (lp_next lp) (lp_expectedPrev lp) (if fired then backoff else lp_backoff lp)
     (lp_lastKnownTip lp) (lp_obs lp) (lp_inst lp) (d :: lp_slept lp) (lp_db lp)).

(** Sleep the current backoff, then double it. *)
Definition back_off (fired : bool) (lp : loop) : verdict * loop :=
  pause (lp_backoff lp) fired (Z.min (lp_backoff lp * 2) backoffMax) lp.

Definition set_backoff (b : Z) (lp : loop) : loop :=
  mkLoop (lp_next lp) (lp_expectedPrev lp) b (lp_lastKnownTip lp) (lp_obs lp) (lp_inst lp)
    (lp_slept lp) (lp_db lp).

Definition set_inst (i : Instruments) (lp : loop) : loop :=
  mkLoop (lp_next lp) (lp_expectedPrev lp) (lp_backoff lp) (lp_lastKnownTip lp) (lp_obs lp) i
    (lp_slept lp) (lp_db lp).

Definition set_db (d : db) (lp : loop) : loop :=
  mkLoop (lp_next lp) (lp_expectedPrev lp) (lp_backoff lp) (lp_lastKnownTip lp) (lp_obs lp)
    (lp_inst lp) (lp_slept lp) d.

Section loop.
Context `{S : SDK} `{!SDKChanges} `{!LedgerHeaders} (cfg : Config).

Definition ledger_record (info : Info) : LedgerRecord :=
  mkLedgerRecord (in_Sequence info) (in_Hash info) (in_PreviousHash info) (in_ClosedAt info).

(** [CommitLedger] as the client sees it: after a lost acknowledgement it is
    an error although the server committed. *)
Definition commit (tn : turn) (info : Info) (r : Result) (d : db) : res unit * db :=
  match BeginFunc (tn_faults tn) (tn_now tn)
          (CommitLedger (cf_Network cfg) (ledger_record info) (all_records r)) d with
  | (Ok tt, d') => (if tn_lost tn then Err ErrOther else Ok tt, d')
  | (Err e, d') => (Err e, d')
  end.

(** The part of the loop body below [backoff = backoffMin]. *)
Definition process (tn : turn) (lcm : LedgerCloseMeta) (lp : loop) : verdict * loop :=
  let info := InfoOf lcm in
  let next := lp_next lp in
  if negb (in_Sequence info =? next) then
    (Stopped (Some (WrongLedger next (in_Sequence info))), lp)
  else if bool_decide (lp_expectedPrev lp ≠ "")
          && bool_decide (in_PreviousHash info ≠ lp_expectedPrev lp) then
    (Stopped (Some (ChainDivergence (in_Sequence info) (lp_expectedPrev lp) (in_PreviousHash info))), lp)
  else
    match Events lcm (cf_Passphrase cfg) (tn_watch tn) with
    | None => back_off (tn_slept tn) lp
    | Some extracted =>
        let lp := set_inst (inc_suppressed extracted (lp_inst lp)) lp in
        let '(out, d) := commit tn info extracted (lp_db lp) in
        let lp := set_db d lp in
        match out with
        | Err _ => if tn_dying tn then (Stopped None, lp) else back_off (tn_slept tn) lp
        | Ok _ =>
            let tipLag := tn_clock tn - in_ClosedAt info in
            (Again,
             mkLoop (u32 (next + 1)) (in_Hash info) (lp_backoff lp) (lp_lastKnownTip lp)
               (mkObserved (ob_ready (lp_obs lp))
                  (Some (in_Sequence info, maxU32 (in_Sequence info) (lp_lastKnownTip lp), tipLag)))
               (inc_ingested extracted tipLag (lp_inst lp)) (lp_slept lp) d)
        end
    end.

(** The loop body of [Run]. *)
Definition iterate (tn : turn) (lp : loop) : verdict * loop :=
  if tn_cancelled tn then (Stopped None, lp)
  else
    match tn_get tn with
    | Ok lcm => process tn lcm (set_backoff backoffMin lp)
    | Err ErrNotYetAvailable =>
        let lp := markTipReached (lp_next lp) (tn_latest tn) lp in
        pause tipPollInterval (tn_slept tn) (lp_backoff lp) lp
    | Err ErrBelowRetention => (Stopped (Some (BelowRetention (lp_next lp))), lp)
    | Err _ => if tn_dying tn then (Stopped None, lp) else back_off (tn_slept tn) lp
    end.

(** [Run] up to the loop: [verified] is [VerifyNetwork]'s answer and [fl] the
    server's behaviour during [LoadCursor]. *)
Definition boot (verified : bool) (fl : faults) (latest : option Z) (d : db) : loop_err + loop :=
  if negb verified then inl NetworkMismatch
  else match resumePoint cfg (BeginFunc fl 0 (LoadCursor (cf_Network cfg)) d).1 latest with
       | inl e => inl e
       | inr (next, prev) =>
           inr (mkLoop next prev backoffMin 0 (mkObserved None None) no_instruments [] d)
       end.

(** [Run] over the turns the world takes. *)
Fixpoint run_turns (turns : list turn) (lp : loop) : verdict * loop :=
  match turns with
  | [] => (Again, lp)
  | tn :: turns =>
      match iterate tn lp with
      | (Again, lp) => run_turns turns lp
      | stopped => stopped
      end
  end.

(** ** The process across restarts *)
Inductive process_state := Down (d : db) | Up (lp : loop).

Context (honest : turn → loop → Prop).

Inductive process_step : process_state → process_state → Prop :=
  | Boot fl latest d lp :
      (∀ n, fl n ≠ Some ErrNoCursor) → (∀ l, latest = Some l → is_u32 l) →
      boot true fl latest d = inr lp → process_step (Down d) (Up lp)
  | Turn tn lp lp' : honest tn lp → iterate tn lp = (Again, lp') → process_step (Up lp) (Up lp')
  | Stop tn lp e lp' : honest tn lp → iterate tn lp = (Stopped e, lp') →
      process_step (Up lp) (Down (lp_db lp'))
  | Crash lp : process_step (Up lp) (Down (lp_db lp)).
End loop.

(** ** Lemmas *)
Section lemmas.
Context `{S : SDK} `{!SDKChanges} `{!LedgerHeaders} (cfg : Config).

Abbreviation net := (cf_Network cfg).

(** Either the commit did not happen, or it did and its acknowledgement may be
    lost. *)
Lemma commit_cases tn info r d :
  (∃ e, commit cfg tn info r d = (Err e, d)) ∨
  ∃ d', run (tn_now tn) (CommitLedger net (ledger_record info) (all_records r)) d = Ok (tt, d') ∧
        commit cfg tn info r d = (if tn_lost tn then Err ErrOther else Ok tt, d').
Proof.
  unfold commit.
  destruct (BeginFunc_atomic (tn_faults tn) (tn_now tn)
              (CommitLedger net (ledger_record info) (all_records r)) d)
    as [(e & ->)|([] & d' & -> & Hrun)]; [left; by exists e|right; by exists d'].
Qed.

(** The ledger an iteration may write. *)
Definition accepts (tn : turn) (lp : loop) (lcm : LedgerCloseMeta) (r : Result) : Prop :=
  tn_get tn = Ok lcm ∧ in_Sequence (InfoOf lcm) = lp_next lp ∧
  (lp_expectedPrev lp = "" ∨ in_PreviousHash (InfoOf lcm) = lp_expectedPrev lp) ∧
  Events lcm (cf_Passphrase cfg) (tn_watch tn) = Some r.

Definition unmoved (lp lp' : loop) : Prop :=
  lp_db lp' = lp_db lp ∧ lp_next lp' = lp_next lp ∧ lp_expectedPrev lp' = lp_expectedPrev lp.

Definition written (tn : turn) (lp lp' : loop) (lcm : LedgerCloseMeta) (r : Result) : Prop :=
  run (tn_now tn) (CommitLedger net (ledger_record (InfoOf lcm)) (all_records r)) (lp_db lp)
  = Ok (tt, lp_db lp').

Lemma unmoved_markTip lp next latest : unmoved lp (markTipReached next latest lp).
Proof. by destruct latest. Qed.

Lemma unmoved_pause d fired b lp : unmoved lp (pause d fired b lp).2.
Proof. done. Qed.

Lemma process_cases tn lcm lp v lp' :
  tn_get tn = Ok lcm → process cfg tn lcm lp = (v, lp') →
  unmoved lp lp' ∨
  ∃ r, accepts tn lp lcm r ∧ written tn lp lp' lcm r ∧
    ((v = Again ∧ lp_next lp' = u32 (lp_next lp + 1) ∧ lp_expectedPrev lp' = LedgerHash lcm) ∨
     (lp_next lp' = lp_next lp ∧ lp_expectedPrev lp' = lp_expectedPrev lp ∧ ∀ e, v ≠ Stopped (Some e))).
Proof.
  intros Hget. unfold process.
  destruct (Z.eqb_spec (in_Sequence (InfoOf lcm)) (lp_next lp)) as [Hseq|]; [|by intros [= <- <-]; left].
  simpl negb. cbv iota.
  destruct (bool_decide (lp_expectedPrev lp ≠ "") && _) eqn:Hprev; [by intros [= <- <-]; left|].
  assert (Hlink : lp_expectedPrev lp = "" ∨ in_PreviousHash (InfoOf lcm) = lp_expectedPrev lp).
  { apply andb_false_iff in Hprev as [Hp|Hp]; apply bool_decide_eq_false, dec_stable in Hp; auto. }
  destruct (Events lcm (cf_Passphrase cfg) (tn_watch tn)) as [r|] eqn:Hev;
    [|intros [= <- <-]; left; apply unmoved_pause].
  cbv zeta. simpl lp_db.
  destruct (commit_cases tn (InfoOf lcm) r (lp_db lp)) as [(e & ->)|(d' & Hrun & ->)].
  - destruct (tn_dying tn); intros [= <- <-]; left; by destruct lp.
  - unfold back_off, pause. destruct (tn_lost tn).
    + destruct (tn_dying tn); [|destruct (tn_slept tn)]; intros [= <- <-]; right; exists r;
        (split; [done|]; split; [done|]; right; repeat split; congruence).
    + intros [= <- <-]. right. exists r. split; [done|]. split; [done|]. by left.
Qed.

Lemma iterate_cases tn lp v lp' :
  iterate cfg tn lp = (v, lp') →
  unmoved lp lp' ∨
  ∃ lcm r, accepts tn lp lcm r ∧ written tn lp lp' lcm r ∧
    ((v = Again ∧ lp_next lp' = u32 (lp_next lp + 1) ∧ lp_expectedPrev lp' = LedgerHash lcm) ∨
     (lp_next lp' = lp_next lp ∧ lp_expectedPrev lp' = lp_expectedPrev lp ∧ ∀ e, v ≠ Stopped (Some e))).
Proof.
  unfold iterate. destruct (tn_cancelled tn); [by intros [= <- <-]; left|].
  destruct (tn_get tn) as [lcm|e] eqn:Hget.
  - intros Hp. apply process_cases in Hp as [?|(r & ?)]; [by left|right; by exists lcm, r|done].
  - assert (Htail : (if tn_dying tn then (Stopped None, lp) else back_off (tn_slept tn) lp) = (v, lp') →
      unmoved lp lp') by (destruct (tn_dying tn); intros [= <- <-]; done).
    destruct e; try (by left; apply Htail); [|by intros [= <- <-]; left].
    intros [= <- <-]. left. apply unmoved_markTip.
Qed.

Lemma iterate_again tn lp :
  (iterate cfg tn lp).1 = Again → iterate cfg tn lp = (Again, (iterate cfg tn lp).2).
Proof. by destruct (iterate cfg tn lp) as [? ?]; intros [= ->]. Qed.

(** *** The stored chain *)
Context (chain : Z → LedgerCloseMeta).

Definition hash_row_at (s : Z) : hash_row :=
  mkHashRow (LedgerHash (chain s)) (PreviousLedgerHash (chain s)) (CloseTime (chain s)).

(** What the database says about the chain: the cursor carries the chain's
    hash, and the ring holds the chain's rows, without a hole, from the start
    of ingestion or its own bound up to the cursor. *)
Definition contiguous (d : db) : Prop :=
  match db_cursor d !! net with
  | None => db_ledger_hashes d = ∅
  | Some c =>
      0 ≤ cur_Sequence c < max_u32 ∧ cur_Hash c = LedgerHash (chain (cur_Sequence c)) ∧
      ∃ start, start ≤ cur_Sequence c ∧
        (∀ s, start ≤ s ≤ cur_Sequence c → cur_Sequence c - hashRingSize ≤ s →
              db_ledger_hashes d !! s = Some (hash_row_at s)) ∧
        (∀ s h, db_ledger_hashes d !! s = Some h → start ≤ s ≤ cur_Sequence c ∧ h = hash_row_at s)
  end.

(** The loop's variables agree with the database: it is about to commit the
    cursor's successor, or to repeat a commit whose acknowledgement was lost. *)
Definition poised (lp : loop) : Prop :=
  contiguous (lp_db lp) ∧ is_u32 (lp_next lp) ∧
  match db_cursor (lp_db lp) !! net with
  | None => lp_expectedPrev lp = ""
  | Some c =>
      (lp_next lp = cur_Sequence c + 1 ∧ lp_expectedPrev lp = cur_Hash c) ∨
      (lp_next lp = cur_Sequence c ∧
       (lp_expectedPrev lp = "" ∨ lp_expectedPrev lp = LedgerHash (chain (cur_Sequence c - 1))))
  end.

(** A source of this chain: it answers the ledger asked for, or fails. *)
Definition serves (tn : turn) (lp : loop) : Prop :=
  ∀ lcm, tn_get tn = Ok lcm → lcm = chain (lp_next lp) ∧ lp_next lp < max_u32.

Class linked : Prop := {
  chain_seq : ∀ s, is_u32 s → LedgerSeq (chain s) = s;
  chain_link : ∀ s, PreviousLedgerHash (chain (s + 1)) = LedgerHash (chain s) }.
Context `{!linked}.

Lemma db_cursor_put t d : db_cursor (put_tables t d) = db_cursor d.
Proof. by destruct d. Qed.
Lemma db_hashes_put t d : db_ledger_hashes (put_tables t d) = db_ledger_hashes d.
Proof. by destruct d. Qed.

Lemma ledger_done_cursor rec d :
  db_cursor (ledger_done net rec d) !! net = Some (cursor_row rec (db_cursor d !! net)).
Proof. destruct d. simpl. unfold upsert. by rewrite lookup_insert_eq. Qed.

Lemma ledger_done_hashes rec d s h :
  db_ledger_hashes (ledger_done net rec d) !! s = Some h ↔
  lr_Sequence rec - hashRingSize ≤ s ∧
  ((s = lr_Sequence rec ∧ h = default (hash_row_of rec) (db_ledger_hashes d !! s)) ∨
   (s ≠ lr_Sequence rec ∧ db_ledger_hashes d !! s = Some h)).
Proof.
  destruct d as [cu lh ? ? ? ? ? ? ? ? ? ?]. simpl. rewrite lookup_del_Some. unfold upsert.
  rewrite lookup_insert_Some, Z.ltb_ge. split.
  - intros [[[<- <-]|[? ?]] ?]; split; auto.
  - intros [? [[-> ->]|[? ?]]]; split; auto.
Qed.

(** Committing the chain's next ledger, or its last one again. *)
Lemma contiguous_commit d s :
  contiguous d → is_u32 s → s < max_u32 →
  (∀ c, db_cursor d !! net = Some c → s = cur_Sequence c + 1 ∨ s = cur_Sequence c) →
  let d' := ledger_done net (ledger_record (InfoOf (chain s))) d in
  contiguous d' ∧ ∃ c, db_cursor d' !! net = Some c ∧ cur_Sequence c = s.
Proof.
  intros Hc Hs Hm Hnext d'. unfold d'. clear d'.
  assert (Hseq : lr_Sequence (ledger_record (InfoOf (chain s))) = s)
    by (simpl; rewrite chain_seq by done; by apply u32_small).
  assert (Hrow : hash_row_of (ledger_record (InfoOf (chain s))) = hash_row_at s) by done.
  unfold contiguous in *. rewrite ledger_done_cursor.
  destruct (db_cursor d !! net) as [c|] eqn:Hcur.
  - destruct Hc as (Hr & Hh & start & Hst & Hin & Hout). specialize (Hnext c eq_refl).
    assert (Hrow' : cursor_row (ledger_record (InfoOf (chain s))) (Some c) = mkCursor s (LedgerHash (chain s))).
    { unfold cursor_row. rewrite Hseq. destruct (Z.ltb_spec (cur_Sequence c) s); [done|].
      destruct Hnext as [?| ->]; [lia|]. destruct c as [cs ch]. simpl in *. by rewrite Hh. }
    rewrite Hrow'. simpl. split; [|by eexists]. split; [uarith|]. split; [done|].
    exists start. split; [lia|]. split.
    + intros x Hx Hring. apply ledger_done_hashes. rewrite Hseq, Hrow. split; [lia|].
      destruct (decide (x = s)) as [->|Hne].
      * left. split; [done|]. destruct (db_ledger_hashes d !! s) as [h|] eqn:E; [|done].
        apply Hout in E as [_ ->]. done.
      * right. split; [done|]. apply Hin; lia.
    + intros x h [Hring [[-> ->]|[Hne Hx]]]%ledger_done_hashes; rewrite ?Hseq in *.
      * split; [lia|]. rewrite Hrow. destruct (db_ledger_hashes d !! s) as [h|] eqn:E; [|done].
        apply Hout in E as [_ ->]. done.
      * apply Hout in Hx as [? ->]. split; [lia|done].
  - simpl. rewrite chain_seq, u32_small by done.
    split; [|by eexists]. split; [uarith|]. split; [done|]. exists s. split; [lia|]. split.
    + intros x Hx Hring. replace x with s by lia. apply ledger_done_hashes.
      rewrite Hseq, Hrow, Hc, lookup_empty. unfold hashRingSize in *. split; [lia|by left].
    + intros x h [Hring [[-> ->]|[Hne Hx]]]%ledger_done_hashes; rewrite ?Hseq in *.
      * rewrite Hc, lookup_empty, Hrow. split; [lia|done].
      * by rewrite Hc, lookup_empty in Hx.
Qed.
Lemma poised_turn tn lp v lp' :
  poised lp → serves tn lp → iterate cfg tn lp = (v, lp') → poised lp'.
Proof.
  intros (Hc & Hn & Hcur) Hsrv Hit.
  apply iterate_cases in Hit as [(Hdb & Hnext & Hprev)|(lcm & r & Hacc & Hw & Hcase)].
  { unfold poised. by rewrite Hdb, Hnext, Hprev. }
  destruct Hacc as (Hget & Hseq & Hlink & Hev). destruct (Hsrv lcm Hget) as [-> Hmax].
  unfold written in Hw. rewrite run_CommitLedger in Hw.
  destruct (add_records _ _ _) as [tb|]; [|done]. injection Hw as Hw.
  set (d0 := put_tables tb (lp_db lp)) in *.
  assert (Hc0 : contiguous d0) by (unfold contiguous, d0; by rewrite db_cursor_put, db_hashes_put).
  assert (Hcur0 : db_cursor d0 = db_cursor (lp_db lp)) by apply db_cursor_put.
  destruct (contiguous_commit d0 (lp_next lp) Hc0 Hn Hmax) as (Hc' & c & Hc1 & Hc2).
  { intros c Hcc. rewrite Hcur0 in Hcc. rewrite Hcc in Hcur. destruct Hcur as [[? _]|[? _]]; auto. }
  rewrite Hw in Hc', Hc1. split; [done|]. rewrite Hc1.
  assert (Hhash : cur_Hash c = LedgerHash (chain (lp_next lp))).
  { unfold contiguous in Hc'. rewrite Hc1 in Hc'. destruct Hc' as (_ & -> & _). by rewrite Hc2. }
  destruct Hcase as [(_ & -> & ->)|(-> & -> & _)].
  - rewrite u32_small by uarith. split; [uarith|]. left. split; [lia|done].
  - split; [done|]. right. split; [done|]. rewrite Hc2.
    unfold contiguous in Hc. destruct (db_cursor (lp_db lp) !! net) as [c0|]; [|by left].
    destruct Hc as (_ & Hh & _). destruct Hcur as [[-> ->]|[-> ?]]; [|done].
    right. rewrite Hh. f_equal. f_equal. lia.
Qed.

(** The database of a process, up or down. *)
Definition db_of (s : process_state) : db := match s with Down d => d | Up lp => lp_db lp end.

Definition sound_state (s : process_state) : Prop :=
  match s with Down d => contiguous d | Up lp => poised lp end.

Lemma LoadCursor_answer fl d : (∀ n, fl n ≠ Some ErrNoCursor) →
  (BeginFunc fl 0 (LoadCursor net) d).1 =
    match db_cursor d !! net with
    | Some c => Ok (mkCursor (u32 (cur_Sequence c)) (cur_Hash c))
    | None => Err ErrNoCursor
    end ∨
  ∃ e, (BeginFunc fl 0 (LoadCursor net) d).1 = Err e ∧ e ≠ ErrNoCursor.
Proof.
  intros Hfl. unfold BeginFunc, LoadCursor. simpl.
  destruct (fl 0%nat) as [e|] eqn:E0; simpl; [right; exists e; split; [done|congruence]|].
  destruct (db_cursor d !! net) as [c|]; simpl; [|by left].
  destruct (fl 1%nat) as [e|] eqn:E1; simpl; [right; exists e; split; [done|congruence]|by left].
Qed.

(** A start resumes after the cursor, or anywhere on a fresh database. *)
Lemma boot_resumes fl latest d lp :
  contiguous d → (∀ n, fl n ≠ Some ErrNoCursor) → (∀ l, latest = Some l → is_u32 l) →
  is_u32 (cf_StartLedger cfg) → boot cfg true fl latest d = inr lp →
  lp_db lp = d ∧
  match db_cursor d !! net with
  | Some c => lp_next lp = cur_Sequence c + 1 ∧ lp_expectedPrev lp = cur_Hash c
  | None => is_u32 (lp_next lp) ∧ lp_expectedPrev lp = ""
  end.
Proof.
  intros Hc Hfl Hl Hst. unfold boot. simpl negb. cbv iota. unfold contiguous in Hc.
  destruct (LoadCursor_answer fl d Hfl) as [->|(e & -> & He)].
  - destruct (db_cursor d !! net) as [c|] eqn:Hcur.
    + destruct Hc as (Hr & _). unfold resumePoint. cbn [cur_Sequence cur_Hash].
      rewrite (u32_small (cur_Sequence c)) by uarith.
      rewrite (u32_small (cur_Sequence c + 1)) by uarith.
      destruct latest as [l|]; [destruct (u32 (l + resetSlack) <? cur_Sequence c); [done|]|];
        by intros [= <-].
    + unfold resumePoint. destruct latest as [l|]; [|done].
      rewrite bool_decide_eq_true_2 by done. intros [= <-]. simpl. split_and!; [done| |done].
      destruct (cf_StartLedger cfg =? 0); [by apply Hl|done].
  - unfold resumePoint. by rewrite bool_decide_eq_false_2.
Qed.

Lemma poised_boot fl latest d lp :
  contiguous d → (∀ n, fl n ≠ Some ErrNoCursor) → (∀ l, latest = Some l → is_u32 l) →
  is_u32 (cf_StartLedger cfg) → boot cfg true fl latest d = inr lp → poised lp.
Proof.
  intros Hc Hfl Hl Hst Hb. destruct (boot_resumes fl latest d lp Hc Hfl Hl Hst Hb) as [Hdb Hm].
  unfold poised. rewrite Hdb. split; [done|]. unfold contiguous in Hc.
  destruct (db_cursor d !! net) as [c|]; [|done].
  destruct Hm as [-> ->], Hc as (? & _). split; [uarith|by left].
Qed.
Lemma sound_step s s' :
  is_u32 (cf_StartLedger cfg) → sound_state s → process_step cfg serves s s' → sound_state s'.
Proof.
  intros Hst Hs Hstep. destruct Hstep as [fl latest d lp Hfl Hl Hb|tn lp lp' Hsrv Hit|tn lp e lp' Hsrv Hit|lp];
    simpl in *.
  - by eapply poised_boot.
  - by eapply poised_turn.
  - by eapply (poised_turn tn lp (Stopped e) lp').
  - apply Hs.
Qed.

Lemma sound_reachable s s' :
  is_u32 (cf_StartLedger cfg) → sound_state s → rtc (process_step cfg serves) s s' → sound_state s'.
Proof. intros Hst Hs Hr. revert Hs. induction Hr; [done|]. eauto using sound_step. Qed.

(** The ledger a poised loop asks for extends what it has. *)
Lemma poised_links lp : poised lp →
  lp_expectedPrev lp = "" ∨ PreviousLedgerHash (chain (lp_next lp)) = lp_expectedPrev lp.
Proof.
  intros (Hc & Hn & Hcur). unfold contiguous in Hc.
  destruct (db_cursor (lp_db lp) !! net) as [c|]; [|by left]. destruct Hc as (_ & Hh & _).
  destruct Hcur as [[-> ->]|[-> [->| ->]]]; [right|by left|right].
  - by rewrite chain_link, Hh.
  - rewrite <- chain_link. f_equal. f_equal. lia.
Qed.

(** The integrity stops never fire on an honest source. *)
Lemma honest_never_diverges tn lp e lp' :
  poised lp → serves tn lp → iterate cfg tn lp = (Stopped (Some e), lp') → e = BelowRetention (lp_next lp).
Proof.
  intros Hpo Hsrv. pose proof Hpo as (_ & Hn & _). unfold iterate. destruct (tn_cancelled tn); [done|].
  destruct (tn_get tn) as [lcm|g] eqn:Hget.
  - destruct (Hsrv lcm Hget) as [-> Hmax]. unfold process. simpl in_Sequence. simpl lp_next.
    rewrite chain_seq, u32_small, Z.eqb_refl by done. simpl negb. cbv iota.
    assert (Hlink : bool_decide (lp_expectedPrev lp ≠ "") &&
      bool_decide (PreviousLedgerHash (chain (lp_next lp)) ≠ lp_expectedPrev lp) = false).
    { apply andb_false_iff. destruct (poised_links lp Hpo) as [-> | ->]; [by left|right].
      by apply bool_decide_eq_false; intros []. }
    simpl lp_expectedPrev. simpl in_PreviousHash. rewrite Hlink.
    destruct (Events _ _ _) as [r|]; [|unfold back_off, pause; by destruct (tn_slept tn)].
    cbv zeta. destruct (commit _ _ _ _ _) as [[[]|g] d]; [done|].
    destruct (tn_dying tn); [done|]. unfold back_off, pause. by destruct (tn_slept tn).
  - unfold back_off, pause. destruct g; try (by destruct (tn_dying tn), (tn_slept tn)). by intros [= <- _].
Qed.
(** *** Backoff *)

Lemma boot_backoff verified fl latest d lp :
  boot cfg verified fl latest d = inr lp → lp_backoff lp = backoffMin ∧ lp_slept lp = [].
Proof.
  unfold boot. destruct (negb verified); [done|]. destruct (resumePoint _ _ _) as [|[]]; [done|].
  by intros [= <-].
Qed.

Definition in_schedule (d : Z) : Prop := d = tipPollInterval ∨ backoffMin ≤ d ≤ backoffMax.

(** The next pause stays within bounds. *)
Definition paced (lp : loop) : Prop :=
  backoffMin ≤ lp_backoff lp ≤ backoffMax ∧ Forall in_schedule (lp_slept lp).

Lemma paced_pause d fired b lp :
  paced lp → in_schedule d → backoffMin ≤ b ≤ backoffMax → paced (pause d fired b lp).2.
Proof. intros [Hb Hs] Hd Hb'. split; simpl; [by destruct fired|by constructor]. Qed.

Lemma paced_back_off fired lp : paced lp → paced (back_off fired lp).2.
Proof.
  intros Hp. destruct Hp as [Hb Hs]. apply paced_pause; [done|by right|].
  unfold backoffMin, backoffMax, Second in *. lia.
Qed.

Lemma paced_min lp : paced lp → paced (set_backoff backoffMin lp).
Proof. intros [_ Hs]. split; [|done]. simpl. unfold backoffMin, backoffMax, Second. lia. Qed.

Lemma paced_iterate tn lp : paced lp → paced (iterate cfg tn lp).2.
Proof.
  intros Hp. unfold iterate. destruct (tn_cancelled tn); [done|].
  destruct (tn_get tn) as [lcm|g].
  - apply paced_min in Hp. revert Hp. generalize (set_backoff backoffMin lp). clear lp. intros lp Hp.
    unfold process. destruct (negb _); [done|]. destruct (bool_decide (lp_expectedPrev lp ≠ "") && _); [done|].
    destruct (Events _ _ _) as [r|]; [|by apply paced_back_off]. cbv zeta.
    destruct (commit _ _ _ _ _) as [[[]|g] d]; [done|].
    destruct (tn_dying tn); [done|by apply paced_back_off].
  - destruct g; try (destruct (tn_dying tn); [done|by apply paced_back_off]); [|done].
    assert (Hm : paced (markTipReached (lp_next lp) (tn_latest tn) lp))
      by (by destruct (tn_latest tn)).
    apply paced_pause; [done|by left|apply Hm].
Qed.

Lemma paced_run turns lp : paced lp → paced (run_turns cfg turns lp).2.
Proof.
  revert lp. induction turns as [|tn turns IH]; intros lp Hp; simpl; [done|].
  pose proof (paced_iterate tn lp Hp) as Hp'.
  destruct (iterate cfg tn lp) as [[|e] lp1]; [by apply IH|done].
Qed.

(** A failing call to the source, and a failing extraction. *)
Definition source_failure (tn : turn) : Prop :=
  tn_cancelled tn = false ∧ tn_dying tn = false ∧ tn_slept tn = true ∧
  ∃ e, tn_get tn = Err e ∧ e ≠ ErrNotYetAvailable ∧ e ≠ ErrBelowRetention.

Lemma iterate_source_failure tn lp :
  source_failure tn → iterate cfg tn lp = (Again, (back_off true lp).2).
Proof.
  intros (Hc & Hd & Hs & e & Hg & Hn & Hb). unfold iterate. rewrite Hc, Hg, Hd, Hs.
  by destruct e.
Qed.

(** The [k]-th pause of a streak of source failures. *)
Definition backoff_at (b : Z) (k : nat) : Z := Z.min (b * 2 ^ Z.of_nat k) backoffMax.

Lemma run_source_failures turns lp :
  Forall source_failure turns → 0 < lp_backoff lp ≤ backoffMax →
  lp_slept (run_turns cfg turns lp).2
  = rev (backoff_at (lp_backoff lp) <$> seq 0 (length turns)) ++ lp_slept lp.
Proof.
  intros Hall. revert lp. induction Hall as [|tn turns Htn Hall IH]; intros lp Hb; [done|].
  simpl run_turns. rewrite iterate_source_failure by done. rewrite IH.
  - simpl. rewrite <- app_assoc. simpl.
    replace (backoff_at (lp_backoff lp) 0) with (lp_backoff lp) by (unfold backoff_at; simpl; lia).
    f_equal. f_equal. rewrite <- seq_shift, <- list_fmap_compose. apply list_fmap_ext.
    intros i k _. unfold backoff_at. simpl. rewrite Nat2Z.inj_succ, Z.pow_succ_r by lia.
    pose proof (Z.pow_pos_nonneg 2 (Z.of_nat k)). unfold backoffMax, Second in *. nia.
  - simpl. unfold backoffMax, Second in *. lia.
Qed.
End lemmas.

(** ** Properties *)

(** The loop writes only what extends the chain: whatever the source, the
    server and the context do, an iteration that changes the database committed,
    in one [CommitLedger], the extracted records of the very ledger it asked
    for, whose predecessor is the hash it expected; and it advances only after
    such a commit, to the successor, expecting that ledger's hash next. *)
Theorem iterate_writes_linked `{S : SDK} `{!SDKChanges} `{!LedgerHeaders} (cfg : Config)
    (tn : turn) (lp : loop) (v : verdict) (lp' : loop) :
  iterate cfg tn lp = (v, lp') →
  (lp_db lp' ≠ lp_db lp ∨ lp_next lp' ≠ lp_next lp →
   ∃ lcm r, accepts cfg tn lp lcm r ∧ written cfg tn lp lp' lcm r) ∧
  (lp_next lp' ≠ lp_next lp →
   ∃ lcm, tn_get tn = Ok lcm ∧ lp_next lp' = u32 (lp_next lp + 1) ∧
          lp_expectedPrev lp' = LedgerHash lcm) ∧
  (∀ e, v = Stopped (Some e) → lp_db lp' = lp_db lp).
Proof.
  intros [(Hd & Hn & Hp)|(lcm & r & Ha & Hw & Hcase)]%iterate_cases.
  - split_and!; [by intros [?|?]|done|done].
  - split_and!.
    + intros _. by exists lcm, r.
    + intros Hne. exists lcm. destruct Hcase as [(_ & ? & ?)|(? & _)]; [|done].
      split_and!; [apply Ha|done|done].
    + intros e ->. by destruct Hcase as [(? & _)|(_ & _ & Hno)]; [|destruct (Hno e)].
Qed.

(** C13.  Ingestion is contiguous across crashes and restarts.  From a database
    that is fresh or already contiguous, however often the process stops, is
    killed or loses a commit's acknowledgement, and whatever fails: the cursor
    always carries the chain's hash and the continuity ring holds the chain's
    rows without a hole up to it; a restart resumes at the cursor's successor;
    and on an honest source the integrity stops never fire. *)
Theorem ingestion_contiguous `{S : SDK} `{!SDKChanges} `{!LedgerHeaders} (cfg : Config)
    (chain : Z → LedgerCloseMeta) (d0 : db) (s : process_state) :
  linked chain → is_u32 (cf_StartLedger cfg) → contiguous cfg chain d0 →
  rtc (process_step cfg (serves chain)) (Down d0) s →
  contiguous cfg chain (db_of s) ∧
  (∀ fl latest lp c, (∀ n, fl n ≠ Some ErrNoCursor) → (∀ l, latest = Some l → is_u32 l) →
     db_cursor (db_of s) !! cf_Network cfg = Some c →
     boot cfg true fl latest (db_of s) = inr lp →
     lp_next lp = cur_Sequence c + 1 ∧ lp_expectedPrev lp = cur_Hash c) ∧
  (∀ lp tn e lp', s = Up lp → serves chain tn lp →
     iterate cfg tn lp = (Stopped (Some e), lp') → e = BelowRetention (lp_next lp)).
Proof.
  intros Hl Hst Hc0 Hr.
  assert (Hs : sound_state cfg chain s) by (by eapply (sound_reachable cfg chain (Down d0))).
  assert (Hdb : contiguous cfg chain (db_of s)) by (destruct s; [done|apply Hs]).
  split_and!; [done| |].
  - intros fl latest lp c Hfl Hlat Hcur Hb.
    destruct (boot_resumes cfg chain fl latest _ lp Hdb Hfl Hlat Hst Hb) as [_ Hm].
    by rewrite Hcur in Hm.
  - intros lp tn e lp' -> Hsrv. by eapply honest_never_diverges.
Qed.

(** A turn on which nothing fails commits: the next ledger arrives, links
    and extracts, and the server answers; then the loop goes on with the
    successor, the database holds the commit, and exactly one more ledger is
    counted. *)
Theorem good_turn_commits `{S : SDK} `{!SDKChanges} `{!LedgerHeaders} (cfg : Config)
    (tn : turn) (lp : loop) (lcm : LedgerCloseMeta) (r : Result) (t : tables) :
  tn_cancelled tn = false → accepts cfg tn lp lcm r →
  tn_faults tn = no_faults → tn_lost tn = false →
  add_records (cf_Network cfg) (all_records r) (get_tables (lp_db lp)) = Ok t →
  ∃ lp', iterate cfg tn lp = (Again, lp') ∧
    lp_next lp' = u32 (lp_next lp + 1) ∧ lp_expectedPrev lp' = LedgerHash lcm ∧
    lp_db lp' = ledger_done (cf_Network cfg) (ledger_record (InfoOf lcm)) (put_tables t (lp_db lp)) ∧
    im_LedgersIngested (lp_inst lp') = im_LedgersIngested (lp_inst lp) + 1.
Proof.
  intros Hcan (Hget & Hseq & Hlink & Hev) Hfl Hlost Hadd.
  unfold iterate. rewrite Hcan, Hget. unfold process. cbn [lp_next set_backoff lp_expectedPrev].
  rewrite Hseq, Z.eqb_refl. simpl negb. cbv iota.
  replace (bool_decide (lp_expectedPrev lp ≠ "") && _) with false; [|symmetry; apply andb_false_iff;
    destruct Hlink as [-> | ->]; [by left|right; by apply bool_decide_eq_false_2; intros []]].
  rewrite Hev. cbv zeta. unfold commit. rewrite Hfl, BeginFunc_quiet, run_CommitLedger.
  cbn [lp_db set_inst set_backoff]. rewrite Hadd, Hlost. eexists. split; [reflexivity|]. done.
Qed.

(** The retry schedule: every pause is the tip poll or lies between one and
    thirty seconds, and a streak of source failures waits 1, 2, 4, 8, 16, 30,
    30, ... seconds. *)
Theorem backoff_schedule `{S : SDK} `{!SDKChanges} `{!LedgerHeaders} (cfg : Config)
    (verified : bool) (fl : faults) (latest : option Z) (d : db) (lp : loop) (turns : list turn) :
  boot cfg verified fl latest d = inr lp →
  Forall in_schedule (lp_slept (run_turns cfg turns lp).2) ∧
  (Forall source_failure turns →
   rev (lp_slept (run_turns cfg turns lp).2)
   = (λ k, Z.min (Second * 2 ^ Z.of_nat k) backoffMax) <$> seq 0 (length turns)).
Proof.
  intros Hb. apply boot_backoff in Hb as [Hb Hs]. split.
  - apply paced_run. split; [|by rewrite Hs]. rewrite Hb.
    unfold backoffMin, backoffMax, Second. lia.
  - intros Hall. rewrite run_source_failures by (try done; rewrite Hb; unfold backoffMin, backoffMax, Second; lia).
    by rewrite Hb, Hs, app_nil_r, rev_involutive.
Qed.

(** Extraction and commit failures never escalate: the backoff is reset as
    soon as [GetLedger] answers, so whatever the streak of such failures each
    of its pauses is the minimal one. *)
Theorem processing_failures_never_escalate `{S : SDK} `{!SDKChanges} `{!LedgerHeaders}
    (cfg : Config) (turns : list turn) (lp : loop) :
  Forall (λ tn, ∃ lcm, tn_get tn = Ok lcm) turns →
  ∃ k, lp_slept (run_turns cfg turns lp).2 = replicate k backoffMin ++ lp_slept lp.
Proof.
  intros Hall. revert lp. induction Hall as [|tn turns (lcm & Hget) _ IH]; intros lp; [by exists 0%nat|].
  simpl. assert (Hone : ∃ k, lp_slept (iterate cfg tn lp).2 = replicate k backoffMin ++ lp_slept lp).
  { unfold iterate. rewrite Hget. destruct (tn_cancelled tn); [by exists 0%nat|].
    unfold process. destruct (negb _); [by exists 0%nat|].
    destruct (bool_decide (lp_expectedPrev _ ≠ "") && _); [by exists 0%nat|].
    destruct (Events _ _ _) as [r|]; [|by exists 1%nat]. cbv zeta.
    destruct (commit _ _ _ _ _) as [[[]|g] d]; [by exists 0%nat|].
    destruct (tn_dying tn); [by exists 0%nat|by exists 1%nat]. }
  destruct Hone as (k1 & Hk1). destruct (iterate cfg tn lp) as [[|e] lp1]; [|by exists k1].
  destruct (IH lp1) as (k2 & ->). simpl in Hk1. rewrite Hk1. exists (k2 + k1)%nat.
  by rewrite app_assoc, <- replicate_add.
Qed.

(** ** Witnesses and concrete runs *)

#[local] Existing Instance demo_sdk.
#[local] Existing Instance demo_changes.

#[local] Instance demo_headers : LedgerHeaders (H := demo_sdk) :=
  Build_LedgerHeaders demo_sdk
    (λ l : Z * list (option demo_tx), ("h" ++ pretty l.1)%string)
    (λ l : Z * list (option demo_tx), ("h" ++ pretty (l.1 - 1))%string).

Definition demo_block (s : Z) : @LedgerCloseMeta demo_sdk := (s, quiet_ledger.2).

Lemma demo_linked : linked (S := demo_sdk) demo_block.
Proof. split; [done|]. intros s. simpl. by replace (s + 1 - 1) with s by lia. Qed.

Definition demo_cfg : Config := mkConfig "testnet" "pass" 9.

Definition demo_turn (g : res (@LedgerCloseMeta demo_sdk)) (lost : bool) : @turn demo_sdk :=
  @mkTurn demo_sdk false g false (Some 20) true demo_watch no_faults lost 1 100.

(** The commit of ledger 9 whose acknowledgement is lost, its repetition, then
    a source failure. *)
Definition demo_turns : list (@turn demo_sdk) :=
  [demo_turn (Ok (demo_block 9)) true; demo_turn (Ok (demo_block 9)) false;
   demo_turn (Err ErrSQL) false].

Definition demo_lp : loop :=
  mkLoop 9 "" backoffMin 0 (mkObserved None None) no_instruments [] empty_db.

Example demo_run :
  (λ vl, (lp_next vl.2, lp_expectedPrev vl.2, lp_slept vl.2, db_cursor (lp_db vl.2) !! "testnet",
          map fst (map_to_list (db_movements (lp_db vl.2)))))
    (run_turns demo_cfg demo_turns demo_lp)
  = (10, "h9", [Second; Second], Some (mkCursor 9 "h9"),
     [("testnet", "CA", "0000000038654709760-0000000000", "recipient")]).
Proof. vm_compute. reflexivity. Qed.

Definition demo_step : verdict * loop := iterate demo_cfg (demo_turn (Ok (demo_block 9)) false) demo_lp.

Lemma iterate_writes_linked_witness :
  lp_next demo_step.2 = 10 ∧
  ∃ lcm, tn_get (demo_turn (Ok (demo_block 9)) false) = Ok lcm ∧
         lp_expectedPrev demo_step.2 = LedgerHash lcm.
Proof.
  split; [vm_compute; reflexivity|].
  destruct (iterate_writes_linked demo_cfg (demo_turn (Ok (demo_block 9)) false) demo_lp
              demo_step.1 demo_step.2) as (_ & Hadv & _).
  - apply surjective_pairing.
  - destruct Hadv as (lcm & Hl & _ & Hh); [vm_compute; discriminate|].
    exact (ex_intro _ lcm (conj Hl Hh)).
Defined.

Lemma demo_fresh : contiguous demo_cfg demo_block empty_db.
Proof. reflexivity. Qed.

Lemma ingestion_contiguous_witness :
  contiguous demo_cfg demo_block
    (lp_db (iterate demo_cfg (demo_turn (Ok (demo_block 9)) true) demo_lp).2).
Proof.
  destruct (ingestion_contiguous demo_cfg demo_block empty_db
    (Down (lp_db (iterate demo_cfg (demo_turn (Ok (demo_block 9)) true) demo_lp).2))) as (Hc & _ & _).
  - exact demo_linked.
  - simpl. unfold is_u32, max_u32. lia.
  - exact demo_fresh.
  - eapply rtc_l; [apply (Boot demo_cfg _ no_faults (Some 20) empty_db demo_lp); [done| |reflexivity]|].
    { intros l [= <-]. uarith. }
    eapply rtc_l; [|eapply rtc_l; [apply Crash|apply rtc_refl]].
    apply (Turn demo_cfg _ (demo_turn (Ok (demo_block 9)) true) _
             (iterate demo_cfg (demo_turn (Ok (demo_block 9)) true) demo_lp).2).
    + intros lcm Hl. injection Hl as <-. split; [reflexivity|]. reflexivity.
    + apply iterate_again. vm_compute. reflexivity.
  - exact Hc.
Defined.

Definition demo_extracted : Result :=
  default no_result (Events (demo_block 9) "pass" demo_watch).

Definition demo_tables : tables :=
  match add_records "testnet" (all_records demo_extracted) (get_tables empty_db) with
  | Ok t => t
  | Err _ => get_tables empty_db
  end.

Lemma good_turn_commits_witness :
  ∃ lp', iterate demo_cfg (demo_turn (Ok (demo_block 9)) false) demo_lp = (Again, lp') ∧
    lp_next lp' = 10.
Proof.
  destruct (good_turn_commits demo_cfg (demo_turn (Ok (demo_block 9)) false) demo_lp (demo_block 9)
              demo_extracted demo_tables) as (lp' & Hit & Hn & _).
  - reflexivity.
  - split; [reflexivity|]. split; [reflexivity|]. split; [left; reflexivity|].
    vm_compute. reflexivity.
  - reflexivity.
  - reflexivity.
  - vm_compute. reflexivity.
  - exists lp'. split; [exact Hit|exact Hn].
Defined.

Lemma backoff_schedule_witness :
  rev (lp_slept (run_turns demo_cfg (replicate 6 (demo_turn (Err ErrSQL) false)) demo_lp).2)
  = [1 * Second; 2 * Second; 4 * Second; 8 * Second; 16 * Second; 30 * Second].
Proof.
  destruct (backoff_schedule demo_cfg true no_faults (Some 20) empty_db demo_lp
              (replicate 6 (demo_turn (Err ErrSQL) false))) as [_ Hs]; [reflexivity|].
  rewrite Hs; [reflexivity|]. apply Forall_replicate. split; [reflexivity|]. split; [reflexivity|].
  split; [reflexivity|]. exists ErrSQL. split; [reflexivity|]. split; discriminate.
Defined.

Lemma processing_failures_never_escalate_witness :
  ∃ k, lp_slept (run_turns demo_cfg
         (replicate 4 (demo_turn (Ok (demo_block 9)) true)) demo_lp).2 = replicate k backoffMin ++ [].
Proof.
  apply (processing_failures_never_escalate demo_cfg). apply Forall_replicate.
  by exists (demo_block 9).
Defined.
