(* ===== verification/Workers.v ===== *)
(** * What the background workers share ([internal/ingest])

    The backfiller and the healer are sequential programs over an outside
    world: a source of ledgers, a database other writers also use, a clock and
    a context.  A world answers by the number of the call; a worker is a
    computation over it, with the calls made so far, the database and its own
    state, and no result when its fuel ran out. *)

From S2P Require Import Prelude Db Rows Registrations Commit Registry Extract Loop.

(** ** Definitions *)

(** The extraction counters both workers feed. *)
Record tally := mkTally {
  ta_Events : Z; ta_StateChanges : Z; ta_Transfers : Z; ta_TrustlineChanges : Z;
  ta_Movements : Z; ta_FailedTxs : Z; ta_SuppressedTxs : Z; ta_SuppressedEvents : Z;
  ta_SuppressedTransfers : Z; ta_SuppressedTrustlines : Z; ta_ForeignUndecodable : Z }.

Definition no_tally : tally := mkTally 0 0 0 0 0 0 0 0 0 0 0.

Definition tally_add (r : Result) (t : tally) : tally :=
  let len := λ n, Z.of_nat n in
  mkTally (ta_Events t + len (length (rs_Events r)))
    (ta_StateChanges t + len (length (rs_StateChanges r)))
    (ta_Transfers t + len (length (rs_Transfers r)))
    (ta_TrustlineChanges t + len (length (rs_TrustlineChanges r)))
    (ta_Movements t + len (length (rs_Movements r)))
    (ta_FailedTxs t + rs_FailedTxs r) (ta_SuppressedTxs t + rs_SuppressedTxs r)
    (ta_SuppressedEvents t + rs_SuppressedEvents r)
    (ta_SuppressedTransfers t + rs_SuppressedTransfers r)
    (ta_SuppressedTrustlines t + rs_SuppressedTrustlines r)
    (ta_ForeignUndecodable t + rs_ForeignUndecodable r).

(** The world, by the number of the call. *)
Record world `{SDK} := mkWorld {
  w_batch : nat → Z → Z → res (list LedgerCloseMeta);  (** [GetLedgerBatch] *)
  w_prepare : nat → Z → Z → res unit;  (** starting a captive core on a range *)
  w_core : nat → Z → res LedgerCloseMeta;              (** its [GetLedger] *)
  w_others : nat → db → db;    (** what the other writers did meanwhile *)
  w_faults : nat → faults;     (** the server during a transaction *)
  w_lost : nat → bool;         (** a commit's acknowledgement is lost *)
  w_now : nat → Z;             (** the clocks *)
  w_cancelled : nat → bool;    (** [ctx.Err() != nil] *)
  w_slept : nat → bool;        (** [sleepCtx]: the timer fired *)
  w_snap : nat → Snapshot }.   (** [watch.Snapshot()] *)

Record outside := mkOutside { o_calls : nat; o_db : db }.

Definition Work (St A : Type) : Type := outside → St → option (A * outside * St).

Definition w_ret {St A} (a : A) : Work St A := λ o s, Some (a, o, s).

Definition w_bind {St A B} (m : Work St A) (f : A → Work St B) : Work St B := λ o s,
  match m o s with Some (a, o, s) => f a o s | None => None end.

(** The fuel ran out. *)
Definition w_hung {St A} : Work St A := λ _ _, None.

Declare Scope work_scope.
Delimit Scope work_scope with work.
Notation "x <-w t ; k" := (w_bind t (λ x, k))
  (at level 20, t at level 100, k at level 200) : work_scope.
Notation "t ;;w k" := (w_bind t (λ _, k))
  (at level 100, k at level 200, right associativity) : work_scope.
#[global] Open Scope work_scope.

Definition w_get {St} : Work St St := λ o s, Some (s, o, s).
Definition w_modify {St} (f : St → St) : Work St unit := λ o s, Some (tt, o, f s).

Section calls.
Context `{S : SDK} (w : world) {St : Type}.

(** A call that only asks. *)
Definition ask {A} (f : nat → A) : Work St A := λ o s,
  Some (f (o_calls o), mkOutside (Datatypes.S (o_calls o)) (o_db o), s).

(** A store method: the other writers first, then one transaction, whose
    acknowledgement may be lost. *)
Definition transact {A} (t : Tx A) : Work St (res A) := λ o s,
  let n := o_calls o in
  let d := w_others w n (o_db o) in
  let '(out, d') := BeginFunc (w_faults w n) (w_now w n) t d in
  Some (match out with
        | Ok a => if w_lost w n then Err ErrOther else Ok a
        | Err e => Err e
        end, mkOutside (Datatypes.S n) d', s).

Definition GetLedgerBatch (start limit : Z) : Work St (res (list LedgerCloseMeta)) :=
  ask (λ n, w_batch w n start limit).
Definition cancelled : Work St bool := ask (w_cancelled w).
End calls.

(** ** Specification *)

(** Partial correctness of a computation. *)
Definition triple {St A} (P : outside → St → Prop) (m : Work St A)
    (Q : A → outside → St → Prop) : Prop :=
  ∀ o s, P o s → match m o s with Some (a, o', s') => Q a o' s' | None => True end.

(** A source of this chain: what it answers are the chain's ledgers from
    [start] on, at least one. *)
Definition serves_chain `{SDK} (chain : Z → LedgerCloseMeta) (w : world) : Prop :=
  ∀ n start limit ls, w_batch w n start limit = Ok ls →
    ls = chain <$> seqZ start (Z.of_nat (length ls)) ∧ (0 < length ls)%nat.

(** The records of a result are stored: a row with the identity columns of each
    history record, an entry for the key of each change. *)
Record stored (net : string) (r : Records) (t : tables) : Prop := {
  st_events : ∀ x, x ∈ rc_events r → taken event_conflict net (event_row_of x) (tb_events t) = true;
  st_states : ∀ x, x ∈ rc_states r →
    taken state_change_conflict net (state_change_row_of x) (tb_state_changes t) = true ∧
    is_Some (tb_state_entries t !! state_key net x);
  st_transfers : ∀ x, x ∈ rc_transfers r →
    taken transfer_conflict net (transfer_row_of x) (tb_transfers t) = true;
  st_trustlines : ∀ x, x ∈ rc_trustlines r →
    taken trustline_change_conflict net (trustline_change_row_of x) (tb_trustline_changes t) = true ∧
    is_Some (tb_trustline_entries t !! trustline_key net x);
  st_movements : ∀ x, x ∈ rc_movements r → is_Some (tb_movements t !! movement_key net x) }.

(** Everything the tables [t] hold, [t'] holds too. *)
Definition keeps_stored (net : string) (t t' : tables) : Prop :=
  ∀ r, stored net r t → stored net r t'.

(** The lists of one are among those of the other. *)
Definition sub_records (r1 r2 : Records) : Prop :=
  (∀ x, x ∈ rc_events r1 → x ∈ rc_events r2) ∧ (∀ x, x ∈ rc_states r1 → x ∈ rc_states r2) ∧
  (∀ x, x ∈ rc_transfers r1 → x ∈ rc_transfers r2) ∧
  (∀ x, x ∈ rc_trustlines r1 → x ∈ rc_trustlines r2) ∧
  (∀ x, x ∈ rc_movements r1 → x ∈ rc_movements r2).

(** The results of a stretch of ledgers, added up. *)
Definition extracted `{SDK} `{!SDKChanges} (passphrase : string) (watch : Snapshot)
    (lcms : list LedgerCloseMeta) (r : Result) : Prop :=
  ∃ rs, Forall2 (λ lcm r, Events lcm passphrase watch = Some r) lcms rs ∧
        r = foldl res_app no_result rs.

(** The ledger [s] is derived for the contract: its share of a reading of the
    ledger, under its kinds, is in the tables. *)
Definition derived `{SDK} `{!SDKChanges} (chain : Z → LedgerCloseMeta) (passphrase net cid : string)
    (kinds : list string) (s : Z) (t : tables) : Prop :=
  ∃ (watch : Snapshot) r,
    (∀ k, watches watch cid k = bool_decide (k ∈ kinds)) ∧
    Events (chain s) passphrase watch = Some r ∧ stored net (records_of cid r) t.

(** ** Lemmas *)

(** *** Computations *)
Section triples.
Context {St : Type}.
Implicit Types (P : outside → St → Prop).

Lemma triple_ret {A} (a : A) P (Q : A → outside → St → Prop) :
  (∀ o s, P o s → Q a o s) → triple P (w_ret a) Q.
Proof. intros HQ o s HP. by apply HQ. Qed.

Lemma triple_bind {A B} (m : Work St A) (f : A → Work St B) P R Q :
  triple P m R → (∀ a, triple (R a) (f a) Q) → triple P (w_bind m f) Q.
Proof.
  intros Hm Hf o s HP. unfold w_bind. specialize (Hm o s HP).
  destruct (m o s) as [[[a o'] s']|]; [|done]. by apply Hf.
Qed.

Lemma triple_conseq {A} (m : Work St A) P P' (Q Q' : A → outside → St → Prop) :
  (∀ o s, P o s → P' o s) → (∀ a o s, Q' a o s → Q a o s) → triple P' m Q' → triple P m Q.
Proof.
  intros HP HQ Hm o s Ho. specialize (Hm o s (HP _ _ Ho)).
  destruct (m o s) as [[[a o'] s']|]; [|done]. by apply HQ.
Qed.

Lemma triple_pre {A} (m : Work St A) P P' (Q : A → outside → St → Prop) :
  (∀ o s, P o s → P' o s) → triple P' m Q → triple P m Q.
Proof. intros HP Hm o s Ho. by apply Hm, HP. Qed.

Lemma triple_hung {A} P (Q : A → outside → St → Prop) : triple P w_hung Q.
Proof. by intros o s _. Qed.

Lemma triple_modify (f : St → St) P (Q : unit → outside → St → Prop) :
  (∀ o s, P o s → Q tt o (f s)) → triple P (w_modify f) Q.
Proof. intros HQ o s HP. by apply HQ. Qed.

Lemma triple_get P (Q : St → outside → St → Prop) :
  (∀ o s, P o s → Q s o s) → triple P w_get Q.
Proof. intros HQ o s HP. by apply HQ. Qed.

Lemma triple_ask {A} (f : nat → A) P (Q : A → outside → St → Prop) :
  (∀ n d s, P (mkOutside n d) s → Q (f n) (mkOutside (S n) d) s) → triple P (ask f) Q.
Proof. intros HQ [n d] s HP. by apply HQ. Qed.

Lemma triple_if {A} (b : bool) (m1 m2 : Work St A) P Q :
  (b = true → triple P m1 Q) → (b = false → triple P m2 Q) → triple P (if b then m1 else m2) Q.
Proof. destruct b; auto. Qed.
End triples.

(** A transaction either leaves what the other writers left, or is applied. *)
Lemma triple_transact `{SDK} (w : world) {St A} (t : Tx A) P (Q : res A → outside → St → Prop) :
  (∀ n d s, P (mkOutside n d) s →
     let d0 := w_others w n d in
     (∀ e, Q (Err e) (mkOutside (S n) d0) s) ∧
     ∀ a d', run (w_now w n) t d0 = Ok (a, d') →
       Q (Ok a) (mkOutside (S n) d') s ∧ ∀ e, Q (Err e) (mkOutside (S n) d') s) →
  triple P (transact w t) Q.
Proof.
  intros HQ [n d] s HP. destruct (HQ n d s HP) as [Herr Hok]. unfold transact. cbn [o_calls o_db].
  destruct (BeginFunc_atomic (w_faults w n) (w_now w n) t (w_others w n d))
    as [(e & ->)|(a & d' & -> & Hrun)]; [apply Herr|].
  destruct (Hok a d' Hrun). by destruct (w_lost w n).
Qed.

(** *** Stored records *)

Lemma taken_mono {V A} (conflict : V → V → bool) net (id : A → string) row xs m m' v :
  insert_rows conflict net id row xs m = Ok m' →
  taken conflict net v m = true → taken conflict net v m' = true.
Proof.
  rewrite !taken_spec. intros Hi (i & x & Hx & Hc). exists i, x. split; [|done].
  by eapply insert_rows_mono.
Qed.

Lemma apply_changes_mono `{Countable K} {A V} (key : A → K) (row : A → V) (last_ledger : V → Z) cs m k :
  is_Some (m !! k) → is_Some (apply_changes key row last_ledger cs m !! k).
Proof. intros Hk. rewrite lookup_apply_changes. by destruct (last_of key k cs). Qed.

Lemma apply_changes_in `{Countable K} {A V} (key : A → K) (row : A → V) (last_ledger : V → Z) cs m x :
  x ∈ cs → is_Some (apply_changes key row last_ledger cs m !! key x).
Proof.
  intros Hx. rewrite lookup_apply_changes. destruct (last_of key (key x) cs) eqn:E; [done|].
  apply last_of_None in E. destruct E. by apply list_elem_of_fmap_2.
Qed.

Lemma add_records_keeps net r t t' : add_records net r t = Ok t' → keeps_stored net t t'.
Proof.
  unfold add_records.
  destruct (insert_rows event_conflict _ _ _ _ _) as [ev|] eqn:Hev; [|done].
  destruct (insert_rows state_change_conflict _ _ _ _ _) as [sc|] eqn:Hsc; [|done].
  destruct (insert_transfers _ _ _) as [tr|] eqn:Htr; [|done]. apply insert_transfers_Ok in Htr as [_ Htr].
  destruct (insert_rows trustline_change_conflict _ _ _ _ _) as [tl|] eqn:Htl; [|done].
  intros [= <-] r0 [H1 H2 H3 H4 H5]. split; simpl.
  - intros x Hx. eapply taken_mono; [exact Hev|]. by apply H1.
  - intros x Hx. split; [eapply taken_mono; [exact Hsc|]|apply apply_changes_mono]; by apply H2.
  - intros x Hx. eapply taken_mono; [exact Htr|]. by apply H3.
  - intros x Hx. split; [eapply taken_mono; [exact Htl|]|apply apply_changes_mono]; by apply H4.
  - intros x Hx. destruct (H5 x Hx) as [m Hm]. exists m. by apply add_movements_mono.
Qed.

Lemma add_records_stored net r t t' : add_records net r t = Ok t' → stored net r t'.
Proof.
  unfold add_records.
  destruct (insert_rows event_conflict _ _ _ _ _) as [ev|] eqn:Hev; [|done].
  destruct (insert_rows state_change_conflict _ _ _ _ _) as [sc|] eqn:Hsc; [|done].
  destruct (insert_transfers _ _ _) as [tr|] eqn:Htr; [|done]. apply insert_transfers_Ok in Htr as [_ Htr].
  destruct (insert_rows trustline_change_conflict _ _ _ _ _) as [tl|] eqn:Htl; [|done].
  intros [= <-]. split; simpl; intros x Hx.
  - exact (insert_rows_taken _ _ _ _ event_conflict_refl _ _ _ x Hev Hx).
  - split; [exact (insert_rows_taken _ _ _ _ state_change_conflict_refl _ _ _ x Hsc Hx)|].
    by apply apply_changes_in.
  - exact (insert_rows_taken _ _ _ _ transfer_conflict_refl _ _ _ x Htr Hx).
  - split; [exact (insert_rows_taken _ _ _ _ trustline_change_conflict_refl _ _ _ x Htl Hx)|].
    by apply apply_changes_in.
  - by apply add_movements_in.
Qed.

Lemma stored_sub net r1 r2 t : sub_records r1 r2 → stored net r2 t → stored net r1 t.
Proof. intros (S1 & S2 & S3 & S4 & S5) [H1 H2 H3 H4 H5]. split; auto. Qed.

#[export] Instance keeps_stored_preorder net : PreOrder (keeps_stored net).
Proof. split; [by intros t r|]. intros t1 t2 t3 H12 H23 r Hr. by apply H23, H12. Qed.

Lemma keeps_put net t d : keeps_stored net (get_tables d) t → keeps_stored net (get_tables d) (get_tables (put_tables t d)).
Proof. by rewrite get_put_tables. Qed.

Lemma derived_keeps `{SDK} `{!SDKChanges} chain pass net cid kinds s t t' :
  keeps_stored net t t' → derived chain pass net cid kinds s t → derived chain pass net cid kinds s t'.
Proof. intros Hk (watch & r & ? & ? & ?). exists watch, r. auto. Qed.

(** *** Sums of results *)

Lemma sub_records_refl r : sub_records r r.
Proof. by split_and!. Qed.

Lemma records_of_sub cid r : sub_records (records_of cid r) (all_records r).
Proof.
  unfold sub_records, records_of, all_records. cbn -[filter].
  split_and!; intros x [_ ?]%list_elem_of_filter; done.
Qed.

Lemma sub_records_trans r1 r2 r3 : sub_records r1 r2 → sub_records r2 r3 → sub_records r1 r3.
Proof. intros (A1 & A2 & A3 & A4 & A5) (B1 & B2 & B3 & B4 & B5). split_and!; auto. Qed.

Lemma sub_records_app cid r1 r2 r :
  sub_records (records_of cid r) (records_of cid r1) ∨
  sub_records (records_of cid r) (records_of cid r2) →
  sub_records (records_of cid r) (records_of cid (res_app r1 r2)).
Proof.
  intros Hs. unfold res_app, records_of, sub_records in *. cbn -[filter] in *.
  split_and!; intros x Hx; rewrite filter_app; apply elem_of_app;
    destruct Hs as [(S1 & S2 & S3 & S4 & S5)|(S1 & S2 & S3 & S4 & S5)]; auto.
Qed.

Lemma foldl_res_app acc rs : foldl res_app acc rs = res_app acc (foldl res_app no_result rs).
Proof.
  revert acc. induction rs as [|r rs IH]; intros acc; simpl; [by rewrite res_app_nil_r|].
  by rewrite IH, (IH (res_app no_result r)), res_app_nil_l, res_app_assoc.
Qed.

Lemma foldl_res_in cid r rs :
  r ∈ rs → sub_records (records_of cid r) (records_of cid (foldl res_app no_result rs)).
Proof.
  induction rs as [|r0 rs IH]; [by intros ?%elem_of_nil|]. intros [->|Hr]%elem_of_cons; simpl;
    rewrite foldl_res_app, res_app_nil_l; apply sub_records_app; [left; apply sub_records_refl|right; auto].
Qed.

(** A kind of record: results add up by it. *)
Class Additive {A} (part : Result → list A) : Prop := {
  part_nil : part no_result = [];
  part_app : ∀ a b, part (res_app a b) = part a ++ part b }.

#[export] Instance events_additive : Additive rs_Events.
Proof. by split. Qed.
#[export] Instance states_additive : Additive rs_StateChanges.
Proof. by split. Qed.
#[export] Instance transfers_additive : Additive rs_Transfers.
Proof. by split. Qed.
#[export] Instance trustlines_additive : Additive rs_TrustlineChanges.
Proof. by split. Qed.
#[export] Instance movements_additive : Additive rs_Movements.
Proof. by split. Qed.

Lemma foldl_res_part `{Additive A part} x rs : x ∈ part (foldl res_app no_result rs) → ∃ r, r ∈ rs ∧ x ∈ part r.
Proof.
  induction rs as [|r rs IH]; [simpl; rewrite part_nil; by intros ?%elem_of_nil|].
  simpl. rewrite foldl_res_app, res_app_nil_l, part_app.
  intros [Hx|Hx]%elem_of_app; [exists r; split; [by left|done]|].
  destruct (IH Hx) as (r' & ? & ?). exists r'. split; [by right|done].
Qed.

Section extracted.
Context `{S : SDK} `{!SDKChanges} (pass : string) (watch : Snapshot).

Lemma extracted_nil : extracted pass watch [] no_result.
Proof. exists []. split; [constructor|done]. Qed.

Lemma extracted_snoc lcms r lcm r1 :
  extracted pass watch lcms r → Events lcm pass watch = Some r1 →
  extracted pass watch (lcms ++ [lcm]) (res_app r r1).
Proof.
  intros (rs & Hrs & ->) Hr1. exists (rs ++ [r1]). split; [|by rewrite foldl_app].
  apply Forall2_app; [done|]. by repeat constructor.
Qed.

Lemma extracted_in cid lcms r lcm :
  extracted pass watch lcms r → lcm ∈ lcms →
  ∃ r1, Events lcm pass watch = Some r1 ∧ sub_records (records_of cid r1) (records_of cid r).
Proof.
  intros (rs & Hrs & ->) Hin. apply list_elem_of_lookup in Hin as (i & Hi).
  destruct (Forall2_lookup_l _ _ _ _ _ Hrs Hi) as (r1 & Hr1 & He).
  exists r1. split; [done|]. apply foldl_res_in. by eapply list_elem_of_lookup_2.
Qed.
(** Every record of the sum is one of a ledger's. *)
Lemma extracted_part `{Additive A part} lcms r x : extracted pass watch lcms r → x ∈ part r →
  ∃ lcm r1, lcm ∈ lcms ∧ Events lcm pass watch = Some r1 ∧ x ∈ part r1.
Proof.
  intros (rs & Hrs & ->) (r1 & Hr1 & Hx)%foldl_res_part. apply list_elem_of_lookup in Hr1 as (i & Hi).
  destruct (Forall2_lookup_r _ _ _ _ _ Hrs Hi) as (lcm & Hl & He).
  exists lcm, r1. split; [by eapply list_elem_of_lookup_2|done].
Qed.
End extracted.
