(* ===== verification/System.v ===== *)
(** * The components as one system

    Cursor, walks and gaps are written by four components at once; the API
    reads them to tell what it can vouch for.  [truthful] says what the database
    declares about the chain.  A step of the system is one committed transaction
    of one component, with what its records must be as its premise; the workers'
    files prove that their transactions are such steps. *)

From S2P Require Import Prelude HealPlan Db Gaps Rows Registrations Commit Registry Api Extract Loop Workers.

(** ** Definitions *)

(** The records of one kind. *)
Definition of_kind (kind : string) (r : Records) : Records :=
  mkRecords (if bool_decide (kind = KindEvents) then rc_events r else [])
    (if bool_decide (kind = KindState) then rc_states r else [])
    (if bool_decide (kind = KindTransfers) then rc_transfers r else [])
    (if bool_decide (kind = KindTrustlines) then rc_trustlines r else [])
    (if bool_decide (kind = KindMovements) then rc_movements r else []).

Section system.
Context `{S : SDK} `{!SDKChanges} (net passphrase : string) (chain : Z → LedgerCloseMeta).

(** A reading of the chain's ledger [l] that watched the contract for the kind. *)
Definition read_for (cid kind : string) (l : Z) (r : Result) : Prop :=
  ∃ watch, watches watch cid kind = true ∧ Events (chain l) passphrase watch = Some r.

(** Ledger [l] is derived for the kind: the contract's share of such a reading
    is in the tables. *)
Definition derived_kind (cid kind : string) (l : Z) (t : tables) : Prop :=
  ∃ r, read_for cid kind l r ∧ stored net (of_kind kind (records_of cid r)) t.

(** A record, of the kind [part], that some reading of the chain's ledger [l]
    derives. *)
Definition chain_record {A} (part : Result → list A) (l : Z) (x : A) : Prop :=
  ∃ watch r, Events (chain l) passphrase watch = Some r ∧ x ∈ part r.

Definition all_from {A} (part : Result → list A) (xs : list A) : Prop :=
  ∀ x, x ∈ xs → ∃ l, chain_record part l x.

Definition from_chain (r : Records) : Prop :=
  all_from rs_Events (rc_events r) ∧ all_from rs_StateChanges (rc_states r) ∧
  all_from rs_Transfers (rc_transfers r) ∧ all_from rs_TrustlineChanges (rc_trustlines r) ∧
  all_from rs_Movements (rc_movements r).

(** The rows of the network in a history are records of the chain, each under
    its own id. *)
Definition rows_from {A V} (part : Result → list A) (id : A → string) (row : A → V)
    (m : gmap (string * string) V) : Prop :=
  ∀ k v, m !! (net, k) = Some v → ∃ l x, chain_record part l x ∧ k = id x ∧ v = row x.

Definition movements_from (m : gmap (string * string * string * string) movement_row) : Prop :=
  ∀ k v, m !! k = Some v → k.1.1.1 = net →
    ∃ l x, chain_record rs_Movements l x ∧ k = movement_key net x ∧ v = movement_row_of x.

Definition sound_rows (t : tables) : Prop :=
  rows_from rs_Events ev_ID event_row_of (tb_events t) ∧
  rows_from rs_StateChanges sc_ID state_change_row_of (tb_state_changes t) ∧
  rows_from rs_Transfers tr_ID transfer_row_of (tb_transfers t) ∧
  rows_from rs_TrustlineChanges tl_ID trustline_change_row_of (tb_trustline_changes t) ∧
  movements_from (tb_movements t).

(** What the database declares is true. *)
Record truthful (d : db) : Prop := {
  tr_gaps : gaps_wf (db_gaps d);
  tr_walks : backfill_wf d;
  tr_cursor : ∀ c, db_cursor d !! net = Some c → is_u32 (cur_Sequence c);
  (** above a walk's watermark, up to the cursor, its kinds are derived *)
  tr_cover : ∀ cid b c kind l,
    db_backfill d !! (net, cid) = Some b → db_cursor d !! net = Some c → kind ∈ b_covered_kinds b →
    b_next_to b < l ≤ cur_Sequence c → derived_kind cid kind l (get_tables d);
  (** below the watermark of a clamped walk, down to its target, a ledger is
      derived or promised by an open gap below the clamp *)
  tr_clamp : ∀ cid b wall kind l,
    db_backfill d !! (net, cid) = Some b → b_clamped_at b = Some wall → kind ∈ b_covered_kinds b →
    b_target_from b ≤ l ≤ b_next_to b →
    derived_kind cid kind l (get_tables d) ∨ (owed (db_gaps d) net l ∧ l < wall);
  (** the stored histories are the chain's *)
  tr_sound : sound_rows (get_tables d) }.

(** *** The steps of the system *)

(** For every walk that will vouch for ledger [l], the snapshot watches the
    contract for the walk's kinds, or the ledger is derived for them already (the
    backfiller came by first). *)
Definition knows (snap : Snapshot) (d : db) (l : Z) : Prop := ∀ cid b kind,
  db_backfill d !! (net, cid) = Some b → kind ∈ b_covered_kinds b → b_next_to b < l →
  watches snap cid kind = true ∨ derived_kind cid kind l (get_tables d).

(** The live loop commits the chain's next ledger, or one it had committed; on
    a fresh database, one no walk vouches below. *)
Definition live_ready (seq : Z) (d : db) : Prop :=
  match db_cursor d !! net with
  | Some c => seq ≤ cur_Sequence c + 1
  | None => ∀ cid b, db_backfill d !! (net, cid) = Some b → seq ≤ b_next_to b + 1
  end.

(** What a backfill commit needs of its records: every ledger it comes to
    vouch for was read for each of the kinds, and below a wall every ledger is
    promised. *)
Definition walk_ready (kinds : list string) (nxt : Backfill) (share : Records) (b : backfill_row) (d : db) : Prop :=
  from_chain share ∧ is_u32 (bf_NextTo nxt) ∧
  (∀ kind l, kind ∈ kinds → bf_NextTo nxt < l ≤ b_next_to b →
     ∃ r, read_for (bf_ContractID nxt) kind l r ∧
       sub_records (of_kind kind (records_of (bf_ContractID nxt) r)) share) ∧
  match bf_ClampedAt nxt with
  | Some wall => ∀ l, b_target_from b ≤ l ≤ bf_NextTo nxt → owed (db_gaps d) net l ∧ l < wall
  | None => True
  end.

(** The gap of a heal commit is the one that was listed; each ledger the
    commit discharges was read under a snapshot that knows the walks that will
    vouch for it, or is derived already. *)
Definition heal_ready (gap : Gap) (newNextTo : Z) (resolved : bool) (records : Records)
    (r : gap_row) (d : db) : Prop :=
  db_gaps d !! gap_ID gap = Some r ∧ row_open net r ∧ gap_From gap = g_from r ∧ gap_To gap = g_to r ∧
  g_from r - 1 ≤ newNextTo ≤ g_to r ∧ resolved = (newNextTo <? g_from r) ∧
  from_chain records ∧
  ∀ cid b wall kind l, db_backfill d !! (net, cid) = Some b → b_clamped_at b = Some wall →
    kind ∈ b_covered_kinds b → b_target_from b ≤ l ≤ b_next_to b → newNextTo < l ≤ heal_next r →
    derived_kind cid kind l (get_tables d) ∨
    ∃ x, read_for cid kind l x ∧ sub_records (of_kind kind (records_of cid x)) records.

(** A step of the backfiller, the healer or the planner. *)
Inductive worker_step (d d' : db) : Prop :=
  | WalkStep nxt share b now :
      db_backfill d !! (net, bf_ContractID nxt) = Some b → walk_ready (b_covered_kinds b) nxt share b d →
      run now (CommitBackfillChunk net nxt share) d = Ok (tt, d') → worker_step d d'
  | HealStep gap newNextTo resolved goNow records r now :
      heal_ready gap newNextTo resolved records r d →
      run now (CommitHealChunk net gap newNextTo resolved goNow records) d = Ok (tt, d') → worker_step d d'
  | GapStep from to reason now :
      1 ≤ from → to ≤ max_u32 → run now (RecordGap net from to reason) d = Ok (tt, d') → worker_step d d'
  | PlanStep replay padding res now :
      Forall valid_interval replay → is_u32 padding →
      no_resolved_clash net (normalizePlan replay padding) (db_gaps d) →
      run now (PlanHeal net replay padding) d = Ok (res, d') → worker_step d d'.

(** A step of any component but the live loop.  What lies between a
    registration's anchor and the cursor is derived for its kinds. *)
Inductive aside_step (d d' : db) : Prop :=
  | WorkerStep : worker_step d d' → aside_step d d'
  | RegisterStep cid targetFrom nextTo kinds now :
      is_u32 targetFrom → is_u32 nextTo →
      (∀ c kind l, db_cursor d !! net = Some c → kind ∈ kinds → nextTo < l ≤ cur_Sequence c →
         derived_kind cid kind l (get_tables d)) →
      run now (EnsureBackfill net cid targetFrom nextTo kinds) d = Ok (tt, d') → aside_step d d'
  | ContractStep c saved now :
      run now (UpsertContract c) d = Ok (saved, d') → aside_step d d'
  | DeleteStep cid existed now :
      run now (DeleteContract net cid) d = Ok (existed, d') → aside_step d d'.

Inductive sys_step (d d' : db) : Prop :=
  | LiveStep snap rec r now :
      Events (chain (lr_Sequence rec)) passphrase snap = Some r → is_u32 (lr_Sequence rec) →
      live_ready (lr_Sequence rec) d → knows snap d (lr_Sequence rec) →
      run now (CommitLedger net rec (all_records r)) d = Ok (tt, d') → sys_step d d'
  | AsideStep : aside_step d d' → sys_step d d'.
End system.

Arguments tr_gaps {S _ net passphrase chain d}.
Arguments tr_walks {S _ net passphrase chain d}.
Arguments tr_cursor {S _ net passphrase chain d}.
Arguments tr_cover {S _ net passphrase chain d}.
Arguments tr_clamp {S _ net passphrase chain d}.
Arguments tr_sound {S _ net passphrase chain d}.

(** ** Lemmas *)

Lemma of_kind_sub kind r : sub_records (of_kind kind r) r.
Proof.
  unfold sub_records, of_kind. cbn. split_and!; intros x; case_bool_decide; try done; by intros ?%elem_of_nil.
Qed.

Section ready.
Context `{S : SDK} `{!SDKChanges} {net passphrase : string} {chain : Z → LedgerCloseMeta}.

Lemma derived_kind_keeps cid kind l t t' :
  keeps_stored net t t' → derived_kind net passphrase chain cid kind l t → derived_kind net passphrase chain cid kind l t'.
Proof. intros Hk (r & Hr & Hs). exists r. auto. Qed.

Lemma derived_from {cid kind l r share t t'} :
  read_for passphrase chain cid kind l r → sub_records (of_kind kind (records_of cid r)) share →
  add_records net share t = Ok t' → derived_kind net passphrase chain cid kind l t'.
Proof.
  intros Hr Hs Ha. exists r. split; [done|]. eapply stored_sub; [exact Hs|]. by eapply add_records_stored.
Qed.

Lemma reading_from_chain l watch r : Events (chain l) passphrase watch = Some r → from_chain passphrase chain (all_records r).
Proof. intros He. split_and!; intros x Hx; by exists l, watch, r. Qed.

Lemma from_chain_sub r1 r2 :
  sub_records r1 r2 → from_chain passphrase chain r2 → from_chain passphrase chain r1.
Proof. intros (?&?&?&?&?) (?&?&?&?&?). split_and!; intros x Hx; eauto. Qed.

Lemma walk_ready_kinds kinds kinds' nxt share b d :
  (∀ k, k ∈ kinds → k ∈ kinds') →
  walk_ready net passphrase chain kinds' nxt share b d → walk_ready net passphrase chain kinds nxt share b d.
Proof. intros Hk (? & ? & Hr & ?). split_and!; try done. intros kind l Hkind. by apply Hr, Hk. Qed.
End ready.
