(* ===== verification/Backfill.v ===== *)
(** * The backfiller ([internal/ingest/backfill.go])

    Every registered contract has a walk from its anchor down to the oldest
    ledger asked for.  A round groups the pending walks by the grid cell of
    their next chunk, reads each cell once for its whole group, and commits
    every contract's share with its own watermark. *)

From Stdlib Require Import Ascii.
From S2P Require Import Prelude HealPlan Db Gaps Rows Registrations Commit Registry Query Api Extract Loop Workers System.

(** ** Definitions *)

Definition backfillChunkSize : Z := 2000.
Definition backfillBatchLimit : Z := 200.
Definition backfillIdle : Z := 10 * Second.

(** [scanCacheEntry]; [members] maps a contract to its canonical kinds. *)
Record scanCacheEntry := mkScanCache {
  sce_from : Z; sce_to : Z; sce_members : gmap string string; sce_res : Result }.

Record chunkRange := mkChunkRange { cr_from : Z; cr_to : Z }.

(** The changing fields of [Backfiller] and the counters it feeds. *)
Record backfiller := mkBackfiller {
  bk_lastScan : option scanCacheEntry; bk_Chunks : Z; bk_Ledgers : Z; bk_Tally : tally;
  bk_slept : list Z }.

Definition set_lastScan (e : scanCacheEntry) (b : backfiller) : backfiller :=
  mkBackfiller (Some e) (bk_Chunks b) (bk_Ledgers b) (bk_Tally b) (bk_slept b).

Definition chunkFromFor (bf : Backfill) : Z :=
  max32 (u32 (bf_NextTo bf - u32 (bf_NextTo bf - 1) mod backfillChunkSize)) (bf_TargetFrom bf).

(** [strings.Join] *)
Fixpoint join (sep : string) (l : list string) : string :=
  match l with
  | [] => ""
  | [s] => s
  | s :: l => (s ++ sep ++ join sep l)%string
  end.

(** [sort.Strings] *)
Definition sort_strings (l : list string) : list string := order_by String.ltb l.

Definition canonicalKinds (c : Contract) : string := join "," (sort_strings (ct_Kinds c)).

Definition cachedScan (b : backfiller) (rng : chunkRange) (contracts : list Contract) : option Result :=
  match bk_lastScan b with
  | None => None
  | Some c =>
      if negb (sce_from c =? cr_from rng) || negb (sce_to c =? cr_to rng) then None
      else if forallb (λ ct, bool_decide (default "" (sce_members c !! ct_ContractID ct)
                                          = canonicalKinds ct)) contracts
      then Some (sce_res c) else None
  end.

Definition rememberScan (rng : chunkRange) (contracts : list Contract) (res : Result) (b : backfiller)
    : backfiller :=
  set_lastScan (mkScanCache (cr_from rng) (cr_to rng)
    (foldl (λ (m : gmap string string) ct, <[ct_ContractID ct := canonicalKinds ct]> m) ∅ contracts)
    res) b.

(** [partitionResult]: the five loops over a map of partitions; a partition is
    the five slices of records, and a missing one is empty ([orEmpty]). *)
Definition no_records : Records := mkRecords [] [] [] [] [].

Definition orEmpty (p : option Records) : Records := default no_records p.

Definition put {A} (id : A → string) (add : A → Records → Records)
    (parts : gmap string Records) (x : A) : gmap string Records :=
  <[id x := add x (orEmpty (parts !! id x))]> parts.

Definition partitionResult (res : Result) : gmap string Records :=
  let add_event e p := mkRecords (rc_events p ++ [e]) (rc_states p) (rc_transfers p) (rc_trustlines p) (rc_movements p) in
  let add_state c p := mkRecords (rc_events p) (rc_states p ++ [c]) (rc_transfers p) (rc_trustlines p) (rc_movements p) in
  let add_transfer t p := mkRecords (rc_events p) (rc_states p) (rc_transfers p ++ [t]) (rc_trustlines p) (rc_movements p) in
  let add_trustline c p := mkRecords (rc_events p) (rc_states p) (rc_transfers p) (rc_trustlines p ++ [c]) (rc_movements p) in
  let add_movement m p := mkRecords (rc_events p) (rc_states p) (rc_transfers p) (rc_trustlines p) (rc_movements p ++ [m]) in
  let parts := foldl (put ev_ContractID add_event) ∅ (rs_Events res) in
  let parts := foldl (put sc_ContractID add_state) parts (rs_StateChanges res) in
  let parts := foldl (put tr_ContractID add_transfer) parts (rs_Transfers res) in
  let parts := foldl (put tl_ContractID add_trustline) parts (rs_TrustlineChanges res) in
  foldl (put mv_ContractID add_movement) parts (rs_Movements res).

Section backfiller.
Context `{S : SDK} `{!SDKChanges} `{!LedgerHeaders} (network passphrase : string) (w : world).

Abbreviation W := (Work backfiller).

(** The body of the batch loop of [scan]: the position, the previous hash and
    the records so far, or the error that ends the scan. *)
Fixpoint scanBatch (snap : Snapshot) (batch : list LedgerCloseMeta) (seq : Z) (prevHash : string)
    (acc : Result) : res (Z * string * Result) :=
  match batch with
  | [] => Ok (seq, prevHash, acc)
  | lcm :: batch =>
      let info := InfoOf lcm in
      if negb (in_Sequence info =? seq) then Err ErrOther
      else if bool_decide (prevHash ≠ "") && bool_decide (in_PreviousHash info ≠ prevHash)
      then Err ErrOther
      else match Events lcm passphrase snap with
           | None => Err ErrOther
           | Some r => scanBatch snap batch (u32 (seq + 1)) (in_Hash info) (res_app acc r)
           end
  end.

Fixpoint scanLoop (fuel : nat) (snap : Snapshot) (to seq : Z) (prevHash : string) (acc : Result)
    : W (res Result) :=
  if negb (seq <=? to) then w_ret (Ok acc)
  else
    match fuel with
    | O => w_hung
    | Datatypes.S fuel =>
        let limit := Z.min (u32 (to - seq) + 1) backfillBatchLimit in
        answer <-w GetLedgerBatch w seq limit ;
        match answer with
        | Err e => w_ret (Err e)
        | Ok batch =>
            match scanBatch snap batch seq prevHash acc with
            | Err e => w_ret (Err e)
            | Ok (seq, prevHash, acc) => scanLoop fuel snap to seq prevHash acc
            end
        end
    end.

Definition scan (fuel : nat) (snap : Snapshot) (from to : Z) : W (res Result) :=
  scanLoop fuel snap to from "" no_result.

(** The binary search for the retention wall. *)
Fixpoint findWall (fuel : nat) (lo hi : Z) : W (res Z) :=
  if negb (lo <=? hi) then w_ret (Ok lo)
  else
    match fuel with
    | O => w_hung
    | Datatypes.S fuel =>
        let mid := u32 (lo + u32 (hi - lo) / 2) in
        answer <-w GetLedgerBatch w mid 1 ;
        match answer with
        | Ok _ => if mid =? lo then w_ret (Ok mid) else findWall fuel lo mid
        | Err ErrBelowRetention =>
            if mid =? hi then w_ret (Ok (u32 (hi + 1))) else findWall fuel (u32 (mid + 1)) hi
        | Err e => w_ret (Err e)
        end
    end.

(** One gap per distinct target, before any clamped chunk commits. *)
Fixpoint recordGaps (wall : Z) (recorded : gset Z) (jobs : list BackfillJob) : W (res unit) :=
  match jobs with
  | [] => w_ret (Ok tt)
  | job :: jobs =>
      let tf := bf_TargetFrom (job_Backfill job) in
      if decide (tf ∈ recorded) then recordGaps wall recorded jobs
      else
        out <-w transact w (RecordGap network tf (u32 (wall - 1))
          "below source retention during backfill; the archive leg can heal this") ;
        match out with
        | Err e => w_ret (Err e)
        | Ok _ => recordGaps wall ({[tf]} ∪ recorded) jobs
        end
  end.

(** What a group commits for: a scanned range, or a range cut at a wall. *)
Definition nextFor (rng : chunkRange) (wall : option Z) (bf : Backfill) : Backfill :=
  match wall with
  | Some wall =>
      mkBackfill (bf_ContractID bf) (bf_TargetFrom bf)
        (if wall <=? bf_NextTo bf then u32 (wall - 1) else bf_NextTo bf) true (Some wall)
        (bf_CoveredKinds bf)
  | None =>
      mkBackfill (bf_ContractID bf) (bf_TargetFrom bf) (u32 (cr_from rng - 1))
        (cr_from rng <=? bf_TargetFrom bf) (bf_ClampedAt bf) (bf_CoveredKinds bf)
  end.

(** Every contract commits its own share; the number of those that did. *)
Fixpoint commitJobs (rng : chunkRange) (wall : option Z) (parts : gmap string Records)
    (jobs : list BackfillJob) : W Z :=
  match jobs with
  | [] => w_ret 0
  | job :: jobs =>
      out <-w transact w (CommitBackfillChunk network (nextFor rng wall (job_Backfill job))
                            (orEmpty (parts !! ct_ContractID (job_Contract job)))) ;
      n <-w commitJobs rng wall parts jobs ;
      w_ret (match out with Ok _ => 1 + n | Err _ => n end)
  end.

(** The read of [processGroup]: the result with the wall, if any, and whether it
    came from the cache; [None] to retry later. *)
Definition readGroup (fuel : nat) (rng : chunkRange) (jobs ahead : list BackfillJob)
    : W (option (Result * option Z * bool)) :=
  let contracts := job_Contract <$> jobs in
  let scanFor := contracts ++ (job_Contract <$> ahead) in
  b <-w w_get ;
  match cachedScan b rng contracts with
  | Some res => w_ret (Some (res, None, true))
  | None =>
      answer <-w scan fuel (StaticSnapshot scanFor) (cr_from rng) (cr_to rng) ;
      match answer with
      | Ok res => w_modify (rememberScan rng scanFor res) ;;w w_ret (Some (res, None, false))
      | Err ErrNotYetAvailable => w_ret None
      | Err ErrBelowRetention =>
          wall <-w findWall fuel (u32 (cr_from rng + 1)) (cr_to rng) ;
          match wall with
          | Err _ => w_ret None
          | Ok wall =>
              recorded <-w recordGaps wall ∅ jobs ;
              match recorded with
              | Err _ => w_ret None
              | Ok _ =>
                  if wall <=? cr_to rng then
                    answer <-w scan fuel (StaticSnapshot contracts) wall (cr_to rng) ;
                    match answer with
                    | Err _ => w_ret None
                    | Ok res => w_ret (Some (res, Some wall, false))
                    end
                  else w_ret (Some (no_result, Some wall, false))
              end
          end
      | Err _ => _ <-w cancelled w ; w_ret None
      end
  end.

(** [int(rng.to) - int(rng.from) + 1], less what the wall cut. *)
Definition scanned (rng : chunkRange) (wall : option Z) : Z :=
  match wall with
  | None => cr_to rng - cr_from rng + 1
  | Some wall => if wall <=? cr_to rng then cr_to rng - wall + 1 else 0
  end.

Definition inc_chunk (ledgers : Z) (r : Result) (b : backfiller) : backfiller :=
  mkBackfiller (bk_lastScan b) (bk_Chunks b + 1) (bk_Ledgers b + ledgers) (tally_add r (bk_Tally b))
    (bk_slept b).

Definition job_ltb (a b : BackfillJob) : bool :=
  String.ltb (ct_ContractID (job_Contract a)) (ct_ContractID (job_Contract b)).

Definition processGroup (fuel : nat) (rng : chunkRange) (jobs ahead : list BackfillJob) : W bool :=
  read <-w readGroup fuel rng jobs ahead ;
  match read with
  | None => w_ret false
  | Some (res, wall, cached) =>
      committed <-w commitJobs rng wall (partitionResult res) (order_by job_ltb jobs) ;
      if committed =? 0 then w_ret false
      else
        (if negb cached then w_modify (inc_chunk (scanned rng wall) res) else w_ret tt) ;;w
        w_ret true
  end.

(** The grouping of [round]: the groups by the floor of their next chunk, the
    highest watermark of each, the floors in order of appearance, and whether
    an empty walk was closed. *)
Record grouping := mkGrouping {
  gr_groups : gmap Z (list BackfillJob); gr_tops : gmap Z Z; gr_order : list Z; gr_worked : bool }.

Definition add_job (job : BackfillJob) (g : grouping) : grouping :=
  let bf := job_Backfill job in
  let from := chunkFromFor bf in
  mkGrouping (<[from := default [] (gr_groups g !! from) ++ [job]]> (gr_groups g))
    (<[from := max32 (default 0 (gr_tops g !! from)) (bf_NextTo bf)]> (gr_tops g))
    (match gr_groups g !! from with Some _ => gr_order g | None => gr_order g ++ [from] end)
    (gr_worked g).

(** A walk whose anchor sits below its target is closed at once. *)
Definition closing (bf : Backfill) : Backfill :=
  mkBackfill (bf_ContractID bf) (bf_TargetFrom bf) (bf_NextTo bf) true (bf_ClampedAt bf) (bf_CoveredKinds bf).

Fixpoint groupJobs (jobs : list BackfillJob) (g : grouping) : W grouping :=
  match jobs with
  | [] => w_ret g
  | job :: jobs =>
      let bf := job_Backfill job in
      if bf_NextTo bf <? bf_TargetFrom bf then
        out <-w transact w (CommitBackfillChunk network (closing bf) no_records) ;
        groupJobs jobs (match out with
                        | Err _ => g
                        | Ok _ => mkGrouping (gr_groups g) (gr_tops g) (gr_order g) true
                        end)
      else groupJobs jobs (add_job job g)
  end.

(** The groups, highest cell first. *)
Fixpoint runGroups (fuel : nat) (g : grouping) (order : list Z) (worked : bool) : W bool :=
  match order with
  | [] => w_ret worked
  | from :: order =>
      dead <-w cancelled w ;
      if (dead : bool) then w_ret worked
      else
        done <-w processGroup fuel (mkChunkRange from (default 0 (gr_tops g !! from)))
                   (default [] (gr_groups g !! from))
                   (default [] (gr_groups g !! u32 (from + backfillChunkSize))) ;
        runGroups fuel g order (worked || done)
  end.

Definition round (fuel : nat) : W bool :=
  jobs <-w transact w (ListPendingBackfills network) ;
  match jobs with
  | Err _ => _ <-w cancelled w ; w_ret false
  | Ok jobs =>
      g <-w groupJobs jobs (mkGrouping ∅ ∅ [] false) ;
      runGroups fuel g (sort_by_desc id (gr_order g)) (gr_worked g)
  end.

(** [Run], for a number of rounds. *)
Fixpoint Run (fuel rounds : nat) : W unit :=
  match rounds with
  | O => w_ret tt
  | Datatypes.S rounds =>
      worked <-w round fuel ;
      dead <-w cancelled w ;
      if (dead : bool) then w_ret tt
      else if (worked : bool) then Run fuel rounds
      else
        fired <-w ask (w_slept w) ;
        w_modify (λ b, mkBackfiller (bk_lastScan b) (bk_Chunks b) (bk_Ledgers b) (bk_Tally b)
                         (backfillIdle :: bk_slept b)) ;;w
        if (fired : bool) then Run fuel rounds else w_ret tt
  end.
End backfiller.

#[local] Opaque InfoOf.

(** ** Lemmas *)

(** *** Chunks and partitions *)

Definition walkable (bf : Backfill) : Prop :=
  1 ≤ bf_TargetFrom bf ≤ bf_NextTo bf ∧ bf_NextTo bf < max_u32.

(** A chunk reaches down from the watermark, by less than a cell, to the grid or
    to the target. *)
Lemma chunkFromFor_spec bf :
  walkable bf →
  bf_TargetFrom bf ≤ chunkFromFor bf ≤ bf_NextTo bf ∧
  bf_NextTo bf - chunkFromFor bf < backfillChunkSize ∧
  (chunkFromFor bf = bf_TargetFrom bf ∨ (chunkFromFor bf - 1) mod backfillChunkSize = 0).
Proof.
  intros [[H1 H2] H3]. unfold chunkFromFor. rewrite max32_max.
  pose proof (Z.mod_pos_bound (bf_NextTo bf - 1) backfillChunkSize).
  pose proof (Z.mod_le (bf_NextTo bf - 1) backfillChunkSize).
  pose proof (Z.div_mod (bf_NextTo bf - 1) backfillChunkSize).
  unfold backfillChunkSize in *. usimpl.
  split; [lia|]. split; [lia|].
  destruct (Z.max_spec (bf_NextTo bf - (bf_NextTo bf - 1) mod 2000) (bf_TargetFrom bf))
    as [[? ->]|[? ->]]; [by left|right].
  replace (bf_NextTo bf - (bf_NextTo bf - 1) mod 2000 - 1)
    with (((bf_NextTo bf - 1) / 2000) * 2000) by lia. apply Z.mod_mul. lia.
Qed.

Lemma put_foldl {A} (id : A → string) (add : A → Records → Records) cid xs parts :
  orEmpty (foldl (put id add) parts xs !! cid) =
  foldl (λ p x, add x p) (orEmpty (parts !! cid)) (filter (λ x, id x = cid) xs).
Proof.
  revert parts. induction xs as [|x xs IH]; intros parts; [done|]. simpl foldl at 1. rewrite IH.
  rewrite filter_cons. unfold put at 1. case_decide as Hx.
  - simpl. by rewrite Hx, lookup_insert_eq.
  - by rewrite lookup_insert_ne.
Qed.

(** A loop that appends to one component of a partition. *)
Lemma foldl_append {A} (add : A → Records → Records) (comp : list A → Records) l0 xs :
  (∀ x l, add x (comp l) = comp (l ++ [x])) →
  foldl (λ p x, add x p) (comp l0) xs = comp (l0 ++ xs).
Proof.
  intros Hadd. revert l0. induction xs as [|x xs IH]; intros l0; simpl; [by rewrite app_nil_r|].
  by rewrite Hadd, IH, <- app_assoc.
Qed.

(** The share a contract commits is its records. *)
Lemma partitionResult_share r cid : orEmpty (partitionResult r !! cid) = records_of cid r.
Proof.
  unfold partitionResult. rewrite !put_foldl, lookup_empty. unfold orEmpty, no_records. simpl.
  rewrite (foldl_append _ (λ l, mkRecords l [] [] [] [])) by done.
  rewrite (foldl_append _ (λ l, mkRecords _ l [] [] [])) by done.
  rewrite (foldl_append _ (λ l, mkRecords _ _ l [] [])) by done.
  rewrite (foldl_append _ (λ l, mkRecords _ _ _ l [])) by done.
  by rewrite (foldl_append _ (λ l, mkRecords _ _ _ _ l)).
Qed.

(** *** Canonical kinds *)

Definition known_kind (k : string) : Prop :=
  k ∈ [KindEvents; KindState; KindTransfers; KindTrustlines; KindMovements].

Fixpoint has_comma (s : string) : bool :=
  match s with
  | EmptyString => false
  | String c s => Ascii.eqb c ","%char || has_comma s
  end.

Lemma known_kind_plain k : known_kind k → has_comma k = false ∧ k ≠ "".
Proof.
  unfold known_kind. rewrite !elem_of_cons, elem_of_nil.
  intros [->|[->|[->|[->|[->|[]]]]]]; by split.
Qed.

Lemma comma_split s1 s2 t1 t2 :
  has_comma s1 = false → has_comma s2 = false →
  s1 +:+ String "," t1 = s2 +:+ String "," t2 → s1 = s2 ∧ t1 = t2.
Proof.
  revert s2. induction s1 as [|c1 s1 IH]; intros [|c2 s2]; simpl.
  - by intros _ _ [= ->].
  - intros _ Hc [= <- _]. by rewrite Ascii.eqb_refl in Hc.
  - intros Hc _ [= -> _]. by rewrite Ascii.eqb_refl in Hc.
  - intros [Hc1 H1]%orb_false_iff [Hc2 H2]%orb_false_iff [= -> Heq].
    destruct (IH s2 H1 H2 Heq) as [-> ->]. done.
Qed.

Lemma has_comma_app s t : has_comma (s +:+ t) = has_comma s || has_comma t.
Proof.
  induction s as [|c s IH]; [done|]. change (has_comma (String c (s +:+ t)) = has_comma (String c s) || has_comma t).
  simpl. by rewrite IH, orb_assoc.
Qed.

Lemma string_app_nil s t : s +:+ t = "" → s = "" ∧ t = "".
Proof. by destruct s. Qed.

Lemma join_inj l1 l2 :
  Forall known_kind l1 → Forall known_kind l2 → join "," l1 = join "," l2 → l1 = l2.
Proof.
  intros H1. revert l2. induction H1 as [|k1 l1 Hk1 H1 IH]; intros l2 H2.
  { destruct H2 as [|k2 l2 Hk2 H2]; [done|]. destruct l2; simpl; intros Hj;
      [by apply known_kind_plain in Hk2 as [_ ?]|].
    symmetry in Hj. by apply string_app_nil in Hj as [_ ?]. }
  apply known_kind_plain in Hk1 as [Hc1 Hn1].
  destruct H2 as [|k2 l2 Hk2 H2].
  { destruct l1; simpl; [done|]. intros Hj. by apply string_app_nil in Hj as [_ ?]. }
  apply known_kind_plain in Hk2 as [Hc2 Hn2].
  destruct l1 as [|k1' l1], l2 as [|k2' l2].
  - by intros [= ->].
  - simpl. intros ->. rewrite has_comma_app in Hc1. simpl in Hc1. by rewrite orb_true_r in Hc1.
  - simpl. intros <-. rewrite has_comma_app in Hc2. simpl in Hc2. by rewrite orb_true_r in Hc2.
  - intros Hj. change (k1 +:+ String "," (join "," (k1' :: l1)) = k2 +:+ String "," (join "," (k2' :: l2))) in Hj.
    apply comma_split in Hj as [-> Hj]; [|done..]. f_equal. by apply IH.
Qed.

(** Equal fingerprints mean the same kinds. *)
Lemma canonicalKinds_same c1 c2 :
  Forall known_kind (ct_Kinds c1) → Forall known_kind (ct_Kinds c2) →
  canonicalKinds c1 = canonicalKinds c2 → ∀ k, k ∈ ct_Kinds c1 ↔ k ∈ ct_Kinds c2.
Proof.
  intros H1 H2 Hc k. unfold canonicalKinds, sort_strings in Hc.
  apply join_inj in Hc; [|by rewrite order_by_perm..].
  by rewrite <- (order_by_perm String.ltb (ct_Kinds c1)), Hc, order_by_perm.
Qed.

Lemma canonicalKinds_none c : Forall known_kind (ct_Kinds c) → canonicalKinds c = "" → ct_Kinds c = [].
Proof.
  intros Hk Hc. unfold canonicalKinds, sort_strings in Hc. change "" with (join "," []) in Hc at 2.
  apply join_inj in Hc; [|by rewrite order_by_perm|constructor].
  apply Permutation_nil. by rewrite <- Hc, order_by_perm.
Qed.

(** *** Scans *)
Section scans.
Context `{S : SDK} `{!SDKChanges} `{!LedgerHeaders} (passphrase : string) (w : world).

(** Consecutive ledgers from [seq] on, each linked to its predecessor ([prev]
    for the first). *)
Fixpoint linked_from (seq : Z) (prev : string) (lcms : list LedgerCloseMeta) : Prop :=
  match lcms with
  | [] => True
  | lcm :: lcms =>
      in_Sequence (InfoOf lcm) = seq ∧ (prev = "" ∨ in_PreviousHash (InfoOf lcm) = prev) ∧
      linked_from (u32 (seq + 1)) (in_Hash (InfoOf lcm)) lcms
  end.

Fixpoint end_seq (seq : Z) (lcms : list LedgerCloseMeta) : Z :=
  match lcms with [] => seq | _ :: lcms => end_seq (u32 (seq + 1)) lcms end.

Fixpoint end_hash (prev : string) (lcms : list LedgerCloseMeta) : string :=
  match lcms with [] => prev | lcm :: lcms => end_hash (in_Hash (InfoOf lcm)) lcms end.

Lemma linked_from_app seq prev l1 l2 :
  linked_from seq prev (l1 ++ l2) ↔
  linked_from seq prev l1 ∧ linked_from (end_seq seq l1) (end_hash prev l1) l2.
Proof.
  revert seq prev. induction l1 as [|x l1 IH]; intros seq prev; simpl; [tauto|].
  rewrite IH. tauto.
Qed.

Lemma end_seq_app seq l1 l2 : end_seq seq (l1 ++ l2) = end_seq (end_seq seq l1) l2.
Proof. revert seq. induction l1; intros; simpl; auto. Qed.

Lemma end_hash_app prev l1 l2 : end_hash prev (l1 ++ l2) = end_hash (end_hash prev l1) l2.
Proof. revert prev. induction l1; intros; simpl; auto. Qed.

(** What a scan has read so far. *)
Definition read_so_far (snap : Snapshot) (from seq : Z) (prevHash : string) (acc : Result)
    (lcms : list LedgerCloseMeta) : Prop :=
  linked_from from "" lcms ∧ seq = end_seq from lcms ∧ prevHash = end_hash "" lcms ∧
  extracted passphrase snap lcms acc ∧
  ∀ lcm, lcm ∈ lcms → ∃ n start limit ls, w_batch w n start limit = Ok ls ∧ lcm ∈ ls.

Lemma scanBatch_reads snap from batch seq prevHash acc lcms seq' prevHash' acc' :
  read_so_far snap from seq prevHash acc lcms →
  (∀ lcm, lcm ∈ batch → ∃ n start limit ls, w_batch w n start limit = Ok ls ∧ lcm ∈ ls) →
  scanBatch passphrase snap batch seq prevHash acc = Ok (seq', prevHash', acc') →
  read_so_far snap from seq' prevHash' acc' (lcms ++ batch) ∧ seq' = end_seq seq batch.
Proof.
  revert seq prevHash acc lcms. induction batch as [|lcm batch IH]; intros seq prevHash acc lcms Hr Hsrc;
    simpl scanBatch.
  { intros [= <- <- <-]. by rewrite app_nil_r. }
  destruct (Z.eqb_spec (in_Sequence (InfoOf lcm)) seq) as [Hseq|]; [|done]. simpl negb. cbv iota.
  destruct (bool_decide (prevHash ≠ "") && _) eqn:Hprev; [done|].
  destruct (Events lcm passphrase snap) as [r1|] eqn:Hev; [|done]. intros Hs.
  destruct (IH (u32 (seq + 1)) (in_Hash (InfoOf lcm)) (res_app acc r1) (lcms ++ [lcm])) as [Hr' He]; [| |exact Hs|].
  - destruct Hr as (Hl & Hse & Hh & Hx & Hin). split_and!.
    + apply linked_from_app. split; [done|]. simpl. rewrite <- Hse, <- Hh. split_and!; [done| |done].
      apply andb_false_iff in Hprev as [Hp|Hp]; apply bool_decide_eq_false, dec_stable in Hp; auto.
    + by rewrite end_seq_app, <- Hse.
    + by rewrite end_hash_app.
    + by apply extracted_snoc.
    + intros x [Hx'|Hx']%elem_of_app; [by apply Hin|]. apply list_elem_of_singleton in Hx' as ->.
      apply Hsrc. by left.
  - intros x Hx. apply Hsrc. by right.
  - split; [|done]. by rewrite <- app_assoc in Hr'.
Qed.

(** A successful scan read a linked run of ledgers past [to], and nothing else
    happened. *)
Definition scan_of (snap : Snapshot) (from to : Z) (res : Result) : Prop :=
  ∃ lcms prevHash, read_so_far snap from (end_seq from lcms) prevHash res lcms ∧ to < end_seq from lcms.

Lemma scanLoop_triple {P : outside → backfiller → Prop} fuel snap from to seq prevHash acc lcms :
  (∀ n d s, P (mkOutside n d) s → P (mkOutside (Datatypes.S n) d) s) →
  read_so_far snap from seq prevHash acc lcms →
  triple P (scanLoop passphrase w fuel snap to seq prevHash acc)
    (λ out o s, P o s ∧ ∀ r, out = Ok r → scan_of snap from to r).
Proof.
  intros HP. revert seq prevHash acc lcms. induction fuel as [|fuel IH]; intros seq prevHash acc lcms Hr; simpl.
  - apply triple_if; intros Hle; [|apply triple_hung].
    apply triple_ret. intros o s HPs. split; [done|]. intros r [= <-]. exists lcms, prevHash.
    assert (seq = end_seq from lcms) as -> by apply Hr. split; [done|].
    apply negb_true_iff, Z.leb_gt in Hle. lia.
  - apply triple_if; intros Hle.
    + apply triple_ret. intros o s HPs. split; [done|]. intros r [= <-]. exists lcms, prevHash.
      assert (seq = end_seq from lcms) as -> by apply Hr. split; [done|].
      apply negb_true_iff, Z.leb_gt in Hle. lia.
    + eapply (triple_bind _ _ _ (λ out o s, P o s ∧ ∀ ls, out = Ok ls →
        ∃ n start limit, w_batch w n start limit = Ok ls)).
      { apply triple_ask. intros n d s HPs. split; [by apply HP|]. intros ls Hls. eauto. }
      intros [batch|e].
      * destruct (scanBatch passphrase snap batch seq prevHash acc) as [[[seq' prevHash'] acc']|e] eqn:Hb.
        -- intros o s [HPs Hsrc]. destruct (Hsrc batch eq_refl) as (n & start & limit & Hls).
           eapply scanBatch_reads in Hb as [Hr' _]; [|exact Hr|intros; by eauto 6].
           exact (IH _ _ _ _ Hr' o s HPs).
        -- apply triple_ret. intros o s [HPs _]. by split.
      * apply triple_ret. intros o s [HPs _]. by split.
Qed.

Lemma scan_triple {P : outside → backfiller → Prop} fuel snap from to :
  (∀ n d s, P (mkOutside n d) s → P (mkOutside (Datatypes.S n) d) s) →
  triple P (scan passphrase w fuel snap from to)
    (λ out o s, P o s ∧ ∀ r, out = Ok r → scan_of snap from to r).
Proof.
  intros HP. apply (scanLoop_triple fuel snap from to from "" no_result []); [done|].
  split_and!; try done; [apply extracted_nil|]. by intros ? ?%elem_of_nil.
Qed.

(** The ledger at a position of a linked run. *)
Lemma linked_from_at seq prev lcms s :
  linked_from seq prev lcms → is_u32 seq → seq ≤ s < max_u32 → s < end_seq seq lcms →
  ∃ lcm, lcm ∈ lcms ∧ in_Sequence (InfoOf lcm) = s.
Proof.
  revert seq prev. induction lcms as [|lcm lcms IH]; intros seq prev; simpl; [lia|].
  intros (Hseq & _ & Hl) Hu Hs He. destruct (decide (s = seq)) as [->|Hne].
  - exists lcm. split; [by left|done].
  - rewrite u32_small in * by uarith.
    destruct (IH _ _ Hl) as (x & Hx & ?); [uarith|lia|done|]. exists x. split; [by right|done].
Qed.

(** From a source that serves only this chain's ledgers, a scan extracted every
    ledger of its range. *)
Definition genuine (chain : Z → LedgerCloseMeta) : Prop :=
  ∀ n start limit ls lcm, w_batch w n start limit = Ok ls → lcm ∈ ls →
    lcm = chain (in_Sequence (InfoOf lcm)).

Lemma scan_of_ledger chain snap from to res cid s :
  genuine chain → scan_of snap from to res → is_u32 from → to < max_u32 → from ≤ s ≤ to →
  ∃ r, Events (chain s) passphrase snap = Some r ∧ sub_records (records_of cid r) (records_of cid res).
Proof.
  intros Hg (lcms & h & (Hl & _ & _ & Hx & Hin) & Hto) Hf Hmax Hs.
  destruct (linked_from_at _ _ _ s Hl) as (lcm & Hlcm & Hseq); [done|lia|lia|].
  destruct (Hin lcm Hlcm) as (n & start & limit & ls & Hls & Hin').
  rewrite <- Hseq. rewrite <- (Hg _ _ _ _ _ Hls Hin'). by eapply extracted_in.
Qed.

(** And every record it found is one of the chain's. *)
Lemma scan_part `{Additive A part} chain snap from to res :
  genuine chain → scan_of snap from to res → all_from passphrase chain part (part res).
Proof.
  intros Hg (lcms & h & (_ & _ & _ & Hx & Hin) & _) x Hev.
  destruct (extracted_part _ _ _ _ x Hx Hev) as (lcm & r & Hlcm & Hr & Hxr).
  destruct (Hin lcm Hlcm) as (n & start & limit & ls & Hls & Hin').
  exists (in_Sequence (InfoOf lcm)), snap, r. by rewrite <- (Hg _ _ _ _ _ Hls Hin').
Qed.

Lemma scan_from_chain chain snap from to res :
  genuine chain → scan_of snap from to res → from_chain passphrase chain (all_records res).
Proof. intros Hg Hs. split_and!; cbn; by apply (scan_part chain snap from to). Qed.
End scans.

(** *** The retention wall *)
Section wall.
Context `{S : SDK} (w : world).

(** The wall found is inside the searched range or just above it. *)
Lemma findWall_triple {P : outside → backfiller → Prop} fuel lo hi :
  (∀ n d s, P (mkOutside n d) s → P (mkOutside (Datatypes.S n) d) s) →
  0 ≤ lo ≤ hi + 1 → hi < max_u32 →
  triple P (findWall w fuel lo hi)
    (λ out o s, P o s ∧ ∀ wall, out = Ok wall → lo ≤ wall ≤ hi + 1).
Proof.
  intros HP. revert lo hi. induction fuel as [|fuel IH]; intros lo hi Hlo Hhi; simpl.
  - apply triple_if; intros Hle; [|apply triple_hung]. apply triple_ret. intros o s HPs.
    split; [done|]. intros wall [= <-]. lia.
  - apply triple_if; intros Hle.
    + apply triple_ret. intros o s HPs. split; [done|]. intros wall [= <-]. lia.
    + apply negb_false_iff, Z.leb_le in Hle.
      pose proof (Z.div_pos (hi - lo) 2). pose proof (Z.div_le_upper_bound (hi - lo) 2 (hi - lo)).
      assert (Hmid : u32 (lo + u32 (hi - lo) / 2) = lo + (hi - lo) / 2).
      { rewrite (u32_small (hi - lo)) by uarith. apply u32_small. uarith. }
      rewrite Hmid. set (mid := lo + (hi - lo) / 2) in *.
      eapply (triple_bind _ _ _ (λ _, P)); [by apply triple_ask; intros; apply HP|].
      intros [batch|e].
      * apply triple_if; intros Hm.
        -- apply triple_ret. intros o s HPs. split; [done|]. intros wall [= <-]. lia.
        -- eapply triple_conseq; [done| |apply (IH lo mid); lia].
           intros out o s [? Hw]. split; [done|]. intros wall Hwall. specialize (Hw wall Hwall). lia.
      * destruct e; try (apply triple_ret; by intros).
        apply triple_if; intros Hm.
        -- apply triple_ret. intros o s HPs. split; [done|]. intros wall [= <-].
           rewrite u32_small by uarith. lia.
        -- rewrite u32_small by uarith. apply Z.eqb_neq in Hm.
           eapply triple_conseq; [done| |apply (IH (mid + 1) hi); lia].
           intros out o s [? Hw]. split; [done|]. intros wall Hwall. specialize (Hw wall Hwall). lia.
Qed.

(** A source with a retention wall, up to its tip. *)
Definition walled (oldest tip : Z) : Prop :=
  ∀ n s, s ≤ tip → (oldest ≤ s → ∃ ls, w_batch w n s 1 = Ok ls) ∧
                   (s < oldest → w_batch w n s 1 = Err ErrBelowRetention).

Lemma findWall_finds oldest tip k fuel lo hi o s :
  walled oldest tip → hi ≤ tip → 0 ≤ lo ≤ hi + 1 → hi < max_u32 → hi - lo + 1 ≤ 2 ^ Z.of_nat k → (k < fuel)%nat →
  ∃ n, (n ≤ o_calls o + k + 1)%nat ∧
    findWall w fuel lo hi o s =
      Some (Ok (Z.max lo (Z.min oldest (hi + 1))), mkOutside n (o_db o), s : backfiller).
Proof.
  intros Hw. revert k lo hi o. induction fuel as [|fuel IH]; intros k lo hi o Htip Hlo Hhi Hk Hf; [lia|].
  simpl findWall. destruct (Z.leb_spec lo hi) as [Hle|Hgt]; simpl negb; cbv iota.
  2: { exists (o_calls o). split; [lia|]. replace (Z.max lo _) with lo by lia. by destruct o. }
  pose proof (Z.div_pos (hi - lo) 2). pose proof (Z.div_mod (hi - lo) 2).
  pose proof (Z.mod_pos_bound (hi - lo) 2).
  assert (Hmid : u32 (lo + u32 (hi - lo) / 2) = lo + (hi - lo) / 2).
  { rewrite (u32_small (hi - lo)) by uarith. apply u32_small. uarith. }
  rewrite Hmid. set (mid := lo + (hi - lo) / 2) in *.
  unfold w_bind, GetLedgerBatch, ask. simpl.
  assert (Hpow : ∀ k', k = Datatypes.S k' → 2 ^ Z.of_nat k = 2 * 2 ^ Z.of_nat k').
  { intros k' ->. rewrite Nat2Z.inj_succ, Z.pow_succ_r; lia. }
  destruct (Hw (o_calls o) mid) as [Hup Hdown]; [lia|]. destruct (Z.le_gt_cases oldest mid) as [Hm|Hm].
  - destruct (Hup Hm) as [ls ->]. destruct (Z.eqb_spec mid lo) as [He|Hne].
    + eexists. split; [|replace (Z.max lo _) with mid by lia; reflexivity]. lia.
    + destruct k as [|k']; [simpl in Hk; lia|]. specialize (Hpow k' eq_refl).
      destruct (IH k' lo mid (mkOutside (Datatypes.S (o_calls o)) (o_db o))) as (n & Hn & ->); [lia..|].
      simpl in Hn. exists n. split; [lia|].
      by replace (Z.max lo (Z.min oldest (mid + 1))) with (Z.max lo (Z.min oldest (hi + 1))) by lia.
  - rewrite Hdown by done. destruct (Z.eqb_spec mid hi) as [He|Hne].
    + eexists. split; [|replace (Z.max lo _) with (hi + 1) by lia; rewrite u32_small by uarith; reflexivity]. lia.
    + rewrite u32_small by uarith. destruct k as [|k']; [simpl in Hk; lia|]. specialize (Hpow k' eq_refl).
      destruct (IH k' (mid + 1) hi (mkOutside (Datatypes.S (o_calls o)) (o_db o))) as (n & Hn & ->); [lia..|].
      simpl in Hn. exists n. split; [lia|].
      by replace (Z.max lo (Z.min oldest (hi + 1))) with (Z.max (mid + 1) (Z.min oldest (hi + 1))) by lia.
Qed.
End wall.

(** *** What a round guarantees *)
Section honest.
Context `{S : SDK} `{!SDKChanges} `{!LedgerHeaders} (net passphrase : string) (w : world).
Context (chain : Z → LedgerCloseMeta).

(** A walk's row moved from [b] to [b']: its watermark descended only over
    ledgers derived for the contract, and it ended only below its target or at
    a wall under which every ledger it still owes is promised by a gap. *)
Record advanced (d : db) (cid : string) (kinds : list string) (b b' : backfill_row) : Prop := {
  av_open : b_done b = false;
  av_target : b_target_from b' = b_target_from b;
  av_kinds : b_covered_kinds b' = b_covered_kinds b;
  av_next : 0 ≤ b_next_to b' ≤ b_next_to b;
  av_derived : ∀ l, b_next_to b' < l ≤ b_next_to b →
    derived chain passphrase net cid kinds l (get_tables d);
  av_end : match b_clamped_at b' with
           | None => b_done b' = true → b_next_to b' < b_target_from b
           | Some wall => b_done b' = true ∧ b_target_from b < wall ∧ b_next_to b' < wall ∧
                          ∀ l, b_target_from b ≤ l < wall → owed (db_gaps d) net l
           end }.

Record held (d d' : db) : Prop := {
  hd_contracts : db_contracts d' = db_contracts d;
  hd_stored : keeps_stored net (get_tables d) (get_tables d');
  hd_owed : ∀ l, owed (db_gaps d) net l → owed (db_gaps d') net l;
  hd_wf : gaps_wf (db_gaps d) → gaps_wf (db_gaps d');
  hd_walks : ∀ k, match db_backfill d !! k, db_backfill d' !! k with
    | None, None => True
    | Some b, Some b' =>
        b' = b ∨ (k.1 = net ∧ ∃ c, db_contracts d !! k = Some c ∧ advanced d' k.2 (c_kinds c) b b')
    | _, _ => False
    end }.

(** The other writers, when they are the live loop: they only add records. *)
Definition bystanders : Prop := ∀ n d,
  db_backfill (w_others w n d) = db_backfill d ∧ db_contracts (w_others w n d) = db_contracts d ∧
  db_gaps (w_others w n d) = db_gaps d ∧
  keeps_stored net (get_tables d) (get_tables (w_others w n d)).

(** The cache, if any, is a scan made for the contracts it names. *)
Definition cache_ok (s : backfiller) : Prop := ∀ e, bk_lastScan s = Some e →
  ∃ cs, Forall (λ c, Forall known_kind (ct_Kinds c)) cs ∧
    sce_members e = foldl (λ (m : gmap string string) ct, <[ct_ContractID ct := canonicalKinds ct]> m) ∅ cs ∧
    scan_of passphrase w (StaticSnapshot cs) (sce_from e) (sce_to e) (sce_res e).

(** Registrations hold known kinds, pending walks ledger numbers. *)
Definition walks_wf (d : db) : Prop :=
  (∀ k c, db_contracts d !! k = Some c → Forall known_kind (c_kinds c)) ∧
  (∀ cid b, db_backfill d !! (net, cid) = Some b → b_done b = false →
     1 ≤ b_target_from b ≤ max_u32 ∧ 0 ≤ b_next_to b < max_u32).

Lemma advanced_keeps d d' cid kinds b b' :
  keeps_stored net (get_tables d) (get_tables d') →
  (∀ l, owed (db_gaps d) net l → owed (db_gaps d') net l) →
  advanced d cid kinds b b' → advanced d' cid kinds b b'.
Proof.
  intros Hk Ho [H0' H1 H2 H3 H4 H5]. split; [done..| |].
  - intros l Hl. eapply derived_keeps; [exact Hk|]. by apply H4.
  - destruct (b_clamped_at b'); [|done]. destruct H5 as (? & ? & ? & H5). split_and!; try done.
    intros l Hl. by apply Ho, H5.
Qed.

Lemma advanced_trans d cid kinds b b1 b2 :
  advanced d cid kinds b b1 → advanced d cid kinds b1 b2 → advanced d cid kinds b b2.
Proof.
  intros [P1 T1 K1 N1 D1 E1] [P2 T2 K2 N2 D2 E2]. split; try congruence; try lia.
  - intros l Hl. destruct (Z.le_gt_cases l (b_next_to b1)); [apply D2|apply D1]; lia.
  - rewrite T1 in E2. done.
Qed.

#[export] Instance held_preorder : PreOrder held.
Proof.
  split.
  - intros d. split; try done. intros k. destruct (db_backfill d !! k); auto.
  - intros d1 d2 d3 [C1 S1 O1 W1 B1] [C2 S2 O2 W2 B2]. split.
    + congruence.
    + by transitivity (get_tables d2).
    + auto.
    + auto.
    + intros k. specialize (B1 k). specialize (B2 k).
      destruct (db_backfill d1 !! k) as [b1|], (db_backfill d2 !! k) as [b2|]; try done.
      destruct (db_backfill d3 !! k) as [b3|]; [|done].
      destruct B1 as [->|(Hn & c & Hc & Ha)]; [destruct B2 as [->|(? & c & Hc & Ha)]; [by left|right]|right].
      * split; [done|]. exists c. by rewrite <- C1.
      * split; [done|]. exists c. split; [done|].
        assert (Ha' : advanced d3 k.2 (c_kinds c) b1 b2) by (by eapply advanced_keeps).
        destruct B2 as [->|(_ & c' & Hc' & Hb)]; [done|]. rewrite C1, Hc in Hc'. injection Hc' as <-.
        by eapply advanced_trans.
Qed.

Lemma held_others n d : bystanders → held d (w_others w n d).
Proof.
  intros Hb. destruct (Hb n d) as (H1 & H2 & H3 & H4). split; [done|done|by rewrite H3..|].
  intros k. rewrite H1. destruct (db_backfill d !! k); auto.
Qed.

(** A judgement about the database that the other writers preserve, and so do
    the backfiller's two transactions whenever what they commit was read for the
    kinds the contract is registered with. *)
Record respected (K : db → Prop) : Prop := {
  rp_others : ∀ n d, K d → K (w_others w n d);
  rp_gap : ∀ from to reason now d d', K d → 1 ≤ from → to ≤ max_u32 →
    run now (RecordGap net from to reason) d = Ok (tt, d') → K d';
  rp_chunk : ∀ nxt share b c now d d', K d →
    db_backfill d !! (net, bf_ContractID nxt) = Some b →
    db_contracts d !! (net, bf_ContractID nxt) = Some c →
    walk_ready net passphrase chain (c_kinds c) nxt share b d →
    run now (CommitBackfillChunk net nxt share) d = Ok (tt, d') → K d' }.

(** *** The invariant of a round started at [d0]; [debt] are ledgers promised
    meanwhile. *)
Context (Hby : bystanders) (K : db → Prop) (HK : respected K) (d0 : db).

Definition Inv (debt : Z → Prop) (o : outside) (s : backfiller) : Prop :=
  held d0 (o_db o) ∧ gaps_wf (db_gaps (o_db o)) ∧ cache_ok s ∧
  (∀ l, debt l → owed (db_gaps (o_db o)) net l) ∧ K (o_db o).

Lemma Inv_call debt n d s : Inv debt (mkOutside n d) s → Inv debt (mkOutside (Datatypes.S n) d) s.
Proof. done. Qed.

Lemma Inv_less (debt debt' : Z → Prop) o s : (∀ l, debt' l → debt l) → Inv debt o s → Inv debt' o s.
Proof. intros Hd (? & ? & ? & Hdue & ?). split_and!; auto. Qed.

Lemma Inv_step debt n d d' s :
  Inv debt (mkOutside n d) s → held (w_others w n d) d' → gaps_wf (db_gaps d') → K d' →
  Inv debt (mkOutside (Datatypes.S n) d') s.
Proof.
  intros (Hh & Hwf & Hc & Hd & _) Hh' Hwf' HK'. simpl in *. destruct (Hby n d) as (_ & _ & Hg & _).
  split_and!; simpl; [|done|done| |done].
  - transitivity d; [done|]. transitivity (w_others w n d); [by apply held_others|done].
  - intros l Hl. apply (hd_owed _ _ Hh'). rewrite Hg. by apply Hd.
Qed.

Lemma Inv_others debt n d s :
  Inv debt (mkOutside n d) s → Inv debt (mkOutside (Datatypes.S n) (w_others w n d)) s.
Proof.
  intros HI. eapply Inv_step; [exact HI|done| |apply HK, HI]. destruct (Hby n d) as (_ & _ & -> & _). apply HI.
Qed.

(** A transaction that keeps the guarantee. *)
Lemma Inv_transact {A} debt (t : Tx A) :
  (∀ n d a d', let d1 := w_others w n d in
     held d0 d1 → gaps_wf (db_gaps d1) → (∀ l, debt l → owed (db_gaps d1) net l) → K d1 →
     run (w_now w n) t d1 = Ok (a, d') →
     held d0 d' ∧ db_gaps d' = db_gaps d1 ∧ K d') →
  triple (Inv debt) (transact w t) (λ _ o s, Inv debt o s).
Proof.
  intros Ht. apply triple_transact. intros n d s HI. pose proof (Inv_others _ _ _ _ HI) as HI'.
  split; [done|]. intros a d' Hrun. pose proof HI' as (Hh1 & Hwf1 & Hc & Hd1 & HK1).
  destruct (Ht n d a d' Hh1 Hwf1 Hd1 HK1 Hrun) as (Hh & Hg & HK').
  assert (Inv debt (mkOutside (Datatypes.S n) d') s) by (unfold Inv; simpl; rewrite Hg; by split_and!).
  by split.
Qed.

(** The share of a contract covers the ledgers [lo .. hi]. *)
Definition covers_share (cid : string) (kinds : list string) (share : Records) (lo hi : Z) : Prop :=
  ∀ l, lo ≤ l ≤ hi → ∃ (watch : Snapshot) r,
    (∀ k, watches watch cid k = bool_decide (k ∈ kinds)) ∧
    Events (chain l) passphrase watch = Some r ∧ sub_records (records_of cid r) share.

(** A commit for a walk whose row was [b] at the start of the round, with the
    records that back it. *)
Record backed (debt : Z → Prop) (b : backfill_row) (c : contract_row) (nxt : Backfill) (share : Records) : Prop := {
  bk_row : db_backfill d0 !! (net, bf_ContractID nxt) = Some b;
  bk_contract : db_contracts d0 !! (net, bf_ContractID nxt) = Some c;
  bk_open : b_done b = false;
  bk_next : 0 ≤ bf_NextTo nxt ≤ b_next_to b ∧ b_next_to b < max_u32;
  bk_share : covers_share (bf_ContractID nxt) (c_kinds c) share (bf_NextTo nxt + 1) (b_next_to b);
  bk_chain : from_chain passphrase chain share;
  bk_end : match bf_ClampedAt nxt with
           | None => bf_Done nxt = true → bf_NextTo nxt < b_target_from b
           | Some wall => bf_Done nxt = true ∧ b_target_from b < wall ∧ bf_NextTo nxt < wall ∧
                          ∀ l, b_target_from b ≤ l < wall → debt l
           end }.

(** The row has at most descended since. *)
Lemma held_row d1 k b : held d0 d1 → db_backfill d0 !! k = Some b →
  ∃ b1, db_backfill d1 !! k = Some b1 ∧ b_target_from b1 = b_target_from b ∧
    b_covered_kinds b1 = b_covered_kinds b ∧ b_next_to b1 ≤ b_next_to b.
Proof.
  intros Hh Hb. pose proof (hd_walks _ _ Hh k) as Hk. rewrite Hb in Hk.
  destruct (db_backfill d1 !! k) as [b1|]; [|done]. exists b1. split; [done|].
  destruct Hk as [->|(_ & c & _ & [])]; [done|]. split_and!; try done. lia.
Qed.

Lemma backed_ready debt b c nxt share d1 b1 :
  backed debt b c nxt share → held d0 d1 → (∀ l, debt l → owed (db_gaps d1) net l) →
  db_backfill d1 !! (net, bf_ContractID nxt) = Some b1 →
  walk_ready net passphrase chain (c_kinds c) nxt share b1 d1.
Proof.
  intros [Hb Hc Ho Hn Hs Hf He] Hh Hd Hb1.
  destruct (held_row d1 _ b Hh Hb) as (b1' & Hb1' & Ht & _ & Hle). rewrite Hb1 in Hb1'. injection Hb1' as <-.
  split; [done|]. split; [uarith|]. split.
  - intros kind l Hk Hl. destruct (Hs l ltac:(lia)) as (watch & r & Hw & Hev & Hsub). exists r. split.
    + exists watch. split; [|done]. rewrite Hw. by apply bool_decide_eq_true.
    + eapply sub_records_trans; [apply of_kind_sub|done].
  - destruct (bf_ClampedAt nxt) as [wall|]; [|done]. destruct He as (_ & Htw & Hnw & Hdebt).
    rewrite Ht. intros l Hl. split; [apply Hd, Hdebt|]; lia.
Qed.

Lemma commit_chunk_held debt b c nxt share now d1 d' :
  backed debt b c nxt share → held d0 d1 → (∀ l, debt l → owed (db_gaps d1) net l) → K d1 →
  run now (CommitBackfillChunk net nxt share) d1 = Ok (tt, d') →
  held d0 d' ∧ db_gaps d' = db_gaps d1 ∧ K d'.
Proof.
  intros Hbk Hh Hdebt HKd Hrun. set (cid := bf_ContractID nxt).
  assert (HK' : K d').
  { destruct (held_row d1 (net, cid) b Hh ltac:(apply Hbk)) as (b1 & Hb1 & _).
    eapply (rp_chunk _ HK); [exact HKd|exact Hb1|rewrite (hd_contracts _ _ Hh); apply Hbk|by eapply backed_ready|exact Hrun]. }
  destruct Hbk as [Hb Hc Hopen [Hn _] Hcov _ Hend]. fold cid in Hb, Hc, Hcov.
  rewrite run_CommitBackfillChunk in Hrun.
  destruct (add_records net share (get_tables d1)) as [t|] eqn:Hadd; [|done]. fold cid in Hrun.
  destruct (db_backfill d1 !! (net, cid)) as [b1|] eqn:Hb1; [|done]. injection Hrun as Hd'.
  set (b' := mkBackfillRow _ _ _ _ _ _) in Hd'.
  assert (Ht : get_tables d' = t) by (rewrite <- Hd'; apply get_put_tables).
  assert (Hg : db_gaps d' = db_gaps d1) by (rewrite <- Hd'; by destruct d1).
  assert (Hcs : db_contracts d' = db_contracts d1) by (rewrite <- Hd'; by destruct d1).
  assert (Hbf : db_backfill d' = <[(net, cid) := b']> (db_backfill d1)) by (rewrite <- Hd'; by destruct d1).
  assert (Hk : keeps_stored net (get_tables d1) (get_tables d'))
    by (rewrite Ht; by eapply add_records_keeps).
  clear Hd'. destruct Hh as [C0 S0 O0 W0 B0]. split; [|by split]. split.
  - by rewrite Hcs.
  - by transitivity (get_tables d1).
  - intros l Hl. rewrite Hg. auto.
  - rewrite Hg. done.
  - intros k. specialize (B0 k). rewrite Hbf. destruct (decide (k = (net, cid))) as [->|Hne].
    + rewrite lookup_insert_eq, Hb. rewrite Hb, Hb1 in B0. right. split; [done|]. exists c. split; [done|].
      assert (b_target_from b1 = b_target_from b ∧ b_covered_kinds b1 = b_covered_kinds b) as [Ht1 Hk1]
        by (destruct B0 as [->|(_ & ? & _ & [_ ? ? _ _ _])]; done).
      split; simpl; [done..| |].
      * intros l Hl. destruct (Hcov l) as (watch & r & Hw & Hev & Hsub); [lia|].
        exists watch, r. split_and!; [done..|]. rewrite Ht.
        eapply stored_sub; [exact Hsub|by eapply add_records_stored].
      * destruct (bf_ClampedAt nxt); [|done]. destruct Hend as (? & ? & ? & Hd). split_and!; try done.
        intros l Hl. rewrite Hg. by apply Hdebt, Hd.
    + rewrite lookup_insert_ne by done.
      destruct (db_backfill d0 !! k), (db_backfill d1 !! k); try done.
      destruct B0 as [->|(? & c' & ? & ?)]; [by left|right]. split; [done|]. exists c'. split; [done|].
      eapply advanced_keeps; [exact Hk| |done]. intros l. by rewrite Hg.
Qed.

(** *** Snapshots and the cache *)

Lemma members_byID cs :
  foldl (λ (m : gmap string string) ct, <[ct_ContractID ct := canonicalKinds ct]> m) ∅ cs =
  canonicalKinds <$> (byID cs : gmap string Contract).
Proof.
  unfold byID. rewrite <- (fmap_empty canonicalKinds (M := gmap string)). generalize (∅ : gmap string Contract).
  induction cs as [|c cs IH]; intros m; simpl; [done|]. by rewrite <- fmap_insert, IH.
Qed.

Lemma byID_in cs id :
  id ∈ ct_ContractID <$> cs →
  ∃ c, c ∈ cs ∧ ct_ContractID c = id ∧ (byID cs : gmap string Contract) !! id = Some c.
Proof.
  unfold byID. generalize (∅ : gmap string Contract). induction cs as [|c cs IH]; intros m; simpl.
  { by intros ?%elem_of_nil. }
  destruct (decide (id ∈ ct_ContractID <$> cs)) as [Hin|Hin].
  - intros _. destruct (IH (<[ct_ContractID c:=c]> m) Hin) as (x & Hx & ? & Hl).
    exists x. split; [by right|]. by split.
  - intros [->|?]%elem_of_cons; [|done]. exists c. split; [by left|]. split; [done|].
    rewrite lookup_byID_notin by done. apply lookup_insert_eq.
Qed.

Lemma byID_elem cs id c : (byID cs : gmap string Contract) !! id = Some c → c ∈ cs ∧ ct_ContractID c = id.
Proof.
  unfold byID. assert (Hgen : ∀ m : gmap string Contract,
    foldl (λ m c, <[ct_ContractID c := c]> m) m cs !! id = Some c →
    m !! id = Some c ∨ (c ∈ cs ∧ ct_ContractID c = id)).
  { induction cs as [|x cs IH]; intros m; simpl; [by left|].
    intros [Hm|[? ?]]%IH; [|right; split; [by right|done]].
    apply lookup_insert_Some in Hm as [[<- <-]|[_ ?]]; [right; split; [by left|done]|by left]. }
  intros [Hm|?]%Hgen; [|done]. by rewrite lookup_empty in Hm.
Qed.

(** A pending job is a row of [d0] with its registration. *)
Definition job_ok (job : BackfillJob) : Prop :=
  ∃ cid b c, db_backfill d0 !! (net, cid) = Some b ∧ db_contracts d0 !! (net, cid) = Some c ∧
    b_done b = false ∧ 1 ≤ b_target_from b ≤ max_u32 ∧ 0 ≤ b_next_to b < max_u32 ∧
    Forall known_kind (c_kinds c) ∧
    job = mkBackfillJob (mkBackfill cid (b_target_from b) (b_next_to b) false None [])
            (contract_of ((net, cid), c)).

Definition shares_ok (res : Result) (jobs : list BackfillJob) (lo hi : Z) : Prop :=
  from_chain passphrase chain (all_records res) ∧
  ∀ job, job ∈ jobs → let c := job_Contract job in
    covers_share (ct_ContractID c) (ct_Kinds c) (records_of (ct_ContractID c) res) lo hi.

Context (Hgen : genuine w chain).

Lemma scan_share snap from to res cid kinds :
  scan_of passphrase w snap from to res → is_u32 from → to < max_u32 →
  (∀ k, watches snap cid k = bool_decide (k ∈ kinds)) →
  covers_share cid kinds (records_of cid res) from to.
Proof.
  intros Hs Hf Hto Hk l Hl. destruct (scan_of_ledger passphrase w chain snap from to res cid l)
    as (r & ? & ?); try done. by exists snap, r.
Qed.

Lemma watches_kinds snap cid c k :
  (snap : gmap string Contract) !! cid = Some c → watches snap cid k = bool_decide (k ∈ ct_Kinds c).
Proof. intros Hc. unfold watches, Get, Snapshot. by rewrite Hc. Qed.

(** Registrations of the same contract are the same. *)
Lemma job_contract_unique j1 j2 :
  job_ok j1 → job_ok j2 → ct_ContractID (job_Contract j1) = ct_ContractID (job_Contract j2) →
  job_Contract j1 = job_Contract j2.
Proof.
  intros (cid1 & b1 & c1 & _ & H1 & _ & _ & _ & _ & ->) (cid2 & b2 & c2 & _ & H2 & _ & _ & _ & _ & ->).
  simpl. intros ->. rewrite H1 in H2. by injection H2 as ->.
Qed.

Lemma scanned_shares jobs more from to res :
  Forall job_ok jobs → Forall job_ok more → is_u32 from → to < max_u32 →
  scan_of passphrase w (StaticSnapshot ((job_Contract <$> jobs) ++ (job_Contract <$> more))) from to res →
  shares_ok res jobs from to.
Proof.
  intros Hj Hm Hf Hto Hs. split; [by eapply scan_from_chain|].
  intros job Hjob c. rewrite Forall_forall in Hj, Hm. eapply scan_share; [exact Hs|done..|]. intros k. apply watches_kinds.
  destruct (byID_in ((job_Contract <$> jobs) ++ (job_Contract <$> more)) (ct_ContractID c))
    as (c' & Hin & Hid & Hl).
  { rewrite fmap_app. apply elem_of_app. left. by apply list_elem_of_fmap_2, list_elem_of_fmap_2. }
  unfold StaticSnapshot, Snapshot. rewrite Hl. f_equal. rewrite <- fmap_app in Hin. apply list_elem_of_fmap in Hin as (j' & -> & Hj').
  apply job_contract_unique; [|by apply Hj|done].
  apply elem_of_app in Hj' as [?|?]; auto.
Qed.

Lemma cached_shares s rng jobs res :
  cache_ok s → Forall job_ok jobs → is_u32 (cr_from rng) → cr_to rng < max_u32 →
  cachedScan s rng (job_Contract <$> jobs) = Some res → shares_ok res jobs (cr_from rng) (cr_to rng).
Proof.
  intros Hc Hj Hf Hto Hs. unfold cachedScan in Hs.
  destruct (bk_lastScan s) as [e|] eqn:He; [|done].
  destruct (Hc e He) as (cs & Hcs & Hm & Hscan).
  destruct (Z.eqb_spec (sce_from e) (cr_from rng)) as [Hef|]; [|done].
  destruct (Z.eqb_spec (sce_to e) (cr_to rng)) as [Het|]; [|done]. simpl in Hs.
  destruct (forallb _ _) eqn:Hall; [|done]. injection Hs as <-. rewrite <- Hef, <- Het in *.
  split; [by eapply scan_from_chain|]. intros job Hjob c.
  rewrite forallb_forall in Hall. specialize (Hall c).
  assert (Hin : c ∈ job_Contract <$> jobs) by (by apply list_elem_of_fmap_2).
  apply list_elem_of_In in Hin. apply Hall, bool_decide_eq_true in Hin.
  rewrite Hm, members_byID, lookup_fmap in Hin.
  assert (Hkn : Forall known_kind (ct_Kinds c)).
  { rewrite Forall_forall in Hj. destruct (Hj job Hjob) as (? & ? & ? & _ & _ & _ & _ & _ & Hk & Heq).
    unfold c. by rewrite Heq. }
  eapply scan_share; [exact Hscan|done..|]. intros k. unfold watches, Get, StaticSnapshot, Snapshot.
  destruct ((byID cs : gmap string Contract) !! ct_ContractID c) as [c'|] eqn:Hl.
  - simpl in Hin. apply byID_elem in Hl as [Hin' _]. rewrite Forall_forall in Hcs.
    unfold HasKind. apply bool_decide_ext. by apply canonicalKinds_same; [apply Hcs| |].
  - simpl in Hin. symmetry in Hin. apply canonicalKinds_none in Hin; [|done]. rewrite Hin.
    symmetry. apply bool_decide_eq_false. by intros ?%elem_of_nil.
Qed.

(** *** The steps of a round keep the invariant *)

Lemma record_frame from to reason now d d' :
  gaps_wf (db_gaps d) → 1 ≤ from → to ≤ max_u32 → from ≤ to →
  run now (RecordGap net from to reason) d = Ok (tt, d') →
  held d d' ∧ gaps_wf (db_gaps d') ∧ ∀ l, from ≤ l ≤ to → owed (db_gaps d') net l.
Proof.
  intros Hwf Hf Ht Hle Hrun. rewrite RecordGap_run in Hrun by done. injection Hrun as <-.
  set (F := λ m : gmap string gap_row, _).
  assert (Hwf' : gaps_wf (F (db_gaps d))) by (by apply record_wf).
  assert (Hiff : ∀ n l, owed (F (db_gaps d)) n l ↔
    owed (db_gaps d) n l ∨ (n = net ∧ (from ≤ l ≤ to ∨ touched (db_gaps d) net from to l)))
    by (intros; by apply record_owed_total).
  clearbody F. autorewrite with sierpe_simp. split; [|split; [done|]].
  - split; autorewrite with sierpe_simp; try done.
    + by destruct d.
    + intros l Hl. apply Hiff. by left.
    + intros k. destruct (db_backfill d !! k); auto.
  - intros l Hl. apply Hiff. right. split; [done|]. by left.
Qed.

Abbreviation tf := (λ job, bf_TargetFrom (job_Backfill job)).

Lemma recordGaps_triple wall (recorded : gset Z) jobs debt :
  1 ≤ wall ≤ max_u32 → Forall (λ job, 1 ≤ tf job < wall) jobs →
  (∀ t l, t ∈ recorded → t ≤ l < wall → debt l) →
  triple (Inv debt) (recordGaps net w wall recorded jobs)
    (λ out o s, Inv (λ l, debt l ∨ (out = Ok tt ∧ Exists (λ job, tf job ≤ l < wall) jobs)) o s).
Proof.
  intros Hw Hjobs. revert recorded debt. induction Hjobs as [|job jobs Hjob Hjobs IH];
    intros recorded debt Hrec; simpl.
  { apply triple_ret. intros o s. apply Inv_less. intros l [?|[_ ?%Exists_nil]]; done. }
  destruct (decide (tf job ∈ recorded)) as [Hin|Hout].
  - eapply triple_conseq; [done| |by apply IH]. intros out o s. apply Inv_less.
    intros l [?|[? [?|?]%Exists_cons]]; [by left|left; by eapply Hrec|by right].
  - set (debt' := λ l, debt l ∨ tf job ≤ l < wall).
    assert (Hrg : triple (Inv debt) (transact w (RecordGap net (tf job) (u32 (wall - 1))
        "below source retention during backfill; the archive leg can heal this"))
      (λ out o s, Inv debt o s ∧ (out = Ok tt → Inv debt' o s))).
    { apply triple_transact. intros n d s HI d1. pose proof (Inv_others _ _ _ _ HI) as HI'. fold d1 in HI'.
      split; [by split|]. intros [] d' Hrun.
      assert (HI2 : Inv debt' (mkOutside (Datatypes.S n) d') s).
      { rewrite u32_small in Hrun by uarith. destruct HI' as (Hh & Hwf & Hc & Hd & HKd). simpl in *.
        edestruct record_frame as (Hh' & Hwf' & Ho);
          [exact Hwf| | | |exact Hrun|]; [lia|uarith|lia|].
        split_and!; [by transitivity d1|done|done| |].
        - intros l [Hl|Hl]; simpl; [apply (hd_owed _ _ Hh'); by apply Hd|apply Ho; lia].
        - eapply (rp_gap _ HK); [exact HKd| | |exact Hrun]; [lia|uarith]. }
      assert (Inv debt (mkOutside (Datatypes.S n) d') s) by (eapply Inv_less; [|exact HI2]; intros; by left).
      by split. }
    eapply triple_bind; [exact Hrg|]. intros [[]|e].
    + eapply triple_conseq; [|intros out o s; apply Inv_less|apply (IH _ debt')].
      * intros o s [_ Hok]. by apply Hok.
      * intros l [?|[? [?|?]%Exists_cons]]; [by left; left|by left; right|by right].
      * intros t l Ht Hl. apply elem_of_union in Ht as [->%elem_of_singleton|Ht]; [by right|left; by eapply Hrec].
    + apply triple_ret. intros o s [HI _]. eapply Inv_less; [|exact HI]. by intros l [?|[? _]].
Qed.

(** What a group may commit for a job: a range from the job's own cell, or one
    cut at a wall whose underside is promised. *)
Definition commit_ok (res : Result) (rng : chunkRange) (wall : option Z) (debt : Z → Prop)
    (job : BackfillJob) : Prop :=
  job_ok job ∧ walkable (job_Backfill job) ∧ cr_from rng = chunkFromFor (job_Backfill job) ∧
  bf_NextTo (job_Backfill job) ≤ cr_to rng ∧
  shares_ok res [job] (default (cr_from rng) wall) (cr_to rng) ∧
  match wall with
  | None => True
  | Some wall => tf job < wall ≤ cr_to rng + 1 ∧ ∀ l, tf job ≤ l < wall → debt l
  end.

Lemma commit_job_triple res rng wall debt job :
  cr_to rng < max_u32 → commit_ok res rng wall debt job →
  triple (Inv debt) (transact w (CommitBackfillChunk net (nextFor rng wall (job_Backfill job))
      (orEmpty (partitionResult res !! ct_ContractID (job_Contract job)))))
    (λ _ o s, Inv debt o s).
Proof.
  intros Hto (Hj & Hwalk & Hfrom & Hnto & [Hch Hcov] & Hwall).
  specialize (Hcov job (list_elem_of_here _ _)).
  destruct (chunkFromFor_spec _ Hwalk) as (Hcell & _ & _). rewrite <- Hfrom in Hcell.
  rewrite partitionResult_share.
  destruct Hj as (cid & b & c & Hb & Hc & Hnd & Ht & Hn & Hk & ->). simpl in *.
  apply Inv_transact. intros n d [] d' d1 Hh Hwf Hdebt HKd Hrun.
  eapply commit_chunk_held with (b := b) (c := c); [|done..|exact Hrun].
  split; [by destruct wall..|done| | | |].
  - destruct wall as [wall|]; simpl; [destruct (Z.leb_spec wall (b_next_to b))|]; usimpl; lia.
  - replace (bf_ContractID _) with cid by (by destruct wall).
    intros l Hl. apply Hcov. destruct wall as [wall|]; simpl in *.
    + destruct (Z.leb_spec wall (b_next_to b)); simpl in Hl; [|lia]. rewrite u32_small in Hl by uarith. lia.
    + rewrite u32_small in Hl by uarith. lia.
  - eapply from_chain_sub; [apply records_of_sub|done].
  - destruct wall as [wall|]; simpl.
    + destruct Hwall as [Hw Hd]. split_and!; [done|lia| |done].
      destruct (Z.leb_spec wall (b_next_to b)); usimpl; lia.
    + rewrite Z.leb_le. intros ?. usimpl. lia.
Qed.

Lemma commitJobs_triple res rng wall debt jobs :
  cr_to rng < max_u32 → Forall (commit_ok res rng wall debt) jobs →
  triple (Inv debt) (commitJobs net w rng wall (partitionResult res) jobs) (λ _ o s, Inv debt o s).
Proof.
  intros Hto Hjobs. induction Hjobs as [|job jobs Hjob Hjobs IH]; simpl; [by apply triple_ret|].
  eapply triple_bind; [by eapply commit_job_triple|]. intros out.
  eapply triple_bind; [apply IH|]. intros n. by apply triple_ret.
Qed.

(** A group: jobs of one cell, under its highest watermark. *)
Definition group_ok (rng : chunkRange) (jobs : list BackfillJob) : Prop :=
  jobs ≠ [] ∧ (cr_to rng < max_u32 ∧ cr_to rng - cr_from rng < backfillChunkSize) ∧
  Forall (λ job, job_ok job ∧ walkable (job_Backfill job) ∧
                 cr_from rng = chunkFromFor (job_Backfill job) ∧
                 bf_NextTo (job_Backfill job) ≤ cr_to rng) jobs.

Lemma group_bounds rng jobs : group_ok rng jobs →
  1 ≤ cr_from rng ≤ cr_to rng ∧ cr_to rng < max_u32 ∧ Forall job_ok jobs ∧
  Forall (λ job, 1 ≤ tf job ≤ cr_from rng) jobs.
Proof.
  intros (Hne & [Hto _] & Hall).
  assert (Hb : Forall (λ job, job_ok job ∧ 1 ≤ tf job ≤ cr_from rng ≤ cr_to rng) jobs).
  { eapply Forall_impl; [exact Hall|]. intros job (Hj & Hw & Hf & Hn). split; [done|].
    pose proof (chunkFromFor_spec _ Hw) as (? & _). destruct Hw. lia. }
  destruct jobs as [|job jobs]; [done|]. split; [|split; [done|]].
  - apply Forall_cons in Hb as [? _]. lia.
  - split; (eapply Forall_impl; [exact Hb|]); simpl; intros ? [? ?]; [done|lia].
Qed.

(** What a read gives: shares of the range for every job, or of the part above a
    wall whose underside has been promised. *)
Definition read_ok (rng : chunkRange) (jobs : list BackfillJob)
    (read : option (Result * option Z * bool)) (o : outside) (s : backfiller) : Prop :=
  match read with
  | None => Inv (λ _, False) o s
  | Some (res, wall, _) => ∃ debt, Inv debt o s ∧ Forall (commit_ok res rng wall debt) jobs
  end.

Lemma group_commit_ok rng jobs res wall debt :
  group_ok rng jobs → shares_ok res jobs (default (cr_from rng) wall) (cr_to rng) →
  match wall with
  | None => True
  | Some wall => cr_from rng < wall ≤ cr_to rng + 1 ∧
                 ∀ l, Exists (λ job, tf job ≤ l < wall) jobs → debt l
  end →
  Forall (commit_ok res rng wall debt) jobs.
Proof.
  intros Hg Hs Hw. destruct (group_bounds _ _ Hg) as (_ & _ & _ & Htf). destruct Hg as (_ & _ & Hall).
  rewrite Forall_forall in Hall, Htf |- *. intros job Hjob. destruct (Hall job Hjob) as (? & ? & ? & ?).
  specialize (Htf job Hjob). split_and!; try done.
  { split; [apply Hs|]. intros j ->%list_elem_of_singleton. by apply Hs. }
  destruct wall as [wall|]; [|done]. destruct Hw as [Hw Hd]. split; [lia|].
  intros l Hl. apply Hd. apply Exists_exists. by exists job.
Qed.

Lemma cache_remember rng cs res s :
  Forall (λ c, Forall known_kind (ct_Kinds c)) cs →
  scan_of passphrase w (StaticSnapshot cs) (cr_from rng) (cr_to rng) res →
  cache_ok (rememberScan rng cs res s).
Proof. intros Hk Hs e [= <-]. by exists cs. Qed.

Lemma jobs_known jobs : Forall job_ok jobs → Forall (λ c, Forall known_kind (ct_Kinds c)) (job_Contract <$> jobs).
Proof.
  intros Hj. apply Forall_fmap. eapply Forall_impl; [exact Hj|].
  by intros job (? & ? & ? & _ & _ & _ & _ & _ & ? & ->).
Qed.

(** The clamped read: the wall, the gaps, then what is above the wall. *)
Lemma clamp_triple fuel rng jobs wall :
  group_ok rng jobs → cr_from rng < wall ≤ cr_to rng + 1 →
  triple (Inv (λ _, False))
    (recorded <-w recordGaps net w wall ∅ jobs ;
     match recorded with
     | Err _ => w_ret None
     | Ok _ =>
         if wall <=? cr_to rng then
           answer <-w scan passphrase w fuel (StaticSnapshot (job_Contract <$> jobs)) wall (cr_to rng) ;
           match answer with
           | Err _ => w_ret None
           | Ok res => w_ret (Some (res, Some wall, false))
           end
         else w_ret (Some (no_result, Some wall, false))
     end) (read_ok rng jobs).
Proof.
  intros Hg Hw. destruct (group_bounds _ _ Hg) as (Hr & Hto & Hjobs & Htf).
  set (debt := λ l, Exists (λ job, tf job ≤ l < wall) jobs).
  eapply triple_bind.
  { apply (recordGaps_triple wall ∅ jobs (λ _, False)); [uarith| |by intros t l ?%not_elem_of_empty].
    eapply Forall_impl; [exact Htf|]. simpl. lia. }
  intros [[]|e].
  2: { apply triple_ret. intros o s. apply Inv_less. by left. }
  eapply (triple_conseq _ _ (Inv debt)); [|done|].
  { intros o s. apply Inv_less. intros l Hl. right. by split. }
  apply triple_if; intros Hle.
  - apply Z.leb_le in Hle. eapply triple_bind; [apply (scan_triple passphrase w (P := Inv debt)); by intros|].
    intros [res|e].
    + apply triple_ret. intros o s [HI Hs]. exists debt. split; [done|].
      apply group_commit_ok; [done| |by split].
      apply (scanned_shares jobs [] wall (cr_to rng)); [done|constructor|uarith|lia|].
      rewrite fmap_nil, app_nil_r. by apply Hs.
    + apply triple_ret. intros o s [HI _]. eapply Inv_less; [|exact HI]. done.
  - apply Z.leb_gt in Hle. apply triple_ret. intros o s HI. exists debt. split; [done|].
    apply group_commit_ok; [done| |by split].
    split; [split_and!; by intros x ?%elem_of_nil|]. intros job Hjob c l Hl. simpl in Hl. lia.
Qed.

Lemma readGroup_triple fuel rng jobs ahead :
  group_ok rng jobs → Forall job_ok ahead →
  triple (Inv (λ _, False)) (readGroup net passphrase w fuel rng jobs ahead) (read_ok rng jobs).
Proof.
  intros Hg Hahead. destruct (group_bounds _ _ Hg) as (Hr & Hto & Hjobs & Htf).
  unfold readGroup. eapply triple_bind.
  { apply (triple_get _ (λ b o s, b = s ∧ Inv (λ _, False) o s)). by intros. }
  intros b. destruct (cachedScan b rng (job_Contract <$> jobs)) as [res|] eqn:Hcache.
  { apply triple_ret. intros o s [-> HI]. exists (λ _, False). split; [done|].
    apply group_commit_ok; [done| |done]. simpl. eapply cached_shares; [apply HI|done|uarith|done|done]. }
  eapply (triple_conseq _ _ (Inv (λ _, False))); [by intros ?? [_ ?]|done|].
  eapply triple_bind; [apply (scan_triple passphrase w (P := Inv (λ _, False))); by intros|].
  intros [res|e].
  - eapply triple_bind.
    { apply (triple_modify _ _ (λ _ o s, Inv (λ _, False) o s ∧ shares_ok res jobs (cr_from rng) (cr_to rng))).
      intros o s [(Hh & Hwf & Hc & Hd & HKd) Hs]. split; [split_and!; try done|].
      - apply cache_remember; [|by apply Hs]. by apply Forall_app; split; apply jobs_known.
      - apply (scanned_shares jobs ahead); [done|done|uarith|done|by apply Hs]. }
    intros []. apply triple_ret. intros o s [HI Hs]. exists (λ _, False). split; [done|].
    by apply group_commit_ok.
  - assert (Hrest : triple (Inv (λ _, False)) (_ <-w cancelled w ; w_ret None) (read_ok rng jobs)).
    { eapply (triple_bind _ _ _ (λ _, Inv (λ _, False))); [by apply triple_ask|]. intros ?. by apply triple_ret. }
    eapply (triple_conseq _ _ (Inv (λ _, False))); [by intros ?? [? _]|done|].
    destruct e; try exact Hrest.
    eapply triple_bind.
    { apply (findWall_triple w (P := Inv (λ _, False)) fuel); [by intros| |done]. usimpl. lia. }
    intros [wall|e]; [|by apply triple_ret; intros o s [? _]].
    destruct (decide (cr_from rng < wall ≤ cr_to rng + 1)) as [Hw|Hw].
    + eapply triple_conseq; [|done|by apply clamp_triple]. by intros o s [? _].
    + intros o s [_ Hwall]. specialize (Hwall wall eq_refl). rewrite u32_small in Hwall by uarith. lia.
Qed.

Lemma processGroup_triple fuel rng jobs ahead :
  group_ok rng jobs → Forall job_ok ahead →
  triple (Inv (λ _, False)) (processGroup net passphrase w fuel rng jobs ahead)
    (λ _, Inv (λ _, False)).
Proof.
  intros Hg Ha. unfold processGroup. eapply triple_bind; [by apply readGroup_triple|].
  intros [[[res wall] cached]|]; [|by apply triple_ret].
  intros o s (debt & HI & Hok). revert o s HI. change (triple (Inv debt)
    (committed <-w commitJobs net w rng wall (partitionResult res) (order_by job_ltb jobs) ;
     if committed =? 0 then w_ret false
     else (if negb cached then w_modify (inc_chunk (scanned rng wall) res) else w_ret tt) ;;w w_ret true)
    (λ _, Inv (λ _, False))).
  eapply triple_bind.
  { apply (commitJobs_triple res rng wall debt); [apply Hg|]. by rewrite order_by_perm. }
  intros n. apply (triple_conseq _ _ (Inv (λ _, False)) _ (λ _, Inv (λ _, False))); [|done|].
  { intros o s. by apply Inv_less. }
  apply triple_if; intros _; [by apply triple_ret|].
  eapply (triple_bind _ _ _ (λ _, Inv (λ _, False))); [|intros []; by apply triple_ret].
  apply triple_if; intros _; [by apply triple_modify|by apply triple_ret].
Qed.

(** *** Grouping *)

Definition top_of (g : grouping) (from : Z) : Z := default 0 (gr_tops g !! from).

Definition grouping_ok (g : grouping) : Prop :=
  (∀ from jobs, gr_groups g !! from = Some jobs → group_ok (mkChunkRange from (top_of g from)) jobs) ∧
  (∀ from, from ∈ gr_order g → is_Some (gr_groups g !! from)) ∧
  ∀ from, top_of g from < max_u32 ∧ (gr_groups g !! from = None → top_of g from = 0).

Lemma add_job_ok job g :
  job_ok job → walkable (job_Backfill job) → grouping_ok g → grouping_ok (add_job job g).
Proof.
  intros Hj Hw (Hg & Ho & Ht). unfold add_job. set (from := chunkFromFor (job_Backfill job)).
  split; [|split]; simpl.
  - intros f jobs. unfold top_of. simpl. destruct (decide (f = from)) as [->|Hne].
    + rewrite !lookup_insert_eq. intros [= <-]. fold (top_of g from). simpl default. rewrite max32_max.
      split; [by intros [_ ?]%app_eq_nil|]. simpl. specialize (Ht from) as [Ht Ht0].
      pose proof (chunkFromFor_spec _ Hw) as (Hch & Hcell & _). fold from in Hch, Hcell.
      split.
      { split; [destruct Hw; lia|]. destruct (gr_groups g !! from) as [l|] eqn:E.
        - destruct (Hg from l E) as (_ & [_ ?] & _). simpl in *. lia.
        - rewrite Ht0 by done. destruct Hw. lia. }
      apply Forall_app. split; [|repeat constructor; simpl; try done; [apply Hw..|lia]].
      destruct (gr_groups g !! from) as [l|] eqn:E; [|constructor]. simpl.
      destruct (Hg from l E) as (_ & _ & Hall). eapply Forall_impl; [exact Hall|].
      intros j (? & ? & ? & ?). simpl in *. split_and!; try done. lia.
    + rewrite !lookup_insert_ne by done. apply Hg.
  - intros f Hf. destruct (decide (f = from)) as [->|Hne]; [by rewrite lookup_insert_eq|].
    rewrite lookup_insert_ne by done. apply Ho. destruct (gr_groups g !! from); [done|].
    apply elem_of_app in Hf as [?|Hf]; [done|]. by apply list_elem_of_singleton in Hf.
  - intros f. unfold top_of. simpl. destruct (decide (f = from)) as [->|Hne].
    + rewrite !lookup_insert_eq. simpl. fold (top_of g from). rewrite max32_max.
      specialize (Ht from). destruct Hw. split; [lia|done].
    + rewrite !lookup_insert_ne by done. apply Ht.
Qed.

Lemma close_triple job :
  job_ok job → bf_NextTo (job_Backfill job) < bf_TargetFrom (job_Backfill job) →
  triple (Inv (λ _, False)) (transact w (CommitBackfillChunk net (closing (job_Backfill job)) no_records))
    (λ _ o s, Inv (λ _, False) o s).
Proof.
  intros Hj Hlt. apply (Inv_transact (λ _, False)). intros n d [] d' d1 Hh Hwf Hdebt HKd Hrun.
  destruct Hj as (cid & b & c & Hb & Hc & Hnd & Ht & Hn & Hk & ->). simpl in Hlt.
  eapply commit_chunk_held with (b := b) (c := c); [|done..|exact Hrun].
  split; simpl; try done; [lia| |split_and!; by intros x ?%elem_of_nil]. intros l Hl. lia.
Qed.

Lemma groupJobs_triple jobs g :
  Forall job_ok jobs → grouping_ok g →
  triple (Inv (λ _, False)) (groupJobs net w jobs g)
    (λ g' o s, Inv (λ _, False) o s ∧ grouping_ok g').
Proof.
  intros Hjobs. revert g. induction Hjobs as [|job jobs Hj Hjobs IH]; intros g Hg; simpl.
  { by apply triple_ret. }
  apply triple_if; intros Hlt.
  - eapply triple_bind; [apply (close_triple job Hj); by apply Z.ltb_lt|].
    intros out. apply IH. destruct out; [|done]. exact Hg.
  - apply IH. apply Z.ltb_ge in Hlt. apply add_job_ok; [done| |done].
    destruct Hj as (cid & b & c & _ & _ & _ & Ht & Hn & _ & ->). simpl in *. split; simpl; lia.
Qed.

Lemma runGroups_triple fuel g order worked :
  grouping_ok g → Forall (λ from, from ∈ gr_order g) order →
  triple (Inv (λ _, False)) (runGroups net passphrase w fuel g order worked) (λ _, Inv (λ _, False)).
Proof.
  intros Hg Hord. revert worked. induction Hord as [|from order Hfrom Hord IH]; intros worked; simpl.
  { by apply triple_ret. }
  eapply (triple_bind _ _ _ (λ _, Inv (λ _, False))); [by apply triple_ask|]. intros dead.
  apply triple_if; intros _; [by apply triple_ret|]. eapply triple_bind; [|intros done_; apply IH].
  destruct Hg as (Hgr & Ho & Ht). destruct (Ho from Hfrom) as [jobs Hl]. rewrite Hl. simpl.
  apply processGroup_triple; [by apply Hgr|].
  destruct (gr_groups g !! u32 (from + backfillChunkSize)) as [ahead|] eqn:Ha; [|constructor]. simpl.
  destruct (Hgr _ _ Ha) as (_ & _ & Hall). eapply Forall_impl; [exact Hall|]. by intros ? [? _].
Qed.

(** The pending jobs are rows of the database the round started from. *)
Lemma pending_job_ok job d :
  walks_wf d0 → db_backfill d = db_backfill d0 → db_contracts d = db_contracts d0 →
  job ∈ (sort_by fst (pending_jobs net d)).*2 → job_ok job.
Proof.
  intros [Hkn Hwf] Hb Hc Hin. apply list_elem_of_fmap in Hin as ([u j] & -> & Hin). simpl.
  apply elem_of_sort_by in Hin. unfold pending_jobs in Hin.
  apply list_elem_of_omap in Hin as ([[n cid] b] & Hrow & Hj).
  apply elem_of_sel in Hrow as [Hrow Hcond]. simpl in Hcond.
  apply andb_true_iff in Hcond as [Hn Hnd]. apply bool_decide_eq_true in Hn as ->.
  apply negb_true_iff in Hnd. rewrite Hb in Hrow. simpl in Hj. rewrite Hc in Hj.
  destruct (db_contracts d0 !! (net, cid)) as [c|] eqn:Hcc; [|done]. injection Hj as <- <-.
  destruct (Hwf cid b Hrow Hnd) as [Ht Hx]. exists cid, b, c.
  do 5 (split; [done|]). split; [by eapply Hkn|]. rewrite Hnd.
  rewrite (u32_small (b_target_from b)) by uarith. by rewrite (u32_small (b_next_to b)) by uarith.
Qed.

Lemma grouping_empty : grouping_ok (mkGrouping ∅ ∅ [] false).
Proof.
  split; [intros f l E; simpl in E; by rewrite lookup_empty in E|].
  split; [by intros f Hf%elem_of_nil|]. intros f. unfold top_of. simpl. rewrite lookup_empty.
  simpl. split; [uarith|done].
Qed.

Lemma round_list_triple :
  walks_wf d0 →
  triple (λ o s, Inv (λ _, False) o s ∧ o_db o = d0) (transact w (ListPendingBackfills net))
    (λ out o s, Inv (λ _, False) o s ∧ ∀ jobs, out = Ok jobs → Forall job_ok jobs).
Proof.
  intros Hwf. apply triple_transact. intros n d s [HI Hd0] d1. simpl in Hd0. subst d.
  pose proof (Inv_others _ _ _ _ HI) as HI'. fold d1 in HI'. split; [by split|].
  intros jobs d' Hrun. simpl in Hrun. injection Hrun as <- <-.
  split; [split; [done|]|by split]. intros jobs [= <-]. apply Forall_forall. intros job Hjob.
  destruct (Hby n d0) as (? & ? & _). by eapply pending_job_ok.
Qed.

Lemma round_triple fuel :
  walks_wf d0 →
  triple (λ o s, Inv (λ _, False) o s ∧ o_db o = d0) (round net passphrase w fuel)
    (λ _, Inv (λ _, False)).
Proof.
  intros Hwf. unfold round. eapply triple_bind; [by apply round_list_triple|].
  intros [jobs|e].
  - intros o s [HI Hj]. specialize (Hj jobs eq_refl). revert o s HI.
    change (triple (Inv (λ _, False)) (g <-w groupJobs net w jobs (mkGrouping ∅ ∅ [] false) ;
      runGroups net passphrase w fuel g (sort_by_desc id (gr_order g)) (gr_worked g)) (λ _, Inv (λ _, False))).
    eapply triple_bind; [apply groupJobs_triple; [done|apply grouping_empty]|].
    intros g o s [HI Hg]. apply runGroups_triple; [done| |done].
    apply Forall_forall. intros from. by rewrite elem_of_sort_by_desc.
  - eapply (triple_conseq _ _ (Inv (λ _, False)) _ (λ _, Inv (λ _, False))); [by intros ?? [? _]|done|].
    eapply (triple_bind _ _ _ (λ _, Inv (λ _, False))); [by apply triple_ask|]. intros ?. by apply triple_ret.
Qed.
End honest.

Lemma walks_wf_held `{S : SDK} `{!SDKChanges} net pass chain d d' :
  walks_wf net d → held net pass chain d d' → walks_wf net d'.
Proof.
  intros [Hk Hw] [C _ _ _ B]. split; [intros k c; rewrite C; apply Hk|].
  intros cid b' Hb' Hnd. specialize (B (net, cid)). rewrite Hb' in B.
  destruct (db_backfill d !! (net, cid)) as [b|] eqn:Hb; [|done].
  destruct B as [->|(_ & c & _ & [Ho Ht _ Hn _ _])]; [by eapply Hw|].
  destruct (Hw cid b Hb Ho). rewrite Ht. split; [done|lia].
Qed.

Lemma respected_any `{S : SDK} `{!SDKChanges} net pass w chain : respected net pass w chain (λ _, True).
Proof. done. Qed.

Lemma Run_triple `{S : SDK} `{!SDKChanges} `{!LedgerHeaders} net pass w chain K fuel rounds d s n a o' s' :
  bystanders net w → genuine w chain → respected net pass w chain K →
  walks_wf net d → gaps_wf (db_gaps d) → cache_ok pass w s → K d →
  Run net pass w fuel rounds (mkOutside n d) s = Some (a, o', s') →
  held net pass chain d (o_db o') ∧ gaps_wf (db_gaps (o_db o')) ∧ cache_ok pass w s' ∧ K (o_db o').
Proof.
  intros Hby Hgen HK. revert n d s. induction rounds as [|rounds IH]; intros n d s Hwf Hg Hc HKd; simpl.
  { by intros [= _ <- <-]. }
  unfold w_bind at 1. pose proof (round_triple net pass w chain Hby K HK d Hgen fuel Hwf (mkOutside n d) s) as Hr.
  destruct (round net pass w fuel (mkOutside n d) s) as [[[worked [n1 d1]] s1]|]; [|done].
  destruct Hr as (Hh & Hg1 & Hc1 & _ & HK1); [by split_and!|]. simpl in *.
  assert (Hwf1 : walks_wf net d1) by (by eapply walks_wf_held).
  unfold w_bind, cancelled, ask. simpl.
  assert (Hend : ∀ m s2, cache_ok pass w s2 → Run net pass w fuel rounds (mkOutside m d1) s2 = Some (a, o', s') →
    held net pass chain d (o_db o') ∧ gaps_wf (db_gaps (o_db o')) ∧ cache_ok pass w s' ∧ K (o_db o')).
  { intros m s2 Hc2 Hrun. destruct (IH m d1 s2 Hwf1 Hg1 Hc2 HK1 Hrun) as (Hh2 & ?).
    split; [by transitivity d1|done]. }
  destruct (w_cancelled w n1); [by intros [= _ <- <-]|]. destruct worked; [by apply Hend|].
  simpl. destruct (w_slept w _); [by apply Hend|by intros [= _ <- <-]].
Qed.

(** *** Every round returns *)

Definition returns {St A} (P : outside → St → Prop) (m : Work St A) : Prop :=
  ∀ o s, P o s → is_Some (m o s).

Lemma returns_bind {St A B} (m : Work St A) (f : A → Work St B) P R :
  returns P m → triple P m R → (∀ a, returns (R a) (f a)) → returns P (w_bind m f).
Proof.
  intros Hm Ht Hf o s HP. unfold w_bind. specialize (Ht o s HP).
  destruct (Hm o s HP) as [[[a o'] s'] Heq]. rewrite Heq in *. by apply Hf.
Qed.

Lemma returns_bind_any {St A B} (m : Work St A) (f : A → Work St B) P :
  returns P m → (∀ a, returns (λ _ _, True) (f a)) → returns P (w_bind m f).
Proof.
  intros Hm Hf. eapply (returns_bind _ _ _ (λ _ _ _, True)); [done| |done].
  intros o s _. by destruct (m o s) as [[[? ?] ?]|].
Qed.

Lemma returns_if {St A} (b : bool) (m1 m2 : Work St A) P :
  (b = true → returns P m1) → (b = false → returns P m2) → returns P (if b then m1 else m2).
Proof. destruct b; auto. Qed.

Lemma returns_weaken {St A} (m : Work St A) (P P' : outside → St → Prop) :
  (∀ o s, P o s → P' o s) → returns P' m → returns P m.
Proof. intros HP Hm o s Ho. by apply Hm, HP. Qed.

Section returns.
Context `{S : SDK} `{!SDKChanges} `{!LedgerHeaders} (net passphrase : string) (w : world).

(** The source makes progress: a batch is neither empty nor longer than asked
    (the RPC answers an empty window with an error and caps the pagination). *)
Definition progresses : Prop := ∀ n start limit ls,
  w_batch w n start limit = Ok ls → 1 ≤ limit → 1 ≤ Z.of_nat (length ls) ≤ limit.

Lemma returns_ret {A} P (a : A) : returns P (w_ret (St := backfiller) a).
Proof. by intros o s _. Qed.
Lemma returns_transact {A} P (t : Tx A) : returns P (transact (St := backfiller) w t).
Proof. intros o s _. unfold transact. by destruct (BeginFunc _ _ _ _). Qed.
Lemma returns_ask {A} P (f : nat → A) : returns P (ask (St := backfiller) f).
Proof. by intros o s _. Qed.
Lemma returns_modify P (f : backfiller → backfiller) : returns P (w_modify f).
Proof. by intros o s _. Qed.

Hint Resolve returns_ret returns_transact returns_ask returns_modify : core.

Lemma scanBatch_end snap batch seq h acc seq' h' acc' :
  scanBatch passphrase snap batch seq h acc = Ok (seq', h', acc') →
  0 ≤ seq → seq + Z.of_nat (length batch) ≤ max_u32 → seq' = seq + Z.of_nat (length batch).
Proof.
  revert seq h acc. induction batch as [|lcm batch IH]; intros seq h acc; simpl; [intros [= <- _ _]; lia|].
  destruct (negb _); [done|]. destruct (_ && _); [done|]. destruct (Events _ _ _); [|done].
  intros Hs Hlo Hhi. rewrite u32_small in Hs by uarith. apply IH in Hs; lia.
Qed.

Lemma scan_returns fuel snap from to :
  progresses → 0 ≤ from → to < max_u32 → to - from < Z.of_nat fuel →
  returns (λ _ _, True) (scan passphrase w fuel snap from to).
Proof.
  intros Hp. unfold scan. generalize "" no_result. revert from. induction fuel as [|fuel IH];
    intros from h acc Hf Hto Hfuel; simpl.
  - destruct (Z.leb_spec from to); [lia|]. simpl. auto.
  - destruct (Z.leb_spec from to) as [Hle|]; simpl; [|auto].
    intros o s _. unfold w_bind, GetLedgerBatch, ask. cbn [o_calls o_db].
    set (limit := Z.min (u32 (to - from) + 1) backfillBatchLimit).
    destruct (w_batch w (o_calls o) from limit) as [ls|e] eqn:Hb; [|done].
    destruct (scanBatch passphrase snap ls from h acc) as [[[seq' h'] acc']|e] eqn:Hs; [|done].
    unfold limit, backfillBatchLimit in *. rewrite u32_small in Hb by uarith.
    pose proof (Hp _ _ _ _ Hb ltac:(lia)) as Hlen.
    apply scanBatch_end in Hs; [|lia..]. apply IH; [lia..|done].
Qed.

Lemma findWall_returns fuel lo hi :
  0 ≤ lo → hi < max_u32 → hi - lo < Z.of_nat fuel →
  returns (λ _ _, True) (findWall w fuel lo hi).
Proof.
  revert lo hi. induction fuel as [|fuel IH]; intros lo hi Hlo Hhi Hf; simpl.
  - destruct (Z.leb_spec lo hi); [lia|]. simpl. auto.
  - destruct (Z.leb_spec lo hi) as [Hle|]; simpl; [|auto].
    pose proof (Z.div_pos (hi - lo) 2). pose proof (Z.div_le_upper_bound (hi - lo) 2 (hi - lo)).
    assert (Hmid : u32 (lo + u32 (hi - lo) / 2) = lo + (hi - lo) / 2).
    { rewrite (u32_small (hi - lo)) by uarith. apply u32_small. uarith. }
    rewrite Hmid. set (mid := lo + (hi - lo) / 2) in *.
    assert (Hlt : hi ≠ lo → mid < hi).
    { intros Hne. pose proof (Z.div_lt (hi - lo) 2). lia. }
    apply returns_bind_any; [apply returns_ask|].
    intros [ls|e]; [apply returns_if; intros Hm; [auto|]|destruct e; auto; apply returns_if; intros Hm; [auto|]].
    + apply Z.eqb_neq in Hm. apply IH; lia.
    + apply Z.eqb_neq in Hm. rewrite u32_small by uarith. apply IH; lia.
Qed.

Lemma recordGaps_returns wall (recorded : gset Z) jobs :
  returns (λ _ _, True) (recordGaps net w wall recorded jobs).
Proof.
  revert recorded. induction jobs as [|job jobs IH]; intros recorded; simpl; [auto|].
  case_decide; [done|]. apply returns_bind_any; [apply returns_transact|]. intros [[]|e]; auto.
Qed.

Lemma commitJobs_returns rng wall parts jobs :
  returns (λ _ _, True) (commitJobs net w rng wall parts jobs).
Proof.
  induction jobs as [|job jobs IH]; simpl; [auto|].
  apply returns_bind_any; [apply returns_transact|]. intros out. by apply returns_bind_any; auto.
Qed.

Context (Hp : progresses) (fuel : nat) (Hfuel : backfillChunkSize ≤ Z.of_nat fuel).

Lemma processGroup_returns rng jobs ahead :
  1 ≤ cr_from rng ≤ cr_to rng → cr_to rng < max_u32 → cr_to rng - cr_from rng < backfillChunkSize →
  returns (λ _ _, True) (processGroup net passphrase w fuel rng jobs ahead).
Proof.
  intros Hr Hto Hsz. unfold processGroup. apply returns_bind_any.
  2: { intros [[[res wall] cached]|]; [|apply returns_ret].
       apply returns_bind_any; [apply commitJobs_returns|]. intros n.
       apply returns_if; intros _; [apply returns_ret|].
       apply returns_bind_any; [by destruct cached; intros o s _|]. intros ?. apply returns_ret. }
  unfold readGroup. apply returns_bind_any; [by intros o s _|]. intros b.
  destruct (cachedScan _ _ _); [apply returns_ret|].
  apply returns_bind_any; [apply scan_returns; [done|lia|done|lia]|].
  intros [res|e]; [apply returns_bind_any; [apply returns_modify|intros ?; apply returns_ret]|].
  assert (Hrest : returns (λ _ _, True) (_ <-w cancelled (St := backfiller) w ; w_ret (None : option (Result * option Z * bool)))).
  { apply returns_bind_any; [apply returns_ask|]. intros ?. apply returns_ret. }
  destruct e; try exact Hrest; [apply returns_ret|].
  eapply returns_bind.
  - apply findWall_returns; [rewrite u32_small by uarith; lia|done|]. usimpl. lia.
  - apply (findWall_triple w (P := λ _ _, True) fuel); [done| |done]. usimpl. lia.
  - intros [wall|e]; [|apply returns_ret]. intros o s [_ Hw]. specialize (Hw wall eq_refl).
    rewrite u32_small in Hw by uarith. revert o s. cut (returns (λ _ _, True)
      (recorded <-w recordGaps net w wall ∅ jobs ;
       match recorded with
       | Err _ => w_ret None
       | Ok _ =>
           if wall <=? cr_to rng then
             answer <-w scan passphrase w fuel (StaticSnapshot (job_Contract <$> jobs)) wall (cr_to rng) ;
             match answer with
             | Err _ => w_ret None
             | Ok res => w_ret (Some (res, Some wall, false))
             end
           else w_ret (Some (no_result, Some wall, false))
       end)); [intros Hret o s; by apply Hret|].
    apply returns_bind_any; [apply recordGaps_returns|]. intros [[]|e]; [|apply returns_ret].
    apply returns_if; intros _; [|apply returns_ret].
    apply returns_bind_any; [apply scan_returns; [done|lia..]|]. intros [?|?]; apply returns_ret.
Qed.

Lemma runGroups_returns d0 g order worked :
  grouping_ok net d0 g → Forall (λ from, from ∈ gr_order g) order →
  returns (λ _ _, True) (runGroups net passphrase w fuel g order worked).
Proof.
  intros Hg Hord. revert worked. induction Hord as [|from order Hfrom Hord IH]; intros worked; simpl.
  { apply returns_ret. }
  apply returns_bind_any; [apply returns_ask|]. intros dead.
  apply returns_if; intros _; [apply returns_ret|]. apply returns_bind_any; [|intros ?; apply IH].
  destruct Hg as (Hgr & Ho & Ht). destruct (Ho from Hfrom) as [jobs Hl]. rewrite Hl. simpl.
  specialize (Hgr _ _ Hl). destruct (group_bounds _ _ _ _ Hgr) as (? & ? & _).
  apply processGroup_returns; [done|done|]. by destruct Hgr as (_ & [_ ?] & _).
Qed.

Lemma groupJobs_returns jobs g : returns (λ _ _, True) (groupJobs net w jobs g).
Proof.
  revert g. induction jobs as [|job jobs IH]; intros g; simpl; [apply returns_ret|].
  apply returns_if; intros _; [|apply IH].
  apply returns_bind_any; [apply returns_transact|]. intros out. apply IH.
Qed.

(** A round ends, on whatever the world answers. *)
Lemma round_returns chain n d s :
  bystanders net w → genuine w chain → walks_wf net d → gaps_wf (db_gaps d) → cache_ok passphrase w s →
  is_Some (round net passphrase w fuel (mkOutside n d) s).
Proof.
  intros Hby Hgen Hwf Hg Hc.
  pose proof (respected_any net passphrase w chain) as HK.
  assert (HI : Inv net passphrase w chain (λ _, True) d (λ _, False) (mkOutside n d) s)
    by (by split_and!).
  unfold round, w_bind at 1.
  destruct (transact w (ListPendingBackfills net) (mkOutside n d) s) as [[[out [n1 d1]] s1]|] eqn:Ht.
  2: { unfold transact in Ht. by destruct (BeginFunc _ _ _ _). }
  destruct out as [jobs|e]; [|done].
  assert (Hj : Forall (job_ok net d) jobs ∧ Inv net passphrase w chain (λ _, True) d (λ _, False) (mkOutside n1 d1) s1).
  { pose proof (round_list_triple net passphrase w chain Hby _ HK d Hwf (mkOutside n d) s) as Hl.
    rewrite Ht in Hl. destruct Hl as [? Hl]; [done|]. split; [by apply Hl|done]. }
  destruct Hj as [Hj HI1]. unfold w_bind at 1.
  pose proof (groupJobs_triple net passphrase w chain Hby _ HK d jobs (mkGrouping ∅ ∅ [] false) Hj
                (grouping_empty _ _) (mkOutside n1 d1) s1 HI1) as Hgj.
  destruct (groupJobs_returns jobs (mkGrouping ∅ ∅ [] false) (mkOutside n1 d1) s1 I) as [[[g o2] s2] Heq].
  rewrite Heq in *. destruct Hgj as [_ Hgo]. eapply (runGroups_returns d); [exact Hgo| |done].
  apply Forall_forall. intros from. by rewrite elem_of_sort_by_desc.
Qed.
End returns.

Lemma Run_returns `{S : SDK} `{!SDKChanges} `{!LedgerHeaders} net pass w chain fuel rounds d s n :
  bystanders net w → genuine w chain → progresses w → backfillChunkSize ≤ Z.of_nat fuel →
  walks_wf net d → gaps_wf (db_gaps d) → cache_ok pass w s →
  is_Some (Run net pass w fuel rounds (mkOutside n d) s).
Proof.
  intros Hby Hgen Hp Hf. revert n d s. induction rounds as [|rounds IH]; intros n d s Hwf Hg Hc; [done|].
  simpl Run. unfold w_bind at 1.
  destruct (round_returns net pass w Hp fuel Hf chain n d s) as [[[worked [n1 d1]] s1] Hr]; [done..|].
  rewrite Hr. pose proof (round_triple net pass w chain Hby _ (respected_any net pass w chain) d Hgen fuel Hwf (mkOutside n d) s) as Ht.
  rewrite Hr in Ht. destruct Ht as (Hh & Hg1 & Hc1 & _); [by split_and!|]. simpl in *.
  assert (Hwf1 : walks_wf net d1) by (by eapply walks_wf_held).
  unfold w_bind, cancelled, ask. simpl. destruct (w_cancelled w n1); [done|].
  destruct worked; [by apply IH|]. simpl. destruct (w_slept w _); [by apply IH|done].
Qed.

(** ** Properties *)

(** C14.  The backfiller never claims history it did not derive.  While the live
    loop goes on, and whatever fails (the source, the server, lost
    acknowledgements), every round ends, and after any number of rounds every
    walk's watermark has descended only over ledgers whose records of that
    contract, under its registered kinds, are stored (read for it alone, with a
    group, or from the cache of an earlier scan); a walk is done only below its
    target, or at a retention wall with every ledger underneath promised by an
    open gap; and no stored record, promise or registration was lost. *)
Theorem Run_honest `{S : SDK} `{!SDKChanges} `{!LedgerHeaders} (net passphrase : string) (w : world)
    (chain : Z → LedgerCloseMeta) (fuel rounds n : nat) (d : db) (s : backfiller) :
  bystanders net w → genuine w chain → progresses w → backfillChunkSize ≤ Z.of_nat fuel →
  walks_wf net d → gaps_wf (db_gaps d) → cache_ok passphrase w s →
  ∃ o' s', Run net passphrase w fuel rounds (mkOutside n d) s = Some (tt, o', s') ∧
    held net passphrase chain d (o_db o') ∧ gaps_wf (db_gaps (o_db o')) ∧ cache_ok passphrase w s'.
Proof.
  intros Hby Hgen Hp Hf Hwf Hg Hc.
  destruct (Run_returns net passphrase w chain fuel rounds d s n) as [[[[] o'] s'] Hr]; [done..|].
  exists o', s'. split; [done|].
  destruct (Run_triple net passphrase w chain (λ _, True) fuel rounds d s n tt o' s') as (? & ? & ? & _);
    auto using respected_any.
Qed.

(** A scan trusts nothing: from any source whose answers are neither empty
    nor longer than asked, it ends, touches no state, and if it succeeds its
    result is the extraction of a run of ledgers that starts at [from], reaches
    past [to], counts up by one and is linked by the headers' hashes. *)
Theorem scan_verified `{S : SDK} `{!SDKChanges} `{!LedgerHeaders} (passphrase : string) (w : world)
    (fuel : nat) (snap : Snapshot) (from to : Z) (o : outside) (s : backfiller) :
  progresses w → 0 ≤ from → to < max_u32 → to - from < Z.of_nat fuel →
  ∃ out n, scan passphrase w fuel snap from to o s = Some (out, mkOutside n (o_db o), s) ∧
    ∀ r, out = Ok r → ∃ lcms, linked_from from "" lcms ∧ to < end_seq from lcms ∧
      extracted passphrase snap lcms r.
Proof.
  intros Hp Hf Ht Hfuel.
  destruct (scan_returns passphrase w fuel snap from to Hp Hf Ht Hfuel o s I) as [[[out [n d]] s'] Hr].
  pose proof (scan_triple passphrase w (P := λ o' s', o_db o' = o_db o ∧ s' = s) fuel snap from to) as Hs.
  specialize (Hs (λ _ _ _ H, H) o s (conj eq_refl eq_refl)). rewrite Hr in *.
  destruct Hs as [[Hd ->] Hs]. simpl in Hd. subst d. exists out, n. split; [done|].
  intros r Hout. destruct (Hs r Hout) as (lcms & h & (Hl & _ & _ & Hx & _) & Hend). by exists lcms.
Qed.

(** The search for the retention wall finds it: when the source serves
    exactly the ledgers from [oldest] on, at most 33 single-ledger requests
    answer the oldest ledger served within the range, or the one just above the
    range when none is. *)
Theorem findWall_correct `{S : SDK} (w : world) (oldest tip lo hi : Z) (o : outside) (s : backfiller) :
  walled w oldest tip → hi ≤ tip → 0 ≤ lo ≤ hi + 1 → hi < max_u32 →
  ∃ n, (n ≤ o_calls o + 33)%nat ∧
    findWall w 33 lo hi o s = Some (Ok (Z.max lo (Z.min oldest (hi + 1))), mkOutside n (o_db o), s).
Proof.
  intros Hw Htip Hlo Hhi. destruct (findWall_finds w oldest tip 32 33 lo hi o s Hw Htip Hlo Hhi) as (n & Hn & Hf).
  - change (2 ^ Z.of_nat 32) with 4294967296. uarith.
  - lia.
  - exists n. split; [lia|done].
Qed.

(** The guarantee needs the registrations to stand still: when a
    re-registration adds a kind between a round's listing and its commit, the
    commit of the stale chunk moves the reopened walk down to the chunk's floor
    and the row then vouches for the new kind at every ledger above, none of
    which was walked for it; if the floor is the old target the walk is even
    marked done, whatever older history the registration asked for. *)
Theorem stale_chunk_covers_new_kind (net cid kind : string) (b : backfill_row) (targetFrom nextTo : Z)
    (kinds : list string) (now1 now2 : Z) (rng : chunkRange) (share : Records) (d : db) (t : tables) :
  db_backfill d !! (net, cid) = Some b → is_u32 (b_target_from b) → is_u32 (b_next_to b) →
  kind ∈ kinds → kind ∉ b_covered_kinds b → add_records net share (get_tables d) = Ok t →
  1 ≤ cr_from rng ≤ max_u32 →
  let job := mkBackfill cid (b_target_from b) (b_next_to b) false None [] in
  ∃ d1 d2 b2,
    run now1 (EnsureBackfill net cid targetFrom nextTo kinds) d = Ok (tt, d1) ∧
    run now2 (CommitBackfillChunk net (nextFor rng None job) share) d1 = Ok (tt, d2) ∧
    db_backfill d2 !! (net, cid) = Some b2 ∧ b_target_from b2 = Z.min targetFrom (b_target_from b) ∧
    (∀ l, cr_from rng ≤ l → vouches b2 kind l) ∧
    (cr_from rng ≤ b_target_from b → b_done b2 = true).
Proof.
  intros Hb Ht Hn Hk Hnk Hadd Hr job.
  eexists _, _, _. split; [by apply (run_EnsureBackfill_old net cid targetFrom nextTo kinds now1 d b Hb Ht Hn)|].
  assert (Hnf : ¬ Forall (λ k, k ∈ b_covered_kinds b) kinds).
  { rewrite Forall_forall. intros Hall. by apply Hnk, Hall. }
  rewrite decide_False by tauto. split.
  - rewrite run_CommitBackfillChunk. simpl bf_ContractID.
    replace (get_tables (set_backfill _ _)) with (get_tables d)
      by (unfold reopened; destruct (nextTo <? targetFrom); by destruct d).
    rewrite Hadd, db_backfill_set_backfill, lookup_insert_eq. reflexivity.
  - unfold put_tables. simpl db_backfill. rewrite db_backfill_set_backfill, lookup_insert_eq.
    split; [done|]. simpl. split; [done|]. split.
    + intros l Hl. split; [done|]. simpl. rewrite u32_small by uarith. lia.
    + by rewrite Z.leb_le.
Qed.

(** ** Witnesses and concrete runs *)

#[local] Existing Instance demo_sdk.
#[local] Existing Instance demo_changes.
#[local] Existing Instance demo_headers.
#[local] Transparent InfoOf.

(** A source of the quiet chain that serves nothing below ledger 7; every other
    answer of the world is the quiet one. *)
Definition demo_batch (start limit : Z) : res (list (@LedgerCloseMeta demo_sdk)) :=
  if start <? 7 then Err ErrBelowRetention
  else Ok ((λ i, demo_block (u32 (start + i))) <$> seqZ 0 (Z.min limit 200)).

Definition demo_world : @world demo_sdk :=
  @mkWorld demo_sdk (λ _, demo_batch) (λ _ _ _, Ok tt)
    (λ _ s, Ok (demo_block s)) (λ _ d, d) (λ _, no_faults) (λ _, false)
    (λ n, Z.of_nat n) (λ _, false) (λ _, true) (λ _, demo_watch).

(** The contract [CA], registered for movements, with ledgers 5 to 9 pending. *)
Definition demo_pending : db :=
  set_contracts (λ _, {[ ("testnet", "CA") := mkContractRow "api" ["movements"] None 0 ]})
    (set_backfill (λ _, {[ ("testnet", "CA") := mkBackfillRow 5 9 false None ["movements"] 1 ]}) empty_db).

Definition idle_backfiller : backfiller := mkBackfiller None 0 0 no_tally [].

Lemma demo_bystanders : bystanders "testnet" demo_world.
Proof. intros n d. do 3 (split; [done|]). by intros r. Qed.

Lemma demo_genuine : genuine demo_world demo_block.
Proof.
  intros n start limit ls lcm. simpl. unfold demo_batch. destruct (start <? 7); [done|].
  intros [= <-] (i & -> & _)%list_elem_of_fmap. simpl. by rewrite u32_idemp.
Qed.

Lemma demo_progresses : progresses demo_world.
Proof.
  intros n start limit ls. simpl. unfold demo_batch. destruct (start <? 7); [done|].
  intros [= <-] Hl. rewrite length_fmap, length_seqZ. lia.
Qed.

Lemma demo_pending_wf : walks_wf "testnet" demo_pending.
Proof.
  split.
  - intros k c Hc. change (({[ ("testnet", "CA") := mkContractRow "api" ["movements"] None 0 ]}
      : gmap (string * string) contract_row) !! k = Some c) in Hc.
    apply lookup_singleton_Some in Hc as [_ <-]. repeat constructor.
  - intros cid b Hb _. change (({[ ("testnet", "CA") := mkBackfillRow 5 9 false None ["movements"] 1 ]}
      : gmap (string * string) backfill_row) !! ("testnet", cid) = Some b) in Hb.
    apply lookup_singleton_Some in Hb as [_ <-]. simpl. uarith.
Qed.

(** One round stores what the source serves, records the gap below and ends the
    walk there; the next finds nothing to do. *)
Example demo_Run :
  option_map (λ r, let '(_, o, s) := r in
    (b_next_to <$> (db_backfill (o_db o) !! ("testnet", "CA")),
     b_clamped_at <$> (db_backfill (o_db o) !! ("testnet", "CA")),
     map (λ kv, (g_from kv.2, g_to kv.2)) (map_to_list (db_gaps (o_db o))),
     size (db_movements (o_db o)), bk_Ledgers s, bk_slept s))
    (Run "testnet" "pass" demo_world 20 2 (mkOutside 0 demo_pending) idle_backfiller)
  = Some (Some 6, Some (Some 7), [(5, 6)], 3%nat, 3, [backfillIdle]).
Proof. vm_compute. reflexivity. Qed.

Lemma Run_honest_witness :
  ∃ o' s', Run "testnet" "pass" demo_world (Z.to_nat 2000) 2 (mkOutside 0 demo_pending) idle_backfiller
             = Some (tt, o', s') ∧ held "testnet" "pass" demo_block demo_pending (o_db o').
Proof.
  destruct (Run_honest "testnet" "pass" demo_world demo_block (Z.to_nat 2000) 2 0 demo_pending idle_backfiller)
    as (o' & s' & Hr & Hh & _).
  - exact demo_bystanders.
  - exact demo_genuine.
  - exact demo_progresses.
  - unfold backfillChunkSize. lia.
  - exact demo_pending_wf.
  - apply gaps_wfb_sound. vm_compute. reflexivity.
  - intros e. discriminate.
  - exists o', s'. split; [exact Hr|exact Hh].
Defined.

Lemma scan_verified_witness :
  ∃ out n, scan "pass" demo_world 20 demo_watch 7 9 (mkOutside 0 empty_db) idle_backfiller
    = Some (out, mkOutside n empty_db, idle_backfiller).
Proof.
  destruct (scan_verified "pass" demo_world 20 demo_watch 7 9 (mkOutside 0 empty_db) idle_backfiller)
    as (out & n & Hs & _).
  - exact demo_progresses.
  - lia.
  - uarith.
  - lia.
  - exists out, n. exact Hs.
Defined.

Lemma findWall_correct_witness :
  ∃ n, findWall demo_world 33 1 9 (mkOutside 0 empty_db) idle_backfiller
    = Some (Ok 7, mkOutside n empty_db, idle_backfiller).
Proof.
  destruct (findWall_correct demo_world 7 9 1 9 (mkOutside 0 empty_db) idle_backfiller) as (n & _ & Hf).
  - intros k l _. simpl. unfold demo_batch. split; intros Hl; destruct (Z.ltb_spec l 7); try lia; eauto.
  - lia.
  - lia.
  - uarith.
  - exists n. exact Hf.
Defined.

Lemma stale_chunk_covers_new_kind_witness :
  ∃ d1 d2 b2,
    run 2 (EnsureBackfill "testnet" "CA" 1 900 ["movements"; "events"]) demo_pending = Ok (tt, d1) ∧
    run 3 (CommitBackfillChunk "testnet" (nextFor (mkChunkRange 5 9) None
             (mkBackfill "CA" 5 9 false None [])) no_records) d1 = Ok (tt, d2) ∧
    db_backfill d2 !! ("testnet", "CA") = Some b2 ∧ b_target_from b2 = 1 ∧
    vouches b2 "events" 500 ∧ b_done b2 = true.
Proof.
  destruct (stale_chunk_covers_new_kind "testnet" "CA" "events" (mkBackfillRow 5 9 false None ["movements"] 1)
    1 900 ["movements"; "events"] 2 3 (mkChunkRange 5 9) no_records demo_pending (get_tables demo_pending))
    as (d1 & d2 & b2 & H1 & H2 & H3 & H4 & H5 & H6).
  - reflexivity.
  - simpl. uarith.
  - simpl. uarith.
  - right. left.
  - intros Hin. apply list_elem_of_singleton in Hin. discriminate.
  - reflexivity.
  - simpl. uarith.
  - exists d1, d2, b2. split; [exact H1|]. split; [exact H2|]. split; [exact H3|]. split; [exact H4|].
    split; [apply H5; simpl; lia|apply H6; simpl; lia].
Defined.
