(* ===== verification/Heal.v ===== *)
(** * The healer ([internal/ingest/heal.go], [internal/source/captive/captive.go])

    Workers claim open gaps and replay each downward in chunks from the history
    archives.  Nothing is healed before a replayed sample has proved equal, byte
    for byte after normalization, to the RPC's copy. *)

From Stdlib Require Import Ascii.
From S2P Require Import Prelude HealPlan Db Gaps Rows Registrations Commit Registry Query Api Extract Loop Workers Backfill.

(** ** Definitions *)

Definition defaultHealChunkLedgers : Z := 100000.
Definition healIdle : Z := 60 * Second.
Definition equivalenceSample : Z := 8.

(** *** The parts of a ledger's meta the gate looks into

    [Rest] stands for everything else a structure carries. *)

(** [LedgerEntryChangeType] as the gate distinguishes it. *)
Inductive ChangeTag := TagState | TagUpdated | TagRemoved | TagOther.

Record OperationMeta (C Rest : Type) := mkOperationMeta { om_Changes : list C; om_rest : Rest }.
Arguments mkOperationMeta {C Rest}. Arguments om_Changes {C Rest}. Arguments om_rest {C Rest}.

Record SorobanMeta (Rest : Type) := mkSorobanMeta { so_DiagnosticEvents : list Rest; so_rest : Rest }.
Arguments mkSorobanMeta {Rest}. Arguments so_DiagnosticEvents {Rest}. Arguments so_rest {Rest}.

Record TransactionMetaV3 (C Rest : Type) := mkMetaV3 {
  v3_SorobanMeta : option (SorobanMeta Rest); v3_TxChangesBefore : list C; v3_TxChangesAfter : list C;
  v3_Operations : list (OperationMeta C Rest); v3_rest : Rest }.
Arguments mkMetaV3 {C Rest}. Arguments v3_SorobanMeta {C Rest}. Arguments v3_TxChangesBefore {C Rest}.
Arguments v3_TxChangesAfter {C Rest}. Arguments v3_Operations {C Rest}. Arguments v3_rest {C Rest}.

Record TransactionMetaV4 (C Rest : Type) := mkMetaV4 {
  v4_DiagnosticEvents : list Rest; v4_TxChangesBefore : list C; v4_TxChangesAfter : list C;
  v4_Operations : list (OperationMeta C Rest); v4_rest : Rest }.
Arguments mkMetaV4 {C Rest}. Arguments v4_DiagnosticEvents {C Rest}. Arguments v4_TxChangesBefore {C Rest}.
Arguments v4_TxChangesAfter {C Rest}. Arguments v4_Operations {C Rest}. Arguments v4_rest {C Rest}.

(** A union is its tag and its arms, of which the SDK fills one. *)
Record TransactionMeta (C Rest : Type) := mkMeta {
  tm_V : Z; tm_V3 : option (TransactionMetaV3 C Rest); tm_V4 : option (TransactionMetaV4 C Rest); tm_rest : Rest }.
Arguments mkMeta {C Rest}. Arguments tm_V {C Rest}. Arguments tm_V3 {C Rest}. Arguments tm_V4 {C Rest}.
Arguments tm_rest {C Rest}.

(** One element of [TxProcessing]; only version 2 has the post-apply fees. *)
Record TxProcessing (C Rest : Type) := mkTxProcessing {
  tp_FeeProcessing : list C; tp_PostTxApplyFeeProcessing : list C;
  tp_TxApplyProcessing : TransactionMeta C Rest; tp_rest : Rest }.
Arguments mkTxProcessing {C Rest}. Arguments tp_FeeProcessing {C Rest}.
Arguments tp_PostTxApplyFeeProcessing {C Rest}. Arguments tp_TxApplyProcessing {C Rest}. Arguments tp_rest {C Rest}.

Record LedgerMeta (C Rest : Type) := mkLedgerMeta {
  lm_V : Z; lm_V1 : option (list (TxProcessing C Rest) * Rest); lm_V2 : option (list (TxProcessing C Rest) * Rest);
  lm_rest : Rest }.
Arguments mkLedgerMeta {C Rest}. Arguments lm_V {C Rest}. Arguments lm_V1 {C Rest}. Arguments lm_V2 {C Rest}.
Arguments lm_rest {C Rest}.

(** The SDK's structure behind a ledger, and its encoders. *)
Class LedgerMetas `{SDK} := {
  LedgerEntryChange : Type;
  Other : Type;
  tag_of : LedgerEntryChange → ChangeTag;
  xdr_Marshal : list LedgerEntryChange → option string;
  meta_of : LedgerCloseMeta → LedgerMeta LedgerEntryChange Other;
  MarshalBinary : LedgerMeta LedgerEntryChange Other → option string }.

Section canonical.
Context {C : Type} (tag : C → ChangeTag) (marshal : list C → option string).

(** The units of a change vector: a STATE change with the UPDATED or REMOVED
    that follows it, anything else alone. *)
Fixpoint units (changes : list C) : list (list C) :=
  match changes with
  | [] => []
  | c :: changes =>
      match tag c, changes with
      | TagState, c2 :: rest =>
          match tag c2 with
          | TagUpdated | TagRemoved => [c; c2] :: units rest
          | _ => [c] :: units changes
          end
      | _, _ => [c] :: units changes
      end
  end.

(** Every unit with its encoding; none when one cannot be encoded. *)
Definition encode_units (us : list (list C)) : option (list (string * list C)) :=
  mapM (λ u, (λ raw, (raw, u)) <$> marshal u) us.

(** [bytes.Compare(a.raw, b.raw) < 0] *)
Definition unit_ltb (a b : string * list C) : bool := String.ltb a.1 b.1.

Definition canonicalizeChanges (changes : list C) : list C :=
  if Nat.ltb (length changes) 2 then changes
  else match encode_units (units changes) with
       | None => changes
       | Some us => concat (order_by unit_ltb us).*2
       end.

Context {Rest : Type}.

Definition normalizeOperation (op : OperationMeta C Rest) : OperationMeta C Rest :=
  mkOperationMeta (canonicalizeChanges (om_Changes op)) (om_rest op).

Definition normalizeSoroban (so : SorobanMeta Rest) : SorobanMeta Rest := mkSorobanMeta [] (so_rest so).

Definition normalizeV3 (v : TransactionMetaV3 C Rest) : TransactionMetaV3 C Rest :=
  mkMetaV3 (normalizeSoroban <$> v3_SorobanMeta v) (canonicalizeChanges (v3_TxChangesBefore v))
    (canonicalizeChanges (v3_TxChangesAfter v)) (normalizeOperation <$> v3_Operations v) (v3_rest v).

Definition normalizeV4 (v : TransactionMetaV4 C Rest) : TransactionMetaV4 C Rest :=
  mkMetaV4 [] (canonicalizeChanges (v4_TxChangesBefore v)) (canonicalizeChanges (v4_TxChangesAfter v))
    (normalizeOperation <$> v4_Operations v) (v4_rest v).

Definition normalizeMeta (m : TransactionMeta C Rest) : TransactionMeta C Rest :=
  if tm_V m =? 3 then mkMeta (tm_V m) (normalizeV3 <$> tm_V3 m) (tm_V4 m) (tm_rest m)
  else if tm_V m =? 4 then mkMeta (tm_V m) (tm_V3 m) (normalizeV4 <$> tm_V4 m) (tm_rest m)
  else m.

Definition normalizeTx (version2 : bool) (tx : TxProcessing C Rest) : TxProcessing C Rest :=
  mkTxProcessing (canonicalizeChanges (tp_FeeProcessing tx))
    (if version2 then canonicalizeChanges (tp_PostTxApplyFeeProcessing tx)
     else tp_PostTxApplyFeeProcessing tx)
    (normalizeMeta (tp_TxApplyProcessing tx)) (tp_rest tx).

Definition normalizeTxs (version2 : bool) (v : list (TxProcessing C Rest) * Rest)
    : list (TxProcessing C Rest) * Rest := (normalizeTx version2 <$> v.1, v.2).

Definition normalizeForEquivalence (lcm : LedgerMeta C Rest) : LedgerMeta C Rest :=
  if lm_V lcm =? 1 then
    mkLedgerMeta (lm_V lcm) (normalizeTxs false <$> lm_V1 lcm) (lm_V2 lcm) (lm_rest lcm)
  else if lm_V lcm =? 2 then
    mkLedgerMeta (lm_V lcm) (lm_V1 lcm) (normalizeTxs true <$> lm_V2 lcm) (lm_rest lcm)
  else lcm.
End canonical.

(** *** The healer *)

(** The changing fields of [Healer] and the counters it feeds. *)
Record healer := mkHealer {
  hl_verified : bool; hl_inFlight : gset string; hl_ArchiveState : string;
  hl_EquivalenceFailures : Z; hl_GapsHealed : Z; hl_HealedLedgers : Z; hl_Tally : tally;
  hl_slept : list Z }.

Definition ArchiveStateUnverified : string := "unverified".
Definition ArchiveStateVerified : string := "verified".
Definition ArchiveStateFailed : string := "equivalence_failed".

(** [NewHealer]'s defaults for the chunk and the number of workers. *)
Definition chunkOf (chunkLedgers : Z) : Z :=
  if chunkLedgers =? 0 then defaultHealChunkLedgers else chunkLedgers.
Definition workersOf (workers : Z) : Z := if workers <? 1 then 1 else workers.

Definition SetArchiveState (state : string) (h : healer) : healer :=
  mkHealer (hl_verified h) (hl_inFlight h) state (hl_EquivalenceFailures h) (hl_GapsHealed h)
    (hl_HealedLedgers h) (hl_Tally h) (hl_slept h).
Definition set_inFlight (f : gset string) (h : healer) : healer :=
  mkHealer (hl_verified h) f (hl_ArchiveState h) (hl_EquivalenceFailures h) (hl_GapsHealed h)
    (hl_HealedLedgers h) (hl_Tally h) (hl_slept h).
Definition verify_failed (h : healer) : healer :=
  mkHealer (hl_verified h) (hl_inFlight h) ArchiveStateFailed (hl_EquivalenceFailures h + 1)
    (hl_GapsHealed h) (hl_HealedLedgers h) (hl_Tally h) (hl_slept h).
Definition verify_passed (h : healer) : healer :=
  mkHealer true (hl_inFlight h) ArchiveStateVerified (hl_EquivalenceFailures h)
    (hl_GapsHealed h) (hl_HealedLedgers h) (hl_Tally h) (hl_slept h).
Definition inc_healed (ledgers : Z) (resolved : bool) (r : Result) (h : healer) : healer :=
  mkHealer (hl_verified h) (hl_inFlight h) (hl_ArchiveState h) (hl_EquivalenceFailures h)
    (if resolved then hl_GapsHealed h + 1 else hl_GapsHealed h) (hl_HealedLedgers h + ledgers)
    (tally_add r (hl_Tally h)) (hl_slept h).
Definition slept (d : Z) (h : healer) : healer :=
  mkHealer (hl_verified h) (hl_inFlight h) (hl_ArchiveState h) (hl_EquivalenceFailures h)
    (hl_GapsHealed h) (hl_HealedLedgers h) (hl_Tally h) (d :: hl_slept h).

(** [claim]: the first gap nobody else is healing. *)
Fixpoint claim (gaps : list Gap) (inFlight : gset string) : option (Gap * gset string) :=
  match gaps with
  | [] => None
  | g :: gaps => if decide (gap_ID g ∈ inFlight) then claim gaps inFlight
                 else Some (g, {[gap_ID g]} ∪ inFlight)
  end.

Definition release (id : string) (inFlight : gset string) : gset string := inFlight ∖ {[id]}.

Section healer.
Context `{S : SDK} `{!SDKChanges} `{!LedgerHeaders} `{!LedgerMetas} (network passphrase : string)
  (chunk : Z) (w : world).

Abbreviation W := (Work healer).

(** [ReplayRange]: the core's ledgers, each the one asked for, through [emit]. *)
Fixpoint replayLoop {X} (fuel : nat) (emit : LedgerCloseMeta → X → res X) (to seq : Z) (x : X)
    : W (res X) :=
  if negb (seq <=? to) then w_ret (Ok x)
  else
    match fuel with
    | O => w_hung
    | Datatypes.S fuel =>
        answer <-w ask (λ n, w_core w n seq) ;
        match answer with
        | Err e => w_ret (Err e)
        | Ok lcm =>
            if negb (in_Sequence (InfoOf lcm) =? seq) then w_ret (Err ErrOther)
            else match emit lcm x with
                 | Err e => w_ret (Err e)
                 | Ok x => replayLoop fuel emit to (u32 (seq + 1)) x
                 end
        end
    end.

Definition ReplayRange {X} (fuel : nat) (from to : Z) (emit : LedgerCloseMeta → X → res X) (x : X)
    : W (res X) :=
  if (from =? 0) || (to <? from) then w_ret (Err ErrOther)
  else
    prepared <-w ask (λ n, w_prepare w n from to) ;
    match prepared with
    | Err e => w_ret (Err e)
    | Ok _ => replayLoop fuel emit to from x
    end.

(** The callback of [healChunk], on its previous hash and its records. *)
Definition healLedger (snap : Snapshot) (lcm : LedgerCloseMeta) (x : string * Result)
    : res (string * Result) :=
  let info := InfoOf lcm in
  if bool_decide (x.1 ≠ "") && bool_decide (in_PreviousHash info ≠ x.1) then Err ErrOther
  else match Events lcm passphrase snap with
       | None => Err ErrOther
       | Some r => Ok (in_Hash info, res_app x.2 r)
       end.

Definition chunkFrom (gap : Gap) : Z :=
  let to := gap_HealNextTo gap in
  if chunk <=? u32 (to - gap_From gap) then u32 (u32 (to - chunk) + 1) else gap_From gap.

(** [healChunk]; [goNow] is the process's clock in [CommitHealChunk]. *)
Definition healChunk (fuel : nat) (gap : Gap) (goNow : Z) : W (res unit) :=
  let to := gap_HealNextTo gap in
  let from := chunkFrom gap in
  snap <-w ask (w_snap w) ;
  replayed <-w ReplayRange fuel from to (healLedger snap) ("", no_result) ;
  match replayed with
  | Err e => w_ret (Err e)
  | Ok (_, acc) =>
      let newNextTo := u32 (from - 1) in
      let resolved := from <=? gap_From gap in
      out <-w transact w (CommitHealChunk network gap newNextTo resolved goNow (all_records acc)) ;
      match out with
      | Err e => w_ret (Err e)
      | Ok _ => w_modify (inc_healed (to - newNextTo) resolved acc) ;;w w_ret (Ok tt)
      end
  end.

(** *** The equivalence gate *)

(** The sample: the newest checkpoint a full cadence behind the cursor, and the
    ledgers up to it. *)
Definition sampleEnd (cursor : Z) : Z :=
  u32 (u32 (u32 (cursor - checkpointFrequency + 1) / checkpointFrequency * checkpointFrequency) - 1).
Definition sampleStart (cp : Z) : Z := u32 (u32 (cp - equivalenceSample) + 1).

(** The RPC's side of the sample. *)
Fixpoint sampleLoop (fuel : nat) (cp seq : Z) (m : gmap Z LedgerCloseMeta)
    : W (res (gmap Z LedgerCloseMeta)) :=
  if negb (seq <=? cp) then w_ret (Ok m)
  else
    match fuel with
    | O => w_hung
    | Datatypes.S fuel =>
        answer <-w GetLedgerBatch w seq (u32 (cp - seq) + 1) ;
        match answer with
        | Err e => w_ret (Err e)
        | Ok batch =>
            sampleLoop fuel cp (u32 (seq + Z.of_nat (length batch)))
              (foldl (λ m lcm, <[in_Sequence (InfoOf lcm) := lcm]> m) m batch)
        end
    end.

Definition normalized (lcm : LedgerCloseMeta) : LedgerMeta LedgerEntryChange Other :=
  normalizeForEquivalence tag_of xdr_Marshal (meta_of lcm).

(** The callback that compares a replayed ledger with the RPC's. *)
Definition compareLedger (rpcByLedger : gmap Z LedgerCloseMeta) (lcm : LedgerCloseMeta) (_ : unit)
    : res unit :=
  match rpcByLedger !! in_Sequence (InfoOf lcm) with
  | None => Err ErrOther
  | Some rpcLcm =>
      match MarshalBinary (normalized rpcLcm), MarshalBinary (normalized lcm) with
      | Some want, Some got => if bool_decide (got = want) then Ok tt else Err ErrOther
      | _, _ => Err ErrOther
      end
  end.

Definition verifyEquivalence (fuel : nat) : W (res unit) :=
  cursor <-w transact w (LoadCursor network) ;
  match cursor with
  | Err e => w_ret (Err e)
  | Ok cur =>
      if cur_Sequence cur <? 3 * checkpointFrequency then w_ret (Err ErrOther)
      else
        let cp := sampleEnd (cur_Sequence cur) in
        let from := sampleStart cp in
        rpcByLedger <-w sampleLoop fuel cp from ∅ ;
        match rpcByLedger with
        | Err e => w_ret (Err e)
        | Ok m => ReplayRange fuel from cp (compareLedger m) tt
        end
  end.

(** [sleepCtx(ctx, h.idle)] *)
Definition nap : W bool :=
  fired <-w ask (w_slept w) ;
  w_modify (slept healIdle) ;;w
  w_ret (fired : bool).

(** [awaitVerified], for a number of turns of its loop. *)
Fixpoint awaitVerified (fuel turns : nat) : W bool :=
  match turns with
  | O => w_hung
  | Datatypes.S turns =>
      let again := fired <-w nap ; if (fired : bool) then awaitVerified fuel turns else w_ret false in
      dead <-w cancelled w ;
      if (dead : bool) then w_ret false
      else
        gaps <-w transact w (ListOpenGaps network) ;
        match gaps with
        | Err _ => again
        | Ok [] => again
        | Ok _ =>
            verdict <-w verifyEquivalence fuel ;
            match verdict with
            | Err _ =>
                dead <-w cancelled w ;
                if (dead : bool) then w_ret false
                else w_modify verify_failed ;;w w_ret false
            | Ok _ => w_modify verify_passed ;;w w_ret true
            end
        end
  end.

(** *** The workers *)

(** [work], for a number of turns of its loop, between two calls of which the
    other workers are among the others. *)
Fixpoint work (fuel turns : nat) (goNow : Z) : W unit :=
  match turns with
  | O => w_ret tt
  | Datatypes.S turns =>
      let again := fired <-w nap ; if (fired : bool) then work fuel turns goNow else w_ret tt in
      dead <-w cancelled w ;
      if (dead : bool) then w_ret tt
      else
        gaps <-w transact w (ListOpenGaps network) ;
        match gaps with
        | Err _ => again
        | Ok gaps =>
            h <-w w_get ;
            match claim gaps (hl_inFlight h) with
            | None => again
            | Some (gap, inFlight) =>
                w_modify (set_inFlight inFlight) ;;w
                out <-w healChunk fuel gap goNow ;
                w_modify (λ h, set_inFlight (release (gap_ID gap) (hl_inFlight h)) h) ;;w
                match out with
                | Ok _ => work fuel turns goNow
                | Err _ => again
                end
            end
        end
  end.

(** Where a worker is in its loop: about to list the gaps, holding a listing it
    will claim from, or healing a chunk of the gap it claimed. *)
Inductive phase := Idle | Listed (gaps : list Gap) | Healing (g : Gap).

Record workers := mkWorkers {
  wk_outside : outside; wk_healer : healer; wk_phases : list phase }.

(** The steps of the healer: the gate, then the workers in any order.  The mutex
    makes a claim and a release atomic, but not a listing with its claim.  A
    chunk reads nothing the others write before its one transaction, at its
    end, so that it is one step. *)
Inductive healer_step (fuel turns : nat) (nworkers chunkNow : Z) : workers → workers → Prop :=
  | Start o h o' h' :
      hl_verified h = false →
      awaitVerified fuel turns o (SetArchiveState ArchiveStateUnverified h) = Some (true, o', h') →
      healer_step fuel turns nworkers chunkNow (mkWorkers o h [])
        (mkWorkers o' h' (replicate (Z.to_nat (workersOf nworkers)) Idle))
  | List o h ps i out o' h' :
      ps !! i = Some Idle → transact w (ListOpenGaps network) o h = Some (out, o', h') →
      healer_step fuel turns nworkers chunkNow (mkWorkers o h ps)
        (mkWorkers o' h' (match out with Ok gaps => <[i := Listed gaps]> ps | Err _ => ps end))
  | Claim o h ps i gaps :
      ps !! i = Some (Listed gaps) →
      healer_step fuel turns nworkers chunkNow (mkWorkers o h ps)
        (match claim gaps (hl_inFlight h) with
         | Some (g, inFlight) => mkWorkers o (set_inFlight inFlight h) (<[i := Healing g]> ps)
         | None => mkWorkers o h (<[i := Idle]> ps)
         end)
  | Chunk o h ps i g out o' h' :
      ps !! i = Some (Healing g) → healChunk fuel g chunkNow o h = Some (out, o', h') →
      healer_step fuel turns nworkers chunkNow (mkWorkers o h ps)
        (mkWorkers o' (set_inFlight (release (gap_ID g) (hl_inFlight h')) h') (<[i := Idle]> ps)).
End healer.

#[local] Opaque InfoOf.

(** ** Lemmas *)

(** *** Replays *)
Section replay.
Context `{S : SDK} `{!SDKChanges} `{!LedgerHeaders} `{!LedgerMetas} (w : world).

(** A callback over a run of ledgers. *)
Fixpoint emits {X} (emit : LedgerCloseMeta → X → res X) (lcms : list LedgerCloseMeta) (x : X) : res X :=
  match lcms with
  | [] => Ok x
  | lcm :: lcms => match emit lcm x with Ok x => emits emit lcms x | Err e => Err e end
  end.

(** The ledgers [from..to], each as a captive core produced it. *)
Definition core_run (from to : Z) (lcms : list LedgerCloseMeta) : Prop :=
  (λ lcm, in_Sequence (InfoOf lcm)) <$> lcms = seqZ from (span from to) ∧
  Forall (λ lcm, ∃ n, w_core w n (in_Sequence (InfoOf lcm)) = Ok lcm) lcms.

(** What a replay leaves: nothing changed but the calls made, and the callback
    saw the whole range if it succeeded. *)
Definition replays {X} (emit : LedgerCloseMeta → X → res X) (from to : Z) (x : X)
    (m : Work healer (res X)) : Prop :=
  ∀ o h, ∃ out n, m o h = Some (out, mkOutside n (o_db o), h) ∧
    ∀ x', out = Ok x' → ∃ lcms, core_run from to lcms ∧ emits emit lcms x = Ok x'.

Lemma replayLoop_replays {X} (emit : LedgerCloseMeta → X → res X) fuel from to x :
  0 ≤ from → to < max_u32 → span from to ≤ Z.of_nat fuel →
  replays emit from to x (replayLoop w fuel emit to from x).
Proof.
  intros Hf Ht. revert from Hf x. induction fuel as [|fuel IH]; intros from Hf x Hfuel o h; simpl.
  - assert (Hgt : (from <=? to) = false) by (apply Z.leb_gt; uarith). rewrite Hgt. simpl.
    exists (Ok x), (o_calls o). split; [by destruct o|]. intros x' [= <-]. exists []. split; [|done].
    split; [|constructor]. symmetry. apply seqZ_nil. uarith.
  - destruct (Z.leb_spec from to) as [Hle|Hgt]; simpl negb; cbv iota.
    2: { exists (Ok x), (o_calls o). split; [by destruct o|]. intros x' [= <-]. exists []. split; [|done].
         split; [|constructor]. symmetry. apply seqZ_nil. uarith. }
    unfold w_bind, ask. simpl.
    assert (Hstop : ∀ e, ∃ (out : res X) n,
      w_ret (Err e) (mkOutside (Datatypes.S (o_calls o)) (o_db o)) h = Some (out, mkOutside n (o_db o), h) ∧
      ∀ x', out = Ok x' → ∃ lcms, core_run from to lcms ∧ emits emit lcms x = Ok x').
    { intros e. eexists _, _. by split. }
    destruct (w_core w (o_calls o) from) as [lcm|e] eqn:Hcore; [|by apply Hstop].
    destruct (Z.eqb_spec (in_Sequence (InfoOf lcm)) from) as [Hseq|]; simpl negb; cbv iota; [|by apply Hstop].
    destruct (emit lcm x) as [x1|e] eqn:Hem; [|by apply Hstop].
    rewrite u32_small by uarith.
    destruct (IH (from + 1) ltac:(lia) x1 ltac:(uarith) (mkOutside (Datatypes.S (o_calls o)) (o_db o)) h)
      as (out & n & Hrun & Hok). exists out, n. split; [done|].
    intros x' Hx'. destruct (Hok x' Hx') as (lcms & [Hseqs Hall] & Hems). exists (lcm :: lcms).
    split; [split|simpl; by rewrite Hem].
    + rewrite seqZ_cons by uarith. rewrite fmap_cons, Hseqs, Hseq. f_equal. f_equal; uarith.
    + constructor; [|done]. exists (o_calls o). by rewrite Hseq.
Qed.

Lemma ReplayRange_replays {X} (emit : LedgerCloseMeta → X → res X) fuel from to x :
  1 ≤ from → to < max_u32 → span from to ≤ Z.of_nat fuel →
  replays emit from to x (ReplayRange w fuel from to emit x).
Proof.
  intros Hf Ht Hfuel o h. unfold ReplayRange.
  destruct ((from =? 0) || (to <? from)) eqn:Hbad.
  { exists (Err ErrOther), (o_calls o). split; [by destruct o|done]. }
  unfold w_bind at 1, ask. destruct (w_prepare w (o_calls o) from to) as [[]|e].
  - exact (replayLoop_replays emit fuel from to x ltac:(lia) Ht Hfuel (mkOutside (Datatypes.S (o_calls o)) (o_db o)) h).
  - eexists _, _. by split.
Qed.

Lemma core_run_linked from to lcms lcm :
  core_run from to (lcm :: lcms) → from ≤ to ∧ in_Sequence (InfoOf lcm) = from ∧ core_run (from + 1) to lcms.
Proof.
  intros [Hseq Hall]. destruct (decide (from ≤ to)) as [Hle|Hgt].
  - rewrite seqZ_cons, fmap_cons in Hseq by uarith. injection Hseq as Hs Hr.
    split; [done|]. split; [done|]. split; [|by apply Forall_cons in Hall as [_ ?]].
    rewrite Hr. f_equal; uarith.
  - rewrite seqZ_nil in Hseq by uarith. done.
Qed.
End replay.

(** *** Chunks *)
Section chunks.
Context `{S : SDK} `{!SDKChanges} `{!LedgerHeaders} `{!LedgerMetas} (network passphrase : string)
  (chunk : Z) (w : world).

Lemma emits_healLedger snap from to lcms lcms0 prev acc prev' acc' :
  core_run w from to lcms → 0 ≤ from → to < max_u32 → extracted passphrase snap lcms0 acc →
  emits (healLedger passphrase snap) lcms (prev, acc) = Ok (prev', acc') →
  linked_from from prev lcms ∧ extracted passphrase snap (lcms0 ++ lcms) acc'.
Proof.
  revert from lcms0 prev acc. induction lcms as [|lcm lcms IH]; intros from lcms0 prev acc Hrun Hf Ht Hx; simpl.
  { intros [= _ <-]. by rewrite app_nil_r. }
  apply core_run_linked in Hrun as (Hle & Hseq & Hrun). unfold healLedger at 1. simpl.
  destruct (bool_decide (prev ≠ "") && _) eqn:Hprev; [done|].
  destruct (Events lcm passphrase snap) as [r1|] eqn:Hev; [|done]. intros Hems.
  destruct (IH (from + 1) (lcms0 ++ [lcm]) (in_Hash (InfoOf lcm)) (res_app acc r1)) as [Hl Hx'];
    [done|lia|done|by apply extracted_snoc|done|].
  rewrite <- app_assoc in Hx'. split; [|done]. split; [done|]. rewrite u32_small by uarith.
  split; [|done]. apply andb_false_iff in Hprev as [Hp|Hp];
    apply bool_decide_eq_false, dec_stable in Hp; auto.
Qed.

(** A gap as the store lists it. *)
Definition healable (gap : Gap) : Prop :=
  1 ≤ gap_From gap ≤ gap_HealNextTo gap ∧ gap_HealNextTo gap < max_u32.

Lemma chunkFrom_spec gap :
  1 ≤ chunk ≤ max_u32 → healable gap →
  chunkFrom chunk gap = Z.max (gap_From gap) (gap_HealNextTo gap - chunk + 1).
Proof.
  intros Hc [Hf Ht]. unfold chunkFrom. rewrite (u32_small (gap_HealNextTo gap - gap_From gap)) by uarith.
  destruct (Z.leb_spec chunk (gap_HealNextTo gap - gap_From gap)); [|lia].
  rewrite (u32_small (gap_HealNextTo gap - chunk)) by uarith. rewrite u32_small by uarith. lia.
Qed.

Lemma chunkOf_range c : is_u32 c → 1 ≤ chunkOf c ≤ max_u32.
Proof. unfold chunkOf, defaultHealChunkLedgers. destruct (Z.eqb_spec c 0); uarith. Qed.

(** A chunk's records: the extraction, under one snapshot of the registrations,
    of the linked ledgers a captive core produced for its range. *)
Definition chunk_read (from to : Z) (acc : Result) : Prop :=
  ∃ k lcms, core_run w from to lcms ∧ linked_from from "" lcms ∧
    extracted passphrase (w_snap w k) lcms acc.

(** What one chunk does. *)
Definition chunk_done (gap : Gap) (goNow from : Z) (out : res unit) (d d' : db) (h h' : healer) : Prop :=
  let commit n acc := run (w_now w n) (CommitHealChunk network gap (from - 1)
    (bool_decide (from = gap_From gap)) goNow (all_records acc)) (w_others w n d) = Ok (tt, d') in
  match out with
  | Ok _ => ∃ n acc, chunk_read from (gap_HealNextTo gap) acc ∧ commit n acc ∧
      h' = inc_healed (span from (gap_HealNextTo gap)) (bool_decide (from = gap_From gap)) acc h
  | Err _ => h' = h ∧ (d' = d ∨ (∃ n, d' = w_others w n d) ∨
      ∃ n acc, chunk_read from (gap_HealNextTo gap) acc ∧ commit n acc)
  end.

Lemma healChunk_done fuel gap goNow o h :
  1 ≤ chunk ≤ max_u32 → healable gap → Z.min chunk (span (gap_From gap) (gap_HealNextTo gap)) ≤ Z.of_nat fuel →
  ∃ out n d' h', healChunk network passphrase chunk w fuel gap goNow o h = Some (out, mkOutside n d', h') ∧
    chunk_done gap goNow (chunkFrom chunk gap) out (o_db o) d' h h'.
Proof.
  intros Hc Hg Hfuel. pose proof (chunkFrom_spec gap Hc Hg) as Hfrom. destruct Hg as [Hf Ht].
  unfold healChunk. set (from := chunkFrom chunk gap) in *. clearbody from. subst from.
  set (from := Z.max (gap_From gap) (gap_HealNextTo gap - chunk + 1)).
  assert (Hb : gap_From gap ≤ from ≤ gap_HealNextTo gap) by lia.
  assert (Hs : span from (gap_HealNextTo gap) ≤ Z.of_nat fuel) by uarith. clearbody from.
  unfold w_bind at 1, ask. cbn [o_calls o_db].
  unfold w_bind at 1. set (snap := w_snap w (o_calls o)).
  destruct (ReplayRange_replays w (healLedger passphrase snap) fuel from (gap_HealNextTo gap) ("", no_result)
    ltac:(lia) Ht Hs (mkOutside (Datatypes.S (o_calls o)) (o_db o)) h) as (out & n & -> & Hok).
  cbn [o_db]. destruct out as [[prev acc]|e].
  2: { eexists _, _, _, _. split; [reflexivity|]. split; [done|by left]. }
  destruct (Hok _ eq_refl) as (lcms & Hrun & Hems).
  destruct (emits_healLedger snap from (gap_HealNextTo gap) lcms [] "" no_result prev acc)
    as [Hl Hx]; [done|lia|done|apply extracted_nil|done|].
  assert (Hread : chunk_read from (gap_HealNextTo gap) acc) by (exists (o_calls o), lcms; by split_and!).
  replace (from <=? gap_From gap) with (bool_decide (from = gap_From gap)).
  2: { case_bool_decide; symmetry; [apply Z.leb_le|apply Z.leb_gt]; lia. }
  rewrite u32_small by uarith. unfold w_bind at 1, transact. cbn [o_calls o_db].
  destruct (BeginFunc_atomic (w_faults w n) (w_now w n)
    (CommitHealChunk network gap (from - 1) (bool_decide (from = gap_From gap)) goNow (all_records acc))
    (w_others w n (o_db o))) as [(e & ->)|([] & d' & -> & Hcommit)].
  - eexists _, _, _, _. split; [reflexivity|]. split; [done|right; left; by exists n].
  - destruct (w_lost w n).
    + eexists _, _, _, _. split; [reflexivity|]. split; [done|right; right; by exists n, acc].
    + eexists _, _, _, _. split; [reflexivity|]. exists n, acc. split; [done|]. split; [done|].
      f_equal. uarith.
Qed.
End chunks.

(** *** Canonical change vectors *)
Section canonical_changes.
Context {C : Type} (tag : C → ChangeTag) (marshal : list C → option string).

Lemma units_concat changes : concat (units tag changes) = changes.
Proof.
  remember (length changes) as n eqn:Hn. assert (Hle : (length changes ≤ n)%nat) by lia. clear Hn.
  revert changes Hle. induction n as [|n IH]; intros [|c1 [|c2 rest]] Hle; simpl in *; try done; try lia.
  - by destruct (tag c1).
  - pose proof (IH (c2 :: rest) ltac:(simpl; lia)) as H1. pose proof (IH rest ltac:(lia)) as H2.
    simpl units in H1. destruct (tag c1), (tag c2); simpl concat in *; congruence.
Qed.

Lemma encode_units_snd us out : encode_units marshal us = Some out → out.*2 = us.
Proof.
  revert out. induction us as [|u us IH]; intros out; simpl; [by intros [= <-]|].
  destruct (marshal u) as [raw|]; simpl; [|done].
  change (mapM (λ u, (λ raw, (raw, u)) <$> marshal u) us) with (encode_units marshal us).
  destruct (encode_units marshal us) as [out'|]; simpl; [|done]. intros [= <-]. simpl. f_equal. by apply IH.
Qed.

Lemma encode_units_in us out p :
  encode_units marshal us = Some out → p ∈ out → marshal p.2 = Some p.1.
Proof.
  revert out. induction us as [|u us IH]; intros out; simpl; [by intros [= <-] ?%elem_of_nil|].
  destruct (marshal u) as [raw|] eqn:Hm; simpl; [|done].
  change (mapM (λ u, (λ raw, (raw, u)) <$> marshal u) us) with (encode_units marshal us).
  destruct (encode_units marshal us) as [out'|]; simpl; [|done].
  intros [= <-] [->|Hp]%elem_of_cons; [done|]. by eapply IH.
Qed.

Lemma encode_units_perm us us' out :
  us ≡ₚ us' → encode_units marshal us = Some out →
  ∃ out', encode_units marshal us' = Some out' ∧ out ≡ₚ out'.
Proof.
  intros Hp. revert out. unfold encode_units. induction Hp as [|u us us' Hp IH|u1 u2 us|us1 us2 us3 H1 IH1 H2 IH2];
    intros out; simpl.
  - intros [= <-]. by exists [].
  - destruct (marshal u) as [raw|]; simpl; [|done].
    destruct (mapM _ us) as [o|]; simpl; [|done]. intros [= <-].
    destruct (IH o eq_refl) as (o' & -> & Ho). exists ((raw, u) :: o'). by rewrite Ho.
  - destruct (marshal u2) as [r2|]; simpl; [|done]. destruct (marshal u1) as [r1|]; simpl; [|done].
    destruct (mapM _ us) as [o|]; simpl; [|done]. intros [= <-]. eexists. split; [done|]. by constructor.
  - intros Hm. destruct (IH1 out Hm) as (o2 & Ho2 & P2). destruct (IH2 o2 Ho2) as (o3 & Ho3 & P3).
    exists o3. split; [done|]. by rewrite P2.
Qed.

(** Only the order changes. *)
Lemma canonicalizeChanges_perm changes : canonicalizeChanges tag marshal changes ≡ₚ changes.
Proof.
  unfold canonicalizeChanges. destruct (Nat.ltb _ _); [done|].
  destruct (encode_units marshal (units tag changes)) as [us|] eqn:Hus; [|done].
  rewrite order_by_perm, (encode_units_snd _ _ Hus). by rewrite units_concat.
Qed.

Lemma not_above_unit (x y : string * list C) :
  not_above unit_ltb x y ↔ not_above String.ltb x.1 y.1.
Proof. done. Qed.

#[local] Instance bytewise_test : StrictTest String.ltb.
Proof. exact (collation_test bytewise bytewise_order). Qed.

Lemma units_sorted (us : list (string * list C)) : StronglySorted (not_above unit_ltb) (order_by unit_ltb us).
Proof.
  apply StronglySorted_merge_sort.
  - intros x y z. rewrite !not_above_unit. apply (not_above_trans String.ltb).
  - intros x y. rewrite !not_above_unit. apply (not_above_total String.ltb).
Qed.

(** The same units in another order have the same canonical form, when the
    encoding tells units apart. *)
Lemma canonicalizeChanges_units c1 c2 :
  (∀ u1 u2 raw, marshal u1 = Some raw → marshal u2 = Some raw → u1 = u2) →
  (∀ u, u ∈ units tag c1 → is_Some (marshal u)) →
  units tag c1 ≡ₚ units tag c2 →
  canonicalizeChanges tag marshal c1 = canonicalizeChanges tag marshal c2.
Proof.
  intros Hinj Hdef Hp. assert (Hc : c1 ≡ₚ c2) by (rewrite <- (units_concat c1), <- (units_concat c2); by rewrite Hp).
  unfold canonicalizeChanges. rewrite <- Hc. destruct (Nat.ltb_spec (length c1) 2) as [Hl|Hl].
  - destruct c1 as [|x [|? ?]]; simpl in Hl; [| |lia].
    + by apply Permutation_nil in Hc as ->.
    + by apply Permutation_singleton_l in Hc as ->.
  - destruct (encode_units marshal (units tag c1)) as [us|] eqn:H1.
    2: { exfalso. revert H1. clear - Hdef. unfold encode_units. rewrite mapM_None. intros Hx.
         apply Exists_exists in Hx as (u & Hu & Hnone). destruct (Hdef u Hu) as [raw Hraw].
         rewrite Hraw in Hnone. done. }
    destruct (encode_units_perm _ _ _ Hp H1) as (us' & H2 & Hus). rewrite H2. do 2 f_equal.
    eapply (StronglySorted_unique_strong (not_above unit_ltb)); [|apply units_sorted..|].
    + intros x y Hx Hy Hxy Hyx. rewrite elem_of_order_by in Hx, Hy.
      apply encode_units_in with (p := x) in H1; [|done]. apply encode_units_in with (p := y) in H2; [|done].
      rewrite not_above_unit in Hxy, Hyx.
      assert (x.1 = y.1) as He.
      { apply (not_above_spec String.ltb) in Hxy as [?|Hxy]; [done|].
        unfold not_above in Hyx. congruence. }
      destruct x as [r1 u1], y as [r2 u2]. simpl in *. subst. f_equal. by eapply Hinj.
    + by rewrite !order_by_perm.
Qed.
End canonical_changes.

(** *** What normalization forgets *)
Section alike.
Context {C Rest : Type} (R : relation (list C)).

(** Two structures equal but for their diagnostic events, with change vectors
    related by [R]. *)
Definition alike_op (o1 o2 : OperationMeta C Rest) : Prop :=
  R (om_Changes o1) (om_Changes o2) ∧ om_rest o1 = om_rest o2.

Definition alike_v3 (v1 v2 : TransactionMetaV3 C Rest) : Prop :=
  option_Forall2 (λ s1 s2, so_rest s1 = so_rest s2) (v3_SorobanMeta v1) (v3_SorobanMeta v2) ∧
  R (v3_TxChangesBefore v1) (v3_TxChangesBefore v2) ∧ R (v3_TxChangesAfter v1) (v3_TxChangesAfter v2) ∧
  Forall2 alike_op (v3_Operations v1) (v3_Operations v2) ∧ v3_rest v1 = v3_rest v2.

Definition alike_v4 (v1 v2 : TransactionMetaV4 C Rest) : Prop :=
  R (v4_TxChangesBefore v1) (v4_TxChangesBefore v2) ∧ R (v4_TxChangesAfter v1) (v4_TxChangesAfter v2) ∧
  Forall2 alike_op (v4_Operations v1) (v4_Operations v2) ∧ v4_rest v1 = v4_rest v2.

Definition alike_meta (m1 m2 : TransactionMeta C Rest) : Prop :=
  tm_V m1 = tm_V m2 ∧ tm_rest m1 = tm_rest m2 ∧
  (if tm_V m1 =? 3 then option_Forall2 alike_v3 (tm_V3 m1) (tm_V3 m2) else tm_V3 m1 = tm_V3 m2) ∧
  (if tm_V m1 =? 4 then option_Forall2 alike_v4 (tm_V4 m1) (tm_V4 m2) else tm_V4 m1 = tm_V4 m2).

Definition alike_tx (version2 : bool) (t1 t2 : TxProcessing C Rest) : Prop :=
  R (tp_FeeProcessing t1) (tp_FeeProcessing t2) ∧
  (if version2 then R (tp_PostTxApplyFeeProcessing t1) (tp_PostTxApplyFeeProcessing t2)
   else tp_PostTxApplyFeeProcessing t1 = tp_PostTxApplyFeeProcessing t2) ∧
  alike_meta (tp_TxApplyProcessing t1) (tp_TxApplyProcessing t2) ∧ tp_rest t1 = tp_rest t2.

Definition alike_txs (version2 : bool) (v1 v2 : list (TxProcessing C Rest) * Rest) : Prop :=
  Forall2 (alike_tx version2) v1.1 v2.1 ∧ v1.2 = v2.2.

Definition alike (l1 l2 : LedgerMeta C Rest) : Prop :=
  lm_V l1 = lm_V l2 ∧ lm_rest l1 = lm_rest l2 ∧
  (if lm_V l1 =? 1 then option_Forall2 (alike_txs false) (lm_V1 l1) (lm_V1 l2) else lm_V1 l1 = lm_V1 l2) ∧
  (if lm_V l1 =? 2 then option_Forall2 (alike_txs true) (lm_V2 l1) (lm_V2 l2) else lm_V2 l1 = lm_V2 l2).

Context (tag : C → ChangeTag) (marshal : list C → option string).
Context (HR : ∀ x y, canonicalizeChanges tag marshal x = canonicalizeChanges tag marshal y ↔ R x y).

Lemma fmap_alike {A} (f : A → A) (P : relation A) (HP : ∀ x y, f x = f y ↔ P x y) (l1 l2 : list A) :
  f <$> l1 = f <$> l2 ↔ Forall2 P l1 l2.
Proof.
  split.
  - revert l2. induction l1 as [|x l1 IH]; intros [|y l2] Hl; [constructor|done..|].
    injection Hl as Hx Hl. constructor; [by apply HP|by apply IH].
  - induction 1 as [|x y l1 l2 Hxy _ IH]; [done|]. rewrite !fmap_cons, IH. f_equal. by apply HP.
Qed.

Lemma option_alike {A} (f : A → A) (P : relation A) (HP : ∀ x y, f x = f y ↔ P x y) (o1 o2 : option A) :
  f <$> o1 = f <$> o2 ↔ option_Forall2 P o1 o2.
Proof.
  split.
  - destruct o1 as [x|], o2 as [y|]; intros Ho; [|done..|constructor].
    injection Ho as Hxy. constructor. by apply HP.
  - intros [x y Hxy|]; [|done]. simpl. f_equal. by apply HP.
Qed.

Lemma normalizeOperation_alike o1 o2 :
  normalizeOperation tag marshal o1 = normalizeOperation tag marshal o2 ↔ alike_op o1 o2.
Proof.
  unfold normalizeOperation, alike_op. rewrite <- HR. split; [by intros [= -> ->]|by intros [-> ->]].
Qed.

Lemma normalizeV3_alike v1 v2 :
  normalizeV3 tag marshal v1 = normalizeV3 tag marshal v2 ↔ alike_v3 v1 v2.
Proof.
  unfold alike_v3, normalizeV3. rewrite <- !HR, <- (fmap_alike _ _ normalizeOperation_alike).
  rewrite <- (option_alike normalizeSoroban).
  2: { intros s1 s2. unfold normalizeSoroban. split; [by intros [= ?]|by intros ->]. }
  split; [by intros [= -> -> -> -> ->]|by intros (-> & -> & -> & -> & ->)].
Qed.

Lemma normalizeV4_alike v1 v2 :
  normalizeV4 tag marshal v1 = normalizeV4 tag marshal v2 ↔ alike_v4 v1 v2.
Proof.
  unfold alike_v4, normalizeV4. rewrite <- !HR, <- (fmap_alike _ _ normalizeOperation_alike).
  split; [by intros [= -> -> -> ->]|by intros (-> & -> & -> & ->)].
Qed.

Lemma normalizeMeta_alike m1 m2 :
  normalizeMeta tag marshal m1 = normalizeMeta tag marshal m2 ↔ alike_meta m1 m2.
Proof.
  pose proof (option_alike _ _ normalizeV3_alike) as H1. pose proof (option_alike _ _ normalizeV4_alike) as H2.
  unfold alike_meta, normalizeMeta. destruct m1 as [V1 a1 b1 r1], m2 as [V2 a2 b2 r2]. simpl. split.
  - assert (V1 = V2 ∨ V1 ≠ V2) as [->|Hne] by lia.
    + destruct (Z.eqb_spec V2 3) as [->|]; [|destruct (V2 =? 4)]; intros Heq; simplify_eq;
        split_and!; try done; [by apply H1|by apply H2].
    + destruct (Z.eqb_spec V1 3), (Z.eqb_spec V2 3), (Z.eqb_spec V1 4), (Z.eqb_spec V2 4);
        intros [= ?]; lia.
  - intros (-> & -> & Ha & Hb). destruct (Z.eqb_spec V2 3) as [->|]; simpl in Hb.
    + apply H1 in Ha. by rewrite Ha, Hb.
    + destruct (V2 =? 4); [apply H2 in Hb|]; by rewrite Ha, Hb.
Qed.

Lemma normalizeTx_alike v2 t1 t2 :
  normalizeTx tag marshal v2 t1 = normalizeTx tag marshal v2 t2 ↔ alike_tx v2 t1 t2.
Proof.
  unfold alike_tx, normalizeTx. destruct v2; rewrite <- normalizeMeta_alike, <- !HR;
    (split; [by intros [= -> -> -> ->]|by intros (-> & -> & -> & ->)]).
Qed.

Lemma normalizeTxs_alike v2 x1 x2 :
  normalizeTxs tag marshal v2 x1 = normalizeTxs tag marshal v2 x2 ↔ alike_txs v2 x1 x2.
Proof.
  unfold alike_txs, normalizeTxs. rewrite <- (fmap_alike _ _ (normalizeTx_alike v2)).
  split; [by intros [= -> ->]|by intros [-> ->]].
Qed.

(** Normalization forgets exactly the diagnostic events and what the canonical
    order of changes forgets. *)
Lemma normalizeForEquivalence_alike l1 l2 :
  normalizeForEquivalence tag marshal l1 = normalizeForEquivalence tag marshal l2 ↔ alike l1 l2.
Proof.
  pose proof (option_alike _ _ (normalizeTxs_alike false)) as H1. pose proof (option_alike _ _ (normalizeTxs_alike true)) as H2.
  unfold alike, normalizeForEquivalence. destruct l1 as [V1 a1 b1 r1], l2 as [V2 a2 b2 r2]. simpl. split.
  - assert (V1 = V2 ∨ V1 ≠ V2) as [->|Hne] by lia.
    + destruct (Z.eqb_spec V2 1) as [->|]; [|destruct (V2 =? 2)]; intros Heq; simplify_eq;
        split_and!; try done; [by apply H1|by apply H2].
    + destruct (Z.eqb_spec V1 1), (Z.eqb_spec V2 1), (Z.eqb_spec V1 2), (Z.eqb_spec V2 2);
        intros [= ?]; lia.
  - intros (-> & -> & Ha & Hb). destruct (Z.eqb_spec V2 1) as [->|]; simpl in Hb.
    + apply H1 in Ha. by rewrite Ha, Hb.
    + destruct (V2 =? 2); [apply H2 in Hb|]; by rewrite Ha, Hb.
Qed.
End alike.

Section alike_mono.
Context {C Rest : Type} (R1 R2 : relation (list C)) (H12 : ∀ x y, R1 x y → R2 x y).

Lemma alike_op_mono (o1 o2 : OperationMeta C Rest) : alike_op R1 o1 o2 → alike_op R2 o1 o2.
Proof. intros [? ?]. split; auto. Qed.

Lemma option_Forall2_mono {A} (P1 P2 : relation A) (HP : ∀ x y, P1 x y → P2 x y) o1 o2 :
  option_Forall2 P1 o1 o2 → option_Forall2 P2 o1 o2.
Proof. intros [x y Hxy|]; constructor; auto. Qed.

Lemma alike_meta_mono (m1 m2 : TransactionMeta C Rest) : alike_meta R1 m1 m2 → alike_meta R2 m1 m2.
Proof.
  intros (? & ? & H3 & H4). split; [done|]. split; [done|]. split.
  - destruct (tm_V m1 =? 3); [|done]. eapply option_Forall2_mono; [|exact H3].
    intros x y (? & ? & ? & ? & ?). split_and!; auto. eapply Forall2_impl; [done|]. apply alike_op_mono.
  - destruct (tm_V m1 =? 4); [|done]. eapply option_Forall2_mono; [|exact H4].
    intros x y (? & ? & ? & ?). split_and!; auto. eapply Forall2_impl; [done|]. apply alike_op_mono.
Qed.

Lemma alike_txs_mono v2 (x y : list (TxProcessing C Rest) * Rest) :
  alike_txs R1 v2 x y → alike_txs R2 v2 x y.
Proof.
  intros [Hl ?]. split; [|done]. eapply Forall2_impl; [exact Hl|]. intros t1 t2 (? & ? & ? & ?).
  split_and!; auto; [destruct v2; auto|by apply alike_meta_mono].
Qed.

Lemma alike_mono (l1 l2 : LedgerMeta C Rest) : alike R1 l1 l2 → alike R2 l1 l2.
Proof.
  intros (? & ? & H1 & H2). split; [done|]. split; [done|].
  split; [destruct (lm_V l1 =? 1)|destruct (lm_V l1 =? 2)]; try done;
    (eapply option_Forall2_mono; [|done]; apply alike_txs_mono).
Qed.
End alike_mono.

(** Equal normal forms differ only in debug output and the order of changes. *)
Lemma normalize_sound {C Rest} (tag : C → ChangeTag) (marshal : list C → option string)
    (l1 l2 : LedgerMeta C Rest) :
  normalizeForEquivalence tag marshal l1 = normalizeForEquivalence tag marshal l2 →
  alike Permutation l1 l2.
Proof.
  intros Hn. apply (normalizeForEquivalence_alike
    (λ x y, canonicalizeChanges tag marshal x = canonicalizeChanges tag marshal y)) in Hn; [|done].
  eapply alike_mono; [|exact Hn]. simpl. intros x y Hxy.
  by rewrite <- (canonicalizeChanges_perm tag marshal x), Hxy, canonicalizeChanges_perm.
Qed.

(** Another order of the change units, and other debug output, are no difference. *)
Lemma normalize_complete {C Rest} (tag : C → ChangeTag) (marshal : list C → option string)
    (l1 l2 : LedgerMeta C Rest) :
  (∀ u1 u2 raw, marshal u1 = Some raw → marshal u2 = Some raw → u1 = u2) →
  (∀ u, is_Some (marshal u)) →
  alike (λ x y, units tag x ≡ₚ units tag y) l1 l2 →
  normalizeForEquivalence tag marshal l1 = normalizeForEquivalence tag marshal l2.
Proof.
  intros Hinj Hdef Ha. apply (normalizeForEquivalence_alike
    (λ x y, canonicalizeChanges tag marshal x = canonicalizeChanges tag marshal y)); [done|].
  eapply alike_mono; [|exact Ha]. intros x y Hxy. by apply canonicalizeChanges_units.
Qed.

(** *** The gate *)
Section gate.
Context `{S : SDK} `{!SDKChanges} `{!LedgerHeaders} `{!LedgerMetas} (network : string) (w : world).

(** A ledger the RPC served. *)
Definition rpc_served (lcm : LedgerCloseMeta) : Prop :=
  ∃ n start limit ls, w_batch w n start limit = Ok ls ∧ lcm ∈ ls.

Definition sampled (m : gmap Z LedgerCloseMeta) : Prop :=
  ∀ seq lcm, m !! seq = Some lcm → in_Sequence (InfoOf lcm) = seq ∧ rpc_served lcm.

Lemma sampled_foldl ls (m : gmap Z LedgerCloseMeta) :
  sampled m → (∀ lcm, lcm ∈ ls → rpc_served lcm) →
  sampled (foldl (λ m lcm, <[in_Sequence (InfoOf lcm) := lcm]> m) m ls).
Proof.
  revert m. induction ls as [|x ls IH]; intros m Hm Hls; simpl; [done|]. apply IH.
  - intros seq lcm [[<- <-]|[_ Hl]]%lookup_insert_Some; [|by apply Hm]. split; [done|]. apply Hls. by left.
  - intros lcm Hl. apply Hls. by right.
Qed.

Lemma sampleLoop_ends fuel cp seq m o h :
  progresses w → 0 ≤ seq → cp < max_u32 → cp - seq < Z.of_nat fuel → sampled m →
  ∃ out n, sampleLoop w fuel cp seq m o h = Some (out, mkOutside n (o_db o), h) ∧
    ∀ m', out = Ok m' → sampled m'.
Proof.
  intros Hp. revert seq m o. induction fuel as [|fuel IH]; intros seq m o Hs Hcp Hf Hm; simpl.
  - assert (Hgt : (seq <=? cp) = false) by (apply Z.leb_gt; lia). rewrite Hgt. simpl.
    exists (Ok m), (o_calls o). split; [by destruct o|]. by intros ? [= <-].
  - destruct (Z.leb_spec seq cp) as [Hle|Hgt]; simpl negb; cbv iota.
    2: { exists (Ok m), (o_calls o). split; [by destruct o|]. by intros ? [= <-]. }
    unfold w_bind, GetLedgerBatch, ask. simpl. rewrite (u32_small (cp - seq)) by uarith.
    destruct (w_batch w (o_calls o) seq (cp - seq + 1)) as [ls|e] eqn:Hls.
    2: { eexists _, _. by split. }
    destruct (Hp _ _ _ _ Hls) as [Hlen1 Hlen2]; [lia|]. rewrite u32_small by uarith.
    apply (IH _ _ (mkOutside (Datatypes.S (o_calls o)) (o_db o))); [lia..|].
    apply sampled_foldl; [done|]. intros lcm Hin. by exists (o_calls o), seq, (cp - seq + 1), ls.
Qed.

(** Two encoders of one structure agree only on equal structures. *)
Definition encodes_faithfully : Prop := ∀ l1 l2 raw,
  MarshalBinary l1 = Some raw → MarshalBinary l2 = Some raw → l1 = l2.

(** The comparison's verdict on one ledger. *)
Definition matches_rpc (lcm : LedgerCloseMeta) : Prop :=
  ∃ rpcLcm, rpc_served rpcLcm ∧ in_Sequence (InfoOf rpcLcm) = in_Sequence (InfoOf lcm) ∧
    alike Permutation (meta_of lcm) (meta_of rpcLcm).

Lemma emits_compare m lcms :
  encodes_faithfully → sampled m → emits (compareLedger m) lcms tt = Ok tt → Forall matches_rpc lcms.
Proof.
  intros Hinj Hm. induction lcms as [|lcm lcms IH]; simpl; [constructor|]. unfold compareLedger at 1.
  destruct (m !! in_Sequence (InfoOf lcm)) as [rpcLcm|] eqn:Hl; [|done].
  destruct (MarshalBinary (normalized rpcLcm)) as [want|] eqn:Hw; [|done].
  destruct (MarshalBinary (normalized lcm)) as [got|] eqn:Hgot; [|done].
  case_bool_decide as Heq; [|done]. subst got. intros Hrest. constructor; [|by apply IH].
  destruct (Hm _ _ Hl). exists rpcLcm. split_and!; try done. eapply normalize_sound. by eapply Hinj.
Qed.

Lemma sample_bounds cur :
  is_u32 cur → 3 * checkpointFrequency ≤ cur →
  sampleEnd cur mod checkpointFrequency = checkpointFrequency - 1 ∧
  cur - 2 * checkpointFrequency < sampleEnd cur ≤ cur - checkpointFrequency ∧
  sampleStart (sampleEnd cur) = sampleEnd cur - equivalenceSample + 1.
Proof.
  unfold sampleStart, sampleEnd, checkpointFrequency, equivalenceSample. intros Hc Hlow.
  pose proof (Z.div_mod (cur - 64 + 1) 64 ltac:(lia)) as Hd.
  pose proof (Z.mod_pos_bound (cur - 64 + 1) 64 ltac:(lia)).
  rewrite (u32_small (cur - 64 + 1)) by uarith.
  set (q := (cur - 64 + 1) / 64) in *. assert (1 ≤ q) by lia.
  rewrite (u32_small (q * 64)) by uarith. rewrite (u32_small (q * 64 - 1)) by uarith.
  rewrite (u32_small (q * 64 - 1 - 8)) by uarith. rewrite u32_small by uarith.
  split; [|lia]. replace (q * 64 - 1) with (63 + (q - 1) * 64) by lia. rewrite Z.mod_add by lia. done.
Qed.

(** The gate has been passed: for a cursor of the database, a core reproduced
    the sample below it as the RPC serves it. *)
Definition gate_passed : Prop := ∃ cur lcms,
  is_u32 cur ∧ 3 * checkpointFrequency ≤ cur ∧
  core_run w (sampleEnd cur - equivalenceSample + 1) (sampleEnd cur) lcms ∧ Forall matches_rpc lcms.

Lemma run_LoadCursor now d cur d' :
  run now (LoadCursor network) d = Ok (cur, d') →
  d' = d ∧ ∃ row, db_cursor d !! network = Some row ∧ cur_Sequence cur = u32 (cur_Sequence row).
Proof.
  unfold LoadCursor. rewrite run_bind. simpl. destruct (db_cursor d !! network) as [row|]; simpl; [|done].
  intros [= <- <-]. split; [done|]. by exists row.
Qed.

(** What opened the gate on a database: a core reproduced, as the RPC serves it,
    the sample below the stored cursor. *)
Definition gate_opened (d : db) : Prop := ∃ row lcms,
  db_cursor d !! network = Some row ∧
  let cur := u32 (cur_Sequence row) in
  3 * checkpointFrequency ≤ cur ∧
  core_run w (sampleEnd cur - equivalenceSample + 1) (sampleEnd cur) lcms ∧ Forall matches_rpc lcms.

Lemma gate_opened_passed d : gate_opened d → gate_passed.
Proof.
  intros (row & lcms & _ & Hlow & Hcore & Hm). exists (u32 (cur_Sequence row)), lcms. split; [apply u32_range|done].
Qed.

Lemma verifyEquivalence_ends fuel o h :
  progresses w → encodes_faithfully → equivalenceSample ≤ Z.of_nat fuel →
  ∃ out n, verifyEquivalence network w fuel o h
      = Some (out, mkOutside n (w_others w (o_calls o) (o_db o)), h) ∧
    (out = Ok tt → gate_opened (w_others w (o_calls o) (o_db o))).
Proof.
  intros Hp Hinj Hfuel. unfold verifyEquivalence, w_bind at 1, transact.
  destruct (BeginFunc_atomic (w_faults w (o_calls o)) (w_now w (o_calls o)) (LoadCursor network)
    (w_others w (o_calls o) (o_db o))) as [(e & ->)|(cur & d' & -> & Hrun)].
  { eexists _, _. by split. }
  apply run_LoadCursor in Hrun as [-> (row & Hrow & Hseq)].
  assert (Hcur : is_u32 (cur_Sequence cur)) by (rewrite Hseq; apply u32_range). set (d := w_others w (o_calls o) (o_db o)).
  destruct (w_lost w (o_calls o)); [eexists _, _; by split|].
  destruct (Z.ltb_spec (cur_Sequence cur) (3 * checkpointFrequency)) as [Hlow|Hlow];
    [eexists _, _; by split|].
  destruct (sample_bounds _ Hcur Hlow) as (_ & Hend & Hstart). rewrite Hstart.
  unfold checkpointFrequency in *. set (cp := sampleEnd (cur_Sequence cur)) in *.
  assert (Hcp : cp < max_u32) by uarith. unfold equivalenceSample in *.
  unfold w_bind.
  destruct (sampleLoop_ends fuel cp (cp - 8 + 1) ∅ (mkOutside (Datatypes.S (o_calls o)) d) h)
    as (out & n & -> & Hm); [done|lia|lia|lia|by intros seq lcm; rewrite lookup_empty|].
  destruct out as [m|e]; [|eexists _, _; by split].
  destruct (ReplayRange_replays w (compareLedger m) fuel (cp - 8 + 1) cp tt ltac:(lia) Hcp ltac:(unfold span; lia)
    (mkOutside n d) h) as (out & n' & Hrun & Hok).
  exists out, n'. split; [exact Hrun|]. intros ->. destruct (Hok tt eq_refl) as (lcms & Hcore & Hems).
  exists row, lcms. split; [exact Hrow|]. rewrite <- Hseq. do 2 (split; [done|]).
  eapply emits_compare; [done| |done]. by apply Hm.
Qed.

(** What the wait leaves to the workers. *)
Lemma awaitVerified_triple {P : db → Prop} (inFlight : gset string) fuel turns :
  progresses w → encodes_faithfully → equivalenceSample ≤ Z.of_nat fuel →
  (∀ n d, P d → P (w_others w n d)) →
  triple (λ o h, P (o_db o) ∧ hl_inFlight h = inFlight) (awaitVerified network w fuel turns)
    (λ ok o h, P (o_db o) ∧ hl_inFlight h = inFlight ∧ (ok = true → gate_passed ∧ hl_verified h = true)).
Proof.
  intros Hp Hinj Hfuel HP. set (I := λ (o : outside) (h : healer), P (o_db o) ∧ hl_inFlight h = inFlight).
  assert (Hfalse : triple I (w_ret false)
    (λ ok o h, P (o_db o) ∧ hl_inFlight h = inFlight ∧ (ok = true → gate_passed ∧ hl_verified h = true))).
  { apply triple_ret. intros o h [? ?]. by split_and!. }
  induction turns as [|turns IH]; simpl; [apply triple_hung|].
  assert (Hagain : triple I (fired <-w nap w ; if (fired : bool) then awaitVerified network w fuel turns else w_ret false)
    (λ ok o h, P (o_db o) ∧ hl_inFlight h = inFlight ∧ (ok = true → gate_passed ∧ hl_verified h = true))).
  { eapply (triple_bind _ _ _ (λ _, I)); [|intros []; [apply IH|apply Hfalse]].
    unfold nap. eapply (triple_bind _ _ _ (λ _, I)); [by apply triple_ask|]. intros fired.
    eapply (triple_bind _ _ _ (λ _, I)); [by apply triple_modify|]. intros []. by apply triple_ret. }
  eapply (triple_bind _ _ _ (λ _, I)); [by apply triple_ask|]. intros dead.
  apply triple_if; intros _; [apply Hfalse|].
  eapply (triple_bind _ _ _ (λ _, I)).
  { apply triple_transact. intros n d h [Hd Hf] dn. split; [intros e; split; [by apply HP|done]|].
    intros gaps d' [= <- <-]. split; [split; [by apply HP|done]|intros e; split; [by apply HP|done]]. }
  intros [[|g gaps]|e]; [apply Hagain| |apply Hagain].
  eapply (triple_bind _ _ _ (λ out o h, I o h ∧ (out = Ok tt → gate_passed))).
  { intros o h [Hd Hf]. destruct (verifyEquivalence_ends fuel o h Hp Hinj Hfuel) as (out & n & -> & Hok).
    split; [split; [by apply HP|done]|]. intros Ho. by eapply gate_opened_passed, Hok. }
  intros [[]|e].
  - eapply (triple_bind _ _ _ (λ _ o h, I o h ∧ gate_passed ∧ hl_verified h = true)).
    + apply triple_modify. intros o h [[? ?] Hg]. split; [by split|]. split; [by apply Hg|done].
    + intros []. apply triple_ret. intros o h [[? ?] ?]. by split_and!.
  - eapply (triple_pre _ _ I); [by intros o h [? _]|].
    eapply (triple_bind _ _ _ (λ _, I)); [by apply triple_ask|]. intros dead2.
    apply triple_if; intros _; [apply Hfalse|].
    eapply (triple_bind _ _ _ (λ _, I)); [by apply triple_modify|]. intros []. apply Hfalse.
Qed.
End gate.

(** A committed chunk: its records are in, its gap's row moved. *)
Lemma CommitHealChunk_Ok net gap newNextTo resolved goNow r now d d' :
  run now (CommitHealChunk net gap newNextTo resolved goNow r) d = Ok (tt, d') →
  add_records net r (get_tables d) = Ok (get_tables d') ∧
  db_gaps d' = heal_gaps net gap newNextTo resolved goNow (db_gaps d) ∧
  affected (advance_cond net (gap_ID gap)) (db_gaps d) ≠ 0.
Proof.
  rewrite run_CommitHealChunk. destruct (add_records net r (get_tables d)) as [t|]; [|done].
  destruct (Z.eqb_spec (affected (advance_cond net (gap_ID gap)) (db_gaps d)) 0) as [|Hne]; [done|].
  cbv zeta. intros [= <-]. rewrite get_put_tables. split; [done|]. split; [by destruct d|done].
Qed.

(** *** What the workers guarantee together *)
Section system.
Context `{S : SDK} `{!SDKChanges} `{!LedgerHeaders} `{!LedgerMetas} (net passphrase : string)
  (chunk : Z) (w : world).

(** Ledger [l] was replayed: the extraction of a core's copy of it, under the
    registrations of the time, is stored for every contract. *)
Definition healed (d : db) (l : Z) : Prop := ∃ k lcm r,
  (∃ n, w_core w n l = Ok lcm) ∧ in_Sequence (InfoOf lcm) = l ∧
  Events lcm passphrase (w_snap w k) = Some r ∧ ∀ cid, stored net (records_of cid r) (get_tables d).

(** An open gap row the healer can work on. *)
Definition pending_row (r : gap_row) : Prop :=
  row_open net r → 1 ≤ g_from r ≤ heal_next r ∧ heal_next r ≤ g_to r < max_u32.

(** The other writers, when nobody reopens or replans a gap: they add records
    and gaps (the live loop does, and the backfiller
    where the gap under its wall overlaps no partly healed one). *)
Definition gap_bystanders : Prop := ∀ n d,
  keeps_stored net (get_tables d) (get_tables (w_others w n d)) ∧
  (∀ id r, db_gaps d !! id = Some r → db_gaps (w_others w n d) !! id = Some r) ∧
  (∀ id r, db_gaps (w_others w n d) !! id = Some r → db_gaps d !! id = Some r ∨ pending_row r).

Context (Hby : gap_bystanders) (Hchunk : 1 ≤ chunk ≤ max_u32) (d0 : db).

(** Every ledger promised in [d0] is still promised by its gap, or healed. *)
Definition promises_kept (d : db) : Prop := ∀ id r0 l,
  db_gaps d0 !! id = Some r0 → row_open net r0 → g_from r0 ≤ l ≤ heal_next r0 →
  (∃ r, db_gaps d !! id = Some r ∧ row_open net r ∧ g_from r ≤ l ≤ heal_next r) ∨ healed d l.

Definition rows_ok (d : db) : Prop := ∀ id r, db_gaps d !! id = Some r →
  pending_row r ∧ ∀ r0, db_gaps d0 !! id = Some r0 → g_from r = g_from r0 ∧ g_to r = g_to r0.

(** A listed gap, maybe stale: what lies between its watermark and its row's is
    healed, on whichever side. *)
Definition gap_ok (d : db) (g : Gap) : Prop :=
  healable g ∧ gap_HealNextTo g ≤ gap_To g ∧
  ∃ r, db_gaps d !! gap_ID g = Some r ∧ g_from r = gap_From g ∧ g_to r = gap_To g ∧
    (row_open net r → ∀ l, Z.min (gap_HealNextTo g) (heal_next r) < l →
       l ≤ Z.max (gap_HealNextTo g) (heal_next r) → healed d l).

(** The database moved on without losing a row or a record. *)
Definition grows (d d' : db) : Prop :=
  keeps_stored net (get_tables d) (get_tables d') ∧
  ∀ id r, db_gaps d !! id = Some r → ∃ r', db_gaps d' !! id = Some r' ∧
    g_from r' = g_from r ∧ g_to r' = g_to r.

Definition db_ok (d : db) : Prop := rows_ok d ∧ promises_kept d.

Lemma grows_refl d : grows d d.
Proof. split; [by intros r|]. intros id r Hr. by exists r. Qed.

Lemma healed_grows d d' l : grows d d' → healed d l → healed d' l.
Proof. intros [Hk _] (k & lcm & r & ? & ? & ? & Hs). exists k, lcm, r. split_and!; auto. Qed.

Lemma others_grow n d : grows d (w_others w n d).
Proof. destruct (Hby n d) as (Hk & Hr & _). split; [done|]. intros id r Hid. exists r. by auto. Qed.

(** What was listed stays accounted for. *)
Definition keeps_gaps (d d' : db) : Prop := ∀ g, gap_ok d g → gap_ok d' g.

Lemma others_keep_gaps n d : keeps_gaps d (w_others w n d).
Proof.
  intros g (Hh & Ht & r & Hr & Hf & Hto & Hl). destruct (Hby n d) as (_ & Hrows & _).
  split; [done|]. split; [done|]. exists r. split; [by apply Hrows|]. split_and!; try done.
  intros Ho l ??. eapply healed_grows; [apply others_grow|]. by apply Hl.
Qed.

Lemma db_ok_others n d : rows_ok d → (∀ id r, db_gaps d0 !! id = Some r → is_Some (db_gaps d !! id)) →
  promises_kept d → db_ok (w_others w n d).
Proof.
  intros Hrows Hold Hp. destruct (Hby n d) as (Hk & Hr & Hn). split.
  - intros id r Hid. split.
    + destruct (Hn _ _ Hid) as [Hd|]; [|done]. by apply (Hrows _ _ Hd).
    + intros r0 Hd0. destruct (Hold _ _ Hd0) as [r1 Hd1]. rewrite (Hr _ _ Hd1) in Hid. injection Hid as <-.
      by apply (Hrows _ _ Hd1).
  - intros id r0 l Hd0 Ho Hl. destruct (Hp id r0 l Hd0 Ho Hl) as [(r & Hid & Hopen & Hn')|Hh].
    + left. exists r. auto.
    + right. eapply healed_grows; [apply others_grow|done].
Qed.

(** What the store lists is up to date with what is healed. *)
Lemma listed_ok d : db_ok d →
  Forall (gap_ok d) (scanGap <$> sort_by_desc (λ row, g_to row.2)
    (sel (λ _ r, is_open net r && bool_decide (g_heal_mode r = HealModeReplay)) (db_gaps d))).
Proof.
  intros [Hrows Hp]. apply Forall_fmap, Forall_forall. intros [id r] Hin.
  apply elem_of_sort_by_desc, elem_of_sel in Hin as [Hr Hc].
  apply andb_true_iff in Hc as [Hopen _]. apply is_open_spec in Hopen. 
  destruct (Hrows id r Hr) as [Hpend Hsame]. destruct (Hpend Hopen) as [[Ha Hb] [Hc Hd]].
  assert (Hnext : gap_HealNextTo (scanGap (id, r)) = heal_next r).
  { unfold heal_next in *. simpl. destruct (g_heal_next_to r); simpl in *; apply u32_small; uarith. }
  unfold compose, gap_ok, healable. rewrite Hnext. cbn [scanGap gap_ID gap_From gap_To].
  rewrite !u32_small by uarith. split; [lia|]. split; [lia|]. exists r. split_and!; try done. lia.
Qed.

(** The ledgers of a committed chunk are healed. *)
Lemma chunk_read_healed from to acc d t d' l :
  chunk_read passphrase w from to acc → add_records net (all_records acc) (get_tables d) = Ok t →
  get_tables d' = t → from ≤ l ≤ to → healed d' l.
Proof.
  intros (k & lcms & [Hseq Hall] & _ & Hx) Hadd <- Hl.
  assert (Hlk : ((λ lcm, in_Sequence (InfoOf lcm)) <$> lcms) !! Z.to_nat (l - from) = Some l).
  { rewrite Hseq. apply lookup_seqZ. unfold span. lia. }
  apply list_lookup_fmap_Some in Hlk as (lcm & Hs & Hlcm). simpl in Hs.
  apply (Forall_lookup_1 _ _ _ _ Hall) in Hlcm as Hcore. rewrite <- Hs in Hcore.
  destruct (extracted_in passphrase (w_snap w k) "" lcms acc lcm Hx) as (r & Hr & _);
    [by eapply list_elem_of_lookup_2|].
  exists k, lcm, r. split; [done|]. split; [done|]. split; [done|]. intros cid.
  destruct (extracted_in passphrase (w_snap w k) cid lcms acc lcm Hx) as (r' & Hr' & Hsub);
    [by eapply list_elem_of_lookup_2|]. rewrite Hr in Hr'. injection Hr' as <-.
  eapply stored_sub; [exact Hsub|]. eapply stored_sub; [apply records_of_sub|by eapply add_records_stored].
Qed.

(** The commit of a chunk of a listed gap. *)
Section commit.
Context (d d' : db) (g : Gap) (now goNow : Z) (acc : Result).
Context (Hg : gap_ok d g) (Hread : chunk_read passphrase w (chunkFrom chunk g) (gap_HealNextTo g) acc).
Context (Hrun : run now (CommitHealChunk net g (chunkFrom chunk g - 1)
  (bool_decide (chunkFrom chunk g = gap_From g)) goNow (all_records acc)) d = Ok (tt, d')).

Abbreviation from := (chunkFrom chunk g).
Abbreviation resolved := (bool_decide (from = gap_From g)).

Lemma commit_open r : db_gaps d !! gap_ID g = Some r → row_open net r.
Proof.
  intros Hr. destruct (CommitHealChunk_Ok _ _ _ _ _ _ _ _ _ Hrun) as (_ & _ & Hne).
  destruct (decide (row_open net r)) as [|Hno]; [done|]. destruct Hne. apply affected_zero.
  intros k v Hk. unfold advance_cond. apply andb_false_iff. destruct (decide (k = gap_ID g)) as [->|Hne'].
  - left. rewrite Hr in Hk. injection Hk as <-. apply not_true_iff_false. by rewrite is_open_spec.
  - right. by apply bool_decide_eq_false.
Qed.

Lemma commit_from : gap_From g ≤ from ≤ gap_HealNextTo g ∧ gap_HealNextTo g ≤ gap_To g.
Proof. destruct Hg as (Hh & Ht & _). rewrite (chunkFrom_spec chunk g Hchunk Hh). destruct Hh. lia. Qed.

Lemma commit_row r : db_gaps d !! gap_ID g = Some r → ∀ k x, db_gaps d' !! k = Some x ↔
  (k ≠ gap_ID g ∧ db_gaps d !! k = Some x) ∨
  (k = gap_ID g ∧ x = advance_row (from - 1) (if resolved then Some goNow else None) r).
Proof.
  intros Hr k x. destruct (CommitHealChunk_Ok _ _ _ _ _ _ _ _ _ Hrun) as (_ & Hgaps & _).
  rewrite Hgaps, (heal_gaps_lookup (db_gaps d) net (gap_ID g) r); [done|done|by apply commit_open|done].
Qed.

Lemma commit_grows : grows d d'.
Proof.
  destruct (CommitHealChunk_Ok _ _ _ _ _ _ _ _ _ Hrun) as (Hadd & _).
  split; [by eapply add_records_keeps|]. intros id x Hx.
  destruct Hg as (_ & _ & r & Hr & _). pose proof (commit_row r Hr) as Hrow.
  destruct (decide (id = gap_ID g)) as [->|Hne'].
  - rewrite Hr in Hx. injection Hx as <-. eexists. split; [apply Hrow; by right|]. by split.
  - exists x. split; [apply Hrow; by left|]. by split.
Qed.

(** What it moved its row's watermark over is healed. *)
Lemma commit_healed r l : db_gaps d !! gap_ID g = Some r →
  Z.min (from - 1) (heal_next r) < l → l ≤ Z.max (from - 1) (heal_next r) → healed d' l.
Proof.
  intros Hr Hlo Hhi. destruct Hg as (_ & _ & r' & Hr' & _ & _ & Hpast). rewrite Hr in Hr'. injection Hr' as <-.
  pose proof commit_from. destruct (decide (from ≤ l ≤ gap_HealNextTo g)) as [Hin|Hout].
  - destruct (CommitHealChunk_Ok _ _ _ _ _ _ _ _ _ Hrun) as (Hadd & _).
    by eapply (chunk_read_healed from (gap_HealNextTo g) acc d (get_tables d')).
  - eapply healed_grows; [apply commit_grows|]. apply Hpast; [by apply commit_open|lia..].
Qed.

Lemma commit_keeps_gaps : keeps_gaps d d'.
Proof.
  intros g2 (Hh & Ht & r2 & Hr2 & Hf2 & Ht2 & Hpast). split; [done|]. split; [done|].
  destruct Hg as (_ & _ & r & Hr & _). pose proof (commit_row r Hr) as Hrow.
  destruct (decide (gap_ID g2 = gap_ID g)) as [Heq|Hne].
  - rewrite Heq in *. rewrite Hr in Hr2. injection Hr2 as <-. eexists. split; [apply Hrow; by right|].
    split; [done|]. split; [done|]. intros _ l. change (heal_next (advance_row _ _ r)) with (from - 1).
    intros Hlo Hhi.
    destruct (decide (Z.min (gap_HealNextTo g2) (heal_next r) < l ∧ l ≤ Z.max (gap_HealNextTo g2) (heal_next r)))
      as [[? ?]|Hout].
    + eapply healed_grows; [apply commit_grows|]. apply Hpast; [by apply commit_open|done..].
    + apply (commit_healed r l Hr); lia.
  - exists r2. split; [apply Hrow; by left|]. split_and!; try done. intros Ho l ??.
    eapply healed_grows; [apply commit_grows|]. by apply Hpast.
Qed.

Lemma commit_ok : db_ok d → db_ok d'.
Proof.
  intros [Hrows Hp]. assert (Hg' := Hg). destruct Hg' as (_ & _ & r & Hr & Hf & Ht & _).
  pose proof (commit_row r Hr) as Hrow. pose proof commit_from. destruct (Hrows _ _ Hr) as [Hpend Hsame].
  destruct (Hpend (commit_open r Hr)) as [[??]?]. split.
  - intros id x [[_ Hx]|[-> ->]]%Hrow; [by apply Hrows|]. split; [|done].
    intros Hox. change (g_from (advance_row _ _ r)) with (g_from r). change (g_to (advance_row _ _ r)) with (g_to r).
    change (heal_next (advance_row _ _ r)) with (from - 1).
    case_bool_decide as Hres; [by destruct Hox|]. lia.
  - intros id r0 l Hd0 Ho0 Hl.
    destruct (Hp id r0 l Hd0 Ho0 Hl) as [(x & Hx & Hox & Hle)|Hhl]; [|right; by eapply healed_grows, Hhl; apply commit_grows].
    destruct (decide (id = gap_ID g)) as [->|Hne']; [|left; exists x; split; [apply Hrow; by left|done]].
    rewrite Hr in Hx. injection Hx as <-.
    destruct (decide (from ≤ l)) as [Hfl|Hfl]; [right; apply (commit_healed r l Hr); lia|].
    left. eexists. split; [apply Hrow; by right|]. destruct (Hsame _ Hd0). rewrite bool_decide_eq_false_2 by lia.
    split; [apply (commit_open r Hr)|]. change (heal_next (advance_row _ _ r)) with (from - 1). simpl. lia.
Qed.
End commit.

(** A judgement about the database that the other writers preserve, and so does
    the commit of a chunk whose replay is [acc], of an open gap as it was
    listed, where what it discharges without having read is healed already. *)
Record heals_respected (K : db → Prop) : Prop := {
  hr_others : ∀ n d, K d → K (w_others w n d);
  hr_chunk : ∀ g goNow acc r now d d', let from := chunkFrom chunk g in
    K d → db_gaps d !! gap_ID g = Some r → row_open net r →
    gap_From g = g_from r → gap_To g = g_to r → gap_From g ≤ from ≤ gap_To g →
    chunk_read passphrase w from (gap_HealNextTo g) acc →
    (∀ l, gap_HealNextTo g < l ≤ heal_next r → healed d l) →
    run now (CommitHealChunk net g (from - 1) (bool_decide (from = gap_From g)) goNow (all_records acc)) d
      = Ok (tt, d') → K d' }.

Context (K : db → Prop) (HK : heals_respected K).

Lemma commit_respected d d' g now goNow acc :
  gap_ok d g → chunk_read passphrase w (chunkFrom chunk g) (gap_HealNextTo g) acc →
  run now (CommitHealChunk net g (chunkFrom chunk g - 1)
    (bool_decide (chunkFrom chunk g = gap_From g)) goNow (all_records acc)) d = Ok (tt, d') →
  K d → K d'.
Proof.
  intros Hg Hread Hrun HKd. pose proof (commit_from d g Hg). assert (Hg' := Hg).
  destruct Hg' as (_ & _ & r & Hr & Hf & Ht & Hpast).
  assert (Ho : row_open net r) by (by eapply commit_open).
  eapply (hr_chunk _ HK); [exact HKd|exact Hr|exact Ho|done..|lia|exact Hread| |exact Hrun].
  intros l Hl. apply Hpast; [done|lia..].
Qed.

(** *** The steps *)
Context (Hprog : progresses w) (Henc : encodes_faithfully) (fuel turns : nat) (nworkers chunkNow : Z).
Context (Hfuel : equivalenceSample ≤ Z.of_nat fuel) (Hcfuel : chunk ≤ Z.of_nat fuel).

Definition phase_ok (d : db) (ph : phase) : Prop :=
  match ph with
  | Idle => True
  | Listed gaps => Forall (gap_ok d) gaps
  | Healing g => gap_ok d g
  end.

Definition sound_db (d : db) : Prop := db_ok d ∧ grows d0 d ∧ K d.

Definition system_ok (s : workers) : Prop :=
  sound_db (o_db (wk_outside s)) ∧ Forall (phase_ok (o_db (wk_outside s))) (wk_phases s) ∧
  (wk_phases s ≠ [] → gate_passed w).

Lemma grows_trans d1 d2 d3 : grows d1 d2 → grows d2 d3 → grows d1 d3.
Proof.
  intros [K1 G1] [K2 G2]. split; [by intros r Hr; apply K2, K1|]. intros id r Hr.
  destruct (G1 _ _ Hr) as (r1 & Hr1 & E1 & E2). destruct (G2 _ _ Hr1) as (r2 & Hr2 & E3 & E4).
  exists r2. split; [done|]. by rewrite E3, E4.
Qed.

Lemma sound_others n d : sound_db d → sound_db (w_others w n d).
Proof.
  intros ([Hrows Hp] & Hg & HKd). split_and!; [|eapply grows_trans; [exact Hg|apply others_grow]|by apply HK].
  apply db_ok_others; [done| |done]. intros id r Hr. destruct Hg as [_ Hg].
  destruct (Hg _ _ Hr) as (r' & Hr' & _). by exists r'.
Qed.

Lemma phase_ok_keeps d d' ph : keeps_gaps d d' → phase_ok d ph → phase_ok d' ph.
Proof.
  intros Hg. destruct ph as [|gaps|g]; simpl; [done| |by apply Hg].
  intros Hf. by eapply Forall_impl; [exact Hf|].
Qed.

Lemma phases_ok_update d d' ps i ph :
  keeps_gaps d d' → Forall (phase_ok d) ps → phase_ok d' ph → Forall (phase_ok d') (<[i := ph]> ps).
Proof.
  intros Hg Hps Hph. apply Forall_insert; [|done]. eapply Forall_impl; [exact Hps|].
  intros ph'. by apply phase_ok_keeps.
Qed.

Lemma claim_in gaps inFlight g f : claim gaps inFlight = Some (g, f) →
  g ∈ gaps ∧ ¬ (gap_ID g ∈ inFlight) ∧ f = ({[gap_ID g]} ∪ inFlight).
Proof.
  induction gaps as [|g1 gaps IH]; simpl; [done|]. case_decide as Hin.
  - intros Hc. destruct (IH Hc) as (? & ? & ?). split; [by right|done].
  - intros [= <- <-]. split; [by left|done].
Qed.

Lemma chunk_step_ok d g o h out o' h' :
  o_db o = d → sound_db d → gap_ok d g →
  healChunk net passphrase chunk w fuel g chunkNow o h = Some (out, o', h') →
  sound_db (o_db o') ∧ keeps_gaps d (o_db o') ∧ hl_inFlight h' = hl_inFlight h.
Proof.
  intros <- Hs Hg Hrun.
  destruct (healChunk_done net passphrase chunk w fuel g chunkNow o h Hchunk) as (out' & n & d' & h2 & Heq & Hdone);
    [apply Hg|lia|]. rewrite Heq in Hrun. injection Hrun as <- <- <-. simpl.
  assert (Hcommit : ∀ k acc, chunk_read passphrase w (chunkFrom chunk g) (gap_HealNextTo g) acc →
    run (w_now w k) (CommitHealChunk net g (chunkFrom chunk g - 1)
      (bool_decide (chunkFrom chunk g = gap_From g)) chunkNow (all_records acc)) (w_others w k (o_db o))
      = Ok (tt, d') → sound_db d' ∧ keeps_gaps (o_db o) d').
  { intros k acc Hread Hc. destruct (sound_others k _ Hs) as (Hok & Hgr & HKd).
    assert (Hg1 : gap_ok (w_others w k (o_db o)) g) by by apply others_keep_gaps.
    split; [split_and!|].
    - by eapply (commit_ok (w_others w k (o_db o))).
    - eapply grows_trans; [exact Hgr|by eapply commit_grows].
    - by eapply commit_respected.
    - intros g2 Hg2. eapply (commit_keeps_gaps (w_others w k (o_db o)) d' g); [done..|].
      by apply others_keep_gaps. }
  destruct out' as [[]|e]; simpl in Hdone.
  - destruct Hdone as (k & acc & Hread & Hc & ->). destruct (Hcommit k acc Hread Hc). by split_and!.
  - destruct Hdone as [-> [->|[[k ->]|(k & acc & Hread & Hc)]]].
    + split_and!; [done|by intros ?|done].
    + split_and!; [by apply sound_others|apply others_keep_gaps|done].
    + destruct (Hcommit k acc Hread Hc). by split_and!.
Qed.

Lemma system_step s s' :
  system_ok s → healer_step net passphrase chunk w fuel turns nworkers chunkNow s s' → system_ok s'.
Proof.
  intros (Hdb & Hph & Hgate) Hstep. destruct Hstep as [o h o' h' Hv Hrun|o h ps i out o' h' Hi Hrun|
    o h ps i gaps Hi|o h ps i g out o' h' Hi Hrun]; simpl in *.
  - pose proof (awaitVerified_triple net w (P := sound_db) (hl_inFlight h) fuel turns Hprog Henc Hfuel sound_others
      o (SetArchiveState ArchiveStateUnverified h) (conj Hdb eq_refl)) as Ht.
    rewrite Hrun in Ht. destruct Ht as (Hd & _ & Hg). split_and!; [done| |by intros _; apply Hg].
    apply Forall_replicate. done.
  - unfold transact in Hrun. simpl in Hrun. set (d := w_others w (o_calls o) (o_db o)) in *.
    assert (Hd : sound_db d) by by apply sound_others.
    assert (Hg : keeps_gaps (o_db o) d) by apply others_keep_gaps.
    destruct (BeginFunc_atomic (w_faults w (o_calls o)) (w_now w (o_calls o)) (ListOpenGaps net) d)
      as [(e & He)|(l & d' & Hl & Hrun')]; rewrite ?He, ?Hl in Hrun; injection Hrun as <- <- <-; simpl.
    + split_and!; [done| |done]. eapply Forall_impl; [exact Hph|]. intros ph. by apply phase_ok_keeps.
    + simpl in Hrun'. injection Hrun' as <- <-. destruct (w_lost w _).
      * split_and!; [done| |done]. eapply Forall_impl; [exact Hph|]. intros ph. by apply phase_ok_keeps.
      * split_and!; [done| |].
        -- eapply phases_ok_update; [exact Hg|done|]. apply listed_ok. apply Hd.
        -- intros _. apply Hgate. intros ->. done.
  - assert (Hgt : gate_passed w) by (apply Hgate; by intros ->).
    apply Forall_lookup_1 with (i := i) (x := Listed gaps) in Hph as Hl; [|done]. simpl in Hl.
    destruct (claim gaps (hl_inFlight h)) as [[g f]|] eqn:Hc; simpl.
    + split_and!; [done| |done]. eapply phases_ok_update; [by intros ?|done|].
      apply claim_in in Hc as (Hin & _). rewrite Forall_forall in Hl. by apply Hl.
    + split_and!; [done| |done]. by eapply phases_ok_update; [by intros ?|done|].
  - assert (Hgt : gate_passed w) by (apply Hgate; by intros ->).
    apply Forall_lookup_1 with (i := i) (x := Healing g) in Hph as Hg; [|done]. simpl in Hg.
    destruct (chunk_step_ok (o_db o) g o h out o' h') as (Hd & Hgr & _); [done..|].
    split_and!; [done| |done]. by eapply phases_ok_update.
Qed.

(** From a database whose open gaps can be worked on, the invariant holds. *)
Lemma workers_ok o h s :
  o_db o = d0 → K d0 → (∀ id r, db_gaps d0 !! id = Some r → pending_row r) →
  rtc (healer_step net passphrase chunk w fuel turns nworkers chunkNow) (mkWorkers o h []) s → system_ok s.
Proof.
  intros Ho HKd Hpend Hsteps. eapply (rtc_ind_r system_ok); [|intros s1 s2 _ ??; by eapply system_step|exact Hsteps].
  unfold system_ok, sound_db. cbn [wk_outside wk_phases]. rewrite Ho.
  split_and!; [|apply grows_refl|done|constructor|done]. split.
  - intros id r Hr. split; [by eapply Hpend|]. intros r0 Hr0. rewrite Hr in Hr0. by injection Hr0 as <-.
  - intros id r0 l Hr0 Hopen Hl. left. by exists r0.
Qed.
End system.

(** *** Claims *)
Section claims.
Context `{S : SDK} `{!SDKChanges} `{!LedgerHeaders} `{!LedgerMetas} (net passphrase : string)
  (chunk : Z) (w : world) (fuel turns : nat) (nworkers chunkNow : Z).

Abbreviation step := (healer_step net passphrase chunk w fuel turns nworkers chunkNow).

(** A worker holds a gap; the set of claims is exactly what the workers hold. *)
Definition holds (s : workers) (i : nat) (id : string) : Prop :=
  ∃ g, wk_phases s !! i = Some (Healing g) ∧ gap_ID g = id.

Definition exclusive (s : workers) : Prop :=
  (∀ i j id, holds s i id → holds s j id → i = j) ∧
  (∀ id, id ∈ hl_inFlight (wk_healer s) ↔ ∃ i, holds s i id).

Lemma holds_insert o h ps i ph j id :
  (i < length ps)%nat →
  holds (mkWorkers o h (<[i := ph]> ps)) j id ↔
  (j = i ∧ ∃ g, ph = Healing g ∧ gap_ID g = id) ∨ (j ≠ i ∧ ∃ g, ps !! j = Some (Healing g) ∧ gap_ID g = id).
Proof.
  intros Hi. unfold holds. simpl. destruct (decide (j = i)) as [->|Hne].
  - rewrite list_lookup_insert_eq by done. split.
    + intros (g & [= ->] & <-). left. split; [done|]. by exists g.
    + intros [[_ (g & -> & <-)]|[? _]]; [by exists g|done].
  - rewrite list_lookup_insert_ne by done. split; [by right|]. by intros [[? _]|[_ ?]].
Qed.

(** A worker that holds nothing before and after its step changes no holding. *)
Lemma exclusive_quiet o h o' h' ps i ph0 ph :
  ps !! i = Some ph0 → (∀ g, ph0 ≠ Healing g) → (∀ g, ph ≠ Healing g) → hl_inFlight h' = hl_inFlight h →
  exclusive (mkWorkers o h ps) → exclusive (mkWorkers o' h' (<[i := ph]> ps)).
Proof.
  intros Hi Hph0 Hph Hf [Hu Hset]. assert (Hlt : (i < length ps)%nat) by (by eapply lookup_lt_Some).
  assert (Hsame : ∀ j id, holds (mkWorkers o' h' (<[i := ph]> ps)) j id ↔ holds (mkWorkers o h ps) j id).
  { intros j id. rewrite holds_insert by done. unfold holds. simpl. split.
    - by intros [[_ (g & Hg & _)]|[_ ?]]; [destruct (Hph g)|].
    - intros (g & Hg & Hid). right. split; [|by exists g]. intros ->. rewrite Hi in Hg.
      injection Hg as ->. by destruct (Hph0 g). }
  split; [intros j k id; rewrite !Hsame; apply Hu|]. simpl in *. intros id. rewrite Hf, Hset.
  split; intros [j Hj]; exists j; by apply Hsame.
Qed.

(** Replays and samples leave the healer's state alone. *)
Lemma ReplayRange_quiet {X} (I : healer → Prop) (emit : LedgerCloseMeta → X → res X) from to x :
  triple (λ _, I) (ReplayRange w fuel from to emit x) (λ _ _, I).
Proof.
  unfold ReplayRange. apply triple_if; intros _; [by apply triple_ret|].
  eapply (triple_bind _ _ _ (λ _ _, I)); [by apply triple_ask|]. intros [[]|e]; [|by apply triple_ret].
  revert from x. induction fuel as [|fuel' IH]; intros seq x; simpl;
    (apply triple_if; intros _; [by apply triple_ret|]); [apply triple_hung|].
  eapply (triple_bind _ _ _ (λ _ _, I)); [by apply triple_ask|]. intros [lcm|e]; [|by apply triple_ret].
  apply triple_if; intros _; [by apply triple_ret|].
  destruct (emit lcm x); [apply IH|by apply triple_ret].
Qed.

Lemma sampleLoop_quiet (I : healer → Prop) cp seq m :
  triple (λ _, I) (sampleLoop w fuel cp seq m) (λ _ _, I).
Proof.
  revert seq m. induction fuel as [|fuel' IH]; intros seq m; simpl;
    (apply triple_if; intros _; [by apply triple_ret|]); [apply triple_hung|].
  eapply (triple_bind _ _ _ (λ _ _, I)); [by apply triple_ask|]. intros [ls|e]; [apply IH|by apply triple_ret].
Qed.

Lemma healChunk_inFlight g o h out o' h' :
  healChunk net passphrase chunk w fuel g chunkNow o h = Some (out, o', h') → hl_inFlight h' = hl_inFlight h.
Proof.
  set (I := λ h1, hl_inFlight h1 = hl_inFlight h).
  assert (Ht : triple (λ _, I) (healChunk net passphrase chunk w fuel g chunkNow) (λ _ _, I)).
  { unfold healChunk. eapply (triple_bind _ _ _ (λ _ _, I)); [by apply triple_ask|]. intros snap.
    eapply triple_bind; [apply ReplayRange_quiet|]. intros [[prev acc]|e]; [|by apply triple_ret].
    eapply (triple_bind _ _ _ (λ _ _, I)); [by apply triple_transact|]. intros [[]|e]; [|by apply triple_ret].
    eapply (triple_bind _ _ _ (λ _ _, I)); [by apply triple_modify|]. intros []. by apply triple_ret. }
  intros Hrun. specialize (Ht o h eq_refl). by rewrite Hrun in Ht.
Qed.

Lemma awaitVerified_inFlight o h ok o' h' :
  awaitVerified net w fuel turns o h = Some (ok, o', h') → hl_inFlight h' = hl_inFlight h.
Proof.
  set (I := λ h1, hl_inFlight h1 = hl_inFlight h).
  assert (Ht : triple (λ _, I) (awaitVerified net w fuel turns) (λ _ _, I)).
  { induction turns as [|turns' IH]; simpl; [apply triple_hung|].
    assert (Hagain : triple (λ _, I) (fired <-w nap w ;
      (if (fired : bool) then awaitVerified net w fuel turns' else w_ret false)) (λ _ _, I)).
    { eapply (triple_bind _ _ _ (λ _ _, I)); [|intros []; [apply IH|by apply triple_ret]].
      unfold nap. eapply (triple_bind _ _ _ (λ _ _, I)); [by apply triple_ask|]. intros fired.
      eapply (triple_bind _ _ _ (λ _ _, I)); [by apply triple_modify|]. intros []. by apply triple_ret. }
    eapply (triple_bind _ _ _ (λ _ _, I)); [by apply triple_ask|]. intros dead.
    apply triple_if; intros _; [by apply triple_ret|].
    eapply (triple_bind _ _ _ (λ _ _, I)); [by apply triple_transact|].
    intros [[|g gaps]|e]; [apply Hagain| |apply Hagain]. eapply (triple_bind _ _ _ (λ _ _, I)).
    { unfold verifyEquivalence. eapply (triple_bind _ _ _ (λ _ _, I)); [by apply triple_transact|].
      intros [cur|e]; [|by apply triple_ret]. apply triple_if; intros _; [by apply triple_ret|].
      eapply triple_bind; [apply sampleLoop_quiet|]. intros [m|e]; [|by apply triple_ret].
      apply ReplayRange_quiet. }
    intros [[]|e].
    - eapply (triple_bind _ _ _ (λ _ _, I)); [by apply triple_modify|]. intros []. by apply triple_ret.
    - eapply (triple_bind _ _ _ (λ _ _, I)); [by apply triple_ask|]. intros dead2.
      apply triple_if; intros _; [by apply triple_ret|].
      eapply (triple_bind _ _ _ (λ _ _, I)); [by apply triple_modify|]. intros []. by apply triple_ret. }
  intros Hrun. specialize (Ht o h eq_refl). by rewrite Hrun in Ht.
Qed.

Lemma exclusive_step s s' : exclusive s → step s s' → exclusive s'.
Proof.
  intros Hex Hstep. destruct Hstep as [o h o' h' Hv Hrun|o h ps i out o' h' Hi Hrun|
    o h ps i gaps Hi|o h ps i g out o' h' Hi Hrun].
  - apply awaitVerified_inFlight in Hrun. simpl in Hrun. destruct Hex as [_ Hset]. simpl in Hset.
    assert (Hno : ∀ j id, ¬ holds (mkWorkers o' h' (replicate (Z.to_nat (workersOf nworkers)) Idle)) j id).
    { intros j id (g & Hj & _). simpl in Hj. by apply lookup_replicate in Hj as [? _]. }
    split; [intros j k id Hj; by destruct (Hno j id)|]. simpl. intros id. rewrite Hrun, Hset. split.
    + intros [j (g & Hj & _)]. simpl in Hj. done.
    + intros [j Hj]. by destruct (Hno j id).
  - assert (hl_inFlight h' = hl_inFlight h) as Hf.
    { unfold transact in Hrun. destruct (BeginFunc _ _ _ _). by injection Hrun as _ _ <-. }
    destruct out as [gaps|e]; [by eapply exclusive_quiet|].
    rewrite <- (list_insert_id ps i Idle Hi). by eapply exclusive_quiet.
  - destruct (claim gaps (hl_inFlight h)) as [[g f]|] eqn:Hc; [|by eapply exclusive_quiet].
    apply claim_in in Hc as (_ & Hfree & ->). destruct Hex as [Hu Hset]. simpl in Hset.
    assert (Hlt : (i < length ps)%nat) by (by eapply lookup_lt_Some).
    assert (Hfree' : ∀ j, ¬ holds (mkWorkers o h ps) j (gap_ID g)) by (intros j Hj; apply Hfree, Hset; by exists j).
    assert (Hi' : ∀ id, ¬ holds (mkWorkers o h ps) i id).
    { intros id (g' & Hg' & _). simpl in Hg'. by rewrite Hi in Hg'. }
    split.
    + intros j k id. rewrite !holds_insert by done. intros [[-> (g1 & [= <-] & <-)]|[Hj Hx1]] [[-> (g2 & [= <-] & Hid)]|[Hk Hx2]];
        [done|by destruct (Hfree' k)|subst; by destruct (Hfree' j)|by eapply Hu].
    + intros id. simpl. rewrite elem_of_union, elem_of_singleton, Hset. split.
      * intros [->|[j Hj]].
        -- exists i. apply holds_insert; [done|]. left. split; [done|]. by exists g.
        -- exists j. apply holds_insert; [done|]. right. split; [|done]. intros ->. by destruct (Hi' id).
      * intros [j Hj]. apply holds_insert in Hj as [[-> (g' & [= <-] & <-)]|[_ Hj]]; [by left| |done]. right. by exists j.
  - apply healChunk_inFlight in Hrun. destruct Hex as [Hu Hset]. simpl in Hset.
    assert (Hlt : (i < length ps)%nat) by (by eapply lookup_lt_Some).
    assert (Hg : holds (mkWorkers o h ps) i (gap_ID g)) by (by exists g).
    split.
    + intros j k id. rewrite !holds_insert by done.
      intros [[_ (? & ? & _)]|[_ Hx1]] [[_ (? & ? & _)]|[_ Hx2]]; try done. by eapply Hu.
    + intros id. simpl. unfold release. rewrite elem_of_difference, elem_of_singleton, Hrun, Hset. split.
      * intros [[j Hj] Hne]. exists j. apply holds_insert; [done|]. right. split; [|done].
        intros ->. destruct Hj as (g' & Hg' & <-). destruct Hg as (g2 & Hg2 & Heq). simpl in *. congruence.
      * intros [j Hj]. apply holds_insert in Hj as [[_ (? & ? & _)]|[Hne Hj]]; [done| |done].
        split; [by exists j|]. intros ->. destruct Hne. by eapply Hu.
Qed.
End claims.

(** ** Properties *)

(** C15.  Healing is honest.  From the gate on, whatever the workers' steps are
    interleaved with and whatever fails (cores, the RPC, the server, lost
    acknowledgements), while other writers add records and gaps: a ledger that
    an open gap promised is promised still, or was replayed and its extraction
    is stored for every contract; no row or record was lost; and no worker ever
    ran unless a core reproduced, ledger for ledger, what the RPC serves. *)
Theorem healer_honest `{S : SDK} `{!SDKChanges} `{!LedgerHeaders} `{!LedgerMetas}
    (net passphrase : string) (chunkLedgers nworkers chunkNow : Z) (w : world) (fuel turns : nat)
    (o : outside) (h : healer) (s : workers) :
  gap_bystanders net w → progresses w → encodes_faithfully →
  is_u32 chunkLedgers → chunkOf chunkLedgers ≤ Z.of_nat fuel → equivalenceSample ≤ Z.of_nat fuel →
  (∀ id r, db_gaps (o_db o) !! id = Some r → pending_row net r) →
  rtc (healer_step net passphrase (chunkOf chunkLedgers) w fuel turns nworkers chunkNow) (mkWorkers o h []) s →
  let d := o_db (wk_outside s) in
  (∀ id r l, db_gaps (o_db o) !! id = Some r → row_open net r → g_from r ≤ l ≤ heal_next r →
     owed (db_gaps d) net l ∨ healed net passphrase w d l) ∧
  grows net (o_db o) d ∧ (wk_phases s ≠ [] → gate_passed w).
Proof.
  intros Hby Hp Henc Hc Hcf Hf Hpend Hsteps d.
  assert (Hok : system_ok net passphrase w (o_db o) (λ _, True) s)
    by (eapply (workers_ok net passphrase (chunkOf chunkLedgers) w); try done; by apply chunkOf_range).
  destruct Hok as (([_ Hpr] & Hg & _) & _ & Hgate). split_and!; [|done|done].
  intros id r l Hr Ho Hl. destruct (Hpr id r l Hr Ho Hl) as [(r' & Hr' & [Hn Hu] & Hl')|]; [left|by right].
  exists (g_heal_mode r'), id, r'. by split_and!.
Qed.

(** C32.  No two workers heal the same gap, and the claims are exactly the gaps
    being healed: a claim is never leaked, whatever a chunk's outcome. *)
Theorem claims_exclusive `{S : SDK} `{!SDKChanges} `{!LedgerHeaders} `{!LedgerMetas}
    (net passphrase : string) (chunk nworkers chunkNow : Z) (w : world) (fuel turns : nat)
    (o : outside) (h : healer) (s : workers) :
  hl_inFlight h = ∅ →
  rtc (healer_step net passphrase chunk w fuel turns nworkers chunkNow) (mkWorkers o h []) s →
  (∀ i j g1 g2, wk_phases s !! i = Some (Healing g1) → wk_phases s !! j = Some (Healing g2) →
     gap_ID g1 = gap_ID g2 → i = j) ∧
  ∀ id, id ∈ hl_inFlight (wk_healer s) ↔ ∃ i g, wk_phases s !! i = Some (Healing g) ∧ gap_ID g = id.
Proof.
  intros Hempty Hsteps. assert (Hex : exclusive s).
  { eapply (rtc_ind_r exclusive); [| |exact Hsteps].
    - split; [intros i j id (g & Hg & _); done|]. simpl. rewrite Hempty. intros id.
      split; [by intros ?%elem_of_empty|intros [i (g & Hg & _)]; done].
    - intros s1 s2 _ Hstep Hs1. by eapply exclusive_step. }
  destruct Hex as [Hu Hset]. split; [|exact Hset].
  intros i j g1 g2 Hi Hj Heq. apply (Hu i j (gap_ID g2)); [by exists g1|by exists g2].
Qed.

(** One chunk, on whatever the world answers: it ends, holds at most
    [chunk] ledgers in memory, and either commits in one transaction the
    extraction, under one snapshot of the registrations, of exactly the ledgers
    from its floor to the gap's watermark, as a core produced them, in order
    and linked by their hashes, together with the new watermark (resolving the
    gap exactly when its floor is the gap's), and counts it; or reports an
    error with nothing written but possibly that same commit. *)
Theorem healChunk_correct `{S : SDK} `{!SDKChanges} `{!LedgerHeaders} `{!LedgerMetas}
    (net passphrase : string) (chunk : Z) (w : world) (fuel : nat) (gap : Gap) (goNow : Z)
    (o : outside) (h : healer) :
  1 ≤ chunk ≤ max_u32 → healable gap →
  Z.min chunk (span (gap_From gap) (gap_HealNextTo gap)) ≤ Z.of_nat fuel →
  let from := chunkFrom chunk gap in
  (gap_From gap ≤ from ≤ gap_HealNextTo gap ∧ span from (gap_HealNextTo gap) ≤ chunk) ∧
  ∃ out n d' h', healChunk net passphrase chunk w fuel gap goNow o h = Some (out, mkOutside n d', h') ∧
    chunk_done net passphrase w gap goNow from out (o_db o) d' h h'.
Proof.
  intros Hc Hg Hf from. split; [|by apply healChunk_done].
  unfold from. rewrite chunkFrom_spec by done. destruct Hg. unfold span in *. lia.
Qed.

(** C33.  The equivalence gate ends, changes nothing, and opens only on proof.
    The sample is chosen by the cursor the database holds when the gate is asked,
    which is past three cadences: the eight ledgers up to the newest checkpoint
    that is a full cadence behind it, hence less than two cadences behind; and for
    each of them, in order, a core produced a ledger that differs from one the RPC
    served at most in its diagnostic events and in the order of its entry changes.
    Without a stored cursor, or with one below three cadences, the gate stays
    shut. *)
Theorem gate_sound `{S : SDK} `{!SDKChanges} `{!LedgerHeaders} `{!LedgerMetas}
    (net : string) (w : world) (fuel : nat) (o : outside) (h : healer) :
  progresses w → encodes_faithfully → equivalenceSample ≤ Z.of_nat fuel →
  let d := w_others w (o_calls o) (o_db o) in
  ∃ out n, verifyEquivalence net w fuel o h = Some (out, mkOutside n d, h) ∧
    (out = Ok tt → ∃ row cp lcms,
       db_cursor d !! net = Some row ∧
       let cur := u32 (cur_Sequence row) in
       192 ≤ cur ∧ cp mod 64 = 63 ∧ cur - 128 < cp ≤ cur - 64 ∧
       core_run w (cp - 7) cp lcms ∧ Forall (matches_rpc w) lcms).
Proof.
  intros Hp Henc Hf d. destruct (verifyEquivalence_ends net w fuel o h Hp Henc Hf) as (out & n & Hrun & Hok).
  exists out, n. split; [done|]. intros Hout. destruct (Hok Hout) as (row & lcms & Hrow & Hlow & Hcore & Hm).
  destruct (sample_bounds (u32 (cur_Sequence row)) (u32_range _) Hlow) as (Hmod & Hb & _).
  exists row, (sampleEnd (u32 (cur_Sequence row))), lcms.
  unfold checkpointFrequency, equivalenceSample in *. split_and!; try done; try lia.
  by replace (sampleEnd (u32 (cur_Sequence row)) - 7) with (sampleEnd (u32 (cur_Sequence row)) - 8 + 1) by lia.
Qed.

(** C34.  Normalization forgets no more than it says and no less: ledgers with
    equal normal forms differ only in diagnostic events and in the order inside
    change vectors, and ledgers that differ only in diagnostic events and in the
    order of whole change units have equal normal forms, when the encoding of
    changes is total and tells them apart. *)
Theorem normalization_exact {C Rest : Type} (tag : C → ChangeTag) (marshal : list C → option string)
    (l1 l2 : LedgerMeta C Rest) :
  (∀ u1 u2 raw, marshal u1 = Some raw → marshal u2 = Some raw → u1 = u2) →
  (∀ u, is_Some (marshal u)) →
  (normalizeForEquivalence tag marshal l1 = normalizeForEquivalence tag marshal l2 →
     alike Permutation l1 l2) ∧
  (alike (λ x y, units tag x ≡ₚ units tag y) l1 l2 →
     normalizeForEquivalence tag marshal l1 = normalizeForEquivalence tag marshal l2) ∧
  ∀ changes, concat (units tag changes) = changes.
Proof.
  intros Hinj Hdef. split; [apply normalize_sound|].
  split; [by apply normalize_complete|]. apply units_concat.
Qed.

(** The claims do not keep a range from being replayed twice: the listing
    is read outside the mutex, so a worker that listed the gaps before another
    committed a chunk and released its gap claims that gap with its old
    watermark, and replays the chunk just committed. *)
Theorem stale_claim_repeats_chunk `{S : SDK} `{!SDKChanges} `{!LedgerHeaders} `{!LedgerMetas}
    (net passphrase : string) (chunk nworkers chunkNow : Z) (w : world) (fuel turns : nat)
    (o o1 o2 : outside) (h h2 : healer) (g : Gap) (gaps : list Gap) (f : gset string) :
  1 ≤ chunk ≤ max_u32 → healable g → chunk ≤ Z.of_nat fuel →
  transact w (ListOpenGaps net) o h = Some (Ok gaps, o1, h) →
  healChunk net passphrase chunk w fuel g chunkNow o1 h = Some (Ok tt, o2, h2) →
  claim gaps (release (gap_ID g) (hl_inFlight h)) = Some (g, f) →
  ∃ h', rtc (healer_step net passphrase chunk w fuel turns nworkers chunkNow)
          (mkWorkers o h [Idle; Healing g]) (mkWorkers o2 h' [Healing g; Idle]) ∧
    ∀ r, db_gaps (o_db o2) !! gap_ID g = Some r → row_open net r →
      heal_next r = chunkFrom chunk g - 1 ∧ heal_next r < gap_HealNextTo g.
Proof.
  intros Hc Hg Hf Hlist Hchunk Hclaim. pose proof (healChunk_inFlight _ _ _ _ _ _ _ _ _ _ _ _ Hchunk) as Hfl.
  eexists. split.
  - eapply rtc_l; [exact (List net passphrase chunk w fuel turns nworkers chunkNow o h [Idle; Healing g] 0 _ o1 h eq_refl Hlist)|].
    eapply rtc_l; [exact (Chunk net passphrase chunk w fuel turns nworkers chunkNow o1 h [Listed gaps; Healing g] 1 g _ o2 h2 eq_refl Hchunk)|].
    eapply rtc_l; [exact (Claim net passphrase chunk w fuel turns nworkers chunkNow o2 _ [Listed gaps; Idle] 0 gaps eq_refl)|].
    simpl. rewrite Hfl, Hclaim. apply rtc_refl.
  - intros r Hr Ho. destruct (healChunk_done net passphrase chunk w fuel g chunkNow o1 h Hc Hg) as (out & n & d' & h' & Heq & Hd); [lia|].
    rewrite Heq in Hchunk. injection Hchunk as -> <- <-. destruct Hd as (k & acc & _ & Hrun & _).
    pose proof (chunkFrom_spec chunk g Hc Hg) as Hfrom. destruct Hg. simpl in Hr.
    apply CommitHealChunk_Ok in Hrun as (_ & Hgaps & _). rewrite Hgaps in Hr.
    unfold heal_gaps in Hr. apply lookup_upd_Some in Hr as (r1 & Hr1 & ->).
    destruct (advance_cond net (gap_ID g) (gap_ID g) r1) eqn:Hadv.
    + change (heal_next (advance_row _ _ r1)) with (chunkFrom chunk g - 1). split; [done|lia].
    + unfold advance_cond in Hadv. rewrite bool_decide_eq_true_2, andb_true_r in Hadv by done.
      apply is_open_spec in Ho. congruence.
Qed.

(** ** Witnesses and concrete runs *)

#[local] Existing Instance demo_sdk.
#[local] Existing Instance demo_changes.
#[local] Existing Instance demo_headers.
#[local] Transparent InfoOf.

(** Changes as a tag and one byte. *)
Definition demo_tag_byte (t : ChangeTag) : ascii :=
  match t with TagState => "S" | TagUpdated => "U" | TagRemoved => "R" | TagOther => "C" end.

Fixpoint demo_marshal (cs : list (ChangeTag * ascii)) : string :=
  match cs with [] => "" | (t, c) :: cs => String (demo_tag_byte t) (String c (demo_marshal cs)) end.

Lemma demo_marshal_inj cs1 cs2 : demo_marshal cs1 = demo_marshal cs2 → cs1 = cs2.
Proof.
  revert cs2. induction cs1 as [|[t1 c1] cs1 IH]; intros [|[t2 c2] cs2]; simpl; [done..|].
  intros Heq. injection Heq as Ht -> Hcs. rewrite (IH _ Hcs). by destruct t1, t2.
Qed.

(** A ledger of one transaction that only carries fee changes; the copy with an
    unreadable transaction carries them in another order. *)
Definition demo_fees (reversed : bool) (s : Z) : list (ChangeTag * ascii) :=
  let a := (TagOther, ascii_of_nat (Z.to_nat s)) in
  let b := [(TagState, "b"%char); (TagUpdated, "c"%char)] in
  if reversed then b ++ [a] else a :: b.

Definition demo_carries (fees : list (ChangeTag * ascii)) : LedgerMeta (ChangeTag * ascii) Z :=
  mkLedgerMeta 1 (Some ([mkTxProcessing fees [] (mkMeta 0 None None 0) 0], 0)) None 0.

Definition demo_MarshalBinary (l : LedgerMeta (ChangeTag * ascii) Z) : option string :=
  match lm_V l, lm_V1 l, lm_V2 l, lm_rest l with
  | 1, Some ([mkTxProcessing fees [] (mkMeta 0 None None 0) 0], 0), None, 0 => Some (demo_marshal fees)
  | _, _, _, _ => None
  end.

#[local] Instance demo_metas : LedgerMetas (H := demo_sdk) := {|
  LedgerEntryChange := ChangeTag * ascii;
  Other := Z;
  tag_of := fst;
  xdr_Marshal cs := Some (demo_marshal cs);
  meta_of l := demo_carries (demo_fees (Nat.ltb (length quiet_ledger.2) (length l.2)) l.1);
  MarshalBinary := demo_MarshalBinary |}.

Lemma demo_faithful : encodes_faithfully.
Proof.
  assert (Hshape : ∀ l raw, demo_MarshalBinary l = Some raw → ∃ fees, l = demo_carries fees ∧ raw = demo_marshal fees).
  { intros [V v1 v2 r] raw. unfold demo_MarshalBinary. simpl.
    repeat case_match; simplify_eq; intros Hr; try discriminate Hr. injection Hr as <-. by eexists. }
  intros l1 l2 raw H1 H2. apply Hshape in H1 as (f1 & -> & ->). apply Hshape in H2 as (f2 & -> & Heq).
  by apply demo_marshal_inj in Heq as ->.
Qed.

(** A core replays what the RPC serves, with the changes reordered. *)
Definition demo_heal_world : @world demo_sdk :=
  @mkWorld demo_sdk (λ _, demo_batch) (λ _ _ _, Ok tt)
    (λ _ s, Ok (s, quiet_ledger.2 ++ [None])) (λ _ d, d) (λ _, no_faults) (λ _, false)
    (λ n, Z.of_nat n) (λ _, false) (λ _, true) (λ _, demo_watch).

(** The cursor is at ledger 300, the ledgers 5 to 9 are missing, and the walk of
    [CA] is held up by them. *)
Definition demo_gap_id : string := gap_id "testnet" 5 9.
Definition demo_heal_db : db :=
  set_cursor (λ _, {[ "testnet" := mkCursor 300 "h300" ]})
    (set_backfill (λ _, {[ ("testnet", "CA") := mkBackfillRow 5 9 true (Some 10) ["movements"] 1 ]})
      (set_gaps (λ _, {[ demo_gap_id := mkGapRow "testnet" 5 9 "downtime" 0 None None HealModeReplay ]}) empty_db)).

Definition idle_healer : healer := mkHealer false ∅ "" 0 0 0 no_tally [].

Definition demo_next (s : workers) : option (option Z * bool) :=
  (λ r, (g_heal_next_to r, bool_decide (is_Some (g_resolved_at r)))) <$> db_gaps (o_db (wk_outside s)) !! demo_gap_id.

(** The parts of what a computation leaves. *)
Definition answer {A} (r : option (A * outside * healer)) : option A := (λ x, x.1.1) <$> r.
Definition out_of {A} (r : option (A * outside * healer)) : outside :=
  match r with Some (_, o, _) => o | None => mkOutside 0 empty_db end.
Definition hl_of {A} (r : option (A * outside * healer)) : healer :=
  match r with Some (_, _, h) => h | None => idle_healer end.

Lemma answered {A} (r : option (A * outside * healer)) a :
  answer r = Some a → r = Some (a, out_of r, hl_of r).
Proof. destruct r as [[[b o] h]|]; [|done]. by intros [= ->]. Qed.

(** A run of two workers: the gate, a listing, a claim, a chunk. *)
Definition demo_gap : Gap :=
  scanGap (demo_gap_id, mkGapRow "testnet" 5 9 "downtime" 0 None None HealModeReplay).
Definition demo_gate := awaitVerified "testnet" demo_heal_world 8 1 (mkOutside 0 demo_heal_db)
  (SetArchiveState ArchiveStateUnverified idle_healer).
Definition demo_list := transact demo_heal_world (ListOpenGaps "testnet") (out_of demo_gate) (hl_of demo_gate).
Definition demo_claimed : healer :=
  set_inFlight ({[ gap_ID demo_gap ]} ∪ hl_inFlight (hl_of demo_list)) (hl_of demo_list).
Definition demo_chunk := healChunk "testnet" "pass" 3 demo_heal_world 8 demo_gap 77 (out_of demo_list) demo_claimed.

Definition demo_run0 : workers := mkWorkers (mkOutside 0 demo_heal_db) idle_healer [].
Definition demo_run1 : workers := mkWorkers (out_of demo_gate) (hl_of demo_gate) [Idle; Idle].
Definition demo_run2 : workers := mkWorkers (out_of demo_list) (hl_of demo_list) [Listed [demo_gap]; Idle].
Definition demo_run3 : workers := mkWorkers (out_of demo_list) demo_claimed [Healing demo_gap; Idle].
Definition demo_run4 : workers := mkWorkers (out_of demo_chunk)
  (set_inFlight (release (gap_ID demo_gap) (hl_inFlight (hl_of demo_chunk))) (hl_of demo_chunk)) [Idle; Idle].

Example demo_heal :
  (demo_next demo_run4, hl_ArchiveState (wk_healer demo_run4),
   hl_HealedLedgers (wk_healer demo_run4), size (db_movements (o_db (wk_outside demo_run4))),
   size (hl_inFlight (wk_healer demo_run3)), size (hl_inFlight (wk_healer demo_run4)))
  = (Some (Some 6, false), "verified", 3, 3%nat, 1%nat, 0%nat).
Proof. vm_compute. reflexivity. Qed.

Lemma demo_gate_answer : answer demo_gate = Some true.
Proof. vm_compute. reflexivity. Qed.
Lemma demo_list_answer : answer demo_list = Some (Ok [demo_gap]).
Proof. vm_compute. reflexivity. Qed.
Lemma demo_claim_answer : claim [demo_gap] (hl_inFlight (hl_of demo_list))
  = Some (demo_gap, {[ gap_ID demo_gap ]} ∪ hl_inFlight (hl_of demo_list)).
Proof. vm_compute. reflexivity. Qed.
Lemma demo_chunk_answer : answer demo_chunk = Some (Ok tt).
Proof. vm_compute. reflexivity. Qed.

Abbreviation demo_step := (healer_step "testnet" "pass" 3 demo_heal_world 8 1 2 77).

#[local] Strategy expand [demo_gate demo_list demo_chunk].

Lemma demo_step1 : demo_step demo_run0 demo_run1.
Proof.
  apply (Start "testnet" "pass" 3 demo_heal_world 8 1 2 77); [done|].
  exact (answered demo_gate _ demo_gate_answer).
Qed.

Lemma demo_step2 : demo_step demo_run1 demo_run2.
Proof.
  apply (List "testnet" "pass" 3 demo_heal_world 8 1 2 77 _ _ [Idle; Idle] 0 (Ok [demo_gap])); [done|].
  apply (answered demo_list), demo_list_answer.
Qed.

Lemma demo_step3 : demo_step demo_run2 demo_run3.
Proof.
  pose proof (Claim "testnet" "pass" 3 demo_heal_world 8 1 2 77 (out_of demo_list) (hl_of demo_list)
    [Listed [demo_gap]; Idle] 0 [demo_gap] eq_refl) as Hs.
  rewrite demo_claim_answer in Hs. exact Hs.
Qed.

Lemma demo_step4 : demo_step demo_run3 demo_run4.
Proof.
  exact (Chunk "testnet" "pass" 3 demo_heal_world 8 1 2 77 (out_of demo_list) demo_claimed
    [Healing demo_gap; Idle] 0 demo_gap (Ok tt) (out_of demo_chunk) (hl_of demo_chunk) eq_refl
    (answered demo_chunk _ demo_chunk_answer)).
Qed.

Lemma demo_steps : rtc demo_step demo_run0 demo_run4.
Proof.
  eapply rtc_l; [apply demo_step1|]. eapply rtc_l; [apply demo_step2|].
  eapply rtc_l; [apply demo_step3|]. eapply rtc_l; [apply demo_step4|]. apply rtc_refl.
Qed.

Lemma demo_heal_pending id r : db_gaps demo_heal_db !! id = Some r → pending_row "testnet" r.
Proof.
  intros Hr. change (({[ demo_gap_id := mkGapRow "testnet" 5 9 "downtime" 0 None None HealModeReplay ]}
    : gmap string gap_row) !! id = Some r) in Hr. apply lookup_singleton_Some in Hr as [_ <-].
  intros _. unfold heal_next. simpl. uarith.
Qed.

Lemma demo_gap_bystanders : gap_bystanders "testnet" demo_heal_world.
Proof. intros n d. split; [by intros r|]. split; [done|]. intros id r Hr. by left. Qed.

Lemma demo_heal_progresses : progresses demo_heal_world.
Proof. exact demo_progresses. Qed.

Lemma healer_honest_witness :
  (owed (db_gaps (o_db (wk_outside demo_run4))) "testnet" 9 ∨
   healed "testnet" "pass" demo_heal_world (o_db (wk_outside demo_run4)) 9) ∧ gate_passed demo_heal_world.
Proof.
  destruct (healer_honest "testnet" "pass" 3 2 77 demo_heal_world 8 1 (mkOutside 0 demo_heal_db) idle_healer
    demo_run4) as (Hkept & _ & Hgate).
  - exact demo_gap_bystanders.
  - exact demo_heal_progresses.
  - exact demo_faithful.
  - uarith.
  - vm_compute. discriminate.
  - unfold equivalenceSample. lia.
  - exact demo_heal_pending.
  - exact demo_steps.
  - split.
    + apply (Hkept demo_gap_id (mkGapRow "testnet" 5 9 "downtime" 0 None None HealModeReplay) 9).
      * vm_compute. reflexivity.
      * split; reflexivity.
      * unfold heal_next. simpl. lia.
    + apply Hgate. discriminate.
Defined.

Lemma claims_exclusive_witness :
  demo_gap_id ∈ hl_inFlight (wk_healer demo_run3) ↔
  ∃ i g, wk_phases demo_run3 !! i = Some (Healing g) ∧ gap_ID g = demo_gap_id.
Proof.
  destruct (claims_exclusive "testnet" "pass" 3 2 77 demo_heal_world 8 1 (mkOutside 0 demo_heal_db) idle_healer
    demo_run3) as [_ Hset].
  - reflexivity.
  - eapply rtc_l; [apply demo_step1|]. eapply rtc_l; [apply demo_step2|].
    eapply rtc_l; [apply demo_step3|]. apply rtc_refl.
  - exact (Hset demo_gap_id).
Defined.

Lemma demo_gap_healable : healable demo_gap.
Proof. vm_compute. repeat split; discriminate. Qed.

Lemma healChunk_correct_witness :
  ∃ out n d' h', healChunk "testnet" "pass" 3 demo_heal_world 8 demo_gap 77 (mkOutside 0 demo_heal_db) idle_healer
    = Some (out, mkOutside n d', h') ∧
  chunk_done "testnet" "pass" demo_heal_world demo_gap 77 7 out demo_heal_db d' idle_healer h'.
Proof.
  destruct (healChunk_correct "testnet" "pass" 3 demo_heal_world 8 demo_gap 77 (mkOutside 0 demo_heal_db) idle_healer)
    as [_ Hdone].
  - uarith.
  - exact demo_gap_healable.
  - vm_compute. discriminate.
  - exact Hdone.
Defined.

Lemma gate_sound_witness :
  ∃ out n, verifyEquivalence "testnet" demo_heal_world 8 (mkOutside 0 demo_heal_db) idle_healer
    = Some (out, mkOutside n demo_heal_db, idle_healer).
Proof.
  destruct (gate_sound "testnet" demo_heal_world 8 (mkOutside 0 demo_heal_db) idle_healer) as (out & n & Hr & _).
  - exact demo_heal_progresses.
  - exact demo_faithful.
  - unfold equivalenceSample. lia.
  - exists out, n. exact Hr.
Defined.

Lemma normalization_exact_witness :
  normalizeForEquivalence fst (λ cs, Some (demo_marshal cs)) (demo_carries (demo_fees false 9)) =
  normalizeForEquivalence fst (λ cs, Some (demo_marshal cs)) (demo_carries (demo_fees true 9)).
Proof.
  apply (normalization_exact fst (λ cs, Some (demo_marshal cs)) (demo_carries (demo_fees false 9))
    (demo_carries (demo_fees true 9))).
  - intros u1 u2 raw H1 H2. apply demo_marshal_inj. congruence.
  - intros u. eexists. reflexivity.
  - split; [reflexivity|]. split; [reflexivity|]. split; [|reflexivity]. simpl. constructor.
    split; [|reflexivity]. constructor; [|constructor]. split; [simpl; apply perm_swap|].
    split; [reflexivity|]. split; [|reflexivity]. repeat split.
Defined.

(** The second worker lists the gap the first one is healing. *)
Definition demo_busy : healer := set_inFlight {[ demo_gap_id ]} idle_healer.
Definition demo_listing := transact demo_heal_world (ListOpenGaps "testnet") (mkOutside 0 demo_heal_db) demo_busy.
Definition demo_stale :=
  healChunk "testnet" "pass" 3 demo_heal_world 8 demo_gap 77 (out_of demo_listing) demo_busy.

Lemma demo_listing_answer : answer demo_listing = Some (Ok [demo_gap]).
Proof. vm_compute. reflexivity. Qed.
Lemma demo_stale_answer : answer demo_stale = Some (Ok tt).
Proof. vm_compute. reflexivity. Qed.

#[local] Strategy expand [demo_listing demo_stale].

Lemma stale_claim_repeats_chunk_witness :
  ∃ h', rtc demo_step (mkWorkers (mkOutside 0 demo_heal_db) demo_busy [Idle; Healing demo_gap])
    (mkWorkers (out_of demo_stale) h' [Healing demo_gap; Idle]).
Proof.
  destruct (stale_claim_repeats_chunk "testnet" "pass" 3 2 77 demo_heal_world 8 1
    (mkOutside 0 demo_heal_db) (out_of demo_listing) (out_of demo_stale) demo_busy (hl_of demo_stale)
    demo_gap [demo_gap] {[ demo_gap_id ]}) as (h' & Hs & _).
  - uarith.
  - exact demo_gap_healable.
  - lia.
  - exact (answered demo_listing _ demo_listing_answer).
  - exact (answered demo_stale _ demo_stale_answer).
  - vm_compute. reflexivity.
  - exact (ex_intro _ h' Hs).
Defined.
