(* ===== verification/Rpc.v ===== *)
(** * The RPC source ([internal/source/rpc/rpc.go])

    A pool of JSON-RPC endpoints behind one client.  A call walks the pool from
    the endpoint that answered last; a batch shrinks until its answer fits in
    memory and remembers the size; a window error is told apart by probing the
    tip.  The client's counters are atomics several workers share; a method is
    modelled from any state of them. *)

From Stdlib Require Import Ascii.
From S2P Require Import Prelude Db Rows Registrations Commit Registry Extract Loop Workers.

(** ** Definitions *)

Definition maxBodyBytes : Z := Z.shiftl 64 20.
Definition tipAmbiguitySlack : Z := 64.
Definition maxBatchLimit : Z := 200.
Definition batchGrowEvery : Z := 8.

(** The requests of the client. *)
Inductive request :=
  | getLatestLedger
  | getNetwork
  | getLedgers (startLedger limit : Z)
  | getLedgerEntries (key : string).

(** What the transport brings back of one. *)
Inductive http_reply :=
  | NoReply                                (** the post or the read failed *)
  | HttpReply (status : Z) (body : string).

Record jsonRPCError := mkJsonRPCError { je_Code : Z; je_Message : string }.

(** The [result] of getLedgers: sequence and base64 meta of each ledger. *)
Record ledgersResult := mkLedgersResult {
  lg_Ledgers : list (Z * string); lg_LatestLedger : Z; lg_OldestLedger : Z }.

(** [encoding/json] on the shapes of the client, and the SDK's decoder of a
    ledger.  Decoding a result writes into the variable it is given, which an
    earlier endpoint of the pool may have half filled. *)
Class RpcJson `{SDK} := {
  json_envelope : string → option (option jsonRPCError * string);
  into_sequence : Z → string → Z * bool;
  into_passphrase : string → string → string * bool;
  into_ledgers : ledgersResult → string → ledgersResult * bool;
  into_entries : list string → string → list string * bool;
  UnmarshalLedger : string → option LedgerCloseMeta }.

(** How a call ends, besides the value it filled in. *)
Inductive callres := CallOk | CallRefused (e : jsonRPCError) | CallTooLarge | CallFailed.

(** [Client]: the atomics. *)
Record client := mkClient {
  cl_preferred : nat; cl_failovers : Z; cl_batchCeiling : Z; cl_batchWins : Z }.

Definition int32 (x : Z) : Z := (x + 2147483648) mod 4294967296 - 2147483648.

Definition prefer (idx : nat) (c : client) : client :=
  mkClient idx (cl_failovers c + 1) (cl_batchCeiling c) (cl_batchWins c).
Definition shrink (eff : Z) (c : client) : client :=
  mkClient (cl_preferred c) (cl_failovers c) (int32 eff) 0.
Definition win (c : client) : client :=
  mkClient (cl_preferred c) (cl_failovers c) (cl_batchCeiling c) (int32 (cl_batchWins c + 1)).
Definition raise_ceiling (eff : Z) (c : client) : client :=
  mkClient (cl_preferred c) (cl_failovers c) (int32 eff) (cl_batchWins c).

(** [New], on a pool that is not empty. *)
Definition New (urls : list string) : option client :=
  match urls with [] => None | _ => Some (mkClient 0 0 maxBatchLimit 0) end.

(** [strings.ToLower] as far as ASCII patterns can tell: besides the capitals,
    only U+0130 and U+212A have an ASCII lower case. *)
Fixpoint ToLower (s : string) : string :=
  match s with
  | String "196" (String "176" s) => String "i" (ToLower s)
  | String "226" (String "132" (String "170" s)) => String "k" (ToLower s)
  | String c s =>
      let n := Ascii.N_of_ascii c in
      String (if (N.leb 65 n && N.leb n 90)%bool then Ascii.ascii_of_N (n + 32) else c) (ToLower s)
  | EmptyString => EmptyString
  end.

(** [strings.Contains] *)
Fixpoint Contains (s sub : string) : bool :=
  String.prefix sub s || match s with EmptyString => false | String _ s => Contains s sub end.

Definition looksOutOfRange (e : jsonRPCError) : bool :=
  let msg := ToLower (je_Message e) in
  Contains msg "must be between" || Contains msg "outside of range" || Contains msg "start ledger".

Section client.
Context `{S : SDK} `{!RpcJson} (urls : list string) (bodyCap : Z).
Context (http : nat → string → request → http_reply) (ctxErr : nat → bool).

Abbreviation W := (Work client).

(** The part of [callOne] after the transport. *)
Definition decode_reply {A} (into : A → string → A * bool) (reply : http_reply) (out : A) : callres * A :=
  match reply with
  | NoReply => (CallFailed, out)
  | HttpReply status body =>
      if bodyCap <? Z.of_nat (String.length body) then (CallTooLarge, out)
      else if negb (status =? 200) then (CallFailed, out)
      else match json_envelope body with
           | None => (CallFailed, out)
           | Some (Some e, _) => (CallRefused e, out)
           | Some (None, result) =>
               let '(out, ok) := into out result in
               (if (ok : bool) then CallOk else CallFailed, out)
           end
  end.

Definition callOne {A} (into : A → string → A * bool) (endpoint : string) (req : request) (out : A)
    : W (callres * A) :=
  ask (λ n, decode_reply into (http n endpoint req) out).

(** The loop of [call], for the [k] attempts left from the [i]th on. *)
Fixpoint walk {A} (into : A → string → A * bool) (req : request) (start i k : nat) (out : A)
    : W (callres * A) :=
  match k with
  | O => w_ret (CallFailed, out)
  | Datatypes.S k =>
      let idx := Nat.modulo (start + i) (length urls) in
      answer <-w callOne into (default "" (urls !! idx)) req out ;
      let '(r, out) := (answer : callres * A) in
      match r with
      | CallOk =>
          (if Nat.eqb idx start then w_ret tt else w_modify (prefer idx)) ;;w w_ret (CallOk, out)
      | CallRefused _ | CallTooLarge => w_ret (r, out)
      | CallFailed =>
          dead <-w ask ctxErr ;
          if (dead : bool) then w_ret (CallFailed, out) else walk into req start (Datatypes.S i) k out
      end
  end.

Definition call {A} (into : A → string → A * bool) (req : request) (out : A) : W (callres * A) :=
  c <-w w_get ;
  walk into req (cl_preferred c) 0 (length urls) out.

(** A failed call's error, as [errors.Is] tells it apart. *)
Definition call_error (r : callres) : goerr :=
  match r with CallTooLarge => ErrResponseTooLarge | _ => ErrOther end.

Definition LatestLedger : W (res Z) :=
  answer <-w call into_sequence getLatestLedger 0 ;
  w_ret (match answer.1 with CallOk => Ok answer.2 | r => Err (call_error r) end).

Definition VerifyNetwork (passphrase : string) : W (res unit) :=
  answer <-w call into_passphrase getNetwork "" ;
  w_ret (match answer.1 with
         | CallOk => if bool_decide (answer.2 ≠ passphrase) then Err ErrOther else Ok tt
         | r => Err (call_error r)
         end).

Definition classifyOutOfRange (seq : Z) : W (option goerr) :=
  latest <-w LatestLedger ;
  w_ret (match latest with
         | Err _ => None
         | Ok latest => if latest <=? u32 (seq + tipAmbiguitySlack) then Some ErrNotYetAvailable
                        else Some ErrBelowRetention
         end).

(** The error branch of [GetLedger] and [getLedgerBatchOnce]. *)
Definition window_error (seq : Z) (r : callres) : W goerr :=
  match r with
  | CallRefused e =>
      if looksOutOfRange e then
        verdict <-w classifyOutOfRange seq ;
        w_ret (default (call_error r) verdict)
      else w_ret (call_error r)
  | _ => w_ret (call_error r)
  end.

(** An answer without the ledger. *)
Definition outside_window (seq : Z) (r : ledgersResult) : goerr :=
  if lg_LatestLedger r <? seq then ErrNotYetAvailable
  else if seq <? lg_OldestLedger r then ErrBelowRetention
  else ErrOther.

Definition no_ledgers : ledgersResult := mkLedgersResult [] 0 0.

Definition GetLedger (seq : Z) : W (res LedgerCloseMeta) :=
  answer <-w call into_ledgers (getLedgers seq 1) no_ledgers ;
  let '(r, result) := (answer : callres * ledgersResult) in
  match r with
  | CallOk =>
      w_ret (match lg_Ledgers result with
             | (s, meta) :: _ =>
                 if negb (s =? seq) then Err (outside_window seq result)
                 else match UnmarshalLedger meta with Some lcm => Ok lcm | None => Err ErrOther end
             | [] => Err (outside_window seq result)
             end)
  | _ => e <-w window_error seq r ; w_ret (Err e)
  end.

Definition getLedgerBatchOnce (start limit : Z) : W (res (list LedgerCloseMeta)) :=
  answer <-w call into_ledgers (getLedgers start limit) no_ledgers ;
  let '(r, result) := (answer : callres * ledgersResult) in
  match r with
  | CallOk =>
      w_ret (match lg_Ledgers result with
             | [] => Err (outside_window start result)
             | ledgers => match mapM (λ l, UnmarshalLedger l.2) ledgers with
                          | Some lcms => Ok lcms
                          | None => Err ErrOther
                          end
             end)
  | _ => e <-w window_error start r ; w_ret (Err e)
  end.

(** [errors.Is(err, errResponseTooLarge)] *)
Definition tooLarge {A} (r : res A) : bool :=
  match r with Err ErrResponseTooLarge => true | _ => false end.

(** The loop of [GetLedgerBatch]. *)
Fixpoint batchLoop (fuel : nat) (start limit eff : Z) : W (res (list LedgerCloseMeta)) :=
  match fuel with
  | O => w_hung
  | Datatypes.S fuel =>
      out <-w getLedgerBatchOnce start eff ;
      if tooLarge out && (1 <? eff) then
        w_modify (shrink (eff / 2)) ;;w batchLoop fuel start limit (eff / 2)
      else
        match out with
        | Ok _ =>
            if eff <? limit then
              w_modify win ;;w
              c <-w w_get ;
              if Z.rem (cl_batchWins c) batchGrowEvery =? 0
              then w_modify (raise_ceiling (Z.min maxBatchLimit (eff + Z.max (eff / 4) 1))) ;;w w_ret out
              else w_ret out
            else w_ret out
        | Err _ => w_ret out
        end
  end.

Definition clampLimit (limit : Z) : Z :=
  let limit := if maxBatchLimit <? limit then maxBatchLimit else limit in
  if limit <? 1 then 1 else limit.

Definition GetLedgerBatch (fuel : nat) (start limit : Z) : W (res (list LedgerCloseMeta)) :=
  let limit := clampLimit limit in
  c <-w w_get ;
  batchLoop fuel start limit (Z.max (Z.min limit (cl_batchCeiling c)) 1).

Definition GetLedgerEntry (keyB64 : string) : W (res (option string)) :=
  answer <-w call into_entries (getLedgerEntries keyB64) [] ;
  w_ret (match answer.1 with
         | CallOk => Ok (head answer.2)
         | r => Err (call_error r)
         end).
End client.

(** ** Lemmas *)

(** *** Total correctness of the client's computations *)

(** From the client [c], whatever calls were made before, the computation
    returns, leaves the database alone and ends in [Q]. *)
Definition runs {A} (m : Work client A) (c : client) (Q : A → client → Prop) : Prop :=
  ∀ o, ∃ a n c', m o c = Some (a, mkOutside n (o_db o), c') ∧ Q a c'.

Lemma runs_ret {A} (a : A) c (Q : A → client → Prop) : Q a c → runs (w_ret a) c Q.
Proof. intros HQ [n d]. by exists a, n, c. Qed.

Lemma runs_ask {A} (f : nat → A) c (Q : A → client → Prop) : (∀ n, Q (f n) c) → runs (ask f) c Q.
Proof. intros HQ o. by eexists _, _, _. Qed.

Lemma runs_get c (Q : client → client → Prop) : Q c c → runs w_get c Q.
Proof. intros HQ [n d]. by exists c, n, c. Qed.

Lemma runs_modify (f : client → client) c (Q : unit → client → Prop) : Q tt (f c) → runs (w_modify f) c Q.
Proof. intros HQ [n d]. by exists tt, n, (f c). Qed.

Lemma runs_conseq {A} (m : Work client A) c (Q Q' : A → client → Prop) :
  runs m c Q' → (∀ a c', Q' a c' → Q a c') → runs m c Q.
Proof. intros Hm HQ o. destruct (Hm o) as (a & n & c' & Hr & Ha). exists a, n, c'. auto. Qed.

Lemma runs_bind {A B} (m : Work client A) (f : A → Work client B) c (R : A → client → Prop) Q :
  runs m c R → (∀ a c1, R a c1 → runs (f a) c1 Q) → runs (w_bind m f) c Q.
Proof.
  intros Hm Hf o. destruct (Hm o) as (a & n & c1 & Hr & Ha). unfold w_bind. rewrite Hr.
  exact (Hf a c1 Ha (mkOutside n (o_db o))).
Qed.

Lemma int32_small x : 0 ≤ x < 2147483648 → int32 x = x.
Proof. intros Hx. unfold int32. rewrite Z.mod_small; lia. Qed.

Lemma clampLimit_range limit : 1 ≤ clampLimit limit ≤ maxBatchLimit.
Proof.
  unfold clampLimit, maxBatchLimit. destruct (Z.ltb_spec 200 limit); [done|].
  destruct (Z.ltb_spec limit 1); lia.
Qed.

Section pool.
Context `{S : SDK} `{!RpcJson} (urls : list string) (bodyCap : Z).
Context (http : nat → string → request → http_reply) (ctxErr : nat → bool).

Definition url (idx : nat) : string := default "" (urls !! idx).

(** An endpoint of the pool gave this outcome for the request. *)
Definition replied {A} (into : A → string → A * bool) (req : request) (idx : nat) (r : callres) (out : A) : Prop :=
  ∃ n out0, decode_reply bodyCap into (http n (url idx) req) out0 = (r, out).

(** What a call leaves: an endpoint's answer, and the pool remembering it. *)
Definition call_post {A} (into : A → string → A * bool) (req : request) (c : client)
    (a : callres * A) (c' : client) : Prop :=
  match a.1 with
  | CallOk => ∃ idx, (idx < length urls)%nat ∧ replied into req idx CallOk a.2 ∧
                c' = if Nat.eqb idx (cl_preferred c) then c else prefer idx c
  | CallFailed => c' = c
  | r => (∃ idx, (idx < length urls)%nat ∧ replied into req idx r a.2) ∧ c' = c
  end.

Lemma walk_runs {A} (into : A → string → A * bool) req i k out c :
  (0 < length urls)%nat →
  runs (walk urls bodyCap http ctxErr into req (cl_preferred c) i k out) c (call_post into req c).
Proof.
  intros Hlen. revert i out. induction k as [|k IH]; intros i out; simpl; [by apply runs_ret|].
  set (idx := Nat.modulo (cl_preferred c + i) (length urls)).
  assert (Hidx : (idx < length urls)%nat) by (apply Nat.mod_upper_bound; lia).
  apply runs_bind with (R := λ a c1, c1 = c ∧ replied into req idx a.1 a.2).
  { apply runs_ask. intros n. split; [done|]. exists n, out. unfold url. by destruct (decode_reply _ _ _ _). }
  intros [[| e | |] out'] c1 [-> Hr]; simpl in Hr.
  - apply runs_bind with (R := λ _ c1, c1 = if Nat.eqb idx (cl_preferred c) then c else prefer idx c).
    + destruct (Nat.eqb idx (cl_preferred c)); [by apply runs_ret|by apply runs_modify].
    + intros [] c1 ->. apply runs_ret. by exists idx.
  - apply runs_ret. split; [by exists idx|done].
  - apply runs_ret. split; [by exists idx|done].
  - apply runs_bind with (R := λ _ c1, c1 = c); [by apply runs_ask|]. intros [] c1 ->; [by apply runs_ret|apply IH].
Qed.

Lemma call_runs {A} (into : A → string → A * bool) req out c :
  (0 < length urls)%nat →
  runs (call urls bodyCap http ctxErr into req out) c (call_post into req c).
Proof.
  intros Hlen. apply runs_bind with (R := λ a c1, a = c ∧ c1 = c); [by apply runs_get|].
  intros a c1 [-> ->]. by apply walk_runs.
Qed.

(** A call moves only the preferred endpoint, inside the pool. *)
Definition same_batch (c c' : client) : Prop :=
  cl_batchCeiling c' = cl_batchCeiling c ∧ cl_batchWins c' = cl_batchWins c ∧
  ((cl_preferred c < length urls)%nat → (cl_preferred c' < length urls)%nat).

Lemma call_post_same {A} (into : A → string → A * bool) req c a c' : call_post into req c a c' → same_batch c c'.
Proof.
  unfold call_post. destruct a.1.
  - intros (idx & Hidx & _ & ->). by destruct (Nat.eqb idx (cl_preferred c)).
  - by intros [_ ->].
  - by intros [_ ->].
  - by intros ->.
Qed.

Lemma same_batch_refl c : same_batch c c.
Proof. by split_and!. Qed.

Lemma same_batch_trans c1 c2 c3 : same_batch c1 c2 → same_batch c2 c3 → same_batch c1 c3.
Proof. intros (E1 & E2 & E3) (F1 & F2 & F3). split_and!; try congruence. auto. Qed.

(** *** The walk along dead endpoints *)

Definition rotation (start i : nat) : nat := Nat.modulo (start + i) (length urls).

Lemma walk_skips {A} (into : A → string → A * bool) req start j k i r out o c :
  (∀ n, ctxErr n = false) →
  (∀ i', i ≤ i' < i + j → ∀ n x,
     (decode_reply bodyCap into (http n (url (rotation start i')) req) x).1 = CallFailed)%nat →
  (∀ n x, (decode_reply bodyCap into (http n (url (rotation start (i + j))) req) x).1 = r) →
  r ≠ CallFailed → (j < k)%nat →
  ∃ out', walk urls bodyCap http ctxErr into req start i k out o c =
    Some ((r, out'), mkOutside (o_calls o + 2 * j + 1) (o_db o),
          match r with
          | CallOk => if Nat.eqb (rotation start (i + j)) start then c else prefer (rotation start (i + j)) c
          | _ => c
          end).
Proof.
  intros Hctx. revert k i out o. induction j as [|j IH]; intros [|k] i out o Hdead Hup Hr Hk; [lia| |lia|].
  - replace (i + 0)%nat with i in * by lia. simpl. fold (rotation start i). fold (url (rotation start i)).
    unfold w_bind, callOne, ask. specialize (Hup (o_calls o) out).
    destruct (decode_reply _ _ _ _) as [r1 out1]. simpl in Hup. subst r1.
    replace (o_calls o + 0 + 1)%nat with (Datatypes.S (o_calls o)) by lia. exists out1.
    destruct r as [|e| |]; [|reflexivity|reflexivity|congruence]. by destruct (Nat.eqb (rotation start i) start).
  - simpl. fold (rotation start i). fold (url (rotation start i)). unfold w_bind, callOne, ask.
    pose proof (Hdead i ltac:(lia) (o_calls o) out) as Hi.
    destruct (decode_reply _ _ _ _) as [r1 out1]. simpl in Hi. subst r1. simpl. rewrite Hctx.
    replace (i + Datatypes.S j)%nat with (Datatypes.S i + j)%nat in * by lia.
    destruct (IH k (Datatypes.S i) out1 (mkOutside (Datatypes.S (Datatypes.S (o_calls o))) (o_db o))) as [out' ->];
      [|done..|lia|].
    + intros i' Hi'. apply Hdead. lia.
    + exists out'. simpl. do 3 f_equal. f_equal. lia.
Qed.

(** The endpoints of a walk are distinct. *)
Lemma rotation_NoDup start j : (j ≤ length urls)%nat → NoDup (rotation start <$> seq 0 j).
Proof.
  intros Hj. apply NoDup_fmap_2_strong; [|apply NoDup_seq].
  intros i i' Hi Hi' E. apply elem_of_seq in Hi. apply elem_of_seq in Hi'. unfold rotation in E.
  pose proof (Nat.div_mod (start + i) (length urls) ltac:(lia)) as E1.
  pose proof (Nat.div_mod (start + i') (length urls) ltac:(lia)) as E2. rewrite E in E1. clear E.
  set (q := Nat.div (start + i) _) in *. set (q' := Nat.div (start + i') _) in *.
  assert (q = q'); [|congruence || (subst; nia)].
  destruct (Nat.lt_trichotomy q q') as [?|[?|?]]; [nia|done|nia].
Qed.

(** The outside's answers in one walk, in order: the [i]th endpoint of the
    rotation is asked at the [i]th turn, and after a failure the context is.  The
    walk ended at turn [j], with that endpoint's answer, and not before; on a
    failure only as the context was dead or no endpoint was left; an endpoint that
    gave a result is the preferred one. *)
Definition asked_in_turn {A} (into : A → string → A * bool) (req : request) (start i k : nat) (o : outside)
    (a : callres * A) (n : nat) (c' : client) (j : nat) : Prop :=
  (j < k)%nat ∧
  (∀ i', (i' < j)%nat →
     (∃ x, (decode_reply bodyCap into (http (o_calls o + 2 * i') (url (rotation start (i + i'))) req) x).1 = CallFailed) ∧
     ctxErr (o_calls o + 2 * i' + 1) = false) ∧
  (∃ x, decode_reply bodyCap into (http (o_calls o + 2 * j) (url (rotation start (i + j))) req) x = a) ∧
  (a.1 ≠ CallFailed → n = o_calls o + 2 * j + 1)%nat ∧
  (a.1 = CallFailed → n = (o_calls o + 2 * j + 2)%nat ∧
     (ctxErr (o_calls o + 2 * j + 1) = true ∨ Datatypes.S j = k)) ∧
  (a.1 = CallOk → cl_preferred c' = rotation start (i + j)).

Lemma walk_in_turn {A} (into : A → string → A * bool) req i k out o c a n d c' :
  (0 < k)%nat →
  walk urls bodyCap http ctxErr into req (cl_preferred c) i k out o c = Some (a, mkOutside n d, c') →
  ∃ j, asked_in_turn into req (cl_preferred c) i k o a n c' j.
Proof.
  revert i out o. induction k as [|k IH]; intros i out o Hk Hrun; [lia|]. simpl in Hrun.
  fold (rotation (cl_preferred c) i) in Hrun. fold (url (rotation (cl_preferred c) i)) in Hrun.
  unfold w_bind, callOne, ask in Hrun.
  assert (Hfirst : ∀ a0 n0, decode_reply bodyCap into (http (o_calls o) (url (rotation (cl_preferred c) i)) req) out = a0 →
    (a0.1 ≠ CallFailed → n0 = o_calls o + 1)%nat →
    (a0.1 = CallFailed → n0 = (o_calls o + 2)%nat ∧ (ctxErr (o_calls o + 1) = true ∨ 1%nat = Datatypes.S k)) →
    (a0.1 = CallOk → cl_preferred c' = rotation (cl_preferred c) i) →
    asked_in_turn into req (cl_preferred c) i (Datatypes.S k) o a0 n0 c' 0).
  { intros a0 n0 Ha Hok Hno Hp. split; [lia|]. split; [lia|].
    replace (o_calls o + 2 * 0)%nat with (o_calls o) by lia. rewrite Nat.add_0_r. split; [by exists out|]. done. }
  destruct (decode_reply bodyCap into (http (o_calls o) _ req) out) as [r out1] eqn:Hd.
  destruct r as [|e| |].
  1: destruct (Nat.eqb_spec (rotation (cl_preferred c) i) (cl_preferred c)) as [E|E].
  1-4: simpl in Hrun; unfold w_ret, w_modify in Hrun; simplify_eq; exists 0%nat; apply Hfirst; simpl; try done; lia.
  simpl in Hrun. destruct (ctxErr (Datatypes.S (o_calls o))) eqn:Hctx.
  - unfold w_ret in Hrun. simplify_eq. exists 0%nat. apply Hfirst; simpl; [done|done| |done].
    intros _. split; [lia|left]. by rewrite Nat.add_1_r.
  - destruct k as [|k].
    { simpl in Hrun. unfold w_ret in Hrun. simplify_eq. exists 0%nat. apply Hfirst; simpl; [done|done| |done].
      intros _. split; [lia|by right]. }
    apply IH in Hrun as [j (Hj & Hb & [x Hx] & Hok & Hno & Hp)]; [|lia]. clear Hfirst.
    exists (Datatypes.S j). unfold asked_in_turn. simpl o_calls in *.
    replace (i + Datatypes.S j)%nat with (Datatypes.S i + j)%nat by lia.
    replace (o_calls o + 2 * Datatypes.S j)%nat with (Datatypes.S (Datatypes.S (o_calls o)) + 2 * j)%nat by lia.
    split; [lia|]. split; [|split; [by exists x|split; [done|split; [|done]]]].
    + intros [|i'] Hi'.
      { replace (o_calls o + 2 * 0)%nat with (o_calls o) by lia. rewrite Nat.add_1_r, (Nat.add_0_r i).
        split; [|done]. exists out. by rewrite Hd. }
      replace (i + Datatypes.S i')%nat with (Datatypes.S i + i')%nat by lia.
      replace (o_calls o + 2 * Datatypes.S i')%nat with (Datatypes.S (Datatypes.S (o_calls o)) + 2 * i')%nat by lia.
      apply Hb. lia.
    + intros Ha. destruct (Hno Ha) as [-> [?|?]]; (split; [done|]); [by left|right; lia].
Qed.

(** *** Windows and batches *)
Context (Hpool : (0 < length urls)%nat).

(** The pool claimed a tip. *)
Definition said_tip (latest : Z) : Prop := ∃ idx, replied into_sequence getLatestLedger idx CallOk latest.

(** An answer to a request for [k] ledgers from [seq] on. *)
Definition said_ledgers (seq k : Z) (result : ledgersResult) : Prop :=
  ∃ idx, replied into_ledgers (getLedgers seq k) idx CallOk result.

(** What stands behind an error of a request for [k] ledgers from [seq] on. *)
Definition justified (seq k : Z) (e : goerr) : Prop :=
  match e with
  | ErrBelowRetention =>
      (∃ latest, said_tip latest ∧ u32 (seq + tipAmbiguitySlack) < latest) ∨
      ∃ result, said_ledgers seq k result ∧ seq ≤ lg_LatestLedger result ∧ seq < lg_OldestLedger result
  | ErrNotYetAvailable =>
      (∃ latest, said_tip latest ∧ latest ≤ u32 (seq + tipAmbiguitySlack)) ∨
      ∃ result, said_ledgers seq k result ∧ lg_LatestLedger result < seq
  | ErrResponseTooLarge => ∃ idx x, replied into_ledgers (getLedgers seq k) idx CallTooLarge x
  | _ => True
  end.

Lemma LatestLedger_runs c :
  runs (LatestLedger urls bodyCap http ctxErr) c
    (λ out c', same_batch c c' ∧ match out with Ok latest => said_tip latest | Err _ => True end).
Proof.
  eapply runs_bind; [by apply call_runs|]. intros [r latest] c1 Hpost.
  apply call_post_same in Hpost as Hsame. apply runs_ret. split; [done|].
  destruct r; try done. destruct Hpost as (idx & _ & Hr & _). by exists idx.
Qed.

Lemma window_error_runs seq k r c :
  r ≠ CallOk → (r = CallTooLarge → ∃ idx x, replied into_ledgers (getLedgers seq k) idx CallTooLarge x) →
  runs (window_error urls bodyCap http ctxErr seq r) c (λ e c', same_batch c c' ∧ justified seq k e).
Proof.
  intros Hne Hlarge. unfold window_error. destruct r as [|e| |]; [done| | |].
  2: { apply runs_ret. split; [apply same_batch_refl|by apply Hlarge]. }
  2: { apply runs_ret. split; [apply same_batch_refl|done]. }
  destruct (looksOutOfRange e); [|apply runs_ret; split; [apply same_batch_refl|done]].
  eapply runs_bind with (R := λ v c', same_batch c c' ∧ match v with Some e => justified seq k e | None => True end).
  - eapply runs_bind; [apply LatestLedger_runs|]. intros out c1 [Hs Ht]. apply runs_ret. split; [done|].
    destruct out as [latest|e0]; [|done].
    destruct (Z.leb_spec latest (u32 (seq + tipAmbiguitySlack))); left; by exists latest.
  - intros [v|] c1 [Hs Hj]; apply runs_ret; by split.
Qed.

Lemma outside_window_justified seq k result :
  said_ledgers seq k result → justified seq k (outside_window seq result).
Proof.
  intros Hr. unfold outside_window. destruct (Z.ltb_spec (lg_LatestLedger result) seq); [right; by exists result|].
  destruct (Z.ltb_spec seq (lg_OldestLedger result)); [right; by exists result|done].
Qed.

(** The ledgers of a batch come from one answer, at least one. *)
Definition batch_of (start k : Z) (ls : list LedgerCloseMeta) : Prop :=
  ∃ result, said_ledgers start k result ∧ mapM (λ l, UnmarshalLedger l.2) (lg_Ledgers result) = Some ls ∧ ls ≠ [].

Lemma once_runs start k c :
  runs (getLedgerBatchOnce urls bodyCap http ctxErr start k) c
    (λ out c', same_batch c c' ∧
       match out with Ok ls => batch_of start k ls | Err e => justified start k e end).
Proof.
  eapply runs_bind; [by apply call_runs|]. intros [r result] c1 Hpost.
  apply call_post_same in Hpost as Hsame.
  assert (Herr : r ≠ CallOk → runs (e <-w window_error urls bodyCap http ctxErr start r ; w_ret (Err e)) c1
    (λ out c', same_batch c c' ∧
       match out with Ok ls => batch_of start k ls | Err e => justified start k e end)).
  { intros Hne. eapply runs_bind; [apply (window_error_runs start k); [done|]|].
    - intros ->. destruct Hpost as [(idx & _ & Hr) _]. by exists idx, result.
    - intros e c2 [Hs Hj]. apply runs_ret. split; [by eapply same_batch_trans|done]. }
  destruct r; try by apply Herr. apply runs_ret. split; [done|].
  assert (Hsaid : said_ledgers start k result) by (destruct Hpost as (idx & _ & Hr & _); by exists idx).
  destruct (lg_Ledgers result) as [|l ls] eqn:Hls; [by apply outside_window_justified|].
  destruct (mapM (λ l, UnmarshalLedger l.2) (l :: ls)) as [lcms|] eqn:Hm; [|done].
  exists result. rewrite Hls. split_and!; [done..|]. intros ->. simpl in Hm.
  destruct (UnmarshalLedger l.2); [|done]. simpl in Hm. by destruct (mapM _ ls).
Qed.

Lemma GetLedger_runs seq c :
  runs (GetLedger urls bodyCap http ctxErr seq) c
    (λ out c', same_batch c c' ∧
       match out with
       | Ok lcm => ∃ result meta rest, said_ledgers seq 1 result ∧ lg_Ledgers result = (seq, meta) :: rest ∧
                                       UnmarshalLedger meta = Some lcm
       | Err e => justified seq 1 e
       end).
Proof.
  eapply runs_bind; [by apply call_runs|]. intros [r result] c1 Hpost.
  apply call_post_same in Hpost as Hsame. destruct r as [|e| |].
  2-4: eapply runs_bind; [apply (window_error_runs seq 1); [done|]|].
  1: { apply runs_ret. split; [done|].
    assert (Hsaid : said_ledgers seq 1 result) by (destruct Hpost as (idx & _ & Hr & _); by exists idx).
    destruct (lg_Ledgers result) as [|[s meta] ls] eqn:Hls; [by apply outside_window_justified|].
    destruct (Z.eqb_spec s seq) as [->|]; [|by apply outside_window_justified].
    destruct (UnmarshalLedger meta) eqn:Hu; [by exists result, meta, ls|done]. }
  all: try done.
  all: try (intros e' c2 [Hs Hj]; apply runs_ret; split; [by eapply same_batch_trans|done]).
  intros _. destruct Hpost as [(idx & _ & Hr) _]. by exists idx, result.
Qed.

(** *** Batches *)

Definition ceiling_ok (c : client) : Prop := 1 ≤ cl_batchCeiling c ≤ maxBatchLimit.


Lemma same_batch_ceiling c c' : same_batch c c' → ceiling_ok c → ceiling_ok c'.
Proof. intros (E & _) . unfold ceiling_ok. by rewrite E. Qed.

Definition in_pool (c : client) : Prop := (cl_preferred c < length urls)%nat.

Lemma batchLoop_runs fuel start limit eff c :
  1 ≤ eff ≤ limit → limit ≤ maxBatchLimit → eff < 2 ^ Z.of_nat fuel → ceiling_ok c → in_pool c →
  runs (batchLoop urls bodyCap http ctxErr fuel start limit eff) c
    (λ out c', ceiling_ok c' ∧ in_pool c' ∧
       ∃ k, 1 ≤ k ≤ eff ∧
         match out with
         | Ok ls => batch_of start k ls
         | Err e => justified start k e ∧ (e = ErrResponseTooLarge → k = 1)
         end).
Proof.
  revert eff c. induction fuel as [|fuel IH]; intros eff c Heff Hlim Hpow Hc Hp; [simpl in Hpow; lia|].
  simpl batchLoop. eapply runs_bind; [apply once_runs|]. intros out c1 [Hsame Hout].
  assert (Hc1 : ceiling_ok c1) by by eapply same_batch_ceiling.
  assert (Hp1 : in_pool c1) by by apply Hsame.
  destruct (tooLarge out && (1 <? eff)) eqn:Hbig.
  - apply andb_true_iff in Hbig as [_ Hbig]. apply Z.ltb_lt in Hbig.
    rewrite Nat2Z.inj_succ, Z.pow_succ_r in Hpow by lia.
    pose proof (Z.div_le_lower_bound eff 2 1 ltac:(lia) ltac:(lia)).
    pose proof (Z.div_lt_upper_bound eff 2 (2 ^ Z.of_nat fuel) ltac:(lia) ltac:(lia)).
    pose proof (Z.div_le_upper_bound eff 2 eff ltac:(lia) ltac:(lia)). unfold maxBatchLimit in *.
    eapply runs_bind with (R := λ _ c2, c2 = shrink (eff / 2) c1); [by apply runs_modify|]. intros [] c2 ->.
    eapply runs_conseq; [apply (IH (eff / 2)); [lia|lia|lia| |exact Hp1]|].
    + unfold ceiling_ok, shrink, maxBatchLimit. simpl. rewrite int32_small; lia.
    + intros a c' (? & ? & k & ? & ?). split_and!; try done. exists k. split; [lia|done].
  - assert (Hdone : ∀ c2, ceiling_ok c2 → in_pool c2 → runs (w_ret out) c2 (λ out c', ceiling_ok c' ∧ in_pool c' ∧
       ∃ k, 1 ≤ k ≤ eff ∧ match out with
         | Ok ls => batch_of start k ls
         | Err e => justified start k e ∧ (e = ErrResponseTooLarge → k = 1)
         end)).
    { intros c2 ? ?. apply runs_ret. split_and!; try done. exists eff. split; [lia|].
      destruct out as [ls|e]; [done|]. split; [done|]. intros ->. simpl in Hbig. apply Z.ltb_ge in Hbig. lia. }
    destruct out as [ls|e]; [|by apply Hdone]. destruct (eff <? limit); [|by apply Hdone].
    eapply runs_bind with (R := λ _ c2, c2 = win c1); [by apply runs_modify|]. intros [] c2 ->.
    eapply runs_bind with (R := λ _ c2, c2 = win c1); [by apply runs_get|]. intros c2' c2 ->.
    destruct (_ =? 0); [|by apply Hdone].
    eapply runs_bind with (R := λ _ c2, ceiling_ok c2 ∧ in_pool c2);
      [apply runs_modify|by intros [] c2 [? ?]; apply Hdone].
    split; [|done]. unfold ceiling_ok, maxBatchLimit. simpl. rewrite int32_small; lia.
Qed.


(** A call's walk, its endpoint and the one preferred after it. *)
Lemma call_traced {A} (into : A → string → A * bool) req out o c :
  in_pool c →
  ∃ a n c' j, call urls bodyCap http ctxErr into req out o c = Some (a, mkOutside n (o_db o), c') ∧
    in_pool c' ∧ call_post into req c a c' ∧
    asked_in_turn into req (cl_preferred c) 0 (length urls) o a n c' j ∧
    NoDup (rotation (cl_preferred c) <$> seq 0 (Datatypes.S j)).
Proof.
  intros Hc. destruct (call_runs into req out c Hpool o) as (a & n & c' & Hrun & Hpost).
  pose proof Hrun as Ht. unfold call, w_bind, w_get in Ht. apply walk_in_turn in Ht as [j Ht]; [|done].
  exists a, n, c', j. split; [done|]. apply call_post_same in Hpost as Hs. split; [by apply Hs|].
  split; [done|]. split; [done|]. apply rotation_NoDup. destruct Ht. lia.
Qed.
End pool.

(** *** Adapting to the weight of the ledgers *)
Section adapting.
Context `{S : SDK} `{!RpcJson} (urls : list string) (bodyCap : Z).
Context (http : nat → string → request → http_reply) (ctxErr : nat → bool).

(** A range whose batches fit up to [cap] ledgers. *)
Definition fits (start cap : Z) (ls : Z → list LedgerCloseMeta) : Prop := ∀ k c, 1 ≤ k ≤ maxBatchLimit →
  runs (getLedgerBatchOnce urls bodyCap http ctxErr start k) c
    (λ out c', same_batch urls c c' ∧ out = if k <=? cap then Ok (ls k) else Err ErrResponseTooLarge).

(** The counters after a batch of [eff] ledgers was served at once. *)
Definition served_at_once (limit eff : Z) (c c' : client) : Prop :=
  if eff <? limit then
    cl_batchWins c' = int32 (cl_batchWins c + 1) ∧
    cl_batchCeiling c' = (if Z.rem (cl_batchWins c') batchGrowEvery =? 0
                          then Z.min maxBatchLimit (eff + Z.max (eff / 4) 1) else cl_batchCeiling c)
  else cl_batchWins c' = cl_batchWins c ∧ cl_batchCeiling c' = cl_batchCeiling c.

(** A batch that was served: at most halved once too often, and remembered when
    it was shrunk. *)
Definition adapted (cap limit eff : Z) (c : client) (k : Z) (c' : client) : Prop :=
  1 ≤ k ≤ eff ∧ k ≤ cap ∧ (k = eff ∨ cap ≤ 2 * k) ∧
  (k < eff → cl_batchCeiling c' = k ∧ cl_batchWins c' = 1) ∧
  (k = eff → served_at_once limit eff c c').

Lemma batchLoop_adapts fuel start limit eff cap ls c :
  fits start cap ls → 1 ≤ eff ≤ limit → limit ≤ maxBatchLimit → 1 ≤ cap → eff < 2 ^ Z.of_nat fuel →
  runs (batchLoop urls bodyCap http ctxErr fuel start limit eff) c
    (λ out c', ∃ k, out = Ok (ls k) ∧ adapted cap limit eff c k c').
Proof.
  intros Hfits. revert eff c. induction fuel as [|fuel IH]; intros eff c Heff Hlim Hcap Hpow; [simpl in Hpow; lia|].
  unfold maxBatchLimit in *. simpl batchLoop. eapply runs_bind; [apply Hfits; unfold maxBatchLimit; lia|].
  intros out c1 [(E1 & E2 & _) ->]. destruct (Z.leb_spec eff cap) as [Hle|Hgt]; simpl.
  - assert (Hk : ∀ c2, served_at_once limit eff c c2 →
      runs (w_ret (Ok (ls eff))) c2 (λ out c', ∃ k, out = Ok (ls k) ∧ adapted cap limit eff c k c')).
    { intros c2 Hc2. apply runs_ret. exists eff. split; [done|]. split; [lia|]. split; [lia|].
      split; [by left|]. split; [lia|done]. }
    unfold served_at_once in Hk. destruct (Z.ltb_spec eff limit) as [Hlt|_]; [|by apply Hk].
    eapply runs_bind with (R := λ _ c2, c2 = win c1); [by apply runs_modify|]. intros [] c2 ->.
    eapply runs_bind with (R := λ a c2, a = win c1 ∧ c2 = win c1); [by apply runs_get|]. intros c2' c2 [-> ->].
    destruct (Z.rem (cl_batchWins (win c1)) batchGrowEvery =? 0) eqn:Hgrow.
    + eapply runs_bind with (R := λ _ c2, c2 = raise_ceiling (Z.min maxBatchLimit (eff + Z.max (eff / 4) 1)) (win c1));
        [by apply runs_modify|]. intros [] c2 ->. apply Hk. unfold maxBatchLimit. simpl in *.
      rewrite Hgrow, E2. split; [done|]. apply int32_small. lia.
    + apply Hk. simpl in *. by rewrite Hgrow, E1, E2.
  - assert (Hone : (1 <? eff) = true) by (apply Z.ltb_lt; lia). rewrite Hone.
    rewrite Nat2Z.inj_succ, Z.pow_succ_r in Hpow by lia.
    pose proof (Z.div_mod eff 2 ltac:(lia)). pose proof (Z.mod_pos_bound eff 2 ltac:(lia)).
    eapply runs_bind with (R := λ _ c2, c2 = shrink (eff / 2) c1); [by apply runs_modify|]. intros [] c2 ->.
    eapply runs_conseq; [apply (IH (eff / 2)); lia|]. intros a c' (k & -> & Hk & Hkc & Hhalf & Hlow & Heq).
    exists k. split; [done|]. split; [lia|]. split; [done|]. split; [lia|]. split; [|lia]. intros _.
    destruct (decide (k < eff / 2)) as [?|?]; [by apply Hlow|].
    assert (k = eff / 2) as -> by lia. specialize (Heq eq_refl). unfold served_at_once in Heq.
    rewrite (proj2 (Z.ltb_lt (eff / 2) limit)) in Heq by lia. destruct Heq as [Hw Hc]. simpl in Hw, Hc.
    rewrite Hw in Hc. simpl in Hc. rewrite Hc, Hw. split; [apply int32_small; lia|done].
Qed.
End adapting.

(** ** Properties *)

(** C19.  Failover.  Whatever the endpoints reply, a call to a pool returns and
    asks distinct endpoints, each at most once: its questions to the outside are,
    in order, those to the first endpoints of the rotation from the preferred
    one, and it goes on to the next exactly when one failed, the context is alive
    and another is left, so that it fails only on a dead context or with every
    endpoint asked.  The first that answers decides the call, with a result, an
    RPC error or an oversized body, and is never failed over; an endpoint that
    gave a result is preferred from then on.  With a live context, endpoints that
    are down are passed over whatever their number, and a pool that is all down
    fails the call after one question to each. *)
Theorem call_failover `{S : SDK} `{!RpcJson} {A : Type} (urls : list string) (bodyCap : Z)
    (http : nat → string → request → http_reply) (ctxErr : nat → bool)
    (into : A → string → A * bool) (req : request) (out : A) (o : outside) (c : client)
    (j : nat) (r : callres) :
  in_pool urls c →
  (∃ a n c' j, call urls bodyCap http ctxErr into req out o c = Some (a, mkOutside n (o_db o), c') ∧
     in_pool urls c' ∧ call_post urls bodyCap http into req c a c' ∧
     asked_in_turn urls bodyCap http ctxErr into req (cl_preferred c) 0 (length urls) o a n c' j ∧
     NoDup (rotation urls (cl_preferred c) <$> seq 0 (Datatypes.S j))) ∧
  ((∀ n, ctxErr n = false) →
   (∀ i, i < j → ∀ n x, (decode_reply bodyCap into
      (http n (url urls (rotation urls (cl_preferred c) i)) req) x).1 = CallFailed)%nat →
   ((j < length urls)%nat → (∀ n x, (decode_reply bodyCap into
      (http n (url urls (rotation urls (cl_preferred c) j)) req) x).1 = r) → r ≠ CallFailed →
    ∃ out' c', call urls bodyCap http ctxErr into req out o c =
        Some ((r, out'), mkOutside (o_calls o + 2 * j + 1) (o_db o), c') ∧
      (r = CallOk → cl_preferred c' = rotation urls (cl_preferred c) j) ∧ (r ≠ CallOk → c' = c)) ∧
   ((length urls ≤ j)%nat →
    ∃ out', call urls bodyCap http ctxErr into req out o c =
        Some ((CallFailed, out'), mkOutside (o_calls o + 2 * length urls) (o_db o), c))).
Proof.
  intros Hc. assert (Hlen : (0 < length urls)%nat) by (unfold in_pool in Hc; lia).
  destruct (call_traced urls bodyCap http ctxErr Hlen into req out o c Hc)
    as (a & n & c' & j' & Hrun & Hpool & Hpost & Htrace & Hnd).
  split; [by exists a, n, c', j'|].
  intros Hctx Hdead. split.
  - intros Hj Hup Hr.
    destruct (walk_skips urls bodyCap http ctxErr into req (cl_preferred c) j (length urls) 0 r out o c)
      as [out' Hw]; [done| |done..|].
    { intros i Hi. apply Hdead. lia. }
    exists out'. eexists. unfold call, w_bind, w_get. split; [exact Hw|]. simpl Nat.add.
    split; [|by destruct r]. intros ->. simpl.
    destruct (Nat.eqb_spec (rotation urls (cl_preferred c) j) (cl_preferred c)) as [->|]; done.
  - intros Hj. destruct Htrace as (Hlast & _ & [x Hx] & _ & Hfail & _). simpl Nat.add in Hx.
    assert (Ha : a.1 = CallFailed) by (rewrite <- Hx; apply Hdead; lia).
    destruct (Hfail Ha) as [-> [Hbad|Hall]]; [by rewrite Hctx in Hbad|].
    destruct a as [? out']. simpl in Ha. subst. exists out'. rewrite Hrun. unfold call_post in Hpost. simpl in Hpost.
    subst c'. do 3 f_equal. f_equal. lia.
Qed.

(** C20.  A batch adapts to the weight of its ledgers.  Over a range whose
    answers fit in memory up to [cap] ledgers, a batch is served, with no more
    than was asked and, unless that fits at once, more than half of what fits; a
    batch that had to shrink leaves its size as the next one's start, so that the
    aborted downloads are not paid again; and eight full successes at a reduced
    size earn one probe a quarter larger. *)
Theorem GetLedgerBatch_adapts `{S : SDK} `{!RpcJson} (urls : list string) (bodyCap : Z)
    (http : nat → string → request → http_reply) (ctxErr : nat → bool)
    (start limit cap : Z) (ls : Z → list LedgerCloseMeta) (o : outside) (c : client) :
  fits urls bodyCap http ctxErr start cap ls → 1 ≤ cap → ceiling_ok c →
  let eff := Z.min (clampLimit limit) (cl_batchCeiling c) in
  ∃ k n c', GetLedgerBatch urls bodyCap http ctxErr 8 start limit o c
      = Some (Ok (ls k), mkOutside n (o_db o), c') ∧ adapted cap (clampLimit limit) eff c k c'.
Proof.
  intros Hfits Hcap [Hc1 Hc2] eff. pose proof (clampLimit_range limit) as Hl. unfold maxBatchLimit in *.
  assert (Heff : 1 ≤ eff ≤ clampLimit limit) by lia.
  destruct (batchLoop_adapts urls bodyCap http ctxErr 8 start (clampLimit limit) eff cap ls c Hfits Heff)
    with (o := o) as (out & n & c' & Hrun & k & -> & Ha).
  - apply Hl.
  - done.
  - change (2 ^ Z.of_nat 8) with 256. lia.
  - exists k, n, c'. split; [|done]. unfold GetLedgerBatch, w_bind, w_get.
    replace (Z.max (Z.min (clampLimit limit) (cl_batchCeiling c)) 1) with eff by lia. exact Hrun.
Qed.

(** The client's answers can be trusted as far as the pool can.  Whatever
    the endpoints reply, the two reads of ledgers return and keep the batch
    ceiling between 1 and 200; what they return was decoded from one endpoint's
    answer to a request for it, a batch from a request for no more than asked;
    and no window error is invented: below retention rests on a reported tip
    more than 64 ledgers ahead, or on a window that ends before the ledger and
    starts after it; not yet available on a tip or window that close; and too
    large on an oversized answer for a single ledger. *)
Theorem rpc_answers_justified `{S : SDK} `{!RpcJson} (urls : list string) (bodyCap : Z)
    (http : nat → string → request → http_reply) (ctxErr : nat → bool)
    (seq limit : Z) (o : outside) (c : client) :
  in_pool urls c → ceiling_ok c →
  (∃ out n c', GetLedger urls bodyCap http ctxErr seq o c = Some (out, mkOutside n (o_db o), c') ∧
     ceiling_ok c' ∧ in_pool urls c' ∧
     match out with
     | Ok lcm => ∃ result meta rest, said_ledgers urls bodyCap http seq 1 result ∧
         lg_Ledgers result = (seq, meta) :: rest ∧ UnmarshalLedger meta = Some lcm
     | Err e => justified urls bodyCap http seq 1 e
     end) ∧
  (∃ out n c', GetLedgerBatch urls bodyCap http ctxErr 8 seq limit o c = Some (out, mkOutside n (o_db o), c') ∧
     ceiling_ok c' ∧ in_pool urls c' ∧ ∃ k, 1 ≤ k ≤ clampLimit limit ∧
       match out with
       | Ok ls => batch_of urls bodyCap http seq k ls
       | Err e => justified urls bodyCap http seq k e ∧ (e = ErrResponseTooLarge → k = 1)
       end).
Proof.
  intros Hp Hc. assert (Hlen : (0 < length urls)%nat) by (unfold in_pool in Hp; lia). split.
  - destruct (GetLedger_runs urls bodyCap http ctxErr Hlen seq c o) as (out & n & c' & Hrun & Hs & Hout).
    exists out, n, c'. split; [done|]. split; [by eapply same_batch_ceiling|]. split; [by apply Hs|done].
  - pose proof (clampLimit_range limit) as Hl. destruct Hc as [Hc1 Hc2]. unfold maxBatchLimit in *.
    destruct (batchLoop_runs urls bodyCap http ctxErr Hlen 8 seq (clampLimit limit)
      (Z.min (clampLimit limit) (cl_batchCeiling c)) c) with (o := o)
      as (out & n & c' & Hrun & Hc' & Hp' & k & Hk & Hout); [lia|apply Hl| |by split|done|].
    { change (2 ^ Z.of_nat 8) with 256. lia. }
    exists out, n, c'. split; [|split; [done|]; split; [done|]; exists k; split; [lia|done]].
    unfold GetLedgerBatch, w_bind, w_get.
    by replace (Z.max (Z.min (clampLimit limit) (cl_batchCeiling c)) 1)
      with (Z.min (clampLimit limit) (cl_batchCeiling c)) by lia.
Qed.

(** ** Witnesses and concrete runs *)

#[local] Existing Instance demo_sdk.

(** Results in unary: a ledger per byte, a tip as a length. *)
#[local] Instance demo_json : RpcJson (H := demo_sdk) := {|
  json_envelope body := if String.eqb body "refused" then Some (Some (mkJsonRPCError 1 "Start ledger out"), "")
                        else Some (None, body);
  into_sequence _ s := (Z.of_nat (String.length s), true);
  into_passphrase _ s := (s, true);
  into_ledgers _ s := (mkLedgersResult ((λ _, (7, "m")) <$> String.list_ascii_of_string s) 9 2, true);
  into_entries _ s := ([s], true);
  UnmarshalLedger _ := Some (demo_block 7) |}.

Fixpoint unary (n : nat) : string :=
  match n with O => "" | Datatypes.S n => String "x" (unary n) end.

(** The endpoint "a" is down; the others serve as many ledgers as asked. *)
Definition demo_http (n : nat) (endpoint : string) (req : request) : http_reply :=
  if String.eqb endpoint "a" then NoReply
  else match req with
       | getLedgers start limit => if start =? 0 then HttpReply 200 "refused" else HttpReply 200 (unary (Z.to_nat limit))
       | getLatestLedger => HttpReply 200 (unary 99)
       | _ => HttpReply 200 ""
       end.

Definition demo_client : client := mkClient 0 0 maxBatchLimit 0.
Definition demo_alive (n : nat) : bool := false.

Example demo_batch_run :
  (λ r, let '(out, o, c) := r in
     (match out with Ok ls => length ls | Err _ => 0%nat end, cl_batchCeiling c, cl_batchWins c,
      cl_preferred c, cl_failovers c, o_calls o)) <$>
    GetLedgerBatch ["a"; "b"] 3 demo_http demo_alive 8 7 50 (mkOutside 0 empty_db) demo_client
  = Some (3%nat, 3, 1, 1%nat, 1, 15%nat).
Proof. vm_compute. reflexivity. Qed.

(** A window error near the tip waits; far below it is final. *)
Example demo_windows :
  (λ r, r.1.1) <$> GetLedger ["b"] 1000 demo_http demo_alive 0 (mkOutside 0 empty_db) demo_client
  = Some (Err ErrBelowRetention).
Proof. vm_compute. reflexivity. Qed.

Lemma unary_length n : String.length (unary n) = n.
Proof. induction n as [|n IH]; simpl; [done|by rewrite IH]. Qed.

Lemma unary_ledgers n : length (String.list_ascii_of_string (unary n)) = n.
Proof. induction n as [|n IH]; simpl; [done|by rewrite IH]. Qed.

Lemma unary_plain n : String.eqb (unary n) "refused" = false.
Proof. by destruct n. Qed.

Lemma demo_decoded (l : list ascii) :
  mapM (λ p : Z * string, UnmarshalLedger p.2) ((λ _, (7, "m")) <$> l) = Some (replicate (length l) (demo_block 7)).
Proof. apply mapM_Some_2, Forall2_fmap_l. by induction l; constructor. Qed.

(** A pool of one endpoint gives that endpoint's answer. *)
Lemma demo_call {A} (into : A → string → A * bool) req out o c :
  ∃ n c', call ["b"] 3 demo_http demo_alive into req out o c
      = Some (decode_reply 3 into (demo_http 0 "b" req) out, mkOutside n (o_db o), c') ∧ same_batch ["b"] c c'.
Proof.
  unfold call, w_bind at 1, w_get. cbn [length walk].
  replace (Nat.modulo (cl_preferred c + 0) 1) with 0%nat by (symmetry; apply Nat.mod_1_r).
  unfold w_bind, callOne, ask. change (default "" (["b"] !! 0%nat)) with "b".
  change (demo_http (o_calls o) "b" req) with (demo_http 0 "b" req).
  destruct (decode_reply 3 into (demo_http 0 "b" req) out) as [[|e| |] out'].
  - destruct (Nat.eqb 0 (cl_preferred c)); eexists _, _; split; try reflexivity; [apply same_batch_refl|].
    split; [done|]. split; [done|]. intros _. simpl. lia.
  - eexists _, _. split; [reflexivity|apply same_batch_refl].
  - eexists _, _. split; [reflexivity|apply same_batch_refl].
  - eexists _, _. split; [reflexivity|apply same_batch_refl].
Qed.

Lemma demo_reply k : 1 ≤ k →
  decode_reply 3 into_ledgers (demo_http 0 "b" (getLedgers 7 k)) no_ledgers =
    if k <=? 3 then (CallOk, mkLedgersResult ((λ _, (7, "m")) <$> String.list_ascii_of_string (unary (Z.to_nat k))) 9 2)
    else (CallTooLarge, no_ledgers).
Proof.
  intros Hk. change (demo_http 0 "b" (getLedgers 7 k)) with (HttpReply 200 (unary (Z.to_nat k))).
  unfold decode_reply. rewrite unary_length, Z2Nat.id by lia.
  destruct (Z.leb_spec k 3) as [Hle|Hgt]; destruct (Z.ltb_spec 3 k); try lia; [|done].
  simpl negb. cbv iota. simpl json_envelope. by rewrite unary_plain.
Qed.

Lemma demo_fits : fits ["b"] 3 demo_http demo_alive 7 3 (λ k, replicate (Z.to_nat k) (demo_block 7)).
Proof.
  intros k c Hk o. unfold getLedgerBatchOnce, w_bind at 1.
  destruct (demo_call into_ledgers (getLedgers 7 k) no_ledgers o c) as (n & c' & -> & Hs).
  rewrite demo_reply by lia. destruct (Z.leb_spec k 3) as [Hle|Hgt].
  - eexists _, _, _. split; [reflexivity|]. split; [done|]. simpl lg_Ledgers.
    destruct (Z.to_nat k) as [|m] eqn:Hm; [lia|]. simpl unary.
    change (String.list_ascii_of_string (String "x" (unary m))) with ("x"%char :: String.list_ascii_of_string (unary m)).
    rewrite fmap_cons. rewrite <- (fmap_cons (λ _, (7, "m")) "x"%char), demo_decoded. simpl. by rewrite unary_ledgers.
  - eexists _, _, _. split; [reflexivity|]. by split.
Qed.

Lemma GetLedgerBatch_adapts_witness :
  ∃ k n c', GetLedgerBatch ["b"] 3 demo_http demo_alive 8 7 50 (mkOutside 0 empty_db) demo_client
    = Some (Ok (replicate (Z.to_nat k) (demo_block 7)), mkOutside n empty_db, c') ∧ 1 ≤ k ≤ 3.
Proof.
  destruct (GetLedgerBatch_adapts ["b"] 3 demo_http demo_alive 7 50 3
    (λ k, replicate (Z.to_nat k) (demo_block 7)) (mkOutside 0 empty_db) demo_client)
    as (k & n & c' & Hr & Hk & Hcap & _).
  - exact demo_fits.
  - lia.
  - unfold ceiling_ok. simpl. unfold maxBatchLimit. lia.
  - exists k, n, c'. split; [exact Hr|]. lia.
Defined.

Lemma call_failover_witness :
  ∃ out' c', call ["a"; "b"] 100 demo_http demo_alive into_sequence getLatestLedger 0 (mkOutside 0 empty_db) demo_client
    = Some ((CallOk, out'), mkOutside 3 empty_db, c') ∧ cl_preferred c' = 1%nat.
Proof.
  destruct (call_failover ["a"; "b"] 100 demo_http demo_alive into_sequence getLatestLedger 0
    (mkOutside 0 empty_db) demo_client 1 CallOk) as [_ Hup].
  - unfold in_pool. simpl. lia.
  - destruct Hup as [Hup _].
    + reflexivity.
    + intros i Hi n x. assert (i = 0%nat) as -> by lia. reflexivity.
    + destruct Hup as (out' & c' & Hr & Hp & _).
      * simpl. lia.
      * intros n x. vm_compute. reflexivity.
      * discriminate.
      * exists out', c'. split; [exact Hr|]. rewrite Hp; reflexivity.
Defined.

Lemma rpc_answers_justified_witness :
  ∃ out n c', GetLedger ["b"] 1000 demo_http demo_alive 0 (mkOutside 0 empty_db) demo_client
    = Some (out, mkOutside n empty_db, c') ∧ ceiling_ok c'.
Proof.
  destruct (rpc_answers_justified ["b"] 1000 demo_http demo_alive 0 5 (mkOutside 0 empty_db) demo_client)
    as [(out & n & c' & Hr & Hc & _) _].
  - unfold in_pool. simpl. lia.
  - unfold ceiling_ok. simpl. unfold maxBatchLimit. lia.
  - exists out, n, c'. split; [exact Hr|exact Hc].
Defined.
