(* ===== verification/Classify.v ===== *)
(** * Classification ([internal/registry/classify.go])

    Registration reads a contract's executable on the chain and mines its wasm
    for the section that declares its events.  The bytes are the chain's, and
    nothing about them is assumed. *)

From Stdlib Require Import Ascii Strings.Byte.
From S2P Require Import Prelude Db Rows Registrations Commit Registry Extract Loop Workers Rpc.

(** ** Definitions *)

Definition TypeWasm : string := "wasm".
Definition TypeSAC : string := "sac".
Definition TypeExternal : string := "external".
Definition TypeUnknown : string := "unknown".

Definition MethodSpecEvents : string := "spec_events".
Definition MethodFunctionNames : string := "function_names".
Definition MethodSACBuiltin : string := "sac_builtin".
Definition MethodOpaque : string := "opaque".

Definition sacEvents : list string :=
  ["approve"; "burn"; "clawback"; "mint"; "set_admin"; "set_authorized"; "transfer"].

Record Classification := mkClassification {
  cls_Type : string; cls_WasmHash : string; cls_Events : list string; cls_Method : string }.

(** *** Bytes *)

Definition bval (b : byte) : Z := Z.of_N (Byte.to_N b).

Definition uint64 (x : Z) : Z := x mod 18446744073709551616.

(** [binary.Uvarint]: the value and the bytes read; no bytes when the buffer is
    too short, a negative number when the value overflows. *)
Fixpoint Uvarint_from (buf : list byte) (i x s : Z) : Z * Z :=
  match buf with
  | [] => (0, 0)
  | b :: buf =>
      if i =? 10 then (0, - (i + 1))
      else if bval b <? 128 then
        if (i =? 9) && (1 <? bval b) then (0, - (i + 1))
        else (Z.lor x (uint64 (Z.shiftl (bval b) s)), i + 1)
      else Uvarint_from buf (i + 1) (Z.lor x (uint64 (Z.shiftl (Z.land (bval b) 127) s))) (s + 7)
  end.

Definition Uvarint (buf : list byte) : Z * Z := Uvarint_from buf 0 0 0.

Definition wasmMagic : list byte := [x00; x61; x73; x6d].

#[export] Instance byte_eq_dec : EqDecision byte := Byte.byte_eq_dec.

Definition bytes_eqb (a b : list byte) : bool := bool_decide (a = b).

(** [l[a:b]] *)
Definition slice {A} (l : list A) (a b : Z) : list A := take (Z.to_nat (b - a)) (drop (Z.to_nat a) l).

Definition contractspecv0 : list byte := String.list_byte_of_string "contractspecv0".
#[global] Arguments contractspecv0 : simpl never.

(** The section loop; [None] when the fuel ran out. *)
Fixpoint sectionLoop (fuel : nat) (rest : list byte) : option (option (list byte)) :=
  match rest with
  | [] => Some None
  | sectionID :: rest =>
      match fuel with
      | O => None
      | Datatypes.S fuel =>
          let '(size, n) := Uvarint rest in
          if (n <=? 0) || (Z.of_nat (length rest) - n <? size) then Some None
          else
            let section := slice rest n (n + size) in
            let rest := drop (Z.to_nat (n + size)) rest in
            if negb (bval sectionID =? 0) then sectionLoop fuel rest
            else
              let '(nameLen, m) := Uvarint section in
              if (m <=? 0) || (Z.of_nat (length section) - m <? nameLen) then Some None
              else if bytes_eqb (slice section m (m + nameLen)) contractspecv0
              then Some (Some (drop (Z.to_nat (m + nameLen)) section))
              else sectionLoop fuel rest
      end
  end.

Definition contractSpecSection (fuel : nat) (wasm : list byte) : option (option (list byte)) :=
  if Nat.ltb (length wasm) 8 || negb (bytes_eqb (take 4 wasm) wasmMagic) then Some None
  else sectionLoop fuel (drop 8 wasm).

(** *** Names *)

(** [unicode]'s tables outside ASCII. *)
Class Unicode := { u_IsUpper : Z → bool; u_IsLower : Z → bool; u_IsDigit : Z → bool; u_ToLower : Z → Z }.

Definition in_range (lo hi r : Z) : bool := (lo <=? r) && (r <=? hi).
Definition IsUpper `{Unicode} (r : Z) : bool := if r <? 128 then in_range 65 90 r else u_IsUpper r.
Definition IsLower `{Unicode} (r : Z) : bool := if r <? 128 then in_range 97 122 r else u_IsLower r.
Definition IsDigit `{Unicode} (r : Z) : bool := if r <? 128 then in_range 48 57 r else u_IsDigit r.
Definition RuneToLower `{Unicode} (r : Z) : Z :=
  if r <? 128 then if in_range 65 90 r then r + 32 else r else u_ToLower r.

(** The loop of [toSnakeCase] over the runes, with the one before. *)
Fixpoint snakeLoop `{Unicode} (prev : option Z) (runes : list Z) : list Z :=
  match runes with
  | [] => []
  | r :: rest =>
      if IsUpper r then
        let prevLower := match prev with Some p => IsLower p || IsDigit p | None => false end in
        let nextLower := match rest with n :: _ => IsLower n | [] => false end in
        (match prev with Some _ => if prevLower || nextLower then [95] else [] | None => [] end)
          ++ RuneToLower r :: snakeLoop (Some r) rest
      else r :: snakeLoop (Some r) rest
  end.

Definition snakeRunes `{Unicode} (runes : list Z) : list Z := snakeLoop None runes.

(** [[]rune(s)]: a byte that starts no well-formed sequence is U+FFFD. *)
Definition RuneError : Z := 65533.
Definition cont (b : Z) : bool := in_range 128 191 b.
Definition low6 (b : Z) : Z := Z.land b 63.

(** The first rune of some bytes and its width. *)
Definition decode_rune (bs : list Z) : Z * nat :=
  match bs with
  | [] => (RuneError, O)
  | b0 :: bs =>
      if b0 <? 128 then (b0, 1%nat)
      else match bs with
      | b1 :: bs =>
          if in_range 194 223 b0 && cont b1 then (Z.lor (Z.shiftl (Z.land b0 31) 6) (low6 b1), 2%nat)
          else match bs with
          | b2 :: bs =>
              if in_range 224 239 b0 && in_range (if b0 =? 224 then 160 else 128) (if b0 =? 237 then 159 else 191) b1
                 && cont b2
              then (Z.lor (Z.shiftl (Z.land b0 15) 12) (Z.lor (Z.shiftl (low6 b1) 6) (low6 b2)), 3%nat)
              else match bs with
              | b3 :: _ =>
                  if in_range 240 244 b0 && in_range (if b0 =? 240 then 144 else 128) (if b0 =? 244 then 143 else 191) b1
                     && cont b2 && cont b3
                  then (Z.lor (Z.shiftl (Z.land b0 7) 18) (Z.lor (Z.shiftl (low6 b1) 12)
                          (Z.lor (Z.shiftl (low6 b2) 6) (low6 b3))), 4%nat)
                  else (RuneError, 1%nat)
              | [] => (RuneError, 1%nat)
              end
          | [] => (RuneError, 1%nat)
          end
      | [] => (RuneError, 1%nat)
      end
  end.

Fixpoint runes_of (fuel : nat) (bs : list Z) : list Z :=
  match fuel, bs with
  | Datatypes.S fuel, _ :: _ => let '(r, n) := decode_rune bs in r :: runes_of fuel (drop n bs)
  | _, _ => []
  end.

(** [WriteRune] *)
Definition encode_rune (r : Z) : list Z :=
  let r := if in_range 0 1114111 r && negb (in_range 55296 57343 r) then r else RuneError in
  if r <? 128 then [r]
  else if r <? 2048 then [Z.lor 192 (Z.shiftr r 6); Z.lor 128 (low6 r)]
  else if r <? 65536 then [Z.lor 224 (Z.shiftr r 12); Z.lor 128 (low6 (Z.shiftr r 6)); Z.lor 128 (low6 r)]
  else [Z.lor 240 (Z.shiftr r 18); Z.lor 128 (low6 (Z.shiftr r 12)); Z.lor 128 (low6 (Z.shiftr r 6));
        Z.lor 128 (low6 r)].

Definition toSnakeCase `{Unicode} (s : string) : string :=
  of_codes (concat (encode_rune <$> snakeRunes (runes_of (length (codes s)) (codes s)))).

(** *** The chain's entries *)

(** The keys the classifier builds. *)
Inductive LedgerKey := InstanceKey (contractID : list byte) | CodeKey (hash : string).

(** [ContractExecutable]: its type, and the getter of its hash. *)
Inductive ExecutableType := ExecutableWasm | ExecutableStellarAsset | ExecutableOther.
Record Executable := mkExecutable { ex_Type : ExecutableType; ex_WasmHash : sdk (option string) }.

(** One [ScSpecEntry]: the names its getters give. *)
Record ScSpecEntry := mkScSpecEntry { sp_EventV0 : sdk (option string); sp_FunctionV0 : sdk (option string) }.

(** The SDK behind the classifier.  [Unmarshal_spec] reads one entry off a
    stream: the entry and the number of bytes read. *)
Class ClassifySDK := {
  strkey_DecodeContract : string → option (list byte);
  MarshalBase64_key : LedgerKey → sdk string;
  EntryData : Type;
  UnmarshalEntry : string → sdk EntryData;
  Entry_ContractData : EntryData → sdk (option (sdk (option Executable)));
  Entry_ContractCode : EntryData → sdk (option (list byte));
  Unmarshal_spec : list byte → sdk (ScSpecEntry * nat) }.

Section classifier.
Context `{!Unicode} `{!ClassifySDK}.

(** [append], when the getter found a name. *)
Definition push_name (name : option string) (names : list string) : list string :=
  match name with Some n => names ++ [toSnakeCase n] | None => names end.

(** The loop of [specNames]: [SErr] for an undecodable stream, [None] when the
    fuel ran out. *)
Fixpoint specLoop (fuel : nat) (spec : list byte) (events functions : list string)
    : option (sdk (list string * list string)) :=
  match spec with
  | [] => Some (SOk (events, functions))
  | _ =>
      match fuel with
      | O => None
      | Datatypes.S fuel =>
          match Unmarshal_spec spec with
          | SErr => Some SErr
          | SPanic => Some SPanic
          | SOk (entry, n) =>
              match sp_EventV0 entry, sp_FunctionV0 entry with
              | SOk ev, SOk fn => specLoop fuel (drop n spec) (push_name ev events) (push_name fn functions)
              | _, _ => Some SPanic
              end
          end
      end
  end.

Definition specNames (spec : list byte) : option (sdk (list string * list string)) :=
  specLoop (length spec) spec [] [].

(** How a classification ends. *)
Inductive classified :=
  | Classified (c : Classification)
  | NotOnChain                       (** [ErrContractNotFound] *)
  | Unclassified.                    (** any other error *)

(** [copy(cid[:], raw)] into 32 bytes *)
Definition copy32 (raw : list byte) : list byte := take 32 (raw ++ replicate 32 x00).

Definition opaque (hash : string) : Classification := mkClassification TypeWasm hash [] MethodOpaque.

(** What the names of a spec make of a wasm contract. *)
Definition named (hash : string) (names : list string * list string) : Classification :=
  match names with
  | (e :: events, _) => mkClassification TypeWasm hash (e :: events) MethodSpecEvents
  | ([], f :: functions) => mkClassification TypeWasm hash (f :: functions) MethodFunctionNames
  | ([], []) => opaque hash
  end.

(** The part of [classifyWasm] after the code entry is fetched; [None] when the
    fuel ran out, [SPanic] for the recover frontier. *)
Definition mineCode (hash entryB64 : string) : option (sdk Classification) :=
  match UnmarshalEntry entryB64 with
  | SPanic => Some SPanic
  | SErr => Some (SOk (opaque hash))
  | SOk data =>
      match Entry_ContractCode data with
      | SOk (Some code) =>
          match contractSpecSection (length code) code with
          | None => None
          | Some None => Some (SOk (opaque hash))
          | Some (Some spec) =>
              match specNames spec with
              | None => None
              | Some (SOk names) => Some (SOk (named hash names))
              | Some SErr => Some (SOk (opaque hash))
              | Some SPanic => Some SPanic
              end
          end
      | SOk None | SErr => Some (SOk (opaque hash))
      | SPanic => Some SPanic
      end
  end.

(** [Classify], over the answers of [GetLedgerEntry]: its result and the next
    entry it asks for. *)
Definition recovered (r : sdk Classification) : classified :=
  match r with SOk c => Classified c | SErr | SPanic => Unclassified end.

Context `{S : SDK} `{!RpcJson} (urls : list string) (bodyCap : Z).
Context (http : nat → string → request → http_reply) (ctxErr : nat → bool).

Abbreviation entry key := (GetLedgerEntry urls bodyCap http ctxErr key).

(** The keys of a contract's instance and of its code. *)
Definition instanceLedgerKeyB64 (contractID : string) : sdk string :=
  match strkey_DecodeContract contractID with
  | None => SErr
  | Some raw => MarshalBase64_key (InstanceKey (copy32 raw))
  end.
Definition codeLedgerKeyB64 (hash : string) : sdk string := MarshalBase64_key (CodeKey hash).

Definition classifyWasm (hash : string) : Work client classified :=
  match codeLedgerKeyB64 hash with
  | SOk keyB64 =>
      answer <-w entry keyB64 ;
      match answer with
      | Err _ => w_ret Unclassified
      | Ok None => w_ret (Classified (opaque hash))
      | Ok (Some entryB64) =>
          match mineCode hash entryB64 with
          | None => w_hung
          | Some r => w_ret (recovered r)
          end
      end
  | SErr | SPanic => w_ret Unclassified
  end.

(** The executable of an instance entry. *)
Definition executable (entryB64 : string) : sdk Executable :=
  sdk_bind (UnmarshalEntry entryB64) (λ data,
  sdk_bind (Entry_ContractData data) (λ d,
  match d with
  | None => SErr
  | Some inst => sdk_bind inst (λ i, match i with Some ex => SOk ex | None => SErr end)
  end)).

Definition Classify (contractID : string) : Work client classified :=
  match instanceLedgerKeyB64 contractID with
  | SErr | SPanic => w_ret Unclassified
  | SOk keyB64 =>
      answer <-w entry keyB64 ;
      match answer with
      | Err _ => w_ret Unclassified
      | Ok None => w_ret NotOnChain
      | Ok (Some entryB64) =>
          match executable entryB64 with
          | SErr | SPanic => w_ret Unclassified
          | SOk ex =>
              match ex_Type ex with
              | ExecutableStellarAsset =>
                  w_ret (Classified (mkClassification TypeSAC "" sacEvents MethodSACBuiltin))
              | ExecutableWasm =>
                  match ex_WasmHash ex with
                  | SOk (Some hash) => classifyWasm hash
                  | SOk None | SErr | SPanic => w_ret Unclassified
                  end
              | ExecutableOther => w_ret (Classified (mkClassification TypeExternal "" [] MethodOpaque))
              end
          end
      end
  end.
End classifier.

(** ** Lemmas *)

(** *** Varints *)

Definition byte_of (x : Z) : byte := default x00 (Byte.of_N (Z.to_N x)).

Lemma bval_range b : 0 ≤ bval b < 256.
Proof. unfold bval. pose proof (Byte.to_N_bounded b). lia. Qed.

Lemma bval_byte_of x : 0 ≤ x < 256 → bval (byte_of x) = x.
Proof.
  intros Hx. unfold bval, byte_of. destruct (Byte.of_N (Z.to_N x)) as [b|] eqn:Hb.
  - simpl. apply Byte.to_of_N in Hb. rewrite Hb. lia.
  - apply Byte.of_N_None_iff in Hb. lia.
Qed.

(** [binary.PutUvarint] *)
Fixpoint put_uvarint (fuel : nat) (x : Z) : list byte :=
  match fuel with
  | O => [byte_of x]
  | Datatypes.S fuel => if x <? 128 then [byte_of x] else byte_of (128 + x mod 128) :: put_uvarint fuel (x / 128)
  end.

Definition uvarint (x : Z) : list byte := put_uvarint 10 x.

Lemma lor_shiftl_add a b s : 0 ≤ s → 0 ≤ a < 2 ^ s → 0 ≤ b → Z.lor a (b * 2 ^ s) = a + b * 2 ^ s.
Proof.
  intros Hs Ha Hb. rewrite <- (Z.shiftl_mul_pow2 b s) by done.
  assert (Hl : Z.land a (Z.shiftl b s) = 0).
  { apply Z.bits_inj'. intros n Hn. rewrite Z.land_spec, Z.bits_0. destruct (Z.lt_ge_cases n s).
    - by rewrite Z.shiftl_spec_low, andb_false_r.
    - replace (Z.testbit a n) with false; [done|]. symmetry.
      destruct (decide (a = 0)) as [->|]; [apply Z.bits_0|]. apply Z.bits_above_log2; [lia|].
      assert (Z.log2 a < s) by (apply Z.log2_lt_pow2; lia). lia. }
  by rewrite <- (Z.add_lor_land a), Hl, Z.add_0_r.
Qed.

Lemma uint64_small x : 0 ≤ x < 2 ^ 64 → uint64 x = x.
Proof. intros Hx. unfold uint64. apply Z.mod_small. exact Hx. Qed.

(** The last byte of an encoding. *)
Lemma Uvarint_from_last x i acc rest :
  0 ≤ i ≤ 9 → 0 ≤ x < 128 → 0 ≤ acc < 2 ^ (7 * i) → x * 2 ^ (7 * i) + acc < 2 ^ 64 →
  Uvarint_from (byte_of x :: rest) i acc (7 * i) = (acc + x * 2 ^ (7 * i), i + 1).
Proof.
  intros Hi Hx Hacc Hlim. simpl. rewrite bval_byte_of by lia.
  destruct (Z.eqb_spec i 10); [lia|]. destruct (Z.ltb_spec x 128); [|lia].
  assert (Hbad : (i =? 9) && (1 <? x) = false).
  { destruct (Z.eqb_spec i 9) as [->|]; [|done]. apply Z.ltb_ge. change (2 ^ 64) with (2 * 2 ^ (7 * 9)) in Hlim. nia. }
  rewrite Hbad, Z.shiftl_mul_pow2, uint64_small by (try lia; nia).
  by rewrite lor_shiftl_add by lia.
Qed.

Lemma Uvarint_from_put fuel x i acc rest :
  0 ≤ i ≤ 9 → 0 ≤ x < 128 ^ (Z.of_nat fuel + 1) → 0 ≤ acc < 2 ^ (7 * i) → x * 2 ^ (7 * i) + acc < 2 ^ 64 →
  Uvarint_from (put_uvarint fuel x ++ rest) i acc (7 * i) =
    (acc + x * 2 ^ (7 * i), i + Z.of_nat (length (put_uvarint fuel x))).
Proof.
  revert x i acc. induction fuel as [|fuel IH]; intros x i acc Hi Hx Hacc Hlim.
  { apply Uvarint_from_last; [lia|simpl in Hx; lia|done|done]. }
  rewrite Nat2Z.inj_succ in Hx. replace (Z.succ (Z.of_nat fuel) + 1) with (Z.of_nat fuel + 1 + 1) in Hx by lia.
  rewrite Z.pow_add_r in Hx by lia. change (128 ^ 1) with 128 in Hx.
  simpl put_uvarint. destruct (Z.ltb_spec x 128) as [Hsmall|Hbig].
  { apply Uvarint_from_last; [lia|lia|done|done]. }
  pose proof (Z.mod_pos_bound x 128 ltac:(lia)). pose proof (Z.div_mod x 128 ltac:(lia)).
  pose proof (Z.div_pos x 128 ltac:(lia) ltac:(lia)).
  set (m := x mod 128) in *. set (q := x / 128) in *. clearbody m q.
  assert (Hpow : 2 ^ (7 * (i + 1)) = 128 * 2 ^ (7 * i)).
  { replace (7 * (i + 1)) with (7 + 7 * i) by lia. rewrite Z.pow_add_r by lia. done. }
  assert (Hp : 0 < 2 ^ (7 * i)) by (apply Z.pow_pos_nonneg; lia).
  assert (Hi8 : i ≤ 8).
  { destruct (decide (i = 9)) as [->|]; [|lia]. change (2 ^ 64) with (2 * 2 ^ (7 * 9)) in Hlim. nia. }
  simpl. rewrite bval_byte_of by lia. destruct (Z.eqb_spec i 10); [lia|].
  destruct (Z.ltb_spec (128 + m) 128); [lia|].
  replace (Z.land (128 + m) 127) with m.
  2: { change 127 with (Z.ones 7). rewrite Z.land_ones by lia. change (2 ^ 7) with 128.
       replace (128 + m) with (m + 1 * 128) by lia. rewrite Z.mod_add by lia. symmetry. apply Z.mod_small. lia. }
  rewrite (Z.shiftl_mul_pow2 m), uint64_small by (try lia; nia).
  rewrite lor_shiftl_add by lia.
  replace (7 * i + 7) with (7 * (i + 1)) by lia. rewrite IH; [|lia|nia|rewrite Hpow; nia|rewrite Hpow; nia].
  rewrite Hpow. f_equal; [|rewrite Nat2Z.inj_succ; lia].
  replace x with (128 * q + m) by lia. ring.
Qed.

Lemma Uvarint_uvarint x rest : 0 ≤ x < 2 ^ 64 → Uvarint (uvarint x ++ rest) = (x, Z.of_nat (length (uvarint x))).
Proof.
  intros Hx. unfold Uvarint, uvarint. pose proof (Uvarint_from_put 10 x 0 0 rest) as H.
  rewrite Z.mul_0_r, Z.mul_1_r in H. rewrite H; [done|lia| |done|lia].
  split; [lia|]. eapply Z.lt_trans; [apply Hx|done].
Qed.

(** What is read is inside the buffer. *)
Lemma Uvarint_from_bounds buf i x s v n :
  0 ≤ i → 0 ≤ x → 0 ≤ s → Uvarint_from buf i x s = (v, n) →
  0 ≤ v ∧ n ≤ i + Z.of_nat (length buf) ∧ (0 < n → i < n).
Proof.
  revert i x s. induction buf as [|b buf IH]; intros i x s Hi Hx Hs; simpl.
  { intros [= <- <-]. lia. }
  pose proof (bval_range b).
  destruct (Z.eqb_spec i 10); [intros [= <- <-]; lia|].
  destruct (bval b <? 128).
  - destruct (_ && _); [intros [= <- <-]; lia|]. intros [= <- <-].
    split; [|lia]. apply Z.lor_nonneg. split; [done|]. unfold uint64. apply Z.mod_pos_bound. lia.
  - intros Hu. apply IH in Hu; [lia|lia| |lia]. apply Z.lor_nonneg. split; [done|].
    unfold uint64. apply Z.mod_pos_bound. lia.
Qed.

Lemma Uvarint_bounds buf v n : Uvarint buf = (v, n) → 0 ≤ v ∧ n ≤ Z.of_nat (length buf).
Proof. intros Hu. apply Uvarint_from_bounds in Hu; lia. Qed.

(** *** Sections *)

(** A wasm module is a list of sections after its preamble. *)
Inductive section := Plain (id : byte) (payload : list byte) | Custom (name body : list byte).

Definition sized (bs : list byte) : list byte := uvarint (Z.of_nat (length bs)) ++ bs.

Definition encode_section (s : section) : list byte :=
  match s with
  | Plain id payload => id :: sized payload
  | Custom name body => x00 :: sized (sized name ++ body)
  end.

Definition section_wf (s : section) : Prop :=
  match s with
  | Plain id payload => id ≠ x00 ∧ Z.of_nat (length payload) < 2 ^ 64
  | Custom name body => Z.of_nat (length (sized name ++ body)) < 2 ^ 64
  end.

(** The body of the first custom section of that name. *)
Fixpoint first_spec (secs : list section) : option (list byte) :=
  match secs with
  | [] => None
  | Custom name body :: secs => if decide (name = contractspecv0) then Some body else first_spec secs
  | Plain _ _ :: secs => first_spec secs
  end.

Lemma sized_read bs rest :
  Z.of_nat (length bs) < 2 ^ 64 →
  ∃ n, Uvarint (sized bs ++ rest) = (Z.of_nat (length bs), n) ∧ 0 < n ∧
    Z.of_nat (length (sized bs ++ rest)) = n + Z.of_nat (length bs) + Z.of_nat (length rest) ∧
    slice (sized bs ++ rest) n (n + Z.of_nat (length bs)) = bs ∧
    drop (Z.to_nat (n + Z.of_nat (length bs))) (sized bs ++ rest) = rest.
Proof.
  intros Hl. unfold sized. exists (Z.of_nat (length (uvarint (Z.of_nat (length bs))))).
  set (u := uvarint (Z.of_nat (length bs))). rewrite <- app_assoc.
  split; [apply Uvarint_uvarint; lia|].
  assert (Hu : (0 < length u)%nat).
  { unfold u, uvarint. simpl. destruct (_ <? 128); simpl; lia. }
  split; [lia|]. split; [rewrite !length_app; lia|]. unfold slice. split.
  - rewrite Nat2Z.id, drop_app_length. replace (Z.to_nat _) with (length bs) by lia. apply take_app_length.
  - replace (Z.to_nat _) with (length (u ++ bs)) by (rewrite length_app; lia). rewrite app_assoc. apply drop_app_length.
Qed.

Lemma sectionLoop_parses fuel secs :
  Forall section_wf secs → (length secs ≤ fuel)%nat →
  sectionLoop fuel (concat (encode_section <$> secs)) = Some (first_spec secs).
Proof.
  intros Hwf. revert fuel. induction Hwf as [|s secs Hs Hwf IH]; intros fuel Hf; [by destruct fuel|].
  destruct fuel as [|fuel]; [simpl in Hf; lia|]. rewrite fmap_cons. simpl concat.
  destruct s as [id payload|name body]; simpl in Hs |- *.
  - destruct Hs as [Hid Hl]. destruct (sized_read payload (concat (encode_section <$> secs)) Hl)
      as (n & -> & Hn & Hlen & _ & Hdrop). rewrite Hdrop.
    destruct (Z.leb_spec n 0); [lia|]. destruct (Z.ltb_spec (Z.of_nat (length (sized payload ++ concat (encode_section <$> secs))) - n)
      (Z.of_nat (length payload))); [lia|]. simpl.
    destruct (Z.eqb_spec (bval id) 0) as [Hz|_]; simpl; [|apply IH; simpl in Hf; lia].
    destruct Hid. unfold bval in Hz. pose proof (Byte.of_to_N id) as Hid.
    assert (Hzero : Byte.to_N id = 0%N) by lia. rewrite Hzero in Hid. by injection Hid as <-.
  - destruct (sized_read (sized name ++ body) (concat (encode_section <$> secs)) Hs)
      as (n & -> & Hn & Hlen & Hslice & Hdrop). rewrite Hdrop, Hslice.
    destruct (Z.leb_spec n 0); [lia|]. destruct (Z.ltb_spec (Z.of_nat (length (sized (sized name ++ body) ++ concat (encode_section <$> secs))) - n)
      (Z.of_nat (length (sized name ++ body)))); [lia|]. simpl.
    destruct (sized_read name body) as (m & -> & Hm & Hlen' & Hslice' & Hdrop').
    { unfold sized in Hs. rewrite !length_app in Hs. lia. }
    rewrite Hdrop', Hslice'. destruct (Z.leb_spec m 0); [lia|].
    destruct (Z.ltb_spec (Z.of_nat (length (sized name ++ body)) - m) (Z.of_nat (length name))); [lia|]. simpl.
    unfold bytes_eqb. case_bool_decide; [by rewrite decide_True|].
    rewrite decide_False by done. apply IH. simpl in Hf. lia.
Qed.

(** Cutting a buffer at two positions inside it. *)
Lemma cut {A} (l : list A) a b :
  0 ≤ a ≤ b → b ≤ Z.of_nat (length l) →
  l = take (Z.to_nat a) l ++ slice l a b ++ drop (Z.to_nat b) l.
Proof.
  intros Hab Hb. unfold slice. replace (drop (Z.to_nat b) l) with (drop (Z.to_nat (b - a)) (drop (Z.to_nat a) l)).
  - by rewrite !take_drop.
  - rewrite drop_drop. f_equal. lia.
Qed.

(** Any bytes at all: the walk ends, and what it finds lies in them, right after
    the name. *)
Lemma sectionLoop_safe fuel rest :
  (length rest ≤ fuel)%nat →
  ∃ r, sectionLoop fuel rest = Some r ∧
    ∀ spec, r = Some spec → ∃ pre post, rest = pre ++ contractspecv0 ++ spec ++ post.
Proof.
  revert rest. induction fuel as [|fuel IH]; intros [|id rest] Hf; simpl in Hf |- *;
    [by eexists|lia|by eexists|].
  destruct (Uvarint rest) as [size n] eqn:Hu. apply Uvarint_bounds in Hu as [Hsz Hn].
  destruct (Z.leb_spec n 0); simpl; [by eexists|].
  destruct (Z.ltb_spec (Z.of_nat (length rest) - n) size); simpl; [by eexists|].
  assert (Hnext : ∃ r, sectionLoop fuel (drop (Z.to_nat (n + size)) rest) = Some r ∧
    ∀ spec, r = Some spec → ∃ pre post, id :: rest = pre ++ contractspecv0 ++ spec ++ post).
  { destruct (IH (drop (Z.to_nat (n + size)) rest)) as (r & Hr & Hspec); [rewrite length_drop; lia|].
    exists r. split; [done|]. intros spec Hs. destruct (Hspec spec Hs) as (pre & post & Heq).
    exists (id :: take (Z.to_nat (n + size)) rest ++ pre), post.
    rewrite <- (take_drop (Z.to_nat (n + size)) rest) at 1. by rewrite Heq, <- app_comm_cons, <- app_assoc. }
  destruct (negb (bval id =? 0)); [done|].
  pose proof (cut rest n (n + size) ltac:(lia) ltac:(lia)) as Hcut. set (sec := slice rest n (n + size)) in *.
  destruct (Uvarint sec) as [nameLen m] eqn:Hu2. apply Uvarint_bounds in Hu2 as [Hnl Hm].
  destruct (Z.leb_spec m 0); simpl; [by eexists|].
  destruct (Z.ltb_spec (Z.of_nat (length sec) - m) nameLen); simpl; [by eexists|].
  unfold bytes_eqb. case_bool_decide as Hname; [|done].
  eexists. split; [done|]. intros spec [= <-].
  pose proof (cut sec m (m + nameLen) ltac:(lia) ltac:(lia)) as Hcut2. rewrite Hname in Hcut2.
  exists (id :: take (Z.to_nat n) rest ++ take (Z.to_nat m) sec), (drop (Z.to_nat (n + size)) rest).
  rewrite <- app_comm_cons. f_equal. rewrite Hcut at 1. rewrite Hcut2 at 1. by rewrite <- !app_assoc.
Qed.

(** *** Snake case *)
Section snake.
Context `{!Unicode}.

Definition ascii_rune (r : Z) : Prop := 0 ≤ r < 128.

Lemma ascii_upper r : ascii_rune r → IsUpper r = in_range 65 90 r.
Proof. intros [? ?]. unfold IsUpper. by rewrite (proj2 (Z.ltb_lt r 128)). Qed.

Lemma ascii_lower r : ascii_rune r → RuneToLower r = if IsUpper r then r + 32 else r.
Proof. intros [? ?]. unfold IsUpper, RuneToLower. by rewrite (proj2 (Z.ltb_lt r 128)). Qed.

Lemma in_range_spec lo hi r : in_range lo hi r = true ↔ lo ≤ r ≤ hi.
Proof. unfold in_range. by rewrite andb_true_iff, !Z.leb_le. Qed.

Definition no_capital (r : Z) : Prop := ascii_rune r ∧ IsUpper r = false.

Lemma lower_no_capital r : ascii_rune r → no_capital (RuneToLower r).
Proof.
  intros Hr. rewrite ascii_lower by done. destruct (IsUpper r) eqn:Hu; [|by split].
  rewrite ascii_upper in Hu by done. apply in_range_spec in Hu.
  assert (ascii_rune (r + 32)) by (unfold ascii_rune in *; lia). split; [done|].
  rewrite ascii_upper by done. apply not_true_iff_false. rewrite in_range_spec. lia.
Qed.

Lemma snakeLoop_no_capital prev l : Forall ascii_rune l → Forall no_capital (snakeLoop prev l).
Proof.
  intros Hl. revert prev. induction Hl as [|r l Hr Hl IH]; intros prev; simpl; [constructor|].
  destruct (IsUpper r) eqn:Hu; [|constructor; [by split|apply IH]].
  apply Forall_app. split; [|constructor; [by apply lower_no_capital|apply IH]].
  destruct prev; [|constructor]. destruct (_ || _); constructor; [|constructor].
  split; [unfold ascii_rune; lia|done].
Qed.

Lemma snakeLoop_id prev l : Forall no_capital l → snakeLoop prev l = l.
Proof.
  intros Hl. revert prev. induction Hl as [|r l [_ Hr] Hl IH]; intros prev; simpl; [done|].
  by rewrite Hr, IH.
Qed.

Definition underscore : Z := 95.

Lemma snakeLoop_letters prev l :
  Forall ascii_rune l →
  filter (λ r, r ≠ underscore) (snakeLoop prev l) = RuneToLower <$> filter (λ r, r ≠ underscore) l.
Proof.
  intros Hl. revert prev. induction Hl as [|r l Hr Hl IH]; intros prev; [done|]. simpl snakeLoop.
  assert (Hlow : RuneToLower r ≠ underscore ∧ r ≠ underscore ∨ IsUpper r = false).
  { destruct (IsUpper r) eqn:Hu; [left|by right]. rewrite ascii_lower, Hu by done.
    rewrite ascii_upper in Hu by done. apply in_range_spec in Hu. unfold underscore. lia. }
  rewrite (filter_cons _ r). destruct (IsUpper r) eqn:Hu.
  - destruct Hlow as [[Hlow Hne]|?]; [|done]. rewrite filter_app, filter_cons, decide_True by done.
    rewrite (decide_True _ _ Hne), fmap_cons, IH. replace (filter _ _) with ([] : list Z); [done|].
    destruct prev; [|done]. by destruct (_ || _).
  - rewrite filter_cons. destruct (decide (r ≠ underscore)) as [Hne|]; [|apply IH].
    rewrite fmap_cons, IH. f_equal. by rewrite ascii_lower, Hu.
Qed.

Lemma runes_of_ascii fuel bs : (length bs ≤ fuel)%nat → Forall ascii_rune bs → runes_of fuel bs = bs.
Proof.
  intros Hf Hbs. revert fuel Hf. induction Hbs as [|b bs [Hb1 Hb2] Hbs IH]; intros [|fuel] Hf; simpl in *;
    try done; [lia|]. rewrite (proj2 (Z.ltb_lt b 128)) by done. simpl. f_equal. apply IH. lia.
Qed.

Lemma encode_rune_ascii r : ascii_rune r → encode_rune r = [r].
Proof.
  intros [Hr1 Hr2]. unfold encode_rune. assert (E : in_range 0 1114111 r = true) by (apply in_range_spec; lia).
  assert (E2 : in_range 55296 57343 r = false) by (apply not_true_iff_false; rewrite in_range_spec; lia).
  rewrite E, E2. simpl. by rewrite (proj2 (Z.ltb_lt r 128)).
Qed.

Lemma encode_ascii l : Forall ascii_rune l → concat (encode_rune <$> l) = l.
Proof.
  induction 1 as [|r l Hr Hl IH]; [done|]. rewrite fmap_cons. simpl. rewrite IH. by rewrite encode_rune_ascii.
Qed.

Definition ascii_string (s : string) : Prop := Forall ascii_rune (codes s).

Lemma codes_toSnakeCase s : ascii_string s → codes (toSnakeCase s) = snakeRunes (codes s).
Proof.
  intros Hs. unfold toSnakeCase, snakeRunes. rewrite runes_of_ascii by done.
  pose proof (snakeLoop_no_capital None (codes s) Hs) as Hn.
  assert (Ha : Forall ascii_rune (snakeLoop None (codes s))) by (eapply Forall_impl; [exact Hn|by intros ? [? _]]).
  rewrite encode_ascii by done. apply codes_of_codes. eapply Forall_impl; [exact Ha|]. unfold ascii_rune, is_byte. lia.
Qed.
End snake.

(** *** Classification *)
Section classify.
Context `{!Unicode} `{!ClassifySDK}.

(** A decoded entry was read from the stream. *)
Definition reads_bytes : Prop := ∀ bs e n, Unmarshal_spec bs = SOk (e, n) → (0 < n)%nat.

Lemma specLoop_ends fuel spec events functions :
  reads_bytes → (length spec ≤ fuel)%nat → is_Some (specLoop fuel spec events functions).
Proof.
  intros Hread. revert spec events functions. induction fuel as [|fuel IH]; intros [|b spec] events functions Hf;
    [done|simpl in Hf; lia|done|]. simpl in Hf. cbn [specLoop].
  destruct (Unmarshal_spec (b :: spec)) as [[e n]| |] eqn:Hu; [|done..].
  destruct (sp_EventV0 e), (sp_FunctionV0 e); try done. apply IH. rewrite length_drop. simpl.
  specialize (Hread _ _ _ Hu). lia.
Qed.

(** A stream of entries, each with the names its two getters give. *)
Inductive spec_stream : list byte → list (option string * option string) → Prop :=
  | stream_end : spec_stream [] []
  | stream_entry spec entry n event fn entries :
      spec ≠ [] → Unmarshal_spec spec = SOk (entry, n) →
      sp_EventV0 entry = SOk event → sp_FunctionV0 entry = SOk fn →
      spec_stream (drop n spec) entries → spec_stream spec ((event, fn) :: entries).

(** The SDK gave up on a stream, past some entries. *)
Inductive stream_panics : list byte → Prop :=
  | panic_entry spec : spec ≠ [] → Unmarshal_spec spec = SPanic → stream_panics spec
  | panic_getter spec entry n :
      spec ≠ [] → Unmarshal_spec spec = SOk (entry, n) →
      (∀ event fn, ¬ (sp_EventV0 entry = SOk event ∧ sp_FunctionV0 entry = SOk fn)) → stream_panics spec
  | panic_later spec entry n : spec ≠ [] → Unmarshal_spec spec = SOk (entry, n) →
      stream_panics (drop n spec) → stream_panics spec.

(** The declared names of a stream, in its order and in snake case. *)
Definition event_names (entries : list (option string * option string)) : list string :=
  toSnakeCase <$> omap fst entries.
Definition function_names (entries : list (option string * option string)) : list string :=
  toSnakeCase <$> omap snd entries.

(** A code entry has a readable spec, with these entries; or the SDK panics on it. *)
Definition declares (entryB64 : string) (entries : list (option string * option string)) : Prop :=
  ∃ data code spec, UnmarshalEntry entryB64 = SOk data ∧ Entry_ContractCode data = SOk (Some code) ∧
    contractSpecSection (length code) code = Some (Some spec) ∧ spec_stream spec entries.
Definition panics (entryB64 : string) : Prop :=
  UnmarshalEntry entryB64 = SPanic ∨
  ∃ data, UnmarshalEntry entryB64 = SOk data ∧
    (Entry_ContractCode data = SPanic ∨
     ∃ code spec, Entry_ContractCode data = SOk (Some code) ∧
       contractSpecSection (length code) code = Some (Some spec) ∧ stream_panics spec).

(** What the code entry of a wasm contract makes of it: its declared events, else
    its functions, else nothing. *)
Inductive code_verdict (hash entryB64 : string) : classified → Prop :=
  | by_events entries : declares entryB64 entries → event_names entries ≠ [] →
      code_verdict hash entryB64
        (Classified (mkClassification "wasm" hash (event_names entries) "spec_events"))
  | by_functions entries : declares entryB64 entries → event_names entries = [] → function_names entries ≠ [] →
      code_verdict hash entryB64
        (Classified (mkClassification "wasm" hash (function_names entries) "function_names"))
  | nameless : ¬ panics entryB64 →
      (∀ entries, declares entryB64 entries → event_names entries = [] ∧ function_names entries = []) →
      code_verdict hash entryB64 (Classified (mkClassification "wasm" hash [] "opaque"))
  | panicked : panics entryB64 → code_verdict hash entryB64 Unclassified.

(** One computation has one result. *)
Ltac same_result := repeat match goal with
  | H : ?x = SOk _, H' : ?x = _ |- _ => rewrite H in H'; simplify_eq
  end; try congruence.

Lemma spec_stream_inj spec entries : spec_stream spec entries →
  ∀ entries', spec_stream spec entries' → entries' = entries.
Proof.
  induction 1 as [|spec entry n event fn entries Hne Hu He Hf _ IH]; intros entries'; inversion 1; same_result; [done..|].
  f_equal. by apply IH.
Qed.

Lemma stream_panics_not spec : stream_panics spec → ∀ entries, ¬ spec_stream spec entries.
Proof.
  induction 1 as [spec Hne Hu|spec e n Hne Hu Hno|spec e n Hne Hu _ IH]; intros entries; inversion 1; same_result; try done.
  - by eapply Hno.
  - by eapply IH.
Qed.

(** The loop reads a stream to its end, in order. *)
Lemma specLoop_stream fuel spec events functions :
  reads_bytes → (length spec ≤ fuel)%nat →
  match specLoop fuel spec events functions with
  | Some (SOk names) => ∃ entries, spec_stream spec entries ∧
      names = (events ++ event_names entries, functions ++ function_names entries)
  | Some SErr => (∀ entries, ¬ spec_stream spec entries) ∧ ¬ stream_panics spec
  | Some SPanic => stream_panics spec
  | None => False
  end.
Proof.
  intros Hread. revert spec events functions. induction fuel as [|fuel IH]; intros [|b spec] events functions Hf.
  1, 3: exists []; (split; [constructor|]); by rewrite !app_nil_r.
  { simpl in Hf. lia. }
  cbn [specLoop]. destruct (Unmarshal_spec (b :: spec)) as [[e n]| |] eqn:Hu.
  2: { split; [intros entries; inversion 1; congruence|inversion 1; congruence]. }
  2: by apply panic_entry.
  assert (Hpanic : (∀ event fn, ¬ (sp_EventV0 e = SOk event ∧ sp_FunctionV0 e = SOk fn)) → stream_panics (b :: spec))
    by (intros; by eapply panic_getter).
  destruct (sp_EventV0 e) as [ev| |] eqn:He; [|apply Hpanic; by intros ? ? [? ?]..].
  destruct (sp_FunctionV0 e) as [fn| |] eqn:Hfn; [|apply Hpanic; by intros ? ? [? ?]..].
  specialize (Hread _ _ _ Hu). specialize (IH (drop n (b :: spec)) (push_name ev events) (push_name fn functions)).
  rewrite length_drop in IH. simpl length in IH, Hf. specialize (IH ltac:(lia)).
  destruct (specLoop fuel _ _ _) as [[names| |]|]; [| | |done].
  - destruct IH as (entries & Hs & ->). exists ((ev, fn) :: entries). split; [by eapply stream_entry|].
    unfold event_names, function_names, push_name. simpl.
    destruct ev as [ev|], fn as [fn|]; simpl; by rewrite <- ?app_assoc.
  - destruct IH as [Hno Hnp]. split.
    + intros entries. inversion 1; same_result. by eapply Hno.
    + inversion 1; same_result.
      match goal with H : ∀ event fn, ¬ _ |- _ => by apply (H ev fn) end.
  - by eapply panic_later.
Qed.

Lemma contractSpecSection_ends code : is_Some (contractSpecSection (length code) code).
Proof.
  unfold contractSpecSection. destruct (_ || _); [by eexists|].
  destruct (sectionLoop_safe (length code) (drop 8 code)) as (r & -> & _); [rewrite length_drop; lia|by eexists].
Qed.

(** Unreadable code is opaque, never an error. *)
Lemma mineCode_verdict hash entryB64 :
  reads_bytes → ∃ r, mineCode hash entryB64 = Some r ∧ code_verdict hash entryB64 (recovered r).
Proof.
  intros Hread.
  assert (Hop : ¬ panics entryB64 → (∀ entries, ¬ declares entryB64 entries) →
    ∃ r, Some (SOk (opaque hash)) = Some r ∧ code_verdict hash entryB64 (recovered r)).
  { intros Hp Hno. eexists. split; [done|]. apply nameless; [done|]. by intros entries ?%Hno. }
  assert (Hpanic : panics entryB64 → ∃ r, Some SPanic = Some r ∧ code_verdict hash entryB64 (recovered r)).
  { intros Hp. eexists. split; [done|]. by apply panicked. }
  unfold mineCode. destruct (UnmarshalEntry entryB64) as [data| |] eqn:Hd.
  2: { apply Hop; [by intros [?|(? & ? & _)]; congruence|by intros ? (? & ? & ? & ? & _); congruence]. }
  2: { apply Hpanic. by left. }
  destruct (Entry_ContractCode data) as [[code|]| |] eqn:Hc.
  2, 3: apply Hop; [intros [?|(? & E & [?|(? & ? & ? & _)])]; same_result
    |intros ? (? & ? & ? & E & ? & _); same_result].
  2: { apply Hpanic. right. exists data. split; [done|by left]. }
  destruct (contractSpecSection_ends code) as [section Hs]. rewrite Hs.
  destruct section as [spec|].
  2: { apply Hop; [intros [?|(? & E & [?|(? & ? & ? & ? & _)])]; same_result
    |intros ? (? & ? & ? & E & ? & ? & _); same_result]. }
  pose proof (specLoop_stream (length spec) spec [] [] Hread ltac:(lia)) as Hloop. unfold specNames.
  assert (Hdecl : ∀ entries, declares entryB64 entries → spec_stream spec entries).
  { intros entries (? & ? & ? & E & E1 & E2 & Hst). same_result. }
  assert (Hpan : panics entryB64 → stream_panics spec).
  { intros [?|(? & E & [?|(? & ? & E1 & E2 & Hst)])]; [congruence|same_result|].
    same_result. }
  destruct (specLoop _ _ _ _) as [[names| |]|]; [| | |done].
  - destruct Hloop as (entries & Hst & ->). simpl app. eexists. split; [done|].
    assert (Hent : declares entryB64 entries) by by exists data, code, spec. unfold named. cbn [recovered].
    destruct (event_names entries) as [|ev evs] eqn:He.
    + destruct (function_names entries) as [|fn fns] eqn:Hf.
      * apply nameless; [intros Hp%Hpan; by eapply stream_panics_not|]. intros entries' Hst'%Hdecl.
        by rewrite (spec_stream_inj _ _ Hst _ Hst').
      * rewrite <- Hf. by apply by_functions; [| |by rewrite Hf].
    + rewrite <- He. by apply by_events; [|by rewrite He].
  - destruct Hloop as [Hno Hnp]. apply Hop; [by intros ?%Hpan|]. by intros entries ?%Hdecl%Hno.
  - apply Hpanic. right. exists data. split; [done|]. right. by exists code, spec.
Qed.

Context `{S : SDK} `{!RpcJson} (urls : list string) (bodyCap : Z).
Context (http : nat → string → request → http_reply) (ctxErr : nat → bool).

(** The pool said of a key that it has these entries. *)
Definition said_entries (key : string) (entries : list string) : Prop :=
  ∃ idx, replied urls bodyCap http into_entries (getLedgerEntries key) idx CallOk entries.

(** A read of the key failed. *)
Definition failed_read (key : string) : Prop :=
  ∃ o c e o' c', GetLedgerEntry urls bodyCap http ctxErr key o c = Some (Err e, o', c').

(** What the executable of a wasm contract makes of it. *)
Inductive wasm_verdict (ex : Executable) : classified → Prop :=
  | no_hash : (∀ hash, ex_WasmHash ex ≠ SOk (Some hash)) → wasm_verdict ex Unclassified
  | no_code_key hash : ex_WasmHash ex = SOk (Some hash) →
      (∀ key, MarshalBase64_key (CodeKey hash) ≠ SOk key) → wasm_verdict ex Unclassified
  | code_unread hash key : ex_WasmHash ex = SOk (Some hash) → MarshalBase64_key (CodeKey hash) = SOk key →
      failed_read key → wasm_verdict ex Unclassified
  | no_code hash key : ex_WasmHash ex = SOk (Some hash) → MarshalBase64_key (CodeKey hash) = SOk key →
      said_entries key [] → wasm_verdict ex (Classified (mkClassification "wasm" hash [] "opaque"))
  | code_read hash key entry rest out :
      ex_WasmHash ex = SOk (Some hash) → MarshalBase64_key (CodeKey hash) = SOk key →
      said_entries key (entry :: rest) → code_verdict hash entry out → wasm_verdict ex out.

(** What the instance of a contract makes of it. *)
Inductive verdict (contractID : string) : classified → Prop :=
  | no_instance_key : (∀ raw key, strkey_DecodeContract contractID = Some raw →
      MarshalBase64_key (InstanceKey (copy32 raw)) ≠ SOk key) → verdict contractID Unclassified
  | instance_unread raw key : strkey_DecodeContract contractID = Some raw →
      MarshalBase64_key (InstanceKey (copy32 raw)) = SOk key → failed_read key → verdict contractID Unclassified
  | no_instance raw key : strkey_DecodeContract contractID = Some raw →
      MarshalBase64_key (InstanceKey (copy32 raw)) = SOk key → said_entries key [] → verdict contractID NotOnChain
  | no_executable raw key entry rest : strkey_DecodeContract contractID = Some raw →
      MarshalBase64_key (InstanceKey (copy32 raw)) = SOk key → said_entries key (entry :: rest) →
      (∀ ex, executable entry ≠ SOk ex) → verdict contractID Unclassified
  | instance_read raw key entry rest ex out : strkey_DecodeContract contractID = Some raw →
      MarshalBase64_key (InstanceKey (copy32 raw)) = SOk key → said_entries key (entry :: rest) →
      executable entry = SOk ex →
      match ex_Type ex with
      | ExecutableStellarAsset => out = Classified (mkClassification "sac" ""
          ["approve"; "burn"; "clawback"; "mint"; "set_admin"; "set_authorized"; "transfer"] "sac_builtin")
      | ExecutableOther => out = Classified (mkClassification "external" "" [] "opaque")
      | ExecutableWasm => wasm_verdict ex out
      end →
      verdict contractID out.

Lemma GetLedgerEntry_runs key c :
  (0 < length urls)%nat →
  runs (GetLedgerEntry urls bodyCap http ctxErr key) c (λ out _,
    match out with Ok v => ∃ entries, said_entries key entries ∧ v = head entries | Err _ => failed_read key end).
Proof.
  intros Hlen o. assert (Hr : runs (GetLedgerEntry urls bodyCap http ctxErr key) c (λ out _,
    match out with Ok v => ∃ entries, said_entries key entries ∧ v = head entries | Err _ => True end)).
  { eapply runs_bind; [by apply call_runs|]. intros [r entries] c1 Hpost. apply runs_ret.
    destruct r; try done. destruct Hpost as (idx & _ & Hr & _). exists entries. split; [by exists idx|done]. }
  destruct (Hr o) as (out & n & c' & Hrun & Hout). exists out, n, c'. split; [done|].
  destruct out as [v|e]; [done|]. by exists o, c, e, (mkOutside n (o_db o)), c'.
Qed.

Lemma classifyWasm_runs hash ex c :
  (0 < length urls)%nat → reads_bytes → ex_WasmHash ex = SOk (Some hash) →
  runs (classifyWasm urls bodyCap http ctxErr hash) c (λ out _, wasm_verdict ex out).
Proof.
  intros Hlen Hread Hex. unfold classifyWasm, codeLedgerKeyB64.
  destruct (MarshalBase64_key _) as [key| |] eqn:Hkey;
    [|by apply runs_ret; eapply no_code_key; [|by rewrite Hkey]..].
  eapply runs_bind; [by apply GetLedgerEntry_runs|]. intros [[entry|]|e] c1 Hsaid.
  - destruct Hsaid as ([|? rest] & Hs & Hh); [done|]. injection Hh as <-.
    destruct (mineCode_verdict hash entry Hread) as (r & -> & Hv). apply runs_ret. by eapply code_read.
  - destruct Hsaid as ([|? rest] & Hs & Hh); [|done]. apply runs_ret. by eapply no_code.
  - apply runs_ret. by eapply code_unread.
Qed.

Lemma Classify_runs contractID c :
  (0 < length urls)%nat → reads_bytes →
  runs (Classify urls bodyCap http ctxErr contractID) c (λ out _, verdict contractID out).
Proof.
  intros Hlen Hread. unfold Classify, instanceLedgerKeyB64.
  destruct (strkey_DecodeContract contractID) as [raw|] eqn:Hraw; [|by apply runs_ret, no_instance_key; intros ? ? ?; congruence].
  destruct (MarshalBase64_key (InstanceKey (copy32 raw))) as [key| |] eqn:Hkey.
  2, 3: apply runs_ret, no_instance_key; intros raw' key' E; rewrite Hraw in E; simplify_eq; by rewrite Hkey.
  eapply runs_bind; [by apply GetLedgerEntry_runs|]. intros [[entry|]|e] c1 Hsaid.
  - destruct Hsaid as ([|? rest] & Hs & Hh); [done|]. injection Hh as <-.
    destruct (executable entry) as [ex| |] eqn:Hex;
      [|by apply runs_ret; eapply no_executable; [done..|by rewrite Hex]|by apply runs_ret; eapply no_executable; [done..|by rewrite Hex]].
    assert (Hread' : ∀ out, match ex_Type ex with
      | ExecutableStellarAsset => out = Classified (mkClassification "sac" ""
          ["approve"; "burn"; "clawback"; "mint"; "set_admin"; "set_authorized"; "transfer"] "sac_builtin")
      | ExecutableOther => out = Classified (mkClassification "external" "" [] "opaque")
      | ExecutableWasm => wasm_verdict ex out
      end → verdict contractID out) by (intros out Ho; by eapply instance_read).
    destruct (ex_Type ex).
    + destruct (ex_WasmHash ex) as [[hash|]| |] eqn:Hhash;
        [|by apply runs_ret, Hread', no_hash; rewrite Hhash..].
      eapply runs_conseq; [by eapply classifyWasm_runs|]. intros out c2 Hv. by apply Hread'.
    + apply runs_ret. by apply Hread'.
    + apply runs_ret. by apply Hread'.
  - destruct Hsaid as ([|? rest] & Hs & Hh); [|done]. apply runs_ret. by eapply no_instance.
  - apply runs_ret. by eapply instance_unread.
Qed.

(** Missing is what the pool said of the instance, nothing else. *)
Lemma verdict_missing contractID : verdict contractID NotOnChain →
  ∃ raw key, strkey_DecodeContract contractID = Some raw ∧
    MarshalBase64_key (InstanceKey (copy32 raw)) = SOk key ∧ said_entries key [].
Proof.
  inversion 1 as [| |raw key| |raw key entry rest ex out Hraw Hkey Hsaid Hex Hout]; [by exists raw, key|].
  destruct (ex_Type ex); [|done..]. inversion Hout as [| | | |hash k e r o Hh Hk Hs Hcode]. inversion Hcode.
Qed.
End classify.

(** ** Properties *)

(** C23.  The spec of a well-formed module is found.  In a module with the wasm
    magic, any version and any sections, encoded with their sizes in front, the
    walk returns the body of the first custom section named contractspecv0, or
    nothing when there is none. *)
Theorem contractSpecSection_parses (version : list byte) (secs : list section) :
  length version = 4%nat → Forall section_wf secs →
  let wasm := wasmMagic ++ version ++ concat (encode_section <$> secs) in
  contractSpecSection (length wasm) wasm = Some (first_spec secs).
Proof.
  intros Hv Hwf wasm. unfold contractSpecSection.
  assert (Hlen : length wasm = (8 + length (concat (encode_section <$> secs)))%nat)
    by (unfold wasm; rewrite !length_app, Hv; simpl; lia).
  assert (Hmagic : take 4 wasm = wasmMagic) by reflexivity.
  assert (Hdrop : drop 8 wasm = concat (encode_section <$> secs)).
  { unfold wasm. rewrite app_assoc. replace 8%nat with (length (wasmMagic ++ version)) by (rewrite length_app, Hv; done).
    apply drop_app_length. }
  destruct (Nat.ltb_spec (length wasm) 8); [lia|]. rewrite Hmagic, Hdrop. unfold bytes_eqb.
  rewrite bool_decide_eq_true_2 by done. simpl orb. cbv iota. apply sectionLoop_parses; [done|].
  rewrite Hlen. clear. induction secs as [|s secs IH]; [simpl; lia|].
  rewrite fmap_cons. simpl. rewrite length_app. destruct s; simpl; lia.
Qed.

(** The walk is safe on any bytes: it ends within as many steps as there
    are bytes, and the spec it returns is a stretch of them that directly
    follows the section's name, past the eight bytes of the preamble. *)
Theorem contractSpecSection_safe (wasm : list byte) :
  ∃ r, contractSpecSection (length wasm) wasm = Some r ∧
    ∀ spec, r = Some spec → take 4 wasm = wasmMagic ∧
      ∃ pre post, wasm = pre ++ contractspecv0 ++ spec ++ post ∧ (8 ≤ length pre)%nat.
Proof.
  unfold contractSpecSection. destruct (Nat.ltb_spec (length wasm) 8) as [|Hlen]; simpl; [by eexists|].
  unfold bytes_eqb. case_bool_decide as Hmagic; simpl; [|by eexists].
  destruct (sectionLoop_safe (length wasm) (drop 8 wasm)) as (r & Hr & Hspec); [rewrite length_drop; lia|].
  exists r. split; [done|]. intros spec Hs. split; [done|]. destruct (Hspec spec Hs) as (pre & post & Heq).
  exists (take 8 wasm ++ pre), post. split; [|rewrite length_app, length_take; lia].
  rewrite <- (take_drop 8 wasm) at 1. by rewrite Heq, <- !app_assoc.
Qed.

(** C24.  Classification says what the chain says, and degrades instead of
    failing.  On any pool and any chain data, panics of the SDK included, it
    returns.  A contract is reported missing when the pool answered that its
    instance entry does not exist.  An instance that is a Stellar asset has the
    protocol's seven events; a reference to another contract has none; a wasm
    contract with its hash has the events its spec declares, in order and in snake
    case; when the spec declares none, its function names instead; and when the
    code is gone, does not decode, has no spec section or one that does not decode,
    or declares nothing, no name at all, opaque.  Each of these carries its own
    method.  What is left unclassified has a cause: a key that cannot be built, a
    read that failed, an instance without a readable executable or hash, or a panic
    of the SDK on the code. *)
Theorem Classify_sound `{!Unicode} `{!ClassifySDK} `{S : SDK} `{!RpcJson} (urls : list string) (bodyCap : Z)
    (http : nat → string → request → http_reply) (ctxErr : nat → bool) (contractID : string)
    (o : outside) (c : client) :
  in_pool urls c → reads_bytes →
  ∃ out n c', Classify urls bodyCap http ctxErr contractID o c = Some (out, mkOutside n (o_db o), c') ∧
    verdict urls bodyCap http ctxErr contractID out.
Proof.
  intros Hp Hread. apply Classify_runs; [|done]. unfold in_pool in Hp. lia.
Qed.

(** Snake case: of an ASCII name nothing but the case and the underscores
    changes, no capital is left, and a name already in snake case is kept. *)
Theorem toSnakeCase_correct `{!Unicode} (s : string) :
  ascii_string s →
  Forall no_capital (codes (toSnakeCase s)) ∧ toSnakeCase (toSnakeCase s) = toSnakeCase s ∧
  filter (λ r, r ≠ underscore) (codes (toSnakeCase s)) =
    RuneToLower <$> filter (λ r, r ≠ underscore) (codes s).
Proof.
  intros Hs. pose proof (codes_toSnakeCase s Hs) as Hc.
  pose proof (snakeLoop_no_capital None (codes s) Hs) as Hn. unfold snakeRunes in Hc.
  split; [by rewrite Hc|]. split; [|rewrite Hc; by apply snakeLoop_letters].
  assert (Ha : ascii_string (toSnakeCase s)).
  { unfold ascii_string. rewrite Hc. eapply Forall_impl; [exact Hn|]. by intros ? [? _]. }
  rewrite <- (of_codes_codes (toSnakeCase (toSnakeCase s))), codes_toSnakeCase by done.
  unfold snakeRunes. rewrite Hc, snakeLoop_id by done. by rewrite <- Hc, of_codes_codes.
Qed.

(** ** Witnesses and concrete runs *)

#[local] Existing Instance demo_sdk.
#[local] Existing Instance demo_json.

(** No code point outside ASCII has a case. *)
#[local] Instance ascii_only : Unicode := {|
  u_IsUpper _ := false; u_IsLower _ := false; u_IsDigit _ := false; u_ToLower r := r |}.

Example snake_names :
  (λ s, toSnakeCase s) <$> ["NFTMinted"; "transfer_from"; "SetX2Y"; "A"; "TokenURI"]
  = ["nft_minted"; "transfer_from"; "set_x2_y"; "a"; "token_uri"].
Proof. vm_compute. reflexivity. Qed.

Example uvarints :
  Uvarint [xe5; x8e; x26] = (624485, 3) ∧ Uvarint [x80; x80] = (0, 0) ∧
  Uvarint (replicate 10 xff ++ [x01]) = (0, -11) ∧ Uvarint (replicate 9 xff ++ [x02]) = (0, -10) ∧
  Uvarint (replicate 9 xff ++ [x01]) = (18446744073709551615, 10).
Proof. vm_compute. repeat split. Qed.

(** A module with a type section, a custom section and a spec of two bytes. *)
Definition demo_sections : list section :=
  [Plain x01 [x60; x00; x00]; Custom [x61] [x00]; Custom contractspecv0 [x2a; x2b]].
Definition demo_wasm : list byte := wasmMagic ++ [x01; x00; x00; x00] ++ concat (encode_section <$> demo_sections).

Lemma demo_sections_wf : Forall section_wf demo_sections.
Proof. repeat constructor; try discriminate; vm_compute; reflexivity. Qed.

Lemma contractSpecSection_parses_witness :
  contractSpecSection (length demo_wasm) demo_wasm = Some (Some [x2a; x2b]).
Proof.
  exact (contractSpecSection_parses [x01; x00; x00; x00] demo_sections eq_refl demo_sections_wf).
Defined.

(** A stream whose entries are one byte: a capital names an event, anything else
    a function. *)
#[local] Instance demo_classify : ClassifySDK := {|
  strkey_DecodeContract s := if String.eqb s "C" then Some [x01] else None;
  MarshalBase64_key k := match k with InstanceKey _ => SOk "instance" | CodeKey _ => SOk "code" end;
  EntryData := string;
  UnmarshalEntry s := SOk s;
  Entry_ContractData s := SOk (Some (SOk (Some (mkExecutable ExecutableWasm (SOk (Some "hash"))))));
  Entry_ContractCode s := SOk (Some demo_wasm);
  Unmarshal_spec bs := match bs with
                       | b :: _ => SOk (mkScSpecEntry (SOk (Some "NewEvent")) (SOk None), 1%nat)
                       | [] => SErr
                       end |}.

Example demo_classified :
  (λ r, match r.1.1 with Classified c => (cls_Type c, cls_Events c, cls_Method c) | _ => ("", [], "") end) <$>
    Classify ["b"] 100 demo_http demo_alive "C" (mkOutside 0 empty_db) demo_client
  = Some ("wasm", ["new_event"; "new_event"], "spec_events").
Proof. vm_compute. reflexivity. Qed.

Lemma Classify_sound_witness :
  ∃ out n c', Classify ["b"] 100 demo_http demo_alive "C" (mkOutside 0 empty_db) demo_client
    = Some (out, mkOutside n empty_db, c').
Proof.
  destruct (Classify_sound ["b"] 100 demo_http demo_alive "C" (mkOutside 0 empty_db) demo_client)
    as (out & n & c' & Hr & _).
  - unfold in_pool. simpl. lia.
  - intros bs e n. simpl. destruct bs; [discriminate|]. intros Heq. injection Heq as <- <-. lia.
  - exists out, n, c'. exact Hr.
Defined.

Lemma toSnakeCase_correct_witness : toSnakeCase (toSnakeCase "NFTMinted") = "nft_minted".
Proof.
  destruct (toSnakeCase_correct "NFTMinted") as (_ & Hid & _).
  - repeat constructor; vm_compute; discriminate.
  - rewrite Hid. reflexivity.
Defined.
