(* ===== verification/HttpAuth.v ===== *)
(** * Credentials ([internal/httpauth/httpauth.go])

    The gate in front of the whole surface, and what it and the admin API use of
    the standard library: SHA-256, constant-time comparison, the header's Basic
    and Bearer forms.  Bytes are their values in [0..255]. *)

From S2P Require Import Prelude.

(** ** Definitions *)

(** *** [crypto/sha256] *)

Definition rotr (n x : Z) : Z := Z.lor (Z.shiftr x n) (u32 (Z.shiftl x (32 - n))).

(** The integer cube root by its bits, from bit [n - 1] down. *)
Fixpoint cbrt_bits (n : nat) (root x : Z) : Z :=
  match n with
  | O => root
  | S n => let next := root + Z.shiftl 1 (Z.of_nat n) in
           cbrt_bits n (if next * next * next <=? x then next else root) x
  end.

Definition is_prime (p : Z) : bool :=
  forallb (λ q, negb (p mod q =? 0)) (seqZ 2 (p - 2)).

Definition primes : list Z := Eval vm_compute in List.filter is_prime (seqZ 2 310).

(** The round constants and the initial state: 32 bits of the fractional parts
    of the cube and square roots of the first primes. *)
Definition sha_K : list Z := Eval vm_compute in
  (λ p, u32 (cbrt_bits 36 0 (Z.shiftl p 96))) <$> primes.

Definition sha_H : list Z := Eval vm_compute in
  (λ p, u32 (Z.sqrt (Z.shiftl p 64))) <$> take 8 primes.

Record sha := mkSha {
  sh_a : Z; sh_b : Z; sh_c : Z; sh_d : Z; sh_e : Z; sh_f : Z; sh_g : Z; sh_h : Z }.

(** One round: a round constant and a word of the schedule. *)
Definition sha_round (s : sha) (kw : Z * Z) : sha :=
  let '(mkSha a b c d e f g h) := s in
  let s1 := Z.lxor (rotr 6 e) (Z.lxor (rotr 11 e) (rotr 25 e)) in
  let ch := Z.lxor (Z.land e f) (Z.land (max_u32 - e) g) in
  let t1 := u32 (h + s1 + ch + kw.1 + kw.2) in
  let s0 := Z.lxor (rotr 2 a) (Z.lxor (rotr 13 a) (rotr 22 a)) in
  let maj := Z.lxor (Z.land a b) (Z.lxor (Z.land a c) (Z.land b c)) in
  mkSha (u32 (t1 + s0 + maj)) a b c (u32 (d + t1)) e f g.

(** The schedule, newest word first: [n] words more than the block's sixteen. *)
Fixpoint sha_schedule (n : nat) (ws : list Z) : list Z :=
  match n with
  | O => ws
  | S n =>
      let w i := nth i ws 0 in
      let s0 := Z.lxor (rotr 7 (w 14%nat)) (Z.lxor (rotr 18 (w 14%nat)) (Z.shiftr (w 14%nat) 3)) in
      let s1 := Z.lxor (rotr 17 (w 1%nat)) (Z.lxor (rotr 19 (w 1%nat)) (Z.shiftr (w 1%nat) 10)) in
      sha_schedule n (u32 (w 15%nat + s0 + w 6%nat + s1) :: ws)
  end.

Definition sha_block (s : sha) (words : list Z) : sha :=
  let r := foldl sha_round s (combine sha_K (rev (sha_schedule 48 (rev words)))) in
  mkSha (u32 (sh_a s + sh_a r)) (u32 (sh_b s + sh_b r)) (u32 (sh_c s + sh_c r))
        (u32 (sh_d s + sh_d r)) (u32 (sh_e s + sh_e r)) (u32 (sh_f s + sh_f r))
        (u32 (sh_g s + sh_g r)) (u32 (sh_h s + sh_h r)).

Definition be_bytes (n : nat) (x : Z) : list Z :=
  (λ i, Z.shiftr x (8 * Z.of_nat i) mod 256) <$> rev (seq 0 n).

Fixpoint be_words (bs : list Z) : list Z :=
  match bs with
  | a :: b :: c :: d :: bs => Z.shiftl a 24 + Z.shiftl b 16 + Z.shiftl c 8 + d :: be_words bs
  | _ => []
  end.

Definition sha_pad (msg : list Z) : list Z :=
  let n := Z.of_nat (length msg) in
  msg ++ 128 :: replicate (Z.to_nat ((55 - n) mod 64)) 0 ++ be_bytes 8 (8 * n).

Fixpoint sha_blocks (n : nat) (s : sha) (words : list Z) : sha :=
  match n with
  | O => s
  | S n => sha_blocks n (sha_block s (take 16 words)) (drop 16 words)
  end.

Definition sha_init : sha :=
  let h i := nth i sha_H 0 in mkSha (h 0%nat) (h 1%nat) (h 2%nat) (h 3%nat) (h 4%nat) (h 5%nat) (h 6%nat) (h 7%nat).

Definition digest_of (s : sha) : list Z :=
  concat (be_bytes 4 <$> [sh_a s; sh_b s; sh_c s; sh_d s; sh_e s; sh_f s; sh_g s; sh_h s]).

(** [sha256.Sum256] *)
Definition Sum256 (msg : list Z) : list Z :=
  let words := be_words (sha_pad msg) in
  digest_of (sha_blocks (length words / 16) sha_init words).

(** *** [crypto/subtle] *)

Definition ConstantTimeByteEq (x y : Z) : Z := Z.shiftr (u32 (Z.lxor x y - 1)) 31.

(** The loop [for i := range x { v |= x[i] ^ y[i] }]. *)
Definition xor_fold (x y : list Z) : Z :=
  foldl (λ v p, Z.lor v (Z.lxor p.1 p.2)) 0 (combine x y).

Definition ConstantTimeCompare (x y : list Z) : Z :=
  if Nat.eqb (length x) (length y) then ConstantTimeByteEq (xor_fold x y) 0 else 0.

(** *** [strings] *)

(** [strings.CutPrefix] *)
Definition CutPrefix (s prefix : string) : option string :=
  if String.prefix prefix s
  then Some (of_codes (drop (String.length prefix) (codes s))) else None.

(** [strings.Cut] at a byte. *)
Fixpoint cut_at (sep : Z) (bs : list Z) : option (list Z * list Z) :=
  match bs with
  | [] => None
  | b :: bs => if b =? sep then Some ([], bs)
               else match cut_at sep bs with Some (l, r) => Some (b :: l, r) | None => None end
  end.

(** *** [encoding/base64] *)

(** [StdEncoding]'s value of a character. *)
Definition b64_value (c : Z) : option Z :=
  if (65 <=? c) && (c <=? 90) then Some (c - 65)
  else if (97 <=? c) && (c <=? 122) then Some (c - 71)
  else if (48 <=? c) && (c <=? 57) then Some (c + 4)
  else if c =? 43 then Some 62
  else if c =? 47 then Some 63
  else None.

(** Quanta of four characters; the last may be padded with [=]. *)
Fixpoint b64_quanta (cs : list Z) : option (list Z) :=
  match cs with
  | [] => Some []
  | c0 :: c1 :: c2 :: c3 :: rest =>
      match b64_value c0, b64_value c1, b64_value c2, b64_value c3 with
      | Some v0, Some v1, Some v2, Some v3 =>
          match b64_quanta rest with
          | Some bs => Some ((v0 * 4 + v1 / 16) :: (v1 mod 16 * 16 + v2 / 4) :: (v2 mod 4 * 64 + v3) :: bs)
          | None => None
          end
      | Some v0, Some v1, Some v2, None =>
          if (c3 =? 61) && bool_decide (rest = [])
          then Some [v0 * 4 + v1 / 16; v1 mod 16 * 16 + v2 / 4] else None
      | Some v0, Some v1, None, _ =>
          if (c2 =? 61) && (c3 =? 61) && bool_decide (rest = [])
          then Some [v0 * 4 + v1 / 16] else None
      | _, _, _, _ => None
      end
  | _ => None
  end.

(** [DecodeString]: carriage returns and line feeds are skipped. *)
Definition b64_decode (cs : list Z) : option (list Z) :=
  b64_quanta (List.filter (λ c, negb ((c =? 10) || (c =? 13))) cs).

(** *** [net/http] *)

(** [ascii.EqualFold] of a header's first bytes with a lower-case prefix. *)
Definition lower_byte (c : Z) : Z := if (65 <=? c) && (c <=? 90) then c + 32 else c.

Definition basic_prefix : list Z := codes "basic ".

(** [Request.BasicAuth] of the value of the Authorization header. *)
Definition BasicAuth (auth : string) : option (string * string) :=
  let bs := codes auth in
  if bool_decide (lower_byte <$> take 6 bs = basic_prefix) then
    match b64_decode (drop 6 bs) with
    | None => None
    | Some c => match cut_at 58 c with
                | Some (user, pass) => Some (of_codes user, of_codes pass)
                | None => None
                end
    end
  else None.

(** *** The gate *)

Definition probePaths : list string := ["/health"; "/ready"].

(** [subtle.ConstantTimeCompare] of the digests of two strings. *)
Definition digestCompare (got want : string) : Z :=
  ConstantTimeCompare (Sum256 (codes got)) (Sum256 (codes want)).

(** [Wrap]: whether the request reaches the next handler; 401 otherwise.  [auth]
    is the first Authorization header, empty when there is none. *)
Definition Wrap (user password adminToken : string) (path auth : string) : bool :=
  if bool_decide (path ∈ probePaths) then true
  else
    let basic :=
      match BasicAuth auth with
      | Some (gotUser, gotPass) =>
          Z.land (digestCompare gotUser user) (digestCompare gotPass password) =? 1
      | None => false
      end in
    if basic then true
    else match CutPrefix auth "Bearer " with
         | Some bearer =>
             if bool_decide (adminToken ≠ "") then digestCompare bearer adminToken =? 1 else false
         | None => false
         end.

(** ** Specification *)

(** Two strings whose bytes have the same SHA-256 digest, and are different. *)
Definition collision (x y : string) : Prop := x ≠ y ∧ Sum256 (codes x) = Sum256 (codes y).

(** What a comparison of secrets accepts. *)
Definition same_secret (got want : string) : Prop := got = want ∨ collision got want.

(** The client's side: base64, and the Authorization header of a user and a
    password. *)
Definition b64_char (v : Z) : Z :=
  if v <? 26 then v + 65 else if v <? 52 then v + 71 else if v <? 62 then v - 4
  else if v =? 62 then 43 else 47.

Fixpoint b64_encode (bs : list Z) : list Z :=
  match bs with
  | a :: b :: c :: bs =>
      b64_char (a / 4) :: b64_char (a mod 4 * 16 + b / 16) :: b64_char (b mod 16 * 4 + c / 64)
        :: b64_char (c mod 64) :: b64_encode bs
  | [a; b] => [b64_char (a / 4); b64_char (a mod 4 * 16 + b / 16); b64_char (b mod 16 * 4); 61]
  | [a] => [b64_char (a / 4); b64_char (a mod 4 * 16); 61; 61]
  | [] => []
  end.

Definition basic_header (user pass : string) : string :=
  "Basic " +:+ of_codes (b64_encode (codes user ++ 58 :: codes pass)).

(** ** Lemmas *)

(** *** Digests and their comparison *)

Lemma be_bytes_bytes n x : Forall is_byte (be_bytes n x).
Proof.
  apply Forall_fmap, Forall_forall. intros i _. unfold is_byte. simpl. apply Z.mod_pos_bound. lia.
Qed.

Lemma Sum256_bytes msg : Forall is_byte (Sum256 msg) ∧ length (Sum256 msg) = 32%nat.
Proof.
  unfold Sum256, digest_of. split; [|done]. apply Forall_concat, Forall_fmap, Forall_forall.
  intros x _. apply be_bytes_bytes.
Qed.

Lemma lxor_byte a b : is_byte a → is_byte b → is_byte (Z.lxor a b).
Proof.
  unfold is_byte. intros Ha Hb. split; [apply Z.lxor_nonneg; lia|].
  destruct (decide (Z.lxor a b = 0)) as [->|Hne]; [lia|]. apply (Z.log2_lt_pow2 _ 8).
  - pose proof (proj2 (Z.lxor_nonneg a b)). lia.
  - pose proof (Z.log2_lxor a b). assert (Z.log2 a < 8 ∧ Z.log2 b < 8); [|lia].
    split; (destruct (decide (a = 0)) as [->|]; destruct (decide (b = 0)) as [->|];
      first [done | apply Z.log2_lt_pow2; lia]).
Qed.

Lemma lor_byte a b : is_byte a → is_byte b → is_byte (Z.lor a b).
Proof.
  unfold is_byte. intros Ha Hb. split; [apply Z.lor_nonneg; lia|].
  destruct (decide (Z.lor a b = 0)) as [->|Hne]; [lia|]. apply (Z.log2_lt_pow2 _ 8).
  - pose proof (proj2 (Z.lor_nonneg a b)). lia.
  - rewrite Z.log2_lor by lia. assert (Z.log2 a < 8 ∧ Z.log2 b < 8); [|lia].
    split; (destruct (decide (a = 0)) as [->|]; destruct (decide (b = 0)) as [->|];
      first [done | apply Z.log2_lt_pow2; lia]).
Qed.

Lemma xor_fold_byte ps v : is_byte v → Forall (λ p, is_byte p.1 ∧ is_byte p.2) ps →
  is_byte (foldl (λ v p, Z.lor v (Z.lxor p.1 p.2)) v ps).
Proof.
  intros Hv Hps. revert v Hv. induction Hps as [|p ps [? ?] _ IH]; intros v Hv; simpl; [done|].
  apply IH, lor_byte, lxor_byte; done.
Qed.

(** Differences accumulate: the fold is zero when there are none. *)
Lemma xor_fold_zero ps v :
  foldl (λ v p, Z.lor v (Z.lxor p.1 p.2)) v ps = 0 ↔ v = 0 ∧ Forall (λ p, p.1 = p.2) ps.
Proof.
  revert v. induction ps as [|[x y] ps IH]; intros v; simpl.
  - split; [intros ->; by split|by intros [? _]].
  - rewrite IH, Z.lor_eq_0_iff, Z.lxor_eq_0_iff, Forall_cons. simpl. tauto.
Qed.

Lemma combine_same (x y : list Z) : length x = length y →
  Forall (λ p, p.1 = p.2) (combine x y) ↔ x = y.
Proof.
  revert y. induction x as [|a x IH]; intros [|b y] Hl; simpl in *; try done.
  rewrite Forall_cons, IH by lia. simpl. split; [by intros [-> ->]|by intros [= -> ->]].
Qed.

Lemma ConstantTimeByteEq_zero v : is_byte v → ConstantTimeByteEq v 0 = if decide (v = 0) then 1 else 0.
Proof.
  unfold is_byte, ConstantTimeByteEq. intros Hv. rewrite Z.lxor_0_r. case_decide as Hz; [by subst|].
  rewrite u32_small by uarith. rewrite Z.shiftr_div_pow2 by lia. apply Z.div_small. lia.
Qed.

(** On bytes, the constant-time comparison is equality. *)
Lemma ConstantTimeCompare_spec x y : Forall is_byte x → Forall is_byte y →
  ConstantTimeCompare x y = if decide (x = y) then 1 else 0.
Proof.
  intros Hx Hy. unfold ConstantTimeCompare. destruct (Nat.eqb_spec (length x) (length y)) as [Hl|Hl].
  - unfold xor_fold. rewrite ConstantTimeByteEq_zero.
    + apply decide_ext. rewrite xor_fold_zero, combine_same by done. split; [by intros [_ ?]|done].
    + apply xor_fold_byte; [unfold is_byte; lia|]. apply Forall_forall. intros [a b] Hab.
      apply list_elem_of_In in Hab. rewrite Forall_forall in Hx, Hy. split; simpl.
      * apply Hx, list_elem_of_In. by eapply in_combine_l.
      * apply Hy, list_elem_of_In. by eapply in_combine_r.
  - rewrite decide_False; [done|]. by intros ->.
Qed.

Lemma digestCompare_spec got want :
  digestCompare got want = if decide (Sum256 (codes got) = Sum256 (codes want)) then 1 else 0.
Proof. apply ConstantTimeCompare_spec; apply Sum256_bytes. Qed.

Lemma digestCompare_same got want : digestCompare got want = 1 ↔ same_secret got want.
Proof.
  rewrite digestCompare_spec. unfold same_secret, collision. case_decide as Hd.
  - split; [|done]. intros _. destruct (decide (got = want)); [by left|by right].
  - split; [done|]. intros [->|[_ ?]]; done.
Qed.

Lemma digestCompare_bit got want : digestCompare got want = 0 ∨ digestCompare got want = 1.
Proof. rewrite digestCompare_spec. case_decide; auto. Qed.

(** *** Prefixes and separators *)


Lemma codes_cons c s : codes (String c s) = Z.of_N (Ascii.N_of_ascii c) :: codes s.
Proof. done. Qed.

Lemma CutPrefix_spec s prefix rest : CutPrefix s prefix = Some rest ↔ s = prefix +:+ rest.
Proof.
  unfold CutPrefix. revert s. induction prefix as [|c prefix IH]; intros s.
  - replace (String.prefix "" s) with true by (by destruct s). rewrite drop_0, of_codes_codes.
    simpl. split; [by intros [= ->]|by intros ->].
  - destruct s as [|c' s]; [done|]. rewrite codes_cons. cbn [String.prefix String.length drop].
    destruct (Ascii.ascii_dec c c') as [->|Hne]; simpl.
    + rewrite (IH s). split; [by intros ->|by intros [= ->]].
    + split; [done|]. by intros [= ?].
Qed.

Lemma cut_at_app sep l r : sep ∉ l → cut_at sep (l ++ sep :: r) = Some (l, r).
Proof.
  induction l as [|b l IH]; simpl; intros Hl; [by rewrite Z.eqb_refl|].
  apply not_elem_of_cons in Hl as [Hb Hl]. by rewrite (proj2 (Z.eqb_neq b sep)), IH by done.
Qed.

(** *** Base64 *)

Lemma b64_char_value v : 0 ≤ v < 64 →
  b64_value (b64_char v) = Some v ∧ b64_char v ≠ 10 ∧ b64_char v ≠ 13 ∧ is_byte (b64_char v).
Proof.
  unfold b64_char, b64_value, is_byte. intros Hv.
  repeat (case_match; rewrite ?Z.ltb_lt, ?Z.ltb_ge, ?andb_true_iff, ?andb_false_iff, ?Z.leb_le, ?Z.leb_gt,
    ?Z.eqb_eq, ?Z.eqb_neq in * ); split_and?; try lia; f_equal; lia.
Qed.

(** Induction three bytes at a time. *)
Lemma triple_ind (P : list Z → Prop) :
  P [] → (∀ a, P [a]) → (∀ a b, P [a; b]) → (∀ a b c l, P l → P (a :: b :: c :: l)) → ∀ l, P l.
Proof.
  intros H0 H1 H2 H3. fix go 1. intros [|a [|b [|c l]]]; [done|apply H1|apply H2|].
  apply H3, go.
Qed.

(** The bytes a quantum of characters carries. *)
Lemma b64_split a b : is_byte a → is_byte b →
  0 ≤ a / 4 < 64 ∧ 0 ≤ a mod 4 * 16 + b / 16 < 64 ∧ 0 ≤ b mod 16 * 4 < 64 ∧ 0 ≤ b / 64 < 4 ∧ 0 ≤ b mod 64 < 64 ∧
  a / 4 * 4 + (a mod 4 * 16 + b / 16) / 16 = a ∧ (a mod 4 * 16 + b / 16) mod 16 * 16 = b / 16 * 16.
Proof.
  unfold is_byte. intros Ha Hb.
  pose proof (Z.div_mod a 4). pose proof (Z.mod_pos_bound a 4). pose proof (Z.div_mod b 16).
  pose proof (Z.mod_pos_bound b 16). pose proof (Z.div_mod b 64). pose proof (Z.mod_pos_bound b 64).
  assert ((a mod 4 * 16 + b / 16) / 16 = a mod 4) by (rewrite Z.div_add_l, Z.div_small by lia; lia).
  assert ((a mod 4 * 16 + b / 16) mod 16 = b / 16) by
    (rewrite Z.add_comm, Z.mod_add, Z.mod_small by lia; lia).
  lia.
Qed.

Lemma b64_join b c : is_byte b → is_byte c →
  0 ≤ b mod 16 * 4 + c / 64 < 64 ∧ b / 16 * 16 + (b mod 16 * 4 + c / 64) / 4 = b ∧
  (b mod 16 * 4 + c / 64) mod 4 * 64 + c mod 64 = c.
Proof.
  unfold is_byte. intros Hb Hc.
  pose proof (Z.div_mod b 16). pose proof (Z.mod_pos_bound b 16). pose proof (Z.div_mod c 64).
  pose proof (Z.mod_pos_bound c 64).
  assert ((b mod 16 * 4 + c / 64) / 4 = b mod 16) by (rewrite Z.div_add_l, Z.div_small by lia; lia).
  assert ((b mod 16 * 4 + c / 64) mod 4 = c / 64) by
    (rewrite Z.add_comm, Z.mod_add, Z.mod_small by lia; lia).
  lia.
Qed.

Lemma b64_no_newline bs : Forall is_byte bs →
  Forall (λ c, c ≠ 10 ∧ c ≠ 13 ∧ is_byte c) (b64_encode bs).
Proof.
  assert (Hpad : 61 ≠ 10 ∧ 61 ≠ 13 ∧ is_byte 61) by (unfold is_byte; lia).
  assert (Hch : ∀ v, 0 ≤ v < 64 → b64_char v ≠ 10 ∧ b64_char v ≠ 13 ∧ is_byte (b64_char v))
    by (intros v Hv; by destruct (b64_char_value v Hv) as (_ & ? & ? & ?)).
  assert (Hz : is_byte 0) by (unfold is_byte; lia).
  induction bs as [|a|a b|a b c bs IH] using triple_ind; simpl; rewrite ?Forall_cons.
  - constructor.
  - intros (Ha & _). pose proof (b64_split a 0 Ha Hz). pose proof (Z.mod_pos_bound a 4).
    split_and?; try constructor; try done; apply Hch; lia.
  - intros (Ha & Hb & _). pose proof (b64_split a b Ha Hb).
    split_and?; try constructor; try done; apply Hch; lia.
  - intros (Ha & Hb & Hc & Hbs). pose proof (b64_split a b Ha Hb). pose proof (b64_join b c Hb Hc).
    pose proof (b64_split b c Hb Hc). split_and?; [apply Hch; lia..|by apply IH].
Qed.

Lemma b64_quanta_encode bs : Forall is_byte bs → b64_quanta (b64_encode bs) = Some bs.
Proof.
  assert (Hz : is_byte 0) by (unfold is_byte; lia).
  induction bs as [|a|a b|a b c bs IH] using triple_ind; simpl; rewrite ?Forall_cons.
  - done.
  - intros (Ha & _). pose proof (b64_split a 0 Ha Hz) as Hs. change (0 / 16) with 0 in Hs.
    rewrite Z.add_0_r in Hs. pose proof (Z.mod_pos_bound a 4). rewrite !(λ v H, proj1 (b64_char_value v H)) by lia. simpl. f_equal. f_equal. lia.
  - intros (Ha & Hb & _). pose proof (b64_split a b Ha Hb). pose proof (b64_join b 0 Hb Hz) as Hj.
    rewrite Z.div_0_l, Z.add_0_r in Hj by lia.
    rewrite !(λ v H, proj1 (b64_char_value v H)) by lia. simpl. do 3 f_equal; lia.
  - intros (Ha & Hb & Hc & Hbs). pose proof (b64_split a b Ha Hb). pose proof (b64_join b c Hb Hc).
    pose proof (b64_split b c Hb Hc). rewrite !(λ v H, proj1 (b64_char_value v H)) by lia.
    rewrite IH by done. f_equal. f_equal; [lia|]. f_equal; [lia|]. f_equal. lia.
Qed.

Lemma b64_decode_encode bs : Forall is_byte bs → b64_decode (b64_encode bs) = Some bs.
Proof.
  intros Hbs. unfold b64_decode. rewrite <- (b64_quanta_encode bs Hbs). f_equal.
  pose proof (b64_no_newline bs Hbs) as Hnl. induction Hnl as [|c l (? & ? & _) _ IH]; [done|].
  simpl. rewrite (proj2 (Z.eqb_neq c 10)), (proj2 (Z.eqb_neq c 13)) by done. simpl. by rewrite IH.
Qed.

(** The header of a user and a password is read back. *)
Lemma BasicAuth_header user pass : 58 ∉ codes user → BasicAuth (basic_header user pass) = Some (user, pass).
Proof.
  intros Hu. unfold BasicAuth, basic_header. rewrite codes_app.
  assert (Hbs : Forall is_byte (codes user ++ 58 :: codes pass)).
  { apply Forall_app. split; [apply codes_bytes|]. constructor; [unfold is_byte; lia|apply codes_bytes]. }
  rewrite codes_of_codes by (eapply Forall_impl; [by apply b64_no_newline|]; by intros ? (_ & _ & ?)).
  rewrite take_app_length' by done. rewrite drop_app_length' by done.
  rewrite bool_decide_eq_true_2 by done. rewrite b64_decode_encode by done.
  rewrite cut_at_app by done. by rewrite !of_codes_codes.
Qed.

(** The configured user and password open the gate. *)
Lemma Wrap_header user password adminToken path : 58 ∉ codes user →
  Wrap user password adminToken path (basic_header user password) = true.
Proof.
  intros Hu. unfold Wrap. case_bool_decide; [done|]. rewrite BasicAuth_header by done.
  by rewrite !(proj2 (digestCompare_same _ _) (or_introl eq_refl)).
Qed.

(** What the gate lets through. *)
Lemma Wrap_passes (user password adminToken path auth : string) :
  Wrap user password adminToken path auth = true ↔
     path = "/health" ∨ path = "/ready" ∨
     (∃ u p, BasicAuth auth = Some (u, p) ∧ same_secret u user ∧ same_secret p password) ∨
     (∃ t, auth = "Bearer " +:+ t ∧ adminToken ≠ "" ∧ same_secret t adminToken).
Proof.
  unfold Wrap. case_bool_decide as Hp; unfold probePaths in Hp.
  { split; [intros _|done]. set_solver. }
  assert (Hno : path ≠ "/health" ∧ path ≠ "/ready") by set_solver. clear Hp.
  setoid_rewrite <- CutPrefix_spec. setoid_rewrite <- digestCompare_same.
  assert (Hb : (match BasicAuth auth with
     | Some (u, p) => Z.land (digestCompare u user) (digestCompare p password) =? 1
     | None => false end) = true ↔
     ∃ u p, BasicAuth auth = Some (u, p) ∧ digestCompare u user = 1 ∧ digestCompare p password = 1).
  { destruct (BasicAuth auth) as [[u p]|]; [|naive_solver].
    destruct (digestCompare_bit u user) as [Hu|Hu], (digestCompare_bit p password) as [Hw|Hw];
      rewrite Hu, Hw; simpl; naive_solver lia. }
  destruct (match BasicAuth auth with Some _ => _ | None => _ end).
  { split; [|done]. intros _. right. right. left. by apply Hb. }
  assert (Hnb : ¬ ∃ u p, BasicAuth auth = Some (u, p) ∧ digestCompare u user = 1 ∧ digestCompare p password = 1)
    by (intros Hx; by apply Hb in Hx).
  destruct (CutPrefix auth "Bearer ") as [t|]; [|naive_solver].
  case_bool_decide; rewrite ?Z.eqb_eq; naive_solver.
Qed.

(** ** Properties *)

(** C37.  The gate.  A request passes exactly when it asks for an orchestrator
    probe, carries the configured user and password, or carries the admin token;
    a different secret passes only as a SHA-256 collision with the right one,
    and an empty admin token opens nothing.  Every user and password a client
    sends in the Basic form is read back as it was, so the configured ones
    always pass. *)
Theorem Wrap_correct (user password adminToken path auth : string) :
  (Wrap user password adminToken path auth = true ↔
     path = "/health" ∨ path = "/ready" ∨
     (∃ u p, BasicAuth auth = Some (u, p) ∧ same_secret u user ∧ same_secret p password) ∨
     (∃ t, auth = "Bearer " +:+ t ∧ adminToken ≠ "" ∧ same_secret t adminToken)) ∧
  (58 ∉ codes user → BasicAuth (basic_header user password) = Some (user, password) ∧
     Wrap user password adminToken path (basic_header user password) = true).
Proof.
  split; [apply Wrap_passes|]. intros Hu. split; [by apply BasicAuth_header|by apply Wrap_header].
Qed.

Lemma Wrap_correct_witness :
  Wrap "ops" "correct horse" "" "/v1/contracts" (basic_header "ops" "correct horse") = true.
Proof.
  apply (Wrap_correct "ops" "correct horse" "" "/v1/contracts" ""). 
  intros Hin. vm_compute in Hin. repeat (apply elem_of_cons in Hin as [Heq|Hin]; [discriminate|]).
  by apply elem_of_nil in Hin.
Defined.

(** FIPS 180-4's examples, and RFC 7617's. *)
Example Sum256_abc : take 4 (Sum256 (codes "abc")) = [186; 120; 22; 191] ∧
  take 4 (Sum256 []) = [227; 176; 196; 66] ∧
  take 4 (Sum256 (codes "abcdbcdecdefdefgefghfghighijhijkijkljklmklmnlmnomnopnopq")) = [36; 141; 106; 97].
Proof. vm_compute. repeat split. Qed.

Example BasicAuth_rfc : BasicAuth "BASIC QWxhZGRpbjpvcGVuIHNlc2FtZQ==" = Some ("Aladdin", "open sesame") ∧
  BasicAuth "Basic QWxhZGRpbg==" = None ∧ BasicAuth "" = None.
Proof. vm_compute. repeat split. Qed.
