(* ===== verification/Mux.v ===== *)
(** * Request routing ([net/http], [net/url], [path])

    What the program uses of the standard library between a request line and a
    handler: the two forms of a URL's path, path cleaning, the patterns of
    [http.ServeMux] with their conflicts, and the choice of a handler.  Paths are
    bytes.  Patterns with a host, a trailing slash or a [...] wildcard are
    refused by [parsePattern] below: the program has none, and without them the
    host of a request plays no role.  A node of the mux's tree is given by the
    patterns below it, each with the segments still to match. *)

From S2P Require Import Prelude HttpAuth.

(** ** Definitions *)

(** *** [net/url] *)

Definition unhex (c : Z) : option Z :=
  if (48 <=? c) && (c <=? 57) then Some (c - 48)
  else if (97 <=? c) && (c <=? 102) then Some (c - 87)
  else if (65 <=? c) && (c <=? 70) then Some (c - 55)
  else None.

(** [unescape] of a path: 37 is the percent sign. *)
Fixpoint unescape (bs : list Z) : option (list Z) :=
  match bs with
  | [] => Some []
  | c :: rest =>
      if c =? 37 then
        match rest with
        | a :: b :: rest =>
            match unhex a, unhex b with
            | Some x, Some y => cons (16 * x + y) <$> unescape rest
            | _, _ => None
            end
        | _ => None
        end
      else cons c <$> unescape rest
  end.

Definition alphanumeric (c : Z) : bool :=
  ((97 <=? c) && (c <=? 122)) || ((65 <=? c) && (c <=? 90)) || ((48 <=? c) && (c <=? 57)).

(** [shouldEscape] in a path. *)
Definition shouldEscape (c : Z) : bool :=
  negb (alphanumeric c || bool_decide (c ∈ codes "-_.~$&+,/:;=@")).

Definition upperhex (n : Z) : Z := if n <? 10 then n + 48 else n + 55.

Definition escape (bs : list Z) : list Z :=
  concat ((λ c, if shouldEscape c then [37; upperhex (c / 16); upperhex (c mod 16)] else [c]) <$> bs).

Definition validEncoded (bs : list Z) : bool :=
  forallb (λ c, bool_decide (c ∈ codes "!$&'()*+,;=:@[]%") || negb (shouldEscape c)) bs.

Record urlpath := mkPath { up_Path : list Z; up_RawPath : list Z }.

(** [URL.setPath], on the path of a request target. *)
Definition setPath (p : list Z) : option urlpath :=
  match unescape p with
  | Some path => Some (mkPath path (if bool_decide (escape path = p) then [] else p))
  | None => None
  end.

Definition EscapedPath (u : urlpath) : list Z :=
  if bool_decide (up_RawPath u ≠ []) && validEncoded (up_RawPath u)
     && bool_decide (unescape (up_RawPath u) = Some (up_Path u))
  then up_RawPath u
  else if bool_decide (up_Path u = codes "*") then codes "*"
  else escape (up_Path u).

(** *** [path] *)

(** The parts of a path between its slashes (47): always one at least. *)
Fixpoint split_slash (bs : list Z) : list Z * list (list Z) :=
  match bs with
  | [] => ([], [])
  | b :: bs => let '(p, ps) := split_slash bs in
               if b =? 47 then ([], p :: ps) else (b :: p, ps)
  end.

Definition parts (bs : list Z) : list (list Z) := let '(p, ps) := split_slash bs in p :: ps.

(** The lexical rules of [path.Clean] on a rooted path; [out] is reversed. *)
Fixpoint clean_parts (out ps : list (list Z)) : list (list Z) :=
  match ps with
  | [] => rev out
  | p :: ps =>
      if bool_decide (p = []) || bool_decide (p = codes ".") then clean_parts out ps
      else if bool_decide (p = codes "..") then clean_parts (tail out) ps
      else clean_parts (p :: out) ps
  end.

(** A rooted path of parts. *)
Definition rooted (ps : list (list Z)) : list Z := concat (cons 47 <$> ps).

Definition Clean (p : list Z) : list Z :=
  match clean_parts [] (parts p) with [] => [47] | ps => rooted ps end.

(** [cleanPath] of [net/http]: a trailing slash is kept. *)
Definition cleanPath (p : list Z) : list Z :=
  match p with
  | [] => [47]
  | c :: _ =>
      let p := if c =? 47 then p else 47 :: p in
      let np := Clean p in
      if bool_decide (last p = Some 47) && bool_decide (np ≠ [47]) then np ++ [47] else np
  end.

(** *** Patterns *)

(** A literal, which is a slash for [{$}], or a wildcard and its name. *)
Inductive segment := Literal (s : list Z) | Wildcard (name : list Z).

Record pattern := mkPattern { pt_method : string; pt_segments : list segment }.

#[export] Instance segment_eq_dec : EqDecision segment.
Proof. solve_decision. Defined.
#[export] Instance pattern_eq_dec : EqDecision pattern.
Proof. solve_decision. Defined.

Definition pathUnescape (p : list Z) : list Z := default p (unescape p).

(** [validMethod]: an RFC 7230 token. *)
Definition validMethod (m : list Z) : bool :=
  forallb (λ c, alphanumeric c || bool_decide (c ∈ codes "!#$%&'*+-.^_`|~")) m.

(** [isValidWildcardName], among ASCII names. *)
Definition wildcard_name (name : list Z) : bool :=
  forallb (λ c, alphanumeric c || (c =? 95)) name
  && match name with c :: _ => negb ((48 <=? c) && (c <=? 57)) | [] => false end.

Fixpoint parse_segments (seen : list (list Z)) (ps : list (list Z)) : option (list segment) :=
  match ps with
  | [] => Some []
  | seg :: ps =>
      if bool_decide (seg = []) then None
      else if bool_decide (123 ∉ seg) then cons (Literal (pathUnescape seg)) <$> parse_segments seen ps
      else if negb (bool_decide (head seg = Some 123) && bool_decide (last seg = Some 125)) then None
      else
        let name := removelast (tail seg) in
        if bool_decide (name = codes "$") then
          if bool_decide (ps = []) then Some [Literal [47]] else None
        else if wildcard_name name && bool_decide (name ∉ seen)
        then cons (Wildcard name) <$> parse_segments (name :: seen) ps
        else None
  end.

Definition blank (c : Z) : bool := (c =? 32) || (c =? 9).

Fixpoint cut_blank (bs : list Z) : option (list Z * list Z) :=
  match bs with
  | [] => None
  | b :: bs => if blank b then Some ([], bs)
               else match cut_blank bs with Some (l, r) => Some (b :: l, r) | None => None end
  end.

Fixpoint drop_blanks (bs : list Z) : list Z :=
  match bs with b :: rest => if blank b then drop_blanks rest else bs | [] => [] end.

Definition parsePattern (s : string) : option pattern :=
  let '(method, rest) :=
    match cut_blank (codes s) with Some (m, r) => (m, drop_blanks r) | None => ([], codes s) end in
  match rest with
  | c :: path =>
      if validMethod method && (c =? 47)
         && (bool_decide (method = []) || bool_decide (method = codes "CONNECT")
             || bool_decide (cleanPath (47 :: path) = 47 :: path))
      then mkPattern (of_codes method) <$> parse_segments [] (parts path)
      else None
  | [] => None
  end.

(** *** Conflicts *)

Inductive relationship := Equivalent | MoreGeneral | MoreSpecific | Disjoint | Overlaps.

#[export] Instance relationship_eq_dec : EqDecision relationship.
Proof. solve_decision. Defined.

Definition inverseRelationship (r : relationship) : relationship :=
  match r with MoreSpecific => MoreGeneral | MoreGeneral => MoreSpecific | r => r end.

Definition combineRelationships (r1 r2 : relationship) : relationship :=
  match r1 with
  | Equivalent => r2
  | Disjoint => Disjoint
  | Overlaps => if bool_decide (r2 = Disjoint) then Disjoint else Overlaps
  | MoreGeneral | MoreSpecific =>
      if bool_decide (r2 = Equivalent) then r1
      else if bool_decide (r2 = inverseRelationship r1) then Overlaps
      else r2
  end.

Definition compareMethods (m1 m2 : string) : relationship :=
  if bool_decide (m1 = m2) then Equivalent
  else if bool_decide (m1 = "") then MoreGeneral
  else if bool_decide (m2 = "") then MoreSpecific
  else if bool_decide (m1 = "GET") && bool_decide (m2 = "HEAD") then MoreGeneral
  else if bool_decide (m2 = "GET") && bool_decide (m1 = "HEAD") then MoreSpecific
  else Disjoint.

Definition compareSegments (s1 s2 : segment) : relationship :=
  match s1, s2 with
  | Wildcard _, Wildcard _ => Equivalent
  | Wildcard _, Literal s => if bool_decide (s = [47]) then Disjoint else MoreGeneral
  | Literal s, Wildcard _ => if bool_decide (s = [47]) then Disjoint else MoreSpecific
  | Literal s1, Literal s2 => if bool_decide (s1 = s2) then Equivalent else Disjoint
  end.

Definition comparePaths (segs1 segs2 : list segment) : relationship :=
  if Nat.eqb (length segs1) (length segs2)
  then foldl (λ r p, combineRelationships r (compareSegments p.1 p.2)) Equivalent (combine segs1 segs2)
  else Disjoint.

Definition comparePathsAndMethods (p1 p2 : pattern) : relationship :=
  combineRelationships (compareMethods (pt_method p1) (pt_method p2))
    (comparePaths (pt_segments p1) (pt_segments p2)).

Definition conflictsWith (p1 p2 : pattern) : bool :=
  bool_decide (comparePathsAndMethods p1 p2 = Equivalent)
  || bool_decide (comparePathsAndMethods p1 p2 = Overlaps).

(** *** The mux *)

Section mux.
Context {H : Type}.

Definition mux : Type := list (pattern * H).

(** [Handle] and [HandleFunc]; [None] when they panic. *)
Definition Handle (m : mux) (pat : string) (h : H) : option mux :=
  match parsePattern pat with
  | Some p => if existsb (λ e, conflictsWith p e.1) m then None else Some (m ++ [(p, h)])
  | None => None
  end.

Fixpoint Handle_all (m : mux) (regs : list (string * H)) : option mux :=
  match regs with
  | [] => Some m
  | (pat, h) :: regs => match Handle m pat h with Some m => Handle_all m regs | None => None end
  end.

(** A node: the registrations below it, each with its remaining segments. *)
Definition node : Type := list (list segment * (pattern * H)).

Definition leaf (n : node) : option (pattern * H) :=
  snd <$> head (filter (λ e, e.1 = []) n).

Definition literal_child (s : list Z) (n : node) : node :=
  omap (λ e, match e.1 with
             | Literal s' :: rest => if bool_decide (s' = s) then Some (rest, e.2) else None
             | _ => None
             end) n.

Definition empty_child (n : node) : node :=
  omap (λ e, match e.1 with Wildcard _ :: rest => Some (rest, e.2) | _ => None end) n.

Definition findChild (s : list Z) (n : node) : node :=
  if bool_decide (s = []) then empty_child n else literal_child s n.

(** The segments [firstSegment] takes off a path, one after the other;
    [before] is the byte in front of the first part. *)
Fixpoint segments_of (before : Z) (ps : list (list Z)) : list (list Z) :=
  match ps with
  | [] => []
  | [p] => [if bool_decide (p = []) && (before =? 47) then [47] else pathUnescape p]
  | p :: ps => pathUnescape p :: segments_of 47 ps
  end.

Definition segments (path : list Z) : list (list Z) :=
  match path with [] => [] | c :: rest => segments_of c (parts rest) end.

Fixpoint matchPath (path : list (list Z)) (n : node) : option (pattern * H * list (list Z)) :=
  match path with
  | [] => (λ ph, (ph, [])) <$> leaf n
  | seg :: rest =>
      match matchPath rest (findChild seg n) with
      | Some found => Some found
      | None =>
          if bool_decide (seg ≠ [47])
          then (λ found, (found.1, seg :: found.2)) <$> matchPath rest (empty_child n)
          else None
      end
  end.

(** The node of a method. *)
Definition method_node (m : mux) (method : string) : node :=
  omap (λ e, if bool_decide (pt_method e.1 = method) then Some (pt_segments e.1, e) else None) m.

Definition match_ (m : mux) (method : string) (path : list Z) : option (pattern * H * list (list Z)) :=
  match matchPath (segments path) (method_node m method) with
  | Some found => Some found
  | None =>
      match (if bool_decide (method = "HEAD") then matchPath (segments path) (method_node m "GET") else None) with
      | Some found => Some found
      | None => matchPath (segments path) (method_node m "")
      end
  end.

Definition ends_with_slash (path : list Z) : bool := bool_decide (last path = Some 47).

(** The methods registered for a path. *)
Definition matchingMethods (m : mux) (path : list Z) : gset string :=
  filter (λ method, method ≠ "" ∧ is_Some (matchPath (segments path) (method_node m method)))
    (list_to_set ((λ e, pt_method e.1) <$> m)).

(** The Allow header: also of the path with a slash, and HEAD with GET. *)
Definition allowedMethods (m : mux) (path : list Z) : list string :=
  let ms := matchingMethods m path
            ∪ (if ends_with_slash path then ∅ else matchingMethods m (path ++ [47])) in
  order_by String.ltb (elements (if bool_decide ("GET" ∈ ms) then {[ "HEAD" ]} ∪ ms else ms)).

(** What the mux does with a request: a handler with the values of the
    wildcards, a redirect (its target is left out), 405 with the methods that
    are allowed, or 404. *)
Inductive outcome :=
  | Found (p : pattern) (h : H) (vals : list (list Z))
  | Moved
  | MethodNotAllowed (allow : list string)
  | NotFound.

(** [matchOrRedirect]; [None] for the redirect to the path with a slash. *)
Definition matchOrRedirect (m : mux) (method : string) (path : list Z)
    : option (option (pattern * H * list (list Z))) :=
  let n := match_ m method path in
  if bool_decide (n = None) && negb (ends_with_slash path) && bool_decide (path ≠ [])
     && bool_decide (is_Some (match_ m method (path ++ [47])))
  then None else Some n.

Definition findHandler (m : mux) (method : string) (u : urlpath) : outcome :=
  let escaped := EscapedPath u in
  let path := if bool_decide (method = "CONNECT") then escaped else cleanPath escaped in
  match matchOrRedirect m method path with
  | None => Moved
  | Some n =>
      if bool_decide (path ≠ escaped) then Moved
      else match n with
           | Some (p, h, vals) => Found p h vals
           | None => match allowedMethods m path with [] => NotFound | allow => MethodNotAllowed allow end
           end
  end.
End mux.
Arguments mux : clear implicits.
Arguments node : clear implicits.
Arguments outcome : clear implicits.

(** [Request.PathValue] *)
Fixpoint PathValue (segs : list segment) (vals : list (list Z)) (name : list Z) : list Z :=
  match segs, vals with
  | Literal _ :: segs, _ => PathValue segs vals name
  | Wildcard n :: segs, v :: vals => if bool_decide (n = name) then v else PathValue segs vals name
  | _, _ => []
  end.

(** ** Specification *)

(** The methods a pattern serves. *)
Definition accepts (pm method : string) : Prop :=
  pm = method ∨ pm = "" ∨ (pm = "GET" ∧ method = "HEAD").

(** A path's segments against a pattern's, with the values of the wildcards: a
    wildcard takes any segment but a slash. *)
Fixpoint fits (segs : list segment) (path : list (list Z)) : option (list (list Z)) :=
  match segs, path with
  | [], [] => Some []
  | Literal s :: segs, x :: path => if bool_decide (s = x) then fits segs path else None
  | Wildcard _ :: segs, x :: path => if bool_decide (x = [47]) then None else cons x <$> fits segs path
  | _, _ => None
  end.

(** No two registrations can serve one request. *)
Definition unambiguous {H} (m : mux H) : Prop :=
  ∀ e1 e2, e1 ∈ m → e2 ∈ m → e1 = e2 ∨ comparePathsAndMethods e1.1 e2.1 = Disjoint.

(** Only [{$}] ends a pattern in a slash. *)
Definition slash_alone {H} (m : mux H) : Prop :=
  ∀ e, e ∈ m → last (pt_segments e.1) = Some (Literal [47]) → pt_segments e.1 = [Literal [47]].

(** What the mux owes a request: a path that is not clean is redirected; the
    registration that serves the method and fits the path gets a clean one, with
    the values of its wildcards; without one, the Allow header lists exactly the
    methods that would be served; no path that fits is a 404. *)
Definition routed {H} (m : mux H) (method : string) (path : list Z) (out : outcome H) : Prop :=
  match out with
  | Moved => cleanPath path ≠ path
  | Found p h vals =>
      cleanPath path = path ∧ (p, h) ∈ m ∧ accepts (pt_method p) method ∧
      fits (pt_segments p) (segments path) = Some vals
  | MethodNotAllowed allow =>
      cleanPath path = path ∧ ¬ (method ∈ allow) ∧ allow ≠ [] ∧
      StronglySorted (λ x y, String.ltb x y = true) allow ∧
      ∀ method', method' ∈ allow ↔
        ∃ e, e ∈ m ∧ accepts (pt_method e.1) method' ∧ is_Some (fits (pt_segments e.1) (segments path))
  | NotFound => cleanPath path = path ∧ ∀ e, e ∈ m → fits (pt_segments e.1) (segments path) = None
  end.

(** ** Lemmas *)

(** *** Escaping *)

Lemma unhex_upperhex n : 0 ≤ n < 16 → unhex (upperhex n) = Some n.
Proof.
  unfold unhex, upperhex. intros Hn.
  repeat (case_match; rewrite ?Z.ltb_lt, ?Z.ltb_ge, ?andb_true_iff, ?andb_false_iff, ?Z.leb_le, ?Z.leb_gt in * );
    try lia; f_equal; lia.
Qed.

Lemma unhex_range c n : unhex c = Some n → 0 ≤ n < 16.
Proof.
  unfold unhex. repeat (case_match; rewrite ?andb_true_iff, ?Z.leb_le in * ); intros; simplify_eq; lia.
Qed.

(** A part without its escapes is longer by two bytes for each: induction on
    what [unescape] returns. *)
Lemma unescape_ind (P : list Z → list Z → Prop) :
  P [] [] →
  (∀ a b x y bs path, unhex a = Some x → unhex b = Some y → unescape bs = Some path → P bs path →
     P (37 :: a :: b :: bs) (16 * x + y :: path)) →
  (∀ c bs path, c ≠ 37 → unescape bs = Some path → P bs path → P (c :: bs) (c :: path)) →
  ∀ bs path, unescape bs = Some path → P bs path.
Proof.
  intros H0 H3 H1. fix go 1. intros [|c bs] path; simpl.
  - by intros [= <-].
  - destruct (Z.eqb_spec c 37) as [->|Hc].
    + destruct bs as [|a [|b bs]]; [done..|].
      destruct (unhex a) as [x|] eqn:Ha; [|done]. destruct (unhex b) as [y|] eqn:Hb; [|done].
      destruct (unescape bs) as [r|] eqn:Hr; [|done]. simpl. intros [= <-].
      apply H3; [done..|by apply go].
    + destruct (unescape bs) as [r|] eqn:Hr; [|done]. simpl. intros [= <-].
      apply H1; [done..|by apply go].
Qed.

Lemma unescape_bytes bs path : unescape bs = Some path → Forall is_byte bs → Forall is_byte path.
Proof.
  revert bs path. apply (unescape_ind (λ bs path, Forall is_byte bs → Forall is_byte path)).
  - done.
  - intros a b x y bs path Ha Hb _ IH Hbs. apply unhex_range in Ha, Hb.
    constructor; [unfold is_byte; lia|]. apply IH. by do 3 apply Forall_inv_tail in Hbs.
  - intros c bs path _ _ IH. rewrite Forall_cons. intros [Hc Hbs]. constructor; auto.
Qed.

Lemma unescape_nonempty bs path : unescape bs = Some path → bs ≠ [] → path ≠ [].
Proof.
  revert bs path. by apply (unescape_ind (λ bs path, bs ≠ [] → path ≠ [])).
Qed.

(** A slash is never part of an escape. *)
Lemma unescape_slash bs path : unescape bs = Some path → 47 ∈ bs → 47 ∈ path.
Proof.
  revert bs path. apply (unescape_ind (λ bs path, 47 ∈ bs → 47 ∈ path)).
  - done.
  - intros a b x y bs path Ha Hb _ IH. rewrite !elem_of_cons.
    intros [?|[<-|[<-|Hin]]]; [done..|auto].
  - intros c bs path _ _ IH. rewrite !elem_of_cons. intros [?|Hin]; auto.
Qed.

Lemma escape_cons c bs :
  escape (c :: bs) = (if shouldEscape c then [37; upperhex (c / 16); upperhex (c mod 16)] else [c]) ++ escape bs.
Proof. done. Qed.

Lemma unescape_escape bs : Forall is_byte bs → unescape (escape bs) = Some bs.
Proof.
  induction 1 as [|c bs Hc _ IH]; [done|]. rewrite escape_cons. unfold is_byte in Hc.
  pose proof (Z.mod_pos_bound c 16). pose proof (Z.div_mod c 16).
  destruct (shouldEscape c) eqn:Hs; simpl.
  - rewrite !unhex_upperhex by lia. rewrite IH. simpl. do 2 f_equal. lia.
  - destruct (Z.eqb_spec c 37) as [->|]; [by vm_compute in Hs|]. by rewrite IH.
Qed.

(** The escaped path the mux looks at is an encoding of the decoded path the
    handlers look at. *)
Lemma EscapedPath_unescape p u : setPath p = Some u → Forall is_byte p →
  unescape (EscapedPath u) = Some (up_Path u).
Proof.
  unfold setPath. destruct (unescape p) as [path|] eqn:Hp; [|done]. intros [= <-] Hb.
  unfold EscapedPath. cbn [up_Path up_RawPath]. set (raw := if bool_decide (escape path = p) then [] else p). clearbody raw.
  destruct (_ && bool_decide (unescape raw = _)) eqn:Hraw.
  { apply andb_true_iff in Hraw as [_ Hraw]. by apply bool_decide_eq_true in Hraw. }
  clear Hraw. case_bool_decide as Hstar; [by rewrite Hstar|]. apply unescape_escape. by eapply unescape_bytes.
Qed.

Lemma pathUnescape_nonempty p : p ≠ [] → pathUnescape p ≠ [].
Proof.
  unfold pathUnescape. intros Hp. destruct (unescape p) eqn:Hu; [|done]. simpl. by eapply unescape_nonempty.
Qed.

(** *** Cleaning *)

(** A part of a clean path. *)
Definition solid (p : list Z) : Prop := p ≠ [] ∧ 47 ∉ p.

#[export] Instance solid_dec p : Decision (solid p).
Proof. unfold solid. apply _. Defined.

Lemma split_slash_cons b bs p ps : split_slash bs = (p, ps) →
  split_slash (b :: bs) = if b =? 47 then ([], p :: ps) else (b :: p, ps).
Proof. intros Hs. simpl. by rewrite Hs. Qed.

Lemma parts_slash bs : parts (47 :: bs) = [] :: parts bs.
Proof. unfold parts. by destruct (split_slash bs) as [p ps] eqn:Hs; rewrite (split_slash_cons _ _ _ _ Hs). Qed.

Lemma parts_app p bs : 47 ∉ p →
  parts (p ++ bs) = (let '(q, ps) := split_slash bs in (p ++ q) :: ps).
Proof.
  unfold parts. induction p as [|c p IH]; simpl; intros Hp; [done|].
  apply not_elem_of_cons in Hp as [Hc Hp]. specialize (IH Hp).
  destruct (split_slash (p ++ bs)) as [r rs], (split_slash bs) as [q qs]. injection IH as -> ->.
  by rewrite (proj2 (Z.eqb_neq c 47)).
Qed.

Lemma parts_free bs : Forall (λ p, 47 ∉ p) (parts bs).
Proof.
  unfold parts. induction bs as [|b bs IH]; simpl.
  - apply Forall_singleton. apply not_elem_of_nil.
  - destruct (split_slash bs) as [p ps]. apply Forall_cons in IH as [Hp Hps].
    destruct (Z.eqb_spec b 47); repeat constructor; try done; [apply not_elem_of_nil|].
    by apply not_elem_of_cons.
Qed.

Lemma rooted_cons p ps : rooted (p :: ps) = 47 :: p ++ rooted ps.
Proof. done. Qed.

Lemma rooted_app ps qs : rooted (ps ++ qs) = rooted ps ++ rooted qs.
Proof. unfold rooted. by rewrite fmap_app, concat_app. Qed.

(** The parts of a rooted path. *)
Lemma parts_rooted p ps : 47 ∉ p → Forall (λ p, 47 ∉ p) ps → parts (p ++ rooted ps) = p :: ps.
Proof.
  intros Hp Hps. revert p Hp. induction Hps as [|q ps Hq _ IH]; intros p Hp.
  - rewrite parts_app by done. unfold rooted. simpl. by rewrite app_nil_r.
  - rewrite parts_app by done. specialize (IH q Hq). unfold parts in IH.
    rewrite rooted_cons. destruct (split_slash (q ++ rooted ps)) as [r rs] eqn:Hs.
    rewrite (split_slash_cons _ _ _ _ Hs). simpl. rewrite app_nil_r. by rewrite IH.
Qed.

Lemma clean_parts_solid out ps : Forall solid out → Forall (λ p, 47 ∉ p) ps → Forall solid (clean_parts out ps).
Proof.
  intros Hout Hps. revert out Hout. induction Hps as [|p ps Hp _ IH]; intros out Hout; simpl.
  - by apply Forall_rev.
  - destruct (_ || _) eqn:Hskip; [by apply IH|].
    apply orb_false_iff in Hskip as [Hne _]. apply bool_decide_eq_false in Hne.
    case_bool_decide.
    + apply IH. destruct Hout; [constructor|done].
    + apply IH. constructor; [|done]. by split.
Qed.

(** A cleaned path is rooted, its parts are solid, and it may end in a slash. *)
Lemma cleanPath_shape p : ∃ ps, Forall solid ps ∧
  (cleanPath p = rooted (ps ++ [[]]) ∨ ps ≠ [] ∧ cleanPath p = rooted ps).
Proof.
  unfold cleanPath. destruct p as [|c p']; [by exists []; split; [constructor|left]|].
  set (p := if c =? 47 then c :: p' else 47 :: c :: p').
  pose proof (clean_parts_solid [] (parts p) (Forall_nil_2 _) (parts_free p)) as Hsolid.
  unfold Clean. destruct (clean_parts [] (parts p)) as [|q qs] eqn:Hc.
  { exists []. split; [constructor|]. left. rewrite (bool_decide_eq_false_2 ([47] ≠ [47])) by auto.
    by rewrite andb_false_r. }
  exists (q :: qs). split; [done|]. destruct (_ && _).
  - left. by rewrite rooted_app.
  - by right.
Qed.

Lemma segments_of_app before ps q : ps ≠ [] →
  segments_of before (ps ++ [q]) = (pathUnescape <$> ps) ++ segments_of 47 [q].
Proof.
  revert before. induction ps as [|p ps IH]; intros before; [done|]. intros _.
  destruct ps as [|p' ps]; [done|]. specialize (IH 47 ltac:(done)). rewrite fmap_cons.
  rewrite <- !app_comm_cons in *. cbn [segments_of]. by f_equal.
Qed.

Lemma segments_of_solid before ps : Forall solid ps → segments_of before ps = pathUnescape <$> ps.
Proof.
  intros Hps. revert before. induction Hps as [|p ps [Hp _] _ IH]; intros before; [done|].
  destruct ps as [|p' ps]; cbn [segments_of].
  - by rewrite bool_decide_eq_false_2.
  - rewrite fmap_cons. f_equal. apply IH.
Qed.

Lemma segments_rooted ps : Forall (λ p, 47 ∉ p) ps → segments (rooted ps) = segments_of 47 ps.
Proof. destruct 1 as [|p ps Hp Hps]; [done|]. rewrite rooted_cons. simpl. by rewrite parts_rooted. Qed.

Lemma solid_free ps : Forall solid ps → Forall (λ p, 47 ∉ p) ps.
Proof. intros Hps. eapply Forall_impl; [exact Hps|]. by intros p [_ ?]. Qed.

Lemma segments_open ps : Forall solid ps → segments (rooted ps) = pathUnescape <$> ps.
Proof. intros Hps. rewrite segments_rooted by by apply solid_free. by apply segments_of_solid. Qed.

Lemma segments_closed ps : Forall solid ps → segments (rooted (ps ++ [[]])) = (pathUnescape <$> ps) ++ [[47]].
Proof.
  intros Hps. rewrite segments_rooted.
  - destruct ps as [|p ps]; [done|]. by rewrite segments_of_app.
  - apply Forall_app. split; [by apply solid_free|]. apply Forall_singleton, not_elem_of_nil.
Qed.

Lemma unescaped_solid ps : Forall solid ps → Forall (λ s, s ≠ []) (pathUnescape <$> ps).
Proof. intros Hps. apply Forall_fmap. eapply Forall_impl; [done|]. intros p [Hp _]. by apply pathUnescape_nonempty. Qed.

(** A clean path has no empty segment. *)
Lemma clean_segments p : cleanPath p = p → Forall (λ s, s ≠ []) (segments p).
Proof.
  intros Hc. destruct (cleanPath_shape p) as (ps & Hps & [Heq|[_ Heq]]); rewrite <- Hc, Heq.
  - rewrite segments_closed by done. apply Forall_app. split; [by apply unescaped_solid|by constructor].
  - rewrite segments_open by done. by apply unescaped_solid.
Qed.

(** A clean path without a trailing slash, and with one. *)
Lemma clean_segments_slash p : cleanPath p = p → ends_with_slash p = false →
  segments (p ++ [47]) = segments p ++ [[47]] ∧ segments p ≠ [] ∧ Forall (λ s, s ≠ []) (segments (p ++ [47])).
Proof.
  intros Hc Hs. destruct (cleanPath_shape p) as (ps & Hps & [Heq|[Hne Heq]]); rewrite Hc in Heq; subst p.
  - exfalso. unfold ends_with_slash in Hs. rewrite rooted_app in Hs.
    change (rooted [[]]) with [47] in Hs. by rewrite last_snoc in Hs.
  - replace (rooted ps ++ [47]) with (rooted (ps ++ [[]])) by by rewrite rooted_app.
    rewrite segments_closed, segments_open by done. split_and!; [done|by destruct ps|].
    apply Forall_app. split; [by apply unescaped_solid|by constructor].
Qed.

Lemma cleanPath_slash p : ∃ r, cleanPath p = 47 :: r.
Proof.
  destruct (cleanPath_shape p) as (ps & _ & [->|[Hne ->]]).
  - destruct ps; simpl; by eexists.
  - destruct ps; [done|]. by eexists.
Qed.

(** *** Disjoint patterns *)

Lemma combine_disjoint r1 r2 : combineRelationships r1 r2 = Disjoint → r1 = Disjoint ∨ r2 = Disjoint.
Proof. destruct r1, r2; vm_compute; auto; discriminate. Qed.

Lemma methods_disjoint m1 m2 method : compareMethods m1 m2 = Disjoint →
  accepts m1 method → accepts m2 method → False.
Proof.
  unfold compareMethods, accepts. intros Hc [Hx|[Hx|[Hx Hh]]] [Hy|[Hy|[Hy Hh']]]; subst;
    repeat (case_bool_decide as Hd; simpl in Hc; try done); congruence.
Qed.

Lemma segments_disjoint s1 s2 segs1 segs2 path : compareSegments s1 s2 = Disjoint →
  is_Some (fits (s1 :: segs1) path) → is_Some (fits (s2 :: segs2) path) → False.
Proof.
  destruct path as [|x path]; [by destruct s1; intros _ [? ?]|].
  destruct s1, s2; simpl; repeat case_bool_decide; subst; intros ?; try done; intros [? ?] [? ?]; congruence.
Qed.

Lemma fits_tail s segs x path : is_Some (fits (s :: segs) (x :: path)) → is_Some (fits segs path).
Proof.
  destruct s; simpl; case_bool_decide; try done; try by intros [? ?].
  destruct (fits segs path); [done|by intros [? ?]].
Qed.

Lemma fits_length segs path : is_Some (fits segs path) → length segs = length path.
Proof.
  revert path. induction segs as [|s segs IH]; intros [|x path] Hf; try done.
  - by destruct Hf.
  - destruct s; by destruct Hf.
  - simpl. f_equal. by eapply IH, fits_tail.
Qed.

(** Only a literal slash matches a last slash. *)
Lemma fits_last_slash segs path : is_Some (fits segs (path ++ [[47]])) → last segs = Some (Literal [47]).
Proof.
  revert segs. induction path as [|x path IH]; intros [|s segs] Hf; try by destruct Hf.
  - pose proof (fits_length _ _ Hf) as Hl. destruct segs; [|done].
    destruct s; simpl in *; [|by destruct Hf]. case_bool_decide; [by subst|by destruct Hf].
  - simpl in Hf. destruct segs as [|s' segs].
    + pose proof (fits_length [s] (x :: path ++ [[47]]) Hf) as Hl. simpl in Hl. rewrite length_app in Hl. simpl in Hl. lia.
    + change (last (s :: s' :: segs)) with (last (s' :: segs)). eapply IH, fits_tail, Hf.
Qed.

Lemma paths_disjoint segs1 segs2 path : comparePaths segs1 segs2 = Disjoint →
  is_Some (fits segs1 path) → is_Some (fits segs2 path) → False.
Proof.
  unfold comparePaths. destruct (Nat.eqb_spec (length segs1) (length segs2)) as [_|Hl].
  - assert (Hfold : ∀ r, foldl (λ r p, combineRelationships r (compareSegments p.1 p.2)) r (combine segs1 segs2)
       = Disjoint → r ≠ Disjoint → is_Some (fits segs1 path) → is_Some (fits segs2 path) → False);
      [|by intros Hd; apply (Hfold Equivalent)].
    revert segs2 path. induction segs1 as [|s1 segs1 IH]; intros [|s2 segs2] path r; simpl combine; simpl foldl;
      try done.
    intros Hd Hr H1 H2. destruct (decide (compareSegments s1 s2 = Disjoint)) as [Hs|Hs].
    + by eapply segments_disjoint.
    + assert (Hne : combineRelationships r (compareSegments s1 s2) ≠ Disjoint).
      { intros Hx. by destruct (combine_disjoint _ _ Hx). }
      destruct path as [|x path]; [destruct s1; by destruct H1|].
      eapply IH; [exact Hd|exact Hne|by eapply fits_tail..].
  - intros _ H1%fits_length H2%fits_length. lia.
Qed.

(** *** Plain paths *)

(** A part that needs no escape. *)
Definition word (p : list Z) : Prop := p ≠ [] ∧ Forall (λ c, alphanumeric c = true) p.

#[export] Instance word_dec p : Decision (word p).
Proof. unfold word. apply _. Defined.

Lemma alphanumeric_plain c : alphanumeric c = true → c ≠ 37 ∧ c ≠ 46 ∧ c ≠ 47 ∧ c ≠ 42 ∧ shouldEscape c = false.
Proof.
  intros Hc. split_and!; [by intros ->..|]. unfold shouldEscape. by rewrite Hc.
Qed.

Lemma word_solid p : word p → solid p.
Proof.
  intros [Hne Hp]. split; [done|]. intros Hin. rewrite Forall_forall in Hp.
  by destruct (alphanumeric_plain _ (Hp _ Hin)) as (_ & _ & ? & _).
Qed.

Lemma word_dots p : word p → p ≠ codes "." ∧ p ≠ codes "..".
Proof. intros [_ Hp]. split; intros ->; by apply Forall_inv in Hp. Qed.

Lemma unescape_plain p : 37 ∉ p → unescape p = Some p.
Proof.
  induction p as [|c p IH]; [done|]. rewrite not_elem_of_cons. intros [Hc Hp]. simpl.
  rewrite (proj2 (Z.eqb_neq c 37)) by done. by rewrite IH.
Qed.

Lemma escape_plain p : Forall (λ c, shouldEscape c = false) p → escape p = p.
Proof. induction 1 as [|c p Hc _ IH]; [done|]. rewrite escape_cons, Hc, IH. done. Qed.

Lemma rooted_plain ps : Forall word ps → Forall (λ c, c ≠ 37 ∧ shouldEscape c = false) (rooted ps).
Proof.
  induction 1 as [|p ps [_ Hp] _ IH]; [constructor|]. rewrite rooted_cons. constructor; [done|].
  apply Forall_app. split; [|done]. eapply Forall_impl; [exact Hp|].
  intros c Hc. by destruct (alphanumeric_plain c Hc) as (? & _ & _ & _ & ?).
Qed.

Lemma clean_parts_words out ps : Forall word ps → clean_parts out ps = rev out ++ ps.
Proof.
  intros Hps. revert out. induction Hps as [|p ps Hp _ IH]; intros out; simpl; [by rewrite app_nil_r|].
  destruct (word_dots p Hp), Hp as [Hne _]. rewrite !bool_decide_eq_false_2 by done. simpl.
  rewrite IH. simpl. by rewrite <- app_assoc.
Qed.

Lemma cleanPath_words ps : Forall word ps → ps ≠ [] → cleanPath (rooted ps) = rooted ps.
Proof.
  intros Hps Hne. assert (Hc : Clean (rooted ps) = rooted ps).
  { unfold Clean. destruct ps as [|p ps]; [done|]. rewrite rooted_cons, parts_slash.
    pose proof (solid_free _ (Forall_impl _ _ _ Hps word_solid)) as [Hp Hfree]%Forall_cons.
    rewrite parts_rooted by done. change (clean_parts [] ([] :: p :: ps)) with (clean_parts [] (p :: ps)).
    by rewrite clean_parts_words by done. }
  assert (Hl : last (rooted ps) ≠ Some 47).
  { destruct (exists_last Hne) as (qs & q & ->). apply Forall_app in Hps as [_ Hq].
    apply Forall_inv in Hq. destruct (word_solid q Hq) as [Hq0 Hq47].
    rewrite rooted_app, rooted_cons. change (rooted []) with (@nil Z). rewrite app_nil_r, last_app_cons.
    destruct (exists_last Hq0) as (r & c & ->). rewrite app_comm_cons, last_snoc. intros [= ->].
    apply Hq47. apply elem_of_app. right. by left. }
  unfold cleanPath. destruct ps as [|p ps]; [done|]. rewrite rooted_cons in *.
  rewrite Z.eqb_refl. rewrite bool_decide_eq_false_2 by done. done.
Qed.

(** A path of words goes through unchanged. *)
Lemma words_pass ps : Forall word ps → ps ≠ [] →
  setPath (rooted ps) = Some (mkPath (rooted ps) []) ∧ EscapedPath (mkPath (rooted ps) []) = rooted ps ∧
  cleanPath (rooted ps) = rooted ps ∧ segments (rooted ps) = ps.
Proof.
  intros Hps Hne. pose proof (rooted_plain ps Hps) as Hplain.
  assert (Hun : unescape (rooted ps) = Some (rooted ps)).
  { apply unescape_plain. intros Hin. rewrite Forall_forall in Hplain. by destruct (Hplain _ Hin). }
  assert (Hes : escape (rooted ps) = rooted ps).
  { apply escape_plain. eapply Forall_impl; [exact Hplain|]. by intros c [_ ?]. }
  split_and!.
  - unfold setPath. rewrite Hun, Hes. by rewrite bool_decide_eq_true_2.
  - unfold EscapedPath. simpl. destruct ps as [|p ps]; [done|]. by rewrite rooted_cons in *.
  - by apply cleanPath_words.
  - rewrite segments_open by (eapply Forall_impl; [exact Hps|apply word_solid]).
    clear Hne Hplain Hun Hes. induction Hps as [|p ps [_ Hp] _ IH]; [done|]. rewrite fmap_cons. f_equal; [|exact IH].
    unfold pathUnescape. rewrite unescape_plain; [done|]. intros Hin. rewrite Forall_forall in Hp.
    by destruct (alphanumeric_plain _ (Hp _ Hin)).
Qed.

(** A clean path that decodes to a slash and a name without one has that single
    segment. *)
Lemma single_segment path name : cleanPath path = path → unescape path = Some (47 :: name) → solid name →
  segments path = [name].
Proof.
  intros Hc Hu [Hne Hfree]. destruct (cleanPath_slash path) as [rest Hr]. rewrite Hc in Hr. subst path.
  simpl in Hu. destruct (unescape rest) as [name'|] eqn:Hun; [|done]. simpl in Hu. injection Hu as ->.
  assert (Hrest : 47 ∉ rest) by (intros Hin; apply Hfree; by eapply unescape_slash).
  unfold segments. rewrite <- (app_nil_r rest) at 1. rewrite parts_app by done. simpl.
  rewrite app_nil_r. unfold pathUnescape. rewrite Hun. simpl.
  rewrite bool_decide_eq_false_2; [done|]. intros ->. simpl in Hun. congruence.
Qed.

Section mux_lemmas.
Context {H : Type}.
Implicit Types (m : mux H) (n : node H) (h : H).

(** At most one registration of an unambiguous mux serves a request. *)
Lemma serves_once m e1 e2 method path : unambiguous m → e1 ∈ m → e2 ∈ m →
  accepts (pt_method e1.1) method → accepts (pt_method e2.1) method →
  is_Some (fits (pt_segments e1.1) path) → is_Some (fits (pt_segments e2.1) path) → e1 = e2.
Proof.
  intros Hun H1 H2 Ha1 Ha2 Hf1 Hf2. destruct (Hun e1 e2 H1 H2) as [->|Hd]; [done|]. exfalso.
  destruct (combine_disjoint _ _ Hd); [by eapply methods_disjoint|by eapply paths_disjoint].
Qed.

(** *** The tree *)

Lemma leaf_some n ph : leaf n = Some ph → ([], ph) ∈ n.
Proof.
  unfold leaf. destruct (filter _ n) as [|[s x] l] eqn:Hf; [done|]. simpl. intros [= <-].
  assert (Hin : (s, x) ∈ filter (λ e, e.1 = []) n) by (rewrite Hf; by left).
  apply list_elem_of_filter in Hin as [Hs Hin]. simpl in Hs. by subst.
Qed.

Lemma leaf_is_some n ph : ([], ph) ∈ n → is_Some (leaf n).
Proof.
  intros Hin. unfold leaf. destruct (filter _ n) as [|e l] eqn:Hf; [|by eexists].
  exfalso. apply (not_elem_of_nil (A := list segment * (pattern * H)) ([], ph)). rewrite <- Hf. by apply list_elem_of_filter.
Qed.

Lemma elem_of_literal_child s n r x : (r, x) ∈ literal_child s n ↔ (Literal s :: r, x) ∈ n.
Proof.
  unfold literal_child. rewrite list_elem_of_omap. split.
  - intros ([segs y] & Hin & Heq). simpl in Heq. destruct segs as [|[s'|] segs]; try done.
    case_bool_decide; [|done]. by simplify_eq.
  - intros Hin. eexists. split; [done|]. simpl. by rewrite bool_decide_eq_true_2.
Qed.

Lemma elem_of_empty_child n r x : (r, x) ∈ empty_child n ↔ ∃ name, (Wildcard name :: r, x) ∈ n.
Proof.
  unfold empty_child. rewrite list_elem_of_omap. split.
  - intros ([segs y] & Hin & Heq). simpl in Heq. destruct segs as [|[|name] segs]; try done.
    simplify_eq. by exists name.
  - intros (name & Hin). by eexists.
Qed.

Lemma findChild_literal s n : s ≠ [] → findChild s n = literal_child s n.
Proof. intros Hs. unfold findChild. by rewrite bool_decide_eq_false_2. Qed.

Lemma matchPath_sound path n ph vals : Forall (λ s, s ≠ []) path → matchPath path n = Some (ph, vals) →
  ∃ segs, (segs, ph) ∈ n ∧ fits segs path = Some vals.
Proof.
  intros Hpath. revert n vals. induction Hpath as [|x path Hx _ IH]; intros n vals; simpl.
  - destruct (leaf n) eqn:Hl; simpl; [|done]. intros [= -> <-]. exists []. split; [by apply leaf_some|done].
  - rewrite findChild_literal by done. destruct (matchPath path (literal_child x n)) as [found|] eqn:Hlit.
    + intros [= ->]. destruct (IH _ _ Hlit) as (segs & Hin & Hf). apply elem_of_literal_child in Hin.
      exists (Literal x :: segs). split; [done|]. simpl. by rewrite bool_decide_eq_true_2.
    + case_bool_decide as Hs; [|done]. destruct (matchPath path (empty_child n)) as [[ph' vals']|] eqn:Hw; [|done].
      simpl. intros [= -> <-]. destruct (IH _ _ Hw) as (segs & Hin & Hf).
      apply elem_of_empty_child in Hin as (name & Hin). exists (Wildcard name :: segs). split; [done|].
      simpl. by rewrite bool_decide_eq_false_2, Hf.
Qed.

Lemma matchPath_complete path n segs ph : Forall (λ s, s ≠ []) path →
  (segs, ph) ∈ n → is_Some (fits segs path) → is_Some (matchPath path n).
Proof.
  intros Hpath. revert n segs. induction Hpath as [|x path Hx _ IH]; intros n segs Hin Hf; simpl.
  - destruct segs as [|[] segs]; [|by destruct Hf..]. destruct (leaf_is_some n ph Hin) as [? ->]. by eexists.
  - rewrite findChild_literal by done. destruct (matchPath path (literal_child x n)) eqn:Hlit; [by eexists|].
    destruct segs as [|[s|name] segs]; [by destruct Hf|..].
    + exfalso. pose proof (fits_tail _ _ _ _ Hf) as Htl. destruct Hf as [? Hf]. simpl in Hf.
      case_bool_decide; [|done]. subst s.
      destruct (IH (literal_child x n) segs) as [? Hl]; [by apply elem_of_literal_child|done|congruence].
    + pose proof (fits_tail _ _ _ _ Hf) as Htl. destruct Hf as [? Hf]. simpl in Hf. case_bool_decide as Hs; [done|].
      rewrite bool_decide_eq_true_2 by done.
      destruct (IH (empty_child n) segs) as [? ->]; [by apply elem_of_empty_child; exists name|done|by eexists].
Qed.

Lemma elem_of_method_node m method segs e :
  (segs, e) ∈ method_node m method ↔ e ∈ m ∧ pt_method e.1 = method ∧ segs = pt_segments e.1.
Proof.
  unfold method_node. rewrite list_elem_of_omap. split.
  - intros (e' & Hin & Heq). case_bool_decide; [|done]. by simplify_eq.
  - intros (Hin & Hm & ->). exists e. split; [done|]. by rewrite bool_decide_eq_true_2.
Qed.

Lemma method_match m method path e : Forall (λ s, s ≠ []) path → e ∈ m → pt_method e.1 = method →
  is_Some (fits (pt_segments e.1) path) → is_Some (matchPath path (method_node m method)).
Proof. intros Hp Hin Hm Hf. eapply matchPath_complete; [done| |exact Hf]. by apply elem_of_method_node. Qed.

Lemma method_found m method path p h vals : Forall (λ s, s ≠ []) path →
  matchPath path (method_node m method) = Some (p, h, vals) →
  (p, h) ∈ m ∧ pt_method p = method ∧ fits (pt_segments p) path = Some vals.
Proof.
  intros Hp Hm. destruct (matchPath_sound _ _ _ _ Hp Hm) as (segs & Hin & Hf).
  by apply elem_of_method_node in Hin as (Hin & Hpm & ->).
Qed.

Lemma match_found m method path p h vals : Forall (λ s, s ≠ []) (segments path) →
  match_ m method path = Some (p, h, vals) →
  (p, h) ∈ m ∧ accepts (pt_method p) method ∧ fits (pt_segments p) (segments path) = Some vals.
Proof.
  intros Hp. unfold match_, accepts.
  destruct (matchPath _ (method_node m method)) as [[[p' h'] vals']|] eqn:H1.
  { intros [= -> -> ->]. destruct (method_found _ _ _ _ _ _ Hp H1) as (? & ? & ?). auto 7. }
  case_bool_decide as Hhead.
  - destruct (matchPath _ (method_node m "GET")) as [[[p' h'] vals']|] eqn:H2.
    + intros [= -> -> ->]. destruct (method_found _ _ _ _ _ _ Hp H2) as (? & ? & ?). auto 7.
    + intros H3. destruct (method_found _ _ _ _ _ _ Hp H3) as (? & ? & ?). auto 7.
  - intros H3. destruct (method_found _ _ _ _ _ _ Hp H3) as (? & ? & ?). auto 7.
Qed.

Lemma match_served m method path e : Forall (λ s, s ≠ []) (segments path) → e ∈ m →
  accepts (pt_method e.1) method → is_Some (fits (pt_segments e.1) (segments path)) →
  is_Some (match_ m method path).
Proof.
  intros Hp Hin Ha Hf. unfold match_.
  destruct (matchPath _ (method_node m method)) eqn:H1; [by eexists|].
  destruct Ha as [Hm|[Hm|[Hm ->]]].
  - destruct (method_match m _ _ e Hp Hin Hm Hf). congruence.
  - destruct (if bool_decide _ then _ else _); [by eexists|]. by eapply method_match.
  - rewrite bool_decide_eq_true_2 by done. destruct (method_match m _ _ e Hp Hin Hm Hf) as [? ->]. by eexists.
Qed.

(** The tree finds exactly the registration that serves the request. *)
Lemma match_spec m method path p h vals : unambiguous m → Forall (λ s, s ≠ []) (segments path) →
  match_ m method path = Some (p, h, vals) ↔
  (p, h) ∈ m ∧ accepts (pt_method p) method ∧ fits (pt_segments p) (segments path) = Some vals.
Proof.
  intros Hun Hp. split; [by apply match_found|]. intros (Hin & Ha & Hf).
  destruct (match_served m method path (p, h) Hp Hin Ha) as [[[p' h'] vals'] Hm]; [by eexists|].
  destruct (match_found _ _ _ _ _ _ Hp Hm) as (Hin' & Ha' & Hf').
  assert (Heq : (p', h') = (p, h)) by (eapply serves_once; try done; by eexists).
  simplify_eq. by rewrite Hm.
Qed.

Lemma elem_of_matchingMethods m path method : Forall (λ s, s ≠ []) (segments path) →
  method ∈ matchingMethods m path ↔
  method ≠ "" ∧ ∃ e, e ∈ m ∧ pt_method e.1 = method ∧ is_Some (fits (pt_segments e.1) (segments path)).
Proof.
  intros Hp. unfold matchingMethods. rewrite elem_of_filter, elem_of_list_to_set, list_elem_of_fmap. split.
  - intros ((Hne & [[[p h] vals] Hm]) & _). split; [done|].
    destruct (method_found _ _ _ _ _ _ Hp Hm) as (Hin & Hpm & Hf). exists (p, h). split_and!; [done..|by eexists].
  - intros (Hne & e & Hin & Hm & Hf). split; [split; [done|by eapply method_match]|by exists e].
Qed.

(** No pattern with more than a slash ends in one: a trailing slash adds nothing. *)
Lemma no_slash_fit m path e : slash_alone m → cleanPath path = path → ends_with_slash path = false →
  e ∈ m → ¬ is_Some (fits (pt_segments e.1) (segments (path ++ [47]))).
Proof.
  intros Hsl Hc Hs Hin Hf. destruct (clean_segments_slash path Hc Hs) as (Happ & Hne & _).
  rewrite Happ in Hf. pose proof (Hsl e Hin (fits_last_slash _ _ Hf)) as Hlit.
  apply fits_length in Hf. rewrite Hlit, length_app in Hf. destruct (segments path); [done|simpl in Hf; lia].
Qed.

Lemma no_redirect m method path : slash_alone m → cleanPath path = path →
  matchOrRedirect m method path = Some (match_ m method path).
Proof.
  intros Hsl Hc. unfold matchOrRedirect. destruct (ends_with_slash path) eqn:Hs; [by rewrite andb_false_r|].
  rewrite (bool_decide_eq_false_2 (is_Some (match_ m method (path ++ [47])))); [by rewrite !andb_false_r|].
  intros [[[p h] vals] Hm]. destruct (clean_segments_slash path Hc Hs) as (_ & _ & Hp).
  destruct (match_found _ _ _ _ _ _ Hp Hm) as (Hin & _ & Hf).
  eapply (no_slash_fit m path (p, h)); [done..|by eexists].
Qed.

(** The Allow header. *)
Lemma elem_of_allowed m path method : slash_alone m → (∀ e, e ∈ m → pt_method e.1 ≠ "") → cleanPath path = path →
  method ∈ allowedMethods m path ↔
  ∃ e, e ∈ m ∧ accepts (pt_method e.1) method ∧ is_Some (fits (pt_segments e.1) (segments path)).
Proof.
  intros Hsl Hne Hc. unfold allowedMethods. rewrite elem_of_order_by, elem_of_elements.
  set (ms := matchingMethods m path ∪ _).
  assert (Hms : ∀ method, method ∈ ms ↔
    ∃ e, e ∈ m ∧ pt_method e.1 = method ∧ is_Some (fits (pt_segments e.1) (segments path))).
  { intros method'. unfold ms. rewrite elem_of_union, elem_of_matchingMethods by by apply clean_segments. split.
    - intros [[_ ?]|Hslash]; [done|]. destruct (ends_with_slash path) eqn:Hs; [by apply elem_of_empty in Hslash|].
      destruct (clean_segments_slash path Hc Hs) as (_ & _ & Hp).
      apply elem_of_matchingMethods in Hslash as (_ & e & Hin & _ & Hf); [|done].
      by destruct (no_slash_fit m path e Hsl Hc Hs Hin).
    - intros (e & Hin & <- & Hf). left. split; [by apply Hne|by exists e]. }
  unfold accepts. case_bool_decide as Hget; rewrite ?elem_of_union, ?elem_of_singleton, Hms.
  - apply Hms in Hget as (g & Hg & Hgm & Hgf). split.
    + intros [->|(e & Hin & Hm & Hf)]; [exists g|exists e]; auto 7.
    + intros (e & Hin & [Hm|[Hm|[Hm ->]]] & Hf); [right; by exists e|by destruct (Hne e Hin)|by left].
  - split.
    + intros (e & Hin & Hm & Hf). exists e. auto 7.
    + intros (e & Hin & [Hm|[Hm|[Hm ->]]] & Hf); [by exists e|by destruct (Hne e Hin)|].
      destruct Hget. apply Hms. by exists e.
Qed.

Lemma allowed_sorted m path : StronglySorted (λ x y, String.ltb x y = true) (allowedMethods m path).
Proof. apply (order_by_strict _ (StrictTest0 := collation_test _ bytewise_order)). apply NoDup_elements. Qed.

(** The mux does what it owes. *)
Lemma findHandler_routed m method u : unambiguous m → slash_alone m → (∀ e, e ∈ m → pt_method e.1 ≠ "") →
  method ≠ "CONNECT" → routed m method (EscapedPath u) (findHandler m method u).
Proof.
  intros Hun Hsl Hne Hcon. unfold findHandler. rewrite bool_decide_eq_false_2 by done.
  set (path := EscapedPath u). destruct (decide (cleanPath path = path)) as [Hc|Hc].
  - rewrite Hc, no_redirect by done. rewrite bool_decide_eq_false_2 by auto.
    pose proof (clean_segments path Hc) as Hp.
    destruct (match_ m method path) as [[[p h] vals]|] eqn:Hm.
    { simpl. split; [done|]. by apply match_found. }
    pose proof (elem_of_allowed m path) as Hall. pose proof (allowed_sorted m path) as Hsorted.
    destruct (allowedMethods m path) as [|a allow] eqn:Ha; simpl.
    + split; [done|]. intros e Hin. destruct (fits _ _) eqn:Hf; [|done]. exfalso.
      apply (not_elem_of_nil (pt_method e.1)). apply Hall; [done..|]. exists e. unfold accepts. auto.
    + split_and!; try done; [|intros method'; by apply Hall]. intros Hin.
      apply Hall in Hin as (e & Hin & Hacc & Hf); [|done..].
      destruct (match_served m method path e Hp Hin Hacc Hf). congruence.
  - rewrite bool_decide_eq_true_2 by done. by destruct (matchOrRedirect _ _ _).
Qed.

(** A method that no registration serves finds no handler, whatever the path. *)
Lemma matchPath_nil path : matchPath path ([] : node H) = None.
Proof.
  induction path as [|s path IH]; [done|]. simpl.
  assert (Hc : findChild s ([] : node H) = []) by (unfold findChild; by destruct (bool_decide _)).
  rewrite Hc, IH. by destruct (bool_decide _).
Qed.

Lemma match_none m method path : (∀ e, e ∈ m → ¬ accepts (pt_method e.1) method) → match_ m method path = None.
Proof.
  intros Hno. assert (Hnode : ∀ pm, accepts pm method → matchPath (segments path) (method_node m pm) = None).
  { intros pm Hacc. replace (method_node m pm) with ([] : node H); [apply matchPath_nil|].
    symmetry. apply elem_of_nil_inv. intros [segs e] (Hin & <- & _)%elem_of_method_node. by destruct (Hno e Hin). }
  unfold match_, accepts in *. rewrite Hnode by auto.
  case_bool_decide; rewrite ?Hnode by auto; done.
Qed.

Lemma findHandler_none m method u p h vals : (∀ e, e ∈ m → ¬ accepts (pt_method e.1) method) →
  findHandler m method u ≠ Found p h vals.
Proof.
  intros Hno. unfold findHandler, matchOrRedirect. rewrite !match_none by done.
  by repeat case_match.
Qed.

(** *** Registration *)

Lemma Handle_all_ok m regs : NoDup regs →
  (∀ r, r ∈ regs → is_Some (parsePattern r.1)) →
  (∀ r r' p p', r ∈ regs → r' ∈ regs → parsePattern r.1 = Some p → parsePattern r'.1 = Some p' →
     r = r' ∨ comparePathsAndMethods p p' = Disjoint) →
  (∀ r p e, r ∈ regs → parsePattern r.1 = Some p → e ∈ m → comparePathsAndMethods p e.1 = Disjoint) →
  Handle_all m regs = Some (m ++ omap (λ r, (λ p, (p, r.2)) <$> parsePattern r.1) regs).
Proof.
  intros Hnd. revert m. induction Hnd as [|[pat h] regs Hfresh _ IH]; intros m Hparse Hreg Hm; simpl.
  { by rewrite app_nil_r. }
  destruct (Hparse (pat, h)) as [p Hp]; [by left|]. simpl in Hp. unfold Handle. rewrite Hp. simpl.
  replace (existsb _ m) with false.
  2:{ symmetry. apply not_true_iff_false. rewrite existsb_exists. intros (e & Hin & Hc).
      apply list_elem_of_In in Hin. unfold conflictsWith in Hc.
      rewrite (Hm (pat, h) p e) in Hc; [done|by left|done..]. }
  rewrite IH; [by rewrite <- app_assoc| | |].
  - intros r Hr. apply Hparse. by right.
  - intros r r' q q' Hr Hr'. apply Hreg; by right.
  - intros r q e Hr Hq. rewrite elem_of_app, list_elem_of_singleton. intros [Hin| ->].
    + eapply Hm; [by right|done..].
    + simpl. destruct (Hreg r (pat, h) q p) as [->|]; [by right|by left|done..|done].
Qed.
End mux_lemmas.
