(* ===== verification/Admin.v ===== *)
(** * The admin API ([internal/admin/admin.go])

    Registering and unregistering contracts and planning heals, behind a bearer
    token.  A handler is a computation over the pool of endpoints, the store
    (with other writers between its transactions) and the registry.  A reply
    keeps its status; error texts and logs are left out. *)

From S2P Require Import Prelude HealPlan Db Gaps Rows Registrations Commit Registry Cursor Api Extract Loop Workers Rpc Classify HttpAuth.

(** ** Definitions *)

Definition registrationAnchorMargin : Z := 20.
Definition maxBodyBytes : Z := Z.shiftl 64 10.
Definition maxPlanBodyBytes : Z := Z.shiftl 4 20.
Definition maxPlanIntervals : Z := 20000.
Definition defaultPlanPadding : Z := 300.
Definition maxPlanPadding : Z := Z.shiftl 1 20.

Definition SourceAPI : string := "api".

Definition StatusUnauthorized : Z := 401.
Definition StatusBadGateway : Z := 502.

(** [rr_From] is the raw value of the field, empty when it is absent. *)
Record registerRequest := mkRegisterRequest {
  rr_ContractID : string; rr_Kinds : list string; rr_From : string }.

Record planRequest := mkPlanRequest { pq_Replay : list Interval; pq_Padding : option Z }.

Record contractResponse := mkContractResponse {
  cr_ContractID : string; cr_Network : string; cr_Source : string; cr_Kinds : list string;
  cr_Classification : option string; cr_RegisteredAt : Z; cr_Warnings : list string }.

Definition toResponse (c : Contract) (warnings : list string) : contractResponse :=
  mkContractResponse (ct_ContractID c) (ct_Network c) (ct_Source c) (ct_Kinds c)
    (ct_Classification c) (ct_RegisteredAt c) warnings.

(** [encoding/json] on the shapes of the API: the two bodies, read through
    [MaxBytesReader] with unknown fields refused; a raw value into a string or
    a [uint64]; the classification as text. *)
Class AdminJson := {
  decode_registerRequest : Z → string → option registerRequest;
  decode_planRequest : Z → string → option planRequest;
  raw_string : string → option string;
  raw_uint64 : string → option N;
  marshal_Classification : Classification → option string }.

(** A decoded [uint32] is one. *)
Class AdminJsonLaws (J : AdminJson) : Prop := {
  plan_fields_u32 : ∀ n body r, decode_planRequest n body = Some r →
    Forall (λ iv, is_u32 (iv_From iv) ∧ is_u32 (iv_To iv)) (pq_Replay r) ∧
    ∀ p, pq_Padding r = Some p → is_u32 p }.

(** *** Requests *)

Definition parseFrom `{AdminJson} (raw : string) : option Z :=
  if bool_decide (raw = "") then Some 1
  else match raw_string raw with
       | Some s => if bool_decide (s = "genesis") then Some 1 else None
       | None =>
           match raw_uint64 raw with
           | None => None
           | Some n => if N.eqb n 0 || (max_u32 <? Z.of_N n) then None else Some (u32 (Z.of_N n))
           end
       end.

Definition supportedKind (k : string) : bool :=
  bool_decide (k ∈ [KindEvents; KindState; KindTransfers; KindTrustlines; KindMovements]).

(** What [handleRegister] checks before it looks at the chain. *)
Definition registration_request `{AdminJson} `{SDKValidators} (body : string)
    : reply (registerRequest * Z) :=
  match decode_registerRequest maxBodyBytes body with
  | None => Fail StatusBadRequest
  | Some req =>
      if negb (IsValidContractAddress (rr_ContractID req)) then Fail StatusBadRequest
      else match parseFrom (rr_From req) with
           | None => Fail StatusBadRequest
           | Some targetFrom =>
               if forallb supportedKind (rr_Kinds req) then Reply (req, targetFrom)
               else Fail StatusBadRequest
           end
  end.

(** The classification of a contract without a live instance, and the warning. *)
Definition unknown_classification : Classification :=
  mkClassification TypeUnknown "" [] MethodOpaque.

Definition no_instance_warning (contractID network : string) : string :=
  "contract " +:+ contractID +:+ " has no live instance on " +:+ network +:+
  " (archived after TTL expiry, or never deployed); registered as type unknown with the kinds you supplied. " +:+
  "History is still derived from whatever sources reach; re-register after a restore to classify it properly".

(** The switch on the outcome of [Classify]. *)
Definition accepted (network : string) (req : registerRequest) (out : classified)
    : reply (Classification * list string) :=
  match out with
  | Classified cls => Reply (cls, [])
  | NotOnChain =>
      match rr_Kinds req with
      | _ :: _ => Reply (unknown_classification, [no_instance_warning (rr_ContractID req) network])
      | [] => Fail StatusNotFound
      end
  | Unclassified => Fail StatusBadGateway
  end.

(** The kinds to derive: the request's, or the default of the type. *)
Definition kinds_for (req : registerRequest) (cls : Classification) : list string :=
  match rr_Kinds req with
  | [] => [KindEvents; KindState] ++ (if bool_decide (cls_Type cls = TypeSAC) then [KindTransfers] else [])
  | kinds => kinds
  end.

(** The anchor of the history walk, from what the cursor read said. *)
Definition anchor (cursor : res Cursor) : option Z :=
  match cursor with
  | Ok c => Some (u32 (cur_Sequence c + registrationAnchorMargin))
  | Err e => if bool_decide (e = ErrNoCursor) then Some 0 else None
  end.

(** *** The server *)

(** The state behind the handlers: the RPC client and the registry. *)
Record server := mkServer { sv_client : client; sv_registry : Registry }.

Definition on_client {A} (m : Work client A) : Work server A := λ o s,
  match m o (sv_client s) with
  | Some (a, o, c) => Some (a, o, mkServer c (sv_registry s))
  | None => None
  end.

(** The mounted routes, and what they answer. *)
Inductive route := PostContracts | DeleteContracts (id : string) | PostGapsPlan.
Inductive answer := Registration (r : contractResponse) | NoContent | Planned (r : PlanResult).

Section admin.
Context `{!AdminJson} `{!SDKValidators} `{!Unicode} `{!ClassifySDK} `{S : SDK} `{!RpcJson} `{!Collation}.
Context (urls : list string) (bodyCap : Z) (http : nat → string → request → http_reply) (ctxErr : nat → bool).
Context (w : world) (network token : string).

Abbreviation W := (Work server).

Definition reloadRegistry : W unit :=
  contracts <-w transact w (ListContracts network) ;
  w_modify (λ s, mkServer (sv_client s) (Reload_with contracts (sv_registry s)).2).

(** [handleRegister] after the contract is accepted. *)
Definition register_contract (req : registerRequest) (targetFrom : Z) (cls : Classification)
    (warnings : list string) : W (reply contractResponse) :=
  match marshal_Classification cls with
  | None => w_ret (Fail StatusInternalServerError)
  | Some clsJSON =>
      saved <-w transact w (UpsertContract
        (mkContract network (rr_ContractID req) SourceAPI (kinds_for req cls) (Some clsJSON) 0)) ;
      match saved with
      | Err _ => w_ret (Fail StatusInternalServerError)
      | Ok saved =>
          cursor <-w transact w (LoadCursor network) ;
          match anchor cursor with
          | None => w_ret (Fail StatusInternalServerError)
          | Some nextTo =>
              ensured <-w transact w
                (EnsureBackfill network (ct_ContractID saved) targetFrom nextTo (ct_Kinds saved)) ;
              match ensured with
              | Err _ => w_ret (Fail StatusInternalServerError)
              | Ok _ => reloadRegistry ;;w w_ret (Reply (toResponse saved warnings))
              end
          end
      end
  end.

Definition handleRegister (body : string) : W (reply contractResponse) :=
  match registration_request body with
  | Fail status => w_ret (Fail status)
  | Reply (req, targetFrom) =>
      out <-w on_client (Classify urls bodyCap http ctxErr (rr_ContractID req)) ;
      match accepted network req out with
      | Fail status => w_ret (Fail status)
      | Reply (cls, warnings) => register_contract req targetFrom cls warnings
      end
  end.

Definition handleDelete (id : string) : W (reply unit) :=
  if negb (IsValidContractAddress id) then w_ret (Fail StatusBadRequest)
  else
    existed <-w transact w (DeleteContract network id) ;
    match existed with
    | Err _ => w_ret (Fail StatusInternalServerError)
    | Ok _ => reloadRegistry ;;w w_ret (Reply tt)
    end.

(** What [handlePlan] checks: the intervals and the padding to plan with. *)
Definition plan_request (body : string) : reply (list Interval * Z) :=
  match decode_planRequest maxPlanBodyBytes body with
  | None => Fail StatusBadRequest
  | Some req =>
      if Nat.eqb (length (pq_Replay req)) 0 then Fail StatusBadRequest
      else if maxPlanIntervals <? Z.of_nat (length (pq_Replay req)) then Fail StatusBadRequest
      else if existsb (λ iv, (iv_From iv =? 0) || (iv_To iv <? iv_From iv)) (pq_Replay req)
      then Fail StatusBadRequest
      else match pq_Padding req with
           | None => Reply (pq_Replay req, defaultPlanPadding)
           | Some p => if maxPlanPadding <? p then Fail StatusBadRequest else Reply (pq_Replay req, p)
           end
  end.

Definition handlePlan (body : string) : W (reply PlanResult) :=
  match plan_request body with
  | Fail status => w_ret (Fail status)
  | Reply (replay, padding) =>
      out <-w transact w (PlanHeal network replay padding) ;
      w_ret (or_500 out)
  end.

(** *** Authentication *)

Definition tokenEqual (got want : string) : bool := digestCompare got want =? 1.

(** [auth], on the first Authorization header. *)
Definition auth {A} (header : string) (next : W (reply A)) : W (reply A) :=
  match CutPrefix header "Bearer " with
  | Some t => if tokenEqual t token then next else w_ret (Fail StatusUnauthorized)
  | None => w_ret (Fail StatusUnauthorized)
  end.

Definition map_reply {A B} (f : A → B) (m : W (reply A)) : W (reply B) :=
  r <-w m ; w_ret (reply_bind r (λ a, Reply (f a))).

(** The handlers as [Register] mounts them. *)
Definition dispatch (rt : route) (body : string) : W (reply answer) :=
  match rt with
  | PostContracts => map_reply Registration (handleRegister body)
  | DeleteContracts id => map_reply (λ _, NoContent) (handleDelete id)
  | PostGapsPlan => map_reply Planned (handlePlan body)
  end.

Definition serve (rt : route) (header body : string) : W (reply answer) := auth header (dispatch rt body).

(** The process's surface: the gate in front when a user is configured. *)
Definition surface (user password : string) (path : string) (rt : route) (header body : string)
    : W (reply answer) :=
  if bool_decide (user ≠ "") then
    if Wrap user password token path header then serve rt header body
    else w_ret (Fail StatusUnauthorized)
  else serve rt header body.
End admin.

(** ** Specification *)

Section spec.
Context `{S : SDK} (w : world) (network : string).

(** A request is admitted by its header. *)
Definition admitted (token header : string) : Prop :=
  ∃ t, header = "Bearer " +:+ t ∧ same_secret t token.

(** The transaction number [n] found the database [d] of the call before and,
    after the other writers, left [d'] with the answer [a]. *)
Definition committed {A} (t : Tx A) (n : nat) (d : db) (a : A) (d' : db) : Prop :=
  run (w_now w n) t (w_others w n d) = Ok (a, d').

(** The store's cursor, as it is read. *)
Definition cursor_at (d : db) (c : Cursor) : Prop :=
  ∃ row, db_cursor d !! network = Some row ∧ c = mkCursor (u32 (cur_Sequence row)) (cur_Hash row).

(** The trace of a registration whose first transaction is the [n]th call: the
    row is saved, the anchor is 20 past the cursor then read (0 when there is
    none), and the walk is ensured from it. *)
Definition registered_at (n : nat) (d d' : db) (req : registerRequest) (targetFrom nextTo : Z)
    (saved : Contract) : Prop :=
  ∃ cls json d1 cursor d2,
    committed (UpsertContract (mkContract network (rr_ContractID req) SourceAPI (kinds_for req cls) json 0))
      n d saved d1 ∧
    d2 = w_others w (Datatypes.S n) d1 ∧ anchor cursor = Some nextTo ∧
    (∀ c, cursor = Ok c → cursor_at d2 c) ∧
    committed (EnsureBackfill network (rr_ContractID req) targetFrom nextTo (ct_Kinds saved))
      (Datatypes.S (Datatypes.S n)) d2 tt d'.
End spec.

Section outcome.
Context `{!AdminJson} `{!SDKValidators} `{S : SDK} (w : world) (network : string).

(** What a body has to be for a registration: a request of the API for a contract
    address, from genesis (also by default) or a ledger, with kinds of the five. *)
Definition registrable (body : string) (req : registerRequest) (targetFrom : Z) : Prop :=
  decode_registerRequest maxBodyBytes body = Some req ∧
  IsValidContractAddress (rr_ContractID req) = true ∧
  (rr_From req = "" ∧ targetFrom = 1 ∨
   rr_From req ≠ "" ∧ raw_string (rr_From req) = Some "genesis" ∧ targetFrom = 1 ∨
   rr_From req ≠ "" ∧ raw_string (rr_From req) = None ∧ 1 ≤ targetFrom ≤ max_u32 ∧
     raw_uint64 (rr_From req) = Some (Z.to_N targetFrom)) ∧
  ∀ k, k ∈ rr_Kinds req →
    k = "events" ∨ k = "state" ∨ k = "transfers" ∨ k = "trustlines" ∨ k = "movements".

(** The store refused a step of the registration, after the steps before it: the
    row, the read of the cursor (none being no refusal), the walk. *)
Definition store_refused (o : outside) (req : registerRequest) (targetFrom : Z) (cls : Classification)
    (json : string) (s : server) : Prop :=
  let save := UpsertContract
    (mkContract network (rr_ContractID req) SourceAPI (kinds_for req cls) (Some json) 0) in
  (∃ e o1, transact w save o s = Some (Err e, o1, s)) ∨
  (∃ saved o1 e o2, transact w save o s = Some (Ok saved, o1, s) ∧
     transact w (LoadCursor network) o1 s = Some (Err e, o2, s) ∧ e ≠ ErrNoCursor) ∨
  (∃ saved o1 cursor o2 nextTo e o3, transact w save o s = Some (Ok saved, o1, s) ∧
     transact w (LoadCursor network) o1 s = Some (cursor, o2, s) ∧ anchor cursor = Some nextTo ∧
     transact w (EnsureBackfill network (rr_ContractID req) targetFrom nextTo (kinds_for req cls)) o2 s
       = Some (Err e, o3, s)).

(** A contract that was accepted is registered as requested, or the answer is a
    500 and something failed: the marshalling or a step of the store. *)
Definition registers (o : outside) (req : registerRequest) (targetFrom : Z) (cls : Classification)
    (warnings : list string) (s : server) (r : reply contractResponse) : Prop :=
  match marshal_Classification cls with
  | None => r = Fail StatusInternalServerError
  | Some json =>
      match r with
      | Fail status => status = StatusInternalServerError ∧ store_refused o req targetFrom cls json s
      | Reply resp =>
          ¬ store_refused o req targetFrom cls json s ∧
          cr_ContractID resp = rr_ContractID req ∧ cr_Network resp = network ∧ cr_Source resp = SourceAPI ∧
          (rr_Kinds req ≠ [] → cr_Kinds resp = rr_Kinds req) ∧
          (rr_Kinds req = [] → cr_Kinds resp =
             if decide (cls_Type cls = TypeSAC) then ["events"; "state"; "transfers"] else ["events"; "state"]) ∧
          (json ≠ "" → cr_Classification resp = Some json) ∧
          cr_Warnings resp = warnings
      end
  end.
End outcome.

(** ** Lemmas *)

(** *** Steps *)

Section steps.
Context `{S : SDK} (w : world) (network : string).

(** A transaction ends in the state the other writers left, or is applied there;
    an applied one may still be reported as failed. *)
Lemma transact_cases {St A} (t : Tx A) n d (s : St) :
  ∃ out d', transact w t (mkOutside n d) s = Some (out, mkOutside (Datatypes.S n) d', s) ∧
    match out with
    | Ok a => committed w t n d a d'
    | Err _ => d' = w_others w n d ∨ ∃ a, committed w t n d a d'
    end.
Proof.
  unfold transact, committed. cbn [o_calls o_db].
  destruct (BeginFunc_atomic (w_faults w n) (w_now w n) t (w_others w n d)) as [(e & ->)|(a & d' & -> & Hrun)].
  - eexists _, _. split; [done|]. by left.
  - destruct (w_lost w n); eexists _, _; (split; [done|]); [right; by exists a|done].
Qed.

(** Without faults nor a lost acknowledgement, the answer is the script's. *)
Lemma transact_calm {St A} (t : Tx A) n d (s : St) a d' :
  w_faults w n = no_faults → w_lost w n = false → committed w t n d a d' →
  transact w t (mkOutside n d) s = Some (Ok a, mkOutside (Datatypes.S n) d', s).
Proof.
  unfold transact, committed. cbn [o_calls o_db]. intros -> -> Hrun.
  by rewrite BeginFunc_quiet, Hrun.
Qed.

Lemma ListContracts_reads `{Collation} n d cs d' :
  committed w (ListContracts network) n d cs d' → d' = w_others w n d.
Proof. unfold committed. destruct (run_ListContracts network (w_now w n) (w_others w n d)) as (? & -> & _). by intros [= _ ->]. Qed.

(** A reload is one read: the database is left as the other writers left it. *)
Lemma reload_step `{Collation} n d s :
  ∃ r, reloadRegistry w network (mkOutside n d) s
       = Some (tt, mkOutside (Datatypes.S n) (w_others w n d), mkServer (sv_client s) r).
Proof.
  unfold reloadRegistry, w_bind.
  destruct (transact_cases (ListContracts network) n d s) as (out & d' & -> & Hout).
  assert (d' = w_others w n d) as ->.
  { destruct out as [cs|e]; [by eapply ListContracts_reads|].
    destruct Hout as [->|(cs & Hc)]; [done|by eapply ListContracts_reads]. }
  unfold w_modify. by eexists.
Qed.

Lemma LoadCursor_reads n d c d' : committed w (LoadCursor network) n d c d' →
  d' = w_others w n d ∧ cursor_at network d' c.
Proof.
  unfold committed, LoadCursor. rewrite run_bind. simpl.
  destruct (db_cursor (w_others w n d) !! network) as [row|] eqn:Hc; simpl; [|done].
  intros [= <- <-]. split; [done|]. by exists row.
Qed.

Lemma LoadCursor_outcome n d (s : server) : ∃ out,
  transact w (LoadCursor network) (mkOutside n d) s = Some (out, mkOutside (Datatypes.S n) (w_others w n d), s) ∧
  ∀ c, out = Ok c → cursor_at network (w_others w n d) c.
Proof.
  destruct (transact_cases (LoadCursor network) n d s) as (out & d' & Htr & Hout). exists out.
  destruct out as [c|e].
  - destruct (LoadCursor_reads n d c d' Hout) as [-> Hc]. split; [done|]. by intros ? [= <-].
  - split; [|done]. destruct Hout as [->|(c & Hc)]; [done|].
    by destruct (LoadCursor_reads n d c d' Hc) as [-> _].
Qed.
End steps.

Section register.
Context `{!AdminJson} `{!SDKValidators} `{!Unicode} `{!ClassifySDK} `{S : SDK} `{!RpcJson} `{!Collation}.
Context (urls : list string) (bodyCap : Z) (http : nat → string → request → http_reply) (ctxErr : nat → bool).
Context (w : world) (network : string).

Lemma saved_id c n d saved d' : committed w (UpsertContract c) n d saved d' →
  ct_ContractID saved = ct_ContractID c ∧ ct_Network saved = ct_Network c ∧
  ct_Source saved = ct_Source c ∧ ct_Kinds saved = ct_Kinds c.
Proof.
  unfold committed. intros (_ & -> & _)%UpsertContract_Ok. simpl. unfold registered_row.
  by destruct (db_contracts _ !! _).
Qed.

(** A registration either went through all its steps or answered 500. *)
Lemma register_contract_steps req targetFrom cls warnings n d s :
  ∃ r o' s', register_contract w network req targetFrom cls warnings (mkOutside n d) s = Some (r, o', s') ∧
    (r = Fail StatusInternalServerError ∨
     ∃ saved nextTo d', r = Reply (toResponse saved warnings) ∧ ct_Kinds saved = kinds_for req cls ∧
       ct_ContractID saved = rr_ContractID req ∧ ct_Network saved = network ∧ ct_Source saved = SourceAPI ∧
       registered_at w network n d d' req targetFrom nextTo saved ∧
       o' = mkOutside (4 + n) (w_others w (3 + n) d')).
Proof.
  unfold register_contract. destruct (marshal_Classification cls) as [json|]; [|by eexists _, _, _; auto].
  set (c := mkContract _ _ _ _ _ _). unfold w_bind.
  destruct (transact_cases w (UpsertContract c) n d s) as (saved & d1 & -> & Hsaved).
  destruct saved as [saved|e]; [|by eexists _, _, _; auto].
  destruct (saved_id _ _ _ _ _ Hsaved) as (Hid & Hnet & Hsrc & Hkinds).
  destruct (LoadCursor_outcome w network (Datatypes.S n) d1 s) as (cursor & -> & Hcursor).
  destruct (anchor cursor) as [nextTo|] eqn:Hanchor; [|by eexists _, _, _; auto].
  set (d2 := w_others w (Datatypes.S n) d1) in *.
  destruct (transact_cases w (EnsureBackfill network (ct_ContractID saved) targetFrom nextTo (ct_Kinds saved))
              (Datatypes.S (Datatypes.S n)) d2 s) as (out & d3 & -> & Hout).
  destruct out as [[]|e]; [|by eexists _, _, _; auto].
  destruct (reload_step w network (Datatypes.S (Datatypes.S (Datatypes.S n))) d3 s) as (reg & ->).
  eexists _, _, _. split; [done|]. right. exists saved, nextTo, d3. split; [done|].
  split_and!; try done. exists cls, (Some json), d1, cursor, d2. split; [done|]. split; [done|].
  split; [done|]. split; [done|]. rewrite Hid in Hout. exact Hout.
Qed.
Lemma saved_classification c n d saved d' json : committed w (UpsertContract c) n d saved d' →
  ct_Classification c = Some json → json ≠ "" → ct_Classification saved = Some json.
Proof.
  unfold committed. intros (_ & -> & _)%UpsertContract_Ok Hc Hj. simpl. unfold registered_row. rewrite Hc. simpl.
  rewrite bool_decide_eq_false_2 by done. by destruct (db_contracts _ !! _).
Qed.

Lemma register_contract_registers req targetFrom cls warnings o s :
  ∃ r o' s', register_contract w network req targetFrom cls warnings o s = Some (r, o', s') ∧
    registers w network o req targetFrom cls warnings s r.
Proof.
  unfold register_contract, registers. destruct (marshal_Classification cls) as [json|]; [|by eexists _, _, _].
  set (c := mkContract _ _ _ _ _ _). unfold store_refused. fold c. unfold w_bind. destruct o as [n d].
  destruct (transact_cases w (UpsertContract c) n d s) as (saved & d1 & Hsave & Hsaved). rewrite Hsave.
  destruct saved as [saved|e]; [|eexists _, _, _; split; [done|split; [done|left]; by eexists _, _]].
  destruct (saved_id _ _ _ _ _ Hsaved) as (Hid & Hnet & Hsrc & Hkinds).
  destruct (LoadCursor_outcome w network (Datatypes.S n) d1 s) as (cursor & Hread & Hcursor). rewrite Hread.
  destruct (anchor cursor) as [nextTo|] eqn:Hanchor.
  2: { eexists _, _, _. split; [done|]. split; [done|]. right. left. destruct cursor as [cu|e]; [done|].
    simpl in Hanchor. case_bool_decide; [done|]. by eexists _, _, _, _. }
  set (d2 := w_others w (Datatypes.S n) d1) in *. rewrite Hid, Hkinds. cbn [c ct_ContractID ct_Kinds].
  destruct (transact_cases w (EnsureBackfill network (rr_ContractID req) targetFrom nextTo (kinds_for req cls))
              (Datatypes.S (Datatypes.S n)) d2 s) as (out & d3 & Hens & Hout). rewrite Hens.
  destruct out as [[]|e].
  2: { eexists _, _, _. split; [done|]. split; [done|]. right. right. by eexists _, _, _, _, _, _, _. }
  destruct (reload_step w network (Datatypes.S (Datatypes.S (Datatypes.S n))) d3 s) as (reg & ->).
  eexists _, _, _. split; [done|]. cbn [toResponse cr_ContractID cr_Network cr_Source cr_Kinds cr_Classification cr_Warnings].
  split; [|split_and!; try done].
  - intros [(e & o1 & He)|[(sv & o1 & e & o2 & He & Hl & Hn)|(sv & o1 & cu & o2 & nt & e & o3 & He & Hl & Ha & Hx)]].
    + congruence.
    + assert (o1 = mkOutside (Datatypes.S n) d1) as -> by congruence. rewrite Hread in Hl.
      assert (cursor = Err e) as -> by congruence. simpl in Hanchor. by rewrite bool_decide_eq_false_2 in Hanchor.
    + assert (o1 = mkOutside (Datatypes.S n) d1) as -> by congruence. rewrite Hread in Hl.
      assert (cu = cursor ∧ o2 = mkOutside (Datatypes.S (Datatypes.S n)) d2) as [-> ->] by (split; congruence).
      assert (nt = nextTo) as -> by congruence. congruence.
  - intros Hk. rewrite Hkinds. cbn [c ct_Kinds]. unfold kinds_for. by destruct (rr_Kinds req).
  - intros Hk. rewrite Hkinds. cbn [c ct_Kinds]. unfold kinds_for. rewrite Hk. by case_bool_decide; case_decide.
  - by apply (saved_classification c n d saved d1 json).
Qed.
End register.

(** *** Validation *)

Section validation.
Context `{!AdminJson} `{!SDKValidators}.

Lemma parseFrom_range raw n : parseFrom raw = Some n → 1 ≤ n ≤ max_u32.
Proof.
  unfold parseFrom. case_bool_decide; [by intros [= <-]|].
  destruct (raw_string raw) as [s|].
  { case_bool_decide; [by intros [= <-]|done]. }
  destruct (raw_uint64 raw) as [x|]; [|done]. destruct (N.eqb_spec x 0); [done|]. simpl.
  destruct (Z.ltb_spec max_u32 (Z.of_N x)); [done|]. intros [= <-]. rewrite u32_small by uarith. lia.
Qed.

(** An invalid body is a bad request; a valid one names a contract, a target in
    range and kinds the indexer derives. *)
Lemma registration_request_spec body :
  match registration_request body with
  | Fail status => status = StatusBadRequest
  | Reply (req, targetFrom) =>
      decode_registerRequest maxBodyBytes body = Some req ∧
      IsValidContractAddress (rr_ContractID req) = true ∧ 1 ≤ targetFrom ≤ max_u32 ∧
      parseFrom (rr_From req) = Some targetFrom ∧ Forall (λ k, supportedKind k = true) (rr_Kinds req)
  end.
Proof.
  unfold registration_request. destruct (decode_registerRequest maxBodyBytes body) as [req|]; [|done].
  destruct (IsValidContractAddress (rr_ContractID req)) eqn:Hid; simpl; [|done].
  destruct (parseFrom (rr_From req)) as [n|] eqn:Hn; [|done].
  destruct (forallb supportedKind (rr_Kinds req)) eqn:Hk; [|done].
  split_and!; try done; try (apply parseFrom_range in Hn; lia).
  rewrite forallb_forall in Hk. apply Forall_forall. intros k Hin. by apply Hk, list_elem_of_In.
Qed.

(** The validation accepts exactly the registrable bodies. *)
Lemma registration_request_exact body req targetFrom :
  registration_request body = Reply (req, targetFrom) ↔ registrable body req targetFrom.
Proof.
  unfold registration_request, registrable. split.
  - destruct (decode_registerRequest maxBodyBytes body) as [req'|]; [|done].
    destruct (IsValidContractAddress (rr_ContractID req')) eqn:Hid; simpl; [|done].
    destruct (parseFrom (rr_From req')) as [n|] eqn:Hn; [|done].
    destruct (forallb supportedKind (rr_Kinds req')) eqn:Hk; [|done]. intros [= <- <-].
    split; [done|]. split; [done|]. split.
    + unfold parseFrom in Hn. case_bool_decide as Hne; [injection Hn as <-; by left|right].
      destruct (raw_string _) as [str|] eqn:Hs.
      { case_bool_decide as Hg; [|done]. injection Hn as <-. left. by rewrite Hg. }
      destruct (raw_uint64 _) as [x|] eqn:Hx; [|done]. destruct (N.eqb_spec x 0); [done|]. simpl in Hn.
      destruct (Z.ltb_spec max_u32 (Z.of_N x)); [done|]. injection Hn as <-. right. rewrite u32_small by uarith.
      rewrite N2Z.id. split_and!; try done; lia.
    + intros k Hin. rewrite forallb_forall in Hk. specialize (Hk k ltac:(by apply list_elem_of_In)).
      apply bool_decide_eq_true in Hk. rewrite !elem_of_cons, elem_of_nil in Hk.
      unfold KindEvents, KindState, KindTransfers, KindTrustlines, KindMovements in Hk. tauto.
  - intros (-> & -> & Hfrom & Hk). simpl.
    assert (parseFrom (rr_From req) = Some targetFrom) as ->.
    { unfold parseFrom. destruct Hfrom as [[-> ->]|[(Hne & Hs & ->)|(Hne & Hs & Ht & Hn)]]; [done| |];
        rewrite bool_decide_eq_false_2, Hs by done; [done|]. rewrite Hn.
      destruct (N.eqb_spec (Z.to_N targetFrom) 0); [lia|]. simpl. rewrite Z2N.id by lia.
      destruct (Z.ltb_spec max_u32 targetFrom); [lia|]. by rewrite u32_small by uarith. }
    assert (forallb supportedKind (rr_Kinds req) = true) as ->; [|done]. apply forallb_forall.
    intros k Hin%list_elem_of_In%Hk. unfold supportedKind. apply bool_decide_eq_true. rewrite !elem_of_cons.
    unfold KindEvents, KindState, KindTransfers, KindTrustlines, KindMovements. tauto.
Qed.

Lemma kinds_for_cases req cls : kinds_for req cls = rr_Kinds req ∧ rr_Kinds req ≠ [] ∨
  rr_Kinds req = [] ∧ (kinds_for req cls = [KindEvents; KindState] ∨
                        kinds_for req cls = [KindEvents; KindState; KindTransfers]).
Proof.
  unfold kinds_for. destruct (rr_Kinds req); [|by left]. right. split; [done|].
  case_bool_decide; [by right|by left].
Qed.

(** What is planned was checked: between one and the maximum of intervals, each
    a range of ledgers, and a padding in range. *)
Lemma plan_request_spec `{!AdminJsonLaws _} body :
  match plan_request body with
  | Fail status => status = StatusBadRequest
  | Reply (replay, padding) =>
      1 ≤ Z.of_nat (length replay) ≤ maxPlanIntervals ∧ Forall valid_interval replay ∧
      0 ≤ padding ≤ maxPlanPadding ∧
      ∃ req, decode_planRequest maxPlanBodyBytes body = Some req ∧ replay = pq_Replay req ∧
        padding = default defaultPlanPadding (pq_Padding req)
  end.
Proof.
  unfold plan_request. destruct (decode_planRequest maxPlanBodyBytes body) as [req|] eqn:Hd; [|done].
  destruct (plan_fields_u32 _ _ _ Hd) as [Hu Hp].
  destruct (Nat.eqb_spec (length (pq_Replay req)) 0); [done|].
  destruct (Z.ltb_spec maxPlanIntervals (Z.of_nat (length (pq_Replay req)))); [done|].
  destruct (existsb _ (pq_Replay req)) eqn:Hex; [done|].
  assert (Hv : Forall valid_interval (pq_Replay req)).
  { rewrite Forall_forall in Hu |- *. intros iv Hin. destruct (Hu iv Hin) as [Hf Ht].
    assert (Hiv : (iv_From iv =? 0) || (iv_To iv <? iv_From iv) = false).
    { apply not_true_iff_false. intros Htrue. apply not_true_iff_false in Hex. apply Hex, existsb_exists.
      exists iv. split; [by apply list_elem_of_In|done]. }
    apply orb_false_iff in Hiv as [?%Z.eqb_neq ?%Z.ltb_ge]. unfold valid_interval. uarith. }
  destruct (pq_Padding req) as [p|] eqn:Hpad.
  - specialize (Hp p eq_refl). destruct (Z.ltb_spec maxPlanPadding p); [done|].
    split; [lia|]. split; [done|]. split; [uarith|]. exists req. by rewrite Hpad.
  - split; [lia|]. split; [done|]. split; [done|]. exists req. by rewrite Hpad.
Qed.
End validation.

(** *** Registering again *)

Section again.
Context `{S : SDK} (w : world) (network : string).

(** Nobody else writes, and nothing fails. *)
Definition calm : Prop := ∀ n d, w_others w n d = d.

(** The row of a registration after its trace, and the walk it ensured. *)
Lemma registered_rows n d d' req targetFrom nextTo saved :
  calm → backfill_wf d → 1 ≤ targetFrom ≤ max_u32 →
  registered_at w network n d d' req targetFrom nextTo saved →
  is_u32 nextTo ∧ ∃ row d1,
    db_contracts d' !! (network, rr_ContractID req) = Some row ∧
    saved = contract_of ((network, rr_ContractID req), row) ∧ backfill_wf d1 ∧
    db_backfill d1 = db_backfill d ∧
    run (w_now w (Datatypes.S (Datatypes.S n)))
      (EnsureBackfill network (rr_ContractID req) targetFrom nextTo (ct_Kinds saved)) d1 = Ok (tt, d').
Proof.
  intros Hcalm Hwf Ht (cls & json & d1 & cursor & d2 & Hup & -> & Hanchor & Hcursor & Hens).
  unfold committed in Hup, Hens. rewrite Hcalm in Hup. rewrite !Hcalm in Hens. apply UpsertContract_Ok in Hup as (_ & Hsaved & Hd1).
  cbn [ct_Network ct_ContractID] in Hsaved, Hd1. symmetry in Hsaved, Hd1.
  assert (Hb1 : db_backfill d1 = db_backfill d) by (rewrite <- Hd1; by autorewrite with sierpe_simp).
  assert (Hwf1 : backfill_wf d1) by (unfold backfill_wf in *; by rewrite Hb1).
  split.
  { unfold anchor in Hanchor. destruct cursor as [c|e]; [|case_bool_decide; [|done]; injection Hanchor as <-; uarith].
    injection Hanchor as <-. apply u32_range. }
  destruct (EnsureBackfill_frame _ _ _ _ _ _ _ _ _ Hwf1 Hens) as [_ Hrest].
  assert (Hc : db_contracts d' = db_contracts d1) by (apply (f_equal db_contracts) in Hrest; by destruct d', d1).
  eexists _, d1. split_and!; [|symmetry; exact Hsaved|done|done|exact Hens].
  rewrite Hc, <- Hd1. autorewrite with sierpe_simp. apply lookup_insert_eq.
Qed.

(** The same registration saved again leaves its row. *)
Lemma upsert_again now req kinds json row d saved d1 :
  db_contracts d !! (network, rr_ContractID req) = Some row →
  run now (UpsertContract (mkContract network (rr_ContractID req) SourceAPI kinds json 0)) d = Ok (saved, d1) →
  c_source row = SourceAPI → ct_Kinds saved = c_kinds row → ct_Classification saved = c_classification row →
  d1 = d ∧ saved = contract_of ((network, rr_ContractID req), row).
Proof.
  intros Hold (_ & Es & Ed)%UpsertContract_Ok. cbn [ct_Network ct_ContractID] in Es, Ed. rewrite Hold in Es, Ed.
  revert Es Ed. set (R := registered_row _ _ _). intros -> -> Hsrc Hk Hc. assert (HR : R = row).
  { unfold R, contract_of, registered_row in Hk, Hc |- *. cbn in Hk, Hc |- *. destruct row. cbn in *. congruence. }
  rewrite HR. split; [|done]. destruct d. unfold set_contracts. cbn in *. f_equal. by apply insert_id.
Qed.
End again.

(** *** Successful registrations *)

Section success.
Context `{!AdminJson} `{!SDKValidators} `{!Unicode} `{!ClassifySDK} `{S : SDK} `{!RpcJson} `{!Collation}.
Context (urls : list string) (bodyCap : Z) (http : nat → string → request → http_reply) (ctxErr : nat → bool).
Context (w : world) (network : string).

Lemma upsert_backfill c n d saved d1 : committed w (UpsertContract c) n d saved d1 →
  db_backfill d1 = db_backfill (w_others w n d).
Proof.
  unfold committed. intros (_ & _ & ->)%UpsertContract_Ok. by autorewrite with sierpe_simp.
Qed.

Lemma upsert_cursor c n d saved d1 : committed w (UpsertContract c) n d saved d1 →
  db_cursor d1 = db_cursor (w_others w n d).
Proof.
  unfold committed. intros (_ & _ & ->)%UpsertContract_Ok. by destruct (w_others w n d).
Qed.

(** A finished walk with watermark 0 vouches for every ledger. *)
Lemma complete_from_row d1 d2 d3 d4 contract kind kinds target now from to cursorSeq :
  db_backfill d4 !! (network, ct_ContractID contract) = Some (mkBackfillRow target 0 true None kinds now) →
  HasKind contract kind = true → kind ∈ kinds → 1 ≤ from → 0 < to ≤ cursorSeq →
  scanStatus false from to (coverage (reader_at network d1 d2 d3 d4) contract kind from to cursorSeq) cursorSeq
  = scanComplete.
Proof.
  intros Hrow Hk Hin Hfrom Hto. unfold scanStatus, coverage. rewrite Hk. cbn [negb reader_at rd_GetBackfill].
  unfold GetBackfill. cbn. rewrite Hrow. cbn -[CoversKind].
  assert (Hc : ∀ b, bf_CoveredKinds b = kinds → CoversKind b kind = true)
    by (intros b Hb; apply CoversKind_spec; by rewrite Hb).
  rewrite Hc by done. cbn. rewrite (proj2 (Z.eqb_neq to 0)), (proj2 (Z.ltb_ge cursorSeq to)) by lia. cbn.
  destruct (Z.ltb_spec (u32 (u32 0 + 1)) from) as [|Hge].
  - by rewrite Z.ltb_irrefl.
  - change (u32 (u32 0 + 1)) with 1 in *. by rewrite (proj2 (Z.ltb_ge from 1)) by lia.
Qed.

(** A success comes with its trace. *)
Lemma handleRegister_success body o o' s s' resp :
  in_pool urls (sv_client s) → reads_bytes →
  handleRegister urls bodyCap http ctxErr w network body o s = Some (Reply resp, o', s') →
  ∃ req targetFrom nextTo saved warnings n d', registration_request body = Reply (req, targetFrom) ∧
    1 ≤ targetFrom ≤ max_u32 ∧ resp = toResponse saved warnings ∧
    registered_at w network n (o_db o) d' req targetFrom nextTo saved ∧ o_db o' = w_others w (3 + n) d'.
Proof.
  intros Hp Hread. assert (Hlen : (0 < length urls)%nat) by (unfold in_pool in Hp; lia).
  unfold handleRegister. pose proof (registration_request_spec body) as Hreq.
  destruct (registration_request body) as [[req target]|status]; [|done].
  destruct Hreq as (_ & _ & Htarget & _ & _). destruct o as [n0 d].
  destruct (Classify_runs urls bodyCap http ctxErr (rr_ContractID req) (sv_client s) Hlen Hread (mkOutside n0 d))
    as (out & n & c' & Hcls & _). cbn [o_db] in *. unfold w_bind, on_client. rewrite Hcls.
  destruct (accepted network req out) as [[cls warnings]|status]; [|done].
  destruct (register_contract_steps w network req target cls warnings n d (mkServer c' (sv_registry s)))
    as (r & o1 & s1 & -> & Hr). intros [= -> -> ->].
  destruct Hr as [|(saved & nextTo & d' & Hresp & _ & _ & _ & _ & Hreg & ->)]; [done|].
  assert (Hr : resp = toResponse saved warnings) by congruence. exists req, target, nextTo, saved, warnings, n, d'.
  do 3 (split; [done|]). by split.
Qed.
End success.

(** A request that does not carry the token is refused by every admin handler. *)
Lemma serve_refused `{!AdminJson} `{!SDKValidators} `{!Unicode} `{!ClassifySDK} `{S : SDK} `{!RpcJson} `{!Collation}
    (urls : list string) (bodyCap : Z) (http : nat → string → request → http_reply) (ctxErr : nat → bool)
    (w : world) (network token : string) (rt : route) (header body : string) (o : outside) (s : server) :
  ¬ admitted token header →
  serve urls bodyCap http ctxErr w network token rt header body o s = Some (Fail StatusUnauthorized, o, s).
Proof.
  intros Hno. unfold serve, auth. destruct (CutPrefix header "Bearer ") as [t|] eqn:Ht; [|done].
  unfold tokenEqual. destruct (Z.eqb_spec (digestCompare t token) 1) as [Hd|]; [|done].
  destruct Hno. exists t. split; [by apply CutPrefix_spec|by apply digestCompare_same].
Qed.

(** ** Properties *)

(** No admin operation without the token.  Through the surface, with or
    without the gate in front, a request whose header does not carry the admin
    token (or a SHA-256 collision with it) is answered 401 and does nothing: no
    call is made, no state changes.  A request that carries it reaches its
    handler, also when a user and a password are configured that it does not
    carry. *)
Theorem admin_gate `{!AdminJson} `{!SDKValidators} `{!Unicode} `{!ClassifySDK} `{S : SDK} `{!RpcJson} `{!Collation}
    (urls : list string) (bodyCap : Z) (http : nat → string → request → http_reply) (ctxErr : nat → bool)
    (w : world) (network token user password path : string) (rt : route) (header body : string)
    (o : outside) (s : server) :
  let reply := surface urls bodyCap http ctxErr w network token user password path rt header body o s in
  (¬ admitted token header → reply = Some (Fail StatusUnauthorized, o, s)) ∧
  (admitted token header → token ≠ "" →
     reply = dispatch urls bodyCap http ctxErr w network rt body o s).
Proof.
  unfold surface. split.
  - intros Hno. case_bool_decide; [|by apply serve_refused]. destruct (Wrap _ _ _ _ _); [by apply serve_refused|done].
  - intros (t & Ht & Hsame) Htok. apply CutPrefix_spec in Ht.
    assert (Hin : serve urls bodyCap http ctxErr w network token rt header body o s
                  = dispatch urls bodyCap http ctxErr w network rt body o s).
    { unfold serve, auth, tokenEqual. rewrite Ht. by rewrite (proj2 (digestCompare_same _ _) Hsame). }
    case_bool_decide; [|done]. assert (HW : Wrap user password token path header = true); [|rewrite HW; exact Hin].
    apply digestCompare_same in Hsame. unfold Wrap. rewrite Ht, Hsame.
    rewrite (bool_decide_eq_true_2 (token ≠ "")) by done.
    by repeat case_match.
Qed.

(** C22.  Every branch of a registration.  The handler always answers.  It answers
    400, having done nothing, exactly for a body that is not registrable: one that
    does not decode, with an invalid address, an origin that is neither genesis nor
    a positive 32-bit ledger, or a kind outside the five.  A registrable one is
    classified, which touches neither the store nor the registry; a contract that
    cannot be read is a 502; one of which the pool answered that its live instance
    does not exist is a 404 without kinds; and neither asks the store.  What is
    accepted is registered, or answered 500 exactly when the classification could
    not be marshalled or the store refused one of the three steps.  A success
    answers for the requested contract and network, with the classification, the
    kinds requested or the default of its type (transfers for an asset contract
    alone), and with the warning exactly when it was accepted without a live
    instance. *)
Theorem handleRegister_outcome `{!AdminJson} `{!SDKValidators} `{!Unicode} `{!ClassifySDK} `{S : SDK} `{!RpcJson}
    `{!Collation} (urls : list string) (bodyCap : Z) (http : nat → string → request → http_reply)
    (ctxErr : nat → bool) (w : world) (network body : string) (o : outside) (s : server) :
  in_pool urls (sv_client s) → reads_bytes →
  ∃ r o' s', handleRegister urls bodyCap http ctxErr w network body o s = Some (r, o', s') ∧
  (r = Fail StatusBadRequest ↔ ¬ ∃ req targetFrom, registrable body req targetFrom) ∧
  (r = Fail StatusBadRequest → o' = o ∧ s' = s) ∧
  ∀ req targetFrom, registrable body req targetFrom →
    ∃ out n c, Classify urls bodyCap http ctxErr (rr_ContractID req) o (sv_client s)
        = Some (out, mkOutside n (o_db o), c) ∧
      let o1 := mkOutside n (o_db o) in
      let s1 := mkServer c (sv_registry s) in
      match out with
      | Unclassified => r = Fail StatusBadGateway ∧ o' = o1 ∧ s' = s1
      | NotOnChain =>
          (∃ raw key, strkey_DecodeContract (rr_ContractID req) = Some raw ∧
             MarshalBase64_key (InstanceKey (copy32 raw)) = SOk key ∧ said_entries urls bodyCap http key []) ∧
          (rr_Kinds req = [] → r = Fail StatusNotFound ∧ o' = o1 ∧ s' = s1) ∧
          (rr_Kinds req ≠ [] → registers w network o1 req targetFrom unknown_classification
             [no_instance_warning (rr_ContractID req) network] s1 r)
      | Classified cls => registers w network o1 req targetFrom cls [] s1 r
      end.
Proof.
  intros Hp Hread. assert (Hlen : (0 < length urls)%nat) by (unfold in_pool in Hp; lia).
  unfold handleRegister. pose proof (registration_request_spec body) as Hreq.
  pose proof (registration_request_exact body) as Hexact.
  destruct (registration_request body) as [[req target]|status] eqn:Hr.
  2: { subst. eexists _, _, _. split; [done|]. split; [split; [|done]|split; [done|]].
    - intros _ (req & t & Ht%Hexact). done.
    - intros req t Ht%Hexact. done. }
  destruct o as [n0 d].
  destruct (Classify_runs urls bodyCap http ctxErr (rr_ContractID req) (sv_client s) Hlen Hread (mkOutside n0 d))
    as (out & n & c' & Hrun & Hverdict). cbn [o_db] in *.
  unfold w_bind, on_client. rewrite Hrun. set (s1 := mkServer c' (sv_registry s)).
  enough (∃ r o' s',
    match accepted network req out with
    | Fail status => w_ret (Fail status)
    | Reply (cls, warnings) => register_contract w network req target cls warnings
    end (mkOutside n d) s1 = Some (r, o', s') ∧ r ≠ Fail StatusBadRequest ∧
    match out with
    | Unclassified => r = Fail StatusBadGateway ∧ o' = mkOutside n d ∧ s' = s1
    | NotOnChain =>
        (rr_Kinds req = [] → r = Fail StatusNotFound ∧ o' = mkOutside n d ∧ s' = s1) ∧
        (rr_Kinds req ≠ [] → registers w network (mkOutside n d) req target unknown_classification
           [no_instance_warning (rr_ContractID req) network] s1 r)
    | Classified cls => registers w network (mkOutside n d) req target cls [] s1 r
    end) as (r & o' & s' & Hm & Hno & Hout).
  { exists r, o', s'. split; [exact Hm|]. split; [|split; [done|]].
    - split; [done|]. intros Hnone. destruct Hnone. exists req, target. by apply Hexact.
    - intros req' target' Ht%Hexact. injection Ht as <- <-. exists out, n, c'. split; [exact Hrun|].
      destruct out; [exact Hout| |exact Hout]. split; [by eapply verdict_missing|exact Hout]. }
  assert (H400 : ∀ o cls warnings s r, registers w network o req target cls warnings s r → r ≠ Fail StatusBadRequest).
  { unfold registers. intros ? cls ? ? r Hg ->. destruct (marshal_Classification cls); [by destruct Hg|done]. }
  destruct out as [cls| |]; simpl accepted.
  - destruct (register_contract_registers w network req target cls [] (mkOutside n d) s1) as (r & o' & s' & Hreg & Hout).
    exists r, o', s'. split; [exact Hreg|]. split; [by eapply H400|done].
  - unfold accepted. destruct (rr_Kinds req) as [|k ks] eqn:Hks; [by eexists _, _, _|].
    destruct (register_contract_registers w network req target unknown_classification
      [no_instance_warning (rr_ContractID req) network] (mkOutside n d) s1) as (r & o' & s' & Hreg & Hout).
    exists r, o', s'. split; [exact Hreg|]. split; [by eapply H400|done].
  - by eexists _, _, _.
Qed.

(** C27.  A registration loses no ledger between its walk and the live loop, and
    claims none.  When it succeeds, the row was saved first, the cursor read
    after it, and the walk ensured from 20 ledgers above that cursor (in 32
    bits), so that what the loop ingests with an older snapshot is walked; what
    the contract's row then vouches for was vouched for before, or lies above
    the anchor, and only for kinds the registration derives; and a walk that is
    asked for something new is open. *)
Theorem handleRegister_anchored `{!AdminJson} `{!SDKValidators} `{!Unicode} `{!ClassifySDK} `{S : SDK} `{!RpcJson}
    `{!Collation} (urls : list string) (bodyCap : Z) (http : nat → string → request → http_reply)
    (ctxErr : nat → bool) (w : world) (network body : string) (o o' : outside) (s s' : server)
    (resp : contractResponse) :
  in_pool urls (sv_client s) → reads_bytes →
  backfill_wf (o_db o) → (∀ n d, backfill_wf d → backfill_wf (w_others w n d)) →
  handleRegister urls bodyCap http ctxErr w network body o s = Some (Reply resp, o', s') →
  ∃ req targetFrom nextTo saved json n d1 cursor d' b',
    registration_request body = Reply (req, targetFrom) ∧ resp = toResponse saved (cr_Warnings resp) ∧
    committed w (UpsertContract (mkContract network (rr_ContractID req) SourceAPI (cr_Kinds resp) json 0))
      n (o_db o) saved d1 ∧
    match cursor with
    | Ok c => cursor_at network (w_others w (1 + n) d1) c ∧ nextTo = u32 (cur_Sequence c + 20)
    | Err e => e = ErrNoCursor ∧ nextTo = 0
    end ∧
    o_db o' = w_others w (3 + n) d' ∧ backfill_wf d' ∧
    db_backfill d' !! (network, rr_ContractID req) = Some b' ∧
    (∀ k, k ∈ b_covered_kinds b' → k ∈ cr_Kinds resp) ∧ b_target_from b' ≤ targetFrom ∧
    match db_backfill (w_others w (2 + n) (w_others w (1 + n) d1)) !! (network, rr_ContractID req) with
    | None => b_next_to b' = nextTo ∧ (b_done b' = true ↔ nextTo < targetFrom)
    | Some b => (∀ k l, vouches b' k l → vouches b k l ∨ nextTo < l) ∧
                (asks_new b targetFrom (cr_Kinds resp) → b_done b' = false)
    end.
Proof.
  intros Hp Hread Hwf Hothers Hrun.
  destruct (handleRegister_success urls bodyCap http ctxErr w network body o o' s s' resp Hp Hread Hrun)
    as (req & target & nextTo & saved & warnings & n & d' & Hreq & Htarget & -> & Hreg & Hdb).
  destruct Hreg as (cls & json & d1 & cursor & d2 & Hup & -> & Hanchor & Hcursor & Hens).
  assert (Hkinds : ct_Kinds saved = kinds_for req cls) by by destruct (saved_id w _ _ _ _ _ Hup) as (_ & _ & _ & ?).
  set (d2 := w_others w (2 + n) (w_others w (1 + n) d1)).
  assert (Hwf2 : backfill_wf d2).
  { apply Hothers, Hothers. unfold backfill_wf. rewrite (upsert_backfill _ _ _ _ _ _ Hup). by apply Hothers. }
  assert (Hnext : is_u32 nextTo).
  { unfold anchor in Hanchor. destruct cursor; [injection Hanchor as <-; apply u32_range|].
    case_bool_decide; [|done]. by injection Hanchor as <-. }
  destruct (EnsureBackfill_promise network (rr_ContractID req) target nextTo (w_now w (2 + n)) (ct_Kinds saved) d2)
    as (d3 & b' & Hens' & Hwf' & Hb' & Hcov & Hle & Hold); [done|uarith|done|].
  assert (d3 = d') as ->.
  { unfold committed in Hens. change (w_others w (Datatypes.S (Datatypes.S n)) _) with d2 in Hens.
    change (Datatypes.S (Datatypes.S n)) with (2 + n)%nat in Hens. congruence. }
  exists req, target, nextTo, saved, json, n, d1, cursor, d', b'. cbn [cr_Kinds toResponse].
  split_and!; try done.
  - by rewrite Hkinds.
  - unfold anchor in Hanchor. destruct cursor as [c|e].
    + injection Hanchor as <-. split; [by apply Hcursor|done].
    + case_bool_decide; [|done]. by injection Hanchor as <-.
  - fold d2. destruct (db_backfill d2 !! _) as [b|]; [|done]. destruct Hold as (_ & Hv & Hopen & _).
    split; [done|]. intros Hnew. by apply Hopen.
Qed.

(** Registering again is a no-op.  When nobody else writes in between but
    the live loop moving the cursor, a second success of the same request that
    answers the same kinds and classification leaves the whole database as it
    is: the registration with its date, the walk's progress, the deferrals. *)
Theorem handleRegister_again `{!AdminJson} `{!SDKValidators} `{!Unicode} `{!ClassifySDK} `{S : SDK} `{!RpcJson}
    `{!Collation} (urls : list string) (bodyCap : Z) (http : nat → string → request → http_reply)
    (ctxErr : nat → bool) (w : world) (network body : string) (o1 o2 o3 o4 : outside) (s1 s2 s3 s4 : server)
    (resp1 resp2 : contractResponse) (cursors : gmap string Cursor → gmap string Cursor) :
  in_pool urls (sv_client s1) → in_pool urls (sv_client s3) → reads_bytes →
  calm w → backfill_wf (o_db o1) →
  handleRegister urls bodyCap http ctxErr w network body o1 s1 = Some (Reply resp1, o2, s2) →
  o_db o3 = set_cursor cursors (o_db o2) →
  handleRegister urls bodyCap http ctxErr w network body o3 s3 = Some (Reply resp2, o4, s4) →
  cr_Kinds resp2 = cr_Kinds resp1 → cr_Classification resp2 = cr_Classification resp1 →
  o_db o4 = o_db o3 ∧ cr_RegisteredAt resp2 = cr_RegisteredAt resp1.
Proof.
  intros Hp1 Hp3 Hread Hcalm Hwf Hrun1 Hdb Hrun2 Hkinds Hcls.
  destruct (handleRegister_success _ _ _ _ _ _ _ _ _ _ _ _ Hp1 Hread Hrun1)
    as (req & target & nextTo1 & saved1 & warnings1 & n1 & d1 & Hreq & Htarget & -> & Hreg1 & Hdb1).
  destruct (handleRegister_success _ _ _ _ _ _ _ _ _ _ _ _ Hp3 Hread Hrun2)
    as (req2 & target2 & nextTo2 & saved2 & warnings2 & n2 & d2 & Hreq2 & _ & -> & Hreg2 & Hdb2).
  rewrite Hreq in Hreq2. injection Hreq2 as <- <-. rewrite Hcalm in Hdb1, Hdb2.
  destruct (registered_rows w network n1 _ _ _ _ _ _ Hcalm Hwf Htarget Hreg1)
    as (Hn1 & row & dx & Hrow & Hsaved1 & Hwfx & _ & Hens1).
  assert (Hrow3 : db_contracts (o_db o3) !! (network, rr_ContractID req) = Some row)
    by (rewrite Hdb, Hdb1; by destruct d1).
  assert (Hback3 : db_backfill (o_db o3) = db_backfill d1)
    by (rewrite Hdb, Hdb1; by destruct d1).
  assert (Hsrc : c_source row = SourceAPI).
  { destruct Hreg1 as (? & ? & ? & ? & ? & Hup & _). apply saved_id in Hup as (_ & _ & Hsrc & _).
    by rewrite Hsaved1 in Hsrc. }
  destruct Hreg2 as (cls & json & dy & cursor & d3 & Hup & -> & Hanchor & _ & Hens2).
  unfold committed in Hup, Hens2. rewrite Hcalm in Hup. rewrite !Hcalm in Hens2. cbn in Hkinds, Hcls.
  destruct (upsert_again network _ _ _ _ _ _ _ _ Hrow3 Hup Hsrc) as [-> ->];
    [by rewrite Hkinds, Hsaved1|by rewrite Hcls, Hsaved1|].
  assert (Hu : is_u32 target) by uarith.
  rewrite Hsaved1 in Hens1.
  rewrite (EnsureBackfill_again _ _ _ _ nextTo2 _ _ _ _ _ _ Hwfx Hu Hn1 Hens1 Hback3) in Hens2.
  injection Hens2 as <-. split; [done|]. by rewrite Hsaved1.
Qed.

(** A heal plan is checked before it runs.  An invalid plan (none or too
    many intervals, one that is not a range of ledgers, too wide a padding) is a
    400 and the database is not even asked; whatever is planned is between one
    and 20000 proper ranges with a padding of at most 2^20 ledgers, 300 when the
    request names none; over a well-formed gap table only the database can make
    it fail, and the reply is the plan's own count. *)
Theorem handlePlan_correct `{J : AdminJson} `{!AdminJsonLaws J} `{S : SDK} (w : world) (network body : string)
    (o : outside) (s : server) :
  ∃ r o', handlePlan w network body o s = Some (r, o', s) ∧
  match plan_request body with
  | Fail status => status = StatusBadRequest ∧ r = Fail StatusBadRequest ∧ o' = o
  | Reply (replay, padding) =>
      1 ≤ Z.of_nat (length replay) ≤ maxPlanIntervals ∧ Forall valid_interval replay ∧
      0 ≤ padding ≤ maxPlanPadding ∧
      (r = Fail StatusInternalServerError ∨
       ∃ res, r = Reply res ∧ committed w (PlanHeal network replay padding) (o_calls o) (o_db o) res (o_db o')) ∧
      (gaps_wf (db_gaps (w_others w (o_calls o) (o_db o))) → w_faults w (o_calls o) = no_faults →
       w_lost w (o_calls o) = false → ∃ res, r = Reply res)
  end.
Proof.
  unfold handlePlan. pose proof (plan_request_spec body) as Hreq.
  destruct (plan_request body) as [[replay padding]|status]; [|subst; by eexists _, _].
  destruct Hreq as (Hlen & Hv & Hpad & _). unfold w_bind. destruct o as [n d]. cbn [o_calls o_db].
  destruct (transact_cases w (PlanHeal network replay padding) n d s) as (out & d' & Htr & Hout).
  rewrite Htr. eexists _, _. split; [done|]. do 3 (split; [done|]). split.
  - destruct out as [res|e]; [|by left]. right. by exists res.
  - intros Hwf Hfaults Hlost. assert (Hp : is_u32 padding) by (change maxPlanPadding with 1048576 in Hpad; uarith).
    destruct (PlanHeal_run network replay padding (w_now w n) (w_others w n d) Hv Hp Hwf)
      as (res & d2 & _ & Hrun & _).
    rewrite (transact_calm w _ n d s res d2 Hfaults Hlost Hrun) in Htr. injection Htr as <- _. by exists res.
Qed.

(** Unregistering stops the contract and nothing else.  An invalid address
    is a 400 that does nothing; a success leaves, in one transaction, neither
    the registration nor its walk, and every other table as it was, the indexed
    records among them; repeating it succeeds again. *)
Theorem handleDelete_correct `{!SDKValidators} `{S : SDK} `{!Collation} (w : world) (network id : string)
    (o : outside) (s : server) :
  ∃ r o' s', handleDelete w network id o s = Some (r, o', s') ∧
  (IsValidContractAddress id = false → r = Fail StatusBadRequest ∧ o' = o ∧ s' = s) ∧
  (IsValidContractAddress id = true →
     r = Fail StatusInternalServerError ∨
     let d := w_others w (o_calls o) (o_db o) in
     ∃ d', r = Reply tt ∧ o_db o' = w_others w (1 + o_calls o) d' ∧
       db_contracts d' = delete (network, id) (db_contracts d) ∧
       db_backfill d' = delete (network, id) (db_backfill d) ∧
       db_gaps d' = db_gaps d ∧ db_cursor d' = db_cursor d ∧ get_tables d' = get_tables d ∧
       db_ledger_hashes d' = db_ledger_hashes d).
Proof.
  unfold handleDelete. destruct (IsValidContractAddress id); cbn [negb]; [|by eexists _, _, _].
  unfold w_bind. destruct o as [n d]. cbn [o_calls o_db].
  destruct (transact_cases w (DeleteContract network id) n d s) as (out & d1 & -> & Hout).
  destruct out as [existed|e]; [|eexists _, _, _; split; [done|]; split; [done|by left]].
  destruct (reload_step w network (Datatypes.S n) d1 s) as (reg & ->).
  eexists _, _, _. split; [done|]. split; [done|]. intros _. right. exists d1. split; [done|]. split; [done|].
  unfold committed, DeleteContract in Hout. destruct (w_others w n d). cbn in Hout. by injection Hout as _ <-.
Qed.

(** A registration made before ingestion has started vouches for history
    nobody derives.  Without a cursor the anchor is 0 and the walk is created
    finished, with nothing below it left to do; once the live loop has started,
    at whatever ledger, every page of the API over ledgers it never derived is
    declared complete. *)
Theorem registered_before_ingestion `{!AdminJson} `{!SDKValidators} `{!Unicode} `{!ClassifySDK} `{S : SDK}
    `{!RpcJson} `{!Collation} (urls : list string) (bodyCap : Z) (http : nat → string → request → http_reply)
    (ctxErr : nat → bool) (w : world) (network body : string) (o o' : outside) (s s' : server)
    (resp : contractResponse) :
  in_pool urls (sv_client s) → reads_bytes → calm w →
  db_cursor (o_db o) !! network = None →
  (∀ id, db_backfill (o_db o) !! (network, id) = None) →
  handleRegister urls bodyCap http ctxErr w network body o s = Some (Reply resp, o', s') →
  ∃ target now, db_backfill (o_db o') !! (network, cr_ContractID resp)
      = Some (mkBackfillRow target 0 true None (cr_Kinds resp) now) ∧
    ∀ d1 d2 d3 d4 contract kind from to cursorSeq,
      db_backfill d4 = db_backfill (o_db o') →
      ct_ContractID contract = cr_ContractID resp → ct_Kinds contract = cr_Kinds resp →
      kind ∈ cr_Kinds resp → 1 ≤ from → 0 < to ≤ cursorSeq →
      scanStatus false from to (coverage (reader_at network d1 d2 d3 d4) contract kind from to cursorSeq)
        cursorSeq = scanComplete.
Proof.
  intros Hp Hread Hcalm Hcur Hnew Hrun.
  destruct (handleRegister_success _ _ _ _ _ _ _ _ _ _ _ _ Hp Hread Hrun)
    as (req & target & nextTo & saved & warnings & n & d' & _ & Htarget & -> & Hreg & Hdb).
  rewrite Hcalm in Hdb. rewrite Hdb. destruct Hreg as (cls & json & d1 & cursor & d2 & Hup & -> & Hanchor & Hat & Hens).
  pose proof (upsert_backfill w _ _ _ _ _ Hup) as Hb1. pose proof (upsert_cursor w _ _ _ _ _ Hup) as Hc1.
  destruct (saved_id w _ _ _ _ _ Hup) as (Hid & _). cbn [ct_ContractID] in Hid.
  unfold committed in Hens. rewrite Hcalm in Hb1, Hc1. repeat rewrite Hcalm in Hens. rewrite Hcalm in Hat.
  assert (nextTo = 0) as ->.
  { unfold anchor in Hanchor. destruct cursor as [c|e]; [|case_bool_decide; [by injection Hanchor|done]].
    destruct (Hat c eq_refl) as (row & Hrow & _). rewrite Hc1 in Hrow. congruence. }
  rewrite run_EnsureBackfill_new in Hens by (rewrite Hb1; apply Hnew). cbn [toResponse cr_ContractID cr_Kinds].
  rewrite (proj2 (Z.ltb_lt 0 target)) in Hens by lia. injection Hens as <-. rewrite Hid. eexists target, _. split.
  { autorewrite with sierpe_simp. apply lookup_insert_eq. }
  intros e1 e2 e3 e4 contract kind from to cursorSeq Hb4 Hcid Hkinds Hkind Hfrom Hto.
  assert (Hk : HasKind contract kind = true) by (unfold HasKind; rewrite Hkinds; by apply bool_decide_eq_true_2).
  eapply complete_from_row; [|exact Hk|exact Hkind|lia|lia].
  rewrite Hb4, Hcid. autorewrite with sierpe_simp. apply lookup_insert_eq.
Qed.

(** ** Witnesses and concrete runs *)

#[local] Existing Instance demo_sdk.
#[local] Existing Instance demo_json.
#[local] Existing Instance demo_classify.
#[local] Existing Instance ascii_only.
#[local] Existing Instance lax_validators.
#[local] Existing Instance bytewise.

(** Three bodies: a registration with kinds, one without, and a plan. *)
#[local] Instance demo_admin_json : AdminJson := {|
  decode_registerRequest _ body :=
    if String.eqb body "explicit" then Some (mkRegisterRequest "C" ["events"] "")
    else if String.eqb body "default" then Some (mkRegisterRequest "C" [] "500") else None;
  decode_planRequest _ body :=
    if String.eqb body "plan" then Some (mkPlanRequest [mkInterval 100 200] None) else None;
  raw_string _ := None;
  raw_uint64 raw := Some 500%N;
  marshal_Classification cls := Some (cls_Method cls) |}.

#[local] Instance demo_admin_laws : AdminJsonLaws demo_admin_json.
Proof.
  split. intros n body r. simpl. destruct (String.eqb body "plan"); [|done]. intros [= <-]. split; [|done].
  repeat constructor; simpl; uarith.
Qed.

(** Nobody else writes and nothing fails. *)
Definition demo_quiet : world := mkWorld _ (λ _ _ _, Err ErrOther) (λ _ _ _, Err ErrOther) (λ _ _, Err ErrOther)
  (λ _ d, d) (λ _, no_faults) (λ _, false) (λ n, Z.of_nat n) (λ _, false) (λ _, false) (λ _, ∅).

Definition demo_server : server := mkServer demo_client (mkRegistry "testnet" ∅).

(** The live loop is at ledger 1000. *)
Definition demo_started : db := set_cursor (λ _, {[ "testnet" := mkCursor 1000 "h" ]}) empty_db.

Definition demo_post (d : db) (body : string) : option (reply contractResponse * outside * server) :=
  handleRegister ["b"] 100 demo_http demo_alive demo_quiet "testnet" body (mkOutside 0 d) demo_server.

Definition succeeds {A O T} (r : option (reply A * O * T)) : bool :=
  match r with Some (Reply _, _, _) => true | _ => false end.

Lemma succeeds_run {A O T} (r : option (reply A * O * T)) :
  succeeds r = true → ∃ a o s, r = Some (Reply a, o, s).
Proof. destruct r as [[[[a|st] o] s]|]; try done. by exists a, o, s. Qed.

Example demo_rows :
  (λ r, let '(_, o, _) := r in
     ((λ row, (b_target_from row, b_next_to row, b_done row, b_covered_kinds row)) <$>
        db_backfill (o_db o) !! ("testnet", "C"))) <$> demo_post demo_started "default"
  = Some (Some (500, 1020, false, ["events"; "state"])).
Proof. vm_compute. reflexivity. Qed.

Lemma demo_in_pool : in_pool ["b"] (sv_client demo_server).
Proof. unfold in_pool. simpl. lia. Qed.

Lemma demo_reads : reads_bytes.
Proof. intros bs e n. simpl. destruct bs; [discriminate|]. intros Heq. injection Heq as <- <-. lia. Qed.

Lemma demo_calm : calm demo_quiet.
Proof. done. Qed.

Lemma empty_wf d : db_backfill d = ∅ → backfill_wf d.
Proof. intros Hd k b. rewrite Hd, lookup_empty. discriminate. Qed.

Lemma admin_gate_witness :
  surface ["b"] 100 demo_http demo_alive demo_quiet "testnet" "secret token" "ops" "password" "/v1/contracts"
    PostContracts "Bearer secret token" "" (mkOutside 0 empty_db) demo_server
  = dispatch ["b"] 100 demo_http demo_alive demo_quiet "testnet" PostContracts "" (mkOutside 0 empty_db) demo_server.
Proof.
  apply (admin_gate ["b"] 100 demo_http demo_alive demo_quiet "testnet" "secret token" "ops" "password"
           "/v1/contracts" PostContracts "Bearer secret token" "" (mkOutside 0 empty_db) demo_server).
  - exists "secret token". split; [reflexivity|]. left. reflexivity.
  - discriminate.
Defined.

Lemma handleRegister_outcome_witness :
  ∃ r o' s', demo_post empty_db "explicit" = Some (r, o', s').
Proof.
  destruct (handleRegister_outcome ["b"] 100 demo_http demo_alive demo_quiet "testnet" "explicit"
              (mkOutside 0 empty_db) demo_server demo_in_pool demo_reads) as (r & o' & s' & Hrun & _).
  exists r, o', s'. exact Hrun.
Defined.

Lemma handleRegister_anchored_witness :
  ∃ resp o' s' req d' b', demo_post demo_started "default" = Some (Reply resp, o', s') ∧ o_db o' = d' ∧
    db_backfill d' !! ("testnet", rr_ContractID req) = Some b'.
Proof.
  destruct (succeeds_run (demo_post demo_started "default")) as (resp & o' & s' & Hrun); [vm_compute; reflexivity|].
  destruct (handleRegister_anchored ["b"] 100 demo_http demo_alive demo_quiet "testnet" "default"
    (mkOutside 0 demo_started) o' demo_server s' resp demo_in_pool demo_reads)
    as (req & ? & ? & ? & ? & n & d1 & c & d' & b' & _ & _ & _ & _ & Hdb & _ & Hb & _).
  - apply empty_wf. reflexivity.
  - intros n d Hd. exact Hd.
  - exact Hrun.
  - exists resp, o', s', req, d', b'. split; [exact Hrun|]. split; [exact Hdb|exact Hb].
Defined.

(** The same body again, a thousand ledgers later. *)
Definition demo_later (d : db) : db := set_cursor (λ _, {[ "testnet" := mkCursor 2000 "h2" ]}) d.

Lemma demo_twice : ∃ resp1 o2 s2 resp2 o4 s4, demo_post demo_started "explicit" = Some (Reply resp1, o2, s2) ∧
  demo_post (demo_later (o_db o2)) "explicit" = Some (Reply resp2, o4, s4) ∧
  cr_Kinds resp2 = cr_Kinds resp1 ∧ cr_Classification resp2 = cr_Classification resp1.
Proof.
  assert (Ht : match demo_post demo_started "explicit" with
    | Some (Reply r1, o2, _) =>
        match demo_post (demo_later (o_db o2)) "explicit" with
        | Some (Reply r2, _, _) => bool_decide (cr_Kinds r2 = cr_Kinds r1 ∧ cr_Classification r2 = cr_Classification r1)
        | _ => false
        end
    | _ => false
    end = true) by (vm_compute; reflexivity).
  destruct (demo_post demo_started "explicit") as [[[[resp1|?] o2] s2]|]; try discriminate.
  destruct (demo_post (demo_later (o_db o2)) "explicit") as [[[[resp2|?] o4] s4]|] eqn:Hrun2; try discriminate.
  apply bool_decide_eq_true in Ht. exists resp1, o2, s2, resp2, o4, s4. tauto.
Qed.

Lemma handleRegister_again_witness :
  ∃ resp1 o2 s2 resp2 o4 s4, demo_post demo_started "explicit" = Some (Reply resp1, o2, s2) ∧
    demo_post (demo_later (o_db o2)) "explicit" = Some (Reply resp2, o4, s4) ∧ o_db o4 = demo_later (o_db o2).
Proof.
  destruct demo_twice as (resp1 & o2 & s2 & resp2 & o4 & s4 & Hrun1 & Hrun2 & Hk & Hc).
  exists resp1, o2, s2, resp2, o4, s4. split; [exact Hrun1|]. split; [exact Hrun2|].
  apply (handleRegister_again ["b"] 100 demo_http demo_alive demo_quiet "testnet" "explicit"
    (mkOutside 0 demo_started) o2 (mkOutside 0 (demo_later (o_db o2))) o4 demo_server s2 demo_server s4 resp1 resp2
    (λ _, {[ "testnet" := mkCursor 2000 "h2" ]}) demo_in_pool demo_in_pool demo_reads demo_calm).
  - apply empty_wf. reflexivity.
  - exact Hrun1.
  - reflexivity.
  - exact Hrun2.
  - exact Hk.
  - exact Hc.
Defined.

Lemma handlePlan_correct_witness :
  ∃ res o', handlePlan demo_quiet "testnet" "plan" (mkOutside 0 empty_db) demo_server = Some (Reply res, o', demo_server).
Proof.
  destruct (handlePlan_correct (J := demo_admin_json) demo_quiet "testnet" "plan" (mkOutside 0 empty_db) demo_server)
    as (r & o' & Hrun & _ & _ & _ & _ & Hok).
  destruct Hok as [res ->]; [|reflexivity|reflexivity|exists res, o'; exact Hrun].
  exact gaps_wf_empty.
Defined.

Lemma handleDelete_correct_witness :
  ∃ r o' s', handleDelete demo_quiet "testnet" "C" (mkOutside 0 empty_db) demo_server = Some (r, o', s').
Proof.
  destruct (handleDelete_correct demo_quiet "testnet" "C" (mkOutside 0 empty_db) demo_server) as (r & o' & s' & Hrun & _).
  exists r, o', s'. exact Hrun.
Defined.

Lemma registered_before_ingestion_witness :
  ∃ resp o' s' target now, demo_post empty_db "default" = Some (Reply resp, o', s') ∧
    db_backfill (o_db o') !! ("testnet", cr_ContractID resp)
      = Some (mkBackfillRow target 0 true None (cr_Kinds resp) now).
Proof.
  destruct (succeeds_run (demo_post empty_db "default")) as (resp & o' & s' & Hrun); [vm_compute; reflexivity|].
  destruct (registered_before_ingestion ["b"] 100 demo_http demo_alive demo_quiet "testnet" "default"
    (mkOutside 0 empty_db) o' demo_server s' resp demo_in_pool demo_reads demo_calm) as (target & now & Hrow & _).
  - reflexivity.
  - intros id. reflexivity.
  - exact Hrun.
  - exists resp, o', s', target, now. split; [exact Hrun|exact Hrow].
Defined.
