(* ===== verification/Config.v ===== *)
(** * Boot configuration ([internal/config/config.go])

    The environment is read once, validated in full and reported in full.  The
    parser of URLs and the file system are parameters. *)

From S2P Require Import Prelude HealPlan Db Gaps Rows Registrations Commit Registry Cursor Api Extract Loop Workers Backfill Heal Rpc Classify HttpAuth Admin.

(** ** Definitions *)

Definition maxHealWorkers : Z := 16.

Definition NetworkTestnet : string := "testnet".
Definition NetworkMainnet : string := "mainnet".

Definition Passphrase (n : string) : string :=
  if bool_decide (n = NetworkMainnet) then "Public Global Stellar Network ; September 2015"
  else if bool_decide (n = NetworkTestnet) then "Test SDF Network ; September 2015"
  else "".

Definition defaultRPCURLs (n : string) : list string :=
  if bool_decide (n = NetworkTestnet) then ["https://soroban-testnet.stellar.org"] else [].

Definition defaultArchiveURLs (n : string) : list string :=
  if bool_decide (n = NetworkTestnet) then
    ["https://history.stellar.org/prd/core-testnet/core_testnet_001";
     "https://history.stellar.org/prd/core-testnet/core_testnet_002";
     "https://history.stellar.org/prd/core-testnet/core_testnet_003"]
  else if bool_decide (n = NetworkMainnet) then
    ["https://history.stellar.org/prd/core-live/core_live_001";
     "https://history.stellar.org/prd/core-live/core_live_002";
     "https://history.stellar.org/prd/core-live/core_live_003"]
  else [].

Record Config := mkConfig {
  cf_DatabaseURL : string; cf_Network : string; cf_AdminToken : string; cf_RPCURLs : list string;
  cf_HTTPPort : Z; cf_StartLedger : Z; cf_CoreBinary : string; cf_ArchiveURLs : list string;
  cf_CaptiveStoragePath : string; cf_HealWorkers : Z; cf_HealChunkLedgers : Z;
  cf_BasicAuthUser : string; cf_BasicAuthPassword : string }.

Definition BasicAuthEnabled (c : Config) : bool := bool_decide (cf_BasicAuthUser c ≠ "").
Definition ArchiveEnabled (c : Config) : bool := bool_decide (cf_CoreBinary c ≠ "").

(** The messages of [Load], by the check that failed; the offending value where
    the text carries it. *)
Inductive cfgerr :=
  | DatabaseRequired | DatabaseNotPostgres
  | NetworkRequired | NetworkUnsupported (n : string)
  | TokenRequired | TokenShort | TokenRepetitive
  | RPCRequired | RPCInvalid (raw : string)
  | PortInvalid (raw : string) | StartInvalid (raw : string)
  | CoreMissing (bin : string) | CoreNotExecutable (bin : string)
  | ArchiveInvalid (raw : string) | ArchiveWithoutCore | StorageWithoutCore
  | WorkersWithoutCore | WorkersInvalid (raw : string)
  | ChunkWithoutCore | ChunkInvalid (raw : string)
  | BasicMalformed | BasicShort.

(** [net/url]: the parts the program looks at, and [Redacted]; [os]: whether a
    path is a directory and its permission bits, and the temporary directory. *)
Record URL := mkURL { u_Scheme : string; u_Host : string; u_Redacted : string }.

Class System := {
  url_Parse : string → option URL;
  os_Stat : string → option (bool * Z);
  os_TempDir : string }.

(** *** [strings] *)

(** [strings.Split(raw, ",")], over bytes: 44 is the comma. *)
Fixpoint split_commas (cur bs : list Z) : list (list Z) :=
  match bs with
  | [] => [cur]
  | b :: bs => if b =? 44 then cur :: split_commas [] bs else split_commas (cur ++ [b]) bs
  end.

(** [unicode.IsSpace] *)
Definition IsSpace (r : Z) : bool :=
  in_range 9 13 r || (r =? 32) || (r =? 133) || (r =? 160) || (r =? 5760) || in_range 8192 8202 r
  || (r =? 8232) || (r =? 8233) || (r =? 8239) || (r =? 8287) || (r =? 12288).

(** The runes of some bytes, each with its bytes. *)
Fixpoint rune_slices (fuel : nat) (bs : list Z) : list (Z * list Z) :=
  match fuel, bs with
  | S fuel, _ :: _ => let '(r, n) := decode_rune bs in (r, take n bs) :: rune_slices fuel (drop n bs)
  | _, _ => []
  end.

Fixpoint drop_spaces (rs : list (Z * list Z)) : list (Z * list Z) :=
  match rs with
  | (r, bs) :: rest => if IsSpace r then drop_spaces rest else rs
  | [] => []
  end.

(** [strings.TrimSpace] *)
Definition TrimSpace (bs : list Z) : list Z :=
  concat (snd <$> rev (drop_spaces (rev (drop_spaces (rune_slices (length bs) bs))))).

Definition splitURLs (raw : string) : list string :=
  List.filter (λ p, bool_decide (p ≠ "")) ((λ part, of_codes (TrimSpace part)) <$> split_commas [] (codes raw)).

(** *** Validation *)

(** [len(distinct)] over the runes of the token. *)
Definition distinct_runes (token : string) : nat :=
  length (remove_dups (runes_of (String.length token) (codes token))).

Definition validateAdminToken (token : string) : list cfgerr :=
  if bool_decide (token = "") then [TokenRequired]
  else if Nat.ltb (String.length token) 16 then [TokenShort]
  else if Nat.ltb (distinct_runes token) 6 then [TokenRepetitive]
  else [].

Section load.
Context `{System} (lookup : string → option string).

(** [raw, _ := lookup(name)], and a variable that is set and not empty. *)
Definition env (name : string) : string := default "" (lookup name).
Definition set_env (name : string) : option string :=
  match lookup name with Some v => if bool_decide (v ≠ "") then Some v else None | None => None end.

Definition is_postgres (raw : string) : bool :=
  match url_Parse raw with
  | Some u => bool_decide (u_Scheme u = "postgres") || bool_decide (u_Scheme u = "postgresql")
  | None => false
  end.

Definition is_http (raw : string) : bool :=
  match url_Parse raw with
  | Some u => (bool_decide (u_Scheme u = "http") || bool_decide (u_Scheme u = "https"))
              && bool_decide (u_Host u ≠ "")
  | None => false
  end.

(** The stanzas of [Load]: the errors each adds, and the value it sets. *)
Definition load_database : list cfgerr :=
  let dbURL := env "DATABASE_URL" in
  if bool_decide (dbURL = "") then [DatabaseRequired]
  else if is_postgres dbURL then [] else [DatabaseNotPostgres].

Definition load_network : list cfgerr * string :=
  let network := env "NETWORK" in
  if bool_decide (network = NetworkTestnet) || bool_decide (network = NetworkMainnet) then ([], network)
  else if bool_decide (network = "") then ([NetworkRequired], "")
  else ([NetworkUnsupported network], "").

Definition or_default {A} (l d : list A) : list A := match l with [] => d | _ => l end.

Definition invalid_urls (err : string → cfgerr) (urls : list string) : list cfgerr :=
  err <$> List.filter (λ raw, negb (is_http raw)) urls.

Definition load_rpc (network : string) : list cfgerr * list string :=
  let urls := or_default (splitURLs (env "RPC_URLS")) (defaultRPCURLs network) in
  ((if Nat.eqb (length urls) 0 && bool_decide (network ≠ "") then [RPCRequired] else [])
     ++ invalid_urls RPCInvalid urls, urls).

Definition load_port : list cfgerr * Z :=
  match set_env "HTTP_PORT" with
  | Some port =>
      match Atoi port with
      | Some p => if (p <? 1) || (65535 <? p) then ([PortInvalid port], 8080) else ([], p)
      | None => ([PortInvalid port], 8080)
      end
  | None => ([], 8080)
  end.

Definition load_start : list cfgerr * Z :=
  match set_env "START_LEDGER" with
  | Some raw =>
      match ParseUint32 raw with
      | Some v => if v =? 0 then ([StartInvalid raw], 0) else ([], u32 v)
      | None => ([StartInvalid raw], 0)
      end
  | None => ([], 0)
  end.

Definition load_core : list cfgerr * string :=
  match set_env "STELLAR_CORE_BINARY" with
  | Some bin =>
      match os_Stat bin with
      | None => ([CoreMissing bin], "")
      | Some (isDir, perm) =>
          if isDir || (Z.land perm 73 =? 0) then ([CoreNotExecutable bin], "") else ([], bin)
      end
  | None => ([], "")
  end.

Definition load_archives (network core : string) : list cfgerr * list string :=
  let urls := or_default (splitURLs (env "HISTORY_ARCHIVE_URLS")) (defaultArchiveURLs network) in
  (invalid_urls ArchiveInvalid urls
     ++ (match set_env "HISTORY_ARCHIVE_URLS" with
         | Some _ => if bool_decide (core = "") then [ArchiveWithoutCore] else []
         | None => []
         end), urls).

Definition without_core (core : string) (e : cfgerr) : list cfgerr :=
  if bool_decide (core = "") then [e] else [].

Definition load_storage (core : string) : list cfgerr * string :=
  match set_env "CAPTIVE_STORAGE_PATH" with
  | Some p => (without_core core StorageWithoutCore, p)
  | None => ([], os_TempDir)
  end.

Definition load_workers (core : string) : list cfgerr * Z :=
  match set_env "HEAL_WORKERS" with
  | Some raw =>
      let '(errs, v) :=
        match Atoi raw with
        | Some v => if (v <? 1) || (maxHealWorkers <? v) then ([WorkersInvalid raw], 0) else ([], v)
        | None => ([WorkersInvalid raw], 0)
        end in
      (without_core core WorkersWithoutCore ++ errs, v)
  | None => ([], 0)
  end.

Definition load_chunk (core : string) : list cfgerr * Z :=
  match set_env "HEAL_CHUNK_LEDGERS" with
  | Some raw =>
      let '(errs, v) :=
        match ParseUint32 raw with
        | Some v => if v <? 64 then ([ChunkInvalid raw], 0) else ([], u32 v)
        | None => ([ChunkInvalid raw], 0)
        end in
      (without_core core ChunkWithoutCore ++ errs, v)
  | None => ([], 0)
  end.

Definition load_basic : list cfgerr * (string * string) :=
  match set_env "HTTP_BASIC_AUTH" with
  | Some raw =>
      match cut_at 58 (codes raw) with
      | Some (user, pass) =>
          if bool_decide (user = []) || bool_decide (pass = []) then ([BasicMalformed], ("", ""))
          else if Nat.ltb (length pass) 12 then ([BasicShort], ("", ""))
          else ([], (of_codes user, of_codes pass))
      | None => ([BasicMalformed], ("", ""))
      end
  | None => ([], ("", ""))
  end.

(** [Load]: all errors, or the configuration. *)
Definition Load : list cfgerr + Config :=
  let e_db := load_database in
  let '(e_net, network) := load_network in
  let e_tok := validateAdminToken (env "ADMIN_TOKEN") in
  let '(e_rpc, rpc) := load_rpc network in
  let '(e_port, port) := load_port in
  let '(e_start, start) := load_start in
  let '(e_core, core) := load_core in
  let '(e_arch, archives) := load_archives network core in
  let '(e_stor, storage) := load_storage core in
  let '(e_work, workers) := load_workers core in
  let '(e_chunk, chunk) := load_chunk core in
  let '(e_basic, (user, password)) := load_basic in
  match e_db ++ e_net ++ e_tok ++ e_rpc ++ e_port ++ e_start ++ e_core ++ e_arch ++ e_stor ++ e_work
          ++ e_chunk ++ e_basic with
  | [] => inr (mkConfig (env "DATABASE_URL") network (env "ADMIN_TOKEN") rpc port start core archives
                 storage workers chunk user password)
  | errs => inl errs
  end.
End load.

(** *** Redaction *)

Section redact.
Context `{System}.

(** [strings.Join(parts, " ")] *)
Fixpoint join_spaces (parts : list string) : string :=
  match parts with
  | [] => ""
  | [p] => p
  | p :: parts => p +:+ " " +:+ join_spaces parts
  end.

Definition host_of (raw : string) : string :=
  match url_Parse raw with Some u => u_Scheme u +:+ "://" +:+ u_Host u | None => "<invalid>" end.

Definition or_word (n : Z) : string := if n =? 0 then "default" else pretty n.

Definition archive_text (c : Config) : string :=
  if ArchiveEnabled c then
    "core=" +:+ cf_CoreBinary c +:+ " archives=[" +:+ join_spaces (host_of <$> cf_ArchiveURLs c) +:+
    "] heal_chunk=" +:+ or_word (cf_HealChunkLedgers c) +:+ " heal_workers=" +:+ or_word (cf_HealWorkers c)
  else "off".

Definition Redacted (c : Config) : string :=
  let db := match url_Parse (cf_DatabaseURL c) with Some u => u_Redacted u | None => cf_DatabaseURL c end in
  "network=" +:+ cf_Network c +:+ " database=" +:+ db +:+ " rpc=[" +:+
  join_spaces (host_of <$> cf_RPCURLs c) +:+ "] http_port=" +:+ pretty (cf_HTTPPort c) +:+ " start_ledger=" +:+
  pretty (cf_StartLedger c) +:+ " archive=" +:+ archive_text c +:+ " basic_auth=" +:+
  (if BasicAuthEnabled c then "on" else "off") +:+ " admin_token=<set>".
End redact.

(** ** Specification *)

Section spec.
Context `{System}.

(** A configuration the process can run with. *)
Record config_wf (c : Config) : Prop := {
  wf_database : is_postgres (cf_DatabaseURL c) = true;
  wf_network : cf_Network c = NetworkTestnet ∨ cf_Network c = NetworkMainnet;
  wf_token : (16 ≤ String.length (cf_AdminToken c))%nat ∧ (6 ≤ distinct_runes (cf_AdminToken c))%nat;
  wf_rpc : cf_RPCURLs c ≠ [] ∧ Forall (λ raw, is_http raw = true) (cf_RPCURLs c);
  wf_port : 1 ≤ cf_HTTPPort c ≤ 65535;
  wf_start : is_u32 (cf_StartLedger c);
  wf_core : cf_CoreBinary c ≠ "" →
    ∃ perm, os_Stat (cf_CoreBinary c) = Some (false, perm) ∧ Z.land perm 73 ≠ 0;
  wf_archives : cf_ArchiveURLs c ≠ [] ∧ Forall (λ raw, is_http raw = true) (cf_ArchiveURLs c);
  wf_no_core : cf_CoreBinary c = "" →
    cf_HealWorkers c = 0 ∧ cf_HealChunkLedgers c = 0 ∧ cf_CaptiveStoragePath c = os_TempDir;
  wf_workers : 0 ≤ cf_HealWorkers c ≤ maxHealWorkers;
  wf_chunk : cf_HealChunkLedgers c = 0 ∨ 64 ≤ cf_HealChunkLedgers c ≤ max_u32;
  wf_basic : cf_BasicAuthUser c = "" ∧ cf_BasicAuthPassword c = "" ∨
    cf_BasicAuthUser c ≠ "" ∧ ¬ (58 ∈ codes (cf_BasicAuthUser c)) ∧
    (12 ≤ String.length (cf_BasicAuthPassword c))%nat }.

(** The environment names a core that can be run. *)
Definition has_core (lookup : string → option string) : Prop :=
  ∃ bin perm, set_env lookup "STELLAR_CORE_BINARY" = Some bin ∧ os_Stat bin = Some (false, perm) ∧ Z.land perm 73 ≠ 0.

(** The pools of URLs: those given, else the defaults of the network. *)
Definition rpc_urls (lookup : string → option string) : list string :=
  or_default (splitURLs (env lookup "RPC_URLS")) (defaultRPCURLs (env lookup "NETWORK")).
Definition archive_urls (lookup : string → option string) : list string :=
  or_default (splitURLs (env lookup "HISTORY_ARCHIVE_URLS")) (defaultArchiveURLs (env lookup "NETWORK")).

(** What is wrong with an environment, fault by fault. *)
Definition faulty (lookup : string → option string) (e : cfgerr) : Prop :=
  let var := env lookup in
  let set := set_env lookup in
  match e with
  | DatabaseRequired => var "DATABASE_URL" = ""
  | DatabaseNotPostgres => var "DATABASE_URL" ≠ "" ∧ is_postgres (var "DATABASE_URL") = false
  | NetworkRequired => var "NETWORK" = ""
  | NetworkUnsupported n => n = var "NETWORK" ∧ n ∉ [""; "testnet"; "mainnet"]
  | TokenRequired => var "ADMIN_TOKEN" = ""
  | TokenShort => var "ADMIN_TOKEN" ≠ "" ∧ (String.length (var "ADMIN_TOKEN") < 16)%nat
  | TokenRepetitive => (16 ≤ String.length (var "ADMIN_TOKEN"))%nat ∧ (distinct_runes (var "ADMIN_TOKEN") < 6)%nat
  | RPCRequired => var "NETWORK" = "mainnet" ∧ splitURLs (var "RPC_URLS") = []
  | RPCInvalid raw => raw ∈ rpc_urls lookup ∧ is_http raw = false
  | PortInvalid raw => set "HTTP_PORT" = Some raw ∧ ∀ p, Atoi raw = Some p → ¬ 1 ≤ p ≤ 65535
  | StartInvalid raw => set "START_LEDGER" = Some raw ∧ ∀ v, ParseUint32 raw = Some v → v = 0
  | CoreMissing bin => set "STELLAR_CORE_BINARY" = Some bin ∧ os_Stat bin = None
  | CoreNotExecutable bin => set "STELLAR_CORE_BINARY" = Some bin ∧
      ∃ isDir perm, os_Stat bin = Some (isDir, perm) ∧ (isDir = true ∨ Z.land perm 73 = 0)
  | ArchiveInvalid raw => raw ∈ archive_urls lookup ∧ is_http raw = false
  | ArchiveWithoutCore => set "HISTORY_ARCHIVE_URLS" ≠ None ∧ ¬ has_core lookup
  | StorageWithoutCore => set "CAPTIVE_STORAGE_PATH" ≠ None ∧ ¬ has_core lookup
  | WorkersWithoutCore => set "HEAL_WORKERS" ≠ None ∧ ¬ has_core lookup
  | WorkersInvalid raw => set "HEAL_WORKERS" = Some raw ∧ ∀ v, Atoi raw = Some v → ¬ 1 ≤ v ≤ 16
  | ChunkWithoutCore => set "HEAL_CHUNK_LEDGERS" ≠ None ∧ ¬ has_core lookup
  | ChunkInvalid raw => set "HEAL_CHUNK_LEDGERS" = Some raw ∧ ∀ v, ParseUint32 raw = Some v → v < 64
  | BasicMalformed => ∃ raw, set "HTTP_BASIC_AUTH" = Some raw ∧
      ∀ user pass, cut_at 58 (codes raw) = Some (user, pass) → user = [] ∨ pass = []
  | BasicShort => ∃ raw user pass, set "HTTP_BASIC_AUTH" = Some raw ∧
      cut_at 58 (codes raw) = Some (user, pass) ∧ user ≠ [] ∧ (0 < length pass < 12)%nat
  end.

(** The fields of a configuration are what the environment says. *)
Record loaded_from (lookup : string → option string) (c : Config) : Prop := {
  lf_database : cf_DatabaseURL c = env lookup "DATABASE_URL";
  lf_network : cf_Network c = env lookup "NETWORK";
  lf_token : cf_AdminToken c = env lookup "ADMIN_TOKEN";
  lf_rpc : cf_RPCURLs c = rpc_urls lookup;
  lf_port : match set_env lookup "HTTP_PORT" with Some raw => Atoi raw | None => Some 8080 end = Some (cf_HTTPPort c);
  lf_start : match set_env lookup "START_LEDGER" with Some raw => ParseUint32 raw | None => Some 0 end
             = Some (cf_StartLedger c);
  lf_core : cf_CoreBinary c = default "" (set_env lookup "STELLAR_CORE_BINARY");
  lf_archives : cf_ArchiveURLs c = archive_urls lookup;
  lf_storage : cf_CaptiveStoragePath c = default os_TempDir (set_env lookup "CAPTIVE_STORAGE_PATH");
  lf_workers : match set_env lookup "HEAL_WORKERS" with Some raw => Atoi raw | None => Some 0 end
               = Some (cf_HealWorkers c);
  lf_chunk : match set_env lookup "HEAL_CHUNK_LEDGERS" with Some raw => ParseUint32 raw | None => Some 0 end
             = Some (cf_HealChunkLedgers c);
  lf_basic : match set_env lookup "HTTP_BASIC_AUTH" with
             | Some raw => codes raw = codes (cf_BasicAuthUser c) ++ 58 :: codes (cf_BasicAuthPassword c)
             | None => cf_BasicAuthUser c = "" ∧ cf_BasicAuthPassword c = ""
             end }.

(** Two environments an observer of the logs cannot tell apart: they differ in
    the secrets at most.  A URL shows its redacted form, or its host. *)
Record same_but_secrets (l1 l2 : string → option string) : Prop := {
  sb_plain : ∀ name, name ∉ ["DATABASE_URL"; "ADMIN_TOKEN"; "RPC_URLS"; "HISTORY_ARCHIVE_URLS"; "HTTP_BASIC_AUTH"] →
    l1 name = l2 name;
  sb_database : u_Redacted <$> url_Parse (env l1 "DATABASE_URL") = u_Redacted <$> url_Parse (env l2 "DATABASE_URL");
  sb_rpc : host_of <$> splitURLs (env l1 "RPC_URLS") = host_of <$> splitURLs (env l2 "RPC_URLS");
  sb_archives : host_of <$> splitURLs (env l1 "HISTORY_ARCHIVE_URLS")
                = host_of <$> splitURLs (env l2 "HISTORY_ARCHIVE_URLS");
  sb_basic : set_env l1 "HTTP_BASIC_AUTH" = None ↔ set_env l2 "HTTP_BASIC_AUTH" = None }.
End spec.

(** ** Lemmas *)

Section load_lemmas.
Context `{System} (lookup : string → option string).

Lemma validateAdminToken_ok token : validateAdminToken token = [] →
  (16 ≤ String.length token)%nat ∧ (6 ≤ distinct_runes token)%nat.
Proof.
  unfold validateAdminToken. case_bool_decide; [done|].
  destruct (Nat.ltb_spec (String.length token) 16); [done|].
  destruct (Nat.ltb_spec (distinct_runes token) 6); [done|]. intros _. lia.
Qed.

Lemma load_database_ok : load_database lookup = [] → is_postgres (env lookup "DATABASE_URL") = true.
Proof. unfold load_database. case_bool_decide; [done|]. by destruct (is_postgres _). Qed.

Lemma load_network_ok network : load_network lookup = ([], network) →
  network = NetworkTestnet ∨ network = NetworkMainnet.
Proof.
  unfold load_network. case_bool_decide as Ht; simpl; [intros [= <-]; by left|].
  case_bool_decide as Hm; [intros [= <-]; by right|]. by case_bool_decide.
Qed.

Lemma invalid_urls_ok err urls : invalid_urls err urls = [] → Forall (λ raw, is_http raw = true) urls.
Proof.
  unfold invalid_urls. induction urls as [|u urls IH]; simpl; [constructor|].
  destruct (is_http u) eqn:Hu; simpl; [|done]. intros Hr. constructor; [done|by apply IH].
Qed.

Lemma or_default_nil {A} (l d : list A) : d ≠ [] → or_default l d ≠ [].
Proof. by destruct l. Qed.

Lemma load_rpc_ok network urls : network ≠ "" → load_rpc lookup network = ([], urls) →
  urls ≠ [] ∧ Forall (λ raw, is_http raw = true) urls.
Proof.
  intros Hn. unfold load_rpc. set (l := or_default _ _). rewrite bool_decide_eq_true_2, andb_true_r by done.
  intros [= Herr <-]. apply app_eq_nil in Herr as [Hlen Hurls]. split; [|by eapply invalid_urls_ok].
  intros Hl. rewrite Hl in Hlen. done.
Qed.

Lemma load_port_ok p : load_port lookup = ([], p) → 1 ≤ p ≤ 65535.
Proof.
  unfold load_port. destruct (set_env lookup "HTTP_PORT") as [raw|]; [|by intros [= <-]].
  destruct (Atoi raw) as [v|]; [|done]. destruct (Z.ltb_spec v 1); [done|]. simpl.
  destruct (Z.ltb_spec 65535 v); [done|]. intros [= <-]. lia.
Qed.

Lemma load_start_ok v : load_start lookup = ([], v) → is_u32 v.
Proof.
  unfold load_start. destruct (set_env lookup "START_LEDGER") as [raw|]; [|by intros [= <-]].
  destruct (ParseUint32 raw) as [x|]; [|done]. destruct (x =? 0); [done|]. intros [= <-]. apply u32_range.
Qed.

Lemma load_core_ok core : load_core lookup = ([], core) → core ≠ "" →
  ∃ perm, os_Stat core = Some (false, perm) ∧ Z.land perm 73 ≠ 0.
Proof.
  unfold load_core. destruct (set_env lookup "STELLAR_CORE_BINARY") as [bin|]; [|by intros [= <-]].
  destruct (os_Stat bin) as [[isDir perm]|] eqn:Hstat; [|done]. destruct isDir; [done|]. simpl.
  destruct (Z.eqb_spec (Z.land perm 73) 0); [done|]. intros [= <-] _. by exists perm.
Qed.

Lemma load_archives_ok network core urls : network = NetworkTestnet ∨ network = NetworkMainnet →
  load_archives lookup network core = ([], urls) → urls ≠ [] ∧ Forall (λ raw, is_http raw = true) urls.
Proof.
  intros Hn. unfold load_archives. intros [= Herr <-]. apply app_eq_nil in Herr as [Hurls _].
  split; [|by eapply invalid_urls_ok]. apply or_default_nil. by destruct Hn as [->| ->].
Qed.

Lemma load_storage_ok core p : load_storage lookup core = ([], p) → core = "" → p = os_TempDir.
Proof.
  unfold load_storage, without_core. destruct (set_env lookup "CAPTIVE_STORAGE_PATH"); [|by intros [= <-]].
  case_bool_decide; [done|]. by intros _ ?.
Qed.

Lemma load_workers_ok core v : load_workers lookup core = ([], v) →
  0 ≤ v ≤ maxHealWorkers ∧ (core = "" → v = 0).
Proof.
  unfold load_workers, without_core, maxHealWorkers.
  destruct (set_env lookup "HEAL_WORKERS") as [raw|]; [|by intros [= <-]].
  case_bool_decide as Hc.
  - destruct (Atoi raw) as [x|]; [|done]. by destruct (_ || _).
  - destruct (Atoi raw) as [x|]; [|done]. destruct (Z.ltb_spec x 1); [done|]. simpl.
    destruct (Z.ltb_spec 16 x); [done|]. intros [= <-]. split; [lia|done].
Qed.

Lemma load_chunk_ok core v : load_chunk lookup core = ([], v) →
  (v = 0 ∨ 64 ≤ v ≤ max_u32) ∧ (core = "" → v = 0).
Proof.
  unfold load_chunk, without_core.
  destruct (set_env lookup "HEAL_CHUNK_LEDGERS") as [raw|]; [|intros [= <-]; split; [by left|done]].
  case_bool_decide as Hc.
  - destruct (ParseUint32 raw) as [x|]; [|done]. by destruct (_ <? _).
  - destruct (ParseUint32 raw) as [x|] eqn:Hx; [|done]. apply ParseUint32_range in Hx.
    destruct (Z.ltb_spec x 64); [done|]. intros [= <-]. rewrite u32_small by done. split; [right; uarith|done].
Qed.

Lemma cut_at_free sep bs l r : cut_at sep bs = Some (l, r) → ¬ (sep ∈ l) ∧ bs = l ++ sep :: r.
Proof.
  revert l. induction bs as [|b bs IH]; intros l; simpl; [done|]. destruct (Z.eqb_spec b sep) as [->|Hne].
  - intros [= <- <-]. split; [apply not_elem_of_nil|done].
  - destruct (cut_at sep bs) as [[l' r']|]; [|done]. intros [= <- <-]. destruct (IH l' eq_refl) as [Hn ->].
    split; [|done]. by apply not_elem_of_cons.
Qed.

Lemma length_of_codes bs : String.length (of_codes bs) = length bs.
Proof.
  unfold of_codes. induction bs as [|b bs IH]; [done|]. simpl. by f_equal.
Qed.

Lemma load_basic_ok user pass : load_basic lookup = ([], (user, pass)) →
  set_env lookup "HTTP_BASIC_AUTH" = None ∧ user = "" ∧ pass = "" ∨
  set_env lookup "HTTP_BASIC_AUTH" ≠ None ∧ user ≠ "" ∧ ¬ (58 ∈ codes user) ∧ (12 ≤ String.length pass)%nat.
Proof.
  unfold load_basic. destruct (set_env lookup "HTTP_BASIC_AUTH") as [raw|]; [|intros [= <- <-]; by left].
  destruct (cut_at 58 (codes raw)) as [[u p]|] eqn:Hcut; [|done].
  case_bool_decide as Hu; [done|]. case_bool_decide as Hp; [done|]. simpl.
  destruct (Nat.ltb_spec (length p) 12); [done|]. intros [= <- <-]. right.
  apply cut_at_free in Hcut as [Hfree Hraw].
  assert (Hb : Forall is_byte u). { pose proof (codes_bytes raw) as Hc. rewrite Hraw in Hc. by apply Forall_app in Hc as [? _]. }
  split; [done|]. split; [by destruct u|]. by rewrite codes_of_codes, length_of_codes by done.
Qed.

(** A loaded configuration came out of stanzas without an error. *)
Lemma Load_inr c : Load lookup = inr c → ∃ network rpc port start core archives storage workers chunk user password,
  load_database lookup = [] ∧ load_network lookup = ([], network) ∧
  validateAdminToken (env lookup "ADMIN_TOKEN") = [] ∧ load_rpc lookup network = ([], rpc) ∧
  load_port lookup = ([], port) ∧ load_start lookup = ([], start) ∧ load_core lookup = ([], core) ∧
  load_archives lookup network core = ([], archives) ∧ load_storage lookup core = ([], storage) ∧
  load_workers lookup core = ([], workers) ∧ load_chunk lookup core = ([], chunk) ∧
  load_basic lookup = ([], (user, password)) ∧
  c = mkConfig (env lookup "DATABASE_URL") network (env lookup "ADMIN_TOKEN") rpc port start core archives
        storage workers chunk user password.
Proof.
  unfold Load. destruct (load_network lookup) as [e2 network] eqn:E2.
  destruct (load_rpc lookup network) as [e4 rpc] eqn:E4, (load_port lookup) as [e5 port] eqn:E5.
  destruct (load_start lookup) as [e6 start] eqn:E6, (load_core lookup) as [e7 core] eqn:E7.
  destruct (load_archives lookup network core) as [e8 archives] eqn:E8.
  destruct (load_storage lookup core) as [e9 storage] eqn:E9.
  destruct (load_workers lookup core) as [e10 workers] eqn:E10.
  destruct (load_chunk lookup core) as [e11 chunk] eqn:E11.
  destruct (load_basic lookup) as [e12 [user password]] eqn:E12.
  destruct (_ ++ _) as [|e es] eqn:Herr; [|done]. intros [= <-].
  repeat (apply app_eq_nil in Herr as [? Herr]). subst.
  exists network, rpc, port, start, core, archives, storage, workers, chunk, user, password. by split_and!.
Qed.
End load_lemmas.

(** *** The faults reported *)

Section faults.
Context `{System} (lookup : string → option string).

Lemma set_env_nonempty name v : set_env lookup name = Some v → v ≠ "".
Proof. unfold set_env. destruct (lookup name); [|done]. case_bool_decide; [|done]. by intros [= <-]. Qed.

Lemma load_database_faults e : e ∈ load_database lookup ↔
  match e with DatabaseRequired | DatabaseNotPostgres => faulty lookup e | _ => False end.
Proof.
  unfold load_database. destruct (decide (env lookup "DATABASE_URL" = "")) as [E|E].
  - rewrite bool_decide_eq_true_2, list_elem_of_singleton by done. destruct e; simpl; intuition congruence.
  - rewrite bool_decide_eq_false_2 by done. destruct (is_postgres _) eqn:Hp.
    + rewrite elem_of_nil. destruct e; simpl; intuition congruence.
    + rewrite list_elem_of_singleton. destruct e; simpl; intuition congruence.
Qed.

(** The network, empty when it is not supported. *)
Lemma load_network_faults e : e ∈ (load_network lookup).1 ↔
  match e with NetworkRequired | NetworkUnsupported _ => faulty lookup e | _ => False end.
Proof.
  unfold load_network, NetworkTestnet, NetworkMainnet. set (n := env lookup "NETWORK").
  assert (Hin : ∀ m, m ∉ [""; "testnet"; "mainnet"] ↔ m ≠ "" ∧ m ≠ "testnet" ∧ m ≠ "mainnet")
    by (intros m; rewrite !not_elem_of_cons; pose proof (not_elem_of_nil m); tauto).
  assert (Ht : "testnet" ≠ "") by done. assert (Hm : "mainnet" ≠ "") by done.
  case_bool_decide as E1; simpl; [|case_bool_decide as E2; simpl; [|case_bool_decide as E3; simpl]];
    rewrite ?list_elem_of_singleton, ?elem_of_nil; destruct e; simpl; rewrite ?Hin; fold n; intuition congruence.
Qed.

Lemma load_network_value : (load_network lookup).2 =
  if decide (env lookup "NETWORK" = "testnet" ∨ env lookup "NETWORK" = "mainnet") then env lookup "NETWORK" else "".
Proof.
  unfold load_network, NetworkTestnet, NetworkMainnet.
  do 2 (case_bool_decide; simpl; [by rewrite decide_True by auto|]).
  rewrite decide_False by intuition. by case_bool_decide.
Qed.

Lemma load_token_faults e : e ∈ validateAdminToken (env lookup "ADMIN_TOKEN") ↔
  match e with TokenRequired | TokenShort | TokenRepetitive => faulty lookup e | _ => False end.
Proof.
  unfold validateAdminToken. set (t := env lookup "ADMIN_TOKEN").
  case_bool_decide as E1.
  { rewrite list_elem_of_singleton. destruct e; simpl; fold t; rewrite ?E1; simpl; intuition (congruence || lia). }
  assert (t ≠ "" → (0 < String.length t)%nat) by (destruct t; simpl; [done|lia]).
  destruct (Nat.ltb_spec (String.length t) 16); [|destruct (Nat.ltb_spec (distinct_runes t) 6)];
    rewrite ?list_elem_of_singleton, ?elem_of_nil; destruct e; simpl; fold t; intuition (congruence || lia).
Qed.

Lemma elem_of_invalid err urls e : e ∈ invalid_urls err urls ↔ ∃ raw, e = err raw ∧ raw ∈ urls ∧ is_http raw = false.
Proof.
  unfold invalid_urls. rewrite list_elem_of_fmap. apply exist_proper. intros raw.
  rewrite list_elem_of_In, filter_In, <- list_elem_of_In, negb_true_iff. tauto.
Qed.

Lemma default_of_network {A} (f : string → list A) n :
  (∀ m, m ≠ "testnet" → m ≠ "mainnet" → f m = []) →
  f (if decide (n = "testnet" ∨ n = "mainnet") then n else "") = f n.
Proof. intros Hf. case_decide as Hn; [done|]. rewrite (Hf n) by tauto. by apply Hf. Qed.

Lemma rpc_pool : or_default (splitURLs (env lookup "RPC_URLS")) (defaultRPCURLs (load_network lookup).2) = rpc_urls lookup.
Proof.
  unfold rpc_urls. rewrite load_network_value, default_of_network; [done|].
  intros m Ht Hm. unfold defaultRPCURLs, NetworkTestnet. by rewrite bool_decide_eq_false_2.
Qed.

Lemma archive_pool : or_default (splitURLs (env lookup "HISTORY_ARCHIVE_URLS"))
  (defaultArchiveURLs (load_network lookup).2) = archive_urls lookup.
Proof.
  unfold archive_urls. rewrite load_network_value, default_of_network; [done|].
  intros m Ht Hm. unfold defaultArchiveURLs, NetworkTestnet, NetworkMainnet. by rewrite !bool_decide_eq_false_2.
Qed.

Lemma load_rpc_faults e : e ∈ (load_rpc lookup (load_network lookup).2).1 ↔
  match e with RPCRequired | RPCInvalid _ => faulty lookup e | _ => False end.
Proof.
  unfold load_rpc. cbv zeta. rewrite rpc_pool. simpl. rewrite elem_of_app, elem_of_invalid.
  assert (Hreq : e ∈ (if Nat.eqb (length (rpc_urls lookup)) 0 && bool_decide ((load_network lookup).2 ≠ "")
                      then [RPCRequired] else []) ↔ e = RPCRequired ∧ faulty lookup RPCRequired).
  { assert (Hf : (length (rpc_urls lookup) = 0%nat ∧ (load_network lookup).2 ≠ "") ↔ faulty lookup RPCRequired).
    { rewrite load_network_value. unfold rpc_urls, or_default, defaultRPCURLs, NetworkTestnet. simpl.
      destruct (splitURLs (env lookup "RPC_URLS")); simpl; [|intuition congruence].
      case_bool_decide as E; [rewrite E; simpl; intuition congruence|].
      case_decide as D; [|intuition congruence]. destruct D as [D|D]; [done|rewrite D]. simpl. intuition congruence. }
    rewrite <- Hf. clear Hf. destruct (Nat.eqb_spec (length (rpc_urls lookup)) 0); simpl; [case_bool_decide|];
      rewrite ?list_elem_of_singleton, ?elem_of_nil; tauto. }
  rewrite Hreq. destruct e; simpl; naive_solver.
Qed.

Lemma load_port_faults e : e ∈ (load_port lookup).1 ↔ match e with PortInvalid _ => faulty lookup e | _ => False end.
Proof.
  unfold load_port. destruct (set_env lookup "HTTP_PORT") as [raw|] eqn:Hs.
  2: { simpl. rewrite elem_of_nil. destruct e; simpl; rewrite ?Hs; intuition congruence. }
  destruct (Atoi raw) as [p|] eqn:Hp.
  - destruct ((p <? 1) || (65535 <? p)) eqn:Hr; simpl; rewrite ?list_elem_of_singleton, ?elem_of_nil.
    + assert (¬ 1 ≤ p ≤ 65535) by (apply orb_true_iff in Hr as [?%Z.ltb_lt|?%Z.ltb_lt]; lia).
      destruct e; simpl; rewrite ?Hs; naive_solver.
    + assert (1 ≤ p ≤ 65535) by (apply orb_false_iff in Hr as [?%Z.ltb_ge ?%Z.ltb_ge]; lia).
      destruct e; simpl; rewrite ?Hs; naive_solver.
  - simpl. rewrite list_elem_of_singleton. destruct e; simpl; rewrite ?Hs; naive_solver.
Qed.

Lemma load_start_faults e : e ∈ (load_start lookup).1 ↔ match e with StartInvalid _ => faulty lookup e | _ => False end.
Proof.
  unfold load_start. destruct (set_env lookup "START_LEDGER") as [raw|] eqn:Hs.
  2: { simpl. rewrite elem_of_nil. destruct e; simpl; rewrite ?Hs; intuition congruence. }
  destruct (ParseUint32 raw) as [p|] eqn:Hp.
  - destruct (Z.eqb_spec p 0); simpl; rewrite ?list_elem_of_singleton, ?elem_of_nil;
      destruct e; simpl; rewrite ?Hs; naive_solver.
  - simpl. rewrite list_elem_of_singleton. destruct e; simpl; rewrite ?Hs; naive_solver.
Qed.

Lemma load_core_faults e : e ∈ (load_core lookup).1 ↔
  match e with CoreMissing _ | CoreNotExecutable _ => faulty lookup e | _ => False end.
Proof.
  unfold load_core. destruct (set_env lookup "STELLAR_CORE_BINARY") as [bin|] eqn:Hs.
  2: { simpl. rewrite elem_of_nil. destruct e; simpl; rewrite ?Hs; naive_solver. }
  destruct (os_Stat bin) as [[isDir perm]|] eqn:Hst.
  - destruct (isDir || (Z.land perm 73 =? 0)) eqn:Hx; simpl; rewrite ?list_elem_of_singleton, ?elem_of_nil.
    + assert (isDir = true ∨ Z.land perm 73 = 0) by (apply orb_true_iff in Hx as [?|?%Z.eqb_eq]; auto).
      destruct e; simpl; rewrite ?Hs; naive_solver.
    + apply orb_false_iff in Hx as [? ?%Z.eqb_neq]. destruct e; simpl; rewrite ?Hs; naive_solver.
  - simpl. rewrite list_elem_of_singleton. destruct e; simpl; rewrite ?Hs; naive_solver.
Qed.

Lemma no_core : (load_core lookup).2 = "" ↔ ¬ has_core lookup.
Proof.
  unfold load_core, has_core. destruct (set_env lookup "STELLAR_CORE_BINARY") as [bin|] eqn:Hs; [|naive_solver].
  pose proof (set_env_nonempty _ _ Hs) as Hne.
  destruct (os_Stat bin) as [[isDir perm]|] eqn:Hst; [|naive_solver].
  destruct isDir; simpl; [naive_solver|]. destruct (Z.eqb_spec (Z.land perm 73) 0); simpl; [naive_solver|].
  split; [done|]. intros Hno. destruct Hno. by exists bin, perm.
Qed.

Lemma elem_of_without_core e e' : e ∈ without_core (load_core lookup).2 e' ↔ e = e' ∧ ¬ has_core lookup.
Proof.
  unfold without_core. rewrite <- no_core. case_bool_decide; rewrite ?list_elem_of_singleton, ?elem_of_nil; tauto.
Qed.

Lemma load_archives_faults e : e ∈ (load_archives lookup (load_network lookup).2 (load_core lookup).2).1 ↔
  match e with ArchiveInvalid _ | ArchiveWithoutCore => faulty lookup e | _ => False end.
Proof.
  unfold load_archives. cbv zeta. rewrite archive_pool. simpl. rewrite elem_of_app, elem_of_invalid.
  fold (without_core (load_core lookup).2 ArchiveWithoutCore).
  destruct (set_env lookup "HISTORY_ARCHIVE_URLS") eqn:Hs; rewrite ?elem_of_without_core, ?elem_of_nil;
    destruct e; simpl; rewrite ?Hs; naive_solver.
Qed.

Lemma load_storage_faults e : e ∈ (load_storage lookup (load_core lookup).2).1 ↔
  match e with StorageWithoutCore => faulty lookup e | _ => False end.
Proof.
  unfold load_storage. destruct (set_env lookup "CAPTIVE_STORAGE_PATH") eqn:Hs; simpl;
    rewrite ?elem_of_without_core, ?elem_of_nil; destruct e; simpl; rewrite ?Hs; naive_solver.
Qed.

Lemma load_workers_faults e : e ∈ (load_workers lookup (load_core lookup).2).1 ↔
  match e with WorkersWithoutCore | WorkersInvalid _ => faulty lookup e | _ => False end.
Proof.
  unfold load_workers, maxHealWorkers. destruct (set_env lookup "HEAL_WORKERS") as [raw|] eqn:Hs.
  2: { simpl. rewrite elem_of_nil. destruct e; simpl; rewrite ?Hs; naive_solver. }
  destruct (Atoi raw) as [v|] eqn:Hv.
  - destruct ((v <? 1) || (16 <? v)) eqn:Hr; simpl; rewrite elem_of_app, elem_of_without_core,
      ?list_elem_of_singleton, ?elem_of_nil.
    + assert (¬ 1 ≤ v ≤ 16) by (apply orb_true_iff in Hr as [?%Z.ltb_lt|?%Z.ltb_lt]; lia).
      destruct e; simpl; rewrite ?Hs; naive_solver.
    + assert (1 ≤ v ≤ 16) by (apply orb_false_iff in Hr as [?%Z.ltb_ge ?%Z.ltb_ge]; lia).
      destruct e; simpl; rewrite ?Hs; naive_solver.
  - simpl. rewrite elem_of_app, elem_of_without_core, list_elem_of_singleton.
    destruct e; simpl; rewrite ?Hs; naive_solver.
Qed.

Lemma load_chunk_faults e : e ∈ (load_chunk lookup (load_core lookup).2).1 ↔
  match e with ChunkWithoutCore | ChunkInvalid _ => faulty lookup e | _ => False end.
Proof.
  unfold load_chunk. destruct (set_env lookup "HEAL_CHUNK_LEDGERS") as [raw|] eqn:Hs.
  2: { simpl. rewrite elem_of_nil. destruct e; simpl; rewrite ?Hs; naive_solver. }
  destruct (ParseUint32 raw) as [v|] eqn:Hv.
  - destruct (Z.ltb_spec v 64) as [Hr|Hr]; simpl; rewrite elem_of_app, elem_of_without_core,
      ?list_elem_of_singleton, ?elem_of_nil.
    + destruct e; simpl; rewrite ?Hs; naive_solver.
    + assert (¬ v < 64) by lia. clear Hr. destruct e; simpl; rewrite ?Hs; naive_solver.
  - simpl. rewrite elem_of_app, elem_of_without_core, list_elem_of_singleton.
    destruct e; simpl; rewrite ?Hs; naive_solver.
Qed.

Lemma load_basic_faults e : e ∈ (load_basic lookup).1 ↔
  match e with BasicMalformed | BasicShort => faulty lookup e | _ => False end.
Proof.
  unfold load_basic. destruct (set_env lookup "HTTP_BASIC_AUTH") as [raw|] eqn:Hs.
  2: { simpl. rewrite elem_of_nil. destruct e; simpl; rewrite ?Hs; naive_solver. }
  destruct (cut_at 58 (codes raw)) as [[user pass]|] eqn:Hcut.
  2: { simpl. rewrite list_elem_of_singleton. destruct e; simpl; rewrite ?Hs; naive_solver. }
  assert (pass ≠ [] → (0 < length pass)%nat) by (destruct pass; simpl; [done|lia]).
  assert ((0 < length pass)%nat → pass ≠ []) by (destruct pass; simpl; [lia|done]).
  case_bool_decide as E1; simpl; [|case_bool_decide as E2; simpl; [|destruct (Nat.ltb_spec (length pass) 12) as [E3|E3]; simpl]];
    rewrite ?list_elem_of_singleton, ?elem_of_nil; destruct e; simpl; rewrite ?Hs; try naive_solver.
  all: split; [try done; try naive_solver|]; intros (raw' & user' & pass' & Hr & Hc & Hu & Hp); simplify_eq;
    try done; simpl in *; lia.
Qed.

(** The errors of a load are the faults of the environment. *)
Definition errors (r : list cfgerr + Config) : list cfgerr := match r with inl errs => errs | inr _ => [] end.

Lemma Load_faults e : e ∈ errors (Load lookup) ↔ faulty lookup e.
Proof.
  assert (Hall : e ∈ load_database lookup ++ (load_network lookup).1 ++ validateAdminToken (env lookup "ADMIN_TOKEN") ++
    (load_rpc lookup (load_network lookup).2).1 ++ (load_port lookup).1 ++ (load_start lookup).1 ++
    (load_core lookup).1 ++ (load_archives lookup (load_network lookup).2 (load_core lookup).2).1 ++
    (load_storage lookup (load_core lookup).2).1 ++ (load_workers lookup (load_core lookup).2).1 ++
    (load_chunk lookup (load_core lookup).2).1 ++ (load_basic lookup).1 ↔ faulty lookup e).
  { rewrite !elem_of_app, load_database_faults, load_network_faults, load_token_faults, load_rpc_faults,
      load_port_faults, load_start_faults, load_core_faults, load_archives_faults, load_storage_faults,
      load_workers_faults, load_chunk_faults, load_basic_faults. destruct e; tauto. }
  rewrite <- Hall. unfold Load. destruct (load_network lookup) as [e2 network]. cbn [fst snd].
  destruct (load_rpc lookup network) as [e4 rpc], (load_port lookup) as [e5 port].
  destruct (load_start lookup) as [e6 start], (load_core lookup) as [e7 core]. cbn [fst snd].
  destruct (load_archives lookup network core) as [e8 archives].
  destruct (load_storage lookup core) as [e9 storage]. destruct (load_workers lookup core) as [e10 workers].
  destruct (load_chunk lookup core) as [e11 chunk]. destruct (load_basic lookup) as [e12 [user password]]. cbn [fst].
  set (all := load_database lookup ++ _). clearbody all. by destruct all.
Qed.

Lemma Load_inl_some errs : Load lookup = inl errs → errs ≠ [].
Proof.
  unfold Load. destruct (load_network lookup) as [e2 network].
  destruct (load_rpc lookup network) as [e4 rpc], (load_port lookup) as [e5 port].
  destruct (load_start lookup) as [e6 start], (load_core lookup) as [e7 core].
  destruct (load_archives lookup network core) as [e8 archives].
  destruct (load_storage lookup core) as [e9 storage]. destruct (load_workers lookup core) as [e10 workers].
  destruct (load_chunk lookup core) as [e11 chunk]. destruct (load_basic lookup) as [e12 [user password]].
  destruct (load_database lookup ++ _) as [|e0 es]; [done|]. by intros [= <-].
Qed.
End faults.

(** A closed decidable fact. *)
Ltac by_computation := match goal with |- ?P => exact (bool_decide_eq_true_1 P eq_refl) end.

Section redact_lemmas.
Context `{System} (l1 l2 : string → option string) (Hsame : same_but_secrets l1 l2).

Lemma same_env name :
  name ∉ ["DATABASE_URL"; "ADMIN_TOKEN"; "RPC_URLS"; "HISTORY_ARCHIVE_URLS"; "HTTP_BASIC_AUTH"] →
  env l1 name = env l2 name ∧ set_env l1 name = set_env l2 name.
Proof. intros Hn. unfold env, set_env. by rewrite (sb_plain _ _ Hsame name Hn). Qed.

(** Defaults show like what they replace: nothing when it shows something. *)
Lemma host_or_default (u1 u2 d : list string) : host_of <$> u1 = host_of <$> u2 →
  host_of <$> or_default u1 d = host_of <$> or_default u2 d.
Proof. destruct u1, u2; try done; by intros [=]. Qed.

Lemma same_rpc network rpc1 rpc2 : load_rpc l1 network = ([], rpc1) → load_rpc l2 network = ([], rpc2) →
  host_of <$> rpc1 = host_of <$> rpc2.
Proof.
  unfold load_rpc. intros [= _ <-] [= _ <-]. apply host_or_default, (sb_rpc _ _ Hsame).
Qed.

Lemma same_archives network core a1 a2 :
  load_archives l1 network core = ([], a1) → load_archives l2 network core = ([], a2) →
  host_of <$> a1 = host_of <$> a2.
Proof.
  unfold load_archives. intros [= _ <-] [= _ <-]. apply host_or_default, (sb_archives _ _ Hsame).
Qed.

Lemma same_database : load_database l1 = [] → load_database l2 = [] → ∃ u1 u2,
  url_Parse (env l1 "DATABASE_URL") = Some u1 ∧ url_Parse (env l2 "DATABASE_URL") = Some u2 ∧
  u_Redacted u1 = u_Redacted u2.
Proof.
  intros H1%load_database_ok H2%load_database_ok. pose proof (sb_database _ _ Hsame) as Hdb. unfold is_postgres in *.
  destruct (url_Parse (env l1 "DATABASE_URL")) as [u1|]; [|done].
  destruct (url_Parse (env l2 "DATABASE_URL")) as [u2|]; [|done]. injection Hdb as Hdb. by exists u1, u2.
Qed.

Lemma same_basic user1 pass1 user2 pass2 :
  load_basic l1 = ([], (user1, pass1)) → load_basic l2 = ([], (user2, pass2)) →
  bool_decide (user1 ≠ "") = bool_decide (user2 ≠ "").
Proof.
  intros H1%load_basic_ok H2%load_basic_ok. pose proof (sb_basic _ _ Hsame) as Hb. apply bool_decide_ext. tauto.
Qed.

(** The stanzas without secrets agree. *)
Lemma same_plain : load_network l1 = load_network l2 ∧ load_port l1 = load_port l2 ∧
  load_start l1 = load_start l2 ∧ load_core l1 = load_core l2 ∧
  (∀ core, load_workers l1 core = load_workers l2 core) ∧ ∀ core, load_chunk l1 core = load_chunk l2 core.
Proof.
  unfold load_network, load_port, load_start, load_core, load_workers, load_chunk.
  rewrite (proj1 (same_env "NETWORK" ltac:(by_computation))), (proj2 (same_env "HTTP_PORT" ltac:(by_computation))),
    (proj2 (same_env "START_LEDGER" ltac:(by_computation))), (proj2 (same_env "STELLAR_CORE_BINARY" ltac:(by_computation))),
    (proj2 (same_env "HEAL_WORKERS" ltac:(by_computation))), (proj2 (same_env "HEAL_CHUNK_LEDGERS" ltac:(by_computation))).
  done.
Qed.
End redact_lemmas.

Lemma Load_wf `{System} (lookup : string → option string) (c : Config) : Load lookup = inr c → config_wf c.
Proof.
  intros Hload. destruct (Load_inr _ _ Hload) as (network & rpc & port & start & core & archives & storage & workers
    & chunk & user & password & Hdb & Hnet & Htok & Hrpc & Hport & Hstart & Hcore & Harch & Hstor & Hwork & Hchunk
    & Hbasic & ->).
  pose proof (load_network_ok _ _ Hnet) as Hn. assert (Hne : network ≠ "") by (by destruct Hn as [->| ->]).
  pose proof (load_rpc_ok _ _ _ Hne Hrpc) as Hr. pose proof (load_workers_ok _ _ _ Hwork) as [Hw Hw0].
  pose proof (load_chunk_ok _ _ _ Hchunk) as [Hc Hc0]. pose proof (validateAdminToken_ok _ Htok) as Ht.
  pose proof (load_basic_ok _ _ _ Hbasic) as Hb.
  split; cbn; try done; try (by eapply load_port_ok); try (by eapply load_start_ok);
    try (by eapply load_core_ok); try (by eapply load_archives_ok).
  - by apply load_database_ok.
  - intros Hcore0. split_and!; [by apply Hw0|by apply Hc0|by eapply load_storage_ok].
  - destruct Hb as [(_ & ? & ?)|(_ & ? & ? & ?)]; auto.
Qed.

(** The fields hold the environment's values. *)
Lemma Load_from `{System} (lookup : string → option string) (c : Config) :
  Load lookup = inr c → loaded_from lookup c.
Proof.
  intros Hload. assert (Hnone : ∀ e, ¬ faulty lookup e).
  { intros e He%Load_faults. rewrite Hload in He. by apply elem_of_nil in He. }
  destruct (Load_inr _ _ Hload) as (network & rpc & port & start & core & archives & storage & workers
    & chunk & user & password & _ & Hnet & _ & Hrpc & Hport & Hstart & Hcore & Harch & Hstor & Hwork & Hchunk
    & Hbasic & ->).
  assert (En : network = (load_network lookup).2) by (by rewrite Hnet).
  pose proof (load_network_ok _ _ Hnet) as Hn.
  split; cbn; try done.
  - rewrite En, load_network_value. case_decide as D; [done|].
    rewrite En, load_network_value, decide_False in Hn by done. by destruct Hn.
  - rewrite <- rpc_pool, <- En. unfold load_rpc in Hrpc. by injection Hrpc.
  - revert Hport. unfold load_port. destruct (set_env lookup "HTTP_PORT") as [raw|]; [|by intros [= <-]].
    destruct (Atoi raw) as [v|]; [|done]. destruct (_ || _); [done|]. by intros [= <-].
  - revert Hstart. unfold load_start. destruct (set_env lookup "START_LEDGER") as [raw|]; [|by intros [= <-]].
    destruct (ParseUint32 raw) as [v|] eqn:Hv; [|done]. destruct (_ =? _); [done|]. intros [= <-].
    by rewrite u32_small by (by eapply ParseUint32_range).
  - revert Hcore. unfold load_core. destruct (set_env lookup "STELLAR_CORE_BINARY") as [bin|]; [|by intros [= <-]].
    destruct (os_Stat bin) as [[isDir perm]|]; [|done]. destruct (_ || _); [done|]. by intros [= <-].
  - rewrite <- archive_pool, <- En. unfold load_archives in Harch. by injection Harch.
  - revert Hstor. unfold load_storage. destruct (set_env lookup "CAPTIVE_STORAGE_PATH") as [p|]; intros E; injection E; intros; by subst.
  - revert Hwork. unfold load_workers. destruct (set_env lookup "HEAL_WORKERS") as [raw|]; [|by intros [= <-]].
    destruct (Atoi raw) as [v|]; [destruct (_ || _)|]; unfold without_core; case_bool_decide; try done. by intros [= <-].
  - revert Hchunk. unfold load_chunk. destruct (set_env lookup "HEAL_CHUNK_LEDGERS") as [raw|]; [|by intros [= <-]].
    destruct (ParseUint32 raw) as [v|] eqn:Hv; [destruct (_ <? _)|]; unfold without_core; case_bool_decide; try done.
    intros [= <-]. by rewrite u32_small by (by eapply ParseUint32_range).
  - revert Hbasic. unfold load_basic. destruct (set_env lookup "HTTP_BASIC_AUTH") as [raw|]; [|by intros [= <- <-]].
    destruct (cut_at 58 (codes raw)) as [[u p]|] eqn:Hcut; [|done].
    do 2 (case_bool_decide; [done|]). simpl. destruct (Nat.ltb_spec (length p) 12); [done|]. intros [= <- <-].
    apply cut_at_free in Hcut as [_ Hraw]. pose proof (codes_bytes raw) as Hb. rewrite Hraw in Hb |- *.
    apply Forall_app in Hb as [Hu Hp]. apply Forall_cons in Hp as [_ Hp]. fold (codes (of_codes u)) (codes (of_codes p)). by rewrite !codes_of_codes.
Qed.

(** ** Properties *)

(** C38.  A configuration is validated in full and reported in full.  The errors
    of a load are all the faults of the environment and nothing else: a refusal
    names at least one, and an environment with a fault (a missing or wrong
    variable, and any variable of the archive leg without a core, the archives'
    URLs among them) is refused with it.  A configuration that loads holds the
    environment's values or their defaults, and is one the process can run with:
    every field is valid; and so the RPC client starts with a preferred endpoint
    and a batch ceiling in range, the healer gets between one and 16 workers and
    chunks of at least a checkpoint, the admin token is not empty, and a
    configured user and password, sent by a client, open the gate. *)
Theorem Load_valid `{System} (lookup : string → option string) :
  (∀ e, e ∈ errors (Load lookup) ↔ faulty lookup e) ∧
  match Load lookup with
  | inl errs => errs ≠ []
  | inr c =>
      (∀ e, ¬ faulty lookup e) ∧ loaded_from lookup c ∧ config_wf c ∧
      (∃ cl, Rpc.New (cf_RPCURLs c) = Some cl ∧ in_pool (cf_RPCURLs c) cl ∧ ceiling_ok cl) ∧
      1 ≤ workersOf (cf_HealWorkers c) ≤ maxHealWorkers ∧ 64 ≤ chunkOf (cf_HealChunkLedgers c) ≤ max_u32 ∧
      cf_AdminToken c ≠ "" ∧ Passphrase (cf_Network c) ≠ "" ∧
      (BasicAuthEnabled c = true → ∀ path,
         Wrap (cf_BasicAuthUser c) (cf_BasicAuthPassword c) (cf_AdminToken c) path
           (basic_header (cf_BasicAuthUser c) (cf_BasicAuthPassword c)) = true)
  end.
Proof.
  split; [apply Load_faults|]. destruct (Load lookup) as [errs|c] eqn:Hload; [by eapply Load_inl_some|].
  split. { intros e He%Load_faults. rewrite Hload in He. by apply elem_of_nil in He. }
  split; [by apply Load_from|]. apply Load_wf in Hload. split; [done|]. destruct Hload. split_and?.
  - destruct wf_rpc0 as [Hr _]. destruct (cf_RPCURLs c) as [|u rpc]; [done|]. eexists. split; [done|].
    split; [unfold in_pool; simpl; lia|]. unfold ceiling_ok, maxBatchLimit. simpl. lia.
  - unfold workersOf, maxHealWorkers in *. destruct (Z.ltb_spec (cf_HealWorkers c) 1); lia.
  - unfold workersOf, maxHealWorkers in *. destruct (Z.ltb_spec (cf_HealWorkers c) 1); lia.
  - unfold chunkOf, defaultHealChunkLedgers. destruct (Z.eqb_spec (cf_HealChunkLedgers c) 0); uarith.
  - unfold chunkOf, defaultHealChunkLedgers. destruct (Z.eqb_spec (cf_HealChunkLedgers c) 0); uarith.
  - intros Ht0. rewrite Ht0 in wf_token0. simpl in wf_token0. lia.
  - by destruct wf_network0 as [->| ->].
  - unfold BasicAuthEnabled. rewrite bool_decide_eq_true. intros Hu path.
    apply Wrap_header. destruct wf_basic0 as [(? & _)|(_ & ? & _)]; done.
Qed.

(** The log line of the configuration keeps the secrets.  Two environments
    that load and differ in nothing but the admin token, the credentials of the
    gate, the secret part of the database URL and the paths of the RPC and
    archive URLs (where providers put their keys) render to the same line. *)
Theorem Redacted_hides `{System} (l1 l2 : string → option string) (c1 c2 : Config) :
  same_but_secrets l1 l2 → Load l1 = inr c1 → Load l2 = inr c2 → Redacted c1 = Redacted c2.
Proof.
  intros Hsame H1 H2.
  destruct (Load_inr _ _ H1) as (net1 & rpc1 & port1 & start1 & core1 & arch1 & stor1 & work1 & chunk1 & user1 & pass1
    & Hdb1 & Hnet1 & _ & Hrpc1 & Hport1 & Hstart1 & Hcore1 & Harch1 & _ & Hwork1 & Hchunk1 & Hbasic1 & ->).
  destruct (Load_inr _ _ H2) as (net2 & rpc2 & port2 & start2 & core2 & arch2 & stor2 & work2 & chunk2 & user2 & pass2
    & Hdb2 & Hnet2 & _ & Hrpc2 & Hport2 & Hstart2 & Hcore2 & Harch2 & _ & Hwork2 & Hchunk2 & Hbasic2 & ->).
  destruct (same_plain _ _ Hsame) as (Enet & Eport & Estart & Ecore & Ework & Echunk).
  rewrite Enet in Hnet1. rewrite Eport in Hport1. rewrite Estart in Hstart1. rewrite Ecore in Hcore1.
  rewrite Ework in Hwork1. rewrite Echunk in Hchunk1. rewrite Hnet1 in Hnet2. injection Hnet2 as <-.
  rewrite Hport1 in Hport2. injection Hport2 as <-. rewrite Hstart1 in Hstart2. injection Hstart2 as <-.
  rewrite Hcore1 in Hcore2. injection Hcore2 as <-. rewrite Hwork1 in Hwork2. injection Hwork2 as <-.
  rewrite Hchunk1 in Hchunk2. injection Hchunk2 as <-.
  unfold Redacted, archive_text, ArchiveEnabled, BasicAuthEnabled. cbn.
  destruct (same_database _ _ Hsame Hdb1 Hdb2) as (u1 & u2 & -> & -> & ->).
  rewrite (same_rpc _ _ Hsame _ _ _ Hrpc1 Hrpc2), (same_archives _ _ Hsame _ _ _ _ Harch1 Harch2).
  by rewrite (same_basic _ _ Hsame _ _ _ _ Hbasic1 Hbasic2).
Qed.

(** ** Witnesses and concrete runs *)

(** A system that knows two URLs with a secret each, and one executable. *)
#[local] Instance demo_system : System := {|
  url_Parse raw :=
    if String.eqb raw "postgres://u:one@db/x" then Some (mkURL "postgres" "db" "postgres://u:xxxxx@db/x")
    else if String.eqb raw "postgres://u:two@db/x" then Some (mkURL "postgres" "db" "postgres://u:xxxxx@db/x")
    else if String.eqb raw "https://rpc/key1" then Some (mkURL "https" "rpc" raw)
    else if String.eqb raw "https://rpc/key2" then Some (mkURL "https" "rpc" raw)
    else if String.prefix "https://history.stellar.org/" raw then Some (mkURL "https" "history.stellar.org" raw)
    else None;
  os_Stat path := if String.eqb path "/usr/bin/stellar-core" then Some (false, 493) else None;
  os_TempDir := "/tmp" |}.

Definition demo_lookup (db token rpc basic : string) (name : string) : option string :=
  if String.eqb name "DATABASE_URL" then Some db
  else if String.eqb name "NETWORK" then Some "mainnet"
  else if String.eqb name "ADMIN_TOKEN" then Some token
  else if String.eqb name "RPC_URLS" then Some rpc
  else if String.eqb name "STELLAR_CORE_BINARY" then Some "/usr/bin/stellar-core"
  else if String.eqb name "HEAL_WORKERS" then Some "4"
  else if String.eqb name "HEAL_CHUNK_LEDGERS" then Some "128"
  else if String.eqb name "HTTP_BASIC_AUTH" then Some basic
  else None.

Definition demo_env1 : string → option string :=
  demo_lookup "postgres://u:one@db/x" "0123456789abcdef" " https://rpc/key1 ," "ops:correct horse".
Definition demo_env2 : string → option string :=
  demo_lookup "postgres://u:two@db/x" "fedcba9876543210" "https://rpc/key2" "me:battery staple".

Definition demo_config (db token rpc user pass : string) : Config :=
  mkConfig db "mainnet" token [rpc] 8080 0 "/usr/bin/stellar-core" (defaultArchiveURLs "mainnet") "/tmp" 4 128 user pass.

Lemma demo_load1 : Load demo_env1 =
  inr (demo_config "postgres://u:one@db/x" "0123456789abcdef" "https://rpc/key1" "ops" "correct horse").
Proof. vm_compute. reflexivity. Qed.

Lemma demo_load2 : Load demo_env2 =
  inr (demo_config "postgres://u:two@db/x" "fedcba9876543210" "https://rpc/key2" "me" "battery staple").
Proof. vm_compute. reflexivity. Qed.

(** Every failure is reported at once. *)
Example demo_errors : Load (λ name, if String.eqb name "HEAL_WORKERS" then Some "17" else None)
  = inl [DatabaseRequired; NetworkRequired; TokenRequired; WorkersWithoutCore; WorkersInvalid "17"].
Proof. vm_compute. reflexivity. Qed.

Lemma Load_valid_witness :
  config_wf (demo_config "postgres://u:one@db/x" "0123456789abcdef" "https://rpc/key1" "ops" "correct horse") ∧
  Wrap "ops" "correct horse" "0123456789abcdef" "/v1/contracts" (basic_header "ops" "correct horse") = true.
Proof.
  pose proof (Load_valid demo_env1) as [_ Hload]. rewrite demo_load1 in Hload.
  destruct Hload as (_ & _ & Hwf & _ & _ & _ & _ & _ & Hgate).
  split; [exact Hwf|]. apply (Hgate eq_refl "/v1/contracts").
Defined.

Lemma demo_same : same_but_secrets demo_env1 demo_env2.
Proof.
  split; [|reflexivity..|by vm_compute].
  intros name Hname. unfold demo_env1, demo_env2, demo_lookup.
  repeat match goal with |- context [String.eqb name ?k] => destruct (String.eqb_spec name k) as [->|] end;
    first [reflexivity | destruct Hname; set_solver].
Qed.

Lemma Redacted_hides_witness :
  Redacted (demo_config "postgres://u:one@db/x" "0123456789abcdef" "https://rpc/key1" "ops" "correct horse")
  = Redacted (demo_config "postgres://u:two@db/x" "fedcba9876543210" "https://rpc/key2" "me" "battery staple").
Proof. exact (Redacted_hides demo_env1 demo_env2 _ _ demo_same demo_load1 demo_load2). Defined.
