(* ===== verification/Metrics.v ===== *)
(** * Prometheus instruments ([internal/health/health.go])

    The instrument set of a process: what [NewMetrics] registers, and what the
    ingestion loop, the backfiller and the healer count through its methods.
    The Prometheus client is a parameter: handles into a store of its own, whose
    documented behaviour is [PrometheusLaws]. *)

From Stdlib Require Import SpecFloat Ascii.
From S2P Require Import Prelude HealPlan Db Gaps Rows Registrations Commit Registry Api Extract Loop Workers Backfill Heal.

(** ** Definitions *)

(** [float64(n)] of an [int], rounded to the nearest, and [d.Seconds()] of a
    duration in nanoseconds. *)
Definition float64 (n : Z) : spec_float := binary_normalize 53 1024 n 0 false.

Definition Seconds (d : Z) : spec_float :=
  SFadd 53 1024 (float64 (Z.quot d 1000000000)) (SFdiv 53 1024 (float64 (Z.rem d 1000000000)) (float64 1000000000)).

(** The client library: a registry's factory panics ([None]) on what it cannot
    register, and a counter on a negative addition. *)
Class Prometheus := {
  client : Type;
  Counter : Type; Gauge : Type; Histogram : Type; Registry : Type;
  NewRegistry : client → Registry * client;
  NewCounter : Registry → string → client → option (Counter * client);
  NewGauge : Registry → string → client → option (Gauge * client);
  NewHistogram : Registry → string → client → option (Histogram * client);
  Counter_Inc : Counter → client → option client;
  Counter_Add : Counter → spec_float → client → option client;
  Gauge_Set : Gauge → spec_float → client → option client;
  Histogram_Observe : Histogram → spec_float → client → option client;
  (** what is registered, and what a counter and a gauge read *)
  registered : Registry → client → gset string;
  counter_name : Counter → string;
  counter_value : Counter → client → Z }.

(** [[a-zA-Z_:][a-zA-Z0-9_:]*] *)
Definition name_start (c : ascii) : bool :=
  let n := nat_of_ascii c in
  ((97 <=? n) && (n <=? 122) || (65 <=? n) && (n <=? 90) || (n =? 95) || (n =? 58))%nat.
Definition name_char (c : ascii) : bool :=
  name_start c || ((48 <=? nat_of_ascii c) && (nat_of_ascii c <=? 57))%nat.
Definition valid_name (s : string) : bool :=
  match s with
  | EmptyString => false
  | String c rest => name_start c && forallb name_char (String.list_ascii_of_string rest)
  end.

(** Counts a [float64] holds exactly. *)
Definition exact_count (n : Z) : Prop := 0 ≤ n < 2 ^ 53.

(** Documented of the client: a valid name not yet registered is accepted, and
    starts a counter at zero; metrics are told apart by their name; counters
    only grow, by what is added. *)
Class PrometheusLaws `{Prometheus} := {
  fresh_registry s : registered (NewRegistry s).1 (NewRegistry s).2 = ∅;
  new_counter r name s : valid_name name = true → name ∉ registered r s →
    ∃ c s', NewCounter r name s = Some (c, s') ∧ counter_name c = name ∧ counter_value c s' = 0 ∧
      registered r s' = {[name]} ∪ registered r s ∧
      ∀ c', counter_name c' ≠ name → counter_value c' s' = counter_value c' s;
  new_gauge r name s : valid_name name = true → name ∉ registered r s →
    ∃ g s', NewGauge r name s = Some (g, s') ∧ registered r s' = {[name]} ∪ registered r s ∧
      ∀ c', counter_value c' s' = counter_value c' s;
  new_histogram r name s : valid_name name = true → name ∉ registered r s →
    ∃ h s', NewHistogram r name s = Some (h, s') ∧ registered r s' = {[name]} ∪ registered r s ∧
      ∀ c', counter_value c' s' = counter_value c' s;
  inc_counts c s : exact_count (counter_value c s + 1) →
    ∃ s', Counter_Inc c s = Some s' ∧ counter_value c s' = counter_value c s + 1 ∧
      ∀ c', counter_name c' ≠ counter_name c → counter_value c' s' = counter_value c' s;
  add_counts c n s : 0 ≤ n → exact_count (counter_value c s + n) →
    ∃ s', Counter_Add c (float64 n) s = Some s' ∧ counter_value c s' = counter_value c s + n ∧
      ∀ c', counter_name c' ≠ counter_name c → counter_value c' s' = counter_value c' s;
  add_negative c n s : - 2 ^ 53 < n < 0 → Counter_Add c (float64 n) s = None;
  set_counts g f s : ∃ s', Gauge_Set g f s = Some s' ∧ ∀ c, counter_value c s' = counter_value c s;
  observe_counts h f s : ∃ s', Histogram_Observe h f s = Some s' ∧ ∀ c, counter_value c s' = counter_value c s }.

(** *** The instrument set *)
Record Metrics `{Prometheus} := mkMetrics {
  LedgersIngested : Counter; TipLagSeconds : Gauge; SourceFailovers : Counter; CommitSeconds : Histogram;
  OpenGaps : Gauge; DeferredGaps : Gauge; DeferredLedgers : Gauge; EventsExtracted : Counter;
  StateChanges : Counter; Transfers : Counter; TrustlineChanges : Counter; Movements : Counter;
  ForeignUndecodable : Counter; FailedTxs : Counter; SuppressedTxs : Counter; SuppressedEvents : Counter;
  SuppressedTransfers : Counter; SuppressedTrustlines : Counter; BackfillChunks : Counter;
  BackfillLedgers : Counter; BackfillPending : Gauge; GapsHealed : Counter; HealedLedgers : Counter;
  EquivalenceFailures : Counter; registry : Registry }.

(** Sequencing of calls that may panic. *)
Declare Scope prom_scope.
Delimit Scope prom_scope with prom.
Definition p_bind {σ A B} (m : σ → option (A * σ)) (f : A → σ → option (B * σ)) : σ → option (B * σ) :=
  λ s, match m s with Some (a, s) => f a s | None => None end.
Definition p_ret {σ A} (a : A) : σ → option (A * σ) := λ s, Some (a, s).
Notation "x <-p m ; e" := (p_bind m (λ x, e)) (at level 100, m at next level, right associativity) : prom_scope.
#[local] Open Scope prom_scope.

Definition NewMetrics `{Prometheus} : client → option (Metrics * client) :=
  reg <-p (λ s, Some (NewRegistry s)) ;
  ingested <-p NewCounter reg "sierpe_ledgers_ingested_total" ;
  tipLag <-p NewGauge reg "sierpe_tip_lag_seconds" ;
  failovers <-p NewCounter reg "sierpe_source_failovers_total" ;
  commit <-p NewHistogram reg "sierpe_commit_duration_seconds" ;
  openGaps <-p NewGauge reg "sierpe_open_gaps" ;
  deferredGaps <-p NewGauge reg "sierpe_deferred_gaps" ;
  deferredLedgers <-p NewGauge reg "sierpe_deferred_ledgers" ;
  events <-p NewCounter reg "sierpe_events_extracted_total" ;
  states <-p NewCounter reg "sierpe_state_changes_extracted_total" ;
  transfers <-p NewCounter reg "sierpe_transfers_extracted_total" ;
  trustlines <-p NewCounter reg "sierpe_trustline_changes_extracted_total" ;
  movements <-p NewCounter reg "sierpe_movements_extracted_total" ;
  foreign <-p NewCounter reg "sierpe_foreign_transfer_undecodable_total" ;
  failed <-p NewCounter reg "sierpe_failed_txs_skipped_total" ;
  txs <-p NewCounter reg "sierpe_suppressed_txs_total" ;
  suppressedEvents <-p NewCounter reg "sierpe_suppressed_events_total" ;
  suppressedTransfers <-p NewCounter reg "sierpe_suppressed_transfers_total" ;
  suppressedTrustlines <-p NewCounter reg "sierpe_suppressed_trustlines_total" ;
  chunks <-p NewCounter reg "sierpe_backfill_chunks_total" ;
  ledgers <-p NewCounter reg "sierpe_backfill_ledgers_scanned_total" ;
  pending <-p NewGauge reg "sierpe_backfill_pending" ;
  healed <-p NewCounter reg "sierpe_gaps_healed_total" ;
  healedLedgers <-p NewCounter reg "sierpe_healed_ledgers_total" ;
  failures <-p NewCounter reg "sierpe_archive_equivalence_failures_total" ;
  p_ret (mkMetrics _ ingested tipLag failovers commit openGaps deferredGaps deferredLedgers events states transfers
    trustlines movements foreign failed txs suppressedEvents suppressedTransfers suppressedTrustlines chunks ledgers
    pending healed healedLedgers failures reg).

(** *** The methods *)
Section methods.
Context `{Prometheus}.
Implicit Types (m : Metrics) (n d : Z).

Definition IncLedgersIngested m : client → option client := Counter_Inc (LedgersIngested m).
Definition SetTipLag m d : client → option client := Gauge_Set (TipLagSeconds m) (Seconds d).
Definition ObserveCommit m d : client → option client := Histogram_Observe (CommitSeconds m) (Seconds d).
Definition IncEventsExtracted m n : client → option client := Counter_Add (EventsExtracted m) (float64 n).
Definition IncStateChangesExtracted m n : client → option client := Counter_Add (StateChanges m) (float64 n).
Definition IncFailedTxs m n : client → option client := Counter_Add (FailedTxs m) (float64 n).
Definition IncSuppressedTxs m n : client → option client := Counter_Add (SuppressedTxs m) (float64 n).
Definition IncSuppressedEvents m n : client → option client := Counter_Add (SuppressedEvents m) (float64 n).
Definition IncTransfersExtracted m n : client → option client := Counter_Add (Transfers m) (float64 n).
Definition IncSuppressedTransfers m n : client → option client := Counter_Add (SuppressedTransfers m) (float64 n).
Definition IncTrustlineChangesExtracted m n : client → option client := Counter_Add (TrustlineChanges m) (float64 n).
Definition IncSuppressedTrustlines m n : client → option client := Counter_Add (SuppressedTrustlines m) (float64 n).
Definition IncGapsHealed m : client → option client := Counter_Inc (GapsHealed m).
Definition AddHealedLedgers m n : client → option client := Counter_Add (HealedLedgers m) (float64 n).
Definition IncEquivalenceFailures m : client → option client := Counter_Inc (EquivalenceFailures m).
Definition IncMovementsExtracted m n : client → option client := Counter_Add (Movements m) (float64 n).
Definition IncForeignUndecodable m n : client → option client := Counter_Add (ForeignUndecodable m) (float64 n).
Definition IncBackfillChunks m : client → option client := Counter_Inc (BackfillChunks m).
Definition AddBackfillLedgers m n : client → option client := Counter_Add (BackfillLedgers m) (float64 n).

(** Calls one after the other. *)
Fixpoint calls (fs : list (client → option client)) (s : client) : option client :=
  match fs with [] => Some s | f :: fs => match f s with Some s => calls fs s | None => None end end.

Abbreviation len xs := (Z.of_nat (length xs)).

(** What every consumer counts of an extraction: the records... *)
Definition count_records m (r : Result) : list (client → option client) :=
  [IncEventsExtracted m (len (rs_Events r)); IncStateChangesExtracted m (len (rs_StateChanges r));
   IncTransfersExtracted m (len (rs_Transfers r)); IncTrustlineChangesExtracted m (len (rs_TrustlineChanges r));
   IncMovementsExtracted m (len (rs_Movements r))].

(** ... and what was skipped. *)
Definition count_skipped m (r : Result) : list (client → option client) :=
  [IncFailedTxs m (rs_FailedTxs r); IncSuppressedTxs m (rs_SuppressedTxs r);
   IncSuppressedEvents m (rs_SuppressedEvents r); IncSuppressedTransfers m (rs_SuppressedTransfers r);
   IncSuppressedTrustlines m (rs_SuppressedTrustlines r); IncForeignUndecodable m (rs_ForeignUndecodable r)].

(** The live loop before and after its commit. *)
Definition loop_extracted m (r : Result) : client → option client := calls (count_skipped m r).
Definition loop_committed m (r : Result) (took tipLag : Z) : client → option client :=
  calls ([ObserveCommit m took; IncLedgersIngested m] ++ count_records m r ++ [SetTipLag m tipLag]).

(** The backfiller after a group it scanned itself. *)
Definition backfill_committed m (scanned : Z) (r : Result) : client → option client :=
  calls ([IncBackfillChunks m; AddBackfillLedgers m scanned] ++ count_records m r ++ count_skipped m r).

(** The healer after a chunk. *)
Definition heal_committed m (to newNextTo : Z) (resolved : bool) (r : Result) : client → option client :=
  calls ([AddHealedLedgers m (to - newNextTo)] ++ (if resolved then [IncGapsHealed m] else []) ++
    count_records m r ++ count_skipped m r).
End methods.

(** *** Specification: the counters as the components keep them *)
Record totals := mkTotals {
  to_LedgersIngested : Z; to_SourceFailovers : Z; to_Tally : tally; to_BackfillChunks : Z; to_BackfillLedgers : Z;
  to_GapsHealed : Z; to_HealedLedgers : Z; to_EquivalenceFailures : Z }.

Definition no_totals : totals := mkTotals 0 0 no_tally 0 0 0 0 0.

(** A result without its records, and without what was skipped. *)
Definition skipped_only (r : Result) : Result :=
  mkResult [] [] [] [] [] (rs_FailedTxs r) (rs_SuppressedTxs r) (rs_SuppressedEvents r) (rs_SuppressedTransfers r)
    (rs_SuppressedTrustlines r) (rs_ForeignUndecodable r).
Definition records_only (r : Result) : Result :=
  mkResult (rs_Events r) (rs_StateChanges r) (rs_Transfers r) (rs_TrustlineChanges r) (rs_Movements r) 0 0 0 0 0 0.

(** What the components report to the instruments. *)
Inductive report :=
  | LoopExtracted (r : Result)
  | LoopCommitted (r : Result) (took tipLag : Z)
  | ChunkScanned (scanned : Z) (r : Result)
  | ChunkHealed (to newNextTo : Z) (resolved : bool) (r : Result)
  | GateRefused
  | FailedOver.

(** The failovers are counted by their feeder on the field itself. *)
Definition send `{Prometheus} (m : Metrics) (p : report) : client → option client :=
  match p with
  | LoopExtracted r => loop_extracted m r
  | LoopCommitted r took tipLag => loop_committed m r took tipLag
  | ChunkScanned scanned r => backfill_committed m scanned r
  | ChunkHealed to newNextTo resolved r => heal_committed m to newNextTo resolved r
  | GateRefused => IncEquivalenceFailures m
  | FailedOver => Counter_Inc (SourceFailovers m)
  end.

Definition account (t : totals) (p : report) : totals :=
  let '(mkTotals ingested failovers tally chunks ledgers healed healedLedgers failures) := t in
  match p with
  | LoopExtracted r => mkTotals ingested failovers (tally_add (skipped_only r) tally) chunks ledgers healed healedLedgers failures
  | LoopCommitted r _ _ => mkTotals (ingested + 1) failovers (tally_add (records_only r) tally) chunks ledgers healed healedLedgers failures
  | ChunkScanned scanned r => mkTotals ingested failovers (tally_add r tally) (chunks + 1) (ledgers + scanned) healed healedLedgers failures
  | ChunkHealed to newNextTo resolved r => mkTotals ingested failovers (tally_add r tally) chunks ledgers
      (if resolved then healed + 1 else healed) (healedLedgers + (to - newNextTo)) failures
  | GateRefused => mkTotals ingested failovers tally chunks ledgers healed healedLedgers (failures + 1)
  | FailedOver => mkTotals ingested (failovers + 1) tally chunks ledgers healed healedLedgers failures
  end.

(** What the counters read. *)
Definition readings `{Prometheus} (m : Metrics) (s : client) : totals :=
  let v := λ c, counter_value c s in
  mkTotals (v (LedgersIngested m)) (v (SourceFailovers m))
    (mkTally (v (EventsExtracted m)) (v (StateChanges m)) (v (Transfers m)) (v (TrustlineChanges m)) (v (Movements m))
       (v (FailedTxs m)) (v (SuppressedTxs m)) (v (SuppressedEvents m)) (v (SuppressedTransfers m))
       (v (SuppressedTrustlines m)) (v (ForeignUndecodable m)))
    (v (BackfillChunks m)) (v (BackfillLedgers m)) (v (GapsHealed m)) (v (HealedLedgers m)) (v (EquivalenceFailures m)).

(** Every total in the exact range. *)
Definition values (t : totals) : list Z :=
  let '(mkTotals a b (mkTally c d e f g h i j k l m) n o p q r) := t in
  [a; b; c; d; e; f; g; h; i; j; k; l; m; n; o; p; q; r].
Definition all_exact (t : totals) : Prop := Forall exact_count (values t).

(** Counts of an extraction are not negative. *)
Definition counts_up (r : Result) : Prop :=
  0 ≤ rs_FailedTxs r ∧ 0 ≤ rs_SuppressedTxs r ∧ 0 ≤ rs_SuppressedEvents r ∧ 0 ≤ rs_SuppressedTransfers r ∧
  0 ≤ rs_SuppressedTrustlines r ∧ 0 ≤ rs_ForeignUndecodable r.

Definition reportable (p : report) : Prop :=
  match p with
  | LoopExtracted r | LoopCommitted r _ _ => counts_up r
  | ChunkScanned scanned r => 0 ≤ scanned ∧ counts_up r
  | ChunkHealed to newNextTo _ r => newNextTo ≤ to ∧ counts_up r
  | GateRefused | FailedOver => True
  end.

(** The metrics documented in docs/METRICS.md, in the order they register. *)
Definition metric_names : list string :=
  ["sierpe_ledgers_ingested_total"; "sierpe_tip_lag_seconds"; "sierpe_source_failovers_total";
   "sierpe_commit_duration_seconds"; "sierpe_open_gaps"; "sierpe_deferred_gaps"; "sierpe_deferred_ledgers";
   "sierpe_events_extracted_total"; "sierpe_state_changes_extracted_total"; "sierpe_transfers_extracted_total";
   "sierpe_trustline_changes_extracted_total"; "sierpe_movements_extracted_total";
   "sierpe_foreign_transfer_undecodable_total"; "sierpe_failed_txs_skipped_total"; "sierpe_suppressed_txs_total";
   "sierpe_suppressed_events_total"; "sierpe_suppressed_transfers_total"; "sierpe_suppressed_trustlines_total";
   "sierpe_backfill_chunks_total"; "sierpe_backfill_ledgers_scanned_total"; "sierpe_backfill_pending";
   "sierpe_gaps_healed_total"; "sierpe_healed_ledgers_total"; "sierpe_archive_equivalence_failures_total"].

(** ** Lemmas *)

Section lemmas.
Context `{PrometheusLaws}.
Implicit Types (m : Metrics) (s : client) (c : Counter).

Definition counters m : list Counter :=
  [LedgersIngested m; SourceFailovers m; EventsExtracted m; StateChanges m; Transfers m; TrustlineChanges m;
   Movements m; FailedTxs m; SuppressedTxs m; SuppressedEvents m; SuppressedTransfers m; SuppressedTrustlines m;
   ForeignUndecodable m; BackfillChunks m; BackfillLedgers m; GapsHealed m; HealedLedgers m; EquivalenceFailures m].

(** The counters of a set carry different names. *)
Definition wired m : Prop := NoDup (counter_name <$> counters m).

(** [f] adds [k i] to the [i]-th counter. *)
Definition adds m (f : client → option client) (k : nat → Z) : Prop :=
  (∀ i, 0 ≤ k i) ∧
  ∀ s, (∀ i c, counters m !! i = Some c → 0 ≤ counter_value c s ∧ exact_count (counter_value c s + k i)) →
  ∃ s', f s = Some s' ∧ ∀ i c, counters m !! i = Some c → counter_value c s' = counter_value c s + k i.

Definition only (i : nat) (n : Z) : nat → Z := λ j, if Nat.eqb i j then n else 0.

Lemma adds_one m f i c n : wired m → counters m !! i = Some c → 0 ≤ n →
  (∀ s, exact_count (counter_value c s + n) → ∃ s', f s = Some s' ∧ counter_value c s' = counter_value c s + n ∧
     ∀ c', counter_name c' ≠ counter_name c → counter_value c' s' = counter_value c' s) →
  adds m f (only i n).
Proof.
  intros Hw Hc Hn Hf. split; [intros x; unfold only; destruct (Nat.eqb _ _); lia|].
  intros s Hs. destruct (Hs i c Hc) as [_ He]. unfold only in He. rewrite Nat.eqb_refl in He.
  destruct (Hf s He) as (s' & Hrun & Hv & Hother). exists s'. split; [done|]. intros j c' Hc'. unfold only.
  destruct (Nat.eqb_spec i j) as [<-|Hne]; [by rewrite Hc in Hc'; injection Hc' as <-|].
  rewrite Hother; [lia|]. intros E. apply Hne.
  eapply (NoDup_lookup _ _ _ (counter_name c) Hw); rewrite list_lookup_fmap; [by rewrite Hc|by rewrite Hc', <- E].
Qed.

Lemma adds_Inc m i c : wired m → counters m !! i = Some c → adds m (Counter_Inc c) (only i 1).
Proof. intros Hw Hc. eapply adds_one; [done|exact Hc|lia|]. intros s. apply inc_counts. Qed.

Lemma adds_Add m i c n : wired m → counters m !! i = Some c → 0 ≤ n → adds m (Counter_Add c (float64 n)) (only i n).
Proof. intros Hw Hc Hn. eapply adds_one; [done|exact Hc|done|]. intros s. by apply add_counts. Qed.

Lemma adds_none m f : (∀ s, ∃ s', f s = Some s' ∧ ∀ c, counter_value c s' = counter_value c s) → adds m f (λ _, 0).
Proof.
  intros Hf. split; [done|]. intros s _. destruct (Hf s) as (s' & ? & Hv). exists s'. split; [done|].
  intros i c _. by rewrite Hv, Z.add_0_r.
Qed.

(** Calls add up. *)
Lemma adds_nil m : adds m (calls []) (λ _, 0).
Proof. apply adds_none. intros s. by exists s. Qed.

Lemma adds_cons m f k fs ks : adds m f k → adds m (calls fs) ks → adds m (calls (f :: fs)) (λ i, k i + ks i).
Proof.
  intros [Hk Hf] [Hks Hfs]. split; [intros i; specialize (Hk i); specialize (Hks i); lia|]. intros s Hs. simpl.
  destruct (Hf s) as (s1 & -> & Hs1).
  { intros i c Hc. destruct (Hs i c Hc) as [Hz He]. split; [done|]. unfold exact_count in *.
    specialize (Hk i); specialize (Hks i). lia. }
  destruct (Hfs s1) as (s2 & -> & Hs2).
  { intros i c Hc. destruct (Hs i c Hc) as [Hz He]. rewrite (Hs1 i c Hc).
    specialize (Hk i). split; [lia|]. by rewrite <- Z.add_assoc. }
  exists s2. split; [done|]. intros i c Hc. rewrite (Hs2 i c Hc), (Hs1 i c Hc). lia.
Qed.

(** A report adds up to what the accounts say. *)
Ltac counter_at Hw i :=
  first
    [ apply (adds_Inc _ i _ Hw eq_refl)
    | apply (adds_Add _ i _ _ Hw eq_refl); lia
    | lazymatch i with 18%nat => fail | _ => let j := eval cbv in (S i) in counter_at Hw j end ].

Ltac each_call Hw :=
  repeat first
    [ apply adds_nil
    | apply adds_cons
    | apply adds_none; intros; first [apply observe_counts|apply set_counts]
    | counter_at Hw 0%nat ].

(** The totals by the counter's position. *)
Definition totals_at (v : nat → Z) : totals :=
  mkTotals (v 0%nat) (v 1%nat)
    (mkTally (v 2%nat) (v 3%nat) (v 4%nat) (v 5%nat) (v 6%nat) (v 7%nat) (v 8%nat) (v 9%nat) (v 10%nat) (v 11%nat) (v 12%nat))
    (v 13%nat) (v 14%nat) (v 15%nat) (v 16%nat) (v 17%nat).

Definition reading m s (i : nat) : Z := match counters m !! i with Some c => counter_value c s | None => 0 end.

Lemma all_exact_at v i : all_exact (totals_at v) → (i < 18)%nat → exact_count (v i).
Proof.
  intros Hv Hi. change (Forall exact_count (v <$> seq 0 18)) in Hv. rewrite Forall_fmap, Forall_forall in Hv.
  apply Hv, elem_of_seq. lia.
Qed.

Ltac read_all :=
  unfold totals_at, account, tally_add, skipped_only, records_only, only;
  cbn [Nat.eqb ta_Events ta_StateChanges ta_Transfers ta_TrustlineChanges ta_Movements
    ta_FailedTxs ta_SuppressedTxs ta_SuppressedEvents ta_SuppressedTransfers ta_SuppressedTrustlines
    ta_ForeignUndecodable rs_Events rs_StateChanges rs_Transfers rs_TrustlineChanges rs_Movements rs_FailedTxs
    rs_SuppressedTxs rs_SuppressedEvents rs_SuppressedTransfers rs_SuppressedTrustlines rs_ForeignUndecodable length];
  repeat (f_equal; try lia).

Lemma send_adds m p : wired m → reportable p → ∃ k, adds m (send m p) k ∧
  ∀ v, totals_at (λ i, v i + k i) = account (totals_at v) p.
Proof.
  intros Hw Hp. destruct p as [r|r took tipLag|scanned r|to next [] r| |]; simpl in Hp; unfold counts_up in Hp;
    unfold send, loop_extracted, loop_committed, backfill_committed, heal_committed, count_records, count_skipped;
    cbn [app]; eexists; (split; [each_call Hw|]); intros v; read_all.
Qed.

(** A report never panics while the accounts stay exact, and is counted as
    accounted. *)
Lemma send_spec m s p : wired m → reportable p → all_exact (readings m s) → all_exact (account (readings m s) p) →
  ∃ s', send m p s = Some s' ∧ readings m s' = account (readings m s) p.
Proof.
  intros Hw Hp Hs Ha. destruct (send_adds m p Hw Hp) as (k & [Hk Hsend] & Hreads).
  change (readings m s) with (totals_at (reading m s)) in *. rewrite <- Hreads in Ha.
  destruct (Hsend s) as (s' & Hrun & Hs').
  - intros i c Hc. pose proof (lookup_lt_Some _ _ _ Hc) as Hi.
    assert (E : reading m s i = counter_value c s) by (unfold reading; by rewrite Hc).
    pose proof (all_exact_at _ i Hs Hi) as H1. pose proof (all_exact_at _ i Ha Hi) as H2. simpl in H2.
    rewrite E in H1, H2. split; [apply H1|done].
  - exists s'. split; [done|]. rewrite <- Hreads. change (readings m s') with (totals_at (reading m s')).
    assert (E : ∀ i, (i < 18)%nat → reading m s' i = reading m s i + k i).
    { intros i Hi. destruct (lookup_lt_is_Some_2 (counters m) i Hi) as [c Hc]. unfold reading. rewrite Hc. by apply Hs'. }
    unfold totals_at. rewrite !E by lia. done.
Qed.

(** Accounts only grow. *)
Lemma account_grows p t : reportable p → Forall2 Z.le (values t) (values (account t p)).
Proof.
  intros Hp. destruct t as [a b [c d e f g h i j k l n] o q r u v].
  destruct p as [x|x took lag|scanned x|to next [] x| |]; simpl in Hp; unfold counts_up in Hp; destruct_and?;
    cbn [values account tally_add skipped_only records_only ta_Events ta_StateChanges ta_Transfers ta_TrustlineChanges
      ta_Movements ta_FailedTxs ta_SuppressedTxs ta_SuppressedEvents ta_SuppressedTransfers ta_SuppressedTrustlines
      ta_ForeignUndecodable rs_Events rs_StateChanges rs_Transfers rs_TrustlineChanges rs_Movements rs_FailedTxs
      rs_SuppressedTxs rs_SuppressedEvents rs_SuppressedTransfers rs_SuppressedTrustlines rs_ForeignUndecodable length];
    repeat (apply Forall2_cons; split; [lia|]); constructor.
Qed.

Lemma account_exact_back p t : reportable p → Forall (λ x, 0 ≤ x) (values t) →
  Forall (λ x, 0 ≤ x) (values (account t p)) ∧ (all_exact (account t p) → all_exact t).
Proof.
  intros Hp Ht. pose proof (account_grows p t Hp) as Hg. unfold all_exact, exact_count. revert Ht.
  induction Hg as [|x y l l' Hxy _ IH]; intros Ht; [done|]. apply Forall_cons in Ht as [Hx Hl].
  destruct (IH Hl) as [H1 H2]. split; [constructor; [lia|done]|].
  intros [Hy Hl']%Forall_cons. constructor; [lia|auto].
Qed.

(** A run of reports. *)
Definition sends m (ps : list report) : client → option client := calls (send m <$> ps).

Lemma sends_spec m ps s : wired m → Forall reportable ps → Forall (λ x, 0 ≤ x) (values (readings m s)) →
  all_exact (foldl account (readings m s) ps) →
  ∃ s', sends m ps s = Some s' ∧ readings m s' = foldl account (readings m s) ps.
Proof.
  intros Hw Hps. revert s. induction Hps as [|p ps Hp Hps IH]; intros s Hz He; [by exists s|]. simpl in He.
  assert (Hback : ∀ qs t, Forall reportable qs → Forall (λ x, 0 ≤ x) (values t) → all_exact (foldl account t qs) → all_exact t).
  { intros qs t Hqs. revert t. induction Hqs as [|q qs Hq _ IHq]; intros t Ht; simpl; [done|].
    destruct (account_exact_back q t Hq Ht) as [Ht' Hb]. intros Hx. by apply Hb, IHq. }
  destruct (account_exact_back p (readings m s) Hp Hz) as [Hz' Hb].
  assert (Ha : all_exact (account (readings m s) p)) by (by eapply Hback).
  destruct (send_spec m s p Hw Hp (Hb Ha) Ha) as (s1 & Hs1 & Hr1).
  destruct (IH s1) as (s2 & Hs2 & Hr2); [by rewrite Hr1..|].
  exists s2. rewrite Hr2, Hr1. split; [|done]. unfold sends. simpl. by rewrite Hs1.
Qed.
End lemmas.

(** *** What the components report *)
Section reports.
Context `{S : SDK} `{!SDKChanges}.

Lemma counts_up_app a b : counts_up a → counts_up b → counts_up (res_app a b).
Proof. unfold counts_up. simpl. lia. Qed.

Ltac counts_done := unfold counts_up; simpl; lia.

Ltac counting :=
  repeat first
    [ apply keeps_ret | apply keeps_call | apply keeps_try | apply keeps_contractIDFor
    | apply keeps_emit; intros; apply counts_up_app; [done|counts_done]
    | apply keeps_bind; [|intros ?]
    | match goal with
      | |- keeps _ (match ?x with _ => _ end) => destruct x
      | |- keeps _ (if ?x then _ else _) => destruct x
      end ].

Lemma counts_up_tx watch scp seq closedAt tx : keeps counts_up (tx_body watch scp seq closedAt tx).
Proof.
  unfold tx_body. apply keeps_bind; [counting|]. intros ok. destruct (negb ok); [counting|].
  assert (Hev : ∀ ev cid o, keeps counts_up (txTransfer watch scp ev cid o)).
  { intros. unfold txTransfer. destruct (watches watch cid _); counting. }
  assert (He : ∀ ev o, keeps counts_up (txEvent watch scp ev o)).
  { intros. unfold txEvent, record_or. destruct (negb _); [counting|]. destruct (ce_ContractId ev); [|counting].
    destruct (strkey_EncodeContract _); [|counting]. apply keeps_bind; [counting|intros _; apply Hev]. }
  apply keeps_bind; [|intros ok1; apply keeps_bind; [|intros; counting]].
  - unfold txEvents, tx_origin. apply keeps_bind; [counting|]. intros [ops|]; [|counting].
    apply keeps_bind; [counting|]. intros o. apply keeps_bind; [|intros; counting].
    assert (Hops : ∀ opIndex i, keeps counts_up (operationEvents watch scp o opIndex i ops)); [|apply Hops].
    induction ops as [|evs ops IH]; intros opIndex i; simpl; [counting|].
    apply keeps_bind; [|intros _; apply IH]. clear IH. generalize (i32 opIndex). intros op. revert i.
    induction evs as [|ev evs IH]; intros i; simpl; [counting|]. apply keeps_bind; [apply He|intros _; apply IH].
  - unfold txLedgerChanges, tx_origin. apply keeps_bind; [counting|]. intros [chs|]; [|counting].
    apply keeps_bind; [counting|]. intros o. apply keeps_bind; [|intros; counting].
    apply keeps_iter. intros i ch. unfold ledgerChange, stateChange, trustline, record_or. counting.
Qed.

(** What extraction skips is counted upwards. *)
Lemma Events_counts_up lcm passphrase watch r : Events lcm passphrase watch = Some r → counts_up r.
Proof.
  unfold Events. destruct (Nat.eqb _ 0); [intros [= <-]; counts_done|].
  destruct (ReadLedger passphrase lcm) as [answers|]; [|done]. intros [= <-].
  assert (Hm : counts_up (no_result, ∅ : gmap string string).1) by counts_done. revert Hm.
  generalize ((no_result, ∅) : Result * gmap string string). induction answers as [|a answers IH]; intros m Hm; simpl; [done|].
  apply IH. destruct a as [tx|]; simpl; [|apply counts_up_app; [done|counts_done]].
  unfold processTx, recover. fold (tx_body watch (scopeOf passphrase watch) (u32 (LedgerSeq lcm)) (CloseTime lcm) tx).
  pose proof (counts_up_tx watch (scopeOf passphrase watch) (u32 (LedgerSeq lcm)) (CloseTime lcm) tx m Hm) as Hk.
  destruct (tx_body _ _ _ _ tx m) as [[[]|] m']; simpl in *; [done|]. apply counts_up_app; [done|counts_done].
Qed.

(** A replay accepts no empty range and no ledger zero. *)
Lemma replayLoop_keeps `{!LedgerHeaders} (w : world) {X} (P : X → Prop) (emit : LedgerCloseMeta → X → res X) fuel to :
  (∀ lcm x x', P x → emit lcm x = Ok x' → P x') → ∀ from x, P x →
  triple (St := healer) (λ _ _, True) (replayLoop w fuel emit to from x) (λ out _ _, ∀ x', out = Ok x' → P x').
Proof.
  intros Hemit. induction fuel as [|fuel IH]; intros seq x Hx; simpl;
    (apply triple_if; intros _; [apply triple_ret; by intros o s _ x' [= <-]|]); [apply triple_hung|].
  eapply (triple_bind _ _ _ (λ _ _ _, True)); [by apply triple_ask|].
  intros [lcm|e]; [|by apply triple_ret]. apply triple_if; intros _; [by apply triple_ret|].
  destruct (emit lcm x) as [x'|e] eqn:He; [|by apply triple_ret]. apply IH. by eapply Hemit.
Qed.

Lemma ReplayRange_range `{!LedgerHeaders} (w : world) {X} (P : X → Prop) (emit : LedgerCloseMeta → X → res X) fuel from to x :
  P x → (∀ lcm x x', P x → emit lcm x = Ok x' → P x') →
  triple (St := healer) (λ _ _, True) (ReplayRange w fuel from to emit x)
    (λ out _ _, ∀ x', out = Ok x' → P x' ∧ from ≠ 0 ∧ from ≤ to).
Proof.
  intros Hx Hemit. unfold ReplayRange. apply triple_if; intros Hc; [by apply triple_ret|].
  apply orb_false_iff in Hc as [Hc1%Z.eqb_neq Hc2%Z.ltb_ge].
  eapply (triple_bind _ _ _ (λ _ _ _, True)); [by apply triple_ask|]. intros [[]|e]; [|by apply triple_ret].
  eapply (triple_conseq _ _ (λ _ _, True) _ (λ out _ _, ∀ x', out = Ok x' → P x'));
    [done| |by apply (replayLoop_keeps w P emit fuel to Hemit from x Hx)].
  intros out o h Hout x' Hx'. split; [by apply Hout|by split].
Qed.

(** What the healer reports of a chunk. *)
Lemma healChunk_reports `{!LedgerHeaders} (w : world) network passphrase chunk fuel gap goNow h :
  is_u32 (gap_From gap) → gap_HealNextTo gap ≤ max_u32 →
  triple (St := healer) (λ _ s, s = h) (healChunk network passphrase chunk w fuel gap goNow)
    (λ out _ h', out = Ok tt → ∃ newNextTo resolved acc,
       h' = inc_healed (gap_HealNextTo gap - newNextTo) resolved acc h ∧
       reportable (ChunkHealed (gap_HealNextTo gap) newNextTo resolved acc)).
Proof.
  intros Hu Ht. unfold healChunk. eapply (triple_bind _ _ _ (λ _ _ s, s = h)); [by apply triple_ask|]. intros snap.
  set (from := chunkFrom chunk gap). assert (Hfrom : is_u32 from).
  { unfold from, chunkFrom. destruct (_ <=? _); [apply u32_range|done]. }
  eapply (triple_bind _ _ _ (λ out _ s, s = h ∧ ∀ x, out = Ok x → counts_up x.2 ∧ from ≠ 0 ∧ from ≤ gap_HealNextTo gap)).
  { intros o s ->. pose proof (ReplayRange_range w (λ x : string * Result, counts_up x.2) (healLedger passphrase snap)
      fuel from (gap_HealNextTo gap) ("", no_result)) as Hr.
    assert (Hq := ReplayRange_quiet w fuel (λ s, s = h) (healLedger passphrase snap) from (gap_HealNextTo gap)
      ("", no_result) o h eq_refl).
    specialize (Hr ltac:(unfold counts_up; simpl; lia)).
    assert (Hemit : ∀ lcm (x x' : string * Result), counts_up x.2 → healLedger passphrase snap lcm x = Ok x' → counts_up x'.2).
    { intros lcm x x' Hx. unfold healLedger. destruct (_ && _); [done|].
      destruct (Events lcm passphrase snap) as [r|] eqn:He; [|done]. intros [= <-]. simpl.
      apply counts_up_app; [done|by eapply Events_counts_up]. }
    specialize (Hr Hemit o h I). destruct (ReplayRange _ _ _ _ _ _ o h) as [[[out o'] s']|]; [|done]. by split. }
  intros [[prev acc]|e]; [|by apply triple_ret].
  apply triple_pre with (P' := λ _ s, s = h ∧ counts_up acc ∧ from ≠ 0 ∧ from ≤ gap_HealNextTo gap).
  { intros o s [-> Hx]. split; [done|]. by apply (Hx (prev, acc)). }
  eapply (triple_bind _ _ _ (λ _ _ s, s = h ∧ counts_up acc ∧ from ≠ 0 ∧ from ≤ gap_HealNextTo gap)); [by apply triple_transact|].
  intros [[]|e]; [|by apply triple_ret].
  eapply (triple_bind _ _ _ (λ _ _ h', ∃ newNextTo resolved acc,
       h' = inc_healed (gap_HealNextTo gap - newNextTo) resolved acc h ∧
       reportable (ChunkHealed (gap_HealNextTo gap) newNextTo resolved acc))).
  - apply triple_modify. intros o s (-> & Hacc & Hne & Hle). eexists _, _, _. split; [reflexivity|]. simpl. split; [|done].
    rewrite u32_small by uarith. lia.
  - intros []. by apply triple_ret.
Qed.
End reports.

(** *** What the backfiller reports *)
Section backfill_reports.
Context `{S : SDK} `{!SDKChanges} `{!LedgerHeaders} (net passphrase : string) (w : world).

(** Every walk has a target, as the admin API's do, whoever writes. *)
Definition targeted (d : db) : Prop := ∀ k b, db_backfill d !! k = Some b → 1 ≤ u32 (b_target_from b).

(** The counters of a backfiller after some chunks. *)
Definition chunk_totals (s : backfiller) : Z * Z * tally := (bk_Chunks s, bk_Ledgers s, bk_Tally s).
Definition add_chunk (t : Z * Z * tally) (p : Z * Result) : Z * Z * tally :=
  (t.1.1 + 1, t.1.2 + p.1, tally_add p.2 t.2).
Definition chunks_from (t : Z * Z * tally) (s : backfiller) : Prop := ∃ ps,
  Forall (λ p, reportable (ChunkScanned p.1 p.2)) ps ∧ chunk_totals s = foldl add_chunk t ps.

Context (Hothers : ∀ n d, targeted d → targeted (w_others w n d)) (t0 : Z * Z * tally).

Definition counting (o : outside) (s : backfiller) : Prop := targeted (o_db o) ∧ chunks_from t0 s.

Lemma targeted_frame d d' : b_target_from <$> db_backfill d' = b_target_from <$> db_backfill d → targeted d → targeted d'.
Proof.
  intros E Ht k b Hb. assert (Hk : (b_target_from <$> db_backfill d') !! k = Some (b_target_from b)) by by rewrite lookup_fmap, Hb.
  rewrite E, lookup_fmap in Hk. destruct (db_backfill d !! k) as [b0|] eqn:Hb0; [|done]. simpl in Hk.
  injection Hk as <-. by eapply Ht.
Qed.

Lemma commit_targets b r : Framed (λ d, b_target_from <$> db_backfill d) (CommitBackfillChunk net b r).
Proof.
  intros now d a d'. rewrite run_CommitBackfillChunk. destruct (add_records _ _ _) as [t|]; [|done].
  destruct (db_backfill d !! _) as [row|] eqn:Hrow; [|done]. intros [= _ <-].
  unfold put_tables. simpl. rewrite db_backfill_set_backfill, fmap_insert. simpl.
  apply insert_id. by rewrite lookup_fmap, Hrow.
Qed.

Lemma gap_targets from to reason : Framed (λ d, b_target_from <$> db_backfill d) (RecordGap net from to reason).
Proof. unfold RecordGap. apply _. Qed.

Lemma list_targets : Framed (λ d, b_target_from <$> db_backfill d) (ListPendingBackfills net).
Proof. unfold ListPendingBackfills. apply _. Qed.

Lemma counting_transact {A} (t : Tx A) : Framed (λ d, b_target_from <$> db_backfill d) t →
  triple counting (transact w t) (λ _, counting).
Proof.
  intros Hf. apply triple_transact. intros n d s [Ht Hc] d1. cbn in Ht.
  assert (Ht1 : targeted d1) by by apply Hothers. split; [by split|]. intros a d' Hrun.
  assert (targeted d') by (eapply targeted_frame; [by eapply Hf|done]). by split.
Qed.

Lemma scanBatch_counts snap batch seq prev acc seq' prev' acc' :
  scanBatch passphrase snap batch seq prev acc = Ok (seq', prev', acc') → counts_up acc → counts_up acc'.
Proof.
  revert seq prev acc. induction batch as [|lcm batch IH]; intros seq prev acc; simpl; [by intros [= _ _ <-]|].
  destruct (negb _); [done|]. destruct (_ && _); [done|]. destruct (Events lcm passphrase snap) as [r|] eqn:He; [|done].
  intros Hb Hacc. eapply IH; [exact Hb|]. apply counts_up_app; [done|by eapply Events_counts_up].
Qed.

Lemma scan_counts fuel snap from to :
  triple counting (scan passphrase w fuel snap from to) (λ out o s, counting o s ∧ ∀ r, out = Ok r → counts_up r).
Proof.
  unfold scan. assert (Hacc : counts_up no_result) by (unfold counts_up; simpl; lia). revert Hacc.
  generalize no_result "" from. induction fuel as [|fuel IH]; intros acc prev seq Hacc; simpl;
    (apply triple_if; intros _; [apply triple_ret; intros o s Hc; split; [done|by intros r [= <-]]|]);
    [apply triple_hung|].
  eapply (triple_bind _ _ _ (λ _, counting)); [by apply triple_ask|].
  intros [batch|e]; [|by apply triple_ret].
  destruct (scanBatch passphrase snap batch seq prev acc) as [[[seq' prev'] acc']|e] eqn:Hb; [|by apply triple_ret].
  apply IH. by eapply scanBatch_counts.
Qed.

Lemma findWall_counts fuel lo hi : triple counting (findWall w fuel lo hi) (λ _, counting).
Proof.
  revert lo hi. induction fuel as [|fuel IH]; intros lo hi; simpl;
    (apply triple_if; intros _; [by apply triple_ret|]); [apply triple_hung|].
  eapply (triple_bind _ _ _ (λ _, counting)); [by apply triple_ask|].
  intros [batch|[]]; try by apply triple_ret.
  - apply triple_if; intros _; [by apply triple_ret|apply IH].
  - apply triple_if; intros _; [by apply triple_ret|apply IH].
Qed.

Lemma recordGaps_counts wall recorded jobs : triple counting (recordGaps net w wall recorded jobs) (λ _, counting).
Proof.
  revert recorded. induction jobs as [|job jobs IH]; intros recorded; simpl; [by apply triple_ret|].
  destruct (decide _); [apply IH|]. eapply triple_bind; [apply counting_transact, gap_targets|].
  intros [[]|e]; [apply IH|by apply triple_ret].
Qed.

Lemma commitJobs_counts rng wall parts jobs : triple counting (commitJobs net w rng wall parts jobs) (λ _, counting).
Proof.
  induction jobs as [|job jobs IH]; simpl; [by apply triple_ret|].
  eapply triple_bind; [apply counting_transact, commit_targets|]. intros out.
  eapply triple_bind; [apply IH|]. intros n. by apply triple_ret.
Qed.

(** What a fresh read hands to the instruments is reportable. *)
Lemma readGroup_counts fuel rng jobs ahead : cr_from rng ≤ cr_to rng →
  triple counting (readGroup net passphrase w fuel rng jobs ahead)
    (λ out o s, counting o s ∧ ∀ res wall, out = Some (res, wall, false) → reportable (ChunkScanned (scanned rng wall) res)).
Proof.
  intros Hrng. assert (Hwall : ∀ wall, 0 ≤ scanned rng wall).
  { intros [wall|]; simpl; [destruct (Z.leb_spec wall (cr_to rng)); lia|lia]. }
  assert (Hnone : ∀ (P : outside → backfiller → Prop), (∀ o s, P o s → counting o s) →
    triple P (w_ret (St := backfiller) None) (λ out o s, counting o s ∧
      ∀ res wall, out = Some (res, wall, false) → reportable (ChunkScanned (scanned rng wall) res))).
  { intros P HP. apply triple_ret. intros o s Hc. split; [by apply HP|done]. }
  unfold readGroup. cbv zeta.
  eapply (triple_bind _ _ _ (λ _, counting)); [by apply triple_get|]. intros b.
  destruct (cachedScan b rng _) as [res|]; [by apply triple_ret|].
  eapply triple_bind; [apply scan_counts|]. intros [res|e].
  - eapply (triple_bind _ _ _ (λ _ o s, counting o s ∧ counts_up res)).
    + apply triple_modify. intros o s [Hc Hr]. split; [exact Hc|by apply Hr].
    + intros []. apply triple_ret. intros o s [Hc Hr]. split; [done|]. intros res' wall [= <- <-]. split; [apply Hwall|done].
  - eapply (triple_pre _ _ counting); [by intros o s [? _]|].
    destruct e; try by apply Hnone.
    all: try (eapply (triple_bind _ _ _ (λ _, counting)); [by apply triple_ask|]; intros _; by apply Hnone).
    eapply triple_bind; [apply findWall_counts|]. intros [wall|e]; [|by apply Hnone].
    eapply triple_bind; [apply recordGaps_counts|]. intros [[]|e]; [|by apply Hnone].
    apply triple_if; intros Hle.
    + eapply triple_bind; [apply scan_counts|]. intros [res|e]; [|by apply Hnone; intros ?? [? _]].
      apply triple_ret. intros o s [Hc Hr]. split; [done|]. intros res' wall' [= <- <-]. split; [apply Hwall|by apply Hr].
    + apply triple_ret. intros o s Hc. split; [done|]. intros res' wall' [= <- <-]. split; [apply Hwall|].
      unfold counts_up. simpl. lia.
Qed.

Lemma processGroup_counts fuel rng jobs ahead : cr_from rng ≤ cr_to rng →
  triple counting (processGroup net passphrase w fuel rng jobs ahead) (λ _, counting).
Proof.
  intros Hrng. eapply triple_bind; [by apply readGroup_counts|].
  intros [[[res wall] cached]|]; [|by apply triple_ret; intros ?? [? _]].
  eapply (triple_bind _ _ _ (λ _ o s, counting o s ∧ (cached = false → reportable (ChunkScanned (scanned rng wall) res)))).
  { intros o s [Hc Hr]. pose proof (commitJobs_counts rng wall (partitionResult res) (order_by job_ltb jobs) o s Hc) as Hj.
    destruct (commitJobs _ _ _ _ _ _ o s) as [[[n o'] s']|]; [|done]. split; [done|]. intros ->. by apply Hr. }
  intros n. apply triple_if; intros _; [by apply triple_ret; intros ?? [? _]|].
  eapply (triple_bind _ _ _ (λ _, counting)); [|intros []; by apply triple_ret].
  apply triple_if; intros Hcached; [|by apply triple_ret; intros ?? [? _]].
  apply triple_modify. intros o s [[Ht (ps & Hps & Htot)] Hr]. split; [done|].
  exists (ps ++ [(scanned rng wall, res)]). split.
  - apply Forall_app. split; [done|]. constructor; [|done]. apply Hr. by destruct cached.
  - rewrite foldl_app, <- Htot. done.
Qed.

(** A group's range is not empty. *)
Definition ranged (g : grouping) : Prop := ∀ from, from ∈ gr_order g → from ≤ default 0 (gr_tops g !! from).

Lemma chunkFromFor_le bf : is_u32 (bf_NextTo bf) → 1 ≤ bf_TargetFrom bf ≤ bf_NextTo bf → chunkFromFor bf ≤ bf_NextTo bf.
Proof.
  intros Hu Ht. unfold chunkFromFor. rewrite max32_max, (u32_small (bf_NextTo bf - 1)) by uarith.
  unfold backfillChunkSize. pose proof (Z.mod_pos_bound (bf_NextTo bf - 1) 2000 ltac:(lia)).
  pose proof (Z.mod_le (bf_NextTo bf - 1) 2000 ltac:(lia) ltac:(lia)). rewrite u32_small by uarith. lia.
Qed.

Lemma add_job_ranged job g : is_u32 (bf_NextTo (job_Backfill job)) →
  1 ≤ bf_TargetFrom (job_Backfill job) ≤ bf_NextTo (job_Backfill job) → ranged g → ranged (add_job job g).
Proof.
  intros Hu Ht Hg. unfold add_job. pose proof (chunkFromFor_le _ Hu Ht) as Hle.
  set (from := chunkFromFor (job_Backfill job)) in *. intros f. simpl. intros Hf.
  destruct (decide (f = from)) as [->|Hne]; [rewrite lookup_insert_eq; simpl; rewrite max32_max; lia|].
  rewrite lookup_insert_ne by done. apply Hg. destruct (gr_groups g !! from); [done|].
  apply elem_of_app in Hf as [?|Hf]; [done|]. by apply list_elem_of_singleton in Hf.
Qed.

Lemma groupJobs_counts jobs g :
  Forall (λ j, is_u32 (bf_NextTo (job_Backfill j)) ∧ 1 ≤ bf_TargetFrom (job_Backfill j)) jobs → ranged g →
  triple counting (groupJobs net w jobs g) (λ g' o s, counting o s ∧ ranged g').
Proof.
  intros Hjobs. revert g. induction Hjobs as [|job jobs [Hu Ht] _ IH]; intros g Hg; simpl; [by apply triple_ret|].
  apply triple_if; intros Hlt.
  - eapply triple_bind; [apply counting_transact, commit_targets|]. intros out. apply IH. by destruct out.
  - apply Z.ltb_ge in Hlt. by apply IH, add_job_ranged.
Qed.

Lemma runGroups_counts fuel g order worked : ranged g → Forall (λ from, from ∈ gr_order g) order →
  triple counting (runGroups net passphrase w fuel g order worked) (λ _, counting).
Proof.
  intros Hg Hord. revert worked. induction Hord as [|from order Hfrom Hord IH]; intros worked; simpl; [by apply triple_ret|].
  eapply (triple_bind _ _ _ (λ _, counting)); [by apply triple_ask|]. intros dead.
  apply triple_if; intros _; [by apply triple_ret|].
  eapply triple_bind; [|intros worked'; apply IH]. apply processGroup_counts. simpl. by apply Hg.
Qed.

Lemma listing_targeted : triple counting (transact w (ListPendingBackfills net))
  (λ out o s, counting o s ∧ ∀ jobs, out = Ok jobs →
     Forall (λ j, is_u32 (bf_NextTo (job_Backfill j)) ∧ 1 ≤ bf_TargetFrom (job_Backfill j)) jobs).
Proof.
  apply triple_transact. intros n d s [Ht Hc] d1. assert (Ht1 : targeted d1) by by apply Hothers.
  split; [by split|]. intros jobs d' Hrun. simpl in Hrun. injection Hrun as <- <-.
  split; [split; [done|]|by split]. intros jobs [= <-]. apply Forall_forall. intros job Hin.
  apply list_elem_of_fmap in Hin as ([u j] & -> & Hin). apply elem_of_sort_by in Hin. unfold pending_jobs in Hin.
  apply list_elem_of_omap in Hin as ([[m cid] b] & Hrow & Hj). apply elem_of_sel in Hrow as [Hrow _].
  destruct (db_contracts d1 !! (m, cid)) as [c|]; [|done]. injection Hj as <- <-. simpl.
  split; [apply u32_range|by eapply Ht1].
Qed.

Lemma round_counts fuel : triple counting (round net passphrase w fuel) (λ _, counting).
Proof.
  unfold round. eapply triple_bind; [apply listing_targeted|]. intros [jobs|e].
  - intros o s [Hc Hj]. specialize (Hj jobs eq_refl). revert o s Hc.
    change (triple counting (g <-w groupJobs net w jobs (mkGrouping ∅ ∅ [] false) ;
      runGroups net passphrase w fuel g (sort_by_desc id (gr_order g)) (gr_worked g)) (λ _, counting)).
    eapply triple_bind; [apply groupJobs_counts; [done|by intros f ?%elem_of_nil]|].
    intros g o s [Hc Hg]. apply runGroups_counts; [done| |done].
    apply Forall_forall. intros from. by rewrite elem_of_sort_by_desc.
  - eapply (triple_pre _ _ counting); [by intros o s [? _]|].
    eapply (triple_bind _ _ _ (λ _, counting)); [by apply triple_ask|]. intros ?. by apply triple_ret.
Qed.

Lemma Run_counts fuel rounds : triple counting (Run net passphrase w fuel rounds) (λ _, counting).
Proof.
  induction rounds as [|rounds IH]; simpl; [by apply triple_ret|].
  eapply triple_bind; [apply round_counts|]. intros worked.
  eapply (triple_bind _ _ _ (λ _, counting)); [by apply triple_ask|]. intros dead.
  apply triple_if; intros _; [by apply triple_ret|]. apply triple_if; intros _; [apply IH|].
  eapply (triple_bind _ _ _ (λ _, counting)); [by apply triple_ask|]. intros fired.
  eapply (triple_bind _ _ _ (λ _, counting)); [by apply triple_modify|]. intros [].
  apply triple_if; intros _; [apply IH|by apply triple_ret].
Qed.
End backfill_reports.

(** *** Registration *)
Section registration.
Context `{PrometheusLaws}.

(** The names of the counters, in the order of [counters]. *)
Definition counter_names : list string :=
  ["sierpe_ledgers_ingested_total"; "sierpe_source_failovers_total"; "sierpe_events_extracted_total";
   "sierpe_state_changes_extracted_total"; "sierpe_transfers_extracted_total";
   "sierpe_trustline_changes_extracted_total"; "sierpe_movements_extracted_total"; "sierpe_failed_txs_skipped_total";
   "sierpe_suppressed_txs_total"; "sierpe_suppressed_events_total"; "sierpe_suppressed_transfers_total";
   "sierpe_suppressed_trustlines_total"; "sierpe_foreign_transfer_undecodable_total"; "sierpe_backfill_chunks_total";
   "sierpe_backfill_ledgers_scanned_total"; "sierpe_gaps_healed_total"; "sierpe_healed_ledgers_total";
   "sierpe_archive_equivalence_failures_total"].

(** One registration of a set: the names so far are [done]; the counters made
    so far, [made], read zero. *)
Definition so_far (r : Registry) (done : list string) (made : list Counter) (s : client) : Prop :=
  registered r s = list_to_set done ∧
  Forall (λ c, counter_name c ∈ done ∧ counter_value c s = 0) made.

Lemma so_far_counter {B} r name done made s (f : Counter → client → option (B * client)) :
  so_far r done made s → valid_name name = true → ¬ (name ∈ done) →
  ∃ c s', p_bind (NewCounter r name) f s = f c s' ∧ counter_name c = name ∧ so_far r (name :: done) (c :: made) s'.
Proof.
  intros [Hreg Hmade] Hv Hn. destruct (new_counter r name s Hv) as (c & s' & Hnew & Hname & Hz & Hr & Hother).
  { rewrite Hreg. by rewrite elem_of_list_to_set. }
  exists c, s'. unfold p_bind. rewrite Hnew. split_and!; [done..|]. split.
  - by rewrite Hr, Hreg.
  - constructor; [by rewrite Hname; split; [left|]|]. eapply Forall_impl; [exact Hmade|]. intros c' [Hin Hv'].
    split; [by right|]. rewrite Hother; [done|]. intros E. by rewrite E in Hin.
Qed.

Lemma so_far_quiet {A B} r name done made s (new : client → option (A * client)) (f : A → client → option (B * client)) :
  so_far r done made s →
  (∃ g s', new s = Some (g, s') ∧ registered r s' = {[name]} ∪ registered r s ∧
     ∀ c', counter_value c' s' = counter_value c' s) →
  ∃ g s', p_bind new f s = f g s' ∧ so_far r (name :: done) made s'.
Proof.
  intros [Hreg Hmade] (g & s' & Hnew & Hr & Hother). exists g, s'. unfold p_bind. rewrite Hnew. split; [done|]. split.
  - by rewrite Hr, Hreg.
  - eapply Forall_impl; [exact Hmade|]. intros c' [Hin Hv']. split; [by right|]. by rewrite Hother.
Qed.

Lemma new_gauge_so_far r name done made s : so_far r done made s → valid_name name = true → ¬ (name ∈ done) →
  ∃ g s', NewGauge r name s = Some (g, s') ∧ registered r s' = {[name]} ∪ registered r s ∧
     ∀ c', counter_value c' s' = counter_value c' s.
Proof. intros [Hreg _] Hv Hn. apply new_gauge; [done|]. by rewrite Hreg, elem_of_list_to_set. Qed.

Lemma new_histogram_so_far r name done made s : so_far r done made s → valid_name name = true → ¬ (name ∈ done) →
  ∃ g s', NewHistogram r name s = Some (g, s') ∧ registered r s' = {[name]} ∪ registered r s ∧
     ∀ c', counter_value c' s' = counter_value c' s.
Proof. intros [Hreg _] Hv Hn. apply new_histogram; [done|]. by rewrite Hreg, elem_of_list_to_set. Qed.

Lemma not_elem_of_computed (x : string) l : existsb (String.eqb x) l = false → ¬ (x ∈ l).
Proof.
  intros He Hx. apply list_elem_of_In in Hx. apply not_true_iff_false in He. apply He, existsb_exists.
  exists x. by rewrite String.eqb_refl.
Qed.

(** The next registration of the set. *)
Ltac register_next Hs :=
  let c := fresh "c" in let s := fresh "s" in let E := fresh "E" in let Hname := fresh "Hname" in let H' := fresh "H" in
  let Hv := fresh "Hv" in let Hn := fresh "Hn" in
  let fresh_name name :=
    assert (Hv : valid_name name = true) by (vm_compute; reflexivity);
    lazymatch type of Hs with
    | so_far _ ?done _ _ =>
        assert (Hn : ¬ (name ∈ done)) by (apply not_elem_of_computed; vm_compute; reflexivity)
    end in
  lazymatch goal with
  | |- context [p_bind (NewCounter ?r ?name) ?f ?s0] =>
      fresh_name name; destruct (so_far_counter r name _ _ s0 f Hs Hv Hn) as (c & s & E & Hname & H')
  | |- context [p_bind (NewGauge ?r ?name) ?f ?s0] =>
      fresh_name name;
      destruct (so_far_quiet r name _ _ s0 _ f Hs (new_gauge_so_far r name _ _ s0 Hs Hv Hn)) as (c & s & E & H')
  | |- context [p_bind (NewHistogram ?r ?name) ?f ?s0] =>
      fresh_name name;
      destruct (so_far_quiet r name _ _ s0 _ f Hs (new_histogram_so_far r name _ _ s0 Hs Hv Hn)) as (c & s & E & H')
  end; rewrite E; clear E Hv Hn; clear Hs; rename H' into Hs; cbv beta.

Lemma NewMetrics_made s : ∃ m s', NewMetrics s = Some (m, s') ∧ registered (registry m) s' = list_to_set metric_names ∧
  counter_name <$> counters m = counter_names ∧ readings m s' = no_totals.
Proof.
  unfold NewMetrics. unfold p_bind at 1. destruct (NewRegistry s) as [r s0] eqn:Hr.
  assert (Hs : so_far r [] [] s0).
  { split; [|constructor]. pose proof (fresh_registry s) as Hf. by rewrite Hr in Hf. }
  do 24 register_next Hs. unfold p_ret. eexists _, _. split; [reflexivity|]. destruct Hs as [Hreg Hmade]. cbn [registry].
  split; [|split].
  - rewrite Hreg. apply list_to_set_perm_L. change (reverse metric_names ≡ₚ metric_names). apply reverse_Permutation.
  - unfold counters, counter_names. cbn.
    repeat match goal with E : counter_name _ = _ |- _ => rewrite E; clear E end. done.
  - repeat (apply Forall_cons in Hmade as [[_ ?] Hmade]). unfold readings. cbn.
    repeat match goal with E : counter_value _ _ = 0 |- _ => rewrite E; clear E end. done.
Qed.
End registration.

(** ** Properties *)

(** C40.  The instruments count what happened, and never kill the process.
    [NewMetrics] cannot panic: its 24 metrics have valid, different names, those
    of docs/METRICS.md, and start at zero.  From then on, for any sequence of
    reports of extractions, commits, chunks, refused gates and failovers without a
    negative amount, as long as every total stays below 2^53 (what a [float64]
    holds exactly), no call panics and each counter reads exactly what was
    accounted to it.  No amount the three writers report is negative: what an
    extraction skipped, for the live loop; the ledgers a chunk scanned and what it
    skipped, in any run of the backfiller over walks with a target of at least 1
    (the admin API's), whatever else writes and whatever fails; and the ledgers of
    a healed chunk.  A chunk whose watermark had wrapped below ledger zero would
    panic the counter of healed ledgers, and is never reported: a replay refuses
    it. *)
Theorem metrics_account `{PrometheusLaws} `{S : SDK} `{!SDKChanges} `{!LedgerHeaders} (s : client) :
  (∃ m s0, NewMetrics s = Some (m, s0) ∧ registered (registry m) s0 = list_to_set metric_names ∧ NoDup metric_names ∧
    ∀ reports, Forall reportable reports → all_exact (foldl account no_totals reports) →
    ∃ s', sends m reports s0 = Some s' ∧ readings m s' = foldl account no_totals reports) ∧
  (∀ m to newNextTo resolved r, 0 < newNextTo - to < 2 ^ 53 → heal_committed m to newNextTo resolved r s = None) ∧
  (∀ lcm passphrase watch r took tipLag, Events lcm passphrase watch = Some r →
     reportable (LoopExtracted r) ∧ reportable (LoopCommitted r took tipLag)) ∧
  (∀ w network passphrase chunk fuel gap goNow o h o' h', is_u32 (gap_From gap) → gap_HealNextTo gap ≤ max_u32 →
     healChunk network passphrase chunk w fuel gap goNow o h = Some (Ok tt, o', h') →
     ∃ newNextTo resolved acc, h' = inc_healed (gap_HealNextTo gap - newNextTo) resolved acc h ∧
       reportable (ChunkHealed (gap_HealNextTo gap) newNextTo resolved acc)) ∧
  (∀ w network passphrase fuel rounds o b o' b', targeted (o_db o) → (∀ n d, targeted d → targeted (w_others w n d)) →
     Run network passphrase w fuel rounds o b = Some (tt, o', b') →
     ∃ ps, Forall (λ p, reportable (ChunkScanned p.1 p.2)) ps ∧ chunk_totals b' = foldl add_chunk (chunk_totals b) ps).
Proof.
  split_and!.
  - destruct (NewMetrics_made s) as (m & s0 & Hnew & Hreg & Hnames & Hread). exists m, s0. split; [done|]. split; [done|].
    split; [apply (bool_decide_unpack _); vm_compute; exact I|]. intros reports Hr He. rewrite <- Hread in He |- *.
    apply sends_spec; [|done|by rewrite Hread; repeat constructor|done].
    unfold wired. rewrite Hnames. apply (bool_decide_unpack _); vm_compute; exact I.
  - intros m to next resolved r Hn. unfold heal_committed, AddHealedLedgers. simpl.
    by rewrite add_negative by lia.
  - intros lcm passphrase watch r took tipLag He. split; by eapply Events_counts_up.
  - intros w network passphrase chunk fuel gap goNow o h o' h' Hu Ht Hrun.
    pose proof (healChunk_reports w network passphrase chunk fuel gap goNow h Hu Ht o h eq_refl) as Hrep.
    rewrite Hrun in Hrep. by apply Hrep.
  - intros w network passphrase fuel rounds o b o' b' Ht Ho Hrun.
    pose proof (Run_counts network passphrase w Ho (chunk_totals b) fuel rounds o b) as Hc. rewrite Hrun in Hc.
    apply Hc. split; [done|]. by exists [].
Qed.

(** ** Witnesses *)

(** The integer a float stands for. *)
Definition trunc (f : spec_float) : Z :=
  match f with
  | S754_finite sign m e => (if sign then -1 else 1) * (if 0 <=? e then Z.pos m * 2 ^ e else Z.pos m / 2 ^ (- e))
  | _ => 0
  end.

Lemma digits2_bounds p : 2 ^ (Z.pos (digits2_pos p) - 1) ≤ Z.pos p < 2 ^ Z.pos (digits2_pos p).
Proof.
  induction p as [p IH|p IH|]; simpl digits2_pos; [| |simpl; lia].
  all: rewrite Pos2Z.inj_succ; replace (Z.succ (Z.pos (digits2_pos p)) - 1) with (Z.succ (Z.pos (digits2_pos p) - 1)) by lia;
    rewrite !Z.pow_succ_r by lia; lia.
Qed.

Lemma digits2_shift p k : digits2_pos (Pos.iter xO p k) = (digits2_pos p + k)%positive.
Proof. induction k as [|k IH] using Pos.peano_ind; [simpl; lia|]. rewrite Pos.iter_succ. simpl. rewrite IH. lia. Qed.

Lemma shift_value p k : Z.pos (Pos.iter xO p k) = Z.pos p * 2 ^ Z.pos k.
Proof.
  induction k as [|k IH] using Pos.peano_ind; [simpl; lia|]. rewrite Pos.iter_succ, Pos2Z.inj_succ, Z.pow_succ_r by lia. lia.
Qed.

(** An integer below [2^53] is shifted to full precision, never rounded. *)
Lemma round_small sign (p : positive) : Z.pos p < 2 ^ 53 →
  ∃ m e, binary_round 53 1024 sign p 0 = S754_finite sign m e ∧ -1074 ≤ e ≤ 0 ∧ Z.pos m = Z.pos p * 2 ^ (- e).
Proof.
  intros Hp. assert (Hd : Z.pos (digits2_pos p) ≤ 53).
  { destruct (Z.le_gt_cases (Z.pos (digits2_pos p)) 53); [done|]. pose proof (digits2_bounds p) as [Hl _].
    assert (2 ^ 53 ≤ 2 ^ (Z.pos (digits2_pos p) - 1)) by (apply Z.pow_le_mono_r; lia). lia. }
  unfold binary_round. set (d := digits2_pos p) in *.
  assert (He : fexp 53 1024 (Z.pos d + 0) = Z.pos d - 53) by (unfold fexp, emin; lia).
  rewrite He. unfold shl_align. rewrite Z.sub_0_r.
  assert (Haux : ∀ mz, digits2_pos mz = 53%positive → ∀ ez, -1074 ≤ ez ≤ 0 →
    binary_round_aux 53 1024 sign (Z.pos mz) ez loc_Exact = S754_finite sign mz ez).
  { intros mz Hmz ez Hez. unfold binary_round_aux, shr_fexp. unfold Zdigits2, shr_record_of_loc. rewrite Hmz.
    assert (Hf : fexp 53 1024 (53 + ez) - ez = 0) by (unfold fexp, emin; lia).
    change IntDef.Z.add with Z.add. rewrite Hf. cbn -[fexp Z.add Z.sub]. rewrite Hmz.
    change IntDef.Z.add with Z.add. rewrite Hf. cbn. destruct (Z.leb_spec ez (1024 - 53)); [done|lia]. }
  destruct (Z.eq_dec (Z.pos d) 53) as [E|E].
  - rewrite E. simpl. exists p, 0. rewrite Haux by (try lia; congruence). split; [done|]. simpl. lia.
  - destruct (Z.pos d - 53) as [|k|k] eqn:Hk; [lia|lia|].
    exists (Pos.iter xO p k), (Z.neg k). rewrite Haux; [split; [done|split; [lia|apply shift_value]]| |lia].
    rewrite digits2_shift. fold d. lia.
Qed.

Lemma trunc_float64 n : - 2 ^ 53 < n < 2 ^ 53 → trunc (float64 n) = n.
Proof.
  intros Hn. unfold float64, binary_normalize. destruct n as [|p|p]; [done|..].
  all: destruct (round_small false p) as (m & e & H1 & He & H2); [lia|];
       destruct (round_small true p) as (m' & e' & H1' & He' & H2'); [lia|];
       rewrite ?H1, ?H1'; unfold trunc.
  - destruct (Z.leb_spec 0 e); [replace e with 0 in * by lia; simpl in *; lia|].
    rewrite H2, Z.div_mul by (apply Z.pow_nonzero; lia). lia.
  - destruct (Z.leb_spec 0 e'); [replace e' with 0 in * by lia; simpl in *; lia|].
    rewrite H2', Z.div_mul by (apply Z.pow_nonzero; lia). lia.
Qed.

(** A client that keeps its counters in a map by name. *)
#[local] Instance map_client : Prometheus := {|
  client := gset string * gmap string N;
  Counter := string; Gauge := unit; Histogram := unit; Registry := unit;
  NewRegistry s := (tt, (∅, s.2));
  NewCounter _ name s := if valid_name name && negb (bool_decide (name ∈ s.1))
                         then Some (name, ({[name]} ∪ s.1, <[name := 0%N]> s.2)) else None;
  NewGauge _ name s := if valid_name name && negb (bool_decide (name ∈ s.1)) then Some (tt, ({[name]} ∪ s.1, s.2)) else None;
  NewHistogram _ name s := if valid_name name && negb (bool_decide (name ∈ s.1)) then Some (tt, ({[name]} ∪ s.1, s.2)) else None;
  Counter_Inc c s := Some (s.1, <[c := (default 0 (s.2 !! c) + 1)%N]> s.2);
  Counter_Add c f s := if trunc f <? 0 then None
                       else Some (s.1, <[c := (default 0 (s.2 !! c) + Z.to_N (trunc f))%N]> s.2);
  Gauge_Set _ _ s := Some s; Histogram_Observe _ _ s := Some s;
  registered _ s := s.1; counter_name c := c; counter_value c s := Z.of_N (default 0%N (s.2 !! c)) |}.

#[local] Instance map_client_laws : PrometheusLaws.
Proof.
  split; simpl.
  - done.
  - intros _ name s Hv Hn. rewrite Hv, bool_decide_eq_false_2 by done. simpl. eexists _, _. split; [done|].
    split; [done|]. cbn [fst snd]. rewrite lookup_insert_eq. split; [done|]. split; [done|]. intros c Hc. by rewrite lookup_insert_ne by done.
  - intros _ name s Hv Hn. rewrite Hv, bool_decide_eq_false_2 by done. eexists _, _. split; [done|]. by split.
  - intros _ name s Hv Hn. rewrite Hv, bool_decide_eq_false_2 by done. eexists _, _. split; [done|]. by split.
  - intros c s _. eexists. split; [done|]. cbn [fst snd]. rewrite lookup_insert_eq. split; [simpl; lia|].
    intros c' Hc. by rewrite lookup_insert_ne by done.
  - intros c n s Hn [_ He]. rewrite trunc_float64 by lia. destruct (Z.ltb_spec n 0); [lia|].
    eexists. split; [done|]. cbn [fst snd]. rewrite lookup_insert_eq. split; [simpl; lia|].
    intros c' Hc. by rewrite lookup_insert_ne by done.
  - intros c n s Hn. rewrite trunc_float64 by lia. by destruct (Z.ltb_spec n 0); [|lia].
  - intros _ _ s. by exists s.
  - intros _ _ s. by exists s.
Qed.

(** A heal of three ledgers, one of which held a failed transaction. *)
Definition demo_reports : list report :=
  [LoopExtracted one_FailedTx; ChunkHealed 9 6 true one_FailedTx; GateRefused; FailedOver].

Lemma metrics_account_witness :
  ∃ m s0 s', NewMetrics (∅, ∅) = Some (m, s0) ∧ sends m demo_reports s0 = Some s' ∧
    to_HealedLedgers (readings m s') = 3 ∧ ta_FailedTxs (to_Tally (readings m s')) = 2.
Proof.
  destruct (@metrics_account map_client map_client_laws demo_sdk (λ _, SOk []) {| LedgerHash := λ _, ""; PreviousLedgerHash := λ _, "" |} (∅, ∅))
    as ((m & s0 & Hnew & _ & _ & Hall) & _).
  destruct (Hall demo_reports) as (s' & Hs' & Hr).
  - repeat constructor; simpl; lia.
  - repeat constructor; vm_compute; congruence.
  - exists m, s0, s'. rewrite Hr. split; [exact Hnew|]. split; [exact Hs'|]. split; vm_compute; reflexivity.
Defined.
