(* ===== verification/Health.v ===== *)
(** * Operational state ([internal/health/health.go], the feeders of
    [cmd/sierpe/main.go])

    What /health, /ready and /status answer, and who writes it: the ingestion
    loop, the healer, and two periodic feeders that mirror the store's counts
    and the client's failovers. *)

From S2P Require Import Prelude HealPlan Db Gaps Rows Registrations Commit Registry Extract Loop Workers.

(** ** Definitions *)

(** [State]: its atomics. *)
Record State := mkState {
  st_ready : bool; st_cursor : Z; st_latestKnown : Z; st_tipLagMilli : Z; st_openGaps : Z;
  st_deferredGaps : Z; st_deferredLedgers : Z; st_failovers : Z; st_pendingBackfills : Z;
  st_archive : option string }.

Definition new_State : State := mkState false 0 0 0 0 0 0 0 0 None.

Definition SetReady (v : bool) (s : State) : State :=
  mkState v (st_cursor s) (st_latestKnown s) (st_tipLagMilli s) (st_openGaps s) (st_deferredGaps s)
    (st_deferredLedgers s) (st_failovers s) (st_pendingBackfills s) (st_archive s).

(** [tipLag.Milliseconds()] of a lag in nanoseconds. *)
Definition Observe (cursor latest tipLag : Z) (s : State) : State :=
  mkState (st_ready s) cursor latest (Z.quot tipLag 1000000) (st_openGaps s) (st_deferredGaps s)
    (st_deferredLedgers s) (st_failovers s) (st_pendingBackfills s) (st_archive s).

Definition SetOpenGaps (n : Z) (s : State) : State :=
  mkState (st_ready s) (st_cursor s) (st_latestKnown s) (st_tipLagMilli s) n (st_deferredGaps s)
    (st_deferredLedgers s) (st_failovers s) (st_pendingBackfills s) (st_archive s).

Definition SetDeferredGaps (gaps ledgers : Z) (s : State) : State :=
  mkState (st_ready s) (st_cursor s) (st_latestKnown s) (st_tipLagMilli s) (st_openGaps s) gaps
    ledgers (st_failovers s) (st_pendingBackfills s) (st_archive s).

Definition SetFailovers (n : Z) (s : State) : State :=
  mkState (st_ready s) (st_cursor s) (st_latestKnown s) (st_tipLagMilli s) (st_openGaps s)
    (st_deferredGaps s) (st_deferredLedgers s) n (st_pendingBackfills s) (st_archive s).

Definition SetPendingBackfills (n : Z) (s : State) : State :=
  mkState (st_ready s) (st_cursor s) (st_latestKnown s) (st_tipLagMilli s) (st_openGaps s)
    (st_deferredGaps s) (st_deferredLedgers s) (st_failovers s) n (st_archive s).

Definition SetArchiveState (state : string) (s : State) : State :=
  mkState (st_ready s) (st_cursor s) (st_latestKnown s) (st_tipLagMilli s) (st_openGaps s)
    (st_deferredGaps s) (st_deferredLedgers s) (st_failovers s) (st_pendingBackfills s) (Some state).

Definition gapsPendingHeal (s : State) : Z :=
  let n := st_openGaps s - st_deferredGaps s in if 0 <? n then n else 0.

Definition archiveState (s : State) : string := default "off" (st_archive s).

(** [Status]; the tip lag in milliseconds, which the answer divides by 1000. *)
Record Status := mkStatus {
  ss_Version : string; ss_Network : string; ss_StartedAt : Z; ss_Ready : bool; ss_CursorSequence : Z;
  ss_LatestKnown : Z; ss_TipLagMilli : Z; ss_OpenGaps : Z; ss_GapsPendingHeal : Z; ss_DeferredGaps : Z;
  ss_DeferredLedgers : Z; ss_SourceFailovers : Z; ss_PendingBackfills : Z; ss_Archive : string }.

Record Server := mkServer { sv_version : string; sv_network : string; sv_startedAt : Z }.

(** [now] is the process's clock; the state and the metrics are passed on. *)
Definition NewServer (version network : string) (now : Z) : Server := mkServer version network now.

Definition snapshot (srv : Server) (s : State) : Status :=
  mkStatus (sv_version srv) (sv_network srv) (sv_startedAt srv) (st_ready s) (st_cursor s) (st_latestKnown s)
    (st_tipLagMilli s) (st_openGaps s) (gapsPendingHeal s) (st_deferredGaps s) (st_deferredLedgers s)
    (st_failovers s) (st_pendingBackfills s) (archiveState s).

(** The statuses of GET /health and GET /ready. *)
Definition handleHealth (s : State) : Z := 200.
Definition handleReady (s : State) : Z := if st_ready s then 200 else 503.

(** The gauges and the counter the feeders keep beside the state. *)
Record feed := mkFeed {
  fd_State : State; fd_OpenGaps : Z; fd_DeferredGaps : Z; fd_DeferredLedgers : Z; fd_BackfillPending : Z;
  fd_SourceFailovers : Z }.

Definition on_state (f : State → State) (fd : feed) : feed :=
  mkFeed (f (fd_State fd)) (fd_OpenGaps fd) (fd_DeferredGaps fd) (fd_DeferredLedgers fd)
    (fd_BackfillPending fd) (fd_SourceFailovers fd).

Definition saw_open (n : Z) (fd : feed) : feed :=
  mkFeed (SetOpenGaps n (fd_State fd)) n (fd_DeferredGaps fd) (fd_DeferredLedgers fd) (fd_BackfillPending fd)
    (fd_SourceFailovers fd).
Definition saw_deferred (gaps ledgers : Z) (fd : feed) : feed :=
  mkFeed (SetDeferredGaps gaps ledgers (fd_State fd)) (fd_OpenGaps fd) gaps ledgers (fd_BackfillPending fd)
    (fd_SourceFailovers fd).
Definition saw_pending (n : Z) (fd : feed) : feed :=
  mkFeed (SetPendingBackfills n (fd_State fd)) (fd_OpenGaps fd) (fd_DeferredGaps fd) (fd_DeferredLedgers fd) n
    (fd_SourceFailovers fd).

Section feeders.
Context `{S : SDK} (w : world) (network : string).

(** One tick of [feedStatus]: a count that fails keeps its last value. *)
Definition feedStatus : Work feed unit :=
  n <-w transact w (OpenGaps network) ;
  (match n with Ok n => w_modify (saw_open n) | Err _ => w_ret tt end) ;;w
  d <-w transact w (DeferredGaps network) ;
  (match d with Ok (gaps, ledgers) => w_modify (saw_deferred gaps ledgers) | Err _ => w_ret tt end) ;;w
  p <-w transact w (CountPendingBackfills network) ;
  (match p with Ok n => w_modify (saw_pending n) | Err _ => w_ret tt end).
End feeders.

(** The loop [for ; last < now; last++] of a tick of [feedFailovers], for the
    [k] steps left. *)
Fixpoint inc_failovers (k : nat) (last : Z) (fd : feed) : Z * feed :=
  match k with
  | O => (last, fd)
  | S k => inc_failovers k (last + 1)
             (mkFeed (fd_State fd) (fd_OpenGaps fd) (fd_DeferredGaps fd) (fd_DeferredLedgers fd)
                (fd_BackfillPending fd) (fd_SourceFailovers fd + 1))
  end.

Definition feedFailovers (now last : Z) (fd : feed) : Z * feed :=
  inc_failovers (Z.to_nat (now - last)) last (on_state (SetFailovers now) fd).

(** The loop's observations, as they reach the state. *)
Definition observed (ob : Observed) (s : State) : State :=
  let s := match ob_ready ob with Some v => SetReady v s | None => s end in
  match ob_seen ob with Some (cursor, latest, lag) => Observe cursor latest lag s | None => s end.

(** ** Lemmas *)

(** The open gaps are those to replay and those deferred. *)
Lemma open_split net (m : gmap string gap_row) : gaps_wf m →
  affected (λ _ r, is_open net r) m =
  affected (λ _ r, is_open net r && bool_decide (g_heal_mode r = HealModeReplay)) m
  + affected (λ _ r, is_open net r && bool_decide (g_heal_mode r = HealModeDeferred)) m.
Proof.
  intros Hwf. unfold affected, sel.
  assert (Hm : ∀ k r, (k, r) ∈ map_to_list m →
    g_heal_mode r = HealModeReplay ∨ g_heal_mode r = HealModeDeferred).
  { intros k r Hin%elem_of_map_to_list. by eapply wf_mode. }
  induction (map_to_list m) as [|[k r] l IH]; [done|].
  rewrite !filter_cons. cbn [fst snd].
  assert (IH' := IH (λ k' r' Hin, Hm k' r' (list_elem_of_further _ _ _ Hin))).
  destruct (is_open net r) eqn:Ho; cbn [andb].
  - rewrite (decide_True _ _ eq_refl). destruct (Hm k r ltac:(by left)) as [Hr|Hr]; rewrite Hr.
    + rewrite decide_True, decide_False by (by vm_compute). simpl. lia.
    + rewrite decide_False, decide_True by (by vm_compute). simpl. lia.
  - rewrite !decide_False by done. exact IH'.
Qed.

Lemma affected_nonneg `{Countable K} {V} (P : K → V → bool) (m : gmap K V) : 0 ≤ affected P m.
Proof. unfold affected. lia. Qed.

(** A read under a server without faults. *)
Definition calm_server `{S : SDK} (w : world) : Prop :=
  ∀ n, (∀ d, w_others w n d = d) ∧ w_faults w n = no_faults ∧ w_lost w n = false.

Lemma transact_query `{S : SDK} (w : world) {A} (f : db → A) (o : outside) (fd : feed) : calm_server w →
  transact w (query f) o fd = Some (Ok (f (o_db o)), mkOutside (Datatypes.S (o_calls o)) (o_db o), fd).
Proof.
  intros Hcalm. destruct (Hcalm (o_calls o)) as (Hd & Hf & Hl). unfold transact. rewrite Hd, Hf, Hl.
  rewrite BeginFunc_quiet. done.
Qed.

(** What a feeder must not touch. *)
Definition loop_fields (s : State) : bool * Z * Z * Z * option string * Z :=
  (st_ready s, st_cursor s, st_latestKnown s, st_tipLagMilli s, st_archive s, st_failovers s).

(** The gauges say what the state says. *)
Definition gauges_agree (fd : feed) : Prop :=
  fd_OpenGaps fd = st_openGaps (fd_State fd) ∧ fd_DeferredGaps fd = st_deferredGaps (fd_State fd) ∧
  fd_DeferredLedgers fd = st_deferredLedgers (fd_State fd) ∧
  fd_BackfillPending fd = st_pendingBackfills (fd_State fd).

Lemma inc_failovers_spec k last fd : inc_failovers k last fd =
  (last + Z.of_nat k, mkFeed (fd_State fd) (fd_OpenGaps fd) (fd_DeferredGaps fd) (fd_DeferredLedgers fd)
     (fd_BackfillPending fd) (fd_SourceFailovers fd + Z.of_nat k)).
Proof.
  revert last fd. induction k as [|k IH]; intros last fd; simpl.
  - rewrite !Z.add_0_r. by destruct fd.
  - rewrite IH. simpl. f_equal; [lia|]. f_equal. lia.
Qed.

(** Only the wait at the tip touches readiness. *)
Lemma iterate_ready `{S : SDK} `{!SDKChanges} `{!LedgerHeaders} cfg tn lp :
  tn_get tn ≠ Err ErrNotYetAvailable → ob_ready (lp_obs (iterate cfg tn lp).2) = ob_ready (lp_obs lp).
Proof.
  intros Hget. unfold iterate. destruct (tn_cancelled tn); [done|]. destruct (tn_get tn) as [lcm|e].
  - unfold process. repeat (case_match; try done).
  - destruct e; try done; by destruct (tn_dying tn).
Qed.

Section feed.
Context `{S : SDK} (w : world) (network : string).

Lemma transact_any {A} (t : Tx A) o (fd : feed) : ∃ out o', transact w t o fd = Some (out, o', fd).
Proof. unfold transact. destruct (BeginFunc _ _ _ _) as [out d']. by eexists _, _. Qed.

(** A step of the feeder: nothing, or one of its three updates. *)
Lemma feed_step {A} (r : res A) (f : A → feed → feed) o fd :
  (∀ a, loop_fields (fd_State (f a fd)) = loop_fields (fd_State fd) ∧ (gauges_agree fd → gauges_agree (f a fd))) →
  ∃ fd', (match r with Ok a => w_modify (f a) | Err _ => w_ret tt end) o fd = Some (tt, o, fd') ∧
    loop_fields (fd_State fd') = loop_fields (fd_State fd) ∧ (gauges_agree fd → gauges_agree fd').
Proof. intros Hf. destruct r as [a|e]; eexists; (split; [done|]); [apply Hf|done]. Qed.

Lemma feedStatus_any o fd : ∃ o' fd', feedStatus w network o fd = Some (tt, o', fd') ∧
  loop_fields (fd_State fd') = loop_fields (fd_State fd) ∧ (gauges_agree fd → gauges_agree fd').
Proof.
  unfold feedStatus, w_bind. destruct (transact_any (OpenGaps network) o fd) as (n & o1 & ->).
  destruct (feed_step n saw_open o1 fd) as (fd1 & -> & L1 & G1).
  { intros a. split; [done|]. by intros (? & ? & ? & ?). }
  destruct (transact_any (DeferredGaps network) o1 fd1) as (d & o2 & ->).
  destruct (feed_step d (λ gl, saw_deferred gl.1 gl.2) o2 fd1) as (fd2 & E2 & L2 & G2).
  { intros a. split; [done|]. by intros (? & ? & ? & ?). }
  replace ((match d with Ok (gaps, ledgers) => w_modify (saw_deferred gaps ledgers) | Err _ => w_ret tt end) o2 fd1)
    with (Some (tt, o2, fd2)) by (rewrite <- E2; by destruct d as [[? ?]|]).
  destruct (transact_any (CountPendingBackfills network) o2 fd2) as (p & o3 & ->).
  destruct (feed_step p saw_pending o3 fd2) as (fd3 & -> & L3 & G3).
  { intros a. split; [done|]. by intros (? & ? & ? & ?). }
  exists o3, fd3. split; [done|]. split; [congruence|auto].
Qed.

Lemma feedStatus_calm o fd : calm_server w → ∃ n,
  let m := db_gaps (o_db o) in
  let deferred := sel (λ _ r, is_open network r && bool_decide (g_heal_mode r = HealModeDeferred)) m in
  feedStatus w network o fd = Some (tt, mkOutside n (o_db o),
    saw_pending (affected (λ k b, bool_decide (k.1 = network) && negb (b_done b)) (db_backfill (o_db o)))
      (saw_deferred (Z.of_nat (length deferred)) (sum_ledgers deferred)
        (saw_open (affected (λ _ r, is_open network r) m) fd))).
Proof.
  intros Hcalm. eexists. unfold feedStatus, w_bind, OpenGaps, DeferredGaps, CountPendingBackfills.
  rewrite (transact_query w _ o fd Hcalm). cbn [w_modify]. unfold w_modify at 1.
  rewrite transact_query by done. cbn [o_db]. unfold w_modify at 1.
  rewrite transact_query by done. done.
Qed.
End feed.

(** ** Properties *)

(** The status page counts what the store holds.  A tick of the feeder
    always ends, touches neither the loop's fields nor the healer's, and keeps
    gauges and state in agreement whatever fails; the gaps pending heal are never
    negative.  On a server that answers and is not written to meanwhile, over a
    well-formed gap table, the page then shows the open gaps, of which those
    pending heal are exactly the ones the healer would be handed, and the open
    walks. *)
Theorem feedStatus_counts `{S : SDK} (w : world) (network : string) (o : outside) (fd : feed) :
  ∃ o' fd', feedStatus w network o fd = Some (tt, o', fd') ∧
    loop_fields (fd_State fd') = loop_fields (fd_State fd) ∧
    (gauges_agree fd → gauges_agree fd') ∧
    0 ≤ gapsPendingHeal (fd_State fd') ∧
    (calm_server w → gaps_wf (db_gaps (o_db o)) → ∀ now, ∃ gaps,
       o_db o' = o_db o ∧
       st_openGaps (fd_State fd') = affected (λ _ r, is_open network r) (db_gaps (o_db o)) ∧
       run now (ListOpenGaps network) (o_db o) = Ok (gaps, o_db o) ∧
       gapsPendingHeal (fd_State fd') = Z.of_nat (length gaps) ∧
       run now (DeferredGaps network) (o_db o)
         = Ok ((st_deferredGaps (fd_State fd'), st_deferredLedgers (fd_State fd')), o_db o) ∧
       run now (CountPendingBackfills network) (o_db o) = Ok (st_pendingBackfills (fd_State fd'), o_db o)).
Proof.
  destruct (feedStatus_any w network o fd) as (o' & fd' & Hrun & Hloop & Hgauges).
  exists o', fd'. split; [done|]. split; [done|]. split; [done|]. split.
  { unfold gapsPendingHeal. destruct (Z.ltb_spec 0 (st_openGaps (fd_State fd') - st_deferredGaps (fd_State fd'))); lia. }
  intros Hcalm Hwf now. destruct (feedStatus_calm w network o fd Hcalm) as [n Hcalm'].
  rewrite Hrun in Hcalm'. injection Hcalm' as -> ->. eexists. split; [done|]. split; [done|].
  split; [done|]. split; [|by split].
  rewrite length_fmap, (Permutation_length (sort_by_desc_perm _ _)). unfold gapsPendingHeal. simpl.
  pose proof (open_split network _ Hwf) as Hsplit. unfold affected in *. rewrite Hsplit.
  set (a := length _). set (b := length _).
  replace (Z.of_nat a + Z.of_nat b - Z.of_nat b) with (Z.of_nat a) by lia.
  destruct (Z.ltb_spec 0 (Z.of_nat a)); lia.
Qed.

(** The failover counter follows the client: after a tick it has grown by what
    the client counted since the last one, and the page shows the client's own
    number. *)
Theorem feedFailovers_mirrors (now last : Z) (fd : feed) : last ≤ now →
  ∃ fd', feedFailovers now last fd = (now, fd') ∧ st_failovers (fd_State fd') = now ∧
    fd_SourceFailovers fd' = fd_SourceFailovers fd + (now - last).
Proof.
  intros Hle. unfold feedFailovers. rewrite inc_failovers_spec. rewrite Z2Nat.id by lia.
  eexists. split; [f_equal; lia|]. simpl. split; [done|lia].
Qed.

(** Readiness is not withdrawn while the loop catches up: it is only looked at
    when the source has no further ledger, so however far behind the tip the
    loop has fallen, /ready keeps its answer for as long as ledgers are there to
    be read. *)
Theorem ready_survives_catch_up `{S : SDK} `{!SDKChanges} `{!LedgerHeaders} (cfg : Loop.Config)
    (turns : list turn) (lp : loop) (s : State) :
  Forall (λ tn, tn_get tn ≠ Err ErrNotYetAvailable) turns → ob_ready (lp_obs lp) = Some true →
  handleReady (observed (lp_obs (run_turns cfg turns lp).2) s) = 200.
Proof.
  intros Hturns Hready. assert (Hkeep : ob_ready (lp_obs (run_turns cfg turns lp).2) = Some true).
  { revert lp Hready. induction Hturns as [|tn turns Htn _ IH]; intros lp Hready; simpl; [done|].
    pose proof (iterate_ready cfg tn lp Htn) as Hit. rewrite Hready in Hit.
    destruct (iterate cfg tn lp) as [[|r] lp']; simpl in *; [by apply IH|done]. }
  unfold observed. rewrite Hkeep. by destruct (ob_seen _) as [[[? ?] ?]|].
Qed.

(** ** Witnesses and concrete runs *)

#[local] Existing Instance demo_sdk.

Definition demo_calm : world := mkWorld _ (λ _ _ _, Err ErrOther) (λ _ _ _, Err ErrOther) (λ _ _, Err ErrOther)
  (λ _ d, d) (λ _, no_faults) (λ _, false) (λ n, Z.of_nat n) (λ _, false) (λ _, false) (λ _, ∅).

Lemma feedStatus_counts_witness :
  ∃ o' fd' gaps, feedStatus demo_calm demo_net (mkOutside 0 empty_db) (mkFeed new_State 0 0 0 0 0)
      = Some (tt, o', fd') ∧
    run 5 (ListOpenGaps demo_net) empty_db = Ok (gaps, empty_db) ∧
    gapsPendingHeal (fd_State fd') = Z.of_nat (length gaps).
Proof.
  destruct (feedStatus_counts demo_calm demo_net (mkOutside 0 empty_db) (mkFeed new_State 0 0 0 0 0))
    as (o' & fd' & Hrun & _ & _ & _ & Hcalm).
  destruct (Hcalm ltac:(intros n; repeat split) gaps_wf_empty 5)
    as (gaps & _ & _ & Hlist & Hn & _).
  exists o', fd', gaps. split; [exact Hrun|]. split; [exact Hlist|exact Hn].
Defined.

(** Two gaps, one of them deferred: one is pending heal. *)
Definition demo_two_gaps : db :=
  set_gaps (λ _, list_to_map [demo_gap 64 127 None HealModeReplay; demo_gap 256 300 None HealModeDeferred])
    empty_db.

Example demo_page :
  (λ r, let s := snapshot (mkServer "v1" demo_net 0) (fd_State r.2) in
     (ss_OpenGaps s, ss_GapsPendingHeal s, ss_DeferredGaps s, ss_DeferredLedgers s, ss_Archive s)) <$>
    feedStatus demo_calm demo_net (mkOutside 0 demo_two_gaps) (mkFeed new_State 0 0 0 0 0)
  = Some (2, 1, 1, 45, "off").
Proof. vm_compute. reflexivity. Qed.
