(* ===== verification/Routes.v ===== *)
(** * The HTTP surface ([cmd/sierpe/main.go], the [Register] methods)

    The routes the components mount on the mux, what stands behind each of them,
    and the way of a request from its target to a handler: the gate, the mux, the
    handler.  A reply keeps its status and its document; headers and error texts
    are left out, and so is what [net/http] answers before a handler is asked
    ([OPTIONS *]). *)

From S2P Require Import Prelude HealPlan Db Gaps Rows Registrations Commit Registry Query Cursor Api Extract Loop Workers Rpc Classify HttpAuth Mux Admin Health.

(** ** Definitions *)

(** *** The routes *)

Inductive handler :=
  | ServeHealth | ServeReady | ServeStatus | ServeMetrics
  | ServeRegister | ServeDelete | ServePlan
  | ServeContracts | ServeContract | ServeEvents | ServeState | ServeStateHistory | ServeTransfers
  | ServeTrustlines | ServeTrustlineHistory | ServeMovements
  | ServePage.

#[export] Instance handler_eq_dec : EqDecision handler.
Proof. solve_decision. Defined.

Definition Register_health : list (string * handler) :=
  [("GET /health", ServeHealth); ("GET /ready", ServeReady); ("GET /status", ServeStatus);
   ("GET /metrics", ServeMetrics)].

Definition Register_admin : list (string * handler) :=
  [("POST /v1/contracts", ServeRegister); ("DELETE /v1/contracts/{id}", ServeDelete);
   ("POST /v1/admin/gaps/plan", ServePlan)].

Definition Register_api : list (string * handler) :=
  [("GET /v1/contracts", ServeContracts); ("GET /v1/contracts/{id}", ServeContract);
   ("GET /v1/contracts/{id}/events", ServeEvents)].

Definition RegisterState : list (string * handler) :=
  [("GET /v1/contracts/{id}/state", ServeState); ("GET /v1/contracts/{id}/state/history", ServeStateHistory)].

Definition RegisterTransfers : list (string * handler) :=
  [("GET /v1/contracts/{id}/transfers", ServeTransfers)].

Definition RegisterTrustlines : list (string * handler) :=
  [("GET /v1/contracts/{id}/trustlines", ServeTrustlines);
   ("GET /v1/contracts/{id}/trustlines/history", ServeTrustlineHistory)].

Definition RegisterMovements : list (string * handler) :=
  [("GET /v1/contracts/{id}/movements", ServeMovements)].

Definition Register_ui : list (string * handler) := [("GET /{$}", ServePage)].

(** The registrations of [run], in its order. *)
Definition registrations : list (string * handler) :=
  Register_health ++ Register_admin ++ Register_api ++ RegisterState ++ RegisterTransfers
  ++ RegisterTrustlines ++ RegisterMovements ++ Register_ui.

(** *** Requests and responses *)

(** The target's path as it stands on the request line, the first Authorization
    header, the query and the body. *)
Record incoming := mkIncoming {
  ic_Method : string; ic_Target : string; ic_Authorization : string; ic_Query : Values; ic_Body : string }.

Inductive document :=
  | ContractsDoc (cs : list Contract) | ContractDoc (c : contractDetail) | EventsDoc (r : eventsResponse)
  | StateDoc (r : stateSnapshotResponse) | StateHistoryDoc (r : stateHistoryResponse)
  | TransfersDoc (r : transfersResponse) | TrustlinesDoc (r : trustlineSnapshotResponse)
  | TrustlineHistoryDoc (r : trustlineHistoryResponse) | MovementsDoc (r : movementsResponse).

Inductive response :=
  | Probe (status : Z) | StatusDoc (st : Status) | MetricsText | IndexHTML
  | Read (r : reply document) | Administered (r : reply answer)
  | Unauthorized | Redirected | NotAllowed (allow : list string) | NoRoute | BadRequest.

Section surface.
Context `{!AdminJson} `{!SDKValidators} `{!Unicode} `{!ClassifySDK} `{S : SDK} `{!RpcJson} `{!Collation}.
Context `{!Codec cursorPayload} `{!Codec movementsCursorPayload} `{!Codec trustlinesCursorPayload}
  `{!Codec transfersCursorPayload} `{!Codec stateCursorPayload}.
Context (urls : list string) (bodyCap : Z) (http : nat → string → request → http_reply) (ctxErr : nat → bool).
Context (w : world) (network token user password : string).
Context (srv : Server) (st : State) (rd : Reader).

Abbreviation W := (Work server).

Definition doc {A} (f : A → document) (r : reply A) : W response := w_ret (Read (reply_bind r (λ a, Reply (f a)))).

Definition administer (rt : route) (ic : incoming) : W response :=
  r <-w serve urls bodyCap http ctxErr w network token rt (ic_Authorization ic) (ic_Body ic) ;
  w_ret (Administered r).

(** The functions the routes are registered with. *)
Definition handle (h : handler) (id : string) (ic : incoming) : W response :=
  match h with
  | ServeHealth => w_ret (Probe (handleHealth st))
  | ServeReady => w_ret (Probe (handleReady st))
  | ServeStatus => w_ret (StatusDoc (snapshot srv st))
  | ServeMetrics => w_ret MetricsText
  | ServeRegister => administer PostContracts ic
  | ServeDelete => administer (DeleteContracts id) ic
  | ServePlan => administer PostGapsPlan ic
  | ServeContracts => doc ContractsDoc (handleContractList rd)
  | ServeContract => doc ContractDoc (handleContract rd id)
  | ServeEvents => doc EventsDoc (handleEvents network rd id (ic_Query ic))
  | ServeState => doc StateDoc (handleStateSnapshot network rd id (ic_Query ic))
  | ServeStateHistory => doc StateHistoryDoc (handleStateHistory network rd id (ic_Query ic))
  | ServeTransfers => doc TransfersDoc (handleTransfers network rd id (ic_Query ic))
  | ServeTrustlines => doc TrustlinesDoc (handleTrustlineSnapshot network rd id (ic_Query ic))
  | ServeTrustlineHistory => doc TrustlineHistoryDoc (handleTrustlineHistory network rd id (ic_Query ic))
  | ServeMovements => doc MovementsDoc (handleMovements network rd id (ic_Query ic))
  | ServePage => w_ret IndexHTML
  end.

(** [ServeMux.ServeHTTP] *)
Definition serve_mux (m : mux handler) (ic : incoming) (u : urlpath) : W response :=
  if bool_decide (ic_Target ic = "*") then w_ret BadRequest
  else match findHandler m (ic_Method ic) u with
       | Found p h vals => handle h (of_codes (PathValue (pt_segments p) vals (codes "id"))) ic
       | Moved => w_ret Redirected
       | MethodNotAllowed allow => w_ret (NotAllowed allow)
       | NotFound => w_ret NoRoute
       end.

(** The handler of the server: the gate when a user is configured, the mux
    behind it.  A target whose escapes are malformed reaches no handler. *)
Definition serve_http (m : mux handler) (ic : incoming) : W response :=
  match setPath (codes (ic_Target ic)) with
  | None => w_ret BadRequest
  | Some u =>
      if bool_decide (user ≠ "") then
        if Wrap user password token (of_codes (up_Path u)) (ic_Authorization ic) then serve_mux m ic u
        else w_ret Unauthorized
      else serve_mux m ic u
  end.
End surface.

(** ** Specification *)

(** The mux of the registrations, whatever their order. *)
Definition mounted (regs : list (string * handler)) : mux handler :=
  omap (λ r, (λ p, (p, r.2)) <$> parsePattern r.1) regs.

(** A path of the pattern, its wildcards replaced by [id]. *)
Definition fill (id : list Z) (s : segment) : list Z :=
  match s with Literal l => if bool_decide (l = [47]) then [] else l | Wildcard _ => id end.

Definition rendered (segs : list segment) (id : list Z) : list Z := rooted (fill id <$> segs).

(** What opens the gate: the configured user and password, or the admin token. *)
Definition credentials (user password token header : string) : Prop :=
  (∃ u p, BasicAuth header = Some (u, p) ∧ same_secret u user ∧ same_secret p password) ∨
  (∃ t, header = "Bearer " +:+ t ∧ token ≠ "" ∧ same_secret t token).

(** The responses in which no document of the store or the process is served. *)
Definition blank_response (r : response) : Prop :=
  match r with Unauthorized | Redirected | NotAllowed _ | NoRoute | BadRequest => True | _ => False end.

(** ** Lemmas *)

(** *** The table *)

Lemma registrations_parse r : r ∈ registrations → is_Some (parsePattern r.1).
Proof.
  assert (Hall : forallb (λ r, bool_decide (is_Some (parsePattern r.1))) registrations = true) by (by vm_compute).
  rewrite forallb_forall in Hall. intros Hr. by apply list_elem_of_In, Hall, bool_decide_eq_true_1 in Hr.
Qed.

(** The handlers are told apart by the registrations, the patterns by the paths. *)
Lemma registrations_disjoint r r' p p' : r ∈ registrations → r' ∈ registrations →
  parsePattern r.1 = Some p → parsePattern r'.1 = Some p' →
  r = r' ∨ comparePathsAndMethods p p' = Disjoint.
Proof.
  assert (Hall : forallb (λ r, forallb (λ r', bool_decide (r = r') ||
    match parsePattern r.1, parsePattern r'.1 with
    | Some p, Some p' => bool_decide (comparePathsAndMethods p p' = Disjoint)
    | _, _ => true
    end) registrations) registrations = true) by (by vm_compute).
  intros Hr Hr' Hp Hp'. rewrite forallb_forall in Hall. apply list_elem_of_In, Hall in Hr.
  rewrite forallb_forall in Hr. apply list_elem_of_In, Hr in Hr'. cbv beta in Hr'; rewrite Hp, Hp' in Hr'.
  apply orb_true_iff in Hr' as [Heq|Hd]; [left; exact (bool_decide_eq_true_1 _ Heq)|right; exact (bool_decide_eq_true_1 _ Hd)].
Qed.

Lemma elem_of_mounted regs p h : (p, h) ∈ mounted regs ↔ ∃ pat, (pat, h) ∈ regs ∧ parsePattern pat = Some p.
Proof.
  unfold mounted. rewrite list_elem_of_omap. split.
  - intros ([pat h'] & Hin & Heq). simpl in Heq. destruct (parsePattern pat) as [p'|] eqn:Hp; [|done].
    simpl in Heq. injection Heq as -> ->. by exists pat.
  - intros (pat & Hin & Hp). exists (pat, h). split; [done|]. simpl. by rewrite Hp.
Qed.

Lemma mounted_perm regs e : regs ≡ₚ registrations → e ∈ mounted regs ↔ e ∈ mounted registrations.
Proof. destruct e as [p h]. intros Hp. rewrite !elem_of_mounted. by setoid_rewrite Hp. Qed.

(** A property of the mounted routes that evaluates to true. *)
Lemma mounted_all (P : pattern * handler → Prop) `{∀ e, Decision (P e)} e :
  forallb (λ e, bool_decide (P e)) (mounted registrations) = true → e ∈ mounted registrations → P e.
Proof. rewrite forallb_forall. intros Hall Hin. apply list_elem_of_In, Hall in Hin. exact (bool_decide_eq_true_1 _ Hin). Qed.

Lemma mounted_handles regs : regs ≡ₚ registrations → Handle_all [] regs = Some (mounted regs).
Proof.
  intros Hperm. rewrite Handle_all_ok; [done| | | |].
  - rewrite Hperm. apply (bool_decide_eq_true_1 (NoDup registrations)). by vm_compute.
  - intros r. rewrite Hperm. apply registrations_parse.
  - intros r r' p p'. rewrite Hperm. apply registrations_disjoint.
  - intros r p e _ _ Hin. by apply elem_of_nil in Hin.
Qed.

Section table.
Context (regs : list (string * handler)) (Hperm : regs ≡ₚ registrations).

Lemma mounted_unambiguous : unambiguous (mounted regs).
Proof.
  intros [p h] [p' h'] Hin Hin'. apply elem_of_mounted in Hin as (pat & Hin & Hp), Hin' as (pat' & Hin' & Hp').
  rewrite Hperm in Hin, Hin'. destruct (registrations_disjoint _ _ _ _ Hin Hin' Hp Hp') as [Heq|]; [left|by right].
  simplify_eq. done.
Qed.

Lemma mounted_slash : slash_alone (mounted regs).
Proof.
  intros e Hin. rewrite mounted_perm in Hin by done. revert e Hin.
  intros e Hin Hl. apply (mounted_all (λ e, last (pt_segments e.1) ≠ Some (Literal [47]) ∨ pt_segments e.1 = [Literal [47]]))
    in Hin as [|]; [done|done|by vm_compute].
Qed.

Lemma mounted_methods e : e ∈ mounted regs → pt_method e.1 ≠ "" ∧ pt_method e.1 ≠ "CONNECT".
Proof.
  intros Hin. rewrite mounted_perm in Hin by done.
  apply (mounted_all (λ e, pt_method e.1 ≠ "" ∧ pt_method e.1 ≠ "CONNECT")) in Hin; [done|by vm_compute].
Qed.

(** The literals of a pattern are words, and it has one wildcard at most. *)
Lemma mounted_words e : e ∈ mounted regs →
  pt_segments e.1 = [Literal [47]] ∨
  pt_segments e.1 ≠ [] ∧ Forall (λ s, match s with Literal l => word l | Wildcard _ => True end) (pt_segments e.1).
Proof.
  intros Hin. rewrite mounted_perm in Hin by done.
  apply (mounted_all (λ e, pt_segments e.1 = [Literal [47]] ∨ pt_segments e.1 ≠ [] ∧
    forallb (λ s, match s with Literal l => bool_decide (word l) | Wildcard _ => true end) (pt_segments e.1) = true))
    in Hin as [|[Hne Hall]]; [by left| |by vm_compute].
  right. split; [done|]. apply Forall_forall. intros s Hs. rewrite forallb_forall in Hall.
  apply list_elem_of_In, Hall in Hs. destruct s; [exact (bool_decide_eq_true_1 _ Hs)|done].
Qed.
End table.

(** Replacing the wildcards gives a path that fits, with the values put in. *)
Lemma fits_render segs id :
  Forall (λ s, match s with Literal l => word l | Wildcard _ => True end) segs → word id →
  Forall word (fill id <$> segs) ∧ ∃ vals, fits segs (fill id <$> segs) = Some vals ∧
    ∀ name, Wildcard name ∈ segs → PathValue segs vals name = id.
Proof.
  intros Hsegs Hid. induction Hsegs as [|s segs Hs _ IH].
  - split; [constructor|]. exists []. split; [done|]. intros name Hin. by apply elem_of_nil in Hin.
  - destruct IH as (Hwords & vals & Hf & Hval). rewrite fmap_cons. destruct s as [l|name]; cbn [fill fits].
    + rewrite (bool_decide_eq_false_2 (l = [47])) by (intros ->; by destruct Hs as [_ ?%Forall_inv]).
      rewrite bool_decide_eq_true_2 by done. split; [by constructor|].
      exists vals. split; [done|]. intros name [Heq|Hin]%elem_of_cons; [done|by apply Hval].
    + rewrite bool_decide_eq_false_2 by (intros ->; by destruct Hid as [_ ?%Forall_inv]).
      split; [by constructor|]. exists (id :: vals). rewrite Hf. split; [done|].
      intros name' Hin. simpl. case_bool_decide as Hn; [done|].
      apply elem_of_cons in Hin as [Heq|Hin]; [by injection Heq as ->|by apply Hval].
Qed.

(** The request a route is made for finds it. *)
Lemma route_found regs p h path vals u : regs ≡ₚ registrations → (p, h) ∈ mounted regs →
  EscapedPath u = path → cleanPath path = path → fits (pt_segments p) (segments path) = Some vals →
  findHandler (mounted regs) (pt_method p) u = Found p h vals.
Proof.
  intros Hperm Hin <- Hc Hf. destruct (mounted_methods regs Hperm (p, h) Hin) as [_ Hcon].
  pose proof (findHandler_routed _ (pt_method p) u (mounted_unambiguous regs Hperm) (mounted_slash regs Hperm)
    (λ e He, proj1 (mounted_methods regs Hperm e He)) Hcon) as Hr.
  assert (Hacc : accepts (pt_method p) (pt_method p)) by by left.
  destruct (findHandler _ _ _) as [p' h' vals'| |allow|]; simpl in Hr.
  - destruct Hr as (_ & Hin' & Hacc' & Hf').
    assert (Heq : (p', h') = (p, h)).
    { eapply (serves_once (mounted regs)); try done; [by apply mounted_unambiguous|by eexists..]. }
    injection Heq as -> ->. rewrite Hf in Hf'. by injection Hf' as ->.
  - done.
  - destruct Hr as (_ & Hno & _ & _ & Hall). destruct Hno. apply Hall. exists (p, h). split_and!; [done..|by eexists].
  - destruct Hr as [_ Hno]. specialize (Hno (p, h) Hin). simpl in Hno. congruence.
Qed.

Lemma route_rendered regs p h id : regs ≡ₚ registrations → (p, h) ∈ mounted regs → word id →
  ∃ u vals, setPath (rendered (pt_segments p) id) = Some u ∧ up_Path u = rendered (pt_segments p) id ∧
    findHandler (mounted regs) (pt_method p) u = Found p h vals ∧
    ∀ name, Wildcard name ∈ pt_segments p → PathValue (pt_segments p) vals name = id.
Proof.
  intros Hperm Hin Hid. destruct (mounted_words regs Hperm (p, h) Hin) as [Hroot|[Hne Hwords]]; simpl in *.
  - exists (mkPath [47] []), []. rewrite Hroot. split_and!; [by vm_compute..| |].
    + eapply (route_found regs p h [47]); [done..|by vm_compute|by vm_compute|by rewrite Hroot].
    + intros name [?|?%elem_of_nil]%elem_of_cons; done.
  - destruct (fits_render _ _ Hwords Hid) as (Hparts & vals & Hf & Hval).
    destruct (words_pass (fill id <$> pt_segments p) Hparts) as (Hset & Hesc & Hc & Hseg).
    { by destruct (pt_segments p). }
    exists (mkPath (rendered (pt_segments p) id) []), vals. split_and!; [done..| |done].
    eapply route_found; [done..|]. by rewrite Hseg.
Qed.

(** *** The probes *)

(** Whatever the encoding of its target, a request whose path is a probe's is
    handled by that probe, or not handled. *)
Lemma probe_alone method u p h vals name :
  unescape (EscapedPath u) = Some (47 :: name) → solid name →
  findHandler (mounted registrations) method u = Found p h vals → is_Some (fits (pt_segments p) [name]) ∧
  (p, h) ∈ mounted registrations.
Proof.
  intros Hu Hname Hfound. destruct (decide (method = "CONNECT")) as [->|Hcon].
  { exfalso. eapply findHandler_none; [|exact Hfound]. intros e Hin Hacc.
    destruct (mounted_methods _ (reflexivity _) e Hin) as [Hne Hcon].
    by destruct Hacc as [?|[?|[_ ?]]]. }
  pose proof (findHandler_routed _ method u (mounted_unambiguous _ (reflexivity _)) (mounted_slash _ (reflexivity _))
    (λ e He, proj1 (mounted_methods _ (reflexivity _) e He)) Hcon) as Hr.
  rewrite Hfound in Hr. destruct Hr as (Hc & Hin & _ & Hf). split; [|done].
  rewrite (single_segment _ name) in Hf by done. by eexists.
Qed.

Lemma probes_solid : solid (codes "health") ∧ solid (codes "ready").
Proof. split; refine (bool_decide_eq_true_1 _ _); by vm_compute. Qed.

Lemma probe_handlers e : e ∈ mounted registrations →
  (is_Some (fits (pt_segments e.1) [codes "health"]) → e.2 = ServeHealth) ∧
  (is_Some (fits (pt_segments e.1) [codes "ready"]) → e.2 = ServeReady).
Proof.
  intros Hin.
  apply (mounted_all (λ e, (is_Some (fits (pt_segments e.1) [codes "health"]) → e.2 = ServeHealth) ∧
    (is_Some (fits (pt_segments e.1) [codes "ready"]) → e.2 = ServeReady))) in Hin; [done|by vm_compute].
Qed.

(** *** The gate before the mux *)

Lemma gate_closed user password token path header : ¬ credentials user password token header →
  path ≠ "/health" → path ≠ "/ready" → Wrap user password token path header = false.
Proof.
  intros Hno Hh Hr. apply not_true_iff_false. rewrite Wrap_passes. unfold credentials in Hno. tauto.
Qed.

Lemma setPath_Path p u : setPath p = Some u → unescape p = Some (up_Path u).
Proof. unfold setPath. destruct (unescape p); [|done]. by intros [= <-]. Qed.

(** The path of a probe, in bytes. *)
Lemma probe_path u path : of_codes (up_Path u) = path → Forall is_byte (up_Path u) → up_Path u = codes path.
Proof. intros <- Hb. by rewrite codes_of_codes. Qed.

Section surface_lemmas.
Context `{!AdminJson} `{!SDKValidators} `{!Unicode} `{!ClassifySDK} `{S : SDK} `{!RpcJson} `{!Collation}.
Context `{!Codec cursorPayload} `{!Codec movementsCursorPayload} `{!Codec trustlinesCursorPayload}
  `{!Codec transfersCursorPayload} `{!Codec stateCursorPayload}.
Context (urls : list string) (bodyCap : Z) (http : nat → string → request → http_reply) (ctxErr : nat → bool).
Context (w : world) (network token user password : string).
Context (srv : Server) (st : State) (rd : Reader).

Abbreviation handle_ := (handle urls bodyCap http ctxErr w network token srv st rd).
Abbreviation serve_mux_ := (serve_mux urls bodyCap http ctxErr w network token srv st rd (mounted registrations)).
Abbreviation serve_http_ :=
  (serve_http urls bodyCap http ctxErr w network token user password srv st rd (mounted registrations)).

(** Without the token no handler changes anything nor answers for the admin API. *)
Lemma handle_unadmitted h id ic o s : ¬ admitted token (ic_Authorization ic) →
  ∃ r, handle_ h id ic o s = Some (r, o, s) ∧ ∀ a, r ≠ Administered (Reply a).
Proof.
  intros Hno. destruct h; unfold handle, administer, doc, w_bind;
    rewrite ?serve_refused by done; eexists; (split; [reflexivity|done]).
Qed.

(** What a request to a probe's path finds. *)
Lemma probe_served ic u name (expected : handler) status o s :
  unescape (EscapedPath u) = Some (47 :: name) → solid name →
  (∀ e, e ∈ mounted registrations → is_Some (fits (pt_segments e.1) [name]) → e.2 = expected) →
  (∀ id, handle_ expected id ic o s = Some (Probe status, o, s)) →
  ∃ r, serve_mux_ ic u o s = Some (r, o, s) ∧ (blank_response r ∨ r = Probe status).
Proof.
  intros Hu Hname Hexp Hhandle. unfold serve_mux. case_bool_decide.
  { eexists. split; [done|]. left. exact I. }
  destruct (findHandler _ _ _) as [p h vals| |allow|] eqn:Hf;
    [|eexists; (split; [done|]; left; exact I)..].
  destruct (probe_alone _ _ _ _ _ _ Hu Hname Hf) as [Hfit Hin].
  pose proof (Hexp (p, h) Hin Hfit) as Hh. simpl in Hh. subst h. exists (Probe status). by auto.
Qed.

(** Without credentials only a probe is asked. *)
Lemma uncredited ic o s : user ≠ "" → ¬ credentials user password token (ic_Authorization ic) →
  ∃ r, serve_http_ ic o s = Some (r, o, s) ∧
    (blank_response r ∨ r = Probe (handleHealth st) ∨ r = Probe (handleReady st)).
Proof.
  intros Huser Hno. unfold serve_http. destruct (setPath _) as [u|] eqn:Hset.
  2:{ eexists. split; [done|]. left. exact I. }
  rewrite bool_decide_eq_true_2 by done.
  pose proof (EscapedPath_unescape _ _ Hset (codes_bytes _)) as Hesc.
  pose proof (unescape_bytes _ _ (setPath_Path _ _ Hset) (codes_bytes _)) as Hb.
  destruct (Wrap _ _ _ _ _) eqn:HW; [|by eexists; split; [done|]; left].
  destruct (decide (of_codes (up_Path u) = "/health")) as [Hp|Hh].
  - rewrite (probe_path _ _ Hp Hb) in Hesc.
    destruct (probe_served ic u (codes "health") ServeHealth (handleHealth st) o s Hesc) as (r & Hr & Hor);
      [by apply probes_solid|intros e He; by apply probe_handlers|done|].
    exists r. split; [done|]. tauto.
  - destruct (decide (of_codes (up_Path u) = "/ready")) as [Hp|Hr].
    + rewrite (probe_path _ _ Hp Hb) in Hesc.
      destruct (probe_served ic u (codes "ready") ServeReady (handleReady st) o s Hesc) as (r & Hrun & Hor);
        [by apply probes_solid|intros e He; by apply probe_handlers|done|].
      exists r. split; [done|]. tauto.
    + by rewrite gate_closed in HW.
Qed.

(** Without the token nothing is administered. *)
Lemma untokened ic o s : ¬ admitted token (ic_Authorization ic) →
  ∃ r, serve_http_ ic o s = Some (r, o, s) ∧ ∀ a, r ≠ Administered (Reply a).
Proof.
  intros Hno. unfold serve_http. destruct (setPath _) as [u|]; [|by eexists].
  assert (Hmux : ∃ r, serve_mux_ ic u o s = Some (r, o, s) ∧ ∀ a, r ≠ Administered (Reply a)).
  { unfold serve_mux. case_bool_decide; [by eexists|].
    destruct (findHandler _ _ _); [by apply handle_unadmitted|by eexists..]. }
  case_bool_decide; [|done]. destruct (Wrap _ _ _ _ _); [done|by eexists].
Qed.

(** Every route is served, with the gate open. *)
Lemma route_served p h id ic o s : (p, h) ∈ mounted registrations → word (codes id) →
  ic_Method ic = pt_method p → codes (ic_Target ic) = rendered (pt_segments p) (codes id) →
  user = "" ∨ credentials user password token (ic_Authorization ic) ∨ h = ServeHealth ∨ h = ServeReady →
  ∃ id', serve_http_ ic o s = handle_ h id' ic o s ∧ (Wildcard (codes "id") ∈ pt_segments p → id' = id).
Proof.
  intros Hin Hid Hmeth Htarget Hopen.
  destruct (route_rendered _ p h _ (reflexivity _) Hin Hid) as (u & vals & Hset & Hpath & Hfound & Hval).
  exists (of_codes (PathValue (pt_segments p) vals (codes "id"))). split.
  2:{ intros Hw. rewrite Hval by done. apply of_codes_codes. }
  assert (Hmux : serve_mux_ ic u o s = handle_ h (of_codes (PathValue (pt_segments p) vals (codes "id"))) ic o s).
  { unfold serve_mux. rewrite bool_decide_eq_false_2.
    - by rewrite Hmeth, Hfound.
    - intros Hstar. rewrite Hstar in Htarget. unfold rendered in Htarget.
      by destruct (pt_segments p). }
  unfold serve_http. rewrite Htarget, Hset. case_bool_decide as Hu; [|done].
  assert (HW : Wrap user password token (of_codes (up_Path u)) (ic_Authorization ic) = true); [|by rewrite HW].
  apply Wrap_passes. destruct Hopen as [?|[Hcred|Hprobe]]; [done|by auto|].
  rewrite Hpath. assert (Hp : (h = ServeHealth → rendered (pt_segments p) (codes id) = codes "/health") ∧
    (h = ServeReady → rendered (pt_segments p) (codes id) = codes "/ready")).
  { apply (mounted_all (λ e, (e.2 = ServeHealth → pt_segments e.1 = [Literal (codes "health")]) ∧
      (e.2 = ServeReady → pt_segments e.1 = [Literal (codes "ready")]))) in Hin as [Hh Hr]; [|by vm_compute].
    simpl in *. split; intros Heq; [rewrite (Hh Heq)|rewrite (Hr Heq)]; done. }
  destruct Hprobe as [Heq|Heq]; [rewrite (proj1 Hp Heq); left|rewrite (proj2 Hp Heq); right; left];
    apply of_codes_codes.
Qed.
End surface_lemmas.

(** ** Properties *)

(** C29.  The routes.  In whatever order the components register them, no pattern
    is refused and none conflicts; at most one route serves a request.  Every
    request is routed as it should: a path that is not clean is redirected; a
    clean one goes to the route that serves its method (HEAD as GET) and fits its
    decoded segments, with the values of the wildcards; if only other methods are
    served, they are listed, sorted; otherwise it is a 404.  And a client's path
    made from a route and an identifier is found by that route, which reads the
    identifier back. *)
Theorem routing_correct (regs : list (string * handler)) : regs ≡ₚ registrations →
  ∃ m, Handle_all [] regs = Some m ∧
    (∀ p h, (p, h) ∈ m ↔ ∃ pat, (pat, h) ∈ registrations ∧ parsePattern pat = Some p) ∧
    (∀ e1 e2 method path, e1 ∈ m → e2 ∈ m → accepts (pt_method e1.1) method → accepts (pt_method e2.1) method →
       is_Some (fits (pt_segments e1.1) path) → is_Some (fits (pt_segments e2.1) path) → e1 = e2) ∧
    (∀ method u, method ≠ "CONNECT" → routed m method (EscapedPath u) (findHandler m method u)) ∧
    (∀ p h id, (p, h) ∈ m → word id →
       ∃ u vals, setPath (rendered (pt_segments p) id) = Some u ∧ up_Path u = rendered (pt_segments p) id ∧
         findHandler m (pt_method p) u = Found p h vals ∧
         ∀ name, Wildcard name ∈ pt_segments p → PathValue (pt_segments p) vals name = id).
Proof.
  intros Hperm. exists (mounted regs). split_and!.
  - by apply mounted_handles.
  - intros p h. rewrite elem_of_mounted. by setoid_rewrite Hperm.
  - intros e1 e2 method path. apply serves_once. by apply mounted_unambiguous.
  - intros method u Hcon. apply findHandler_routed; [by apply mounted_unambiguous|by apply mounted_slash| |done].
    intros e He. by apply (mounted_methods regs).
  - intros p h id. by apply route_rendered.
Qed.

(** C28.  The surface.  With a user configured, a request that carries neither
    the user's password nor the admin token changes nothing and is served
    nothing but the orchestrator's probes, whatever its method and however its
    target is encoded: no document of the store, no metrics, no page.  Without
    the admin token (or a SHA-256 collision with it) no request, credentials or
    not, changes anything or is answered by the admin API.  And every route is
    served by its handler, with the identifier of the path, to whoever holds
    credentials, to everyone when no user is configured, and the probes
    always. *)
Theorem surface_correct `{!AdminJson} `{!SDKValidators} `{!Unicode} `{!ClassifySDK} `{S : SDK} `{!RpcJson} `{!Collation}
    `{!Codec cursorPayload} `{!Codec movementsCursorPayload} `{!Codec trustlinesCursorPayload}
    `{!Codec transfersCursorPayload} `{!Codec stateCursorPayload}
    (urls : list string) (bodyCap : Z) (http : nat → string → request → http_reply) (ctxErr : nat → bool)
    (w : world) (network token user password : string) (srv : Server) (st : State) (rd : Reader)
    (m : mux handler) (ic : incoming) (o : outside) (s : server) :
  Handle_all [] registrations = Some m →
  let run := serve_http urls bodyCap http ctxErr w network token user password srv st rd m ic o s in
  (user ≠ "" → ¬ credentials user password token (ic_Authorization ic) →
     ∃ r, run = Some (r, o, s) ∧
       (blank_response r ∨ r = Probe (handleHealth st) ∨ r = Probe (handleReady st))) ∧
  (¬ admitted token (ic_Authorization ic) →
     ∃ r, run = Some (r, o, s) ∧ ∀ a, r ≠ Administered (Reply a)) ∧
  (∀ p h id, (p, h) ∈ m → word (codes id) → ic_Method ic = pt_method p →
     codes (ic_Target ic) = rendered (pt_segments p) (codes id) →
     user = "" ∨ credentials user password token (ic_Authorization ic) ∨ h = ServeHealth ∨ h = ServeReady →
     ∃ id', run = handle urls bodyCap http ctxErr w network token srv st rd h id' ic o s ∧
       (Wildcard (codes "id") ∈ pt_segments p → id' = id)).
Proof.
  rewrite mounted_handles by done. intros [= <-] run. split_and!.
  - by apply uncredited.
  - by apply untokened.
  - intros p h id. by apply route_served.
Qed.

(** ** Witnesses and concrete requests *)

#[local] Existing Instance demo_sdk.
#[local] Existing Instance demo_json.
#[local] Existing Instance demo_classify.
#[local] Existing Instance ascii_only.
#[local] Existing Instance lax_validators.
#[local] Existing Instance bytewise.
#[local] Existing Instance demo_admin_json.
#[local] Existing Instance void_codec.

(** What becomes of a method and a target. *)
Definition demo_route (method target : string) : option (outcome handler) :=
  findHandler (mounted registrations) method <$> setPath (codes target).

Definition demo_handler (r : option (outcome handler)) : option (handler * list string) :=
  match r with Some (Found _ h vals) => Some (h, of_codes <$> vals) | _ => None end.

(** Escapes are decoded segment by segment, after the path was split. *)
Example demo_found :
  demo_handler (demo_route "GET" "/v1/contracts/CA/state/history") = Some (ServeStateHistory, ["CA"]) ∧
  demo_handler (demo_route "HEAD" "/v1/contracts/C%41") = Some (ServeContract, ["CA"]) ∧
  demo_handler (demo_route "GET" "/v1/contracts/a%2Fb/events") = Some (ServeEvents, ["a/b"]) ∧
  demo_handler (demo_route "GET" "/%68ealth") = Some (ServeHealth, []) ∧
  demo_handler (demo_route "GET" "/") = Some (ServePage, []).
Proof. vm_compute. repeat split. Qed.

Example demo_not_found :
  demo_route "POST" "/health" = Some (MethodNotAllowed ["GET"; "HEAD"]) ∧
  demo_route "PUT" "/v1/contracts/CA" = Some (MethodNotAllowed ["DELETE"; "GET"; "HEAD"]) ∧
  demo_route "GET" "/v1/contracts/" = Some NotFound ∧
  demo_route "GET" "/v1/../health" = Some Moved ∧
  demo_route "GET" "/v1/contracts/%zz" = None.
Proof. vm_compute. repeat split. Qed.

(** The mux decodes a segment before it compares it with [{$}]'s slash. *)
Example demo_escaped_slash : demo_handler (demo_route "GET" "/%2F") = Some (ServePage, []).
Proof. vm_compute. reflexivity. Qed.

Lemma routing_correct_witness :
  ∃ m u vals, Handle_all [] (rev registrations) = Some m ∧
    setPath (rendered [Literal (codes "v1"); Literal (codes "contracts"); Wildcard (codes "id")] (codes "CA")) = Some u ∧
    findHandler m "DELETE" u
    = Found (mkPattern "DELETE" [Literal (codes "v1"); Literal (codes "contracts"); Wildcard (codes "id")])
        ServeDelete vals.
Proof.
  destruct (routing_correct (rev registrations)) as (m & Hm & Hin & _ & _ & Hrender).
  - symmetry. apply Permutation_rev.
  - destruct (Hrender (mkPattern "DELETE" [Literal (codes "v1"); Literal (codes "contracts"); Wildcard (codes "id")])
                ServeDelete (codes "CA")) as (u & vals & Hu & _ & Hf & _).
    + apply Hin. exists "DELETE /v1/contracts/{id}". split; [|vm_compute; reflexivity].
      repeat (first [apply list_elem_of_here|apply list_elem_of_further]).
    + refine (bool_decide_eq_true_1 _ _). vm_compute. reflexivity.
    + exists m, u, vals. split; [exact Hm|]. split; [exact Hu|exact Hf].
Defined.

Definition demo_surface (user header method target : string) : option (response * outside * server) :=
  serve_http ["b"] 100 demo_http demo_alive demo_quiet "testnet" "0123456789abcdef" user "correct horse"
    (Health.mkServer "v1" "testnet" 0) new_State
    (reader_at "testnet" demo_live_db demo_live_db demo_live_db demo_live_db) (mounted registrations)
    (mkIncoming method target header [("startLedger", "5"); ("endLedger", "7")] "")
    (mkOutside 0 demo_live_db) demo_server.

Lemma surface_correct_witness :
  (∃ r, demo_surface "ops" "" "GET" "/v1/contracts/CA/events" = Some (r, mkOutside 0 demo_live_db, demo_server) ∧
     (blank_response r ∨ r = Probe 200 ∨ r = Probe 503)).
Proof.
  destruct (surface_correct ["b"] 100 demo_http demo_alive demo_quiet "testnet" "0123456789abcdef" "ops" "correct horse"
    (Health.mkServer "v1" "testnet" 0) new_State
    (reader_at "testnet" demo_live_db demo_live_db demo_live_db demo_live_db) (mounted registrations)
    (mkIncoming "GET" "/v1/contracts/CA/events" "" [("startLedger", "5"); ("endLedger", "7")] "")
    (mkOutside 0 demo_live_db) demo_server) as (Hclosed & _ & _).
  - vm_compute. reflexivity.
  - apply Hclosed; [discriminate|]. simpl. intros [(u & p & Hb & _)|(t & Ht & _)]; discriminate.
Defined.

(** Refused without credentials, served with them; the probes answer anyone. *)
Example demo_surface_runs :
  (λ r, r.1.1) <$> demo_surface "ops" "" "GET" "/v1/contracts/CA/events" = Some Unauthorized ∧
  (λ r, r.1.1) <$> demo_surface "ops" "" "GET" "/%72eady" = Some (Probe 503) ∧
  (λ r, r.1.1) <$> demo_surface "ops" "" "DELETE" "/health" = Some (NotAllowed ["GET"; "HEAD"]) ∧
  (λ r, r.1.1) <$> demo_surface "" "" "POST" "/v1/contracts" = Some (Administered (Fail StatusUnauthorized)) ∧
  (λ r, match r.1.1 with Read (Reply (EventsDoc d)) => Some (length (evs_Events d)) | _ => None end)
    <$> demo_surface "ops" (basic_header "ops" "correct horse") "GET" "/v1/contracts/CA/events" = Some (Some 1%nat).
Proof. vm_compute. repeat split. Qed.
