(* ===== verification/Diff.v ===== *)
(** * Naming a difference ([diffDetail], [structuredDiff] of
    [internal/ingest/heal.go])

    When the gate refuses a replay, its log line says which component of the
    ledger's meta differs.  Values of the SDK are opaque parts here: the walk
    only encodes them and compares the encodings. *)

From S2P Require Import Prelude Db Extract Mux HttpAuth.

#[local] Open Scope sdk_scope.

(** ** Definitions *)

Section diff.
Context {Part : Type}.

Record OperationMetaV2 := mkOperationMetaV2 { om_Changes : Part; om_Events : list Part; om_Ext : Part }.

Record TransactionMetaV4 := mkMetaV4 {
  v4_Events : Part; v4_DiagnosticEvents : Part; v4_Operations : list OperationMetaV2;
  v4_TxChangesBefore : Part; v4_TxChangesAfter : Part; v4_SorobanMeta : Part; v4_Ext : Part }.

(** A union: its tag, the arm looked into, and the other arms. *)
Record TransactionMeta := mkMeta { tm_V : Z; tm_V4 : option TransactionMetaV4; tm_others : Part }.

Record TransactionResultMetaV1 := mkTxProcessing {
  tp_Result : Part; tp_FeeProcessing : Part; tp_TxApplyProcessing : TransactionMeta;
  tp_PostTxApplyFeeProcessing : Part }.

Record LedgerCloseMetaV2 := mkMetaV2 {
  m2_Ext : Part; m2_LedgerHeader : Part; m2_TxSet : Part; m2_TxProcessing : list TransactionResultMetaV1;
  m2_UpgradesProcessing : Part; m2_ScpInfo : Part; m2_TotalByteSizeOfLiveSorobanState : Z; m2_EvictedKeys : Part }.

Record LedgerMeta := mkLedgerMeta { lm_V : Z; lm_V2 : option LedgerCloseMetaV2 }.

(** What is handed to [xdr.Marshal]. *)
Inductive value :=
  | VPart (p : Part)
  | VParts (ps : list Part)
  | VOperations (ops : list OperationMetaV2)
  | VMeta (m : TransactionMeta).

(** The messages, before they are written out. *)
Inductive detail :=
  | NoDetail | TxEvents | DiagnosticEvents | OperationMeta
  | OperationCount (replayed rpc : Z)
  | OpChanges (op : Z) (replayed rpc : string)
  | OpEvents (op replayed rpc : Z)
  | OpExt (op : Z)
  | TxChanges | SorobanMeta | MetaExt.

Inductive difference :=
  | MetaVersion (replayed rpc : Z)
  | OnlyV2 (v : Z)
  | LedgerExt | LedgerHeader | TxSet
  | TxCount (replayed rpc : Z)
  | TxResult (i : Z) | TxFee (i : Z) | TxPostFee (i : Z) | TxApply (i : Z) (d : detail)
  | Upgrades | ScpInfo
  | LiveStateSize (replayed rpc : Z)
  | EvictedKeys
  | Outside.

Context (Marshal : value → option string).

(** The closure [marshal]: nothing when the value cannot be encoded. *)
Definition marshal (v : value) : string := default "" (Marshal v).
Definition differ (a b : value) : bool := negb (bool_decide (marshal a = marshal b)).

Abbreviation len xs := (Z.of_nat (length xs)).

(** [GetV4] panics on a nil arm. *)
Definition GetV4 (m : TransactionMeta) : sdk (option TransactionMetaV4) :=
  if tm_V m =? 4 then arm (tm_V4 m) else SOk None.

(** The loop over the operations, from [op] on. *)
Fixpoint first_operation (op : Z) (a b : list OperationMetaV2) : detail :=
  match a, b with
  | ao :: a, bo :: b =>
      if differ (VPart (om_Changes ao)) (VPart (om_Changes bo)) then
        OpChanges op (marshal (VPart (om_Changes ao))) (marshal (VPart (om_Changes bo)))
      else if differ (VParts (om_Events ao)) (VParts (om_Events bo)) then
        OpEvents op (len (om_Events ao)) (len (om_Events bo))
      else if differ (VPart (om_Ext ao)) (VPart (om_Ext bo)) then OpExt op
      else first_operation (op + 1) a b
  | _, _ => OperationMeta
  end.

Definition v4_detail (am bm : TransactionMetaV4) : detail :=
  if differ (VPart (v4_Events am)) (VPart (v4_Events bm)) then TxEvents
  else if differ (VPart (v4_DiagnosticEvents am)) (VPart (v4_DiagnosticEvents bm)) then DiagnosticEvents
  else if differ (VOperations (v4_Operations am)) (VOperations (v4_Operations bm)) then
    if len (v4_Operations am) =? len (v4_Operations bm) then first_operation 0 (v4_Operations am) (v4_Operations bm)
    else OperationCount (len (v4_Operations am)) (len (v4_Operations bm))
  else if differ (VPart (v4_TxChangesBefore am)) (VPart (v4_TxChangesBefore bm))
       || differ (VPart (v4_TxChangesAfter am)) (VPart (v4_TxChangesAfter bm)) then TxChanges
  else if differ (VPart (v4_SorobanMeta am)) (VPart (v4_SorobanMeta bm)) then SorobanMeta
  else MetaExt.

Definition apply_detail (a b : TransactionMeta) : sdk detail :=
  am <~~ GetV4 a ;
  bm <~~ GetV4 b ;
  SOk (match am, bm with Some am, Some bm => v4_detail am bm | _, _ => NoDetail end).

(** The loop over the transactions, from [i] on. *)
Fixpoint first_transaction (i : Z) (a b : list TransactionResultMetaV1) : sdk (option difference) :=
  match a, b with
  | at_ :: a, bt :: b =>
      if differ (VPart (tp_Result at_)) (VPart (tp_Result bt)) then SOk (Some (TxResult i))
      else if differ (VPart (tp_FeeProcessing at_)) (VPart (tp_FeeProcessing bt)) then SOk (Some (TxFee i))
      else if differ (VPart (tp_PostTxApplyFeeProcessing at_)) (VPart (tp_PostTxApplyFeeProcessing bt)) then
        SOk (Some (TxPostFee i))
      else if differ (VMeta (tp_TxApplyProcessing at_)) (VMeta (tp_TxApplyProcessing bt)) then
        d <~~ apply_detail (tp_TxApplyProcessing at_) (tp_TxApplyProcessing bt) ;
        SOk (Some (TxApply i d))
      else first_transaction (i + 1) a b
  | _, _ => SOk None
  end.

Definition first_difference (replayed rpc : LedgerMeta) : sdk difference :=
  if negb (lm_V replayed =? lm_V rpc) then SOk (MetaVersion (lm_V replayed) (lm_V rpc))
  else match lm_V2 replayed, lm_V2 rpc with
  | Some a, Some b =>
      if negb (lm_V replayed =? 2) then SOk (OnlyV2 (lm_V replayed))
      else if differ (VPart (m2_Ext a)) (VPart (m2_Ext b)) then SOk LedgerExt
      else if differ (VPart (m2_LedgerHeader a)) (VPart (m2_LedgerHeader b)) then SOk LedgerHeader
      else if differ (VPart (m2_TxSet a)) (VPart (m2_TxSet b)) then SOk TxSet
      else if negb (len (m2_TxProcessing a) =? len (m2_TxProcessing b)) then
        SOk (TxCount (len (m2_TxProcessing a)) (len (m2_TxProcessing b)))
      else
        tx <~~ first_transaction 0 (m2_TxProcessing a) (m2_TxProcessing b) ;
        match tx with
        | Some d => SOk d
        | None =>
            if differ (VPart (m2_UpgradesProcessing a)) (VPart (m2_UpgradesProcessing b)) then SOk Upgrades
            else if differ (VPart (m2_ScpInfo a)) (VPart (m2_ScpInfo b)) then SOk ScpInfo
            else if negb (m2_TotalByteSizeOfLiveSorobanState a =? m2_TotalByteSizeOfLiveSorobanState b) then
              SOk (LiveStateSize (m2_TotalByteSizeOfLiveSorobanState a) (m2_TotalByteSizeOfLiveSorobanState b))
            else if differ (VPart (m2_EvictedKeys a)) (VPart (m2_EvictedKeys b)) then SOk EvictedKeys
            else SOk Outside
        end
  | _, _ => SOk (OnlyV2 (lm_V replayed))
  end.

(** The words. *)
Definition detail_text (d : detail) : string :=
  match d with
  | NoDetail => ""
  | TxEvents => ": tx events"
  | DiagnosticEvents => ": diagnostic events"
  | OperationMeta => ": operation meta"
  | OperationCount a b => ": operation count " +:+ pretty a +:+ " vs " +:+ pretty b
  | OpChanges op a b => ": op " +:+ pretty op +:+ " ledger entry changes; replay=" +:+ of_codes (b64_encode (codes a))
      +:+ " rpc=" +:+ of_codes (b64_encode (codes b))
  | OpEvents op a b => ": op " +:+ pretty op +:+ " events (" +:+ pretty a +:+ " vs " +:+ pretty b +:+ ")"
  | OpExt op => ": op " +:+ pretty op +:+ " meta ext"
  | TxChanges => ": tx changes"
  | SorobanMeta => ": soroban meta"
  | MetaExt => ": meta ext"
  end.

Definition difference_text (d : difference) : string :=
  match d with
  | MetaVersion a b => "meta version " +:+ pretty a +:+ " vs " +:+ pretty b
  | OnlyV2 v => "structural diff only decodes V2 meta (got V" +:+ pretty v +:+ ")"
  | LedgerExt => "ledger close meta ext differs"
  | LedgerHeader => "ledger header differs"
  | TxSet => "tx set differs"
  | TxCount a b => "tx count " +:+ pretty a +:+ " vs " +:+ pretty b
  | TxResult i => "tx " +:+ pretty i +:+ " result differs"
  | TxFee i => "tx " +:+ pretty i +:+ " fee processing differs"
  | TxPostFee i => "tx " +:+ pretty i +:+ " post-apply fee processing differs"
  | TxApply i d => "tx " +:+ pretty i +:+ " apply meta differs" +:+ detail_text d
  | Upgrades => "upgrades differ"
  | ScpInfo => "scp info differs"
  | LiveStateSize a b => "total live soroban state size " +:+ pretty a +:+ " vs " +:+ pretty b
  | EvictedKeys => "evicted keys differ"
  | Outside => "difference outside the decoded components"
  end.

Definition structuredDiff (replayed rpc : LedgerMeta) : sdk string :=
  d <~~ first_difference replayed rpc ; SOk (difference_text d).

(** The first byte at which two encodings part. *)
Fixpoint common_prefix (got want : string) : Z :=
  match got, want with
  | String g got, String w want => if Ascii.eqb g w then 1 + common_prefix got want else 0
  | _, _ => 0
  end.

Definition diffDetail (got want : string) (replayed rpc : LedgerMeta) (hash : string) : sdk string :=
  text <~~ structuredDiff replayed rpc ;
  SOk ("first difference at byte " +:+ pretty (common_prefix got want) +:+ "; " +:+ text +:+ "; replayed hash " +:+ hash).

(** *** Specification *)

(** Equal encodings. *)
Definition same (a b : value) : Prop := marshal a = marshal b.

Definition same_operation (a b : OperationMetaV2) : Prop :=
  same (VPart (om_Changes a)) (VPart (om_Changes b)) ∧ same (VParts (om_Events a)) (VParts (om_Events b)) ∧
  same (VPart (om_Ext a)) (VPart (om_Ext b)).

Definition same_transaction (a b : TransactionResultMetaV1) : Prop :=
  same (VPart (tp_Result a)) (VPart (tp_Result b)) ∧ same (VPart (tp_FeeProcessing a)) (VPart (tp_FeeProcessing b)) ∧
  same (VPart (tp_PostTxApplyFeeProcessing a)) (VPart (tp_PostTxApplyFeeProcessing b)) ∧
  same (VMeta (tp_TxApplyProcessing a)) (VMeta (tp_TxApplyProcessing b)).

Definition same_head (a b : LedgerCloseMetaV2) : Prop :=
  same (VPart (m2_Ext a)) (VPart (m2_Ext b)) ∧ same (VPart (m2_LedgerHeader a)) (VPart (m2_LedgerHeader b)) ∧
  same (VPart (m2_TxSet a)) (VPart (m2_TxSet b)) ∧ length (m2_TxProcessing a) = length (m2_TxProcessing b).

(** The [i]-th elements of two lists, everything before them agreeing. *)
Definition first_at {A} (agree : A → A → Prop) (i : Z) (la lb : list A) (a b : A) : Prop :=
  0 ≤ i ∧ la !! Z.to_nat i = Some a ∧ lb !! Z.to_nat i = Some b ∧
  Forall2 agree (take (Z.to_nat i) la) (take (Z.to_nat i) lb).

(** What a detail says of two apply metas. *)
Definition detail_holds (a b : TransactionMeta) (d : detail) : Prop :=
  match GetV4 a, GetV4 b with
  | SOk (Some am), SOk (Some bm) =>
      let ops_a := v4_Operations am in let ops_b := v4_Operations bm in
      let events_agree := same (VPart (v4_Events am)) (VPart (v4_Events bm)) ∧
        same (VPart (v4_DiagnosticEvents am)) (VPart (v4_DiagnosticEvents bm)) in
      let operations_differ := events_agree ∧ ¬ same (VOperations ops_a) (VOperations ops_b) in
      let in_operation i P := operations_differ ∧ length ops_a = length ops_b ∧ ∃ oa ob,
        first_at same_operation i ops_a ops_b oa ob ∧ P oa ob in
      let operations_agree := events_agree ∧ same (VOperations ops_a) (VOperations ops_b) in
      let changes_agree := operations_agree ∧
        same (VPart (v4_TxChangesBefore am)) (VPart (v4_TxChangesBefore bm)) ∧
        same (VPart (v4_TxChangesAfter am)) (VPart (v4_TxChangesAfter bm)) in
      match d with
      | NoDetail => False
      | TxEvents => ¬ same (VPart (v4_Events am)) (VPart (v4_Events bm))
      | DiagnosticEvents => same (VPart (v4_Events am)) (VPart (v4_Events bm)) ∧
          ¬ same (VPart (v4_DiagnosticEvents am)) (VPart (v4_DiagnosticEvents bm))
      | OperationCount x y => operations_differ ∧ x = len ops_a ∧ y = len ops_b ∧ x ≠ y
      | OpChanges i x y => in_operation i (λ oa ob,
          x = marshal (VPart (om_Changes oa)) ∧ y = marshal (VPart (om_Changes ob)) ∧ x ≠ y)
      | OpEvents i x y => in_operation i (λ oa ob, same (VPart (om_Changes oa)) (VPart (om_Changes ob)) ∧
          ¬ same (VParts (om_Events oa)) (VParts (om_Events ob)) ∧ x = len (om_Events oa) ∧ y = len (om_Events ob))
      | OpExt i => in_operation i (λ oa ob, same (VPart (om_Changes oa)) (VPart (om_Changes ob)) ∧
          same (VParts (om_Events oa)) (VParts (om_Events ob)) ∧ ¬ same (VPart (om_Ext oa)) (VPart (om_Ext ob)))
      | OperationMeta => operations_differ ∧ Forall2 same_operation ops_a ops_b
      | TxChanges => operations_agree ∧
          ¬ (same (VPart (v4_TxChangesBefore am)) (VPart (v4_TxChangesBefore bm)) ∧
             same (VPart (v4_TxChangesAfter am)) (VPart (v4_TxChangesAfter bm)))
      | SorobanMeta => changes_agree ∧ ¬ same (VPart (v4_SorobanMeta am)) (VPart (v4_SorobanMeta bm))
      | MetaExt => changes_agree ∧ same (VPart (v4_SorobanMeta am)) (VPart (v4_SorobanMeta bm))
      end
  | _, _ => d = NoDetail
  end.

(** What a difference says of two metas of version 2: what is named differs,
    and everything the walk compares before it is equal. *)
Definition names_in (ma mb : LedgerCloseMetaV2) (d : difference) : Prop :=
  let ext_agrees := same (VPart (m2_Ext ma)) (VPart (m2_Ext mb)) in
  let header_agrees := ext_agrees ∧ same (VPart (m2_LedgerHeader ma)) (VPart (m2_LedgerHeader mb)) in
  let txset_agrees := header_agrees ∧ same (VPart (m2_TxSet ma)) (VPart (m2_TxSet mb)) in
  let at_transaction i P := same_head ma mb ∧ ∃ ta tb,
    first_at same_transaction i (m2_TxProcessing ma) (m2_TxProcessing mb) ta tb ∧ P ta tb in
  let transactions_agree := same_head ma mb ∧
    Forall2 same_transaction (m2_TxProcessing ma) (m2_TxProcessing mb) in
  let upgrades_agree := transactions_agree ∧
    same (VPart (m2_UpgradesProcessing ma)) (VPart (m2_UpgradesProcessing mb)) in
  let scp_agrees := upgrades_agree ∧ same (VPart (m2_ScpInfo ma)) (VPart (m2_ScpInfo mb)) in
  let size_agrees := scp_agrees ∧
    m2_TotalByteSizeOfLiveSorobanState ma = m2_TotalByteSizeOfLiveSorobanState mb in
  match d with
  | MetaVersion _ _ | OnlyV2 _ => False
  | LedgerExt => ¬ same (VPart (m2_Ext ma)) (VPart (m2_Ext mb))
  | LedgerHeader => ext_agrees ∧ ¬ same (VPart (m2_LedgerHeader ma)) (VPart (m2_LedgerHeader mb))
  | TxSet => header_agrees ∧ ¬ same (VPart (m2_TxSet ma)) (VPart (m2_TxSet mb))
  | TxCount x y => txset_agrees ∧ x = len (m2_TxProcessing ma) ∧ y = len (m2_TxProcessing mb) ∧ x ≠ y
  | TxResult i => at_transaction i (λ ta tb, ¬ same (VPart (tp_Result ta)) (VPart (tp_Result tb)))
  | TxFee i => at_transaction i (λ ta tb, same (VPart (tp_Result ta)) (VPart (tp_Result tb)) ∧
      ¬ same (VPart (tp_FeeProcessing ta)) (VPart (tp_FeeProcessing tb)))
  | TxPostFee i => at_transaction i (λ ta tb, same (VPart (tp_Result ta)) (VPart (tp_Result tb)) ∧
      same (VPart (tp_FeeProcessing ta)) (VPart (tp_FeeProcessing tb)) ∧
      ¬ same (VPart (tp_PostTxApplyFeeProcessing ta)) (VPart (tp_PostTxApplyFeeProcessing tb)))
  | TxApply i dt => at_transaction i (λ ta tb, same (VPart (tp_Result ta)) (VPart (tp_Result tb)) ∧
      same (VPart (tp_FeeProcessing ta)) (VPart (tp_FeeProcessing tb)) ∧
      same (VPart (tp_PostTxApplyFeeProcessing ta)) (VPart (tp_PostTxApplyFeeProcessing tb)) ∧
      ¬ same (VMeta (tp_TxApplyProcessing ta)) (VMeta (tp_TxApplyProcessing tb)) ∧
      detail_holds (tp_TxApplyProcessing ta) (tp_TxApplyProcessing tb) dt)
  | Upgrades => transactions_agree ∧ ¬ same (VPart (m2_UpgradesProcessing ma)) (VPart (m2_UpgradesProcessing mb))
  | ScpInfo => upgrades_agree ∧ ¬ same (VPart (m2_ScpInfo ma)) (VPart (m2_ScpInfo mb))
  | LiveStateSize x y => scp_agrees ∧ x = m2_TotalByteSizeOfLiveSorobanState ma ∧
      y = m2_TotalByteSizeOfLiveSorobanState mb ∧ x ≠ y
  | EvictedKeys => size_agrees ∧ ¬ same (VPart (m2_EvictedKeys ma)) (VPart (m2_EvictedKeys mb))
  | Outside => transactions_agree ∧ same (VPart (m2_UpgradesProcessing ma)) (VPart (m2_UpgradesProcessing mb)) ∧
      same (VPart (m2_ScpInfo ma)) (VPart (m2_ScpInfo mb)) ∧
      m2_TotalByteSizeOfLiveSorobanState ma = m2_TotalByteSizeOfLiveSorobanState mb ∧
      same (VPart (m2_EvictedKeys ma)) (VPart (m2_EvictedKeys mb))
  end.

(** ... and of two ledgers' metas. *)
Definition names_difference (a b : LedgerMeta) (d : difference) : Prop :=
  match d with
  | MetaVersion x y => x = lm_V a ∧ y = lm_V b ∧ x ≠ y
  | OnlyV2 v => lm_V a = v ∧ lm_V b = v ∧ (v ≠ 2 ∨ lm_V2 a = None ∨ lm_V2 b = None)
  | _ => lm_V a = 2 ∧ lm_V b = 2 ∧ ∃ ma mb, lm_V2 a = Some ma ∧ lm_V2 b = Some mb ∧ names_in ma mb d
  end.

(** A decoded union has the arm its tag names. *)
Definition decoded (m : LedgerMeta) : Prop := ∀ ma, lm_V2 m = Some ma →
  Forall (λ t, tm_V (tp_TxApplyProcessing t) = 4 → is_Some (tm_V4 (tp_TxApplyProcessing t))) (m2_TxProcessing ma).

(** ** Lemmas *)

Lemma differ_true a b : differ a b = true ↔ ¬ same a b.
Proof. unfold differ, same. rewrite negb_true_iff, bool_decide_eq_false. done. Qed.

Lemma differ_false a b : differ a b = false ↔ same a b.
Proof. unfold differ, same. rewrite negb_false_iff, bool_decide_eq_true. done. Qed.

(** Case analysis on the comparisons of a walk. *)
Ltac compare :=
  repeat match goal with
    | |- context [if differ ?x ?y then _ else _] =>
        let E := fresh "E" in destruct (differ x y) eqn:E; [apply differ_true in E|apply differ_false in E]
    end.

Lemma first_at_here {A} (agree : A → A → Prop) a b la lb : first_at agree 0 (a :: la) (b :: lb) a b.
Proof. by repeat constructor. Qed.

Lemma first_at_next {A} (agree : A → A → Prop) i a b la lb x y : agree a b → first_at agree i la lb x y →
  first_at agree (i + 1) (a :: la) (b :: lb) x y.
Proof.
  intros Hab (Hi & Ha & Hb & Hall). unfold first_at. replace (Z.to_nat (i + 1)) with (S (Z.to_nat i)) by lia.
  split; [lia|]. split; [done|]. split; [done|]. simpl. by constructor.
Qed.

(** *** Operations *)
Definition operation_holds (base : Z) (a b : list OperationMetaV2) (d : detail) : Prop :=
  match d with
  | OpChanges i x y => ∃ oa ob, first_at same_operation (i - base) a b oa ob ∧
      x = marshal (VPart (om_Changes oa)) ∧ y = marshal (VPart (om_Changes ob)) ∧ x ≠ y
  | OpEvents i x y => ∃ oa ob, first_at same_operation (i - base) a b oa ob ∧
      same (VPart (om_Changes oa)) (VPart (om_Changes ob)) ∧
      ¬ same (VParts (om_Events oa)) (VParts (om_Events ob)) ∧ x = len (om_Events oa) ∧ y = len (om_Events ob)
  | OpExt i => ∃ oa ob, first_at same_operation (i - base) a b oa ob ∧
      same (VPart (om_Changes oa)) (VPart (om_Changes ob)) ∧ same (VParts (om_Events oa)) (VParts (om_Events ob)) ∧
      ¬ same (VPart (om_Ext oa)) (VPart (om_Ext ob))
  | OperationMeta => Forall2 same_operation a b
  | _ => False
  end.

Lemma operation_holds_next base oa ob a b d : same_operation oa ob → operation_holds (base + 1) a b d →
  operation_holds base (oa :: a) (ob :: b) d.
Proof.
  assert (Hi : ∀ i, i - base = i - (base + 1) + 1) by (intros; lia).
  intros Hsame. destruct d as [| | | |?|i x y|i x y|i| | |]; simpl; try done.
  - by constructor.
  - intros (x1 & y1 & Hat & Hrest). exists x1, y1. rewrite Hi. split; [by apply first_at_next|done].
  - intros (x1 & y1 & Hat & Hrest). exists x1, y1. rewrite Hi. split; [by apply first_at_next|done].
  - intros (x1 & y1 & Hat & Hrest). exists x1, y1. rewrite Hi. split; [by apply first_at_next|done].
Qed.

Lemma first_operation_holds base a b : length a = length b → operation_holds base a b (first_operation base a b).
Proof.
  revert base b. induction a as [|oa a IH]; intros base [|ob b] Hlen; try done; simpl; [by constructor|].
  injection Hlen as Hlen. pose proof (first_at_here same_operation oa ob a b) as Hhere.
  compare; simpl; rewrite ?Z.sub_diag.
  - exists oa, ob. by split_and!.
  - exists oa, ob. by split_and!.
  - exists oa, ob. by split_and!.
  - apply operation_holds_next; [done|by apply IH].
Qed.

Lemma v4_detail_holds a b am bm : GetV4 a = SOk (Some am) → GetV4 b = SOk (Some bm) →
  detail_holds a b (v4_detail am bm).
Proof.
  intros Ha Hb. unfold detail_holds. rewrite Ha, Hb. unfold v4_detail. cbv zeta.
  destruct (differ (VPart (v4_Events am)) _) eqn:E1; [by apply differ_true in E1|]. apply differ_false in E1.
  destruct (differ (VPart (v4_DiagnosticEvents am)) _) eqn:E2; [by apply differ_true in E2|]. apply differ_false in E2.
  destruct (differ (VOperations _) _) eqn:E3.
  { apply differ_true in E3. destruct (Z.eqb_spec (len (v4_Operations am)) (len (v4_Operations bm))) as [Hl|Hl]; [|done].
    apply Nat2Z.inj in Hl.
    pose proof (first_operation_holds 0 (v4_Operations am) (v4_Operations bm) Hl) as Hop.
    destruct (first_operation 0 _ _); simpl in Hop; rewrite ?Z.sub_0_r in Hop; try done; by split_and!. }
  apply differ_false in E3. destruct (_ || _) eqn:E4.
  { split; [done|]. intros [H1%differ_false H2%differ_false]. by rewrite H1, H2 in E4. }
  apply orb_false_iff in E4 as [E4%differ_false E5%differ_false].
  destruct (differ (VPart (v4_SorobanMeta am)) _) eqn:E6; [apply differ_true in E6|apply differ_false in E6]; by split_and!.
Qed.

Lemma apply_detail_holds a b d : apply_detail a b = SOk d → detail_holds a b d.
Proof.
  unfold apply_detail. intros H. sdk_inv H. injection H as <-. destruct v as [am|]; [destruct v0 as [bm|]|].
  - by apply v4_detail_holds.
  - unfold detail_holds. by rewrite Hv, Hv0.
  - unfold detail_holds. by rewrite Hv.
Qed.

(** *** Transactions *)
Definition transaction_holds (base : Z) (a b : list TransactionResultMetaV1) (d : option difference) : Prop :=
  match d with
  | Some d => ∃ i ta tb, first_at same_transaction (i - base) a b ta tb ∧
      match d with
      | TxResult j => i = j ∧ ¬ same (VPart (tp_Result ta)) (VPart (tp_Result tb))
      | TxFee j => i = j ∧ same (VPart (tp_Result ta)) (VPart (tp_Result tb)) ∧
          ¬ same (VPart (tp_FeeProcessing ta)) (VPart (tp_FeeProcessing tb))
      | TxPostFee j => i = j ∧ same (VPart (tp_Result ta)) (VPart (tp_Result tb)) ∧
          same (VPart (tp_FeeProcessing ta)) (VPart (tp_FeeProcessing tb)) ∧
          ¬ same (VPart (tp_PostTxApplyFeeProcessing ta)) (VPart (tp_PostTxApplyFeeProcessing tb))
      | TxApply j dt => i = j ∧ same (VPart (tp_Result ta)) (VPart (tp_Result tb)) ∧
          same (VPart (tp_FeeProcessing ta)) (VPart (tp_FeeProcessing tb)) ∧
          same (VPart (tp_PostTxApplyFeeProcessing ta)) (VPart (tp_PostTxApplyFeeProcessing tb)) ∧
          ¬ same (VMeta (tp_TxApplyProcessing ta)) (VMeta (tp_TxApplyProcessing tb)) ∧
          detail_holds (tp_TxApplyProcessing ta) (tp_TxApplyProcessing tb) dt
      | _ => False
      end
  | None => Forall2 same_transaction a b
  end.

Lemma transaction_holds_next base ta tb a b d : same_transaction ta tb → transaction_holds (base + 1) a b d →
  transaction_holds base (ta :: a) (tb :: b) d.
Proof.
  intros Hsame. destruct d as [d|]; simpl; [|by constructor]. intros (i & x & y & Hat & Hd).
  exists i, x, y. split; [|done]. replace (i - base) with (i - (base + 1) + 1) by lia. by apply first_at_next.
Qed.

Lemma first_transaction_holds base a b d : length a = length b → first_transaction base a b = SOk d →
  transaction_holds base a b d.
Proof.
  revert base b. induction a as [|ta a IH]; intros base [|tb b] Hlen; try done; simpl; [intros [= <-]; constructor|].
  injection Hlen as Hlen. pose proof (first_at_here same_transaction ta tb a b) as Hhere. rewrite <- (Z.sub_diag base) in Hhere.
  compare; intros H.
  - injection H as <-. by exists base, ta, tb.
  - injection H as <-. by exists base, ta, tb.
  - injection H as <-. by exists base, ta, tb.
  - sdk_inv H. injection H as <-. exists base, ta, tb. split_and!; try done. by apply apply_detail_holds.
  - apply transaction_holds_next; [done|by apply IH].
Qed.

Lemma first_difference_holds a b d : first_difference a b = SOk d → names_difference a b d.
Proof.
  unfold first_difference. destruct (Z.eqb_spec (lm_V a) (lm_V b)) as [Hv|Hv]; simpl; [|by intros [= <-]].
  destruct (lm_V2 a) as [ma|] eqn:Ha; [|intros [= <-]; simpl; auto].
  destruct (lm_V2 b) as [mb|] eqn:Hb; [|intros [= <-]; simpl; auto].
  destruct (Z.eqb_spec (lm_V a) 2) as [H2|H2]; simpl; [|intros [= <-]; simpl; auto].
  assert (Hb2 : lm_V b = 2) by congruence.
  assert (Hin : names_in ma mb d → names_difference a b d).
  { intros Hd. destruct d; try done; (split; [done|]; split; [done|]; by exists ma, mb). }
  intros H. apply Hin. clear Hin. revert H.
  destruct (differ (VPart (m2_Ext ma)) _) eqn:E1; [intros [= <-]; by apply differ_true|]. apply differ_false in E1.
  destruct (differ (VPart (m2_LedgerHeader ma)) _) eqn:E2;
    [intros [= <-]; split; [done|by apply differ_true]|]. apply differ_false in E2.
  destruct (differ (VPart (m2_TxSet ma)) _) eqn:E3; [intros [= <-]; split; [done|by apply differ_true]|]. apply differ_false in E3.
  destruct (Z.eqb_spec (len (m2_TxProcessing ma)) (len (m2_TxProcessing mb))) as [El|El]; simpl; [|by intros [= <-]].
  assert (Hhead : same_head ma mb) by (split_and!; try done; lia). intros H. sdk_inv H.
  assert (Htx : transaction_holds 0 (m2_TxProcessing ma) (m2_TxProcessing mb) v) by (apply first_transaction_holds; [lia|done]). destruct v as [dt|]; simpl in Htx.
  - injection H as <-. destruct Htx as (i & ta & tb & Hat & Hd). rewrite Z.sub_0_r in Hat.
    destruct dt; try done; destruct Hd as [-> Hd]; (split; [done|]; by exists ta, tb).
  - assert (Hall : same_head ma mb ∧ Forall2 same_transaction (m2_TxProcessing ma) (m2_TxProcessing mb)) by done.
    revert H. destruct (differ (VPart (m2_UpgradesProcessing ma)) _) eqn:E4; [intros [= <-]; split; [done|by apply differ_true]|].
    apply differ_false in E4.
    destruct (differ (VPart (m2_ScpInfo ma)) _) eqn:E5; [intros [= <-]; split; [done|by apply differ_true]|].
    apply differ_false in E5.
    destruct (Z.eqb_spec (m2_TotalByteSizeOfLiveSorobanState ma) (m2_TotalByteSizeOfLiveSorobanState mb)) as [Es|Es];
      simpl; [|by intros [= <-]].
    destruct (differ (VPart (m2_EvictedKeys ma)) _) eqn:E6; intros [= <-]; [split; [done|by apply differ_true]|].
    apply differ_false in E6. by split_and!.
Qed.

(** The walk always ends in a difference on decoded metas. *)
Lemma first_transaction_returns i a b :
  Forall (λ t, tm_V (tp_TxApplyProcessing t) = 4 → is_Some (tm_V4 (tp_TxApplyProcessing t))) a →
  Forall (λ t, tm_V (tp_TxApplyProcessing t) = 4 → is_Some (tm_V4 (tp_TxApplyProcessing t))) b →
  ∃ d, first_transaction i a b = SOk d.
Proof.
  intros Ha. revert i b. induction Ha as [|ta a Hta _ IH]; intros i b Hb; [by eexists|].
  destruct Hb as [|tb b Htb Hb]; simpl; [by eexists|].
  assert (Hget : ∀ m, (tm_V m = 4 → is_Some (tm_V4 m)) → ∃ v, GetV4 m = SOk v).
  { intros m Hm. unfold GetV4. destruct (Z.eqb_spec (tm_V m) 4) as [E|]; [|by eexists].
    destruct (Hm E) as [x ->]. by eexists. }
  compare; try (by eexists); [|by apply IH].
  unfold apply_detail. destruct (Hget _ Hta) as [x ->], (Hget _ Htb) as [y ->]. by eexists.
Qed.

(** Agreeing metas are not told apart. *)
Lemma first_transaction_agree i a b : Forall2 same_transaction a b → first_transaction i a b = SOk None.
Proof.
  intros Hall. revert i. induction Hall as [|ta tb a b (H1 & H2 & H3 & H4) _ IH]; intros i; simpl; [done|].
  apply differ_false in H1, H2, H3, H4. by rewrite H1, H2, H3, H4, IH.
Qed.

Lemma first_difference_outside a b ma mb : lm_V a = 2 → lm_V b = 2 → lm_V2 a = Some ma → lm_V2 b = Some mb →
  names_in ma mb Outside → first_difference a b = SOk Outside.
Proof.
  intros Ha Hb Hma Hmb (((H1 & H2 & H3 & Hlen) & Htx) & H4 & H5 & Hs & H6). unfold first_difference.
  rewrite Ha, Hb, Hma, Hmb. apply differ_false in H1, H2, H3, H4, H5, H6.
  rewrite H1, H2, H3, Hlen, Z.eqb_refl. simpl. rewrite Z.eqb_refl. simpl. rewrite (first_transaction_agree 0) by done. simpl.
  by rewrite H4, H5, Hs, Z.eqb_refl, H6.
Qed.
End diff.

(** ** Properties *)

(** C35.  A refused replay is diagnosed truthfully.  On decoded metas the walk
    always names a difference, and what it names is the first one: the component's
    encodings differ, at that transaction and operation, while every component
    before it is equal, in the order extension, header, transaction set, number of
    transactions, then of each transaction its result, fee, post-apply fee and
    apply meta (there, events, diagnostic events, operations, changes, Soroban
    meta), then upgrades, SCP information, state size and evicted keys.  The answer that nothing decoded differs
    is given exactly when all compared components of two version 2 metas have
    equal encodings. *)
Theorem structuredDiff_truthful {Part : Type} (Marshal : value (Part := Part) → option string)
    (replayed rpc : LedgerMeta (Part := Part)) :
  decoded replayed → decoded rpc →
  ∃ d, structuredDiff Marshal replayed rpc = SOk (difference_text d) ∧ names_difference Marshal replayed rpc d ∧
    (d = Outside ↔ lm_V replayed = 2 ∧ lm_V rpc = 2 ∧ ∃ a b, lm_V2 replayed = Some a ∧ lm_V2 rpc = Some b ∧
       names_in Marshal a b Outside).
Proof.
  intros Ha Hb.
  assert (Hret : ∃ d, first_difference Marshal replayed rpc = SOk d).
  { unfold first_difference. destruct (negb _); [by eexists|].
    destruct (lm_V2 replayed) as [ma|] eqn:Hma; [|by eexists]. destruct (lm_V2 rpc) as [mb|] eqn:Hmb; [|by eexists].
    destruct (first_transaction_returns Marshal 0 _ _ (Ha ma Hma) (Hb mb Hmb)) as [d Hd].
    repeat (case_match; try (by eexists)); rewrite ?Hd in *; simpl; repeat case_match; by eexists. }
  destruct Hret as [d Hd]. exists d. unfold structuredDiff. rewrite Hd.
  pose proof (first_difference_holds Marshal _ _ _ Hd) as Hholds. split; [done|]. split; [done|].
  split; [by intros ->|]. intros (Hv1 & Hv2 & a & b & Hra & Hrb & Hout).
  rewrite (first_difference_outside Marshal replayed rpc a b) in Hd by done. by injection Hd.
Qed.

(** ** Witnesses *)

(** Two metas of one transaction, whose second operation wrote other changes. *)
Definition demo_operation (changes : string) : OperationMetaV2 := mkOperationMetaV2 changes ["e"] "x".
Definition demo_meta (changes : string) : LedgerMeta :=
  mkLedgerMeta 2 (Some (mkMetaV2 "ext" "header" "txset"
    [mkTxProcessing "result" "fee"
       (mkMeta 4 (Some (mkMetaV4 "events" "" [demo_operation "same"; demo_operation changes] "" "" "" "")) "") "post"]
    "" "" 0 "")).

Definition demo_op_text (op : OperationMetaV2) : string := om_Changes op +:+ "|".
Definition demo_marshal (v : value) : option string :=
  Some match v with
       | VPart p => p
       | VParts ps => String.concat "" ps
       | VOperations ops => String.concat "" (demo_op_text <$> ops)
       | VMeta m => match tm_V4 m with Some v => String.concat "" (demo_op_text <$> v4_Operations v) | None => "" end
       end.

Example demo_diff : structuredDiff demo_marshal (demo_meta "aa") (demo_meta "bb")
  = SOk "tx 0 apply meta differs: op 1 ledger entry changes; replay=YWE= rpc=YmI=".
Proof. vm_compute. reflexivity. Qed.

Lemma structuredDiff_truthful_witness :
  ∃ d, structuredDiff demo_marshal (demo_meta "aa") (demo_meta "bb") = SOk (difference_text d) ∧
    names_difference demo_marshal (demo_meta "aa") (demo_meta "bb") d.
Proof.
  destruct (structuredDiff_truthful demo_marshal (demo_meta "aa") (demo_meta "bb")) as (d & Hd & Hn & _).
  - intros ma [= <-]. repeat constructor. by eexists.
  - intros ma [= <-]. repeat constructor. by eexists.
  - by exists d.
Defined.
