(* ===== verification/Captive.v ===== *)
(** * The archive source ([internal/source/captive/captive.go])

    [New] builds the configuration of the captive cores a replay starts, and
    fails when the SDK refuses it; each replay ([ReplayRange], in [Heal]) starts
    one such core.  The SDK's own part is a parameter. *)

From Stdlib Require Import Ascii.
From S2P Require Import Prelude Db.

(** ** Definitions *)

(** [Config], less the logger. *)
Record Config := mkConfig {
  cp_BinaryPath : string; cp_Passphrase : string; cp_ArchiveURLs : list string; cp_StoragePath : string }.

(** *** [path/filepath] on a Unix system *)

(** The elements between slashes. *)
Fixpoint elements (s : string) : list string :=
  match s with
  | EmptyString => [""]
  | String c rest =>
      match elements rest with
      | e :: es => if Ascii.eqb c "/"%char then "" :: e :: es else String c e :: es
      | [] => []
      end
  end.

(** The lexical rules of [Clean]; [out] is reversed. *)
Fixpoint clean_elements (rooted : bool) (out es : list string) : list string :=
  match es with
  | [] => rev out
  | e :: es =>
      if String.eqb e "" || String.eqb e "." then clean_elements rooted out es
      else if String.eqb e ".." then
        match out with
        | top :: out' => if String.eqb top ".." then clean_elements rooted (e :: out) es
                         else clean_elements rooted out' es
        | [] => clean_elements rooted (if rooted then [] else [e]) es
        end
      else clean_elements rooted (e :: out) es
  end.

Definition is_rooted (s : string) : bool := match s with String c _ => Ascii.eqb c "/"%char | EmptyString => false end.

Definition Clean (s : string) : string :=
  let es := clean_elements (is_rooted s) [] (elements s) in
  if is_rooted s then "/" +:+ String.concat "/" es
  else match es with [] => "." | _ => String.concat "/" es end.

(** [filepath.Join] of two elements, the second one not empty. *)
Definition Join (a b : string) : string := if String.eqb a "" then Clean b else Clean (a +:+ "/" +:+ b).

(** *** The SDK's parameters, as the source fills them *)

Record CaptiveCoreTomlParams := mkTomlParams {
  tp_NetworkPassphrase : string; tp_HistoryArchiveURLs : list string; tp_CoreBinaryPath : string;
  tp_EmitUnifiedEvents : bool; tp_EmitUnifiedEventsBeforeProtocol22 : bool;
  tp_EnforceSorobanDiagnosticEvents : bool; tp_EnforceSorobanTransactionMetaExtV1 : bool }.

(** The SDK's rendered configuration. *)
Class CaptiveCore := CaptiveCoreToml : Type.

Record CaptiveCoreConfig `{CaptiveCore} := mkCoreConfig {
  cc_BinaryPath : string; cc_NetworkPassphrase : string; cc_HistoryArchiveURLs : list string;
  cc_StoragePath : string; cc_Toml : CaptiveCoreToml; cc_UserAgent : string }.

(** [Source]: its configuration, and what every new backend is started with. *)
Record Source `{CaptiveCore} := mkSource { sr_cfg : Config; sr_newBackend : CaptiveCoreConfig }.

Arguments mkCoreConfig {_}. Arguments mkSource {_}.

Section captive.
Context `{CaptiveCore} (NewCaptiveCoreToml : CaptiveCoreTomlParams → res CaptiveCoreToml).

Definition toml_params (cfg : Config) : CaptiveCoreTomlParams :=
  mkTomlParams (cp_Passphrase cfg) (cp_ArchiveURLs cfg) (cp_BinaryPath cfg) true true true true.

Definition New (cfg : Config) : res Source :=
  match NewCaptiveCoreToml (toml_params cfg) with
  | Err e => Err e
  | Ok toml =>
      Ok (mkSource cfg (mkCoreConfig (cp_BinaryPath cfg) (cp_Passphrase cfg) (cp_ArchiveURLs cfg)
        (Join (cp_StoragePath cfg) "sierpe-captive") toml "sierpe"))
  end.
End captive.

(** ** Lemmas *)

(** A name is one element of its own. *)
Definition plain (e : string) : Prop := e ≠ "" ∧ e ≠ "." ∧ e ≠ ".." ∧ elements e = [e].

Lemma clean_elements_snoc rooted out es e : plain e →
  clean_elements rooted out (es ++ [e]) = clean_elements rooted out es ++ [e].
Proof.
  intros (H1 & H2 & H3 & _). apply String.eqb_neq in H1, H2, H3.
  revert out. induction es as [|x es IH]; intros out; simpl; [by rewrite H1, H2, H3|].
  destruct (_ || _); [apply IH|]. destruct (String.eqb x ".."); [|apply IH].
  destruct out as [|top out]; [apply IH|]. destruct (String.eqb top ".."); apply IH.
Qed.

Lemma elements_cons s : ∃ e es, elements s = e :: es.
Proof. induction s as [|c s (e & es & IH)]; simpl; [by eexists _, _|]. rewrite IH. destruct (Ascii.eqb c "/"%char); by eexists _, _. Qed.

Lemma elements_app s t : elements (s +:+ "/" +:+ t) = elements s ++ elements t.
Proof.
  induction s as [|c s IH].
  - change (elements (String "/"%char t) = "" :: elements t). simpl. by destruct (elements_cons t) as (e & es & ->).
  - change (elements (String c s +:+ "/" +:+ t)) with (elements (String c (s +:+ "/" +:+ t))).
    cbn [elements]. rewrite IH. destruct (elements_cons s) as (e & es & ->). simpl.
    by destruct (Ascii.eqb c "/"%char).
Qed.

(** The directory of a name inside another: its elements are the directory's,
    cleaned, and the name. *)
Lemma Join_inside dir name : dir ≠ "" → plain name →
  Join dir name = (if is_rooted dir then "/" else "") +:+
    String.concat "/" (clean_elements (is_rooted dir) [] (elements dir) ++ [name]).
Proof.
  intros Hd Hn. assert (Hr : is_rooted (dir +:+ "/" +:+ name) = is_rooted dir) by (by destruct dir).
  unfold Join. apply String.eqb_neq in Hd as ->. unfold Clean.
  rewrite Hr, elements_app. destruct Hn as (H1 & H2 & H3 & Hel). rewrite Hel.
  rewrite clean_elements_snoc by done. destruct (is_rooted dir); [done|].
  by destruct (clean_elements false [] (elements dir)).
Qed.

(** A core is started for what was checked: the configured network, archives
    and binary, the event semantics of the RPC, and a directory of its own. *)
Lemma New_Ok `{CaptiveCore} build cfg s : New build cfg = Ok s → cp_StoragePath cfg ≠ "" →
  ∃ toml, build (toml_params cfg) = Ok toml ∧ sr_cfg s = cfg ∧
    let cc := sr_newBackend s in
    cc_Toml cc = toml ∧ cc_NetworkPassphrase cc = cp_Passphrase cfg ∧ cc_HistoryArchiveURLs cc = cp_ArchiveURLs cfg ∧
    cc_BinaryPath cc = cp_BinaryPath cfg ∧
    cc_StoragePath cc = (if is_rooted (cp_StoragePath cfg) then "/" else "") +:+
      String.concat "/" (clean_elements (is_rooted (cp_StoragePath cfg)) [] (elements (cp_StoragePath cfg))
                         ++ ["sierpe-captive"]).
Proof.
  unfold New. destruct (build (toml_params cfg)) as [toml|e]; [|done]. intros [= <-] Hs. exists toml.
  split_and!; try done. by apply Join_inside.
Qed.

Example demo_Join :
  Join "/tmp" "sierpe-captive" = "/tmp/sierpe-captive" ∧ Join "/var//data/../cores/" "sierpe-captive" = "/var/cores/sierpe-captive" ∧
  Join "../x" "sierpe-captive" = "../x/sierpe-captive" ∧ Join "" "sierpe-captive" = "sierpe-captive" ∧ Clean "/.." = "/".
Proof. vm_compute. repeat split. Qed.
