(* ===== verification/Boot.v ===== *)
(** * The process ([cmd/sierpe/main.go])

    The commands, and what [run] starts, in which order, over the components'
    own definitions.  A started activity is a value here; what it then does is
    [Loop], [Backfill], [Heal], [Health] and [Admin]. *)

From S2P Require Import Prelude Captive Db Migrations Registrations Registry Extract Loop Workers Heal Rpc Api HttpAuth Admin Config.

(** ** Definitions *)

(** *** Commands *)

(** [os.Args] without and with a command. *)
Definition command (args : list string) : string :=
  match args with _ :: cmd :: _ => cmd | _ => "run" end.

(** [healthcheck]: the URL probed, from [os.Getenv("HTTP_PORT")]. *)
Definition healthcheck_url (port : string) : string :=
  "http://127.0.0.1:" +:+ (if bool_decide (port ≠ "") then port else "8080") +:+ "/health".

(** [probe]: [get] is the status of one GET, if it was answered. *)
Definition probe (get : string → option Z) (url : string) : bool :=
  match get url with Some status => status =? 200 | None => false end.

(** [poolerHint], on the SQLSTATE of a Postgres error. *)
Definition poolerHint (code : option string) : bool :=
  match code with
  | Some code => bool_decide (code = "26000") || bool_decide (code = "42P05")
  | None => false
  end.

(** [main]: the exit status; [run] answers whether it returned nil. *)
Definition main (args : list string) (port : string) (get : string → option Z) (run : bool → bool) : Z :=
  let cmd := command args in
  if bool_decide (cmd = "version") then 0
  else if bool_decide (cmd = "healthcheck") then if probe get (healthcheck_url port) then 0 else 1
  else if bool_decide (cmd = "run") then if run true then 0 else 1
  else if bool_decide (cmd = "serve") then if run false then 0 else 1
  else if bool_decide (cmd ∈ ["replay"; "rederive"; "reseed"]) then 1
  else 2.

(** *** [run] *)

(** [httpServer.Addr] *)
Definition listen_addr (c : Config) : string := ":" +:+ pretty (cf_HTTPPort c).

(** What runs beside [run] once started. *)
Inductive activity `{CaptiveCore} :=
  | Listening (addr user password token : string)
  | StatusFeeder
  | RegistryReloader
  | FailoverFeeder
  | BackfillWorker (network passphrase : string)
  | HealWorkers (network passphrase : string) (archive : Captive.Source) (chunk workers : Z)
  | IngestLoop (cfg : Loop.Config).

(** The activities that commit records. *)
Definition ingests `{CaptiveCore} (a : activity) : bool :=
  match a with BackfillWorker _ _ | HealWorkers _ _ _ _ _ | IngestLoop _ => true | _ => false end.

Inductive boot_err :=
  | BadConfig (errs : list cfgerr)
  | OpenFailed (e : goerr)
  | MigrateFailed (e : goerr)
  | ReloadFailed (e : goerr)
  | PoolEmpty
  | NetworkRefused (e : goerr)
  | CaptiveFailed (e : goerr).

Section boot.
Context `{!System} `{S : SDK} `{!RpcJson} `{!Collation} `{!CaptiveCore} (exec_sql : string → db → option db).

Abbreviation database := (Migrations.database (D := db)).

(** What the process finds: its environment, the database server, the embedded
    scripts, the RPC endpoints, and the SDK's answer to a core's configuration. *)
Record host := mkHost {
  ho_lookup : string → option string;
  ho_open : string → res unit;
  ho_migrate : attempt;
  ho_reload : faults;
  ho_http : nat → string → request → http_reply;
  ho_ctxErr : nat → bool;
  ho_toml : CaptiveCoreTomlParams → res CaptiveCoreToml }.

Record appliance := mkAppliance {
  ps_config : Config; ps_db : database; ps_registry : Registry; ps_client : client;
  ps_started : list activity }.

(** [run] returned an error (with what it had started), or it waits. *)
Inductive booted :=
  | Refused (e : boot_err) (s : database) (started : list activity)
  | Serving (p : appliance).

(** The configuration, the connection, the migrations. *)
Definition open_store (h : host) (s : database) : (boot_err + Config) * database :=
  match Load (ho_lookup h) with
  | inl errs => (inl (BadConfig errs), s)
  | inr cfg =>
      match ho_open h (cf_DatabaseURL cfg) with
      | Err e => (inl (OpenFailed e), s)
      | Ok _ =>
          match Migrate exec_sql (ho_migrate h) s with
          | (Err e, s) => (inl (MigrateFailed e), s)
          | (Ok _, s) => (inr cfg, s)
          end
      end
  end.

(** The registry and the pool; [serve] verifies the network here, the ingestion
    loop does it for itself. *)
Definition connect (withIngestion : bool) (h : host) (cfg : Config) (d : db)
    : option (boot_err + Registry * client) :=
  match Reload (ho_reload h) 0 d (Registry.New (cf_Network cfg)) with
  | (Err e, _) => Some (inl (ReloadFailed e))
  | (Ok _, reg) =>
      match Rpc.New (cf_RPCURLs cfg) with
      | None => Some (inl PoolEmpty)
      | Some c =>
          if withIngestion then Some (inr (reg, c))
          else match VerifyNetwork (cf_RPCURLs cfg) Rpc.maxBodyBytes (ho_http h) (ho_ctxErr h)
                       (Passphrase (cf_Network cfg)) (mkOutside 0 d) c with
               | None => None
               | Some (Err e, _, _) => Some (inl (NetworkRefused e))
               | Some (Ok _, _, c) => Some (inr (reg, c))
               end
      end
  end.

(** What both modes start, and what ingestion adds before and after the core. *)
Definition serving (cfg : Config) : list activity :=
  [Listening (listen_addr cfg) (cf_BasicAuthUser cfg) (cf_BasicAuthPassword cfg) (cf_AdminToken cfg);
   StatusFeeder; RegistryReloader].

Definition walking (cfg : Config) : list activity :=
  [FailoverFeeder; BackfillWorker (cf_Network cfg) (Passphrase (cf_Network cfg))].

Definition archive_config (cfg : Config) : Captive.Config :=
  Captive.mkConfig (cf_CoreBinary cfg) (Passphrase (cf_Network cfg)) (cf_ArchiveURLs cfg) (cf_CaptiveStoragePath cfg).

(** The archive source, when a core is configured. *)
Definition archive_of (h : host) (cfg : Config) : res (option Captive.Source) :=
  if ArchiveEnabled cfg then
    match Captive.New (ho_toml h) (archive_config cfg) with Ok s => Ok (Some s) | Err e => Err e end
  else Ok None.

Definition healing (cfg : Config) (archive : option Captive.Source) : list activity :=
  match archive with
  | Some s => [HealWorkers (cf_Network cfg) (Passphrase (cf_Network cfg)) s (chunkOf (cf_HealChunkLedgers cfg))
                 (workersOf (cf_HealWorkers cfg))]
  | None => []
  end.

Definition looping (cfg : Config) : activity :=
  IngestLoop (Loop.mkConfig (cf_Network cfg) (Passphrase (cf_Network cfg)) (cf_StartLedger cfg)).

Definition run (withIngestion : bool) (h : host) (s : database) : option booted :=
  match open_store h s with
  | (inl e, s) => Some (Refused e s [])
  | (inr cfg, s) =>
      match connect withIngestion h cfg (dm_body s) with
      | None => None
      | Some (inl e) => Some (Refused e s [])
      | Some (inr (reg, c)) =>
          let served := mkAppliance cfg s reg c in
          if negb withIngestion then Some (Serving (served (serving cfg)))
          else
            let started := serving cfg ++ walking cfg in
            match archive_of h cfg with
            | Err e => Some (Refused (CaptiveFailed e) s started)
            | Ok archive => Some (Serving (served (started ++ healing cfg archive ++ [looping cfg])))
            end
      end
  end.
End boot.

(** *** The end of [run] *)

(** What its last [select] saw first. *)
Inductive ending := Signalled | LoopEnded | HttpFailed.

(** Whether [run] returned nil: a signal waits for the loop's own answer. *)
Definition finish (withIngestion : bool) (ev : ending) (loop : option loop_err) : bool :=
  match ev with
  | Signalled => if withIngestion then bool_decide (loop = None) else true
  | LoopEnded => bool_decide (loop = None)
  | HttpFailed => false
  end.

(** *** Specification *)

(** The failures before the server is reached. *)
Definition unreached (e : boot_err) : bool :=
  match e with BadConfig _ | OpenFailed _ => true | _ => false end.

(** The failures before anything is started. *)
Definition early (e : boot_err) : bool :=
  match e with CaptiveFailed _ => false | _ => true end.

(** The snapshot answers what the store would. *)
Definition registered `{!Collation} `{!CaptiveCore} (cfg : Config) (p : appliance) : Prop :=
  ∀ id, let d := dm_body (ps_db p) in
    Db.run 0 (GetContract (cf_Network cfg) id) d
    = match Get (rg_snap (ps_registry p)) id with Some c => Ok (c, d) | None => Err ErrNoContract end.

(** A core of the configured binary, network and archives, under a configuration
    the SDK accepted, with the event semantics of the RPC and a directory of its
    own inside the configured storage. *)
Definition core_of `{CaptiveCore} (build : CaptiveCoreTomlParams → res CaptiveCoreToml) (cfg : Config)
    (s : Captive.Source) : Prop :=
  let cc := sr_newBackend s in let storage := cf_CaptiveStoragePath cfg in
  build (mkTomlParams (Passphrase (cf_Network cfg)) (cf_ArchiveURLs cfg) (cf_CoreBinary cfg) true true true true)
    = Ok (cc_Toml cc) ∧
  cc_NetworkPassphrase cc = Passphrase (cf_Network cfg) ∧ cc_HistoryArchiveURLs cc = cf_ArchiveURLs cfg ∧
  cc_BinaryPath cc = cf_CoreBinary cfg ∧
  (storage ≠ "" → cc_StoragePath cc = (if is_rooted storage then "/" else "") +:+
     String.concat "/" (clean_elements (is_rooted storage) [] (elements storage) ++ ["sierpe-captive"])).

(** What ingestion runs on a configuration, with the archive source of the boot. *)
Definition ingestion_of `{CaptiveCore} (cfg : Config) (archive : option Captive.Source) (a : activity) : Prop :=
  a = BackfillWorker (cf_Network cfg) (Passphrase (cf_Network cfg)) ∨
  (∃ s, archive = Some s ∧ a = HealWorkers (cf_Network cfg) (Passphrase (cf_Network cfg)) s
    (chunkOf (cf_HealChunkLedgers cfg)) (workersOf (cf_HealWorkers cfg))) ∨
  a = looping cfg.

(** ** Lemmas *)

Section boot_lemmas.
Context `{!System} `{S : SDK} `{!RpcJson} `{!Collation} `{!CaptiveCore} (exec_sql : string → db → option db).

(** The store is touched only by a migration, after the configuration passed. *)
Lemma open_store_cases h s : ∀ r s', open_store exec_sql h s = (r, s') →
  (∃ e, r = inl e ∧ early e = true ∧ (s' = s ∨ unreached e = false ∧ s' = (Migrate exec_sql (ho_migrate h) s).2)) ∨
  (∃ cfg, r = inr cfg ∧ Load (ho_lookup h) = inr cfg ∧ Migrate exec_sql (ho_migrate h) s = (Ok tt, s')).
Proof.
  intros r s'. unfold open_store. destruct (Load (ho_lookup h)) as [errs|cfg].
  { intros [= <- <-]. left. eexists. split; [done|]. split; [done|]. by left. }
  destruct (ho_open h (cf_DatabaseURL cfg)) as [u|e].
  2: { intros [= <- <-]. left. eexists. split; [done|]. split; [done|]. by left. }
  destruct (Migrate exec_sql (ho_migrate h) s) as [[[]|e] s1].
  - intros [= <- <-]. right. by exists cfg.
  - intros [= <- <-]. left. eexists. split; [done|]. split; [done|]. by right.
Qed.

(** An endpoint of the pool said that it serves the network. *)
Definition network_said (h : host) (cfg : Config) : Prop :=
  ∃ idx, replied (cf_RPCURLs cfg) Rpc.maxBodyBytes (ho_http h) into_passphrase getNetwork idx CallOk
           (Passphrase (cf_Network cfg)).

Lemma VerifyNetwork_runs h (cfg : Config) c : (0 < length (cf_RPCURLs cfg))%nat →
  runs (VerifyNetwork (cf_RPCURLs cfg) Rpc.maxBodyBytes (ho_http h) (ho_ctxErr h) (Passphrase (cf_Network cfg))) c
    (λ out _, out = Ok tt → network_said h cfg).
Proof.
  intros Hlen. eapply runs_bind; [by apply call_runs|]. intros [r said] c1 Hpost. apply runs_ret. cbn.
  destruct r; try done. case_bool_decide as Hp; [done|]. intros _.
  destruct Hpost as (idx & _ & Hr & _). exists idx. by rewrite Hp in Hr.
Qed.

Lemma connect_returns withIngestion h cfg d : (0 < length (cf_RPCURLs cfg))%nat →
  ∃ r, connect withIngestion h cfg d = Some r ∧
    match r with
    | inl e => unreached e = false ∧ early e = true
    | inr (reg, _) => Reload (ho_reload h) 0 d (Registry.New (cf_Network cfg)) = (Ok tt, reg) ∧
                      (withIngestion = false → network_said h cfg)
    end.
Proof.
  intros Hlen. unfold connect.
  destruct (Reload (ho_reload h) 0 d (Registry.New (cf_Network cfg))) as [[[]|e] reg]; [|by eexists].
  destruct (cf_RPCURLs cfg) as [|u urls] eqn:Hurls; [simpl in Hlen; lia|]. rewrite <- Hurls in *. simpl Rpc.New.
  rewrite Hurls. simpl Rpc.New. rewrite <- Hurls.
  destruct withIngestion; [by eexists|].
  destruct (VerifyNetwork_runs h cfg (mkClient 0 0 maxBatchLimit 0) Hlen (mkOutside 0 d)) as (out & n & c & -> & Hsaid).
  destruct out as [[]|e]; [|by eexists]. eexists. split; [done|]. split; [done|]. intros _. by apply Hsaid.
Qed.

Lemma reloaded h cfg s1 reg c started :
  Reload (ho_reload h) 0 (dm_body s1) (Registry.New (cf_Network cfg)) = (Ok tt, reg) →
  registered cfg (mkAppliance cfg s1 reg c started).
Proof.
  intros Hr. destruct (Reload_correct _ _ _ _ _ _ Hr) as [(e & He & _)|(_ & _ & Hget & _)]; [done|].
  intros id. specialize (Hget id). cbn in *. by destruct (Get _ id).
Qed.

Lemma quiet_serving cfg a : a ∈ serving cfg → ingests a = false.
Proof. unfold serving. rewrite !elem_of_cons. by intros [->|[->|[->|?%elem_of_nil]]]. Qed.

Lemma ingesting cfg archive a :
  a ∈ serving cfg ++ walking cfg ++ healing cfg archive ++ [looping cfg] ∧ ingests a = true ↔ ingestion_of cfg archive a.
Proof.
  rewrite !elem_of_app. unfold ingestion_of, walking, healing. rewrite !elem_of_cons, !elem_of_nil.
  split.
  - intros [[Ha|[[->|[->|[]]]|[Ha|[->|[]]]]] Hi]; try done; [|by left| |by right; right].
    + by rewrite (quiet_serving _ _ Ha) in Hi.
    + destruct archive as [s|]; [|by apply elem_of_nil in Ha].
      apply list_elem_of_singleton in Ha as ->. right; left. by exists s.
  - intros [->|[(s & -> & ->)| ->]]; (split; [|done]); [tauto| |tauto].
    right; right; left. by apply list_elem_of_singleton.
Qed.

(** The archive source is there when a core is configured, and starts it. *)
Lemma archive_of_Ok h cfg archive : archive_of h cfg = Ok archive →
  (ArchiveEnabled cfg = true ↔ is_Some archive) ∧ ∀ s, archive = Some s → core_of (ho_toml h) cfg s.
Proof.
  unfold archive_of. destruct (ArchiveEnabled cfg); [|intros [= <-]; split; [by split; [|intros [? ?]]|done]].
  unfold Captive.New. destruct (ho_toml h _) as [toml|e] eqn:Ht; [|done]. intros [= <-].
  split; [by split|]. intros s [= <-]. split_and!; try done. intros Hs. cbn. by apply Join_inside.
Qed.
End boot_lemmas.

(** ** Properties *)

(** C21.  What a process starts, and when.  [run] always comes to an answer.  The
    database is only touched once the configuration is valid and the server
    reached, and by [run] itself only through the migrations, so the history of
    migrations is kept by every start, refused or not.  A refused start has
    started no activity, with one exception: a core that is configured and that
    the SDK refuses stops a process, on a migrated database, whose surface
    already listens and whose backfiller already walks, and no other activity but
    the feeders is then running.  A process that serves has a valid
    configuration, every embedded script applied, the stored registrations in its
    snapshot, and listens on the configured port behind the configured
    credentials; without ingestion it starts none of the three activities that
    commit ledgers, so that only its admin API writes, with its registrations,
    and some endpoint said it is on the configured network; with it, exactly the
    backfiller, the healer when a core is configured, and the loop commit
    ledgers, on that network.  The archive source exists exactly when a core is
    configured, and starts that core, for that network, over those archives, in a
    directory of its own inside the storage path. *)
Theorem run_ordered `{!System} `{S : SDK} `{!RpcJson} `{!Collation} `{!CaptiveCore} (exec_sql : string → db → option db)
    (all : migrationsFS) (d0 : db) (withIngestion : bool) (h : host) (s : database (D := db)) :
  migrated exec_sql all d0 s → at_files (ho_migrate h) ⊆ all →
  ∃ r, run exec_sql withIngestion h s = Some r ∧
    match r with
    | Refused e s' started =>
        migrated exec_sql all d0 s' ∧
        (unreached e = true → s' = s) ∧
        match e with
        | CaptiveFailed m => withIngestion = true ∧ missing (ho_migrate h) s' = [] ∧
            ∃ cfg, Load (ho_lookup h) = inr cfg ∧ ArchiveEnabled cfg = true ∧
              Captive.New (ho_toml h) (archive_config cfg) = Err m ∧
              started = serving cfg ++ walking cfg ∧
              (∀ a, (a ∈ started ∧ ingests a = true) ↔
                 a = BackfillWorker (cf_Network cfg) (Passphrase (cf_Network cfg)))
        | _ => started = []
        end
    | Serving p =>
        let cfg := ps_config p in
        migrated exec_sql all d0 (ps_db p) ∧ missing (ho_migrate h) (ps_db p) = [] ∧
        Load (ho_lookup h) = inr cfg ∧ config_wf cfg ∧
        registered cfg p ∧
        Listening (listen_addr cfg) (cf_BasicAuthUser cfg) (cf_BasicAuthPassword cfg) (cf_AdminToken cfg)
          ∈ ps_started p ∧
        (withIngestion = false → network_said h cfg ∧ ∀ a, a ∈ ps_started p → ingests a = false) ∧
        (withIngestion = true → ∃ archive, (ArchiveEnabled cfg = true ↔ is_Some archive) ∧
           (∀ s, archive = Some s → core_of (ho_toml h) cfg s) ∧
           ∀ a, (a ∈ ps_started p ∧ ingests a = true) ↔ ingestion_of cfg archive a)
    end.
Proof.
  intros Hs Hsub. unfold run. destruct (open_store exec_sql h s) as [r s1] eqn:Hopen.
  pose proof (Migrate_migrated exec_sql all d0 _ _ Hsub Hs) as Hs'.
  destruct (open_store_cases _ _ _ _ _ Hopen) as [(e & -> & Hearly & He)|(cfg & -> & Hload & Hmig)].
  { eexists. split; [done|]. destruct He as [->|[Hr ->]]; (split; [done|]; split; [|by destruct e]); [done|by rewrite Hr]. }
  rewrite Hmig in Hs'. cbn in Hs'. pose proof (Load_wf _ _ Hload) as Hwf.
  destruct (connect_returns withIngestion h cfg (dm_body s1)) as (r & -> & Hr).
  { destruct (wf_rpc _ Hwf) as [? _]. by destruct (cf_RPCURLs cfg); [|simpl; lia]. }
  destruct r as [e|[reg c]].
  { eexists. split; [done|]. split; [done|]. destruct Hr as [Hr Hearly].
    split; [by rewrite Hr|by destruct e]. }
  destruct Hr as [Hreload Hsaid].
  assert (Hcommon : ∀ started,
    (let p := mkAppliance cfg s1 reg c started in
     migrated exec_sql all d0 (ps_db p) ∧ missing (ho_migrate h) (ps_db p) = [] ∧
     Load (ho_lookup h) = inr cfg ∧ config_wf cfg ∧ registered cfg p)).
  { intros started. split; [done|]. split; [by eapply Migrate_Ok|]. split; [done|]. split; [done|].
    by eapply reloaded. }
  destruct withIngestion; cbn [negb].
  - destruct (archive_of h cfg) as [archive|e] eqn:Ha.
    + eexists. split; [done|]. cbn [ps_config].
      destruct (Hcommon (serving cfg ++ walking cfg ++ healing cfg archive ++ [looping cfg]))
        as (? & ? & ? & ? & ?). rewrite <- app_assoc. split_and!; try done; [apply elem_of_app; left; by left|].
      intros _. exists archive. destruct (archive_of_Ok h cfg archive Ha) as [He Hcore].
      split; [done|]. split; [done|]. intros a. apply ingesting.
    + eexists. split; [done|]. split; [done|]. split; [done|]. split; [done|]. split; [by eapply Migrate_Ok|].
      exists cfg. split; [done|]. unfold archive_of in Ha. destruct (ArchiveEnabled cfg); [|done].
      split; [done|]. split; [by destruct (Captive.New _ _); congruence|]. split; [done|]. intros a.
      unfold walking. rewrite elem_of_app, !elem_of_cons, elem_of_nil. split.
      * intros [[Ha'|[->|[->|[]]]] Hi]; [by rewrite (quiet_serving _ _ Ha') in Hi|done|done].
      * intros ->. split; [tauto|done].
  - eexists. split; [done|]. cbn [ps_config]. destruct (Hcommon (serving cfg)) as (? & ? & ? & ? & ?).
    split_and!; try done; [by left|]. intros _. split; [by apply Hsaid|]. apply quiet_serving.
Qed.

(** ** Witnesses and concrete runs *)

#[local] Existing Instance demo_sdk.
#[local] Existing Instance demo_json.
#[local] Existing Instance demo_system.
#[local] Existing Instance bytewise.

(** A core's configuration is its parameters. *)
#[local] Instance demo_core : CaptiveCore := CaptiveCoreTomlParams.

(** A host whose every part answers; its endpoints serve mainnet. *)
Definition demo_host (core : bool) : host := mkHost demo_env1 (λ _, Ok tt)
  (mkAttempt demo_release no_faults false) no_faults
  (λ _ _ req, match req with getNetwork => HttpReply 200 (Passphrase "mainnet") | _ => NoReply end)
  (λ _, false) (λ params, if core then Ok params else Err ErrOther).

(** The archive source of the demonstration. *)
Definition demo_params : CaptiveCoreTomlParams :=
  mkTomlParams (Passphrase "mainnet") (defaultArchiveURLs "mainnet") "/usr/bin/stellar-core" true true true true.
Definition demo_source : Captive.Source :=
  mkSource (Captive.mkConfig "/usr/bin/stellar-core" (Passphrase "mainnet") (defaultArchiveURLs "mainnet") "/tmp")
    (mkCoreConfig "/usr/bin/stellar-core" (Passphrase "mainnet") (defaultArchiveURLs "mainnet") "/tmp/sierpe-captive"
       demo_params "sierpe").

(** A script's effect does not matter here. *)
Definition demo_script (_ : string) (d : db) : option db := Some d.

Definition demo_new : Migrations.database (D := db) := mkDatabase None empty_db.

Definition started_of (r : option booted) : option (list activity) :=
  match r with Some (Serving p) => Some (ps_started p) | _ => None end.

Example demo_boot_run : started_of (run demo_script true (demo_host true) demo_new) = Some
  [Listening ":8080" "ops" "correct horse" "0123456789abcdef"; StatusFeeder; RegistryReloader; FailoverFeeder;
   BackfillWorker "mainnet" (Passphrase "mainnet"); HealWorkers "mainnet" (Passphrase "mainnet") demo_source 128 4;
   IngestLoop (Loop.mkConfig "mainnet" (Passphrase "mainnet") 0)].
Proof. vm_compute. reflexivity. Qed.

Example demo_serve : started_of (run demo_script false (demo_host true) demo_new) = Some
  [Listening ":8080" "ops" "correct horse" "0123456789abcdef"; StatusFeeder; RegistryReloader].
Proof. vm_compute. reflexivity. Qed.

(** A core that cannot be configured stops the process after the surface and the
    backfiller have started. *)
Example demo_no_core :
  match run demo_script true (demo_host false) demo_new with
  | Some (Refused e _ started) => Some (e, length started)
  | _ => None
  end = Some (CaptiveFailed ErrOther, 5%nat).
Proof. vm_compute. reflexivity. Qed.

Lemma run_ordered_witness :
  ∃ p, run demo_script false (demo_host true) demo_new = Some (Serving p) ∧
    missing (mkAttempt demo_release no_faults false) (ps_db p) = [] ∧ config_wf (ps_config p) ∧
    network_said (demo_host true) (ps_config p).
Proof.
  destruct (run_ordered demo_script demo_release empty_db false (demo_host true) demo_new)
    as (r & Hrun & Hr).
  - split; [constructor|reflexivity].
  - reflexivity.
  - pose proof demo_serve as Hs. rewrite Hrun in Hs. destruct r as [e s started|p]; [discriminate|].
    destruct Hr as (_ & Hm & _ & Hwf & _ & _ & Hnet & _). exists p. split; [exact Hrun|].
    split; [exact Hm|]. split; [exact Hwf|]. exact (proj1 (Hnet eq_refl)).
Defined.

(** The probe and the listener disagree on a port with a sign: [strconv.Atoi]
    reads it, a URL may not contain it. *)
Example demo_signed_port :
  load_port (λ name, if String.eqb name "HTTP_PORT" then Some "+8080" else None) = ([], 8080) ∧
  healthcheck_url "+8080" = "http://127.0.0.1:+8080/health" ∧ healthcheck_url "" = "http://127.0.0.1:8080/health".
Proof. vm_compute. repeat split. Qed.

Example demo_main :
  let get := λ url, if String.eqb url "http://127.0.0.1:9000/health" then Some 200 else None in
  main ["sierpe"; "healthcheck"] "9000" get (λ _, false) = 0 ∧
  main ["sierpe"; "healthcheck"] "" get (λ _, false) = 1 ∧
  main ["sierpe"] "" get id = 0 ∧ main ["sierpe"; "serve"] "" get id = 1 ∧
  main ["sierpe"; "replay"] "" get id = 1 ∧ main ["sierpe"; "frobnicate"] "" get id = 2.
Proof. vm_compute. repeat split. Qed.
