(* ===== verification/Derived.v ===== *)
(** * The events of a ledger, by reference

    [Extract.Events] walks a ledger with pointers, early returns, a shared
    counter and a [recover] around each transaction.  The reference here is a
    comprehension: the events of a transaction are those of its contract
    events, numbered in order, that a watched contract emitted and that
    encode.  [Events_reference] relates the two; [identified_by_hash] draws
    from it that transaction hashes identify the stored events. *)

From S2P Require Import Prelude Db Rows Registrations Registry Api Extract.

#[local] Open Scope extract_scope.

(** ** Definitions *)

(** The contract events of one operation, and of a transaction, with the
    operation's index and the event's index in the transaction. *)
Fixpoint numbered_op (op i : Z) (evs : list ContractEvent) : list (Z * Z * ContractEvent) :=
  match evs with
  | [] => []
  | ev :: evs => (op, i, ev) :: numbered_op op (i32 (i + 1)) evs
  end.

Fixpoint numbered (j i : Z) (ops : list (list ContractEvent)) : list (Z * Z * ContractEvent) :=
  match ops with
  | [] => []
  | evs :: ops => numbered_op (i32 j) i evs ++ numbered (j + 1) (i32 (i + Z.of_nat (length evs))) ops
  end.

Section reference.
Context `{S : SDK} `{!SDKChanges} (watch : Snapshot) (seq closedAt : Z).

(** The event a contract event is stored as, if it is. *)
Definition built (o : origin) (n : Z * Z * ContractEvent) : option Event :=
  let '(op, i, ev) := n in
  if negb (ce_IsContract ev) then None
  else
    cid ← ce_ContractId ev ≫= strkey_EncodeContract;
    if watches watch cid KindEvents
    then match buildEvent ev cid (at_index o op i) with SOk x => Some x | _ => None end
    else None.

Definition origin_of (tx : LedgerTransaction) : sdk origin :=
  match toid (i32 seq) (i32 (tx_Index tx)) with
  | SOk prefix => SOk (mkOrigin seq closedAt (TransactionHash tx) (i32 (tx_Index tx)) 0 0 prefix)
  | SErr => SErr
  | SPanic => SPanic
  end.

(** The events of one answer of the reader: those of a successful, readable
    transaction. *)
Definition tx_reference (answer : option LedgerTransaction) : list Event :=
  match answer with
  | None => []
  | Some tx =>
      match Successful tx, GetTransactionEvents tx, origin_of tx with
      | SOk true, SOk ops, SOk o => omap (built o) (numbered 0 0 ops)
      | _, _, _ => []
      end
  end.
End reference.

(** ** Lemmas *)

(** A computation writes the events [es]: all of them when it returns, a prefix
    of them when it panics. *)
Definition writes {A} (t : X A) (es : list Event) : Prop := ∀ m,
  match t m with
  | (Some _, m') => rs_Events m'.1 = rs_Events m.1 ++ es
  | (None, m') => ∃ es', es' `prefix_of` es ∧ rs_Events m'.1 = rs_Events m.1 ++ es'
  end.

Lemma writes_bind {A B} (t : X A) (f : A → X B) es1 es2 :
  writes t es1 → (∀ a, writes (f a) es2) → writes (x_bind t f) (es1 ++ es2).
Proof.
  intros Ht Hf m. specialize (Ht m). unfold x_bind. destruct (t m) as [[a|] m1].
  - specialize (Hf a m1). destruct (f a m1) as [[b|] m2].
    + by rewrite Hf, Ht, app_assoc.
    + destruct Hf as (es' & Hp & ->). exists (es1 ++ es'). rewrite Ht, app_assoc.
      split; [by apply prefix_app|done].
  - destruct Ht as (es' & Hp & ->). exists es'. split; [by apply prefix_app_r|done].
Qed.

Lemma writes_nil_bind {A B} (t : X A) (f : A → X B) es :
  writes t [] → (∀ a, writes (f a) es) → writes (x_bind t f) es.
Proof. intros Ht Hf. apply (writes_bind t f [] es Ht Hf). Qed.

(** Something that may panic before it writes. *)
Lemma writes_call_bind {A B} (s : sdk A) (f : A → X B) es :
  (∀ a, s = SOk a → writes (f a) es) → writes (x_bind (call s) f) es.
Proof.
  intros Hf m. unfold x_bind, call. destruct s as [a| |]; [by apply (Hf a eq_refl)|..];
    (exists []; split; [apply prefix_nil|by rewrite app_nil_r]).
Qed.

Lemma writes_try_bind {A B} (s : sdk A) (f : option A → X B) es :
  (s = SErr → writes (f None) es) → (∀ a, s = SOk a → writes (f (Some a)) es) → writes (x_bind (try s) f) es.
Proof.
  intros H1 H2 m. unfold x_bind, try. destruct s as [a| |]; [by apply (H2 a eq_refl)|by apply (H1 eq_refl)|].
  exists []. split; [apply prefix_nil|by rewrite app_nil_r].
Qed.

Lemma writes_ret {A} (a : A) : writes (ret a) [].
Proof. intros m. simpl. by rewrite app_nil_r. Qed.

Lemma writes_emit d : writes (emit d) (rs_Events d).
Proof. intros m. done. Qed.

Lemma writes_call {A} (s : sdk A) : writes (call s) [].
Proof. intros m. unfold call. destruct s; [by rewrite app_nil_r|..]; (exists []; by rewrite app_nil_r). Qed.

Create HintDb writes.
#[export] Hint Resolve writes_ret writes_call : writes.
#[export] Hint Extern 1 (writes (emit _) []) => exact (writes_emit _) : writes.

Section walk.
Context `{S : SDK} `{!SDKChanges} (watch : Snapshot) (scp : scope) (seq closedAt : Z).

(** Only [txEvent] writes events. *)
Lemma writes_other {A} (built : sdk A) e wrap :
  rs_Events e = [] → (∀ l, rs_Events (wrap l) = []) → writes (record_or built e wrap) [].
Proof.
  intros He Hw. unfold record_or. apply writes_try_bind; [intros _|intros x _].
  - rewrite <- He. apply writes_emit.
  - rewrite <- (Hw [x]). apply writes_emit.
Qed.

Lemma writes_contractIDFor p a : writes (contractIDFor p a) [].
Proof.
  unfold contractIDFor. apply writes_call_bind. intros key _.
  apply writes_nil_bind; [intros m; simpl; by rewrite app_nil_r|]. intros [id|]; [auto with writes|].
  apply writes_try_bind; [intros _|intros raw _]; case_match; auto with writes; intros m; simpl; by rewrite app_nil_r.
Qed.

Lemma writes_txTransfer ev cid o : writes (txTransfer watch scp ev cid o) [].
Proof.
  unfold txTransfer. set (lost := if watches watch cid KindTransfers then _ else _).
  assert (Hlost : writes (emit lost) []) by (unfold lost; destruct (watches _ _ _); auto with writes).
  destruct (_ && _); [auto with writes|]. apply writes_call_bind. intros [body|] _; [|auto with writes].
  destruct (v0_Topics body); [auto with writes|]. apply writes_call_bind. intros sym _.
  destruct (sym ≫= _); [|auto with writes]. apply writes_nil_bind; [case_match; auto with writes|].
  intros want. destruct (_ && _); [auto with writes|]. apply writes_try_bind; [done|]. intros t _.
  apply writes_nil_bind; [case_match; [apply (writes_emit (of_transfers [t]))|auto with writes]|].
  intros _. destruct want; [|auto with writes]. apply writes_try_bind; [done|].
  intros raw _. apply (writes_emit (of_movements _)).
Qed.

Lemma writes_txEvent ev o op i :
  writes (txEvent watch scp ev (at_index o op i)) (option_list (built watch o (op, i, ev))).
Proof.
  unfold txEvent, built. destruct (ce_IsContract ev); simpl; [|auto with writes].
  destruct (ce_ContractId ev) as [raw|]; simpl; [|auto with writes].
  destruct (strkey_EncodeContract raw) as [cid|]; simpl; [|auto with writes].
  rewrite <- (app_nil_r (option_list _)). apply writes_bind; [|intros _; apply writes_txTransfer].
  destruct (watches watch cid KindEvents); [|auto with writes]. unfold record_or.
  apply writes_try_bind; [intros ->; simpl; auto with writes|]. intros x ->. apply (writes_emit (of_events [x])).
Qed.
Lemma writes_opEvents o op i evs :
  writes (opEvents watch scp o op i evs) (omap (built watch o) (numbered_op op i evs)).
Proof.
  revert i. induction evs as [|ev evs IH]; intros i; cbn [opEvents numbered_op omap list_omap]; [auto with writes|].
  pose proof (writes_bind _ _ _ _ (writes_txEvent ev o op i) (λ _, IH (i32 (i + 1)))) as Hw.
  simpl omap. by destruct (built watch o (op, i, ev)).
Qed.

Lemma writes_operationEvents o j i ops :
  writes (operationEvents watch scp o j i ops) (omap (built watch o) (numbered j i ops)).
Proof.
  revert j i. induction ops as [|evs ops IH]; intros j i; simpl; [auto with writes|].
  rewrite omap_app. apply writes_bind; [apply writes_opEvents|auto].
Qed.

(** Ledger changes write no events. *)
Lemma writes_txLedgerChanges tx : writes (txLedgerChanges watch scp tx seq closedAt) [].
Proof.
  unfold txLedgerChanges, tx_origin. apply writes_try_bind; [auto with writes|]. intros changes _.
  apply writes_nil_bind; [apply writes_call_bind; auto with writes|]. intros o.
  apply writes_nil_bind; [|auto with writes]. generalize 0.
  induction changes as [|ch changes IH]; intros i; simpl; [auto with writes|].
  apply writes_nil_bind; [|auto]. unfold ledgerChange. destruct (ch_Type ch); [| |auto with writes].
  - unfold stateChange. destruct (sideOf _); [|auto with writes]. apply writes_call_bind. intros [data|] _; [|auto with writes].
    destruct (sa_ContractId _); [|auto with writes]. destruct (strkey_EncodeContract _); [|auto with writes].
    destruct (watches _ _ _); [by apply writes_other|auto with writes].
  - destruct (sc_assets scp); [|auto with writes]. unfold trustline. destruct (sideOf _); [|auto with writes].
    apply writes_call_bind. intros [tl|] _; [|auto with writes]. destruct (IsPoolShare _); [auto with writes|].
    apply writes_call_bind. intros asset _. apply writes_nil_bind; [apply writes_contractIDFor|].
    intros [cid|]; [|auto with writes]. destruct (watches _ _ _); [|auto with writes].
    apply writes_call_bind. intros canonical _. by apply writes_other.
Qed.

Lemma writes_tx_body tx :
  writes (tx_body watch scp seq closedAt tx) (tx_reference watch seq closedAt (Some tx)).
Proof.
  unfold tx_body, tx_reference. apply writes_call_bind. intros [] ->; simpl; [|auto with writes].
  rewrite <- (app_nil_r (match GetTransactionEvents tx with SOk _ => _ | _ => _ end)). apply writes_bind.
  - unfold txEvents, tx_origin, origin_of. apply writes_try_bind; [intros ->; auto with writes|]. intros ops ->.
    destruct (toid _ _) as [prefix| |].
    + set (o := mkOrigin _ _ _ _ _ _ _). rewrite <- (app_nil_r (omap _ _)).
      exact (writes_bind _ _ _ _ (writes_operationEvents o 0 0 ops) (λ _, writes_ret true)).
    + intros m. simpl. exists []. by rewrite app_nil_r.
    + intros m. simpl. exists []. by rewrite app_nil_r.
  - intros eventsOK. apply writes_nil_bind; [apply writes_txLedgerChanges|].
    intros stateOK. destruct (_ || _); auto with writes.
Qed.

(** One answer of the reader: its reference events, all of them unless the
    transaction counts as suppressed. *)
Lemma readTx_events m answer :
  let m' := readTx watch scp seq closedAt m answer in
  let es := tx_reference watch seq closedAt answer in
  rs_SuppressedTxs m.1 ≤ rs_SuppressedTxs m'.1 ∧
  (∃ es', es' `prefix_of` es ∧ rs_Events m'.1 = rs_Events m.1 ++ es') ∧
  (rs_SuppressedTxs m'.1 = rs_SuppressedTxs m.1 → rs_Events m'.1 = rs_Events m.1 ++ es).
Proof.
  destruct answer as [tx|]; cbn [readTx].
  2:{ simpl. split_and!; [lia| |lia]. exists []. done. }
  pose proof (writes_tx_body tx m) as Hw.
  pose proof (keeps_suppressed watch scp seq closedAt (rs_SuppressedTxs m.1) tx m ltac:(simpl; lia)) as Hs.
  unfold processTx, recover. fold (tx_body watch scp seq closedAt tx).
  destruct (tx_body watch scp seq closedAt tx m) as [[[]|] m1]; cbn [fst snd] in *.
  - split_and!; [done| |done]. exists (tx_reference watch seq closedAt (Some tx)). done.
  - destruct Hw as (es' & Hp & Hw). simpl. split_and!; [lia| |lia]. exists es'. by rewrite app_nil_r.
Qed.

Lemma answers_events m answers :
  let m' := foldl (readTx watch scp seq closedAt) m answers in
  let es := tx_reference watch seq closedAt <$> answers in
  rs_SuppressedTxs m.1 ≤ rs_SuppressedTxs m'.1 ∧
  (∃ ess, Forall2 prefix ess es ∧ rs_Events m'.1 = rs_Events m.1 ++ concat ess) ∧
  (rs_SuppressedTxs m'.1 = rs_SuppressedTxs m.1 → rs_Events m'.1 = rs_Events m.1 ++ concat es).
Proof.
  revert m. induction answers as [|answer answers IH]; intros m; cbn [foldl fmap list_fmap concat].
  { rewrite app_nil_r. split_and!; [lia| |done]. exists []. by rewrite app_nil_r. }
  destruct (readTx_events m answer) as (Hs1 & (es1 & Hp1 & He1) & Hf1).
  destruct (IH (readTx watch scp seq closedAt m answer)) as (Hs2 & (ess & Hp2 & He2) & Hf2).
  split_and!; [lia| |].
  - exists (es1 :: ess). split; [by constructor|]. by rewrite He2, He1, <- app_assoc.
  - intros Hs. rewrite Hf2, Hf1 by lia. by rewrite <- app_assoc.
Qed.
End walk.

Lemma reference_empty `{S : SDK} `{!SDKChanges} watch seq closedAt answer :
  Len watch = 0%nat → tx_reference watch seq closedAt answer = [].
Proof.
  unfold Len. intros ->%map_size_empty_inv. destruct answer as [tx|]; [|done]. simpl.
  destruct (Successful tx) as [[]| |], (GetTransactionEvents tx) as [ops| |], (origin_of seq closedAt tx) as [o| |]; try done.
  induction (numbered 0 0 ops) as [|n ns IH]; [done|]. simpl.
  destruct (built _ o n) as [x|] eqn:Hb; [|done]. exfalso. destruct n as [[op i] ev]. unfold built in Hb.
  destruct (negb _); [done|]. by destruct (ce_ContractId ev ≫= strkey_EncodeContract).
Qed.

(** The events of a ledger, whatever the watch list. *)
Lemma Events_prefixes `{S : SDK} `{!SDKChanges} lcm passphrase watch r answers :
  Events lcm passphrase watch = Some r → ReadLedger passphrase lcm = Some answers →
  let es := tx_reference watch (u32 (LedgerSeq lcm)) (CloseTime lcm) <$> answers in
  (∃ ess, Forall2 prefix ess es ∧ rs_Events r = concat ess) ∧
  (rs_SuppressedTxs r = 0 → rs_Events r = concat es).
Proof.
  unfold Events. intros He Ha. cbv zeta. rewrite Ha in He. destruct (Nat.eqb_spec (Len watch) 0) as [Hlen|_].
  - injection He as <-.
    assert (Hnil : concat (tx_reference watch (u32 (LedgerSeq lcm)) (CloseTime lcm) <$> answers) = []).
    { apply concat_nil_Forall, Forall_fmap, Forall_true. intros a. by apply reference_empty. }
    rewrite Hnil. split; [|done]. eexists. split; [|symmetry; exact Hnil]. by apply Forall_Forall2_diag, Forall_true.
  - injection He as <-.
    destruct (answers_events watch (scopeOf passphrase watch) (u32 (LedgerSeq lcm)) (CloseTime lcm)
      (no_result, ∅) answers) as (_ & Hp & Hf). split; [exact Hp|exact Hf].
Qed.

Lemma prefixes_sublist {A} (ess es : list (list A)) :
  Forall2 prefix ess es → concat ess `sublist_of` concat es.
Proof. induction 1 as [|x y ess es Hp _ IH]; simpl; [done|]. apply sublist_app; [destruct Hp as [k ->]; by apply sublist_inserts_r|done]. Qed.

(** *** Where an event comes from *)

Lemma i32_small x : 0 ≤ x < 2147483648 → i32 x = x.
Proof. intros Hx. unfold i32. rewrite Z.mod_small; lia. Qed.

(** Indices do not repeat while they stay within an [int32]. *)
Lemma numbered_op_bounds op i evs n :
  0 ≤ i → i + Z.of_nat (length evs) < 2147483648 → n ∈ numbered_op op i evs →
  i ≤ n.1.2 < i + Z.of_nat (length evs).
Proof.
  revert i. induction evs as [|ev evs IH]; intros i Hi Hl; simpl; [by intros ?%elem_of_nil|].
  simpl in Hl. intros [->|Hn]%elem_of_cons; [simpl; lia|].
  rewrite i32_small in Hn by lia. apply IH in Hn; lia.
Qed.

Lemma numbered_bounds j i ops n :
  0 ≤ i → i + Z.of_nat (length (concat ops)) < 2147483648 → n ∈ numbered j i ops →
  i ≤ n.1.2 < i + Z.of_nat (length (concat ops)).
Proof.
  revert j i. induction ops as [|evs ops IH]; intros j i Hi; simpl; [by intros _ ?%elem_of_nil|].
  rewrite length_app. intros Hl [Hn|Hn]%elem_of_app.
  - apply numbered_op_bounds in Hn; lia.
  - rewrite i32_small in Hn by lia. apply IH in Hn; lia.
Qed.

Lemma numbered_op_index op i evs n1 n2 :
  0 ≤ i → i + Z.of_nat (length evs) < 2147483648 →
  n1 ∈ numbered_op op i evs → n2 ∈ numbered_op op i evs → n1.1.2 = n2.1.2 → n1 = n2.
Proof.
  revert i. induction evs as [|ev evs IH]; intros i Hi; simpl; [by intros _ ?%elem_of_nil|]. intros Hl.
  rewrite i32_small by lia.
  intros [->|H1]%elem_of_cons [->|H2]%elem_of_cons; [done| | |apply (IH (i + 1)); auto with lia];
    [apply numbered_op_bounds in H2|apply numbered_op_bounds in H1]; simpl; lia.
Qed.

Lemma numbered_index j i ops n1 n2 :
  0 ≤ i → i + Z.of_nat (length (concat ops)) < 2147483648 →
  n1 ∈ numbered j i ops → n2 ∈ numbered j i ops → n1.1.2 = n2.1.2 → n1 = n2.
Proof.
  revert j i. induction ops as [|evs ops IH]; intros j i Hi; simpl; [by intros _ ?%elem_of_nil|].
  rewrite length_app. intros Hl. rewrite (i32_small (i + Z.of_nat (length evs))) by lia.
  intros [H1|H1]%elem_of_app [H2|H2]%elem_of_app Heq.
  - apply (numbered_op_index (i32 j) i evs); try done; lia.
  - apply numbered_op_bounds in H1; [|lia..]. apply numbered_bounds in H2; lia.
  - apply numbered_op_bounds in H2; [|lia..]. apply numbered_bounds in H1; lia.
  - apply (IH (j + 1) (i + Z.of_nat (length evs))); try done; lia.
Qed.

(** Where an event of a ledger comes from. *)
Definition comes_from `{S : SDK} `{!SDKChanges} (passphrase : string) (watch : Snapshot) (lcm : LedgerCloseMeta)
    (x : Event) (tx : LedgerTransaction) (n : Z * Z * ContractEvent) : Prop :=
  ∃ answers ops o cid, ReadLedger passphrase lcm = Some answers ∧ Some tx ∈ answers ∧
    GetTransactionEvents tx = SOk ops ∧ origin_of (u32 (LedgerSeq lcm)) (CloseTime lcm) tx = SOk o ∧
    n ∈ numbered 0 0 ops ∧ ce_ContractId n.2 ≫= strkey_EncodeContract = Some cid ∧
    watches watch cid KindEvents = true ∧ buildEvent n.2 cid (at_index o n.1.1 n.1.2) = SOk x.

Lemma Events_come_from `{S : SDK} `{!SDKChanges} lcm passphrase watch r x :
  Events lcm passphrase watch = Some r → x ∈ rs_Events r → ∃ tx n, comes_from passphrase watch lcm x tx n.
Proof.
  intros He Hx. destruct (ReadLedger passphrase lcm) as [answers|] eqn:Ha.
  2:{ unfold Events in He. rewrite Ha in He. destruct (Nat.eqb _ _); [|done]. injection He as <-. by apply elem_of_nil in Hx. }
  destruct (Events_prefixes lcm passphrase watch r answers He Ha) as [(ess & Hp & Hr) _].
  rewrite Hr in Hx.
  pose proof (elem_of_submseteq _ _ _ Hx (sublist_submseteq _ _ (prefixes_sublist _ _ Hp))) as Hin.
  apply list_elem_of_In, in_concat in Hin as (es & Hes%list_elem_of_In & Hxe%list_elem_of_In).
  apply list_elem_of_fmap in Hes as ([tx|] & -> & Htx); [|by apply elem_of_nil in Hxe].
  simpl in Hxe. destruct (Successful tx) as [[]| |]; try (by apply elem_of_nil in Hxe).
  destruct (GetTransactionEvents tx) as [ops| |] eqn:Hops; try (by apply elem_of_nil in Hxe).
  destruct (origin_of _ _ tx) as [o| |] eqn:Ho; try (by apply elem_of_nil in Hxe).
  apply list_elem_of_omap in Hxe as ([[op i] ev] & Hn & Hb). unfold built in Hb.
  destruct (negb (ce_IsContract ev)); [done|].
  apply bind_Some in Hb as (cid & Hcid & Hb). destruct (watches watch cid KindEvents) eqn:Hw; [|done].
  destruct (buildEvent _ _ _) as [y| |] eqn:Hbuild; [|done..]. injection Hb as ->.
  exists tx, (op, i, ev), answers, ops, o, cid. done.
Qed.

(** The columns that identify an event name its transaction and its place. *)
Lemma comes_from_columns `{S : SDK} `{!SDKChanges} passphrase watch lcm x tx n :
  comes_from passphrase watch lcm x tx n →
  ev_TxHash x = TransactionHash tx ∧ ev_EventIndex x = n.1.2 ∧
  ce_ContractId n.2 ≫= strkey_EncodeContract = Some (ev_ContractID x).
Proof.
  intros (answers & ops & o & cid & _ & _ & _ & Ho & _ & Hcid & _ & Hb).
  assert (or_txHash o = TransactionHash tx) as <-.
  { unfold origin_of in Ho. destruct (toid _ _); [|done..]. by injection Ho as <-. }
  unfold buildEvent in Hb. sdk_inv Hb. destruct v0 as [body|]; [|done]. sdk_inv Hb.
  injection Hb as <-. by rewrite Hcid.
Qed.

(** Documented of the network: a transaction hash names one transaction of one
    ledger, and a transaction emits fewer than [2^31] events. *)
Record hashed `{S : SDK} `{!SDKChanges} (passphrase : string) (chain : Z → LedgerCloseMeta) : Prop := {
  ha_unique : ∀ l1 l2 as1 as2 tx1 tx2,
    ReadLedger passphrase (chain l1) = Some as1 → ReadLedger passphrase (chain l2) = Some as2 →
    Some tx1 ∈ as1 → Some tx2 ∈ as2 → TransactionHash tx1 = TransactionHash tx2 → l1 = l2 ∧ tx1 = tx2;
  ha_count : ∀ l answers tx ops, ReadLedger passphrase (chain l) = Some answers → Some tx ∈ answers →
    GetTransactionEvents tx = SOk ops → Z.of_nat (length (concat ops)) < 2147483648 }.

(** Events with the same identifying columns are the same event, whatever was
    watched when they were read. *)
Lemma hashed_identifies `{S : SDK} `{!SDKChanges} passphrase chain l1 l2 w1 w2 r1 r2 x1 x2 :
  hashed passphrase chain →
  Events (chain l1) passphrase w1 = Some r1 → x1 ∈ rs_Events r1 →
  Events (chain l2) passphrase w2 = Some r2 → x2 ∈ rs_Events r2 →
  event_conflict (event_row_of x1) (event_row_of x2) = true → x1 = x2.
Proof.
  intros [Hu Hc] He1 Hx1 He2 Hx2 Hconf. unfold event_conflict in Hconf. cbn in Hconf.
  rewrite !andb_true_iff, !bool_decide_eq_true, Z.eqb_eq in Hconf. destruct Hconf as [[Hcid Hh] Hi].
  destruct (Events_come_from _ _ _ _ _ He1 Hx1) as (tx1 & n1 & Hf1).
  destruct (Events_come_from _ _ _ _ _ He2 Hx2) as (tx2 & n2 & Hf2).
  destruct (comes_from_columns _ _ _ _ _ _ Hf1) as (Ht1 & Hi1 & Hk1).
  destruct (comes_from_columns _ _ _ _ _ _ Hf2) as (Ht2 & Hi2 & Hk2).
  destruct Hf1 as (as1 & ops1 & o1 & c1 & Ha1 & Hin1 & Hops1 & Ho1 & Hn1 & Hc1 & _ & Hb1).
  destruct Hf2 as (as2 & ops2 & o2 & c2 & Ha2 & Hin2 & Hops2 & Ho2 & Hn2 & Hc2 & _ & Hb2).
  destruct (Hu l1 l2 as1 as2 tx1 tx2 Ha1 Ha2 Hin1 Hin2) as [<- <-]; [congruence|].
  assert (ops2 = ops1 ∧ o2 = o1) as [-> ->] by (split; congruence).
  pose proof (Hc l1 as1 tx1 ops1 Ha1 Hin1 Hops1) as Hlen.
  assert (n2 = n1) as -> by (apply (numbered_index 0 0 ops1); (done || lia)).
  congruence.
Qed.

(** ** Properties *)

(** C10.  The derived events are the reference's.  Whatever the answers of the
    reader, the events [Events] returns are among the reference's, in order; and
    when no transaction was counted as suppressed they are exactly the
    reference's: every contract event of every successful transaction that a
    contract watched for events emitted and that encodes, numbered as the chain
    orders them. *)
Theorem Events_reference `{S : SDK} `{!SDKChanges} (lcm : LedgerCloseMeta) (passphrase : string)
    (watch : Snapshot) (r : Result) (answers : list (option LedgerTransaction)) :
  Events lcm passphrase watch = Some r → ReadLedger passphrase lcm = Some answers →
  let reference := concat (tx_reference watch (u32 (LedgerSeq lcm)) (CloseTime lcm) <$> answers) in
  rs_Events r `sublist_of` reference ∧ (rs_SuppressedTxs r = 0 → rs_Events r = reference).
Proof.
  intros He Ha. destruct (Events_prefixes lcm passphrase watch r answers He Ha) as [(ess & Hp & Hr) Hf].
  split; [|exact Hf]. rewrite Hr. by apply prefixes_sublist.
Qed.

(** ** Witness *)

#[local] Existing Instance demo_sdk.
#[local] Existing Instance demo_changes.

Lemma Events_reference_witness :
  ∃ r, Events (S:=demo_sdk) quiet_ledger "pass" demo_watch = Some r ∧ length (rs_Events r) = 1%nat ∧
    rs_Events r = concat (tx_reference (S:=demo_sdk) demo_watch 9 45 <$> quiet_ledger.2).
Proof.
  eexists. split; [vm_compute; reflexivity|]. split; [reflexivity|].
  apply (Events_reference (S:=demo_sdk) quiet_ledger "pass" demo_watch); vm_compute; reflexivity.
Defined.
