(* ===== verification/Provenance.v ===== *)
(** * Where derived records come from

    [Derived] traces the events of a ledger to the contract events they were
    built from.  The same is done here for the other four kinds: each transfer
    and movement comes from one contract event, each state and trustline change
    from one ledger entry change, at a place of a transaction that the record's
    columns name.  On a chain whose transactions are identified by their hash
    and their position, the columns therefore identify the record, whoever was
    watched when it was read. *)

From S2P Require Import Prelude Db Rows Registrations Registry Api Extract Derived.

#[local] Open Scope extract_scope.

(** ** Definitions *)

(** The changes of a transaction with their indices. *)
Fixpoint indexed {A} (i : Z) (l : list A) : list (Z * A) :=
  match l with [] => [] | a :: l => (i, a) :: indexed (i + 1) l end.

Section places.
Context `{S : SDK} `{!SDKChanges}.

(** What is built from the contract event at a place of a transaction. *)
Definition transfer_at (o : origin) (n : Z * Z * ContractEvent) (x : Transfer) : Prop :=
  ∃ cid body t0 ts sym ty, ce_ContractId n.2 ≫= strkey_EncodeContract = Some cid ∧
    GetV0 (ce_Body n.2) = SOk (Some body) ∧ v0_Topics body = t0 :: ts ∧ GetSym t0 = SOk sym ∧
    sym ≫= transferEventNames = Some ty ∧ buildTransfer body ty cid (at_index o n.1.1 n.1.2) = SOk x.

Definition movement_at (o : origin) (n : Z * Z * ContractEvent) (m : Movement) : Prop :=
  ∃ watch t raw, transfer_at o n t ∧ MarshalBase64_event n.2 = SOk raw ∧ m ∈ movementsOf t raw watch.

(** What is built from a ledger entry change. *)
Definition state_at (o : origin) (c : Z * Change) (x : StateChange) : Prop :=
  ∃ entry data cid, sideOf c.2 = Some entry ∧ GetContractData entry = SOk (Some data) ∧
    sa_ContractId (cde_Contract data) ≫= strkey_EncodeContract = Some cid ∧
    buildStateChange c.2 data cid (at_index o 0 (i32 c.1)) = SOk x.

(** The contract of an asset comes from the memo: it is the record's own. *)
Definition trustline_at (o : origin) (c : Z * Change) (x : TrustlineChange) : Prop :=
  ∃ entry tl asset canonical, sideOf c.2 = Some entry ∧ GetTrustLine entry = SOk (Some tl) ∧
    ToAsset (tle_Asset tl) = SOk asset ∧ StringCanonical asset = SOk canonical ∧
    buildTrustlineChange c.2 tl (tl_ContractID x) canonical (at_index o 0 (i32 c.1)) = SOk x.
End places.

Section sources.
Context `{S : SDK} `{!SDKChanges} (seq closedAt : Z) (answers : list (option LedgerTransaction)).

Definition from_event {A} (built : origin → Z * Z * ContractEvent → A → Prop) (x : A) : Prop :=
  ∃ tx ops o n, Some tx ∈ answers ∧ GetTransactionEvents tx = SOk ops ∧ origin_of seq closedAt tx = SOk o ∧
    n ∈ numbered 0 0 ops ∧ built o n x.

Definition from_change {A} (built : origin → Z * Change → A → Prop) (x : A) : Prop :=
  ∃ tx chs o c, Some tx ∈ answers ∧ GetChanges tx = SOk chs ∧ origin_of seq closedAt tx = SOk o ∧
    c ∈ indexed 0 chs ∧ built o c x.

Record sourced (r : Result) : Prop := {
  so_states : ∀ x, x ∈ rs_StateChanges r → from_change state_at x;
  so_transfers : ∀ x, x ∈ rs_Transfers r → from_event transfer_at x;
  so_trustlines : ∀ x, x ∈ rs_TrustlineChanges r → from_change trustline_at x;
  so_movements : ∀ x, x ∈ rs_Movements r → from_event movement_at x }.
End sources.

(** ** Lemmas *)

Section provenance.
Context `{S : SDK} `{!SDKChanges} (watch : Snapshot) (scp : scope) (seq closedAt : Z).
Context (answers : list (option LedgerTransaction)).

Abbreviation src := (sourced seq closedAt answers).

Lemma sourced_app a b : src a → src b → src (res_app a b).
Proof. intros [] []; split; intros x Hx; simpl in Hx; apply elem_of_app in Hx as [?|?]; auto. Qed.

Lemma sourced_nil r : all_records r = all_records no_result → src r.
Proof.
  unfold all_records. destruct r; simpl. intros [= _ -> -> -> ->].
  split; simpl; intros x Hx; by apply elem_of_nil in Hx.
Qed.

Lemma sourced_events es : src (of_events es).
Proof. split; intros x Hx; by apply elem_of_nil in Hx. Qed.

Lemma keeps_src d : src d → keeps src (emit d).
Proof. intros Hd. apply keeps_emit. intros r Hr. by apply sourced_app. Qed.

Lemma keeps_src_or {A} (built : sdk A) e wrap :
  all_records e = all_records no_result → (∀ x, built = SOk x → src (wrap [x])) → keeps src (record_or built e wrap).
Proof.
  intros He Hw. unfold record_or. apply keeps_try_bind; [by apply keeps_src, sourced_nil|].
  intros x Hx. by apply keeps_src, Hw.
Qed.

Section of_tx.
Context (tx : LedgerTransaction) (Htx : Some tx ∈ answers) (o : origin) (Ho : origin_of seq closedAt tx = SOk o).

Lemma src_txTransfer ops n cid : GetTransactionEvents tx = SOk ops → n ∈ numbered 0 0 ops →
  ce_ContractId n.2 ≫= strkey_EncodeContract = Some cid →
  keeps src (txTransfer watch scp n.2 cid (at_index o n.1.1 n.1.2)).
Proof.
  intros Hops Hn Hcid. unfold txTransfer.
  assert (Hlost : keeps src (emit (if watches watch cid KindTransfers
                                   then one_SuppressedTransfer else one_Foreign)))
    by (apply keeps_src, sourced_nil; by destruct (watches watch cid KindTransfers)).
  destruct (_ && _); [apply keeps_ret|].
  apply keeps_call_bind. intros [body|] Hbody; [|apply keeps_ret].
  destruct (v0_Topics body) as [|t0 ts] eqn:Htop; [apply keeps_ret|].
  apply keeps_call_bind. intros sym Hsym. destruct (sym ≫= transferEventNames) as [ty|] eqn:Hty;
    [|apply keeps_ret].
  apply keeps_bind; [destruct (sc_wantMovements scp); [apply keeps_call|apply keeps_ret]|].
  intros want. destruct (negb _ && negb want); [apply keeps_ret|].
  apply keeps_try_bind; [done|]. intros t Ht.
  assert (Hat : transfer_at o n t) by (exists cid, body, t0, ts, sym, ty; done).
  apply keeps_bind.
  - destruct (watches watch cid KindTransfers); [|apply keeps_ret]. apply keeps_src.
    split; simpl; intros x Hx; try (by apply elem_of_nil in Hx).
    apply list_elem_of_singleton in Hx as ->. exists tx, ops, o, n. done.
  - intros _. destruct want; [|apply keeps_ret]. apply keeps_try_bind; [done|].
    intros raw Hraw. apply keeps_src. split; simpl; intros x Hx; try (by apply elem_of_nil in Hx).
    exists tx, ops, o, n. split_and!; try done. by exists watch, t, raw.
Qed.

Lemma src_txEvent ops n : GetTransactionEvents tx = SOk ops → n ∈ numbered 0 0 ops →
  keeps src (txEvent watch scp n.2 (at_index o n.1.1 n.1.2)).
Proof.
  intros Hops Hn. unfold txEvent. destruct (negb _); [apply keeps_ret|].
  destruct (ce_ContractId n.2) as [raw|] eqn:Hraw; [|apply keeps_ret].
  destruct (strkey_EncodeContract raw) as [cid|] eqn:Hcid; [|by apply keeps_src, sourced_nil].
  apply keeps_bind; [|intros _; eapply src_txTransfer; [done..|by rewrite Hraw]].
  destruct (watches watch cid KindEvents); [|apply keeps_ret].
  apply keeps_src_or; [done|]. intros e _. apply sourced_events.
Qed.

Lemma src_operationEvents ops j i rest : GetTransactionEvents tx = SOk ops →
  (∀ n, n ∈ numbered j i rest → n ∈ numbered 0 0 ops) →
  keeps src (operationEvents watch scp o j i rest).
Proof.
  intros Hops. revert j i. induction rest as [|evs rest IH]; intros j i Hin; simpl in *; [apply keeps_ret|].
  apply keeps_bind; [|intros _; apply IH; intros n Hn; apply Hin, elem_of_app; by right].
  assert (Hevs : ∀ n, n ∈ numbered_op (i32 j) i evs → n ∈ numbered 0 0 ops)
    by (intros n Hn; apply Hin, elem_of_app; by left).
  clear IH Hin. revert i Hevs. induction evs as [|ev evs IH]; intros i Hevs; simpl in *; [apply keeps_ret|].
  apply keeps_bind; [|intros _; apply IH; intros n Hn; apply Hevs; by right].
  apply (src_txEvent ops (i32 j, i, ev)); [done|]. apply Hevs. by left.
Qed.

Lemma src_stateChange chs c : GetChanges tx = SOk chs → c ∈ indexed 0 chs →
  keeps src (stateChange watch c.2 (at_index o 0 (i32 c.1))).
Proof.
  intros Hchs Hc. unfold stateChange. destruct (sideOf c.2) as [entry|] eqn:Hside; [|apply keeps_ret].
  apply keeps_call_bind. intros [data|] Hdata; [|apply keeps_ret].
  destruct (sa_ContractId _) as [raw|] eqn:Hraw; [|apply keeps_ret].
  destruct (strkey_EncodeContract raw) as [cid|] eqn:Hcid; [|by apply keeps_src, sourced_nil].
  destruct (watches watch cid KindState); [|apply keeps_ret].
  apply keeps_src_or; [done|]. intros x Hx.
  split; simpl; intros y Hy; try (by apply elem_of_nil in Hy).
  apply list_elem_of_singleton in Hy as ->. exists tx, chs, o, c. split_and!; try done.
  exists entry, data, cid. by rewrite Hraw.
Qed.

Lemma src_trustline p chs c : GetChanges tx = SOk chs → c ∈ indexed 0 chs →
  keeps src (trustline watch p c.2 (at_index o 0 (i32 c.1))).
Proof.
  intros Hchs Hc. unfold trustline. destruct (sideOf c.2) as [entry|] eqn:Hside; [|apply keeps_ret].
  apply keeps_call_bind. intros [tl|] Htl; [|apply keeps_ret].
  destruct (IsPoolShare _); [apply keeps_ret|].
  apply keeps_call_bind. intros asset Hasset. apply keeps_bind; [apply keeps_contractIDFor|].
  intros [cid|]; [|by apply keeps_src, sourced_nil].
  destruct (watches watch cid KindTrustlines); [|apply keeps_ret].
  apply keeps_call_bind. intros canonical Hcan. apply keeps_src_or; [done|]. intros x Hx.
  split; simpl; intros y Hy; try (by apply elem_of_nil in Hy).
  apply list_elem_of_singleton in Hy as ->. exists tx, chs, o, c. split_and!; try done.
  exists entry, tl, asset, canonical. split_and!; try done.
  by destruct (buildTrustlineChange_fields _ _ _ _ _ _ Hx) as (-> & _).
Qed.

Lemma src_ledgerChange chs c : GetChanges tx = SOk chs → c ∈ indexed 0 chs →
  keeps src (ledgerChange watch scp o c.1 c.2).
Proof.
  intros Hchs Hc. unfold ledgerChange. destruct (ch_Type c.2); [by eapply src_stateChange| |apply keeps_ret].
  destruct (sc_assets scp); [by eapply src_trustline|apply keeps_ret].
Qed.

Lemma src_changes chs i rest : GetChanges tx = SOk chs →
  (∀ c, c ∈ indexed i rest → c ∈ indexed 0 chs) → keeps src (x_iter (ledgerChange watch scp o) i rest).
Proof.
  intros Hchs. revert i. induction rest as [|ch rest IH]; intros i Hin; simpl in *; [apply keeps_ret|].
  apply keeps_bind; [|intros _; apply IH; intros c Hc; apply Hin; by right].
  apply (src_ledgerChange chs (i, ch)); [done|]. apply Hin. by left.
Qed.
End of_tx.

Lemma keeps_origin_bind {B} tx (f : origin → X B) :
  (∀ o, origin_of seq closedAt tx = SOk o → keeps src (f o)) → keeps src (x_bind (tx_origin tx seq closedAt) f).
Proof.
  intros Hf m Hm. unfold tx_origin, x_bind, call, origin_of in *. destruct (toid _ _); [|done..].
  by apply Hf.
Qed.

Lemma src_tx_body tx : Some tx ∈ answers → keeps src (tx_body watch scp seq closedAt tx).
Proof.
  intros Htx. unfold tx_body. apply keeps_call_bind. intros ok _.
  destruct (negb ok); [by apply keeps_src, sourced_nil|].
  apply keeps_bind.
  { unfold txEvents. apply keeps_try_bind; [apply keeps_ret|]. intros ops Hops.
    apply keeps_origin_bind. intros o Ho.
    apply keeps_bind; [|intros _; apply keeps_ret]. by eapply (src_operationEvents tx Htx o Ho ops). }
  intros ok1. apply keeps_bind.
  { unfold txLedgerChanges. apply keeps_try_bind; [apply keeps_ret|]. intros chs Hchs.
    apply keeps_origin_bind. intros o Ho.
    apply keeps_bind; [|intros _; apply keeps_ret]. by eapply (src_changes tx Htx o Ho chs). }
  intros ok2. destruct (_ || _); [by apply keeps_src, sourced_nil|apply keeps_ret].
Qed.

Lemma sourced_answers m rest : (∀ a, a ∈ rest → a ∈ answers) → src m.1 →
  src (foldl (readTx watch scp seq closedAt) m rest).1.
Proof.
  revert m. induction rest as [|a rest IH]; intros m Hin Hm; simpl; [done|].
  apply IH; [intros b Hb; apply Hin; by right|].
  destruct a as [tx|]; simpl; [|apply sourced_app; [done|by apply sourced_nil]].
  unfold processTx, recover. fold (tx_body watch scp seq closedAt tx).
  pose proof (src_tx_body tx (Hin _ (list_elem_of_here _ _)) m Hm) as Hk.
  destruct (tx_body watch scp seq closedAt tx m) as [[[]|] m']; simpl in *; [done|].
  apply sourced_app; [done|by apply sourced_nil].
Qed.
End provenance.

(** The records of a ledger have a source among its transactions. *)
Lemma Events_sourced `{S : SDK} `{!SDKChanges} lcm passphrase watch r answers :
  Events lcm passphrase watch = Some r → ReadLedger passphrase lcm = Some answers →
  sourced (u32 (LedgerSeq lcm)) (CloseTime lcm) answers r.
Proof.
  unfold Events. destruct (Nat.eqb _ 0); [intros [= <-] _; by apply sourced_nil|].
  intros He Ha. rewrite Ha in He. injection He as <-. apply sourced_answers; [done|by apply sourced_nil].
Qed.

(** *** Columns name a place *)

Lemma origin_of_fields `{S : SDK} `{!SDKChanges} seq closedAt tx o : origin_of seq closedAt tx = SOk o →
  or_txHash o = TransactionHash tx ∧ toid (i32 seq) (i32 (tx_Index tx)) = SOk (or_prefix o) ∧ or_seq o = seq.
Proof. unfold origin_of. destruct (toid _ _) as [p| |] eqn:Hp; [|done..]. by intros [= <-]. Qed.

Lemma indexed_lookup {A} i (l : list A) k a : (k, a) ∈ indexed i l ↔ i ≤ k ∧ l !! Z.to_nat (k - i) = Some a.
Proof.
  revert i. induction l as [|b l IH]; intros i; simpl.
  - rewrite elem_of_nil, lookup_nil. split; [done|by intros [_ ?]].
  - rewrite elem_of_cons, IH. split.
    + intros [[= -> ->]|[Hi Hl]]; [split; [lia|by rewrite Z.sub_diag]|]. split; [lia|].
      replace (Z.to_nat (k - i)) with (S (Z.to_nat (k - (i + 1)))) by lia. done.
    + intros [Hi Hl]. destruct (decide (k = i)) as [->|Hne].
      * left. rewrite Z.sub_diag in Hl. simpl in Hl. by injection Hl as ->.
      * right. split; [lia|].
        replace (Z.to_nat (k - i)) with (S (Z.to_nat (k - (i + 1)))) in Hl by lia. done.
Qed.

(** Indices do not repeat while they fit an [int32]. *)
Lemma indexed_index {A} (l : list A) c1 c2 : Z.of_nat (length l) < 2147483648 →
  c1 ∈ indexed 0 l → c2 ∈ indexed 0 l → i32 c1.1 = i32 c2.1 → c1 = c2.
Proof.
  destruct c1 as [k1 a1], c2 as [k2 a2]. rewrite !indexed_lookup. simpl.
  intros Hlen [H1 Hl1] [H2 Hl2].
  pose proof (lookup_lt_Some _ _ _ Hl1). pose proof (lookup_lt_Some _ _ _ Hl2).
  rewrite !i32_small by lia. intros ->. rewrite Hl1 in Hl2. by injection Hl2 as ->.
Qed.

Section columns.
Context `{S : SDK} `{!SDKChanges} (o : origin).

Lemma transfer_at_columns n x : transfer_at o n x →
  tr_TxHash x = or_txHash o ∧ tr_EventIndex x = n.1.2 ∧ tr_ID x = record_id (or_prefix o) n.1.2.
Proof.
  intros (cid & body & t0 & ts & sym & ty & _ & _ & Htop & _ & _ & Hb). unfold buildTransfer in Hb.
  rewrite Htop in Hb. sdk_inv Hb. by injection Hb as <-.
Qed.

Lemma transfer_at_unique n x y : transfer_at o n x → transfer_at o n y → x = y.
Proof.
  intros (cid & body & t0 & ts & sym & ty & Hc & Hb & Ht & Hs & Hy & Hx).
  intros (cid' & body' & t0' & ts' & sym' & ty' & Hc' & Hb' & Ht' & Hs' & Hy' & Hx'). congruence.
Qed.

Lemma movement_at_columns n m : movement_at o n m → mv_TransferID m = record_id (or_prefix o) n.1.2.
Proof.
  intros (watch & t & raw & Ht & _ & Hm). destruct (transfer_at_columns n t Ht) as (_ & _ & <-).
  by apply movementsOf_spec in Hm as (_ & _ & _ & _ & _ & -> & _).
Qed.

(** A movement is determined by its transfer and its role. *)
Lemma movementsOf_role t raw w1 w2 m1 m2 :
  m1 ∈ movementsOf t raw w1 → m2 ∈ movementsOf t raw w2 → mv_Role m1 = mv_Role m2 → m1 = m2.
Proof.
  assert (Hin : ∀ w m, m ∈ movementsOf t raw w → m = mkMovement (tr_FromAddress t) (tr_ID t) RoleSender
     (tr_ContractID t) (tr_TransferType t) (tr_ToAddress t) (tr_Amount t) raw (tr_LedgerSequence t) (tr_ClosedAt t) ∨
     m = mkMovement (tr_ToAddress t) (tr_ID t) RoleRecipient
     (tr_ContractID t) (tr_TransferType t) (tr_FromAddress t) (tr_Amount t) raw (tr_LedgerSequence t) (tr_ClosedAt t)).
  { intros w m. unfold movementsOf, attribution. rewrite elem_of_app.
    intros [Hm|Hm]; [left|right]; repeat case_match; try (by apply elem_of_nil in Hm);
      by apply list_elem_of_singleton in Hm. }
  intros [->| ->]%Hin [->| ->]%Hin; done.
Qed.

Lemma movement_at_unique n m1 m2 : movement_at o n m1 → movement_at o n m2 → mv_Role m1 = mv_Role m2 → m1 = m2.
Proof.
  intros (w1 & t1 & raw1 & Ht1 & Hr1 & Hm1) (w2 & t2 & raw2 & Ht2 & Hr2 & Hm2).
  rewrite (transfer_at_unique n t2 t1 Ht2 Ht1) in Hm2. rewrite Hr1 in Hr2. injection Hr2 as <-.
  by eapply movementsOf_role.
Qed.

Lemma state_at_columns c x : state_at o c x → sc_TxHash x = or_txHash o ∧ sc_ChangeIndex x = i32 c.1.
Proof.
  intros (entry & data & cid & _ & _ & _ & Hb). unfold buildStateChange in Hb. sdk_inv Hb. by injection Hb as <-.
Qed.

Lemma state_at_unique c x y : state_at o c x → state_at o c y → x = y.
Proof.
  intros (entry & data & cid & He & Hd & Hc & Hx) (entry' & data' & cid' & He' & Hd' & Hc' & Hx'). congruence.
Qed.

Lemma trustline_at_columns c x : trustline_at o c x → tl_TxHash x = or_txHash o ∧ tl_ChangeIndex x = i32 c.1.
Proof.
  intros (entry & tl & asset & canonical & _ & _ & _ & _ & Hb). unfold buildTrustlineChange in Hb. sdk_inv Hb.
  destruct v2, v1; try done; by injection Hb as <-.
Qed.

Lemma trustline_at_unique c x y : trustline_at o c x → trustline_at o c y → tl_ContractID x = tl_ContractID y → x = y.
Proof.
  intros (entry & tl & asset & can & He & Ht & Ha & Hc & Hx) (entry' & tl' & asset' & can' & He' & Ht' & Ha' & Hc' & Hx') Heq.
  rewrite Heq in Hx. congruence.
Qed.
End columns.

(** *** Identification *)

(** Documented of the network, beside [hashed]: a transaction has fewer than
    [2^31] changes; the [toid] of a transaction is a non-negative [int64] that
    names it; flags are a [uint32]. *)
Record placed `{S : SDK} `{!SDKChanges} (passphrase : string) (chain : Z → LedgerCloseMeta) : Prop := {
  pl_hashed : hashed passphrase chain;
  pl_changes : ∀ l answers tx chs, ReadLedger passphrase (chain l) = Some answers → Some tx ∈ answers →
    GetChanges tx = SOk chs → Z.of_nat (length chs) < 2147483648;
  pl_range : ∀ l answers tx p, ReadLedger passphrase (chain l) = Some answers → Some tx ∈ answers →
    toid (i32 (u32 (LedgerSeq (chain l)))) (i32 (tx_Index tx)) = SOk p → 0 ≤ p < 9223372036854775808;
  pl_position : ∀ l1 l2 as1 as2 tx1 tx2 p,
    ReadLedger passphrase (chain l1) = Some as1 → ReadLedger passphrase (chain l2) = Some as2 →
    Some tx1 ∈ as1 → Some tx2 ∈ as2 →
    toid (i32 (u32 (LedgerSeq (chain l1)))) (i32 (tx_Index tx1)) = SOk p →
    toid (i32 (u32 (LedgerSeq (chain l2)))) (i32 (tx_Index tx2)) = SOk p → l1 = l2 ∧ tx1 = tx2;
  pl_flags : ∀ l answers tx chs c entry tl, ReadLedger passphrase (chain l) = Some answers → Some tx ∈ answers →
    GetChanges tx = SOk chs → c ∈ chs → ch_Pre c = Some entry ∨ ch_Post c = Some entry →
    GetTrustLine entry = SOk (Some tl) → is_u32 (tle_Flags tl) }.

Section identified.
Context `{S : SDK} `{!SDKChanges} (passphrase : string) (chain : Z → LedgerCloseMeta) (Hpl : placed passphrase chain).

Abbreviation answers_of l := (ReadLedger passphrase (chain l)).
Abbreviation sources l := (from_event (u32 (LedgerSeq (chain l))) (CloseTime (chain l))).
Abbreviation change_sources l := (from_change (u32 (LedgerSeq (chain l))) (CloseTime (chain l))).

(** Prefixes and event indices stay within an [int64] and an [int32]. *)
Definition in_range (o : origin) (n : Z * Z * ContractEvent) : Prop :=
  0 ≤ or_prefix o < 9223372036854775808 ∧ 0 ≤ n.1.2 < 2147483648.

Lemma event_range l answers tx ops o n : answers_of l = Some answers → Some tx ∈ answers →
  GetTransactionEvents tx = SOk ops → origin_of (u32 (LedgerSeq (chain l))) (CloseTime (chain l)) tx = SOk o →
  n ∈ numbered 0 0 ops → in_range o n.
Proof.
  intros Ha Hin Hops Ho Hn. split.
  - destruct (origin_of_fields _ _ _ _ Ho) as (_ & Hp & _). by eapply (pl_range _ _ Hpl).
  - pose proof (ha_count _ _ (pl_hashed _ _ Hpl) l answers tx ops Ha Hin Hops) as Hlen.
    apply numbered_bounds in Hn; lia.
Qed.

(** Records from contract events of transactions with one hash, or one
    position, are of one transaction. *)
Lemma one_event {A} (built : origin → Z * Z * ContractEvent → A → Prop) l1 l2 as1 as2 x1 x2 :
  answers_of l1 = Some as1 → answers_of l2 = Some as2 →
  sources l1 as1 built x1 → sources l2 as2 built x2 →
  (∀ o1 o2 n1 n2, in_range o1 n1 → in_range o2 n2 → built o1 n1 x1 → built o2 n2 x2 → n1.1.2 = n2.1.2 ∧
     (or_txHash o1 = or_txHash o2 ∨ or_prefix o1 = or_prefix o2)) →
  ∃ o n, built o n x1 ∧ built o n x2.
Proof.
  intros Ha1 Ha2 (tx1 & ops1 & o1 & n1 & Hin1 & Hops1 & Ho1 & Hn1 & Hb1)
    (tx2 & ops2 & o2 & n2 & Hin2 & Hops2 & Ho2 & Hn2 & Hb2) Hsame.
  destruct (Hsame o1 o2 n1 n2) as [Hi Hwhere]; [by apply (event_range l1 as1 tx1 ops1)|by apply (event_range l2 as2 tx2 ops2)|done|done|].
  destruct (origin_of_fields _ _ _ _ Ho1) as (Hh1 & Hp1 & _), (origin_of_fields _ _ _ _ Ho2) as (Hh2 & Hp2 & _).
  assert (l1 = l2 ∧ tx1 = tx2) as [<- <-].
  { destruct Hwhere as [Hh|Hp].
    - eapply (ha_unique _ _ (pl_hashed _ _ Hpl)); try done. congruence.
    - rewrite <- Hp in Hp2. by eapply (pl_position _ _ Hpl). }
  assert (ops2 = ops1 ∧ o2 = o1) as [-> ->] by (split; congruence).
  pose proof (ha_count _ _ (pl_hashed _ _ Hpl) l1 as1 tx1 ops1 Ha1 Hin1 Hops1) as Hlen.
  assert (n2 = n1) as -> by (apply (numbered_index 0 0 ops1); (done || lia)).
  by exists o1, n1.
Qed.

Lemma one_change {A} (built : origin → Z * Change → A → Prop) l1 l2 as1 as2 x1 x2 :
  answers_of l1 = Some as1 → answers_of l2 = Some as2 →
  change_sources l1 as1 built x1 → change_sources l2 as2 built x2 →
  (∀ o1 o2 c1 c2, built o1 c1 x1 → built o2 c2 x2 → i32 c1.1 = i32 c2.1 ∧ or_txHash o1 = or_txHash o2) →
  ∃ o c, built o c x1 ∧ built o c x2.
Proof.
  intros Ha1 Ha2 (tx1 & chs1 & o1 & c1 & Hin1 & Hchs1 & Ho1 & Hc1 & Hb1)
    (tx2 & chs2 & o2 & c2 & Hin2 & Hchs2 & Ho2 & Hc2 & Hb2) Hsame.
  destruct (Hsame _ _ _ _ Hb1 Hb2) as [Hi Hh].
  destruct (origin_of_fields _ _ _ _ Ho1) as (Hh1 & _), (origin_of_fields _ _ _ _ Ho2) as (Hh2 & _).
  destruct (ha_unique _ _ (pl_hashed _ _ Hpl) l1 l2 as1 as2 tx1 tx2 Ha1 Ha2 Hin1 Hin2) as [<- <-]; [congruence|].
  assert (chs2 = chs1 ∧ o2 = o1) as [-> ->] by (split; congruence).
  assert (c2 = c1) as -> by (eapply indexed_index; [by eapply (pl_changes _ _ Hpl)|done..]).
  by exists o1, c1.
Qed.

(** Records of one kind are identified by the columns of its constraint, or of
    its primary key. *)
Lemma same_transfer l1 l2 as1 as2 x1 x2 : answers_of l1 = Some as1 → answers_of l2 = Some as2 →
  sources l1 as1 transfer_at x1 → sources l2 as2 transfer_at x2 →
  transfer_conflict (transfer_row_of x1) (transfer_row_of x2) = true → x1 = x2.
Proof.
  intros Ha1 Ha2 H1 H2 Hc. unfold transfer_conflict in Hc. cbn in Hc.
  rewrite !andb_true_iff, !bool_decide_eq_true, Z.eqb_eq in Hc. destruct Hc as [[_ Hh] Hi].
  destruct (one_event transfer_at l1 l2 as1 as2 x1 x2 Ha1 Ha2 H1 H2) as (o & n & Hb1 & Hb2).
  - intros o1 o2 n1 n2 _ _ (? & ? & _)%transfer_at_columns (? & ? & _)%transfer_at_columns. split; [congruence|left; congruence].
  - by eapply transfer_at_unique.
Qed.

Lemma same_state l1 l2 as1 as2 x1 x2 : answers_of l1 = Some as1 → answers_of l2 = Some as2 →
  change_sources l1 as1 state_at x1 → change_sources l2 as2 state_at x2 →
  state_change_conflict (state_change_row_of x1) (state_change_row_of x2) = true → x1 = x2.
Proof.
  intros Ha1 Ha2 H1 H2 Hc. unfold state_change_conflict in Hc. cbn in Hc.
  rewrite !andb_true_iff, !bool_decide_eq_true, Z.eqb_eq in Hc. destruct Hc as [[_ Hh] Hi].
  destruct (one_change state_at l1 l2 as1 as2 x1 x2 Ha1 Ha2 H1 H2) as (o & c & Hb1 & Hb2).
  - intros o1 o2 c1 c2 [??]%state_at_columns [??]%state_at_columns. split; congruence.
  - by eapply state_at_unique.
Qed.

Lemma same_trustline l1 l2 as1 as2 x1 x2 : answers_of l1 = Some as1 → answers_of l2 = Some as2 →
  change_sources l1 as1 trustline_at x1 → change_sources l2 as2 trustline_at x2 →
  trustline_change_conflict (trustline_change_row_of x1) (trustline_change_row_of x2) = true → x1 = x2.
Proof.
  intros Ha1 Ha2 H1 H2 Hc. unfold trustline_change_conflict in Hc. cbn in Hc.
  rewrite !andb_true_iff, !bool_decide_eq_true, Z.eqb_eq in Hc. destruct Hc as [[Hcid Hh] Hi].
  destruct (one_change trustline_at l1 l2 as1 as2 x1 x2 Ha1 Ha2 H1 H2) as (o & c & Hb1 & Hb2).
  - intros o1 o2 c1 c2 [??]%trustline_at_columns [??]%trustline_at_columns. split; congruence.
  - by eapply trustline_at_unique.
Qed.

Lemma same_movement l1 l2 as1 as2 x1 x2 : answers_of l1 = Some as1 → answers_of l2 = Some as2 →
  sources l1 as1 movement_at x1 → sources l2 as2 movement_at x2 →
  mv_TransferID x1 = mv_TransferID x2 → mv_Role x1 = mv_Role x2 → x1 = x2.
Proof.
  intros Ha1 Ha2 H1 H2 Hid Hrole.
  destruct (one_event movement_at l1 l2 as1 as2 x1 x2 Ha1 Ha2 H1 H2) as (o & n & Hb1 & Hb2).
  - intros o1 o2 n1 n2 [Hp1 Hn1] [Hp2 Hn2] Hc1%movement_at_columns Hc2%movement_at_columns.
    rewrite Hc1, Hc2 in Hid. apply record_id_inj in Hid as [-> ->]; [by auto|lia..].
  - by eapply movement_at_unique.
Qed.
End identified.
