(* ===== verification/Coverage.v ===== *)
(** * The declared coverage is true of the chain

    Every step of the system keeps [truthful], and so a page of events declared
    COMPLETE holds every event of the chain that the query asks for. *)

From S2P Require Import Prelude HealPlan Db Gaps Rows Registrations Commit Registry Query Cursor Api Extract Loop Workers System Derived.

(** ** Definitions *)

(** *** What a query asks for *)

(** The ledger is in the range; a zero end leaves it open. *)
Definition within (from to ledger : Z) : Prop := from ≤ ledger ∧ (0 < to → ledger ≤ to).

(** An empty filter wants anything. *)
Definition wants (want have : string) : Prop := want = "" ∨ have = want.

Definition resumes `{Collation} (after id : string) : Prop := after = "" ∨ text_ltb after id = true.

Definition asks_event `{Collation} (q : EventQuery) (x : Event) : Prop :=
  ev_ContractID x = eq_ContractID q ∧ within (eq_FromLedger q) (eq_ToLedger q) (ev_LedgerSequence x) ∧
  (∀ i t, (i < 4)%nat → eq_Topics q !! i = Some (Some t) → ev_Topics x !! i = Some t) ∧
  resumes (eq_AfterID q) (ev_ID x).

(** A page is the chain's: below the cursor every ledger of its range was read
    for the kind, every record of that reading that the query asks for is listed,
    and every listed record is one that a ledger of the chain derives and the
    query asks for. *)
Definition page_of_the_chain `{S : SDK} `{!SDKChanges} (net passphrase : string) (chain : Z → LedgerCloseMeta)
    (contractID kind : string) (from to : Z) {A B} (part : Result → list A) (ledger : A → Z)
    (asked : A → Prop) (record : A → B) (d : db) (listed : list B) : Prop :=
  (∀ c l, db_cursor d !! net = Some c → from < cur_Sequence c → from ≤ l ≤ to →
     ∃ r, read_for passphrase chain contractID kind l r ∧ ∀ x, x ∈ part r → asked x → record x ∈ listed) ∧
  ∀ e, e ∈ listed → ∃ l x, chain_record passphrase chain part l x ∧ ledger x = u32 (LedgerSeq (chain l)) ∧
    asked x ∧ e = record x.

(** What the loop follows: the cursor and the hash ring. *)
Definition followed (d : db) : gmap string Cursor * gmap Z hash_row := (db_cursor d, db_ledger_hashes d).

(** These, and the records. *)
Definition untouched (d : db) := (followed d, get_tables d).

(** *** Any commit at all *)
Section commits.
Context `{S : SDK} `{!SDKChanges} (net passphrase : string) (chain : Z → LedgerCloseMeta).

(** A committed transaction of any component, whatever state it finds and in
    whatever order: of the records it carries, only that they were derived from
    ledgers of the chain. *)
Inductive any_commit (d d' : db) : Prop :=
  | AnyLedger watch rec r now :
      Events (chain (lr_Sequence rec)) passphrase watch = Some r →
      run now (CommitLedger net rec (all_records r)) d = Ok (tt, d') → any_commit d d'
  | AnyChunk nxt share now :
      from_chain passphrase chain share →
      run now (CommitBackfillChunk net nxt share) d = Ok (tt, d') → any_commit d d'
  | AnyHeal gap newNextTo resolved goNow records now :
      from_chain passphrase chain records →
      run now (CommitHealChunk net gap newNextTo resolved goNow records) d = Ok (tt, d') → any_commit d d'
  | AnyGap from to reason now : run now (RecordGap net from to reason) d = Ok (tt, d') → any_commit d d'
  | AnyPlan replay padding res now : run now (PlanHeal net replay padding) d = Ok (res, d') → any_commit d d'
  | AnyWalk cid targetFrom nextTo kinds now :
      run now (EnsureBackfill net cid targetFrom nextTo kinds) d = Ok (tt, d') → any_commit d d'
  | AnyContract c saved now : run now (UpsertContract c) d = Ok (saved, d') → any_commit d d'
  | AnyDelete cid existed now : run now (DeleteContract net cid) d = Ok (existed, d') → any_commit d d'.
End commits.

(** ** Lemmas *)

(** *** Nothing but the live loop writes the cursor and the ring

    The planner and the registrations leave the records alone, too. *)

#[export] Instance insertRecords_framed net r : Framed followed (insertRecords net r).
Proof.
  intros now d [] d'. rewrite run_insertRecords. destruct (add_records _ _ _); [|done].
  by intros [= <-].
Qed.

#[export] Instance CommitBackfillChunk_framed net b r : Framed followed (CommitBackfillChunk net b r).
Proof. unfold CommitBackfillChunk, update_backfill. apply _. Qed.

#[export] Instance CommitHealChunk_framed net gap n res now r : Framed followed (CommitHealChunk net gap n res now r).
Proof. unfold CommitHealChunk. apply _. Qed.

#[export] Instance RecordGap_framed net from to reason : Framed untouched (RecordGap net from to reason).
Proof. unfold RecordGap. apply _. Qed.

#[export] Instance planGap_framed net plan g : Framed untouched (planGap net plan g).
Proof. unfold planGap, splitGap. apply _. Qed.

#[export] Instance PlanHeal_framed net replay padding : Framed untouched (PlanHeal net replay padding).
Proof. unfold PlanHeal, lockOpenGaps, countPlan. apply _. Qed.

#[export] Instance scan_u32_framed x : Framed untouched (scan_u32 x).
Proof. unfold scan_u32. apply _. Qed.

#[export] Instance EnsureBackfill_framed net cid from to kinds : Framed untouched (EnsureBackfill net cid from to kinds).
Proof.
  unfold EnsureBackfill, reopenDeferrals, ReopenGaps, update_backfill. apply framed_bind; [apply _|].
  intros [r|]; [apply _|]. apply framed_bind; [apply _|]. intros _. apply framed_checked.
  intros now d d'. case_match; [done|]. intros [= <-]. by destruct d.
Qed.

#[export] Instance UpsertContract_framed c : Framed untouched (UpsertContract c).
Proof. intros now d a d' (_ & _ & ->)%UpsertContract_Ok. by destruct d. Qed.

#[export] Instance DeleteContract_framed net cid : Framed untouched (DeleteContract net cid).
Proof. unfold DeleteContract. apply _. Qed.

#[export] Instance untouched_followed {A} (t : Tx A) : Framed untouched t → Framed followed t.
Proof. intros Ht now d a d' Hrun. exact (f_equal fst (Ht now d a d' Hrun)). Qed.

Lemma untouched_tables {A} (t : Tx A) now d a d' : Framed untouched t → run now t d = Ok (a, d') → get_tables d' = get_tables d.
Proof. intros Ht Hrun. exact (f_equal snd (Ht now d a d' Hrun)). Qed.

Lemma matches_wants w h : matches w (Some h) = true ↔ wants w h.
Proof. unfold matches, wants. case_bool_decide; [by split; [left|]|]. rewrite bool_decide_eq_true. split; [intros [= ->]; by right|by intros [?| ->]]. Qed.

Lemma matches_nullable w h : matches w (nullable h) = true ↔ wants w h.
Proof.
  unfold matches, wants, nullable. case_bool_decide; [by split; [left|]|]. rewrite bool_decide_eq_true.
  case_bool_decide; subst; split; [done|by intros [?| <-]|intros [= ->]; by right|by intros [?| ->]].
Qed.

Lemma upto_within from to l : from ≤ l ∧ upto to l = true ↔ within from to l.
Proof.
  unfold within, upto. destruct (Z.ltb_spec 0 to); [|split; [intros [? _]; split; [done|lia]|by intros [? _]]].
  rewrite Z.leb_le. split; intros [? Hl]; (split; [done|]); [done|by apply Hl].
Qed.

Lemma after_resumes `{Collation} after id : after_text after id = true ↔ resumes after id.
Proof. unfold after_text, resumes. case_bool_decide; [by split; [left|]|]. split; [by right|by intros [?|]]. Qed.

Lemma asks_event_spec `{Collation} net q x :
  event_matches net q (net, ev_ID x) (event_row_of x) && after_text (eq_AfterID q) (ev_ID x) = true ↔ asks_event q x.
Proof.
  assert (Htopics : topic_ok q 0 (ev_Topics x !! 0%nat) = true ∧ topic_ok q 1 (ev_Topics x !! 1%nat) = true ∧
    topic_ok q 2 (ev_Topics x !! 2%nat) = true ∧ topic_ok q 3 (ev_Topics x !! 3%nat) = true ↔
    ∀ i t, (i < 4)%nat → eq_Topics q !! i = Some (Some t) → ev_Topics x !! i = Some t).
  { assert (Hone : ∀ i, topic_ok q i (ev_Topics x !! i) = true ↔ ∀ t, eq_Topics q !! i = Some (Some t) → ev_Topics x !! i = Some t).
    { intros i. unfold topic_ok. destruct (eq_Topics q !! i) as [[t|]|]; [|done..]. rewrite bool_decide_eq_true.
      split; [by intros -> ? [= <-]|auto]. }
    rewrite !Hone. split; [|intros Hall; split_and!; intros t; apply Hall; lia].
    intros (? & ? & ? & ?) [|[|[|[|i]]]] t Hi; auto; lia. }
  unfold event_matches, asks_event. cbn. rewrite !andb_true_iff, !bool_decide_eq_true, Z.leb_le, after_resumes, <- Htopics, <- upto_within.
  tauto.
Qed.

Section coverage.
Context `{S : SDK} `{!SDKChanges} (net passphrase : string) (chain : Z → LedgerCloseMeta).

Abbreviation read_for := (read_for passphrase chain).
Abbreviation derived_kind := (derived_kind net passphrase chain).
Abbreviation chain_event := (chain_record passphrase chain rs_Events).
Abbreviation from_chain := (from_chain passphrase chain).
Abbreviation truthful := (truthful net passphrase chain).
Abbreviation knows := (knows net passphrase chain).
Abbreviation live_ready := (live_ready net).
Abbreviation walk_ready := (walk_ready net passphrase chain).
Abbreviation heal_ready := (heal_ready net passphrase chain).
Abbreviation worker_step := (worker_step net passphrase chain).
Abbreviation aside_step := (aside_step net passphrase chain).
Abbreviation sys_step := (sys_step net passphrase chain).

(** A row of the events table was there, or is one of those inserted. *)
Lemma insert_rows_source {A V} (conflict : V → V → bool) n (id : A → string) row xs m m' k v :
  insert_rows conflict n id row xs m = Ok m' → m' !! k = Some v →
  m !! k = Some v ∨ ∃ x, x ∈ xs ∧ k = (n, id x) ∧ v = row x.
Proof.
  revert m. induction xs as [|x xs IH]; intros m; [intros [= ->]; by left|].
  rewrite insert_rows_cons. unfold insert_once. destruct (taken _ _ _ _).
  { intros Hi Hv. destruct (IH m Hi Hv) as [?|(y & ? & ?)]; [by left|right]. exists y. split; [by right|done]. }
  destruct (m !! (n, id x)) eqn:Hk; [done|]. intros Hi Hv.
  destruct (IH _ Hi Hv) as [[[<- <-]|[_ ?]]%lookup_insert_Some|(y & ? & ?)]; [right|by left|right].
  - exists x. split; [by left|done].
  - exists y. split; [by right|done].
Qed.

Lemma insert_rows_from {A V} (conflict : V → V → bool) (part : Result → list A) (id : A → string) row xs m m' :
  rows_from net passphrase chain part id row m → all_from passphrase chain part xs →
  insert_rows conflict net id row xs m = Ok m' → rows_from net passphrase chain part id row m'.
Proof.
  intros Hm Hxs Hi k v Hv. destruct (insert_rows_source _ _ _ _ _ _ _ _ _ Hi Hv) as [?|(x & Hx & [= ->] & ->)]; [by apply Hm|].
  destruct (Hxs x Hx) as [l Hl]. by exists l, x.
Qed.

Lemma add_movements_from ms m : movements_from net passphrase chain m → all_from passphrase chain rs_Movements ms →
  movements_from net passphrase chain (add_movements net ms m).
Proof.
  unfold add_movements. revert m. induction ms as [|x ms IH]; intros m Hm Hms; simpl; [done|].
  apply IH; [|intros y Hy; apply Hms; by right]. intros k v. unfold upsert.
  intros [[<- <-]|[_ Hv]]%lookup_insert_Some Hk; [|by apply Hm].
  destruct (m !! movement_key net x) as [old|] eqn:Hold; simpl; [by apply Hm|].
  destruct (Hms x) as [l Hl]; [by left|]. by exists l, x.
Qed.

(** Records of the chain keep the histories sound. *)
Lemma sound_add r t t' : sound_rows net passphrase chain t → from_chain r → add_records net r t = Ok t' →
  sound_rows net passphrase chain t'.
Proof.
  intros (He & Hs & Ht & Hl & Hm) (Hre & Hrs & Hrt & Hrl & Hrm). unfold add_records.
  destruct (insert_rows event_conflict _ _ _ _ _) as [ev|] eqn:Hev; [|done].
  destruct (insert_rows state_change_conflict _ _ _ _ _) as [sc|] eqn:Hsc; [|done].
  destruct (insert_transfers _ _ _) as [tr|] eqn:Htr; [|done]. apply insert_transfers_Ok in Htr as [_ Htr].
  destruct (insert_rows trustline_change_conflict _ _ _ _ _) as [tl|] eqn:Htl; [|done]. intros [= <-].
  split_and!; cbn; [by eapply insert_rows_from..|by apply add_movements_from].
Qed.

(** *** One lemma per step *)

(** A step that derives nothing: the walks may only come to vouch for less, and
    no promise below a clamp is forgotten. *)
Lemma truthful_walks d d' :
  truthful d → gaps_wf (db_gaps d') → backfill_wf d' →
  db_cursor d' = db_cursor d → get_tables d' = get_tables d →
  (∀ l, owed (db_gaps d) net l → owed (db_gaps d') net l) →
  (∀ cid b' c kind l, db_backfill d' !! (net, cid) = Some b' → db_cursor d !! net = Some c →
     vouches b' kind l → l ≤ cur_Sequence c →
     (∃ b, db_backfill d !! (net, cid) = Some b ∧ vouches b kind l) ∨ derived_kind cid kind l (get_tables d)) →
  (∀ cid b' wall', db_backfill d' !! (net, cid) = Some b' → b_clamped_at b' = Some wall' →
     ∃ b wall, db_backfill d !! (net, cid) = Some b ∧ b_clamped_at b = Some wall ∧
       b_target_from b' = b_target_from b ∧ b_next_to b' = b_next_to b ∧
       (∀ kind, kind ∈ b_covered_kinds b' → kind ∈ b_covered_kinds b) ∧
       ∀ l, owed (db_gaps d) net l → l < wall → l < wall') →
  truthful d'.
Proof.
  intros [Hg Hw Hcr Hc Hcl Hs] Hg' Hw' Hcu Ht Ho Hv Hclamp. split; [done|done|by rewrite Hcu| | |].
  - intros cid b' c kind l Hb' Hcx Hk [??]. rewrite Hcu in Hcx. rewrite Ht.
    destruct (Hv cid b' c kind l Hb' Hcx) as [(b & Hb & ? & ?)|?]; [by split|done| |done]. by eapply (Hc cid b c).
  - intros cid b' wall' kind l Hb' Hw2 Hk Hl. rewrite Ht.
    destruct (Hclamp cid b' wall' Hb' Hw2) as (b & wall & Hb & Hwall & Htg & Hnx & Hkinds & Hlt).
    rewrite Htg, Hnx in Hl.
    destruct (Hcl cid b wall kind l Hb Hwall (Hkinds _ Hk) Hl) as [?|[??]]; auto.
  - by rewrite Ht.
Qed.

(** A step that at most forgets walks. *)
Lemma truthful_same d d' :
  truthful d → gaps_wf (db_gaps d') → (∀ l, owed (db_gaps d) net l → owed (db_gaps d') net l) →
  db_backfill d' ⊆ db_backfill d → db_cursor d' = db_cursor d → get_tables d' = get_tables d →
  truthful d'.
Proof.
  intros Htr Hg Ho Hsub Hcu Ht. apply (truthful_walks d); try done.
  - intros k b Hb. by apply (tr_walks Htr k b), (lookup_weaken _ _ _ _ Hb).
  - intros cid b' c kind l Hb _ Hv _. left. exists b'. split; [by eapply lookup_weaken|done].
  - intros cid b' wall Hb Hw. exists b', wall. split_and!; try done. by eapply lookup_weaken.
Qed.

Lemma live_keeps snap rec r now d d' :
  truthful d → Events (chain (lr_Sequence rec)) passphrase snap = Some r → is_u32 (lr_Sequence rec) →
  live_ready (lr_Sequence rec) d → knows snap d (lr_Sequence rec) →
  run now (CommitLedger net rec (all_records r)) d = Ok (tt, d') → truthful d'.
Proof.
  intros [Hg Hw Hcu Hc Hcl Hs] Hev Hu Hready Hknows Hrun. rewrite run_CommitLedger in Hrun.
  destruct (add_records net (all_records r) (get_tables d)) as [t|] eqn:Ha; [|done]. injection Hrun as <-.
  set (d' := ledger_done net rec (put_tables t d)).
  assert (Ht : get_tables d' = t) by (unfold d'; by rewrite get_tables_ledger_done, get_put_tables).
  assert (Hgaps : db_gaps d' = db_gaps d) by (by destruct d).
  assert (Hback : db_backfill d' = db_backfill d) by (by destruct d).
  assert (Hcur : db_cursor d' !! net = Some (cursor_row rec (db_cursor d !! net))).
  { destruct d. cbn. unfold upsert. apply lookup_insert_eq. }
  assert (Hk : keeps_stored net (get_tables d) t) by (by eapply add_records_keeps).
  clearbody d'. split.
  - by rewrite Hgaps.
  - intros k b. rewrite Hback. apply Hw.
  - intros c. rewrite Hcur. intros [= <-]. unfold cursor_row. destruct (_ !! _) as [c0|]; [|done].
    case_match; [done|by apply Hcu].
  - intros cid b c kind l Hb Hcr Hkind Hl. rewrite Hback in Hb. rewrite Hcur in Hcr. rewrite Ht.
    destruct (decide (l = lr_Sequence rec)) as [->|Hne].
    + destruct (Hknows cid b kind Hb Hkind) as [Hw2|?]; [lia| |by eapply derived_kind_keeps].
      eapply (derived_from (r := r)); [by exists snap|apply sub_records_trans with (2 := records_of_sub cid r), of_kind_sub|done].
    + injection Hcr as <-. unfold live_ready in Hready. destruct (db_cursor d !! net) as [c0|] eqn:Hc0.
      * eapply derived_kind_keeps; [exact Hk|]. apply (Hc cid b c0 kind l Hb eq_refl Hkind).
        cbn in Hl. destruct (Z.ltb_spec (cur_Sequence c0) (lr_Sequence rec)); cbn in Hl; lia.
      * specialize (Hready cid b Hb). cbn in Hl. lia.
  - intros cid b wall kind l Hb H1 H2 H3. rewrite Hback in Hb. rewrite Hgaps, Ht.
    destruct (Hcl cid b wall kind l Hb H1 H2 H3); [left; by eapply derived_kind_keeps|by right].
  - rewrite Ht. apply (sound_add _ (get_tables d) t Hs (reading_from_chain _ _ _ Hev) Ha).
Qed.

Lemma walk_keeps nxt share b now d d' :
  truthful d → db_backfill d !! (net, bf_ContractID nxt) = Some b → walk_ready (b_covered_kinds b) nxt share b d →
  run now (CommitBackfillChunk net nxt share) d = Ok (tt, d') → truthful d'.
Proof.
  intros [Hg Hw Hcu Hc Hcl Hs] Hb (Hfrom & Hn & Hread & Hwall) Hrun. rewrite run_CommitBackfillChunk, Hb in Hrun.
  destruct (add_records net share (get_tables d)) as [t|] eqn:Ha; [|done]. injection Hrun as <-.
  set (b' := mkBackfillRow _ _ _ _ _ _).
  set (d' := put_tables t (set_backfill <[(net, bf_ContractID nxt) := b']> d)).
  assert (Ht : get_tables d' = t) by apply get_put_tables.
  assert (Hgaps : db_gaps d' = db_gaps d) by (by destruct d).
  assert (Hback : db_backfill d' = <[(net, bf_ContractID nxt) := b']> (db_backfill d)) by (by destruct d).
  assert (Hcur : db_cursor d' = db_cursor d) by (by destruct d).
  assert (Hk : keeps_stored net (get_tables d) t) by (by eapply add_records_keeps).
  clearbody d'. split.
  - by rewrite Hgaps.
  - intros k x. rewrite Hback. intros [[<- <-]|[_ ?]]%lookup_insert_Some; [|by eapply Hw].
    split; [apply (Hw _ _ Hb)|done].
  - by rewrite Hcur.
  - intros cid x c kind l. rewrite Hback, Hcur, Ht.
    intros [[[= <-] <-]|[_ Hx]]%lookup_insert_Some Hcr Hkind Hl;
      [|by eapply derived_kind_keeps; [exact Hk|eapply Hc]].
    destruct (Z.le_gt_cases l (b_next_to b)) as [Hle|Hgt].
    + destruct (Hread kind l Hkind) as (r & Hr & Hsub); [cbn in Hl; lia|]. by eapply derived_from.
    + eapply derived_kind_keeps; [exact Hk|]. eapply (Hc _ b c); try done. lia.
  - intros cid x wall kind l. rewrite Hback, Hgaps, Ht.
    intros [[[= <-] <-]|[_ Hx]]%lookup_insert_Some Hcw Hkind Hl.
    + cbn in Hcw, Hl. rewrite Hcw in Hwall. right. by apply Hwall.
    + destruct (Hcl cid x wall kind l Hx Hcw Hkind Hl); [left; by eapply derived_kind_keeps|by right].
  - rewrite Ht. apply (sound_add _ (get_tables d) t Hs Hfrom Ha).
Qed.

(** The heal of one chunk.  Below the watermark of a clamped walk, a ledger is
    derived or still promised below the clamp. *)
Section heal_row.
Context (d : db) (gap : Gap) (newNextTo goNow : Z) (resolved : bool) (r : gap_row) (records : Records) (t : tables).
Context (Htr : truthful d) (Hready : heal_ready gap newNextTo resolved records r d).
Context (Ha : add_records net records (get_tables d) = Ok t).

Abbreviation gaps' := (heal_gaps net gap newNextTo resolved goNow (db_gaps d)).

Lemma heal_still cid b wall kind l :
  db_backfill d !! (net, cid) = Some b → b_clamped_at b = Some wall → kind ∈ b_covered_kinds b →
  b_target_from b ≤ l ≤ b_next_to b →
  derived_kind cid kind l t ∨ (owed gaps' net l ∧ l < wall ∧ ¬ (newNextTo < l ≤ g_to r)).
Proof.
  destruct Hready as (Hr & Ho & Hf & Hto & Hn & Hres & Hfrom & Hread). intros Hb Hcl Hkind Hl.
  pose proof (tr_gaps Htr) as Hwf.
  assert (Hk : keeps_stored net (get_tables d) t) by (by eapply add_records_keeps).
  destruct (tr_clamp Htr cid b _ kind l Hb Hcl Hkind Hl) as [Hd|[[md (id & x & Hx & Hox)] Hlt]].
  { left. by eapply derived_kind_keeps. }
  destruct (decide (newNextTo < l ≤ g_to r)) as [Hin|Hout].
  - left. assert (id = gap_ID gap ∧ x = r) as [-> ->].
    { eapply (wf_same (db_gaps d) id x (gap_ID gap) r net l); try done;
        [by eapply row_owes_open|by eapply row_owes_range|lia]. }
    destruct Hox as (_ & _ & Hlx & _).
    destruct (Hread cid b wall kind l Hb Hcl Hkind Hl) as [?|(res & Hres' & Hsub)]; [lia| |by eapply derived_from].
    by eapply derived_kind_keeps.
  - right. split; [|done]. apply (heal_owed_still (db_gaps d) net (gap_ID gap) r); try done.
    + by exists md, id, x.
    + intros (_ & ? & ? & ?). lia.
Qed.

(** The walks clamped at the healed gap, after the commit. *)
Context (cid kind : string) (b b' : backfill_row) (Hb : db_backfill d !! (net, cid) = Some b).
Context (Hcl : b_clamped_at b = Some (g_to r + 1)) (Hkind : kind ∈ b_covered_kinds b).
Context (Hrow : healed_row net gap newNextTo resolved gaps' b b').

(** Nothing is owed below the gap that the row does not know of. *)
Lemma heal_below_gap l :
  owed gaps' net l → resolved = true → b_target_from b ≤ l → ¬ (newNextTo < l) →
  ∃ k x, gaps' !! k = Some x ∧ row_open net x ∧ l ≤ g_to x ∧ g_to x < gap_From gap.
Proof.
  destruct Hready as (Hr & Ho & Hf & Hto & Hn & Hres & _). intros Howed Ht Hl Hle.
  assert (newNextTo < g_from r) by (rewrite Hres in Ht; by apply Z.ltb_lt).
  rewrite Hf. apply (heal_owed_below (db_gaps d) net (gap_ID gap) r (tr_gaps Htr) Hr Ho gap newNextTo goNow resolved
    eq_refl Hn Hres l Ht ltac:(lia) Howed).
Qed.

Lemma healed_next : b_next_to b' ≤ b_next_to b ∨ b_clamped_at b' = None.
Proof.
  destruct Hrow as (_ & _ & _ & [(-> & _)|[(_ & _ & -> & _)|(_ & top & _ & _ & -> & _)]]); [by right|left..];
    destruct (Z.ltb_spec newNextTo (b_next_to b)); destruct (Z.leb_spec (b_target_from b) newNextTo); simpl; lia.
Qed.

Lemma heal_row_cover l : b_target_from b ≤ l → b_next_to b' < l ≤ b_next_to b → derived_kind cid kind l t.
Proof.
  intros Htg Hl. destruct (heal_still cid b _ kind l Hb Hcl Hkind ltac:(lia)) as [?|(Howed & Hlt & Hout)]; [done|exfalso].
  pose proof (λ H, heal_below_gap l Howed H Htg) as Hbelow.
  destruct Hrow as (_ & _ & _ & [(_ & Hn' & Hwhy)|[(_ & _ & Hn' & Hge)|(_ & top & _ & _ & Hn' & _ & Hge)]]).
  - destruct Hwhy as [?|[Ht Hnone]]; [lia|].
    destruct (Hbelow Ht ltac:(lia)) as (k & x & Hk & Hx & ? & ?). specialize (Hnone k x Hk Hx). lia.
  - revert Hn'. destruct (Z.ltb_spec newNextTo (b_next_to b)); simpl; [|lia].
    destruct (Z.leb_spec (b_target_from b) newNextTo); lia.
  - revert Hn'. destruct (Z.ltb_spec newNextTo (b_next_to b)); simpl; [|lia].
    destruct (Z.leb_spec (b_target_from b) newNextTo); lia.
Qed.

Lemma heal_row_clamp wall l :
  b_clamped_at b' = Some wall → b_target_from b ≤ l ≤ b_next_to b' →
  derived_kind cid kind l t ∨ (owed gaps' net l ∧ l < wall).
Proof.
  intros Hw Hl. destruct healed_next as [Hle|Hnone]; [|congruence].
  destruct (heal_still cid b _ kind l Hb Hcl Hkind ltac:(lia)) as [?|(Howed & Hlt & Hout)]; [by left|right].
  split; [done|].
  destruct Hrow as (_ & _ & _ & [(Hc' & _)|[(_ & Hc' & _)|(Ht & top & Htop & Hc' & _)]]); [congruence..|].
  rewrite Hc' in Hw. injection Hw as <-.
  destruct (heal_below_gap l Howed Ht) as (k & x & Hk & Hx & ? & ?); [lia..|].
  pose proof (top_below_spec net (gap_From gap) gaps') as Hspec. rewrite Htop in Hspec.
  destruct Hspec as [_ Hmax]. specialize (Hmax k x Hk Hx). lia.
Qed.
End heal_row.

(** A row after a heal commit was there before. *)
Lemma heal_rows (d : db) gap newNextTo resolved now gaps k b' :
  gap_From gap ≤ gap_To gap → resolved = (newNextTo <? gap_From gap) →
  heal_backfill net gap newNextTo resolved now gaps (db_backfill d) !! k = Some b' →
  ∃ b, db_backfill d !! k = Some b ∧
    (b' = b ∧ ¬ (k.1 = net ∧ b_clamped_at b = Some (gap_To gap + 1)) ∨
     b_clamped_at b = Some (gap_To gap + 1) ∧ healed_row net gap newNextTo resolved gaps b b').
Proof.
  intros Hft Hres Hb'. destruct (db_backfill d !! k) as [b|] eqn:Hb.
  - exists b. split; [done|].
    destruct (decide (k.1 = net ∧ b_clamped_at b = Some (gap_To gap + 1))) as [[Hkn Hc]|Hno].
    + right. destruct (heal_backfill_clamped net gap newNextTo resolved now gaps (db_backfill d) Hft Hres k b Hkn Hc Hb)
        as (b2 & Hb2 & Hrow). rewrite Hb' in Hb2. by injection Hb2 as <-.
    + left. rewrite (heal_backfill_other net gap newNextTo resolved now gaps (db_backfill d) Hres k b) in Hb' by done.
      by injection Hb'.
  - revert Hb'. unfold heal_backfill, clear_clamps, lower_frontier, close_clamps, hand_clamps.
    destruct resolved; by rewrite !lookup_upd, Hb.
Qed.

Lemma healed_row_u32 gap newNextTo resolved gaps b b' :
  is_u32 (b_target_from b) → is_u32 (b_next_to b) → healed_row net gap newNextTo resolved gaps b b' →
  is_u32 (b_target_from b') ∧ is_u32 (b_next_to b').
Proof.
  unfold is_u32. intros Ht Hn (-> & _ & _ & Hcases). split; [done|].
  destruct Hcases as [(_ & -> & _)|[(_ & _ & -> & _)|(_ & top & _ & _ & -> & _)]]; [lia|..];
    destruct (Z.ltb_spec newNextTo (b_next_to b)); destruct (Z.leb_spec (b_target_from b) newNextTo); simpl; lia.
Qed.

Lemma healed_row_above gap newNextTo resolved gaps b b' l :
  0 ≤ b_target_from b → healed_row net gap newNextTo resolved gaps b b' →
  b_next_to b' < l ≤ b_next_to b → b_target_from b ≤ l.
Proof.
  intros H0 (_ & _ & _ & Hcases).
  destruct Hcases as [(_ & -> & _)|[(_ & _ & -> & _)|(_ & top & _ & _ & -> & _)]]; [lia|..];
    destruct (Z.ltb_spec newNextTo (b_next_to b)); destruct (Z.leb_spec (b_target_from b) newNextTo); simpl; lia.
Qed.

Lemma heal_keeps gap newNextTo resolved goNow records r now d d' :
  truthful d → heal_ready gap newNextTo resolved records r d →
  run now (CommitHealChunk net gap newNextTo resolved goNow records) d = Ok (tt, d') → truthful d'.
Proof.
  intros Htr Hready Hrun. rewrite run_CommitHealChunk in Hrun.
  destruct (add_records net records (get_tables d)) as [t|] eqn:Ha; [|done].
  destruct (affected _ _ =? 0); [done|]. cbv zeta in Hrun. injection Hrun as <-.
  set (gaps := heal_gaps net gap newNextTo resolved goNow (db_gaps d)).
  set (d' := put_tables _ _).
  assert (Ht : get_tables d' = t) by apply get_put_tables.
  assert (Hgaps : db_gaps d' = gaps) by (by destruct d).
  assert (Hback : db_backfill d' = heal_backfill net gap newNextTo resolved now gaps (db_backfill d)) by (by destruct d).
  assert (Hcur : db_cursor d' = db_cursor d) by (by destruct d).
  assert (Hk : keeps_stored net (get_tables d) t) by (by eapply add_records_keeps).
  clearbody d'. assert (Hready' := Hready). destruct Hready' as (Hr & Ho & Hf & Hto & Hn & Hres & Hfrom & _).
  pose proof (tr_gaps Htr) as Hwf. pose proof (wf_range _ Hwf _ _ Hr) as Hrange.
  assert (Hrows := λ k b', heal_rows d gap newNextTo resolved now gaps k b' ltac:(lia) ltac:(by rewrite Hf)).
  setoid_rewrite <- Hback in Hrows. setoid_rewrite Hto in Hrows. split.
  - rewrite Hgaps. by eapply heal_wf.
  - intros k b' Hb'. destruct (Hrows k b' Hb') as (b & Hb & Hcases).
    destruct (tr_walks Htr _ _ Hb). destruct Hcases as [[-> _]|[_ Hrow]]; [done|by eapply healed_row_u32].
  - rewrite Hcur. apply Htr.
  - intros cid b' c kind l Hb' Hcr Hkind Hl. rewrite Ht. rewrite Hcur in Hcr.
    destruct (Hrows _ b' Hb') as (b & Hb & Hcases).
    assert (Hold : kind ∈ b_covered_kinds b → b_next_to b < l → derived_kind cid kind l t).
    { intros Hkb Hlb. eapply derived_kind_keeps; [exact Hk|]. apply (tr_cover Htr cid b c); try done. lia. }
    destruct Hcases as [[-> _]|[Hcl Hrow]]; [apply Hold; [done|lia]|].
    assert (kind ∈ b_covered_kinds b) by (destruct Hrow as (_ & <- & _); done).
    destruct (Z.le_gt_cases l (b_next_to b)); [|by apply Hold].
    destruct (tr_walks Htr _ _ Hb) as [[Hpos _] _].
    eapply heal_row_cover; try done; [|lia]. eapply healed_row_above; [done|done|lia].
  - intros cid b' wall kind l Hb' Hw Hkind Hl. rewrite Ht, Hgaps.
    destruct (Hrows _ b' Hb') as (b & Hb & [[-> Hno]|[Hcl Hrow]]).
    + destruct (heal_still d gap newNextTo goNow resolved r records t Htr Hready Ha cid b wall kind l)
        as [?|(? & ? & _)]; try done; auto.
    + assert (kind ∈ b_covered_kinds b) by (destruct Hrow as (_ & <- & _); done).
      assert (b_target_from b' = b_target_from b) as Htg by apply Hrow. rewrite Htg in Hl.
      by eapply heal_row_clamp.
  - rewrite Ht. apply (sound_add _ (get_tables d) t (tr_sound Htr) Hfrom Ha).
Qed.

Lemma gap_keeps from to reason now d d' :
  truthful d → 1 ≤ from → to ≤ max_u32 → run now (RecordGap net from to reason) d = Ok (tt, d') → truthful d'.
Proof.
  intros Htr Hf Ht Hrun. destruct (Z.le_gt_cases from to) as [Hle|Hgt].
  - rewrite RecordGap_run in Hrun by done. injection Hrun as <-. cbv zeta.
    pose proof (tr_gaps Htr) as Hwf. apply (truthful_same d); autorewrite with sierpe_simp; try done.
    + apply record_wf; [done|lia..].
    + intros l Hl. apply record_owed_total; [done|lia..|by left].
    + by destruct d.
    + by destruct d.
  - unfold RecordGap in Hrun. by destruct (Z.ltb_spec to from); [|lia].
Qed.

Lemma contract_keeps c saved now d d' :
  truthful d → run now (UpsertContract c) d = Ok (saved, d') → truthful d'.
Proof.
  intros Htr (_ & _ & ->)%UpsertContract_Ok. apply (truthful_same d); [done|by destruct d; apply Htr|by destruct d..].
Qed.

Lemma delete_keeps cid existed now d d' :
  truthful d → run now (DeleteContract net cid) d = Ok (existed, d') → truthful d'.
Proof.
  intros Htr [= _ <-]. apply (truthful_same d); [done|by destruct d; apply Htr|by destruct d| |by destruct d..].
  destruct d. apply delete_subseteq.
Qed.

(** The gaps a registration hands back stay promised. *)
Lemma reopened_keeps from to d : gaps_wf (db_gaps d) →
  gaps_wf (db_gaps (reopened net from to d)) ∧
  ∀ l, owed (db_gaps d) net l → owed (db_gaps (reopened net from to d)) net l.
Proof.
  intros Hwf. unfold reopened. case_match; [done|]. autorewrite with sierpe_simp.
  split; [by apply reopen_wf|]. intros l (md & id & r & Hr & Hn & Ho & Hl & _).
  pose proof (wf_next _ Hwf _ _ Hr).
  exists (g_heal_mode (if reopen_cond net from to r then reopen_row r else r)), id, (if reopen_cond net from to r then reopen_row r else r).
  split; [apply lookup_upd_Some; by exists r|].
  destruct (reopen_cond net from to r); [|done]. split_and!; try done; [simpl; lia|]. change (heal_next _) with (g_to r). lia.
Qed.

(** A registration: only its own walk changes, and it vouches for nothing at or
    below the cursor that it did not vouch for. *)
Lemma ensured cid x from to d :
  truthful d → is_u32 (b_target_from x) → is_u32 (b_next_to x) →
  (∀ c kind l, db_cursor d !! net = Some c → vouches x kind l → l ≤ cur_Sequence c →
     (∃ b, db_backfill d !! (net, cid) = Some b ∧ vouches b kind l) ∨ derived_kind cid kind l (get_tables d)) →
  (∀ wall, b_clamped_at x = Some wall → ∃ b, db_backfill d !! (net, cid) = Some b ∧ b_clamped_at b = Some wall ∧
     b_target_from x = b_target_from b ∧ b_next_to x = b_next_to b ∧
     ∀ kind, kind ∈ b_covered_kinds x → kind ∈ b_covered_kinds b) →
  truthful (set_backfill <[(net, cid) := x]> (reopened net from to d)).
Proof.
  intros Htr Ht Hn Hv Hc. destruct (reopened_keeps from to d (tr_gaps Htr)) as [Hg Ho].
  assert (Hrows : ∀ cid' b', db_backfill (set_backfill <[(net, cid) := x]> (reopened net from to d)) !! (net, cid') = Some b' →
    (cid' = cid ∧ b' = x) ∨ db_backfill d !! (net, cid') = Some b').
  { intros cid' b'. autorewrite with sierpe_simp. intros [[[= <-] <-]|[_ ?]]%lookup_insert_Some; auto. }
  apply (truthful_walks d); try done.
  - by autorewrite with sierpe_simp.
  - intros k b'. autorewrite with sierpe_simp.
    intros [[<- <-]|[_ ?]]%lookup_insert_Some; [done|by eapply (tr_walks Htr)].
  - unfold reopened. case_match; by destruct d.
  - unfold reopened. case_match; by destruct d.
  - autorewrite with sierpe_simp. done.
  - intros cid' b' c kind l [[-> ->]|Hb]%Hrows Hcr Hvl Hl; [by eapply Hv|left; by exists b'].
  - intros cid' b' wall [[-> ->]|Hb]%Hrows Hw; [|by exists b', wall].
    destruct (Hc wall Hw) as (b & ? & ? & ? & ? & ?). by exists b, wall.
Qed.

Lemma register_keeps cid from to kinds now d d' :
  truthful d → is_u32 from → is_u32 to →
  (∀ c kind l, db_cursor d !! net = Some c → kind ∈ kinds → to < l ≤ cur_Sequence c →
     derived_kind cid kind l (get_tables d)) →
  run now (EnsureBackfill net cid from to kinds) d = Ok (tt, d') → truthful d'.
Proof.
  intros Htr Hf Ht Hcur Hrun. destruct (db_backfill d !! (net, cid)) as [b|] eqn:Hb.
  - destruct (tr_walks Htr _ _ Hb) as [Hbt Hbn].
    rewrite (run_EnsureBackfill_old _ _ _ _ _ _ _ b) in Hrun by done. injection Hrun as <-.
    case_decide as Hold; [case_decide|].
    + done.
    + replace (set_backfill _ d) with (set_backfill <[(net, cid) := narrowed_row kinds now b]> (reopened net 1 0 d)) by done.
      apply ensured; try done.
      * intros c kind l _ [[Hk _]%elem_of_intersect Hl] _. left. by exists b.
      * intros wall Hw. exists b. split_and!; try done. intros kind [??]%elem_of_intersect. done.
    + apply ensured; try done; simpl.
      * unfold is_u32 in *. lia.
      * by case_decide.
      * intros c kind l Hc [Hk Hl] Hle. simpl in Hk, Hl. case_decide as Hall.
        -- left. exists b. split; [done|]. rewrite Forall_forall in Hall. split; [by apply Hall|done].
        -- right. by apply (Hcur c).
  - rewrite run_EnsureBackfill_new in Hrun by done. injection Hrun as <-. apply ensured; try done.
    intros c kind l Hc [Hk Hl] Hle. right. by apply (Hcur c).
Qed.

(** Planning one gap repoints the walks clamped at it to the top of what it
    still owes, or touches no walk. *)
Lemma planGap_walks plan id r now d d' :
  Forall (λ iv, iv_From iv ≤ iv_To iv) plan → gaps_wf (db_gaps d) → db_gaps d !! id = Some r →
  run now (planGap net plan (scanGap (id, r))) d = Ok (tt, d') →
  db_backfill d' = db_backfill d ∨
  db_backfill d' = repoint_clamps net (g_to r + 1) (heal_next r + 1) now (db_backfill d).
Proof.
  intros Hv Hwf Hr. unfold planGap. destruct (scanGap_fields _ id r Hwf Hr) as (-> & Hto & -> & _ & ->).
  destruct (Z.ltb_spec (heal_next r) (g_from r)) as [|Hle]; [intros [= <-]; by left|].
  pose proof (wf_range _ Hwf _ _ Hr). pose proof (wf_next _ Hwf _ _ Hr).
  destruct (tiles_last _ _ _ (partitionLoop_tiles (g_from r) (heal_next r) plan ltac:(lia) ltac:(lia) Hv)) as (top & Htop & Hpt).
  assert (Hsplit : run now (splitGap net (scanGap (id, r)) (partition (g_from r) (heal_next r) plan)) d = Ok (tt, d') →
    db_backfill d' = repoint_clamps net (g_to r + 1) (heal_next r + 1) now (db_backfill d)).
  { rewrite (run_splitGap _ _ _ top) by done. rewrite Hto, Hpt. intros [= <-]. by destruct d. }
  destruct (partition _ _ _) as [|p [|]]; [by right; apply Hsplit| |by right; apply Hsplit].
  case_bool_decide; [intros [= <-]; by left|]. by right; apply Hsplit.
Qed.

Lemma planGap_keeps plan id r now d d' :
  truthful d → Forall (λ iv, iv_From iv ≤ iv_To iv) plan → plan_sorted plan →
  db_gaps d !! id = Some r → row_open net r → no_clash net plan (db_gaps d) r →
  run now (planGap net plan (scanGap (id, r))) d = Ok (tt, d') → truthful d'.
Proof.
  intros Htr Hv Hs Hr Ho Hnc Hrun. pose proof (tr_gaps Htr) as Hwf.
  destruct (planGap_run net plan Hv Hs (db_gaps d) id r Hwf Hr Ho now d eq_refl) as (d1 & Hrun1 & Hst & Hrest & _).
  rewrite Hrun in Hrun1. injection Hrun1 as <-.
  assert (Hcur : db_cursor d' = db_cursor d) by (by destruct d, d'; injection Hrest).
  assert (Ht : get_tables d' = get_tables d) by (by destruct d, d'; injection Hrest as ?; simplify_eq).
  assert (Howed : ∀ l, owed (db_gaps d) net l → owed (db_gaps d') net l).
  { intros l [md Hl]. destruct (decide (g_from r ≤ l ≤ g_to r)) as [Hin|Hout].
    - exists (plan_mode plan l). apply (ps_full _ _ _ _ _ _ Hst); [done..|by exists md].
    - exists md. apply (ps_out _ _ _ _ _ _ Hst); [tauto|done]. }
  destruct (planGap_walks _ _ _ _ _ _ Hv Hwf Hr Hrun) as [Hb|Hb].
  - apply (truthful_same d); try done; [by apply (ps_wf _ _ _ _ _ _ Hst)|by rewrite Hb].
  - assert (Hrows : ∀ k b', db_backfill d' !! k = Some b' → ∃ b, db_backfill d !! k = Some b ∧
      b_target_from b' = b_target_from b ∧ b_next_to b' = b_next_to b ∧ b_covered_kinds b' = b_covered_kinds b ∧
      (b_clamped_at b' = b_clamped_at b ∨
       b_clamped_at b = Some (g_to r + 1) ∧ b_clamped_at b' = Some (heal_next r + 1))).
    { intros k b'. rewrite Hb. intros (b & Hk & ->)%lookup_upd_Some. exists b. split; [done|].
      destruct (_ && _) eqn:Hc; [|by split_and!; try left].
      apply andb_true_iff in Hc as [_ Hc%bool_decide_eq_true]. split_and!; try done. by right. }
    apply (truthful_walks d); try done.
    + by apply (ps_wf _ _ _ _ _ _ Hst).
    + intros k b' (b & Hk & -> & -> & _)%Hrows. by apply (tr_walks Htr k b).
    + intros cid b' c kind l (b & Hk & _ & Hn & Hkinds & _)%Hrows _ [??] _. left. exists b. split; [done|].
      rewrite Hkinds in *. split; [done|lia].
    + intros cid b' wall' (b & Hk & Htg & Hn & Hkinds & Hc)%Hrows Hw. rewrite Hkinds.
      destruct Hc as [Hc|[Hc1 Hc2]]; [exists b, wall'|exists b, (g_to r + 1)]; split_and!; try done; [congruence|].
      rewrite Hc2 in Hw. injection Hw as <-. intros l (md & k & x & Hx & Hox) Hlt.
      destruct (Z.le_gt_cases (g_from r) l) as [Hge|]; [|pose proof (wf_next _ Hwf _ _ Hr); lia].
      assert (k = id ∧ x = r) as [-> ->].
      { eapply (wf_same (db_gaps d) k x id r net l); try done;
          [by eapply row_owes_open|by eapply row_owes_range|lia]. }
      destruct Hox as (_ & _ & ? & _). lia.
Qed.

Lemma planGaps_keep plan gs now d d' :
  truthful d → Forall (λ iv, iv_From iv ≤ iv_To iv) plan → plan_sorted plan → NoDup gs.*1 →
  Forall (λ row, db_gaps d !! row.1 = Some row.2 ∧ row_open net row.2 ∧ no_clash net plan (db_gaps d) row.2) gs →
  run now (foreach (planGap net plan) (scanGap <$> gs)) d = Ok (tt, d') → truthful d'.
Proof.
  intros Htr Hv Hs. revert d Htr. induction gs as [|[id r] gs IH]; intros d Htr Hnd Hgs; rewrite ?fmap_cons; cbn [foreach].
  { by intros [= <-]. }
  apply NoDup_cons in Hnd as [Hid Hnd]. apply Forall_cons in Hgs as [(Hr & Ho & Hnc) Hgs]. simpl in Hr, Ho, Hnc, Hid.
  destruct (planGap_run net plan Hv Hs (db_gaps d) id r (tr_gaps Htr) Hr Ho now d eq_refl)
    as (d1 & Hrun1 & Hst & _). rewrite run_bind, Hrun1. intros Hrun.
  apply (IH d1); try done; [by eapply planGap_keeps|].
  rewrite Forall_forall in Hgs |- *. intros [k x] Hk. destruct (Hgs _ Hk) as (Hkx & Hox & Hncx). simpl in *.
  split_and!; [|done|].
  - apply (ps_old _ _ _ _ _ _ Hst); [|done]. intros ->. apply Hid, list_elem_of_fmap. by exists (id, x).
  - intros p old Hle Hp Hold. destruct (decide (g_resolved_at old = None)) as [|Hres]; [done|].
    by eapply (Hncx p old), (ps_resolved _ _ _ _ _ _ Hst).
Qed.

Lemma plan_keeps replay padding res now d d' :
  truthful d → Forall valid_interval replay → is_u32 padding →
  no_resolved_clash net (normalizePlan replay padding) (db_gaps d) →
  run now (PlanHeal net replay padding) d = Ok (res, d') → truthful d'.
Proof.
  intros Htr Hv Hp Hnc. destruct (plan_hypotheses _ _ Hv Hp) as [Hv' Hs'].
  unfold PlanHeal. cbv zeta. destruct (lockOpenGaps_rows net d now) as (rows & Hlock & Hnd & _ & Hrows).
  rewrite run_bind, Hlock, run_bind.
  destruct (run now (foreach _ _) d) as [[[] d1]|] eqn:Hrun; [|done]. intros [= _ <-].
  eapply planGaps_keep; [exact Htr|exact Hv'|exact Hs'|exact Hnd| |exact Hrun].
  apply Forall_forall. intros [id r] [Hr Ho]%Hrows. split_and!; [done|done|by eapply Hnc].
Qed.

Lemma worker_keeps d d' : truthful d → worker_step d d' → truthful d'.
Proof. intros Htr []; [by eapply walk_keeps|by eapply heal_keeps|by eapply gap_keeps|by eapply plan_keeps]. Qed.

Lemma aside_keeps d d' : truthful d → aside_step d d' → truthful d'.
Proof.
  intros Htr [].
  - by eapply worker_keeps.
  - eapply register_keeps; [exact Htr| | | |eassumption]; assumption.
  - by eapply contract_keeps.
  - by eapply delete_keeps.
Qed.

Lemma sys_keeps d d' : truthful d → sys_step d d' → truthful d'.
Proof. intros Htr []; [by eapply live_keeps|by eapply aside_keeps]. Qed.

(** A fresh database declares nothing. *)
Lemma truthful_empty : truthful empty_db.
Proof.
  split; [split|..|]; intros *; cbn [db_gaps db_backfill db_cursor empty_db]; rewrite ?lookup_empty; try done.
Qed.

Lemma sys_keeps_rtc d d' : truthful d → rtc sys_step d d' → truthful d'.
Proof. intros Htr Hr. induction Hr as [|d1 d2 d3 Hstep _ IH]; [done|]. by eapply IH, sys_keeps. Qed.

Lemma sys_truthful d : rtc sys_step empty_db d → truthful d.
Proof. apply sys_keeps_rtc, truthful_empty. Qed.

(** *** Whatever the order *)

(** No commit stores a record that the chain does not derive. *)
Lemma commit_sound d d' : sound_rows net passphrase chain (get_tables d) → any_commit net passphrase chain d d' →
  sound_rows net passphrase chain (get_tables d').
Proof.
  intros Hs [watch rec r now He Hrun|nxt share now Hf Hrun|gap n res g records now Hf Hrun|? ? ? ? Hrun|? ? ? ? Hrun|
             ? ? ? ? ? Hrun|? ? ? Hrun|? ? ? Hrun];
    try (by rewrite (untouched_tables _ _ _ _ _ _ Hrun)).
  - rewrite run_CommitLedger in Hrun. destruct (add_records _ _ _) as [t|] eqn:Ha; [|done]. injection Hrun as <-.
    rewrite get_tables_ledger_done, get_put_tables. exact (sound_add _ _ _ Hs (reading_from_chain _ _ _ He) Ha).
  - rewrite run_CommitBackfillChunk in Hrun. destruct (add_records _ _ _) as [t|] eqn:Ha; [|done].
    destruct (db_backfill d !! _); [|done]. injection Hrun as <-. rewrite get_put_tables. by eapply sound_add.
  - rewrite run_CommitHealChunk in Hrun. destruct (add_records _ _ _) as [t|] eqn:Ha; [|done].
    destruct (affected _ _ =? 0); [done|]. cbv zeta in Hrun. injection Hrun as <-. rewrite get_put_tables.
    by eapply sound_add.
Qed.

Lemma commits_sound d : rtc (any_commit net passphrase chain) empty_db d → sound_rows net passphrase chain (get_tables d).
Proof.
  assert (Hgen : ∀ d0, sound_rows net passphrase chain (get_tables d0) → rtc (any_commit net passphrase chain) d0 d →
    sound_rows net passphrase chain (get_tables d)).
  { intros d0 H0 Hr. induction Hr as [|d1 d2 d3 Hstep _ IH]; [done|]. by eapply IH, commit_sound. }
  apply Hgen, truthful_empty.
Qed.

(** *** Pages *)

(** A record whose constraint columns are taken is in the table under its own
    id, when those columns identify the records of the chain. *)
Lemma stored_row {A V} (conflict : V → V → bool) (part : Result → list A) (id : A → string) row m l x :
  (∀ l1 l2 y z, chain_record passphrase chain part l1 y → chain_record passphrase chain part l2 z →
     conflict (row y) (row z) = true → y = z) →
  rows_from net passphrase chain part id row m → chain_record passphrase chain part l x →
  taken conflict net (row x) m = true → m !! (net, id x) = Some (row x).
Proof.
  intros Hsame Hrows Hx (i & v & Hv & Hc)%taken_spec.
  destruct (Hrows i v Hv) as (l2 & y & Hy & -> & ->).
  by rewrite (Hsame l2 l y x Hy Hx Hc) in Hv.
Qed.

(** A page of everything selected from a table of chain records. *)
Lemma chain_page `{Countable K} {A B V} (part : Result → list A) (key : A → K) (row : A → V) (scan : K * V → A)
    (record : A → B) (P Q : K → V → bool) (asked : A → Prop) (m : gmap K V) out :
  (∀ k v, m !! k = Some v → P k v = true →
     ∃ l x, chain_record passphrase chain part l x ∧ k = key x ∧ v = row x) →
  (∀ l x, chain_record passphrase chain part l x → scan (key x, row x) = x) →
  (∀ l x, chain_record passphrase chain part l x → P (key x) (row x) && Q (key x) (row x) = true ↔ asked x) →
  out ≡ₚ scan <$> sel (λ k r, P k r && Q k r) m →
  (∀ l x, chain_record passphrase chain part l x → m !! key x = Some (row x) → asked x → record x ∈ record <$> out) ∧
  ∀ e, e ∈ record <$> out → ∃ l x, chain_record passphrase chain part l x ∧ asked x ∧ e = record x.
Proof.
  intros Hrows Hscan Hasked Hout. split.
  - intros l x Hx Hm Ha. rewrite <- (Hscan l x Hx). apply (Hasked l x Hx), andb_true_iff in Ha as [Hp Hq].
    by apply (listed _ _ _ _ _ _ _ _ Hout).
  - intros e (x & -> & Hx)%list_elem_of_fmap. rewrite Hout in Hx.
    apply list_elem_of_fmap in Hx as ([k v] & -> & [Hv Hpq]%elem_of_sel).
    destruct (Hrows k v Hv) as (l & x & Hx & -> & ->); [by apply andb_true_iff in Hpq as [? _]|].
    exists l, x. rewrite (Hscan l x Hx). split_and!; [done|by apply (Hasked l x)|done].
Qed.

Lemma scan_stored n x : is_u32 (ev_LedgerSequence x) → scanEvent ((n, ev_ID x), event_row_of x) = x.
Proof.
  intros Hu. destruct x as [id c l cl h ti oi ei name ts v raw]. cbn in *.
  rewrite u32_small by done. unfold coalesce, nullable. by case_bool_decide; subst.
Qed.

Lemma chain_event_ledger l x : chain_event l x → ev_LedgerSequence x = u32 (LedgerSeq (chain l)).
Proof. intros (watch & r & He & Hx). by destruct (at_events _ _ _ _ (Events_owned _ _ _ _ He) x Hx) as (_ & -> & _). Qed.

Lemma chain_event_u32 l x : chain_event l x → is_u32 (ev_LedgerSequence x).
Proof. intros ->%chain_event_ledger. apply u32_range. Qed.

Lemma same_event l1 l2 x y : hashed passphrase chain → chain_event l1 x → chain_event l2 y →
  event_conflict (event_row_of x) (event_row_of y) = true → x = y.
Proof.
  intros Hid (w1 & r1 & He1 & Hx) (w2 & r2 & He2 & Hy).
  exact (hashed_identifies passphrase chain l1 l2 w1 w2 r1 r2 x y Hid He1 Hx He2 Hy).
Qed.

(** What a COMPLETE page vouches for, beyond the cursor's own ledger. *)
Lemma walks_bounded d : truthful d → (∀ k b, db_backfill d !! k = Some b → b_next_to b < max_u32) →
  ∀ k b, db_backfill d !! k = Some b → is_u32 (b_next_to b) ∧ b_next_to b < max_u32.
Proof. intros Htr Hmax k b Hb. split; [by apply (tr_walks Htr k b)|by eapply Hmax]. Qed.

Lemma complete_walk `{Collation} d1 d2 d3 dWalk contract kind hasMore from to cursorSeq :
  (∀ k b, db_backfill dWalk !! k = Some b → is_u32 (b_next_to b) ∧ b_next_to b < max_u32) →
  scanStatus hasMore from to (coverage (reader_at net d1 d2 d3 dWalk) contract kind from to cursorSeq) cursorSeq
    = scanComplete → from < cursorSeq →
  to ≤ cursorSeq ∧ ∃ b, db_backfill dWalk !! (net, ct_ContractID contract) = Some b ∧
    kind ∈ b_covered_kinds b ∧ b_next_to b < from.
Proof.
  intros Hwf (_ & _ & _ & Hto & [(bf & Hbf & Hc & Hn)|?])%complete_vouched Hlt; [|lia]. split; [done|].
  simpl in Hbf. unfold GetBackfill in Hbf. simpl in Hbf.
  destruct (db_backfill dWalk !! (net, ct_ContractID contract)) as [b|] eqn:Hb; [|done].
  simpl in Hbf. injection Hbf as <-. exists b. destruct (Hwf _ _ Hb) as [Hu Hm]. simpl in Hn.
  rewrite (u32_small (b_next_to b)), u32_small in Hn by (done || uarith).
  split_and!; [done|by apply CoversKind_spec in Hc|lia].
Qed.

(** Every ledger of the range of such a page was derived for the kind. *)
Lemma covered_ledger `{Collation} d contract kind hasMore from to c l :
  truthful d → (∀ k b, db_backfill d !! k = Some b → b_next_to b < max_u32) →
  scanStatus hasMore from to (coverage (reader_at net d d d d) contract kind from to (cur_Sequence c))
    (cur_Sequence c) = scanComplete →
  db_cursor d !! net = Some c → from < cur_Sequence c → from ≤ l ≤ to →
  derived_kind (ct_ContractID contract) kind l (get_tables d).
Proof.
  intros Htr Hmax Hs Hc Hlt Hl. apply complete_walk in Hs as (Hto & b & Hb & Hk & Hn); [|by eapply walks_bounded|done].
  apply (tr_cover Htr _ b c); try done. lia.
Qed.
End coverage.

(** ** Properties *)

(** C1.  What the database declares is true of the chain, for the steps that meet
    their preconditions; that no record is ever invented, for all.  Starting from
    an empty database:

    - whatever transactions of the live loop, the backfiller, the healer, the
      planner and the registrations commit, in whatever order and on whatever
      state they find, every stored record of the five histories is one that a
      ledger of the chain derives, provided the loop's, the backfiller's and the
      healer's records were read from the chain;
    - when moreover each of them is a step of the system ([sys_step]), every ledger
      between a walk's watermark and the cursor was read from the chain for the
      walk's kinds and stored, and every ledger below the watermark of a clamped
      walk is either stored or promised by an open gap below the clamp.

    A step of the system finds, when it commits, what its component established
    before: the live loop's snapshot watches the walks that will vouch for the
    ledger, or the ledger is derived for them; a backfill chunk was read for the
    kinds its walk covers by then; a healed gap is still the one that was listed,
    and what is discharged was read for, or derived for, the walks it holds up;
    between a registration's anchor and the cursor all is derived; and no piece a
    plan inserts equals a gap resolved before.  [Together] and [Scene] show when
    the components take such steps only.  The interleavings left out are those in
    which the declaration can become false: a plan over a resolved piece
    ([PlanHeal_drops_resolved_piece]), a chunk read before its walk gained a kind
    ([stale_chunk_covers_new_kind]), a heal commit of a gap reopened since
    ([CommitHealChunk_undoes_reopen]), and a ledger read under a snapshot that does
    not watch what a walk will vouch for. *)
Theorem coverage_true `{S : SDK} `{!SDKChanges} (net passphrase : string) (chain : Z → LedgerCloseMeta) (d : db) :
  (rtc (any_commit net passphrase chain) empty_db d → sound_rows net passphrase chain (get_tables d)) ∧
  (rtc (sys_step net passphrase chain) empty_db d → truthful net passphrase chain d).
Proof. split; [apply commits_sound|apply sys_truthful]. Qed.

(** C2.  COMPLETE means complete on the chain.  When transaction hashes
    are unique on the chain and no walk is anchored at the last 32-bit ledger, a page of events that the API declares COMPLETE, read
    from one database the components can reach, holds exactly the chain's events
    that the query asks for: of the contract, in the range, with the topics, after
    the resume position.  When the range starts below the cursor, every ledger of
    it was read with the contract watched for events and each event of that reading
    the query asks for is in the page; and every event of the page is one a ledger
    of the chain derives, in the range, and asked for. *)
Theorem complete_events_of_the_chain `{S : SDK} `{!SDKChanges} `{SDKValidators} `{!Codec cursorPayload} `{Collation}
    (net passphrase contractID : string) (chain : Z → LedgerCloseMeta) (ps : Values) (d : db) (resp : eventsResponse) :
  rtc (sys_step net passphrase chain) empty_db d → hashed passphrase chain →
  (∀ k b, db_backfill d !! k = Some b → b_next_to b < max_u32) →
  handleEvents net (reader_at net d d d d) contractID ps = Reply resp →
  evs_ScanStatus resp = scanComplete →
  ∃ q, buildQuery net ps contractID = Reply q ∧ eq_ContractID q = contractID ∧ eq_ToLedger q ≠ 0 ∧
    page_of_the_chain net passphrase chain contractID KindEvents (eq_FromLedger q) (eq_ToLedger q)
      rs_Events ev_LedgerSequence (asks_event q) event_record d (evs_Events resp).
Proof.
  intros Hrtc Hid Hmax Hh Hs. pose proof (sys_truthful net passphrase chain d Hrtc) as Htr.
  unfold handleEvents in Hh. reply_inv Hh. rename x into contract, x0 into q, x1 into pg.
  destruct pg as [events hasMore]. reply_inv Hh. rename x into cursorSeq, Hx2 into Hcur. injection Hh as <-. simpl in Hs.
  apply knownContract_reader in Hx as (row & _ & ->). simpl in Hx0. exists q. split; [done|]. cbn [evs_Events].
  assert (hasMore = false ∧ eq_ToLedger q ≠ 0) as [-> Hto] by (by apply complete_vouched in Hs as (? & _ & ? & _)).
  apply fetched_all in Hx1. pose proof (buildQuery_contract _ _ _ _ Hx0) as Hcid. split; [done|]. split; [done|].
  destruct (chain_page passphrase chain rs_Events (λ x, (net, ev_ID x)) event_row_of scanEvent event_record
      (event_matches net q) (λ k _, after_text (eq_AfterID q) k.2) (asks_event q) (db_events d) events) as [Hall Honly].
  { intros [n id] v Hv Hn%event_matches_key. cbn in Hn. subst n.
    destruct (proj1 (tr_sound Htr) id v Hv) as (l & x & ? & -> & ->). by exists l, x. }
  { intros l x Hx. by eapply scan_stored, chain_event_u32. }
  { intros l x _. apply asks_event_spec. }
  { exact Hx1. }
  split; [|intros e (l & x & Hx & ? & ->)%Honly; exists l, x; split_and!; [done|by eapply chain_event_ledger|done..]].
  intros c l Hc Hlt Hl. simpl in Hcur. unfold LoadCursor in Hcur. simpl in Hcur. rewrite Hc in Hcur.
  simpl in Hcur. rewrite u32_small in Hcur by apply (tr_cursor Htr c Hc). injection Hcur as <-.
  destruct (covered_ledger net passphrase chain d _ _ _ _ _ c l Htr Hmax Hs Hc Hlt Hl) as (r & Hr & Hst). cbn in Hr, Hst.
  exists r. split; [done|]. intros x Hx Ha.
  assert (Hch : chain_record passphrase chain rs_Events l x) by (destruct Hr as (watch & _ & ?); by exists watch, r).
  apply (Hall l x); try done. eapply stored_row; [|apply (tr_sound Htr)|done|].
  - intros l1 l2 y z. by eapply same_event.
  - apply (st_events _ _ _ Hst). apply list_elem_of_filter. split; [|done]. destruct Ha as [Ha _]. by rewrite Ha.
Qed.

(** ** Witnesses *)

#[local] Existing Instance demo_sdk.
#[local] Existing Instance demo_changes.
#[local] Existing Instance bytewise.
#[local] Existing Instance lax_validators.
#[local] Instance no_cursors : Codec cursorPayload := void_codec cursorPayload.

(** A chain with one event: the token [CT] speaks in ledger 9. *)
Definition ping_event : ContractEvent :=
  mkContractEvent true (Some "CT") (BodyV0 (Some (mkEventV0 [ScvSymbol (Some "ping")] (ScvI128 (Some (mkInt128 0 7)))))).

Definition ping_chain (l : Z) : @LedgerCloseMeta demo_sdk :=
  if l =? 9 then (9, [Some (mkDemoTx 1 (SOk true) (SOk [[ping_event]]))]) else (l, []).

Definition ping_result (l : Z) : Result := default no_result (Events (ping_chain l) "pass" demo_watch).

(** Its only transaction is in ledger 9. *)
Lemma ping_hashed : hashed "pass" ping_chain.
Proof.
  assert (Hone : ∀ l answers tx, ReadLedger "pass" (ping_chain l) = Some answers → Some tx ∈ answers →
    l = 9 ∧ tx = mkDemoTx 1 (SOk true) (SOk [[ping_event]])).
  { intros l answers tx. unfold ping_chain. destruct (Z.eqb_spec l 9) as [->|]; intros [= <-] Hin; [|by apply elem_of_nil in Hin].
    apply list_elem_of_singleton in Hin. by injection Hin as ->. }
  split.
  - intros l1 l2 as1 as2 tx1 tx2 H1 H2 H3 H4 _.
    destruct (Hone l1 as1 tx1 H1 H3) as [-> ->], (Hone l2 as2 tx2 H2 H4) as [-> ->]. done.
  - intros l answers tx ops H1 H2 H3. destruct (Hone l answers tx H1 H2) as [-> ->]. by injection H3 as <-.
Qed.

(** The token is registered at ledger 9 and the live loop commits 9 and 10. *)
Definition after {A} (tx : Tx A) (d : db) : db := match run 1 tx d with Ok (_, d) => d | Err _ => d end.

Definition ping_live (l : Z) : Tx unit :=
  CommitLedger "testnet" (mkLedgerRecord l "h" "" (5 * l)) (all_records (ping_result l)).

Definition ping_db1 : db := after (UpsertContract (mkContract "testnet" "CT" "api" ["events"] None 0)) empty_db.
Definition ping_db2 : db := after (EnsureBackfill "testnet" "CT" 9 8 ["events"]) ping_db1.
Definition ping_db3 : db := after (ping_live 9) ping_db2.
Definition ping_db : db := after (ping_live 10) ping_db3.

Lemma ping_walk k b :
  db_backfill ping_db2 !! k = Some b ∨ db_backfill ping_db3 !! k = Some b ∨ db_backfill ping_db !! k = Some b →
  k = ("testnet", "CT") ∧ b_next_to b = 8 ∧ b_covered_kinds b = ["events"].
Proof.
  intros [Hb|[Hb|Hb]]; apply elem_of_map_to_list in Hb; revert Hb; vm_compute map_to_list;
    rewrite elem_of_cons, elem_of_nil; intros [[= -> ->]|[]]; done.
Qed.

Lemma ping_reachable : rtc (sys_step "testnet" "pass" ping_chain) empty_db ping_db.
Proof.
  assert (Hknows : ∀ l d, d = ping_db2 ∨ d = ping_db3 → knows "testnet" "pass" ping_chain demo_watch d l).
  { intros l d Hd cid b kind Hb Hk _. destruct (ping_walk ("testnet", cid) b) as ([= ->] & _ & Hkinds).
    - destruct Hd as [->| ->]; auto.
    - rewrite Hkinds in Hk. apply list_elem_of_singleton in Hk as ->. left. vm_compute. reflexivity. }
  apply (rtc_l _ _ ping_db1).
  { eapply AsideStep, (ContractStep _ _ _ _ _ (mkContract "testnet" "CT" "api" ["events"] None 0) _ 1). vm_compute. reflexivity. }
  apply (rtc_l _ _ ping_db2).
  { eapply AsideStep, (RegisterStep _ _ _ _ _ "CT" 9 8 ["events"] 1); [uarith..|done|]. vm_compute. reflexivity. }
  apply (rtc_l _ _ ping_db3).
  { eapply (LiveStep _ _ _ _ _ demo_watch (mkLedgerRecord 9 "h" "" 45) (ping_result 9) 1); [vm_compute; reflexivity|simpl; uarith| |by apply Hknows; left|vm_compute; reflexivity].
    change (∀ cid b, db_backfill ping_db2 !! ("testnet", cid) = Some b → 9 ≤ b_next_to b + 1).
    intros cid b Hb. destruct (ping_walk ("testnet", cid) b) as (_ & -> & _); [by left|]. simpl. lia. }
  apply rtc_once.
  eapply (LiveStep _ _ _ _ _ demo_watch (mkLedgerRecord 10 "h" "" 50) (ping_result 10) 1); [vm_compute; reflexivity|simpl; uarith| |by apply Hknows; right|vm_compute; reflexivity].
  vm_compute. discriminate.
Qed.

Lemma coverage_true_witness : truthful "testnet" "pass" ping_chain ping_db.
Proof. apply (proj2 (coverage_true "testnet" "pass" ping_chain ping_db)). exact ping_reachable. Defined.

Lemma complete_events_of_the_chain_witness :
  ∃ resp, handleEvents "testnet" (reader_at "testnet" ping_db ping_db ping_db ping_db) "CT"
      [("startLedger", "9"); ("endLedger", "10")] = Reply resp ∧
    evs_ScanStatus resp = scanComplete ∧ length (evs_Events resp) = 1%nat ∧
    page_of_the_chain "testnet" "pass" ping_chain "CT" KindEvents 9 10 rs_Events ev_LedgerSequence
      (asks_event (mkEventQuery "CT" [None; None; None; None] 9 10 "" 100)) event_record ping_db (evs_Events resp).
Proof.
  eexists. split; [vm_compute; reflexivity|]. split; [reflexivity|]. split; [reflexivity|].
  edestruct (complete_events_of_the_chain "testnet" "pass" "CT" ping_chain
      [("startLedger", "9"); ("endLedger", "10")] ping_db) as (q & Hq & _ & _ & Hpage).
  - exact ping_reachable.
  - exact ping_hashed.
  - intros k b Hb. destruct (ping_walk k b) as (_ & -> & _); [by right; right|uarith].
  - vm_compute. reflexivity.
  - reflexivity.
  - vm_compute in Hq. injection Hq as <-. exact Hpage.
Defined.
