(* ===== verification/Histories.v ===== *)
(** * COMPLETE pages of every history

    What [Coverage] shows of events, for state changes, transfers, trustline
    changes and movements: the stored rows are the chain's records, their
    columns identify them ([Provenance]), and so a page declared COMPLETE is
    exactly what the chain derives for the query. *)

From S2P Require Import Prelude HealPlan Db Gaps Rows Registrations Commit Registry Query Cursor Api Extract Loop Workers System Derived Provenance Coverage.

(** ** Definitions *)

(** What the queries of the other histories ask for. *)
Section asks.
Context `{Collation}.

Definition asks_state_change (q : StateQuery) (x : StateChange) : Prop :=
  sc_ContractID x = sq_ContractID q ∧ within (sq_FromLedger q) (sq_ToLedger q) (sc_LedgerSequence x) ∧
  wants (sq_KeyXDR q) (sc_KeyXDR x) ∧ resumes (sq_AfterID q) (sc_ID x).

Definition asks_transfer (q : TransferQuery) (x : Transfer) : Prop :=
  tr_ContractID x = tq_ContractID q ∧ within (tq_FromLedger q) (tq_ToLedger q) (tr_LedgerSequence x) ∧
  wants (tq_TransferType q) (tr_TransferType x) ∧
  (wants (tq_Account q) (tr_FromAddress x) ∨ wants (tq_Account q) (tr_ToAddress x)) ∧
  wants (tq_From q) (tr_FromAddress x) ∧ wants (tq_To q) (tr_ToAddress x) ∧ resumes (tq_AfterID q) (tr_ID x).

Definition asks_trustline_change (q : TrustlineQuery) (x : TrustlineChange) : Prop :=
  tl_ContractID x = lq_ContractID q ∧ within (lq_FromLedger q) (lq_ToLedger q) (tl_LedgerSequence x) ∧
  wants (lq_AccountID q) (tl_AccountID x) ∧ resumes (lq_AfterID q) (tl_ID x).

(** Movements resume after a transfer and its role. *)
Definition asks_movement (q : MovementQuery) (x : Movement) : Prop :=
  mv_ContractID x = mq_ContractID q ∧ within (mq_FromLedger q) (mq_ToLedger q) (mv_LedgerSequence x) ∧
  wants (mq_Role q) (mv_Role x) ∧ wants (mq_Token q) (mv_TokenContractID x) ∧ wants (mq_Type q) (mv_TransferType x) ∧
  (mq_AfterID q = "" ∨ text2_ltb (mq_AfterID q, mq_AfterRole q) (mv_TransferID x, mv_Role x) = true).
End asks.

(** ** Lemmas *)

(** Rows read back. *)
Lemma scanStateChange_row n x : is_u32 (sc_LedgerSequence x) →
  scanStateChange ((n, sc_ID x), state_change_row_of x) = x.
Proof. intros Hu. destruct x. cbn in *. rewrite u32_small by done. unfold coalesce, nullable. by repeat case_bool_decide; subst. Qed.

Lemma scanTransfer_row n x : is_u32 (tr_LedgerSequence x) → scanTransfer ((n, tr_ID x), transfer_row_of x) = x.
Proof. intros Hu. destruct x. cbn in *. rewrite u32_small by done. unfold coalesce, nullable. by repeat case_bool_decide; subst. Qed.

Lemma scanTrustlineChange_row n x : is_u32 (tl_LedgerSequence x) → is_u32 (tl_Flags x) →
  scanTrustlineChange ((n, tl_ID x), trustline_change_row_of x) = x.
Proof. intros Hu Hf. destruct x. cbn in *. by rewrite !u32_small by done. Qed.

Lemma scanMovement_row n x : is_u32 (mv_LedgerSequence x) → scanMovement (movement_key n x, movement_row_of x) = x.
Proof. intros Hu. destruct x. cbn in *. rewrite u32_small by done. unfold coalesce, nullable. by repeat case_bool_decide; subst. Qed.

(** The queries select what they ask for. *)
Section selects.
Context `{Collation} (net : string).

Lemma asks_state_change_spec q x : is_u32 (sc_LedgerSequence x) →
  state_change_matches net q (net, sc_ID x) (state_change_row_of x) && after_text (sq_AfterID q) (sc_ID x) = true ↔
  asks_state_change q x.
Proof.
  intros Hu. assert (Hfrom : from_on (sq_FromLedger q) (sc_LedgerSequence x) = true ↔ sq_FromLedger q ≤ sc_LedgerSequence x).
  { unfold from_on. destruct (Z.ltb_spec 0 (sq_FromLedger q)); [apply Z.leb_le|]. unfold is_u32 in Hu. split; [lia|done]. }
  unfold state_change_matches, asks_state_change. cbn.
  rewrite !andb_true_iff, !bool_decide_eq_true, Hfrom, matches_wants, after_resumes, <- upto_within. tauto.
Qed.

Lemma asks_transfer_spec q x :
  transfer_matches net q (net, tr_ID x) (transfer_row_of x) && after_text (tq_AfterID q) (tr_ID x) = true ↔ asks_transfer q x.
Proof.
  unfold transfer_matches, asks_transfer. cbn.
  rewrite !andb_true_iff, orb_true_iff, !bool_decide_eq_true, Z.leb_le, matches_wants, !matches_nullable, after_resumes, <- upto_within.
  tauto.
Qed.

Lemma asks_trustline_change_spec q x :
  trustline_change_matches net q (net, tl_ID x) (trustline_change_row_of x) && after_text (lq_AfterID q) (tl_ID x) = true ↔
  asks_trustline_change q x.
Proof.
  unfold trustline_change_matches, asks_trustline_change. cbn.
  rewrite !andb_true_iff, !bool_decide_eq_true, Z.leb_le, matches_wants, after_resumes, <- upto_within. tauto.
Qed.

Lemma asks_movement_spec q x :
  movement_matches net q (movement_key net x) (movement_row_of x) &&
    after_text2 (mq_AfterID q) (mq_AfterRole q) (mv_TransferID x, mv_Role x) = true ↔ asks_movement q x.
Proof.
  assert (Hafter : after_text2 (mq_AfterID q) (mq_AfterRole q) (mv_TransferID x, mv_Role x) = true ↔
    mq_AfterID q = "" ∨ text2_ltb (mq_AfterID q, mq_AfterRole q) (mv_TransferID x, mv_Role x) = true).
  { unfold after_text2. case_bool_decide; [by split; [left|]|]. split; [by right|by intros [?|]]. }
  unfold movement_matches, asks_movement. cbn.
  rewrite !andb_true_iff, !bool_decide_eq_true, Z.leb_le, !matches_wants, Hafter, <- upto_within. tauto.
Qed.
End selects.

(** What a COMPLETE reply was made from. *)
Ltac complete_reply Hh Hs :=
  let contract := fresh "contract" in let Hc := fresh "Hc" in let row := fresh "row" in
  let q := fresh "q" in let Hq := fresh "Hq" in let out := fresh "out" in let more := fresh "more" in
  let Hp := fresh "Hp" in let Hto := fresh "Hto" in
  apply reply_bind_Reply in Hh as (contract & Hc & Hh);
  apply reply_bind_Reply in Hh as (q & Hq & Hh);
  apply reply_bind_Reply in Hh as ([out more] & Hp & Hh);
  apply or_500_Reply in Hp; injection Hh as <-; simpl in Hs;
  apply knownContract_reader in Hc as (row & _ & Hc);
  apply (f_equal ct_ContractID) in Hc; cbn in Hc; rewrite Hc in Hq; rewrite <- Hc in *; clear row Hc;
  assert (Hto := complete_vouched _ _ _ _ _ _ _ Hs); destruct Hto as (-> & _ & Hto & _);
  apply fetched_all in Hp; exists q; split; [done|];
  cbn [shr_Changes tfs_Transfers thr_Changes mvs_Movements].

Section histories.
Context `{S : SDK} `{!SDKChanges} (net passphrase : string) (chain : Z → LedgerCloseMeta).
Context (Hpl : placed passphrase chain).

Abbreviation chain_record := (chain_record passphrase chain).
Abbreviation answers_of l := (ReadLedger passphrase (chain l)).

Definition Events_for (l : Z) (r : Result) : Prop := ∃ watch, Events (chain l) passphrase watch = Some r.

(** A record of the chain has a source among the ledger's transactions. *)
Lemma record_source {A} (part : Result → list A) l x : part no_result = [] → chain_record part l x →
  ∃ answers r, answers_of l = Some answers ∧ x ∈ part r ∧
    sourced (u32 (LedgerSeq (chain l))) (CloseTime (chain l)) answers r.
Proof.
  intros Hnil (watch & r & He & Hx). destruct (answers_of l) as [answers|] eqn:Ha.
  - exists answers, r. split_and!; try done. by eapply Events_sourced.
  - unfold Events in He. rewrite Ha in He. destruct (Nat.eqb _ 0); [|done]. injection He as <-.
    rewrite Hnil in Hx. by apply elem_of_nil in Hx.
Qed.

Ltac sources H1 H2 :=
  let as1 := fresh "as1" in let as2 := fresh "as2" in
  destruct (record_source _ _ _ eq_refl H1) as (as1 & ? & ? & ? & ?);
  destruct (record_source _ _ _ eq_refl H2) as (as2 & ? & ? & ? & ?).

Lemma chain_same_state l1 l2 x y : chain_record rs_StateChanges l1 x → chain_record rs_StateChanges l2 y →
  state_change_conflict (state_change_row_of x) (state_change_row_of y) = true → x = y.
Proof. intros H1 H2. sources H1 H2. intros. eapply (same_state passphrase chain Hpl l1 l2); [eassumption|eassumption|by eapply so_states|by eapply so_states|done..]. Qed.

Lemma chain_same_transfer l1 l2 x y : chain_record rs_Transfers l1 x → chain_record rs_Transfers l2 y →
  transfer_conflict (transfer_row_of x) (transfer_row_of y) = true → x = y.
Proof. intros H1 H2. sources H1 H2. intros. eapply (same_transfer passphrase chain Hpl l1 l2); [eassumption|eassumption|by eapply so_transfers|by eapply so_transfers|done..]. Qed.

Lemma chain_same_trustline l1 l2 x y : chain_record rs_TrustlineChanges l1 x → chain_record rs_TrustlineChanges l2 y →
  trustline_change_conflict (trustline_change_row_of x) (trustline_change_row_of y) = true → x = y.
Proof. intros H1 H2. sources H1 H2. intros. eapply (same_trustline passphrase chain Hpl l1 l2); [eassumption|eassumption|by eapply so_trustlines|by eapply so_trustlines|done..]. Qed.

Lemma chain_same_movement l1 l2 x y : chain_record rs_Movements l1 x → chain_record rs_Movements l2 y →
  mv_TransferID x = mv_TransferID y → mv_Role x = mv_Role y → x = y.
Proof. intros H1 H2. sources H1 H2. intros. eapply (same_movement passphrase chain Hpl l1 l2); [eassumption|eassumption|by eapply so_movements|by eapply so_movements|done..]. Qed.

(** The columns of a record of the chain fit their types. *)
Lemma state_ledger l x : chain_record rs_StateChanges l x → sc_LedgerSequence x = u32 (LedgerSeq (chain l)).
Proof. intros (w & r & He & Hx). by destruct (at_states _ _ _ _ (Events_owned _ _ _ _ He) x Hx) as (_ & -> & _). Qed.

Lemma state_u32 l x : chain_record rs_StateChanges l x → is_u32 (sc_LedgerSequence x).
Proof. intros ->%state_ledger. apply u32_range. Qed.

Lemma transfer_ledger l x : chain_record rs_Transfers l x → tr_LedgerSequence x = u32 (LedgerSeq (chain l)).
Proof. intros (w & r & He & Hx). by destruct (at_transfers _ _ _ _ (Events_owned _ _ _ _ He) x Hx) as (_ & -> & _). Qed.

Lemma transfer_u32 l x : chain_record rs_Transfers l x → is_u32 (tr_LedgerSequence x).
Proof. intros ->%transfer_ledger. apply u32_range. Qed.

Lemma trustline_ledger l x : chain_record rs_TrustlineChanges l x → tl_LedgerSequence x = u32 (LedgerSeq (chain l)).
Proof. intros (w & r & He & Hx). by destruct (at_trustlines _ _ _ _ (Events_owned _ _ _ _ He) x Hx) as (_ & -> & _). Qed.

Lemma trustline_u32 l x : chain_record rs_TrustlineChanges l x → is_u32 (tl_LedgerSequence x).
Proof. intros ->%trustline_ledger. apply u32_range. Qed.

Lemma movement_ledger l x : chain_record rs_Movements l x → mv_LedgerSequence x = u32 (LedgerSeq (chain l)).
Proof. intros (w & r & He & Hx). by destruct (at_movements _ _ _ _ (Events_owned _ _ _ _ He) x Hx) as (_ & -> & _). Qed.

Lemma movement_u32 l x : chain_record rs_Movements l x → is_u32 (mv_LedgerSequence x).
Proof. intros ->%movement_ledger. apply u32_range. Qed.

Lemma trustline_flags l x : chain_record rs_TrustlineChanges l x → is_u32 (tl_Flags x).
Proof.
  intros (answers & r & Ha & Hx & Hs)%(record_source rs_TrustlineChanges); [|done].
  destruct (so_trustlines _ _ _ _ Hs x Hx) as (tx & chs & o & [k c] & Hin & Hchs & _ & [_ Hc]%indexed_lookup & Hat).
  destruct Hat as (entry & tl & asset & canonical & _ & _ & _ & _ & Hb).
  unfold buildTrustlineChange in Hb. sdk_inv Hb.
  assert (Hside : ∀ e t, ch_Pre c = e ∨ ch_Post c = e → trustlineSide e = SOk (Some t) → is_u32 (tle_Flags t)).
  { intros [e|] t; [|done]. apply (pl_flags _ _ Hpl l answers tx chs); try done. by eapply list_elem_of_lookup_2. }
  destruct v2 as [post|], v1 as [pre|]; try done; injection Hb as <-; simpl; eauto.
Qed.

(** A row of a record the chain derived is where its own columns say. *)
Lemma stored_movement m l x : movements_from net passphrase chain m → chain_record rs_Movements l x →
  is_Some (m !! movement_key net x) → m !! movement_key net x = Some (movement_row_of x).
Proof.
  intros Hm Hx [v Hv]. destruct (Hm _ v Hv eq_refl) as (l2 & y & Hy & Hk & ->). rewrite Hv. f_equal.
  injection Hk as _ Hid Hrole. by rewrite (chain_same_movement l l2 x y Hx Hy Hid Hrole).
Qed.

(** A COMPLETE page of a table that holds what was derived, under the records'
    own keys. *)
Lemma page_complete `{Collation} `{Countable K} {A B V} (part : Result → list A) (owner : A → string) (key : A → K)
    (row : A → V) (scan : K * V → A) (record : A → B) (ledger : A → Z) (asked : A → Prop) (P Q : K → V → bool)
    (m : gmap K V) out d contract kind from to :
  truthful net passphrase chain d → (∀ k b, db_backfill d !! k = Some b → b_next_to b < max_u32) →
  (∀ k v, m !! k = Some v → P k v = true → ∃ l x, chain_record part l x ∧ k = key x ∧ v = row x) →
  (∀ l x, chain_record part l x → scan (key x, row x) = x) →
  (∀ l x, chain_record part l x → ledger x = u32 (LedgerSeq (chain l))) →
  (∀ l x, chain_record part l x → P (key x) (row x) && Q (key x) (row x) = true ↔ asked x) →
  (∀ x, asked x → owner x = ct_ContractID contract) →
  (∀ l r x, Events_for l r → stored net (of_kind kind (records_of (ct_ContractID contract) r)) (get_tables d) →
     x ∈ part r → owner x = ct_ContractID contract → m !! key x = Some (row x)) →
  out ≡ₚ scan <$> sel (λ k r, P k r && Q k r) m →
  scanStatus false from to (coverage (reader_at net d d d d) contract kind from to
    (cursorSequence (reader_at net d d d d))) (cursorSequence (reader_at net d d d d)) = scanComplete →
  page_of_the_chain net passphrase chain (ct_ContractID contract) kind from to part ledger asked record d (record <$> out).
Proof.
  intros Htr Hmax Hrows Hscan Hledger Hasked Howner Hstored Hout Hs.
  destruct (chain_page passphrase chain part key row scan record P Q asked m out Hrows Hscan Hasked Hout) as [Hall Honly].
  split; [|intros e (l & x & Hx & ? & ->)%Honly; exists l, x; auto]. intros c l Hc Hlt Hl.
  assert (Hcur : cursorSequence (reader_at net d d d d) = cur_Sequence c).
  { unfold cursorSequence. simpl. unfold LoadCursor. simpl. rewrite Hc. simpl. by rewrite u32_small by apply (tr_cursor Htr c Hc). }
  rewrite Hcur in Hs.
  destruct (covered_ledger net passphrase chain d _ _ _ _ _ c l Htr Hmax Hs Hc Hlt Hl) as (r & Hr & Hst).
  exists r. split; [done|]. intros x Hx Hask.
  assert (Hch : chain_record part l x) by (destruct Hr as (watch & _ & ?); by exists watch, r).
  apply (Hall l x); try done. destruct Hr as (watch & _ & He). eapply (Hstored l r); try done; [by exists watch|by apply Howner].
Qed.

(** ... and of a history with a constraint. *)
Lemma history_page `{Collation} {A B V} (conflict : V → V → bool) (part : Result → list A) (owner : A → string)
    (id : A → string) (row : A → V) (scan : (string * string) * V → A) (record : A → B) (ledger : A → Z) (asked : A → Prop)
    (P Q : string * string → V → bool) (m : gmap (string * string) V) out d contract kind from to :
  truthful net passphrase chain d → (∀ k b, db_backfill d !! k = Some b → b_next_to b < max_u32) →
  rows_from net passphrase chain part id row m →
  (∀ k v, P k v = true → k.1 = net) →
  (∀ l x, chain_record part l x → scan ((net, id x), row x) = x) →
  (∀ l x, chain_record part l x → ledger x = u32 (LedgerSeq (chain l))) →
  (∀ l x, chain_record part l x → P (net, id x) (row x) && Q (net, id x) (row x) = true ↔ asked x) →
  (∀ x, asked x → owner x = ct_ContractID contract) →
  (∀ l1 l2 x y, chain_record part l1 x → chain_record part l2 y → conflict (row x) (row y) = true → x = y) →
  (∀ r x, stored net (of_kind kind (records_of (ct_ContractID contract) r)) (get_tables d) →
     x ∈ part r → owner x = ct_ContractID contract → taken conflict net (row x) m = true) →
  out ≡ₚ scan <$> sel (λ k r, P k r && Q k r) m →
  scanStatus false from to (coverage (reader_at net d d d d) contract kind from to
    (cursorSequence (reader_at net d d d d))) (cursorSequence (reader_at net d d d d)) = scanComplete →
  page_of_the_chain net passphrase chain (ct_ContractID contract) kind from to part ledger asked record d (record <$> out).
Proof.
  intros Htr Hmax Hrows Hkey Hscan Hledger Hasked Howner Hsame Hstored.
  apply (page_complete part owner (λ x, (net, id x)) row scan record ledger asked P Q); try done.
  - intros [n k] v Hv Hn%Hkey. simpl in Hn. subst n. destruct (Hrows k v Hv) as (l & x & ? & -> & ->). by exists l, x.
  - intros l r x [watch He] Hst Hx Ho. eapply (stored_row net passphrase chain conflict part); [exact Hsame|exact Hrows| |].
    + exists watch, r. split; [exact He|exact Hx].
    + by eapply Hstored.
Qed.
End histories.

(** ** Properties *)

(** C3.  COMPLETE means complete on the chain, in every history.  When transactions
    are identified by their hash and by their position, and no walk is anchored at
    the last 32-bit ledger, a page that the state,
    transfer, trustline or movement endpoint declares COMPLETE, read from one
    database the components can reach, holds exactly what the chain derives and the
    query asks for: of the contract, in the range, passing every filter, after the
    resume position.  When the range starts below the cursor, every ledger of it
    was read with the contract watched for that kind and each record of that
    reading the query asks for is in the page; and every record of the page is one
    a ledger of the chain derives, in the range, and asked for. *)
Theorem complete_histories_of_the_chain `{S : SDK} `{!SDKChanges} `{SDKValidators} `{!Codec movementsCursorPayload}
    `{!Codec trustlinesCursorPayload} `{!Codec transfersCursorPayload} `{!Codec stateCursorPayload} `{Collation}
    (net passphrase contractID : string) (chain : Z → LedgerCloseMeta) (ps : Values) (d : db) :
  rtc (sys_step net passphrase chain) empty_db d → placed passphrase chain →
  (∀ k b, db_backfill d !! k = Some b → b_next_to b < max_u32) →
  (∀ resp, handleStateHistory net (reader_at net d d d d) contractID ps = Reply resp →
     shr_ScanStatus resp = scanComplete →
     ∃ q, stateHistoryQuery net ps contractID = Reply q ∧ sq_ContractID q = contractID ∧ sq_ToLedger q ≠ 0 ∧
       page_of_the_chain net passphrase chain contractID KindState (sq_FromLedger q) (sq_ToLedger q)
         rs_StateChanges sc_LedgerSequence (asks_state_change q) state_change_record d (shr_Changes resp)) ∧
  (∀ resp, handleTransfers net (reader_at net d d d d) contractID ps = Reply resp →
     tfs_ScanStatus resp = scanComplete →
     ∃ q, transfersQuery net ps contractID = Reply q ∧ tq_ContractID q = contractID ∧ tq_ToLedger q ≠ 0 ∧
       page_of_the_chain net passphrase chain contractID KindTransfers (tq_FromLedger q) (tq_ToLedger q)
         rs_Transfers tr_LedgerSequence (asks_transfer q) transfer_record d (tfs_Transfers resp)) ∧
  (∀ resp, handleTrustlineHistory net (reader_at net d d d d) contractID ps = Reply resp →
     thr_ScanStatus resp = scanComplete →
     ∃ q, trustlineHistoryQuery net ps contractID = Reply q ∧ lq_ContractID q = contractID ∧ lq_ToLedger q ≠ 0 ∧
       page_of_the_chain net passphrase chain contractID KindTrustlines (lq_FromLedger q) (lq_ToLedger q)
         rs_TrustlineChanges tl_LedgerSequence (asks_trustline_change q) trustline_change_record d (thr_Changes resp)) ∧
  (∀ resp, handleMovements net (reader_at net d d d d) contractID ps = Reply resp →
     mvs_ScanStatus resp = scanComplete →
     ∃ q, movementsQuery net ps contractID = Reply q ∧ mq_ContractID q = contractID ∧ mq_ToLedger q ≠ 0 ∧
       page_of_the_chain net passphrase chain contractID KindMovements (mq_FromLedger q) (mq_ToLedger q)
         rs_Movements mv_LedgerSequence (asks_movement q) movement_record d (mvs_Movements resp)).
Proof.
  intros Hrtc Hpl Hmax. pose proof (sys_truthful net passphrase chain d Hrtc) as Htr.
  destruct (tr_sound Htr) as (_ & Hstates & Htransfers & Htrustlines & Hmovements).
  split_and!; intros resp Hh Hs.
  - unfold handleStateHistory in Hh. complete_reply Hh Hs. split; [by eapply stateHistoryQuery_contract|split; [done|]].
    eapply (history_page net passphrase chain state_change_conflict rs_StateChanges sc_ContractID sc_ID state_change_row_of scanStateChange
      state_change_record sc_LedgerSequence (asks_state_change q) (state_change_matches net q) (λ k _, after_text (sq_AfterID q) k.2)); try done.
    + apply state_change_matches_key.
    + intros l x Hx. by eapply scanStateChange_row, state_u32.
    + apply state_ledger.
    + intros l x Hx. by apply asks_state_change_spec, (state_u32 passphrase chain l).
    + intros x [-> _]. by eapply stateHistoryQuery_contract.
    + intros l1 l2 x y. by eapply chain_same_state.
    + intros r x Hst Hx Ho. apply (st_states _ _ _ Hst). by apply list_elem_of_filter.
  - unfold handleTransfers in Hh. complete_reply Hh Hs. split; [by eapply transfersQuery_contract|split; [done|]].
    eapply (history_page net passphrase chain transfer_conflict rs_Transfers tr_ContractID tr_ID transfer_row_of scanTransfer
      transfer_record tr_LedgerSequence (asks_transfer q) (transfer_matches net q) (λ k _, after_text (tq_AfterID q) k.2)); try done.
    + apply transfer_matches_key.
    + intros l x Hx. by eapply scanTransfer_row, transfer_u32.
    + apply transfer_ledger.
    + intros l x _. apply asks_transfer_spec.
    + intros x [-> _]. by eapply transfersQuery_contract.
    + intros l1 l2 x y. by eapply chain_same_transfer.
    + intros r x Hst Hx Ho. apply (st_transfers _ _ _ Hst). by apply list_elem_of_filter.
  - unfold handleTrustlineHistory in Hh. complete_reply Hh Hs. split; [by eapply trustlineHistoryQuery_contract|split; [done|]].
    eapply (history_page net passphrase chain trustline_change_conflict rs_TrustlineChanges tl_ContractID tl_ID trustline_change_row_of scanTrustlineChange
      trustline_change_record tl_LedgerSequence (asks_trustline_change q) (trustline_change_matches net q) (λ k _, after_text (lq_AfterID q) k.2)); try done.
    + apply trustline_change_matches_key.
    + intros l x Hx. apply scanTrustlineChange_row; [by eapply trustline_u32|by eapply trustline_flags].
    + apply trustline_ledger.
    + intros l x _. apply asks_trustline_change_spec.
    + intros x [-> _]. by eapply trustlineHistoryQuery_contract.
    + intros l1 l2 x y. by eapply chain_same_trustline.
    + intros r x Hst Hx Ho. apply (st_trustlines _ _ _ Hst). by apply list_elem_of_filter.
  - unfold handleMovements in Hh. complete_reply Hh Hs. split; [by eapply movementsQuery_contract|split; [done|]].
    eapply (page_complete net passphrase chain rs_Movements mv_ContractID (movement_key net) movement_row_of
      scanMovement movement_record mv_LedgerSequence (asks_movement q) (movement_matches net q)
      (λ k _, after_text2 (mq_AfterID q) (mq_AfterRole q) (k.1.2, k.2))); try done.
    + intros k v Hv Hk%movement_matches_key. apply (Hmovements k v Hv). by rewrite Hk.
    + intros l x Hx. by eapply scanMovement_row, movement_u32.
    + apply movement_ledger.
    + intros l x _. apply asks_movement_spec.
    + intros x [-> _]. by eapply movementsQuery_contract.
    + intros l r x [watch He] Hst Hx Ho. eapply stored_movement; try done; [by exists watch, r|].
      apply (st_movements _ _ _ Hst). by apply list_elem_of_filter.
Qed.

(** ** Witnesses *)

#[local] Existing Instance demo_sdk.
#[local] Existing Instance demo_changes.
#[local] Existing Instance bytewise.
#[local] Existing Instance lax_validators.
#[local] Instance no_movements : Codec movementsCursorPayload := void_codec _.
#[local] Instance no_trustlines : Codec trustlinesCursorPayload := void_codec _.
#[local] Instance no_transfers : Codec transfersCursorPayload := void_codec _.
#[local] Instance no_states : Codec stateCursorPayload := void_codec _.

(** A chain with one payment: in ledger 9 the token [CT] moves 7 into [CA]. *)
Definition pay_tx : demo_tx := mkDemoTx 1 (SOk true) (SOk [[demo_transfer_event]]).
Definition pay_chain (l : Z) : @LedgerCloseMeta demo_sdk := if l =? 9 then (9, [Some pay_tx]) else (l, []).
Definition pay_result (l : Z) : Result := default no_result (Events (pay_chain l) "pass" demo_watch).

Lemma pay_one l answers tx : ReadLedger "pass" (pay_chain l) = Some answers → Some tx ∈ answers → l = 9 ∧ tx = pay_tx.
Proof.
  unfold pay_chain. destruct (Z.eqb_spec l 9) as [->|]; intros [= <-] Hin; [|by apply elem_of_nil in Hin].
  apply list_elem_of_singleton in Hin. by injection Hin as ->.
Qed.

Lemma pay_placed : placed "pass" pay_chain.
Proof.
  split; [split|..]; intros *; intros H1 H2; intros *.
  - intros H3 H4 _. destruct (pay_one _ _ _ H1 H3) as [-> ->], (pay_one _ _ _ H2 H4) as [-> ->]. done.
  - destruct (pay_one _ _ _ H1 H2) as [-> ->]. by intros [= <-].
  - by intros [= <-].
  - destruct (pay_one _ _ _ H1 H2) as [-> ->]. by intros [= <-].
  - intros H3 H4 _ _. destruct (pay_one _ _ _ H1 H3) as [-> ->], (pay_one _ _ _ H2 H4) as [-> ->]. done.
  - intros [= <-] Hc. by apply elem_of_nil in Hc.
Qed.

(** [CA] is registered for movements at ledger 9; the live loop commits 9 and 10. *)
Definition pay_live (l : Z) : Tx unit :=
  CommitLedger "testnet" (mkLedgerRecord l "h" "" (5 * l)) (all_records (pay_result l)).

Definition pay_db1 : db := after (UpsertContract (mkContract "testnet" "CA" "api" ["movements"] None 0)) empty_db.
Definition pay_db2 : db := after (EnsureBackfill "testnet" "CA" 9 8 ["movements"]) pay_db1.
Definition pay_db3 : db := after (pay_live 9) pay_db2.
Definition pay_db : db := after (pay_live 10) pay_db3.

Lemma pay_walk k b :
  db_backfill pay_db2 !! k = Some b ∨ db_backfill pay_db3 !! k = Some b ∨ db_backfill pay_db !! k = Some b →
  k = ("testnet", "CA") ∧ b_next_to b = 8 ∧ b_covered_kinds b = ["movements"].
Proof.
  intros [Hb|[Hb|Hb]]; apply elem_of_map_to_list in Hb; revert Hb; vm_compute map_to_list;
    rewrite elem_of_cons, elem_of_nil; intros [[= -> ->]|[]]; done.
Qed.

Lemma pay_reachable : rtc (sys_step "testnet" "pass" pay_chain) empty_db pay_db.
Proof.
  assert (Hknows : ∀ l d, d = pay_db2 ∨ d = pay_db3 → knows "testnet" "pass" pay_chain demo_watch d l).
  { intros l d Hd cid b kind Hb Hk _. destruct (pay_walk ("testnet", cid) b) as ([= ->] & _ & Hkinds).
    - destruct Hd as [->| ->]; auto.
    - rewrite Hkinds in Hk. apply list_elem_of_singleton in Hk as ->. left. vm_compute. reflexivity. }
  apply (rtc_l _ _ pay_db1).
  { eapply AsideStep, (ContractStep _ _ _ _ _ (mkContract "testnet" "CA" "api" ["movements"] None 0) _ 1). vm_compute. reflexivity. }
  apply (rtc_l _ _ pay_db2).
  { eapply AsideStep, (RegisterStep _ _ _ _ _ "CA" 9 8 ["movements"] 1); [uarith..|done|]. vm_compute. reflexivity. }
  apply (rtc_l _ _ pay_db3).
  { eapply (LiveStep _ _ _ _ _ demo_watch (mkLedgerRecord 9 "h" "" 45) (pay_result 9) 1);
      [vm_compute; reflexivity|simpl; uarith| |by apply Hknows; left|vm_compute; reflexivity].
    change (∀ cid b, db_backfill pay_db2 !! ("testnet", cid) = Some b → 9 ≤ b_next_to b + 1).
    intros cid b Hb. destruct (pay_walk ("testnet", cid) b) as (_ & -> & _); [by left|]. simpl. lia. }
  apply rtc_once.
  eapply (LiveStep _ _ _ _ _ demo_watch (mkLedgerRecord 10 "h" "" 50) (pay_result 10) 1);
    [vm_compute; reflexivity|simpl; uarith| |by apply Hknows; right|vm_compute; reflexivity].
  vm_compute. discriminate.
Qed.

(** The page of [CA]'s movements, and what it is complete for. *)
Lemma complete_histories_of_the_chain_witness :
  ∃ resp, handleMovements "testnet" (reader_at "testnet" pay_db pay_db pay_db pay_db) "CA"
      [("startLedger", "9"); ("endLedger", "10")] = Reply resp ∧
    mvs_ScanStatus resp = scanComplete ∧ length (mvs_Movements resp) = 1%nat ∧
    page_of_the_chain "testnet" "pass" pay_chain "CA" KindMovements 9 10 rs_Movements mv_LedgerSequence
      (asks_movement (mkMovementQuery "CA" "" "" "" 9 10 "" "" 100)) movement_record pay_db (mvs_Movements resp).
Proof.
  eexists. split; [vm_compute; reflexivity|]. split; [reflexivity|]. split; [reflexivity|].
  edestruct (complete_histories_of_the_chain "testnet" "pass" "CA" pay_chain
      [("startLedger", "9"); ("endLedger", "10")] pay_db) as (_ & _ & _ & Hm).
  - exact pay_reachable.
  - exact pay_placed.
  - intros k b Hb. destruct (pay_walk k b) as (_ & -> & _); [by right; right|uarith].
  - edestruct Hm as (q & Hq & _ & _ & Hpage); [vm_compute; reflexivity|reflexivity|].
    vm_compute in Hq. injection Hq as <-. exact Hpage.
Defined.
