(* ===== verification/Accepted.v ===== *)
(** * What the chain derives is never refused

    An insert skips a row its constraint already holds, but fails on a second
    row under the same primary key.  The ids are minted from a position on the
    chain, so two records of the chain that share an id are the same record;
    hence no constraint refuses a commit of chain records on the tables the
    system reaches.  What a commit may still fail on is a text: the asset and the
    muxed id of a transfer are whatever bytes a contract put in its event. *)

From S2P Require Import Prelude Db Rows Registrations Commit Registry Api Extract Loop Workers System Derived Provenance Coverage Histories.

#[local] Open Scope extract_scope.

(** ** Definitions *)

Section opens.
Context `{S : SDK} `{!SDKChanges} (passphrase : string) (chain : Z → LedgerCloseMeta).

(** Every ledger of the chain opens. *)
Definition opens : Prop := ∀ l, is_Some (ReadLedger passphrase (chain l)).

(** No transfer of the chain carries a text Postgres refuses. *)
Definition storable : Prop := ∀ l x, chain_record passphrase chain rs_Transfers l x → transfer_text x = true.

(** Extraction answers on a ledger that opens, whatever is watched. *)
Lemma Events_opens (Hopens : opens) watch l : is_Some (Events (chain l) passphrase watch).
Proof. unfold Events. destruct (Nat.eqb _ 0); [done|]. by destruct (Hopens l) as [answers ->]. Qed.
End opens.

(** ** Lemmas *)

(** *** Inserts *)
Section inserts.
Context {A V : Type} (conflict : V → V → bool) (net : string) (id : A → string) (row : A → V).

(** Rows that clash on the primary key only when the constraint absorbs them
    are all inserted. *)
Lemma insert_rows_accepted (good : string → V → Prop) xs m :
  (∀ i v w, good i v → good i w → conflict v w = true) →
  (∀ i v, m !! (net, i) = Some v → good i v) → (∀ x, x ∈ xs → good (id x) (row x)) →
  ∃ m', insert_rows conflict net id row xs m = Ok m'.
Proof.
  intros Hgood. revert m. induction xs as [|x xs IH]; intros m Hm Hxs; [by exists m|].
  rewrite insert_rows_cons. assert (Hx : good (id x) (row x)) by (apply Hxs; by left).
  assert (Hrest : ∀ y, y ∈ xs → good (id y) (row y)) by (intros y ?; apply Hxs; by right).
  unfold insert_once. destruct (taken conflict net (row x) m) eqn:Ht; [by apply IH|].
  destruct (m !! (net, id x)) as [w|] eqn:Hw.
  - assert (taken conflict net (row x) m = true); [|congruence].
    apply taken_spec. exists (id x), w. split; [done|]. apply (Hgood (id x)); [by apply Hm|done].
  - apply IH; [|done]. intros i v [[[= <-] <-]|[_ Hv]]%lookup_insert_Some; [done|by apply Hm].
Qed.
End inserts.

(** *** The contract of a trustline record *)

(** The record's contract is the one its asset wraps to. *)
Definition wraps `{SDK} (passphrase : string) (x : TrustlineChange) : Prop :=
  ∃ a, StringCanonical a = SOk (tl_Asset x) ∧ derive passphrase a = Some (tl_ContractID x).

Lemma wraps_contract `{SDK} `{!SDKLaws} passphrase x y :
  wraps passphrase x → wraps passphrase y → tl_Asset x = tl_Asset y → tl_ContractID x = tl_ContractID y.
Proof.
  intros (a & Ha & Hx) (b & Hb & Hy) Heq. rewrite <- Heq in Hb. unfold derive in Hx, Hy.
  rewrite (canonical_asset a b _ passphrase Ha Hb) in Hx. congruence.
Qed.

Section naming.
Context `{S : SDK} `{!SDKChanges} `{!SDKLaws} (watch : Snapshot) (scp : scope).

Abbreviation pass := (default "" (sc_assets scp)).

Definition lines_named (r : Result) : Prop :=
  ∀ x, x ∈ rs_TrustlineChanges r → ∃ p, sc_assets scp = Some p ∧ wraps p x.

(** The memo stays true, and so do the names. *)
Definition naming {A} (t : X A) : Prop := ∀ m, memo_ok pass m.2 → lines_named m.1 →
  memo_ok pass (t m).2.2 ∧ lines_named (t m).2.1.

Lemma naming_of {A} (t : X A) : uniform pass t → keeps lines_named t → naming t.
Proof.
  intros (o & d & Ht) Hk [r memo] Hm Hr. split; [|by apply Hk].
  destruct (Ht r memo Hm) as (memo' & Hm' & ->). exact Hm'.
Qed.

Lemma naming_bind {A B} (t : X A) (f : A → X B) : naming t → (∀ a, naming (f a)) → naming (x_bind t f).
Proof.
  intros Ht Hf m Hm Hr. destruct (Ht m Hm Hr) as [Hm1 Hr1]. unfold x_bind.
  destruct (t m) as [[a|] m1]; [by apply Hf|done].
Qed.

Lemma lines_emit d : rs_TrustlineChanges d = [] → keeps lines_named (emit d).
Proof. intros Hd. apply keeps_emit. intros r Hr x. simpl. rewrite Hd, app_nil_r. apply Hr. Qed.

(** [unlined] decomposes a computation that emits no trustline record. *)
Ltac unlined :=
  repeat first
    [ apply keeps_ret | apply keeps_call | apply keeps_try | apply keeps_contractIDFor
    | apply lines_emit; by repeat case_match
    | apply keeps_bind; [|intros ?]
    | match goal with
      | |- keeps _ (match ?x with _ => _ end) => destruct x
      | |- keeps _ (if ?x then _ else _) => destruct x
      end ].

Lemma lines_txEvent ev o : keeps lines_named (txEvent watch scp ev o).
Proof. unfold txEvent, txTransfer, record_or. unlined. Qed.

Lemma lines_txEvents tx seq closedAt : keeps lines_named (txEvents watch scp tx seq closedAt).
Proof.
  unfold txEvents, tx_origin. apply keeps_bind; [unlined|]. intros [ops|]; [|unlined].
  apply keeps_bind; [unlined|]. intros o. apply keeps_bind; [|intros; unlined].
  assert (Hops : ∀ j i, keeps lines_named (operationEvents watch scp o j i ops)); [|apply Hops].
  induction ops as [|evs ops IH]; intros j i; simpl; [unlined|].
  apply keeps_bind; [|intros _; apply IH]. clear IH. generalize (i32 j). intros op. revert i.
  induction evs as [|ev evs IH]; intros i; simpl; [unlined|].
  apply keeps_bind; [apply lines_txEvent|intros _; apply IH].
Qed.

Lemma lines_stateChange ch o : keeps lines_named (stateChange watch ch o).
Proof. unfold stateChange, record_or. unlined. Qed.

Lemma naming_call_bind {A B} (s : sdk A) (f : A → X B) :
  (∀ a, s = SOk a → naming (f a)) → naming (x_bind (call s) f).
Proof. intros Hf m Hm Hr. unfold x_bind, call. destruct s; [by apply Hf|done..]. Qed.

Lemma naming_contract_bind {B} p asset (f : option string → X B) : sc_assets scp = Some p →
  (∀ id, (∀ cid, id = Some cid → derive p asset = Some cid) → naming (f id)) →
  naming (x_bind (contractIDFor p asset) f).
Proof.
  intros Hp Hf [res memo] Hm Hr. cbn [fst snd] in Hm, Hr.
  destruct (acts_contractIDFor pass asset res memo Hm) as (memo' & Hm' & Hid). rewrite res_app_nil_r in Hid.
  assert (Hpass : pass = p) by (by rewrite Hp). rewrite Hpass in Hid. unfold x_bind. rewrite Hid.
  destruct (StringCanonical asset) as [key| |]; [|done..].
  destruct (asset_ContractID asset p) as [raw| |] eqn:Hraw; [|by apply (Hf None)|done].
  apply Hf; [|done..]. intros cid. unfold derive. by rewrite Hraw.
Qed.

Lemma naming_emit x : (∃ p, sc_assets scp = Some p ∧ wraps p x) → naming (emit (of_trustlines [x])).
Proof.
  intros Hx m Hm Hr. split; [done|]. simpl. intros y [Hy|Hy]%elem_of_app; [by apply Hr|].
  by apply list_elem_of_singleton in Hy as ->.
Qed.

Lemma naming_trustline p ch o : sc_assets scp = Some p → naming (trustline watch p ch o).
Proof.
  intros Hp. assert (Hret : naming (ret tt)) by (apply naming_of; [apply uniform_ret|unlined]).
  assert (Hemit : naming (emit one_SuppressedTrustline)) by (apply naming_of; [apply uniform_emit|unlined]).
  unfold trustline. destruct (sideOf ch) as [entry|]; [|done].
  apply naming_call_bind. intros [tl|] _; [|done]. destruct (IsPoolShare _); [done|].
  apply naming_call_bind. intros asset _. apply naming_contract_bind; [done|].
  intros [cid|] Hcid; [|done]. destruct (watches watch cid KindTrustlines); [|done].
  apply naming_call_bind. intros key Hkey m Hm Hr. unfold record_or, x_bind, try.
  destruct (buildTrustlineChange ch tl cid key o) as [x| |] eqn:Hb; [| |done]; [|by apply Hemit].
  apply naming_emit; [|done..]. exists p. split; [done|]. exists asset. rewrite Hkey, (Hcid cid eq_refl).
  unfold buildTrustlineChange in Hb. sdk_inv Hb. by destruct v2, v1; try done; injection Hb as <-.
Qed.

Lemma naming_ledgerChange o i ch : naming (ledgerChange watch scp o i ch).
Proof.
  unfold ledgerChange. destruct (ch_Type ch).
  - apply naming_of; [apply uniform_stateChange|apply lines_stateChange].
  - destruct (sc_assets scp) as [p|] eqn:Hp; [by apply naming_trustline|].
    apply naming_of; [apply uniform_ret|unlined].
  - apply naming_of; [apply uniform_ret|unlined].
Qed.

Lemma naming_tx_body seq closedAt tx : naming (tx_body watch scp seq closedAt tx).
Proof.
  unfold tx_body. apply naming_bind; [apply naming_of; [apply uniform_call|unlined]|]. intros ok.
  destruct (negb ok); [apply naming_of; [apply uniform_emit|unlined]|].
  apply naming_bind; [apply naming_of; [apply uniform_txEvents|apply lines_txEvents]|]. intros ok1.
  apply naming_bind.
  - unfold txLedgerChanges. apply naming_bind; [apply naming_of; [apply uniform_try|unlined]|].
    intros [chs|]; [|apply naming_of; [apply uniform_ret|unlined]].
    apply naming_bind; [apply naming_of; [apply uniform_tx_origin|unfold tx_origin; unlined]|]. intros o.
    apply naming_bind; [|intros _; apply naming_of; [apply uniform_ret|unlined]].
    assert (Hchs : ∀ i, naming (x_iter (ledgerChange watch scp o) i chs)); [|apply Hchs].
    induction chs as [|ch chs IH]; intros i; simpl; [apply naming_of; [apply uniform_ret|unlined]|].
    apply naming_bind; [apply naming_ledgerChange|intros _; apply IH].
  - intros ok2. destruct (_ || _); (apply naming_of; [|unlined]); [apply uniform_emit|apply uniform_ret].
Qed.

Lemma naming_answers seq closedAt m answers : memo_ok pass m.2 → lines_named m.1 →
  lines_named (foldl (readTx watch scp seq closedAt) m answers).1.
Proof.
  revert m. induction answers as [|a answers IH]; intros m Hm Hr; simpl; [done|].
  assert (Hone : ∀ r, lines_named r → lines_named (res_app r one_SuppressedTx))
    by (intros r Hx x; simpl; rewrite app_nil_r; apply Hx).
  destruct a as [tx|]; simpl; [|by apply IH; [|apply Hone]].
  unfold processTx, recover. fold (tx_body watch scp seq closedAt tx).
  destruct (naming_tx_body seq closedAt tx m Hm Hr) as [Hm1 Hr1].
  destruct (tx_body watch scp seq closedAt tx m) as [[[]|] m1]; [by apply IH|].
  apply IH; [exact Hm1|by apply Hone].
Qed.
End naming.

Lemma Events_named `{S : SDK} `{!SDKChanges} `{!SDKLaws} lcm passphrase watch r x :
  Events lcm passphrase watch = Some r → x ∈ rs_TrustlineChanges r → wraps passphrase x.
Proof.
  unfold Events. destruct (Nat.eqb _ 0); [intros [= <-] Hx; by apply elem_of_nil in Hx|].
  destruct (ReadLedger passphrase lcm) as [answers|]; [|done]. intros [= <-] Hx.
  destruct (naming_answers watch (scopeOf passphrase watch) (u32 (LedgerSeq lcm)) (CloseTime lcm)
    (no_result, ∅) answers (memo_ok_empty _)) with (x := x) as (p & Hp & Hn); [by intros y ?%elem_of_nil|done|].
  unfold scopeOf in Hp. simpl in Hp. destruct (AnyKind _ _); [|done]. by injection Hp as <-.
Qed.

(** *** Records with one id *)
Section ids.
Context `{S : SDK} `{!SDKChanges} `{!SDKLaws} (passphrase : string) (chain : Z → LedgerCloseMeta).
Context (Hpl : placed passphrase chain).

Abbreviation answers_of l := (ReadLedger passphrase (chain l)).
Abbreviation chain_record := (chain_record passphrase chain).
Abbreviation change_sources l := (from_change (u32 (LedgerSeq (chain l))) (CloseTime (chain l))).
Abbreviation sources l := (from_event (u32 (LedgerSeq (chain l))) (CloseTime (chain l))).

(** An id names a place of the chain. *)
Definition id_of_event (o : origin) (n : Z * Z * ContractEvent) : string := record_id (or_prefix o) n.1.2.
Definition id_of_change (o : origin) (c : Z * Change) : string := record_id (or_prefix o) (i32 c.1).

Lemma change_range l answers tx chs o c : answers_of l = Some answers → Some tx ∈ answers → GetChanges tx = SOk chs →
  origin_of (u32 (LedgerSeq (chain l))) (CloseTime (chain l)) tx = SOk o → c ∈ indexed 0 chs →
  0 ≤ or_prefix o < 9223372036854775808 ∧ 0 ≤ i32 c.1 < 2147483648.
Proof.
  intros Ha Hin Hchs Ho Hc. split.
  - destruct (origin_of_fields _ _ _ _ Ho) as (_ & Hp & _). by eapply (pl_range _ _ Hpl).
  - pose proof (pl_changes _ _ Hpl l answers tx chs Ha Hin Hchs). destruct c as [k a].
    apply indexed_lookup in Hc as [? Hl%lookup_lt_Some]. simpl. rewrite i32_small; lia.
Qed.

(** Records built from a change under one id are built from the same one. *)
Lemma same_change_id {A} (built : origin → Z * Change → A → Prop) (id : A → string) l1 l2 as1 as2 x1 x2 :
  (∀ o c x, built o c x → id x = id_of_change o c) →
  answers_of l1 = Some as1 → answers_of l2 = Some as2 →
  change_sources l1 as1 built x1 → change_sources l2 as2 built x2 → id x1 = id x2 →
  ∃ o c, built o c x1 ∧ built o c x2.
Proof.
  intros Hid Ha1 Ha2 (tx1 & chs1 & o1 & c1 & Hin1 & Hchs1 & Ho1 & Hc1 & Hb1)
    (tx2 & chs2 & o2 & c2 & Hin2 & Hchs2 & Ho2 & Hc2 & Hb2) Heq.
  rewrite (Hid _ _ _ Hb1), (Hid _ _ _ Hb2) in Heq.
  pose proof (change_range l1 as1 tx1 chs1 o1 c1 Ha1 Hin1 Hchs1 Ho1 Hc1).
  pose proof (change_range l2 as2 tx2 chs2 o2 c2 Ha2 Hin2 Hchs2 Ho2 Hc2).
  apply record_id_inj in Heq as [Hp Hi]; [|lia..].
  destruct (origin_of_fields _ _ _ _ Ho1) as (_ & Hp1 & _), (origin_of_fields _ _ _ _ Ho2) as (_ & Hp2 & _).
  rewrite <- Hp in Hp2.
  destruct (pl_position _ _ Hpl l1 l2 as1 as2 tx1 tx2 _ Ha1 Ha2 Hin1 Hin2 Hp1 Hp2) as [<- <-].
  assert (chs2 = chs1 ∧ o2 = o1) as [-> ->] by (split; congruence).
  assert (c2 = c1) as -> by (eapply indexed_index; [by eapply (pl_changes _ _ Hpl)|done..]).
  by exists o1, c1.
Qed.

Lemma state_id o c x : state_at o c x → sc_ID x = id_of_change o c.
Proof.
  intros (entry & data & cid & _ & _ & _ & Hb). unfold buildStateChange in Hb. sdk_inv Hb. by injection Hb as <-.
Qed.

Lemma trustline_id o c x : trustline_at o c x → tl_ID x = id_of_change o c ∧
  ∃ entry tl asset, sideOf c.2 = Some entry ∧ GetTrustLine entry = SOk (Some tl) ∧
    ToAsset (tle_Asset tl) = SOk asset ∧ StringCanonical asset = SOk (tl_Asset x).
Proof.
  intros (entry & tl & asset & canonical & He & Ht & Ha & Hc & Hb). unfold buildTrustlineChange in Hb. sdk_inv Hb.
  destruct v2, v1; try done; injection Hb as <-; (split; [done|]); by exists entry, tl, asset.
Qed.

Lemma chain_id_state l1 l2 x y : chain_record rs_StateChanges l1 x → chain_record rs_StateChanges l2 y →
  sc_ID x = sc_ID y → x = y.
Proof.
  intros (as1 & r1 & Ha1 & Hx & Hs1)%(record_source passphrase chain rs_StateChanges) (as2 & r2 & Ha2 & Hy & Hs2)%(record_source passphrase chain rs_StateChanges) Heq; [|done..].
  destruct (same_change_id state_at sc_ID l1 l2 as1 as2 x y state_id Ha1 Ha2) as (o & c & Hb1 & Hb2);
    [by eapply so_states|by eapply so_states|done|]. by eapply state_at_unique.
Qed.

Lemma chain_id_trustline l1 l2 x y : chain_record rs_TrustlineChanges l1 x → chain_record rs_TrustlineChanges l2 y →
  tl_ID x = tl_ID y → x = y.
Proof.
  intros H1 H2 Heq.
  assert (Hn1 : wraps passphrase x) by (destruct H1 as (w & r & He & Hx); by eapply Events_named).
  assert (Hn2 : wraps passphrase y) by (destruct H2 as (w & r & He & Hx); by eapply Events_named).
  apply (record_source passphrase chain rs_TrustlineChanges) in H1 as (as1 & r1 & Ha1 & Hx & Hs1); [|done].
  apply (record_source passphrase chain rs_TrustlineChanges) in H2 as (as2 & r2 & Ha2 & Hy & Hs2); [|done].
  destruct (same_change_id trustline_at tl_ID l1 l2 as1 as2 x y (λ o c x H, proj1 (trustline_id o c x H)) Ha1 Ha2)
    as (o & c & Hb1 & Hb2); [by eapply so_trustlines|by eapply so_trustlines|done|].
  eapply trustline_at_unique; [exact Hb1|exact Hb2|]. apply (wraps_contract passphrase); [done..|].
  destruct (trustline_id o c x Hb1) as (_ & e1 & t1 & a1 & He1 & Ht1 & Hx1 & Hc1).
  destruct (trustline_id o c y Hb2) as (_ & e2 & t2 & a2 & He2 & Ht2 & Hx2 & Hc2). congruence.
Qed.

Lemma chain_id_transfer l1 l2 x y : chain_record rs_Transfers l1 x → chain_record rs_Transfers l2 y →
  tr_ID x = tr_ID y → x = y.
Proof.
  intros (as1 & r1 & Ha1 & Hx & Hs1)%(record_source passphrase chain rs_Transfers) (as2 & r2 & Ha2 & Hy & Hs2)%(record_source passphrase chain rs_Transfers) Heq; [|done..].
  destruct (one_event passphrase chain Hpl transfer_at l1 l2 as1 as2 x y Ha1 Ha2) as (o & n & Hb1 & Hb2);
    [by eapply so_transfers|by eapply so_transfers| |by eapply transfer_at_unique].
  intros o1 o2 n1 n2 [Hp1 Hn1] [Hp2 Hn2] (_ & _ & Hc1)%transfer_at_columns (_ & _ & Hc2)%transfer_at_columns.
  rewrite Hc1, Hc2 in Heq. apply record_id_inj in Heq as [-> ->]; [by auto|lia..].
Qed.
Lemma chain_id_event l1 l2 x y : chain_record rs_Events l1 x → chain_record rs_Events l2 y →
  ev_ID x = ev_ID y → x = y.
Proof.
  intros (w1 & r1 & He1 & Hx) (w2 & r2 & He2 & Hy) Heq.
  destruct (Events_come_from _ _ _ _ _ He1 Hx) as (tx1 & n1 & as1 & ops1 & o1 & c1 & Ha1 & Hin1 & Hops1 & Ho1 & Hn1 & Hc1 & _ & Hb1).
  destruct (Events_come_from _ _ _ _ _ He2 Hy) as (tx2 & n2 & as2 & ops2 & o2 & c2 & Ha2 & Hin2 & Hops2 & Ho2 & Hn2 & Hc2 & _ & Hb2).
  destruct (event_range passphrase chain Hpl l1 as1 tx1 ops1 o1 n1 Ha1 Hin1 Hops1 Ho1 Hn1) as [Hp1 Hi1].
  destruct (event_range passphrase chain Hpl l2 as2 tx2 ops2 o2 n2 Ha2 Hin2 Hops2 Ho2 Hn2) as [Hp2 Hi2].
  destruct (buildEvent_fields _ _ _ _ Hb1) as (_ & _ & _ & Hx1 & _), (buildEvent_fields _ _ _ _ Hb2) as (_ & _ & _ & Hx2 & _).
  cbn in Hx1, Hx2. rewrite Hx1, Hx2 in Heq. apply record_id_inj in Heq as [Hp Hi]; [|lia..].
  destruct (origin_of_fields _ _ _ _ Ho1) as (_ & Ht1 & _), (origin_of_fields _ _ _ _ Ho2) as (_ & Ht2 & _).
  rewrite <- Hp in Ht2.
  destruct (pl_position _ _ Hpl l1 l2 as1 as2 tx1 tx2 _ Ha1 Ha2 Hin1 Hin2 Ht1 Ht2) as [<- <-].
  assert (ops2 = ops1 ∧ o2 = o1) as [-> ->] by (split; congruence).
  pose proof (ha_count _ _ (pl_hashed _ _ Hpl) l1 as1 tx1 ops1 Ha1 Hin1 Hops1) as Hlen.
  assert (n2 = n1) as -> by (apply (numbered_index 0 0 ops1); (done || lia)).
  congruence.
Qed.

(** A history of chain records accepts every further one. *)
Lemma history_accepted {A V} (part : Result → list A) (conflict : V → V → bool) net id row xs m :
  (∀ v, conflict v v = true) →
  (∀ l1 l2 x y, chain_record part l1 x → chain_record part l2 y → id x = id y → x = y) →
  rows_from net passphrase chain part id row m → all_from passphrase chain part xs →
  ∃ m', insert_rows conflict net id row xs m = Ok m'.
Proof.
  intros Hrefl Hid Hm Hxs.
  apply (insert_rows_accepted conflict net id row (λ i v, ∃ l x, chain_record part l x ∧ i = id x ∧ v = row x)).
  - intros i v w (l1 & x & Hx & -> & ->) (l2 & y & Hy & Heq & ->). by rewrite (Hid l1 l2 x y Hx Hy Heq).
  - intros i v Hv. by apply Hm.
  - intros x Hx. destruct (Hxs x Hx) as [l Hl]. by exists l, x.
Qed.

Lemma add_records_accepted net r t :
  storable passphrase chain → sound_rows net passphrase chain t → from_chain passphrase chain r →
  ∃ t', add_records net r t = Ok t'.
Proof.
  intros Htext (He & Hs & Ht & Hl & _) (Re & Rs & Rt & Rl & _). unfold add_records.
  destruct (history_accepted rs_Events event_conflict net ev_ID event_row_of _ _ event_conflict_refl chain_id_event He Re) as [ev ->].
  destruct (history_accepted rs_StateChanges state_change_conflict net sc_ID state_change_row_of _ _ state_change_conflict_refl chain_id_state Hs Rs) as [sc ->].
  destruct (history_accepted rs_Transfers transfer_conflict net tr_ID transfer_row_of _ _ transfer_conflict_refl chain_id_transfer Ht Rt) as [tr Htr].
  assert (insert_transfers net (rc_transfers r) (tb_transfers t) = Ok tr) as ->.
  { apply insert_transfers_Ok. split; [|done]. apply Forall_forall. intros x [l Hx]%Rt. by eapply Htext. }
  destruct (history_accepted rs_TrustlineChanges trustline_change_conflict net tl_ID trustline_change_row_of _ _ trustline_change_conflict_refl chain_id_trustline Hl Rl) as [tl ->].
  by eexists.
Qed.
End ids.

(** ** What is refused *)

(** A transfer whose text Postgres refuses takes down whatever commit it is in. *)
Lemma refused_text net r t x : x ∈ rc_transfers r → transfer_text x = false → ∃ e, add_records net r t = Err e.
Proof.
  intros Hx Hbad. unfold add_records.
  destruct (insert_rows event_conflict _ _ _ _ _) as [ev|e]; [|by exists e].
  destruct (insert_rows state_change_conflict _ _ _ _ _) as [sc|e]; [|by exists e].
  destruct (insert_transfers _ _ _) as [tr|e] eqn:Htr; [exfalso|by exists e].
  apply insert_transfers_Ok in Htr as [Hall _]. rewrite Forall_forall in Hall. by rewrite (Hall x Hx) in Hbad.
Qed.

(** One such transfer of a watched contract holds the live loop up for good: no
    turn, however flawless, gets past its ledger. *)
Theorem hostile_transfer_stalls `{S : SDK} `{!SDKChanges} `{!LedgerHeaders} (cfg : Config) (tn : turn) (lp : loop) :
  (∀ lcm r, tn_get tn = Ok lcm → Events lcm (cf_Passphrase cfg) (tn_watch tn) = Some r →
     ∃ x, x ∈ rs_Transfers r ∧ transfer_text x = false) →
  unmoved lp (iterate cfg tn lp).2.
Proof.
  intros Hbad. destruct (iterate cfg tn lp) as [v lp'] eqn:Hit.
  apply iterate_cases in Hit as [?|(lcm & r & (Hget & _ & _ & Hev) & Hw & _)]; [done|exfalso].
  destruct (Hbad lcm r Hget Hev) as (x & Hx & Htext). unfold written in Hw. rewrite run_CommitLedger in Hw.
  destruct (refused_text (cf_Network cfg) (all_records r) (get_tables (lp_db lp)) x Hx Htext) as [e He]. by rewrite He in Hw.
Qed.

#[local] Existing Instance demo_sdk.
#[local] Existing Instance demo_changes.
#[local] Existing Instance demo_headers.

(** A token that puts a NUL byte where the asset's name goes. *)
Definition hostile_event : ContractEvent :=
  mkContractEvent true (Some "CT") (BodyV0 (Some (mkEventV0
    [ScvSymbol (Some "transfer"); ScvAddress (Some (mkScAddress false None));
     ScvAddress (Some (mkScAddress true (Some "CA"))); ScvString (Some (String Ascii.zero ""))]
    (ScvI128 (Some (mkInt128 0 7)))))).

Definition hostile_turn : @turn demo_sdk :=
  demo_turn (Ok (9, [Some (mkDemoTx 1 (SOk true) (SOk [[hostile_event]]))])) false.

Example demo_hostile : unmoved demo_lp (iterate demo_cfg hostile_turn demo_lp).2.
Proof.
  apply (hostile_transfer_stalls demo_cfg hostile_turn demo_lp). intros lcm r [= <-] Hev. vm_compute in Hev.
  injection Hev as <-. eexists. split; [by left|]. vm_compute. reflexivity.
Qed.
