(* ===== verification/Together.v ===== *)
(** * The workers are steps of the system

    [System] states what each component's commits must be; here the live loop,
    the backfiller and the healer are shown to commit nothing else, while the
    others take steps of the system.  So [coverage_true] holds of what they
    leave, whoever they are interleaved with. *)

From stdpp Require Import relations.
From S2P Require Import Prelude HealPlan Db Gaps Rows Registrations Commit Registry Api Extract Loop Workers System Backfill Heal Derived Coverage.

(** ** Lemmas *)

(** *** Nothing but the live loop writes the cursor and the ring *)

Lemma aside_followed `{S : SDK} `{!SDKChanges} net pass chain d d' :
  aside_step net pass chain d d' → followed d' = followed d.
Proof. intros [[]| | |]; match goal with Hr : run _ _ d = Ok _ |- _ => exact (framed _ _ _ _ Hr) end. Qed.

(** *** The live loop *)
Section live.
Context `{S : SDK} `{!SDKChanges} `{!LedgerHeaders} (cfg : Config) (chain : Z → LedgerCloseMeta).

Abbreviation net := (cf_Network cfg).
Abbreviation pass := (cf_Passphrase cfg).

(** The source serves the chain, and the snapshot knows the walks that will
    vouch for the ledger it is taken for. *)
Definition attended (tn : turn) (lp : loop) : Prop :=
  serves chain tn lp ∧ knows net pass chain (tn_watch tn) (lp_db lp) (lp_next lp).

(** No walk is opened before the first ledger is in. *)
Definition unopened (d : db) : Prop := db_cursor d !! net = None → ∀ cid, db_backfill d !! (net, cid) = None.

Definition with_db (d : db) (s : process_state) : process_state :=
  match s with Down _ => Down d | Up lp => Up (set_db d lp) end.

Lemma db_of_with d s : db_of (with_db d s) = d.
Proof. by destruct s. Qed.

Lemma sound_with d s : followed d = followed (db_of s) → sound_state cfg chain s → sound_state cfg chain (with_db d s).
Proof.
  unfold followed. intros [= Hc Hh]. destruct s as [d0|lp]; simpl in *; unfold poised, contiguous; simpl; by rewrite Hc, Hh.
Qed.

Context (Hlinked : linked chain) (Hstart : is_u32 (cf_StartLedger cfg)).

(** What a turn does to the database: nothing, or the commit of the chain's
    ledger. *)
Lemma turn_commits tn lp v lp' : poised cfg chain lp → serves chain tn lp → iterate cfg tn lp = (v, lp') →
  lp_db lp' = lp_db lp ∨
  ∃ rec r, lr_Sequence rec = lp_next lp ∧ is_u32 (lp_next lp) ∧
    Events (chain (lp_next lp)) pass (tn_watch tn) = Some r ∧
    run (tn_now tn) (CommitLedger net rec (all_records r)) (lp_db lp) = Ok (tt, lp_db lp').
Proof.
  intros (Hc & Hn & Hcur) Hsrv [(Hdb & _)|(lcm & r & (Hget & Hseq & _ & Hev) & Hw & _)]%iterate_cases; [by left|right].
  destruct (Hsrv lcm Hget) as [-> _]. by exists (ledger_record (InfoOf (chain (lp_next lp)))), r.
Qed.

(** A turn either leaves the database alone or is a step of the live loop. *)
Lemma turn_system tn lp v lp' :
  poised cfg chain lp → unopened (lp_db lp) → attended tn lp → iterate cfg tn lp = (v, lp') →
  unopened (lp_db lp') ∧ rtc (sys_step net pass chain) (lp_db lp) (lp_db lp').
Proof.
  intros Hp Hun [Hsrv Hknows] [->|(rec & r & Hrec & Hu & Hev & Hw)]%turn_commits; [done| |done..].
  destruct Hp as (Hc & Hn & Hcur). split.
  - pose proof Hw as Hw'. rewrite run_CommitLedger in Hw'. destruct (add_records _ _ _) as [t|]; [|done].
    injection Hw' as <-. intros Hnone. by rewrite ledger_done_cursor in Hnone.
  - apply rtc_once. eapply (LiveStep _ _ _ _ _ (tn_watch tn)); try rewrite Hrec; [done|done| |done|exact Hw].
    unfold live_ready. destruct (db_cursor (lp_db lp) !! net) as [c|] eqn:Hcr.
    + destruct Hcur as [[-> _]|[-> _]]; lia.
    + intros cid b Hb. by rewrite Hun in Hb.
Qed.

Definition steady (s : process_state) : Prop := sound_state cfg chain s ∧ unopened (db_of s).

Lemma process_step_impl (honest honest' : turn → loop → Prop) s s' :
  (∀ tn lp, s = Up lp → honest tn lp → honest' tn lp) → process_step cfg honest s s' → process_step cfg honest' s s'.
Proof.
  intros Himp Hstep. destruct Hstep as [fl latest d lp ? ? ?|tn lp lp' ? ?|tn lp e lp' ? ?|lp].
  - by eapply Boot.
  - eapply Turn; [by apply Himp|done].
  - eapply Stop; [by apply Himp|done].
  - apply Crash.
Qed.

(** So does the process. *)
Lemma own_system s s' : steady s → process_step cfg attended s s' →
  steady s' ∧ rtc (sys_step net pass chain) (db_of s) (db_of s').
Proof.
  intros [Hs Hun] Hown.
  assert (Hs2 : sound_state cfg chain s').
  { eapply sound_step; [done..|]. eapply process_step_impl; [|exact Hown]. by intros tn lp _ [? _]. }
  enough (unopened (db_of s') ∧ rtc (sys_step net pass chain) (db_of s) (db_of s')) as [? ?] by done.
  destruct Hown as [fl latest d lp Hfl Hl Hb|tn lp lp' Hat Hit|tn lp e lp' Hat Hit|lp]; simpl in *.
  - destruct (boot_resumes cfg chain fl latest d lp) as [-> _]; try done.
  - by eapply turn_system.
  - by eapply turn_system.
  - done.
Qed.
End live.

(** *** The backfiller *)
Section walks.
Context `{S : SDK} `{!SDKChanges} `{!LedgerHeaders} (net pass : string) (w : world) (chain : Z → LedgerCloseMeta).

(** A walk vouches for registered kinds only. *)
Definition registered (d : db) : Prop := ∀ cid b c kind,
  db_backfill d !! (net, cid) = Some b → db_contracts d !! (net, cid) = Some c →
  kind ∈ b_covered_kinds b → kind ∈ c_kinds c.

(** The other writers take steps of the system. *)
Definition orderly : Prop := ∀ n d, rtc (sys_step net pass chain) d (w_others w n d).

Lemma registered_same d d' :
  db_contracts d' = db_contracts d →
  (∀ k b', db_backfill d' !! k = Some b' → ∃ b, db_backfill d !! k = Some b ∧ b_covered_kinds b' = b_covered_kinds b) →
  registered d → registered d'.
Proof.
  intros Hc Hb Hreg cid b' c kind (b & Hrow & ->)%Hb. rewrite Hc. by apply Hreg.
Qed.

Lemma chunk_rows nxt share now d d' : run now (CommitBackfillChunk net nxt share) d = Ok (tt, d') →
  db_contracts d' = db_contracts d ∧
  ∀ k b', db_backfill d' !! k = Some b' → ∃ b, db_backfill d !! k = Some b ∧ b_covered_kinds b' = b_covered_kinds b.
Proof.
  rewrite run_CommitBackfillChunk. destruct (add_records _ _ _) as [t|]; [|done].
  destruct (db_backfill d !! _) as [b|] eqn:Hb; [|done]. intros [= <-].
  split; [by destruct d|]. intros k b'. change (db_backfill (put_tables t ?x)) with (db_backfill x).
  autorewrite with sierpe_simp. intros [[<- <-]|[_ ?]]%lookup_insert_Some; [by exists b|by exists b'].
Qed.

(** The database is one the system can reach from where the backfiller
    started. *)
Definition walked (d0 d : db) : Prop := registered d ∧ rtc (sys_step net pass chain) d0 d.

Lemma walked_respected d0 : bystanders net w → orderly → respected net pass w chain (walked d0).
Proof.
  intros Hby Hord. split.
  - intros n d [Hreg Hr]. split; [|by transitivity d]. destruct (Hby n d) as (Hb & Hc & _).
    apply (registered_same d); [done| |done]. intros k b'. rewrite Hb. by exists b'.
  - intros from to reason now d d' [Hreg Hr] Hf Ht Hrun. split.
    + apply (registered_same d); [| |done].
      * exact (framed (f := db_contracts) (t := RecordGap net from to reason) _ _ _ _ Hrun).
      * rewrite (framed (f := db_backfill) (t := RecordGap net from to reason) _ _ _ _ Hrun). by eauto.
    + eapply rtc_r; [exact Hr|]. apply AsideStep, WorkerStep. by eapply GapStep.
  - intros nxt share b c now d d' [Hreg Hr] Hb Hc Hready Hrun. split.
    + destruct (chunk_rows _ _ _ _ _ Hrun). by apply (registered_same d).
    + eapply rtc_r; [exact Hr|]. apply AsideStep, WorkerStep. eapply WalkStep; [exact Hb| |exact Hrun].
      eapply walk_ready_kinds; [|exact Hready]. intros k. by eapply Hreg.
Qed.
End walks.

#[local] Opaque InfoOf.

(** *** The healer *)
Section heals.
Context `{S : SDK} `{!SDKChanges} `{!LedgerHeaders} `{!LedgerMetas} (net pass : string) (chunk : Z) (w : world)
  (chain : Z → LedgerCloseMeta).

(** The cores replay the chain. *)
Definition true_cores : Prop := ∀ n l lcm,
  w_core w n l = Ok lcm → in_Sequence (InfoOf lcm) = l → lcm = chain l.

(** Every snapshot knows the walks a gap holds up. *)
Definition informed (d : db) : Prop := ∀ n cid b wall kind,
  db_backfill d !! (net, cid) = Some b → b_clamped_at b = Some wall → kind ∈ b_covered_kinds b →
  watches (w_snap w n) cid kind = true.

Lemma informed_same d d' :
  (∀ k b' wall, db_backfill d' !! k = Some b' → b_clamped_at b' = Some wall →
     ∃ b wall', db_backfill d !! k = Some b ∧ b_clamped_at b = Some wall' ∧ b_covered_kinds b' = b_covered_kinds b) →
  informed d → informed d'.
Proof. intros Hb Hi n cid b' wall kind Hr Hc. destruct (Hb _ _ _ Hr Hc) as (b & wall' & ? & ? & ->). by eapply Hi. Qed.

(** A ledger of a replay, and its events. *)
Lemma read_ledger from to acc l : true_cores → chunk_read pass w from to acc → from ≤ l ≤ to →
  ∃ k r, Events (chain l) pass (w_snap w k) = Some r ∧
    ∀ cid, sub_records (records_of cid r) (all_records acc).
Proof.
  intros Hcore (k & lcms & [Hseq Hall] & _ & Hx) Hl.
  assert (Hlk : ((λ lcm, in_Sequence (InfoOf lcm)) <$> lcms) !! Z.to_nat (l - from) = Some l).
  { rewrite Hseq. apply lookup_seqZ. unfold span. lia. }
  apply list_lookup_fmap_Some in Hlk as (lcm & Hs & Hlcm). simpl in Hs.
  destruct (Forall_lookup_1 _ _ _ _ Hall Hlcm) as (n & Hn). rewrite <- Hs in Hn.
  rewrite <- (Hcore _ _ _ Hn (eq_sym Hs)).
  destruct (extracted_in pass (w_snap w k) "" lcms acc lcm Hx) as (r & Hr & _); [by eapply list_elem_of_lookup_2|].
  exists k, r. split; [done|]. intros cid.
  destruct (extracted_in pass (w_snap w k) cid lcms acc lcm Hx) as (r' & Hr' & Hsub); [by eapply list_elem_of_lookup_2|].
  rewrite Hr in Hr'. injection Hr' as <-. eapply sub_records_trans; [exact Hsub|apply records_of_sub].
Qed.

Lemma read_part `{Additive A part} from to acc : true_cores → chunk_read pass w from to acc →
  all_from pass chain part (part acc).
Proof.
  intros Hcore (k & lcms & [_ Hall] & _ & Hx) x Hev.
  destruct (extracted_part _ _ _ _ x Hx Hev) as (lcm & r & Hlcm & Hr & Hxr).
  rewrite Forall_forall in Hall. destruct (Hall _ Hlcm) as (n & Hn).
  exists (in_Sequence (InfoOf lcm)), (w_snap w k), r. by rewrite <- (Hcore _ _ _ Hn eq_refl).
Qed.

Lemma read_from_chain from to acc : true_cores → chunk_read pass w from to acc →
  from_chain pass chain (all_records acc).
Proof. intros Hcore Hr. split_and!; cbn; by apply (read_part from to). Qed.

(** A replay: the gap is open and as it was listed, the records are the chain's,
    and each ledger discharged was read under some snapshot the registry served,
    in this commit or, with its records stored, before. *)
Definition replays (gap : Gap) (newNextTo : Z) (resolved : bool) (records : Records) (r : gap_row) (d : db) : Prop :=
  db_gaps d !! gap_ID gap = Some r ∧ row_open net r ∧ gap_From gap = g_from r ∧ gap_To gap = g_to r ∧
  g_from r - 1 ≤ newNextTo ≤ g_to r ∧ resolved = (newNextTo <? g_from r) ∧ from_chain pass chain records ∧
  ∀ l, newNextTo < l ≤ heal_next r → ∃ n x, Events (chain l) pass (w_snap w n) = Some x ∧
    ((∀ cid, sub_records (records_of cid x) records) ∨ ∀ cid, stored net (records_of cid x) (get_tables d)).

(** A replay, or a step of the system. *)
Inductive replay_step (d d' : db) : Prop :=
  | ReplayStep gap newNextTo resolved goNow records r now :
      replays gap newNextTo resolved records r d →
      run now (CommitHealChunk net gap newNextTo resolved goNow records) d = Ok (tt, d') → replay_step d d'
  | SysStep : sys_step net pass chain d d' → replay_step d d'.

(** Under informed snapshots a replay is a step of the system. *)
Lemma replays_ready gap newNextTo resolved records r d : informed d →
  replays gap newNextTo resolved records r d → heal_ready net pass chain gap newNextTo resolved records r d.
Proof.
  intros Hi (? & ? & ? & ? & ? & ? & ? & Hread). split_and!; [done..|lia|lia|done|done|].
  intros cid b wall kind l Hb Hc Hk _ Hl. destruct (Hread l Hl) as (n & x & Hx & Hcase).
  assert (Hfor : read_for pass chain cid kind l x) by (exists (w_snap w n); split; [by eapply Hi|done]).
  destruct Hcase as [Hsub|Hst]; [right|left]; exists x; (split; [done|]).
  - eapply sub_records_trans; [apply of_kind_sub|apply Hsub].
  - eapply stored_sub; [apply of_kind_sub|apply Hst].
Qed.

(** What the healer commits is a replay. *)
Lemma chunk_replays g acc r d from : true_cores →
  db_gaps d !! gap_ID g = Some r → row_open net r → gap_From g = g_from r → gap_To g = g_to r →
  gap_From g ≤ from ≤ gap_To g → chunk_read pass w from (gap_HealNextTo g) acc →
  (∀ l, gap_HealNextTo g < l ≤ heal_next r → healed net pass w d l) →
  replays g (from - 1) (bool_decide (from = gap_From g)) (all_records acc) r d.
Proof.
  intros Hcore Hrow Ho Hf Ht Hfrom Hread Hpast.
  assert (Hres : bool_decide (from = gap_From g) = (from - 1 <? g_from r)).
  { case_bool_decide; symmetry; [apply Z.ltb_lt|apply Z.ltb_ge]; lia. }
  split_and!; [done..|lia|lia|done|by eapply read_from_chain|]. intros l Hl.
  destruct (Z.le_gt_cases l (gap_HealNextTo g)).
  - destruct (read_ledger from (gap_HealNextTo g) acc l Hcore Hread) as (n & x & Hx & Hsub); [lia|].
    exists n, x. split; [done|by left].
  - destruct (Hpast l ltac:(lia)) as (n & lcm & x & (m & Hm) & Hs & Hx & Hst). exists n, x.
    rewrite (Hcore _ _ _ Hm Hs) in Hx. split; [done|by right].
Qed.

Lemma replays_respected d0 : true_cores → orderly net pass w chain →
  heals_respected net pass chunk w (rtc replay_step d0).
Proof.
  intros Hcore Hord. split.
  - intros n d Hr. transitivity d; [done|]. eapply rtc_subrel; [|apply (Hord n d)]. intros ??. apply SysStep.
  - intros g goNow acc r now d d' from Hr. intros. eapply rtc_r; [exact Hr|].
    eapply ReplayStep; [by apply chunk_replays|eassumption].
Qed.

Definition replayed (d0 d : db) : Prop := informed d ∧ rtc (sys_step net pass chain) d0 d.

Lemma replayed_respected d0 : true_cores → orderly net pass w chain → (∀ n d, informed d → informed (w_others w n d)) →
  heals_respected net pass chunk w (replayed d0).
Proof.
  intros Hcore Hord Hinf. split.
  - intros n d [Hi Hr]. split; [by apply Hinf|by transitivity d].
  - intros g goNow acc r now d d' from [Hi Hr] Hrow Ho Hf Ht Hfrom Hread Hpast Hrun.
    assert (Hready := replays_ready _ _ _ _ _ _ Hi (chunk_replays g acc r d from Hcore Hrow Ho Hf Ht Hfrom Hread Hpast)).
    split; [|eapply rtc_r; [exact Hr|]; apply AsideStep, WorkerStep; by eapply HealStep].
    revert Hi. apply informed_same. intros k b' wall. rewrite run_CommitHealChunk in Hrun.
    destruct (add_records _ _ _) as [t|]; [|done]. destruct (_ =? 0); [done|]. injection Hrun as <-.
    change (db_backfill (put_tables t ?x)) with (db_backfill x). autorewrite with sierpe_simp.
    destruct Hready as (_ & _ & _ & _ & _ & Hres & _).
    intros (b & Hb & Hcases)%heal_rows Hw; [|lia|by rewrite Hres, Hf].
    destruct Hcases as [[-> _]|[Hc Hhr]]; [by exists b, wall|exists b, (gap_To g + 1)].
    split_and!; [done|done|apply Hhr].
Qed.
End heals.

(** *** The live loop beside the two workers *)
Section neighbours.
Context `{S : SDK} `{!SDKChanges} `{!LedgerHeaders} (cfg : Config) (chain : Z → LedgerCloseMeta).

Abbreviation net := (cf_Network cfg).
Abbreviation pass := (cf_Passphrase cfg).

Lemma CommitLedger_framed {X} (f : db → X) rec r :
  (∀ t d, f (put_tables t d) = f d) → (∀ g d, f (set_cursor g d) = f d) → (∀ g d, f (set_ledger_hashes g d) = f d) →
  Framed f (CommitLedger net rec r).
Proof.
  intros Ht Hc Hh now d [] d'. rewrite run_CommitLedger. destruct (add_records _ _ _); [|done].
  intros [= <-]. unfold ledger_done. by rewrite !Hh, Hc, Ht.
Qed.

(** What the loop leaves alone, and what it keeps. *)
Definition live_left (d d' : db) : Prop :=
  db_backfill d' = db_backfill d ∧ db_contracts d' = db_contracts d ∧ db_gaps d' = db_gaps d ∧
  keeps_stored net (get_tables d) (get_tables d').

Lemma written_left tn lp lp' lcm r : written cfg tn lp lp' lcm r → live_left (lp_db lp) (lp_db lp').
Proof.
  intros Hw. unfold live_left. split_and!;
    [refine (CommitLedger_framed _ _ _ _ _ _ _ _ _ _ Hw); by intros ? []..|].
  unfold written in Hw. rewrite run_CommitLedger in Hw.
  destruct (add_records _ _ _) as [t|] eqn:Ha; [|done]. injection Hw as <-.
  rewrite get_tables_ledger_done, get_put_tables. by eapply add_records_keeps.
Qed.

Lemma live_left_refl d : live_left d d.
Proof. done. Qed.

Lemma live_step_left honest s s' : is_u32 (cf_StartLedger cfg) → sound_state cfg chain s →
  process_step cfg honest s s' → live_left (db_of s) (db_of s').
Proof.
  intros Hst Hs Hstep.
  assert (Hturn : ∀ tn lp v lp', iterate cfg tn lp = (v, lp') → live_left (lp_db lp) (lp_db lp')).
  { intros tn lp v lp' [(-> & _)|(lcm & r & _ & Hw & _)]%iterate_cases; [apply live_left_refl|by eapply written_left]. }
  destruct Hstep as [fl latest d lp Hfl Hl Hb|tn lp lp' _ Hit|tn lp e lp' _ Hit|lp]; simpl in *.
  - destruct (boot_resumes cfg chain fl latest d lp Hs Hfl Hl Hst Hb) as [-> _]. apply live_left_refl.
  - by eapply Hturn.
  - by eapply Hturn.
  - apply live_left_refl.
Qed.

(** Between two calls of a worker, the live process may run. *)
Definition beside_live (w : world) : Prop := ∀ n d, w_others w n d = d ∨
  ∃ s s', db_of s = d ∧ db_of s' = w_others w n d ∧ steady cfg chain s ∧ rtc (process_step cfg (attended cfg chain)) s s'.

Context (Hlinked : linked chain) (Hstart : is_u32 (cf_StartLedger cfg)).

Lemma live_steps s s' : steady cfg chain s → rtc (process_step cfg (attended cfg chain)) s s' →
  live_left (db_of s) (db_of s') ∧ rtc (sys_step net pass chain) (db_of s) (db_of s').
Proof.
  intros Hs Hr. induction Hr as [s|s1 s2 s3 H12 _ IH]; [done|].
  destruct (own_system cfg chain Hlinked Hstart s1 s2 Hs H12) as [Hs2 Hsys].
  destruct (live_step_left _ _ _ Hstart ltac:(apply Hs) H12) as (B1 & C1 & G1 & K1).
  destruct (IH Hs2) as [(B2 & C2 & G2 & K2) Hsys2]. split; [|by transitivity (db_of s2)].
  unfold live_left. split_and!; [congruence..|]. by transitivity (get_tables (db_of s2)).
Qed.

(** The live loop is the neighbour the workers ask for. *)
Lemma live_neighbour w : beside_live w →
  bystanders net w ∧ gap_bystanders net w ∧ orderly net pass w chain ∧
  ∀ n d, informed net w d → informed net w (w_others w n d).
Proof.
  intros Hw.
  assert (Hall : ∀ n d, live_left d (w_others w n d) ∧ rtc (sys_step net pass chain) d (w_others w n d)).
  { intros n d. destruct (Hw n d) as [->|(s & s' & <- & <- & Hs & Hr)]; [done|]. by apply live_steps. }
  split_and!.
  - intros n d. destruct (Hall n d) as [(? & ? & ? & ?) _]. done.
  - intros n d. destruct (Hall n d) as [(_ & _ & -> & ?) _]. split; [done|]. split; [done|by left].
  - intros n d. apply Hall.
  - intros n d. destruct (Hall n d) as [(Hb & _) _]. apply informed_same. intros k b wall. rewrite Hb. eauto.
Qed.
End neighbours.

(** ** Properties *)

(** C5.  The backfiller is a component of the system: while the others take
    steps of the system that leave walks, registrations and gaps alone, every
    round ends and what it commits, chunk by chunk, wall by wall, are steps of
    the system.  So each ledger a walk comes to vouch for was read from the
    chain for the kinds it covers, and below a wall each is promised. *)
Theorem backfiller_refines_system `{S : SDK} `{!SDKChanges} `{!LedgerHeaders} (net pass : string) (w : world)
    (chain : Z → LedgerCloseMeta) (fuel rounds n : nat) (d : db) (s : backfiller) :
  bystanders net w → orderly net pass w chain → genuine w chain → progresses w →
  backfillChunkSize ≤ Z.of_nat fuel →
  walks_wf net d → gaps_wf (db_gaps d) → registered net d → cache_ok pass w s →
  ∃ o' s', Backfill.Run net pass w fuel rounds (mkOutside n d) s = Some (tt, o', s') ∧
    rtc (sys_step net pass chain) d (o_db o').
Proof.
  intros Hby Hord Hgen Hp Hf Hwf Hg Hreg Hc.
  destruct (Run_returns net pass w chain fuel rounds d s n) as [[[[] o'] s'] Hr]; [done..|].
  exists o', s'. split; [done|].
  destruct (Run_triple net pass w chain (walked net pass chain d) fuel rounds d s n tt o' s')
    as (_ & _ & _ & _ & Hsys); [done|done|by apply walked_respected|done..|split; [done|apply rtc_refl]|done|exact Hsys].
Qed.

(** C6.  The healer replays the chain, and under snapshots that watch enough it is
    a component of the system.  While the others take steps of the system that
    leave the gaps' rows alone, whatever the workers' interleaving, stale claims
    included, each commit is a replay: of an open gap as listed, with records of
    the chain, where each ledger discharged was read under some snapshot the
    registry served, in that commit or in an earlier one.  If moreover every
    snapshot watches every walk that a gap holds up, for its kinds - the code does
    not see to it: the healer has no margin for a registration of another
    instance -, each commit is a step of the system. *)
Theorem healer_refines_system `{S : SDK} `{!SDKChanges} `{!LedgerHeaders} `{!LedgerMetas}
    (net pass : string) (chunkLedgers nworkers chunkNow : Z) (w : world) (chain : Z → LedgerCloseMeta)
    (fuel turns : nat) (o : outside) (h : healer) (s : workers) :
  gap_bystanders net w → orderly net pass w chain → true_cores w chain → progresses w → encodes_faithfully →
  is_u32 chunkLedgers → chunkOf chunkLedgers ≤ Z.of_nat fuel → equivalenceSample ≤ Z.of_nat fuel →
  (∀ id r, db_gaps (o_db o) !! id = Some r → pending_row net r) →
  rtc (healer_step net pass (chunkOf chunkLedgers) w fuel turns nworkers chunkNow) (mkWorkers o h []) s →
  rtc (replay_step net pass w chain) (o_db o) (o_db (wk_outside s)) ∧
  (informed net w (o_db o) → (∀ n d, informed net w d → informed net w (w_others w n d)) →
   rtc (sys_step net pass chain) (o_db o) (o_db (wk_outside s))).
Proof.
  intros Hby Hord Hcore Hp Henc Hc Hcf Hf Hpend Hsteps.
  assert (Hok : ∀ K, heals_respected net pass (chunkOf chunkLedgers) w K → K (o_db o) → K (o_db (wk_outside s))).
  { intros K HK HKd. edestruct (workers_ok net pass (chunkOf chunkLedgers) w Hby ltac:(by apply chunkOf_range) (o_db o)
      K HK Hp Henc fuel turns nworkers chunkNow Hf Hcf o h s) as ((_ & _ & HK') & _); [done..|exact HK']. }
  split.
  - apply (Hok (rtc (replay_step net pass w chain) (o_db o))); [by apply replays_respected|done].
  - intros Hi Hinf. apply (Hok (replayed net pass w chain (o_db o))); [by apply replayed_respected|by split].
Qed.

(** ** Witnesses *)

#[local] Existing Instance demo_sdk.
#[local] Existing Instance demo_changes.
#[local] Existing Instance demo_headers.
#[local] Existing Instance demo_metas.
#[local] Transparent InfoOf.

Lemma demo_registered : registered "testnet" demo_pending.
Proof.
  intros cid b c kind Hb Hc. apply elem_of_map_to_list in Hb, Hc. revert Hb Hc. vm_compute map_to_list.
  rewrite !elem_of_cons, !elem_of_nil. by intros [[= -> ->]|[]] [[= ->]|[]].
Qed.

Lemma backfiller_refines_system_witness :
  ∃ o' s', Backfill.Run "testnet" "pass" demo_world (Z.to_nat 2000) 2 (mkOutside 0 demo_pending) idle_backfiller
      = Some (tt, o', s') ∧
    rtc (sys_step "testnet" "pass" demo_block) demo_pending (o_db o').
Proof.
  destruct (backfiller_refines_system "testnet" "pass" demo_world demo_block (Z.to_nat 2000) 2 0 demo_pending
    idle_backfiller) as (o' & s' & Hr & Hsys).
  - exact demo_bystanders.
  - intros n d. apply rtc_refl.
  - exact demo_genuine.
  - exact demo_progresses.
  - unfold backfillChunkSize. lia.
  - exact demo_pending_wf.
  - apply gaps_wfb_sound. vm_compute. reflexivity.
  - exact demo_registered.
  - intros e. discriminate.
  - exists o', s'. split; [exact Hr|exact Hsys].
Defined.

(** The chain the demonstration's cores replay. *)
Definition core_chain (l : Z) : @LedgerCloseMeta demo_sdk := (l, quiet_ledger.2 ++ [None]).

Lemma demo_informed : informed "testnet" demo_heal_world demo_heal_db.
Proof.
  intros n cid b wall kind Hb _ Hk. apply elem_of_map_to_list in Hb. revert Hb Hk. vm_compute map_to_list.
  rewrite elem_of_cons, elem_of_nil. intros [[= -> ->]|[]] ->%list_elem_of_singleton. reflexivity.
Qed.

Lemma healer_refines_system_witness :
  rtc (replay_step "testnet" "pass" demo_heal_world core_chain) demo_heal_db (o_db (wk_outside demo_run4)) ∧
  rtc (sys_step "testnet" "pass" core_chain) demo_heal_db (o_db (wk_outside demo_run4)) ∧
  b_next_to <$> db_backfill (o_db (wk_outside demo_run4)) !! ("testnet", "CA") = Some 6.
Proof.
  destruct (healer_refines_system "testnet" "pass" 3 2 77 demo_heal_world core_chain 8 1 (mkOutside 0 demo_heal_db)
    idle_healer demo_run4) as [Hreplay Hsys].
  - exact demo_gap_bystanders.
  - intros n d. apply rtc_refl.
  - intros n l lcm [= <-] _. reflexivity.
  - exact demo_heal_progresses.
  - exact demo_faithful.
  - uarith.
  - vm_compute. discriminate.
  - unfold equivalenceSample. lia.
  - exact demo_heal_pending.
  - exact demo_steps.
  - split; [exact Hreplay|]. split; [|vm_compute; reflexivity]. apply Hsys; [exact demo_informed|]. intros n d Hi. exact Hi.
Defined.
