(* ===== verification/Scene.v ===== *)
(** * The live loop among registrations

    The loop derives a ledger under a snapshot of the registrations taken before;
    a registration is saved, reads the cursor, and opens its walk 20 ledgers above
    it.  Neither waits for the other.  Here the process, the reloads of its
    snapshot, the registrations in progress and the workers are interleaved in one
    step relation, and the loop's commits turn out to be steps of the system,
    provided no more than 20 ledgers are taken under one snapshot. *)

From stdpp Require Import relations.
From S2P Require Import Prelude HealPlan Db Gaps Rows Registrations Commit Registry Api Extract Loop Workers System Backfill Admin Derived Coverage Together.

(** ** Definitions *)

(** A snapshot of the registrations, and the cursor when it was listed: the
    first ledger's, if it was listed before there was one. *)
Record listing := mkListing { ls_snap : Snapshot; ls_since : option Z }.

(** A registration between its read of the cursor and its walk. *)
Record registering := mkRegistering { rn_contract : string; rn_anchor : Z; rn_kinds : list string }.

Record scene := mkScene {
  sc_process : process_state; sc_listings : list listing; sc_registering : list registering }.

(** The snapshot is not older than the margin of a registration. *)
Definition timely (e : listing) (next : Z) : Prop :=
  ∀ c, ls_since e = Some c → next ≤ c + registrationAnchorMargin.

Section scene.
Context `{S : SDK} `{!SDKChanges} `{!LedgerHeaders} `{!Collation} (cfg : Config) (chain : Z → LedgerCloseMeta).

Abbreviation net := (cf_Network cfg).
Abbreviation pass := (cf_Passphrase cfg).

Definition stored_cursor (d : db) : option Z := cur_Sequence <$> db_cursor d !! net.

(** The first ledger dates the snapshots listed before it. *)
Definition dated (d : db) (e : listing) : listing :=
  mkListing (ls_snap e) (match ls_since e with Some c => Some c | None => stored_cursor d end).

(** A turn before an honest source, under one of the snapshots. *)
Definition timely_turn (es : list listing) (tn : turn) (lp : loop) : Prop :=
  serves chain tn lp ∧ ∃ e, e ∈ es ∧ tn_watch tn = ls_snap e ∧ timely e (lp_next lp).

Inductive scene_step : scene → scene → Prop :=
  (** the process boots, takes a turn, stops or is killed *)
  | Goes s s' es ps :
      process_step cfg (timely_turn es) s s' →
      scene_step (mkScene s es ps) (mkScene s' (dated (db_of s') <$> es) ps)
  (** the registry is loaded, at the boot, on a tick or after a registration *)
  | Lists s es ps fl now r r' :
      rg_network r = net → Reload fl now (db_of s) r = (Ok tt, r') →
      scene_step (mkScene s es ps) (mkScene s (mkListing (rg_snap r') (stored_cursor (db_of s)) :: es) ps)
  (** the backfiller, the healer or the planner commits *)
  | Works s d' es ps :
      worker_step net pass chain (db_of s) d' →
      scene_step (mkScene s es ps) (mkScene (with_db d' s) es ps)
  (** a registration saves its row, with no kind less than the one before *)
  | Saves s es ps c saved now d' :
      (∀ old kind, db_contracts (db_of s) !! (ct_Network c, ct_ContractID c) = Some old →
         kind ∈ c_kinds old → kind ∈ ct_Kinds c) →
      run now (UpsertContract c) (db_of s) = Ok (saved, d') →
      scene_step (mkScene s es ps) (mkScene (with_db d' s) es ps)
  (** it reads the cursor *)
  | Reads s es ps cid kinds row now c nextTo d' :
      db_contracts (db_of s) !! (net, cid) = Some row → (∀ kind, kind ∈ kinds → kind ∈ c_kinds row) →
      run now (LoadCursor net) (db_of s) = Ok (c, d') → cur_Sequence c + registrationAnchorMargin ≤ max_u32 →
      anchor (Ok c) = Some nextTo →
      scene_step (mkScene s es ps) (mkScene s es (mkRegistering cid nextTo kinds :: ps))
  (** it opens its walk *)
  | Ensures s es ps p targetFrom now d' :
      p ∈ ps → is_u32 targetFrom →
      run now (EnsureBackfill net (rn_contract p) targetFrom (rn_anchor p) (rn_kinds p)) (db_of s) = Ok (tt, d') →
      scene_step (mkScene s es ps) (mkScene (with_db d' s) es ps)
  (** it ends, having opened it or not *)
  | Ends s es ps ps' : ps' ⊆ ps → scene_step (mkScene s es ps) (mkScene s es ps')
  (** a contract that is not being registered is deleted *)
  | Deletes s es ps cid existed now d' :
      (∀ p, p ∈ ps → rn_contract p ≠ cid) → run now (DeleteContract net cid) (db_of s) = Ok (existed, d') →
      scene_step (mkScene s es ps) (mkScene (with_db d' s) es ps).

(** A walk belongs to a registration, which has its kinds. *)
Definition accounted (d : db) : Prop := ∀ cid b, db_backfill d !! (net, cid) = Some b →
  ∃ c, db_contracts d !! (net, cid) = Some c ∧ ∀ kind, kind ∈ b_covered_kinds b → kind ∈ c_kinds c.
End scene.

(** ** Lemmas *)

(** *** What a worker does to the walks *)
Section shelter.
Context `{S : SDK} `{!SDKChanges} (net passphrase : string) (chain : Z → LedgerCloseMeta).

Abbreviation derived_kind := (derived_kind net passphrase chain).

(** Every walk was there, for the same kinds, and comes to vouch only for
    ledgers that are derived. *)
Definition shelters (d d' : db) : Prop := ∀ cid b', db_backfill d' !! (net, cid) = Some b' →
  ∃ b, db_backfill d !! (net, cid) = Some b ∧ b_covered_kinds b' = b_covered_kinds b ∧
    ∀ kind l, kind ∈ b_covered_kinds b → b_next_to b' < l ≤ b_next_to b → derived_kind cid kind l (get_tables d').

Lemma shelters_same d d' : db_backfill d' = db_backfill d → shelters d d'.
Proof. intros Heq cid b' Hb. rewrite Heq in Hb. exists b'. split_and!; [done..|lia]. Qed.

(** The walks up to their clamps, and the rest of what a plan leaves alone. *)
Definition unplanned (d : db) :=
  ((λ b, (b_covered_kinds b, b_next_to b)) <$> db_backfill d, db_cursor d, db_contracts d, get_tables d).

Lemma repoint_unplanned old new now d : unplanned (set_backfill (repoint_clamps net old new now) d) = unplanned d.
Proof.
  destruct d. unfold unplanned. cbn. do 3 f_equal. apply map_eq. intros k. rewrite !lookup_fmap.
  unfold repoint_clamps. rewrite lookup_upd. destruct (_ !! k); simpl; [|done]. by case_match.
Qed.

#[export] Instance splitGap_unplanned g pieces : Framed unplanned (splitGap net g pieces).
Proof.
  unfold splitGap. repeat (apply framed_bind; [apply _|intros ?]). destruct (last pieces); [|apply _].
  apply framed_bind; [|apply _]. apply framed_exec. intros now d. apply repoint_unplanned.
Qed.

#[export] Instance PlanHeal_unplanned replay padding : Framed unplanned (PlanHeal net replay padding).
Proof. unfold PlanHeal, lockOpenGaps, countPlan, planGap. apply _. Qed.

Lemma worker_shelters d d' : truthful net passphrase chain d → worker_step net passphrase chain d d' →
  db_contracts d' = db_contracts d ∧ keeps_stored net (get_tables d) (get_tables d') ∧ shelters d d'.
Proof.
  intros Htr [nxt share b now Hb Hready Hrun|gap newNextTo resolved goNow records r now Hready Hrun|
    from to reason now _ _ Hrun|replay padding res now _ _ _ Hrun].
  - destruct Hready as (Hfrom & Hn & Hread & _). rewrite run_CommitBackfillChunk, Hb in Hrun.
    destruct (add_records net share (get_tables d)) as [t|] eqn:Ha; [|done]. injection Hrun as <-.
    split; [by destruct d|]. rewrite get_put_tables. split; [by eapply add_records_keeps|].
    intros cid b'. change (db_backfill (put_tables t ?x)) with (db_backfill x). autorewrite with sierpe_simp. rewrite get_put_tables.
    intros [[[= <-] <-]|[_ Hx]]%lookup_insert_Some; [|exists b'; split_and!; [done..|lia]].
    exists b. split_and!; [done..|]. simpl. intros kind l Hk Hl. destruct (Hread kind l Hk Hl) as (x & ? & ?).
    by eapply derived_from.
  - rewrite run_CommitHealChunk in Hrun. pose proof Hready as (Hr & Ho & Hf & Hto & Hn & Hres & _).
    destruct (add_records net records (get_tables d)) as [t|] eqn:Ha; [|done].
    destruct (affected _ _ =? 0); [done|]. cbv zeta in Hrun. injection Hrun as <-.
    split; [by destruct d|]. rewrite get_put_tables. split; [by eapply add_records_keeps|].
    pose proof (wf_range _ (tr_gaps Htr) _ _ Hr) as Hrange.
    intros cid b'. change (db_backfill (put_tables t ?x)) with (db_backfill x). autorewrite with sierpe_simp. rewrite get_put_tables.
    intros (b & Hb & Hcases)%heal_rows; [|lia|by rewrite Hf]. exists b. split; [done|].
    destruct Hcases as [[-> _]|[Hcl Hrow]]; [split; [done|lia]|]. split; [apply Hrow|].
    intros kind l Hk Hl. destruct (tr_walks Htr _ _ Hb) as [[Hpos _] _]. rewrite Hto in Hcl.
    eapply heal_row_cover; try done. by eapply healed_row_above.
  - split; [exact (framed (f := db_contracts) (t := RecordGap net from to reason) _ _ _ _ Hrun)|].
    rewrite (framed (f := get_tables) (t := RecordGap net from to reason) _ _ _ _ Hrun).
    split; [done|]. apply shelters_same. exact (framed (f := db_backfill) (t := RecordGap net from to reason) _ _ _ _ Hrun).
  - pose proof (framed (f := unplanned) (t := PlanHeal net replay padding) _ _ _ _ Hrun) as Hu.
    split; [exact (f_equal (λ u, u.1.2) Hu)|]. rewrite (f_equal snd Hu : get_tables d' = get_tables d). split; [done|]. intros cid b' Hb'.
    assert (Hk : ((λ b, (b_covered_kinds b, b_next_to b)) <$> db_backfill d) !! (net, cid)
      = Some (b_covered_kinds b', b_next_to b')).
    { pose proof (f_equal (λ u, u.1.1.1) Hu) as Hw. cbn in Hw. by rewrite <- Hw, lookup_fmap, Hb'. }
    rewrite lookup_fmap in Hk. apply fmap_Some in Hk as (b & Hrow & [= Hkinds Hnext]).
    exists b. split_and!; [done..|lia].
Qed.
End shelter.

(** *** What a reload and a registration leave *)

(** A reloaded snapshot watches what is registered. *)
Lemma reloaded_watches `{Collation} fl now d r r' cid kind row :
  Reload fl now d r = (Ok tt, r') → db_contracts d !! (rg_network r, cid) = Some row → kind ∈ c_kinds row →
  watches (rg_snap r') cid kind = true.
Proof.
  unfold Reload. destruct (BeginFunc_atomic fl now (ListContracts (rg_network r)) d) as [(e & ->)|(cs & d1 & -> & Hrun)]; [done|].
  destruct (run_ListContracts (rg_network r) now d) as (cs' & Hrun' & Hnd & Hcs).
  rewrite Hrun in Hrun'. injection Hrun' as <- _. simpl. intros [= <-] Hrow Hk.
  rewrite (watches_kinds _ cid (contract_of ((rg_network r, cid), row))); [by apply bool_decide_eq_true|].
  simpl. apply lookup_byID; [done|]. split; [|done]. apply Hcs. by exists row.
Qed.

(** After a registration each walk was there, or is the contract's own: for no
    more than the kinds asked for, from where it was or from the anchor. *)
Lemma ensured_rows net cid0 targetFrom nextTo kinds now d d' : backfill_wf d →
  run now (EnsureBackfill net cid0 targetFrom nextTo kinds) d = Ok (tt, d') →
  db_contracts d' = db_contracts d ∧ get_tables d' = get_tables d ∧
  ∀ cid b', db_backfill d' !! (net, cid) = Some b' → db_backfill d !! (net, cid) = Some b' ∨
    (cid = cid0 ∧ (∀ kind, kind ∈ b_covered_kinds b' → kind ∈ kinds) ∧
     ((∃ b, db_backfill d !! (net, cid0) = Some b ∧ (∀ kind, kind ∈ b_covered_kinds b' → kind ∈ b_covered_kinds b) ∧
        b_next_to b' = b_next_to b) ∨ b_next_to b' = nextTo)).
Proof.
  intros Hwf Hrun.
  assert (Hput : ∀ x from to, db_contracts (set_backfill <[(net, cid0) := x]> (reopened net from to d)) = db_contracts d ∧
    get_tables (set_backfill <[(net, cid0) := x]> (reopened net from to d)) = get_tables d).
  { intros. unfold reopened. case_match; by destruct d. }
  destruct (db_backfill d !! (net, cid0)) as [b|] eqn:Hb.
  - destruct (Hwf _ _ Hb). rewrite (run_EnsureBackfill_old _ _ _ _ _ _ _ b) in Hrun by done. injection Hrun as <-.
    case_decide as Hold; [case_decide|].
    + split_and!; [done..|by left].
    + replace (set_backfill _ d) with (set_backfill <[(net, cid0) := narrowed_row kinds now b]> (reopened net 1 0 d)) by done.
      destruct (Hput (narrowed_row kinds now b) 1 0) as [? ?]. split_and!; [done..|]. intros cid b'. autorewrite with sierpe_simp.
      intros [[[= <-] <-]|[_ ?]]%lookup_insert_Some; [right|by left]. split; [done|]. simpl.
      split; [by intros kind [??]%elem_of_intersect|left]. exists b. split_and!; [done| |done]. by intros kind [??]%elem_of_intersect.
    + match goal with |- context [set_backfill <[_ := ?x]> _] => destruct (Hput x targetFrom nextTo) as [? ?]; set (row := x) in * end.
      split_and!; [done..|]. intros cid b'. autorewrite with sierpe_simp.
      intros [[[= <-] <-]|[_ ?]]%lookup_insert_Some; [right|by left]. split; [done|]. split; [done|]. simpl.
      case_decide as Hall; [left|by right]. exists b. split_and!; [done| |done]. by rewrite Forall_forall in Hall.
  - rewrite run_EnsureBackfill_new in Hrun by done. injection Hrun as <-.
    match goal with |- context [set_backfill <[_ := ?x]> _] => destruct (Hput x targetFrom nextTo) as [? ?] end.
    split_and!; [done..|]. intros cid b'. autorewrite with sierpe_simp.
    intros [[[= <-] <-]|[_ ?]]%lookup_insert_Some; [right|by left]. split_and!; [done..|by right].
Qed.

(** *** The invariant *)
Section invariant.
Context `{S : SDK} `{!SDKChanges} `{!LedgerHeaders} `{!Collation} (cfg : Config) (chain : Z → LedgerCloseMeta).
Context (Hlinked : linked chain) (Hstart : is_u32 (cf_StartLedger cfg)).

Abbreviation net := (cf_Network cfg).
Abbreviation pass := (cf_Passphrase cfg).
Abbreviation derived_kind := (derived_kind net pass chain).
Abbreviation truthful := (truthful net pass chain).

(** A snapshot is dated once there is a cursor, and never after it. *)
Definition well_dated (d : db) (e : listing) : Prop :=
  match db_cursor d !! net with
  | None => ls_since e = None
  | Some c => ∃ s, ls_since e = Some s ∧ s ≤ cur_Sequence c
  end.

(** The walk is safe under the snapshot: the snapshot watches it, or what the
    loop may still take under the snapshot is derived where the walk vouches. *)
Definition safe_walk (d : db) (e : listing) : Prop := ∀ cid b kind,
  db_backfill d !! (net, cid) = Some b → kind ∈ b_covered_kinds b →
  watches (ls_snap e) cid kind = true ∨
  ∀ s l, ls_since e = Some s → b_next_to b < l ≤ s + registrationAnchorMargin → derived_kind cid kind l (get_tables d).

(** A registration in progress has its row, and what lies between its anchor and
    the cursor is derived. *)
Definition backed (d : db) (p : registering) : Prop :=
  is_u32 (rn_anchor p) ∧ is_Some (db_cursor d !! net) ∧
  (∃ row, db_contracts d !! (net, rn_contract p) = Some row ∧ ∀ kind, kind ∈ rn_kinds p → kind ∈ c_kinds row) ∧
  ∀ c kind l, db_cursor d !! net = Some c → kind ∈ rn_kinds p → rn_anchor p < l ≤ cur_Sequence c →
    derived_kind (rn_contract p) kind l (get_tables d).

(** It is safe under the snapshot: the snapshot watches it, or was listed early
    enough to be gone when the loop comes by its anchor. *)
Definition safe_registration (e : listing) (p : registering) : Prop :=
  (∀ kind, kind ∈ rn_kinds p → watches (ls_snap e) (rn_contract p) kind = true) ∨
  ∃ s, ls_since e = Some s ∧ s + registrationAnchorMargin ≤ rn_anchor p.

Record staged (sc : scene) : Prop := {
  sg_steady : steady cfg chain (sc_process sc);
  sg_truthful : truthful (db_of (sc_process sc));
  sg_accounted : accounted cfg (db_of (sc_process sc));
  sg_dated : ∀ e, e ∈ sc_listings sc → well_dated (db_of (sc_process sc)) e;
  sg_walks : ∀ e, e ∈ sc_listings sc → safe_walk (db_of (sc_process sc)) e;
  sg_backed : ∀ p, p ∈ sc_registering sc → backed (db_of (sc_process sc)) p;
  sg_safe : ∀ e p, e ∈ sc_listings sc → p ∈ sc_registering sc → safe_registration e p }.

(** *** The process *)

Lemma timely_attended es tn lp : steady cfg chain (Up lp) →
  (∀ e, e ∈ es → well_dated (lp_db lp) e) → (∀ e, e ∈ es → safe_walk (lp_db lp) e) →
  timely_turn chain es tn lp → attended cfg chain tn lp.
Proof.
  intros [_ Hun] Hd Hw [Hs (e & He & Hwatch & Hti)]. split; [done|]. intros cid b kind Hb Hk Hl. rewrite Hwatch.
  destruct (Hw e He cid b kind Hb Hk) as [?|Hder]; [by left|]. specialize (Hd e He). unfold well_dated in Hd. simpl in Hun.
  destruct (db_cursor (lp_db lp) !! net) as [c|] eqn:Hc; [|by rewrite (Hun Hc) in Hb].
  destruct Hd as (s & Hsince & _). right. apply (Hder s); [done|]. by specialize (Hti s Hsince); lia.
Qed.

(** What one step of the process writes: nothing, or the chain's next ledger
    under one of the snapshots. *)
Definition moves (es : list listing) (d d' : db) : Prop :=
  d' = d ∨ ∃ e rec r now, e ∈ es ∧ timely e (lr_Sequence rec) ∧
    (∀ c, db_cursor d !! net = Some c → lr_Sequence rec ≤ cur_Sequence c + 1) ∧
    Events (chain (lr_Sequence rec)) pass (ls_snap e) = Some r ∧
    run now (CommitLedger net rec (all_records r)) d = Ok (tt, d').

Lemma turn_moves es tn lp v lp' : poised cfg chain lp → timely_turn chain es tn lp → iterate cfg tn lp = (v, lp') →
  moves es (lp_db lp) (lp_db lp').
Proof.
  intros Hp [Hs (e & He & Hwatch & Hti)] [->|(rec & r & Hrec & Hu & Hev & Hrun)]%(turn_commits cfg chain); [by left| |done..].
  right. exists e, rec, r, (tn_now tn). rewrite Hrec, <- Hwatch. split_and!; try done.
  intros c Hc. destruct Hp as (_ & _ & Hcur). rewrite Hc in Hcur. destruct Hcur as [[-> _]|[-> _]]; lia.
Qed.

Lemma process_moves es s s' : sound_state cfg chain s → process_step cfg (timely_turn chain es) s s' →
  moves es (db_of s) (db_of s').
Proof.
  intros Hs Hstep. destruct Hstep as [fl latest d lp Hfl Hl Hb|tn lp lp' Hat Hit|tn lp e lp' Hat Hit|lp]; simpl in *.
  - destruct (boot_resumes cfg chain fl latest d lp) as [-> _]; try done. by left.
  - by eapply turn_moves.
  - by eapply turn_moves.
  - by left.
Qed.

(** What a commit changes of what the invariant speaks of. *)
Lemma moves_left es d d' : moves es d d' → live_left cfg d d' ∧
  ∀ c', db_cursor d' !! net = Some c' → ∀ c, db_cursor d !! net = Some c → cur_Sequence c ≤ cur_Sequence c'.
Proof.
  intros [->|(e & rec & r & now & _ & _ & _ & _ & Hrun)].
  { split; [apply live_left_refl|]. intros c' -> c [= ->]. done. }
  assert (Hleft : db_backfill d' = db_backfill d ∧ db_contracts d' = db_contracts d ∧ db_gaps d' = db_gaps d).
  { split_and!; refine (CommitLedger_framed cfg _ _ _ _ _ _ _ _ _ _ Hrun); by intros ? []. }
  rewrite run_CommitLedger in Hrun. destruct (add_records _ _ _) as [t|] eqn:Ha; [|done]. injection Hrun as <-.
  destruct Hleft as (? & ? & ?). split.
  - unfold live_left. split_and!; [done..|]. rewrite get_tables_ledger_done, get_put_tables. by eapply add_records_keeps.
  - intros c'. rewrite ledger_done_cursor, db_cursor_put. intros [= <-] c ->. unfold cursor_row.
    destruct (Z.ltb_spec (cur_Sequence c) (lr_Sequence rec)); simpl; lia.
Qed.

(** A registration stays backed over a commit under a snapshot it is safe
    under. *)
Lemma moves_backed es d d' p : moves es d d' → (∀ e, e ∈ es → safe_registration e p) → backed d p → backed d' p.
Proof.
  intros Hm Hsafe (Hu & [c Hc] & Hrow & Hder). pose proof (moves_left es d d' Hm) as [(_ & Hcon & _ & Hkeep) _].
  destruct Hm as [->|(e & rec & r & now & He & Hti & Hle & Hev & Hrun)]; [by split_and!|].
  rewrite run_CommitLedger in Hrun. destruct (add_records _ _ _) as [t|] eqn:Ha; [|done]. injection Hrun as <-.
  rewrite get_tables_ledger_done, get_put_tables in Hkeep.
  split_and!; [done|rewrite ledger_done_cursor; by eexists|by rewrite Hcon|].
  intros c' kind l. rewrite ledger_done_cursor, db_cursor_put, Hc, get_tables_ledger_done, get_put_tables.
  intros [= <-] Hk Hl. destruct (Z.le_gt_cases l (cur_Sequence c)) as [Hold|Hnew].
  { eapply derived_kind_keeps; [exact Hkeep|]. apply (Hder c); [done..|lia]. }
  assert (l = lr_Sequence rec) as ->.
  { specialize (Hle c Hc). unfold cursor_row in Hl. destruct (Z.ltb_spec (cur_Sequence c) (lr_Sequence rec)); simpl in Hl; lia. }
  destruct (Hsafe e He) as [Hw|(s & Hs & Hfar)]; [|by specialize (Hti s Hs); lia].
  eapply (derived_from (r := r)); [by exists (ls_snap e); auto| |exact Ha].
  apply sub_records_trans with (2 := records_of_sub (rn_contract p) r), of_kind_sub.
Qed.

Lemma dated_safe d e p : safe_registration e p → safe_registration (dated cfg d e) p.
Proof.
  intros [?|(s & Hs & ?)]; [by left|right]. exists s. unfold dated. simpl. by rewrite Hs.
Qed.

Lemma goes_staged s s' es ps : staged (mkScene s es ps) → process_step cfg (timely_turn chain es) s s' →
  staged (mkScene s' (dated cfg (db_of s') <$> es) ps) ∧ rtc (sys_step net pass chain) (db_of s) (db_of s').
Proof.
  intros [Hsteady Htr Hacc Hdat Hwalks Hback Hsafe] Hstep. cbn in *.
  assert (Hm : moves es (db_of s) (db_of s')) by (apply process_moves; [apply Hsteady|done]).
  destruct (own_system cfg chain Hlinked Hstart s s' Hsteady) as [Hst' Hsys].
  { eapply process_step_impl; [|exact Hstep]. intros tn lp ->. by apply timely_attended. }
  split; [|done]. pose proof (moves_left es _ _ Hm) as [(Hbf & Hcon & _ & Hkeep) Hcur].
  split; cbn; [done|by eapply sys_keeps_rtc| | | | |].
  - intros cid b. rewrite Hbf, Hcon. apply Hacc.
  - intros e' (e & -> & He)%list_elem_of_fmap. specialize (Hdat e He). unfold well_dated, dated, stored_cursor in *. simpl.
    destruct (db_cursor (db_of s') !! net) as [c'|] eqn:Hc'.
    + destruct (db_cursor (db_of s) !! net) as [c|] eqn:Hc.
      * destruct Hdat as (x & -> & ?). exists x. split; [done|]. specialize (Hcur c' eq_refl c eq_refl). lia.
      * rewrite Hdat. by exists (cur_Sequence c').
    + destruct (db_cursor (db_of s) !! net) as [c|] eqn:Hc; [|by rewrite Hdat].
      exfalso. destruct Hm as [Heq|(e2 & rec & r & now & _ & _ & _ & _ & Hrun)]; [by rewrite Heq, Hc in Hc'|].
      rewrite run_CommitLedger in Hrun. destruct (add_records _ _ _) as [t|]; [|done]. injection Hrun as Hrun.
      rewrite <- Hrun, ledger_done_cursor in Hc'. done.
  - intros e' (e & -> & He)%list_elem_of_fmap cid b kind Hb Hk. rewrite Hbf in Hb. unfold dated. cbn.
    destruct (Hwalks e He cid b kind Hb Hk) as [?|Hder]; [by left|right]. intros x l Hx Hl.
    eapply derived_kind_keeps; [exact Hkeep|]. eapply (Hder x); [|done].
    specialize (Hdat e He). unfold well_dated in Hdat. destruct (db_cursor (db_of s) !! net) as [c|] eqn:Hc.
    + destruct Hdat as (y & Hy & _). by rewrite Hy in Hx |- *.
    + destruct Hsteady as [_ Hun]. rewrite (Hun Hc cid) in Hb. done.
  - intros p Hp. eapply moves_backed; [exact Hm| |by apply Hback]. intros e He. by apply Hsafe.
  - intros e' p (e & -> & He)%list_elem_of_fmap Hp. by apply dated_safe, Hsafe.
Qed.

(** *** The others *)

Section others.
Context (s : process_state) (es : list listing) (ps : list registering) (d' : db).
Context (Hsg : staged (mkScene s es ps)) (Haside : aside_step net pass chain (db_of s) d').

Lemma aside_cursor : db_cursor d' = db_cursor (db_of s).
Proof. by injection (aside_followed _ _ _ _ _ Haside). Qed.

(** What is left to show of a step beside the loop. *)
Lemma aside_staged ps' :
  accounted cfg d' → (db_cursor d' !! net = None → ∀ cid, db_backfill d' !! (net, cid) = None) →
  (∀ e, e ∈ es → safe_walk d' e) → (∀ p, p ∈ ps' → p ∈ ps ∧ backed d' p) →
  staged (mkScene (with_db d' s) es ps') ∧ rtc (sys_step net pass chain) (db_of s) d'.
Proof.
  intros Hacc Hun Hwalks Hback. destruct Hsg as [[Hs _] Htr _ Hdat _ _ Hsafe]. cbn in *.
  split; [|by apply rtc_once, AsideStep]. split; cbn; rewrite ?db_of_with; try done.
  - split; [|by rewrite db_of_with]. apply sound_with; [by eapply aside_followed|done].
  - by eapply aside_keeps.
  - intros e He. unfold well_dated. rewrite aside_cursor. by apply Hdat.
  - intros p Hp. by apply Hback.
  - intros e p He Hp. apply Hsafe; [done|]. by apply Hback.
Qed.

Lemma backed_keeps p : keeps_stored net (get_tables (db_of s)) (get_tables d') →
  (∀ row, db_contracts (db_of s) !! (net, rn_contract p) = Some row →
     ∃ row', db_contracts d' !! (net, rn_contract p) = Some row' ∧ ∀ kind, kind ∈ c_kinds row → kind ∈ c_kinds row') →
  p ∈ ps → backed d' p.
Proof.
  intros Hk Hrow Hp. destruct (sg_backed _ Hsg p Hp) as (Hu & Hc & (row & Hr & Hkinds) & Hder). cbn in *.
  destruct (Hrow row Hr) as (row' & Hr' & Hmore). split_and!; [done|by rewrite aside_cursor| |].
  - exists row'. split; [done|]. eauto.
  - intros c kind l. rewrite aside_cursor. intros. eapply derived_kind_keeps; [exact Hk|]. by eapply Hder.
Qed.

(** The walks that are sheltered stay safe, and belong where they did. *)
Lemma sheltered : shelters net pass chain (db_of s) d' → keeps_stored net (get_tables (db_of s)) (get_tables d') →
  (∀ e, e ∈ es → safe_walk d' e) ∧
  (db_cursor d' !! net = None → ∀ cid, db_backfill d' !! (net, cid) = None).
Proof.
  intros Hsh Hkeep. destruct Hsg as [[_ Hun] _ _ _ Hwalks _ _]. cbn in *. split.
  - intros e He cid b' kind Hb' Hk. destruct (Hsh cid b' Hb') as (b & Hb & Hkinds & Hder). rewrite Hkinds in Hk.
    destruct (Hwalks e He cid b kind Hb Hk) as [?|Hold]; [by left|right]. intros x l Hx Hl.
    destruct (Z.le_gt_cases l (b_next_to b)); [apply Hder; [done|lia]|].
    eapply derived_kind_keeps; [exact Hkeep|]. apply (Hold x); [done|lia].
  - rewrite aside_cursor. intros Hc cid. destruct (db_backfill d' !! (net, cid)) as [b'|] eqn:Hb'; [|done].
    destruct (Hsh cid b' Hb') as (b & Hb & _). by rewrite (Hun Hc cid) in Hb.
Qed.
End others.

Lemma works_staged s d' es ps : staged (mkScene s es ps) → worker_step net pass chain (db_of s) d' →
  staged (mkScene (with_db d' s) es ps) ∧ rtc (sys_step net pass chain) (db_of s) d'.
Proof.
  intros Hsg Hw. destruct (worker_shelters net pass chain (db_of s) d' (sg_truthful _ Hsg) Hw) as (Hcon & Hkeep & Hsh).
  assert (Ha : aside_step net pass chain (db_of s) d') by (by apply WorkerStep).
  destruct (sheltered s es ps d' Hsg Ha Hsh Hkeep) as [Hwalks Hun].
  apply (aside_staged s es ps d' Hsg Ha); try done.
  - intros cid b' (b & Hb & -> & _)%Hsh. rewrite Hcon. by apply (sg_accounted _ Hsg cid b).
  - intros p Hp. split; [done|]. eapply backed_keeps; [done..| |done]. rewrite Hcon. eauto.
Qed.

Lemma saves_staged s es ps c saved now d' : staged (mkScene s es ps) →
  (∀ old kind, db_contracts (db_of s) !! (ct_Network c, ct_ContractID c) = Some old →
     kind ∈ c_kinds old → kind ∈ ct_Kinds c) →
  run now (UpsertContract c) (db_of s) = Ok (saved, d') →
  staged (mkScene (with_db d' s) es ps) ∧ rtc (sys_step net pass chain) (db_of s) d'.
Proof.
  intros Hsg Hmore Hrun. assert (Ha : aside_step net pass chain (db_of s) d') by (by eapply ContractStep).
  apply UpsertContract_Ok in Hrun as (_ & _ & ->). set (d1 := set_contracts _ (db_of s)) in *.
  assert (Hbf : db_backfill d1 = db_backfill (db_of s)) by (by unfold d1; destruct (db_of s)).
  assert (Hkeep : keeps_stored net (get_tables (db_of s)) (get_tables d1)).
  { assert (get_tables d1 = get_tables (db_of s)) as -> by (unfold d1; by destruct (db_of s)). done. }
  assert (Hrow : ∀ k row, db_contracts (db_of s) !! k = Some row →
    ∃ row', db_contracts d1 !! k = Some row' ∧ ∀ kind, kind ∈ c_kinds row → kind ∈ c_kinds row').
  { intros k row Hk. unfold d1. autorewrite with sierpe_simp.
    destruct (decide ((ct_Network c, ct_ContractID c) = k)) as [<-|Hne].
    - rewrite lookup_insert_eq. eexists. split; [done|]. rewrite Hk. intros kind. by apply Hmore.
    - rewrite lookup_insert_ne by done. by exists row. }
  destruct (sheltered s es ps d1 Hsg Ha) as [Hwalks Hun]; [by apply shelters_same|done|].
  apply (aside_staged s es ps d1 Hsg Ha); try done.
  - intros cid b. rewrite Hbf. intros (row & Hr & Hk)%(sg_accounted _ Hsg). destruct (Hrow _ _ Hr) as (row' & ? & ?).
    exists row'. split; [done|]. eauto.
  - intros p Hp. split; [done|]. eapply backed_keeps; [done..| |done]. intros row. apply Hrow.
Qed.

Lemma deletes_staged s es ps cid existed now d' : staged (mkScene s es ps) →
  (∀ p, p ∈ ps → rn_contract p ≠ cid) → run now (DeleteContract net cid) (db_of s) = Ok (existed, d') →
  staged (mkScene (with_db d' s) es ps) ∧ rtc (sys_step net pass chain) (db_of s) d'.
Proof.
  intros Hsg Hno Hrun. assert (Ha : aside_step net pass chain (db_of s) d') by (by eapply DeleteStep).
  injection Hrun as _ <-. match type of Ha with aside_step _ _ _ _ ?x => set (d1 := x) in * end.
  assert (Hbf : db_backfill d1 = delete (net, cid) (db_backfill (db_of s))) by (by unfold d1; destruct (db_of s)).
  assert (Hcon : db_contracts d1 = delete (net, cid) (db_contracts (db_of s))) by (by unfold d1; destruct (db_of s)).
  assert (Hkeep : keeps_stored net (get_tables (db_of s)) (get_tables d1)).
  { assert (get_tables d1 = get_tables (db_of s)) as -> by (unfold d1; by destruct (db_of s)). done. }
  destruct (sheltered s es ps d1 Hsg Ha) as [Hwalks Hun].
  { intros k b'. rewrite Hbf. intros [_ Hb]%lookup_delete_Some. exists b'. split_and!; [done..|lia]. }
  { done. }
  apply (aside_staged s es ps d1 Hsg Ha); try done.
  - intros k b. rewrite Hbf, Hcon. intros [Hne Hb]%lookup_delete_Some. rewrite lookup_delete_ne by done.
    by apply (sg_accounted _ Hsg k b).
  - intros p Hp. split; [done|]. eapply backed_keeps; [done..| |done]. intros row Hr. exists row. rewrite Hcon.
    rewrite lookup_delete_ne; [done|]. intros [= Heq]. by apply (Hno p Hp).
Qed.

(** *** A registration's own steps *)

Lemma ensures_staged s es ps p targetFrom now d' : staged (mkScene s es ps) → p ∈ ps → is_u32 targetFrom →
  run now (EnsureBackfill net (rn_contract p) targetFrom (rn_anchor p) (rn_kinds p)) (db_of s) = Ok (tt, d') →
  staged (mkScene (with_db d' s) es ps) ∧ rtc (sys_step net pass chain) (db_of s) d'.
Proof.
  intros Hsg Hp Htf Hrun. pose proof Hsg as [_ Htr Hacc _ Hwalks Hback Hsafe]. cbn in Htr, Hacc, Hwalks, Hback, Hsafe.
  destruct (Hback p Hp) as (Hu & Hcur & (row & Hrow & Hkinds) & Hder).
  assert (Ha : aside_step net pass chain (db_of s) d') by (eapply RegisterStep; [exact Htf|exact Hu|exact Hder|exact Hrun]).
  destruct (ensured_rows net (rn_contract p) targetFrom (rn_anchor p) (rn_kinds p) now (db_of s) d') as (Hcon & Ht & Hrows);
    [by apply (tr_walks Htr)|done|].
  assert (Hkeep : keeps_stored net (get_tables (db_of s)) (get_tables d')) by (by rewrite Ht).
  apply (aside_staged s es ps d' Hsg Ha).
  - intros cid b' Hb'. rewrite Hcon. destruct (Hrows cid b' Hb') as [Hb|(-> & Hsub & _)]; [by eapply Hacc|].
    exists row. split; [done|]. eauto.
  - rewrite (aside_cursor s d' Ha). intros Hnone. rewrite Hnone in Hcur. by destruct Hcur.
  - intros e He cid b' kind Hb' Hk. rewrite Ht. destruct (Hrows cid b' Hb') as [Hb|(-> & Hsub & Hnext)]; [by eapply Hwalks|].
    destruct Hnext as [(b & Hb & Hin & Hn)|Hn]; rewrite Hn.
    + apply (Hwalks e He _ b); auto.
    + destruct (Hsafe e p He Hp) as [Hw|(x & Hx & Hfar)]; [left; auto|right]. intros y l Hy Hl.
      rewrite Hx in Hy. injection Hy as ->. lia.
  - intros q Hq. split; [done|]. eapply backed_keeps; [done..| |done]. rewrite Hcon. eauto.
Qed.

Lemma lists_staged s es ps fl now r r' : staged (mkScene s es ps) → rg_network r = net →
  Reload fl now (db_of s) r = (Ok tt, r') →
  staged (mkScene s (mkListing (rg_snap r') (stored_cursor cfg (db_of s)) :: es) ps).
Proof.
  intros [Hsteady Htr Hacc Hdat Hwalks Hback Hsafe] Hnet Hr. cbn in Hsteady, Htr, Hacc, Hdat, Hwalks, Hback, Hsafe.
  assert (Hsnap : ∀ cid row kind, db_contracts (db_of s) !! (net, cid) = Some row → kind ∈ c_kinds row →
    watches (rg_snap r') cid kind = true).
  { intros cid row kind Hrow Hk. by apply (reloaded_watches _ _ _ _ _ _ _ row Hr); [rewrite Hnet|]. }
  split; cbn; try done.
  - intros e [->|He]%elem_of_cons; [|by apply Hdat]. unfold well_dated, stored_cursor. simpl.
    destruct (db_cursor (db_of s) !! net) as [c|]; [|done]. by exists (cur_Sequence c).
  - intros e [->|He]%elem_of_cons; [|by apply Hwalks]. intros cid b kind Hb Hk. left. cbn.
    destruct (Hacc cid b Hb) as (row & Hrow & Hkinds). eauto.
  - intros e p [->|He]%elem_of_cons Hp; [left|by apply Hsafe]. intros kind Hk. cbn.
    destruct (Hback p Hp) as (_ & _ & (row & Hrow & Hkinds) & _). eauto.
Qed.

Lemma reads_staged s es ps cid kinds row now c nextTo d' : staged (mkScene s es ps) →
  db_contracts (db_of s) !! (net, cid) = Some row → (∀ kind, kind ∈ kinds → kind ∈ c_kinds row) →
  run now (LoadCursor net) (db_of s) = Ok (c, d') → cur_Sequence c + registrationAnchorMargin ≤ max_u32 →
  anchor (Ok c) = Some nextTo → staged (mkScene s es (mkRegistering cid nextTo kinds :: ps)).
Proof.
  intros [Hsteady Htr Hacc Hdat Hwalks Hback Hsafe] Hrow Hkinds Hread Hmax Hanchor. cbn in Hsteady, Htr, Hacc, Hdat, Hwalks, Hback, Hsafe.
  unfold LoadCursor in Hread. simpl in Hread. destruct (db_cursor (db_of s) !! net) as [c0|] eqn:Hc; [|done].
  pose proof (tr_cursor Htr c0 Hc) as Hu0. injection Hread as <- _. simpl in *.
  rewrite (u32_small (cur_Sequence c0)) in * by done. unfold registrationAnchorMargin in *.
  rewrite u32_small in Hanchor by uarith. injection Hanchor as <-.
  split; cbn; try done.
  - intros p [->|Hp]%elem_of_cons; [|by apply Hback]. split_and!; cbn; [uarith|by eexists|by exists row|].
    intros c1 kind l Hc1. rewrite Hc in Hc1. injection Hc1 as <-. lia.
  - intros e p He [->|Hp]%elem_of_cons; [right|by apply Hsafe]. specialize (Hdat e He). unfold well_dated in Hdat.
    rewrite Hc in Hdat. destruct Hdat as (x & Hx & ?). exists x. cbn. unfold registrationAnchorMargin. split; [done|lia].
Qed.

(** *** The scene *)

Lemma scene_staged sc sc' : staged sc → scene_step cfg chain sc sc' →
  staged sc' ∧ rtc (sys_step net pass chain) (db_of (sc_process sc)) (db_of (sc_process sc')).
Proof.
  intros Hsg Hstep. destruct Hstep; cbn; rewrite ?db_of_with.
  - by apply goes_staged.
  - split; [by eapply lists_staged|done].
  - by apply works_staged.
  - by eapply saves_staged.
  - split; [by eapply reads_staged|done].
  - by eapply ensures_staged.
  - split; [|done]. destruct Hsg as [? ? ? ? ? Hb Hs]. cbn in *. split; cbn; auto.
  - by eapply deletes_staged.
Qed.

Lemma scene_reachable sc sc' : staged sc → rtc (scene_step cfg chain) sc sc' →
  staged sc' ∧ rtc (sys_step net pass chain) (db_of (sc_process sc)) (db_of (sc_process sc')).
Proof.
  intros Hs Hr. induction Hr as [sc|s1 s2 s3 H12 _ IH]; [done|].
  destruct (scene_staged s1 s2 Hs H12) as [Hs2 H12']. destruct (IH Hs2) as [? ?].
  split; [done|]. by transitivity (db_of (sc_process s2)).
Qed.
End invariant.

(** ** Properties *)

(** C4.  The live loop is a component of the system, among registrations that wait
    for nobody.  From a database that declares the truth, on an honest source,
    interleave at will: the process boots, takes turns, stops, crashes and loses
    acknowledgements; the registry is reloaded; registrations save their row, read
    the cursor and open their walk; contracts are deleted; the workers commit what
    the system allows them.  As long as no more than 20 ledgers are taken under one
    snapshot, no registration comes before the first ledger or drops a kind, and
    none is deleted while it is handled, every commit of the loop is a step of the
    system - the ledger is the cursor's successor, or its own again, and each walk
    that comes to vouch for it has it derived -, every registration opens its walk
    where the system allows it, the cursor and the ring follow the chain, and what
    the database declares is true. *)
Theorem loop_refines_system `{S : SDK} `{!SDKChanges} `{!LedgerHeaders} `{!Collation} (cfg : Config)
    (chain : Z → LedgerCloseMeta) (d0 : db) (sc : scene) :
  linked chain → is_u32 (cf_StartLedger cfg) → contiguous cfg chain d0 → unopened cfg d0 →
  truthful (cf_Network cfg) (cf_Passphrase cfg) chain d0 → accounted cfg d0 →
  rtc (scene_step cfg chain) (mkScene (Down d0) [] []) sc →
  rtc (sys_step (cf_Network cfg) (cf_Passphrase cfg) chain) d0 (db_of (sc_process sc)) ∧
  contiguous cfg chain (db_of (sc_process sc)) ∧
  truthful (cf_Network cfg) (cf_Passphrase cfg) chain (db_of (sc_process sc)).
Proof.
  intros Hl Hst Hc Hun Htr Hacc Hr.
  destruct (scene_reachable cfg chain Hl Hst (mkScene (Down d0) [] []) sc) as [Hsg Hsys]; [|done|].
  - split; cbn; try done; first [by intros ? ?%elem_of_nil|by intros ? ? ?%elem_of_nil].
  - split_and!; [done| |apply Hsg]. destruct Hsg as [[Hs _] _]. destruct (sc_process sc); [done|apply Hs].
Qed.

(** ** Witness *)

#[local] Existing Instance demo_sdk.
#[local] Existing Instance demo_changes.
#[local] Existing Instance demo_headers.
#[local] Existing Instance bytewise.

(** The loop is at ledger 9 when a contract is registered; ledger 10 is still
    taken under the snapshot listed before, ledger 11 under a new one. *)
Definition scene_turn (l : Z) (snap : Snapshot) : @turn demo_sdk :=
  @mkTurn demo_sdk false (Ok (demo_block l)) false (Some 20) true snap no_faults false 1 100.
Definition scene_next (l : Z) (snap : Snapshot) (lp : loop) : loop := (iterate demo_cfg (scene_turn l snap) lp).2.

Definition scene_old : Snapshot := rg_snap (Reload no_faults 1 empty_db (New "testnet")).2.
Definition scene_lp9 : loop := scene_next 9 scene_old demo_lp.
Definition scene_saved : db := after (UpsertContract (mkContract "testnet" "CA" "api" ["movements"] None 0)) (lp_db scene_lp9).
Definition scene_lp10 : loop := scene_next 10 scene_old (set_db scene_saved scene_lp9).
Definition scene_opened : db := after (EnsureBackfill "testnet" "CA" 5 29 ["movements"]) (lp_db scene_lp10).
Definition scene_new : Snapshot := rg_snap (Reload no_faults 1 scene_opened (New "testnet")).2.
Definition scene_lp11 : loop := scene_next 11 scene_new (set_db scene_opened scene_lp10).

Lemma scene_going l snap lp es ps e : e ∈ es → ls_snap e = snap → timely e (lp_next lp) → lp_next lp = l →
  (iterate demo_cfg (scene_turn l snap) lp).1 = Again → l < max_u32 →
  scene_step demo_cfg demo_block (mkScene (Up lp) es ps)
    (mkScene (Up (scene_next l snap lp)) (dated demo_cfg (lp_db (scene_next l snap lp)) <$> es) ps).
Proof.
  intros He Hs Hti Hn Hit Hmax. apply (Goes demo_cfg demo_block (Up lp) (Up (scene_next l snap lp))).
  apply (Turn demo_cfg _ (scene_turn l snap)); [|by apply iterate_again].
  split; [intros lcm [= <-]; by rewrite Hn|]. by exists e.
Qed.

Lemma scene_run : ∃ es ps, rtc (scene_step demo_cfg demo_block) (mkScene (Down empty_db) [] [])
  (mkScene (Up scene_lp11) es ps).
Proof.
  do 2 eexists.
  eapply rtc_l. { eapply (Lists _ _ _ _ _ no_faults 1 (New "testnet")); vm_compute; reflexivity. }
  eapply rtc_l. { eapply (Goes _ _ _ (Up demo_lp)), (Boot demo_cfg _ no_faults (Some 20)); [done| |reflexivity]. intros l [= <-]. uarith. }
  eapply rtc_l. { apply (scene_going 9 scene_old demo_lp _ _ (mkListing scene_old None)); [by left|done..]. }
  eapply rtc_l.
  { eapply (Saves _ _ _ _ _ (mkContract "testnet" "CA" "api" ["movements"] None 0) _ 1 scene_saved);
      [|vm_compute; reflexivity]. by intros old kind Hold. }
  eapply rtc_l.
  { eapply (Reads _ _ _ _ _ "CA" ["movements"] (mkContractRow "api" ["movements"] None 1) 1 (mkCursor 9 "h9") 29);
      [vm_compute; reflexivity|done|vm_compute; reflexivity|vm_compute; discriminate|reflexivity]. }
  eapply rtc_l.
  { apply (scene_going 10 scene_old (set_db scene_saved scene_lp9) _ _ (mkListing scene_old (Some 9)));
      [by left|done|by intros c [= <-]|done..]. }
  eapply rtc_l. { eapply (Ensures _ _ _ _ _ (mkRegistering "CA" 29 ["movements"]) 5 1 scene_opened); [by left|uarith|vm_compute; reflexivity]. }
  eapply rtc_l. { eapply (Lists _ _ _ _ _ no_faults 1 (New "testnet") (mkRegistry "testnet" scene_new)); vm_compute; reflexivity. }
  apply rtc_once.
  apply (scene_going 11 scene_new (set_db scene_opened scene_lp10) _ _ (mkListing scene_new (Some 10)));
    [by left|done|by intros c [= <-]|done..].
Qed.

Lemma loop_refines_system_witness :
  rtc (sys_step "testnet" "pass" demo_block) empty_db (lp_db scene_lp11) ∧
  db_cursor (lp_db scene_lp11) !! "testnet" = Some (mkCursor 11 "h11").
Proof.
  split; [|vm_compute; reflexivity]. destruct scene_run as (es & ps & Hrun).
  destruct (loop_refines_system demo_cfg demo_block empty_db (mkScene (Up scene_lp11) es ps)) as [Hsys _].
  - exact demo_linked.
  - simpl. uarith.
  - exact demo_fresh.
  - intros _ cid. reflexivity.
  - apply sys_truthful, rtc_refl.
  - intros cid b Hb. discriminate.
  - exact Hrun.
  - exact Hsys.
Defined.
