(* ===== verification/Follow.v ===== *)
(** * The live loop catches up

    [Loop] and [Scene] show that the loop commits nothing wrong; here, that it
    commits.  As long as turns on which nothing fails keep coming, the loop
    reaches every ledger the source has, whatever the turns between them fail
    with, however often the process stops, is killed, or fails to start, and
    whatever the other components commit meanwhile - provided Postgres stores the
    texts of the chain's transfers. *)

From stdpp Require Import relations.
From S2P Require Import Prelude HealPlan Db Gaps Rows Registrations Commit Registry Api Extract Loop Workers System Backfill Derived Provenance Coverage Histories Accepted Together.

(** ** Definitions *)

(** A turn that does not end the process: neither the context nor the source's
    retention stops it. *)
Definition survives `{SDK} (tn : turn) : Prop :=
  tn_cancelled tn = false ∧ tn_dying tn = false ∧ tn_slept tn = true ∧ tn_get tn ≠ Err ErrBelowRetention.

(** A turn on which the next ledger arrives and nothing fails. *)
Definition flawless `{SDK} (tn : turn) : Prop :=
  tn_cancelled tn = false ∧ (∃ lcm, tn_get tn = Ok lcm) ∧ tn_faults tn = no_faults ∧ tn_lost tn = false.

(** What may happen to the process: one iteration when it is up, its end, an
    attempt to start it when it is down. *)
Inductive happening `{SDK} :=
  | Iterates (tn : turn)
  | Dies
  | Starts (verified : bool) (fl : faults) (latest : option Z).

(** The first ledger of a fresh database: the configured one, or the tip of a
    start, which lies in the range. *)
Definition opening (cfg : Config) (base reach x : Z) : Prop :=
  base ≤ x ≤ reach ∧ (cf_StartLedger cfg ≠ 0 → x = cf_StartLedger cfg).

Section life.
Context `{S : SDK} `{!SDKChanges} `{!LedgerHeaders} (cfg : Config).

Definition happen (h : happening) (s : process_state) : process_state :=
  match h, s with
  | Iterates tn, Up lp =>
      match iterate cfg tn lp with (Again, lp) => Up lp | (Stopped _, lp) => Down (lp_db lp) end
  | Dies, Up lp => Down (lp_db lp)
  | Starts verified fl latest, Down d =>
      match boot cfg verified fl latest d with inl _ => Down d | inr lp => Up lp end
  | _, _ => s
  end.

(** The world answers the process it meets; before each happening, [others]
    commit. *)
Context (happens : nat → process_state → happening) (others : nat → db → db).

Definition beside (i : nat) (s : process_state) : process_state := with_db (others i (db_of s)) s.

(** The process from the [i]-th happening on. *)
Fixpoint live (i n : nat) (s : process_state) : process_state :=
  match n with
  | O => s
  | Datatypes.S n => live (Datatypes.S i) n (happen (happens i (beside i s)) (beside i s))
  end.

Definition is_up (s : process_state) : bool := match s with Up _ => true | Down _ => false end.

(** How many good happenings it is up for. *)
Fixpoint met (good : nat → bool) (i n : nat) (s : process_state) : Z :=
  match n with
  | O => 0
  | Datatypes.S n => (if good i && is_up s then 1 else 0) +
      met good (Datatypes.S i) n (happen (happens i (beside i s)) (beside i s))
  end.

(** The other components neither touch the cursor nor the ring, keep the
    histories the chain's and delete no record. *)
Definition neighbourly (chain : Z → LedgerCloseMeta) (d d' : db) : Prop :=
  followed d' = followed d ∧
  (sound_rows (cf_Network cfg) (cf_Passphrase cfg) chain (get_tables d) →
   sound_rows (cf_Network cfg) (cf_Passphrase cfg) chain (get_tables d')) ∧
  keeps_stored (cf_Network cfg) (get_tables d) (get_tables d').

(** The world: its source is honest, a read of the cursor may fail but does not
    make it vanish, a fresh start begins between [base] and [reach], and on a good
    happening that meets the process up, a ledger up to [reach] is served and
    nothing fails. *)
Record kind_world (chain : Z → LedgerCloseMeta) (good : nat → bool) (base reach : Z) : Prop := {
  kw_turn : ∀ i lp tn, happens i (Up lp) = Iterates tn → serves chain tn lp;
  kw_start : ∀ i d verified fl latest, happens i (Down d) = Starts verified fl latest →
    (∀ n, fl n ≠ Some ErrNoCursor) ∧ ∀ l, latest = Some l → is_u32 l ∧
      (db_cursor d !! cf_Network cfg = None → base ≤ (if cf_StartLedger cfg =? 0 then l else cf_StartLedger cfg) ≤ reach);
  kw_others : ∀ i d, neighbourly chain d (others i d);
  kw_good : ∀ i lp, good i = true → lp_next lp ≤ reach → ∃ tn, happens i (Up lp) = Iterates tn ∧ flawless tn }.
End life.

(** ** Lemmas *)
Section life.
Context `{S : SDK} `{!SDKChanges} `{!SDKLaws} `{!LedgerHeaders} (cfg : Config) (chain : Z → LedgerCloseMeta).
Context (Hlinked : linked chain) (Hstart : is_u32 (cf_StartLedger cfg)).

Abbreviation net := (cf_Network cfg).
Abbreviation pass := (cf_Passphrase cfg).

(** The other components are such neighbours. *)
Lemma aside_neighbourly d d' : aside_step net pass chain d d' → neighbourly cfg chain d d'.
Proof.
  intros Hstep. split; [by eapply aside_followed|].
  assert (Hsame : get_tables d' = get_tables d → (sound_rows net pass chain (get_tables d) →
    sound_rows net pass chain (get_tables d')) ∧ keeps_stored net (get_tables d) (get_tables d')) by (by intros ->).
  assert (Hadd : ∀ r t, add_records net r (get_tables d) = Ok t → from_chain pass chain r → get_tables d' = t →
    (sound_rows net pass chain (get_tables d) → sound_rows net pass chain (get_tables d')) ∧
    keeps_stored net (get_tables d) (get_tables d')).
  { intros r t Ha Hfrom ->. split; [|by eapply add_records_keeps].
    intros Hs. exact (sound_add net pass chain r (get_tables d) t Hs Hfrom Ha). }
  destruct Hstep as [[nxt share b now Hb Hready Hrun|gap newNextTo resolved goNow records r now Hready Hrun|
      from to reason now _ _ Hrun|replay padding res now _ _ _ Hrun]|cid targetFrom nextTo kinds now _ _ _ Hrun|
      c saved now Hrun|cid existed now Hrun].
  - rewrite run_CommitBackfillChunk, Hb in Hrun. destruct (add_records _ _ _) as [t|] eqn:Ha; [|done].
    injection Hrun as <-. apply (Hadd share t Ha); [apply Hready|by rewrite get_put_tables].
  - rewrite run_CommitHealChunk in Hrun. destruct (add_records _ _ _) as [t|] eqn:Ha; [|done].
    destruct (_ =? 0); [done|]. cbv zeta in Hrun. injection Hrun as <-.
    apply (Hadd records t Ha); [apply Hready|by rewrite get_put_tables].
  - eapply Hsame, untouched_tables; [|exact Hrun]. apply _.
  - eapply Hsame, untouched_tables; [|exact Hrun]. apply _.
  - eapply Hsame, untouched_tables; [|exact Hrun]. apply _.
  - eapply Hsame, untouched_tables; [|exact Hrun]. apply _.
  - eapply Hsame, untouched_tables; [|exact Hrun]. apply _.
Qed.

(** The steps of the system keep the histories the chain's. *)
Lemma sys_sound d d' : sound_rows net pass chain (get_tables d) → rtc (sys_step net pass chain) d d' →
  sound_rows net pass chain (get_tables d').
Proof.
  intros Hs Hr. induction Hr as [|d1 d2 d3 Hstep _ IH]; [done|]. apply IH.
  destruct Hstep as [snap rec r now Hev _ _ _ Hrun|Haside]; [|by apply (aside_neighbourly d1 d2)].
  rewrite run_CommitLedger in Hrun. destruct (add_records _ _ _) as [t|] eqn:Ha; [|done]. injection Hrun as <-.
  rewrite get_tables_ledger_done, get_put_tables. eapply sound_add; [exact Hs| |exact Ha]. by eapply reading_from_chain.
Qed.

(** *** One happening *)

(** On an honest source a turn that survives goes on. *)
Lemma iterate_survives tn lp : poised cfg chain lp → serves chain tn lp → survives tn →
  (iterate cfg tn lp).1 = Again.
Proof.
  intros Hp Hs (Hc & Hd & Hsl & Hb). destruct (iterate cfg tn lp) as [[|[e|]] lp'] eqn:Hit; [done|exfalso..].
  - pose proof (honest_never_diverges cfg chain tn lp e lp' Hp Hs Hit) as ->. revert Hit.
    unfold iterate, process, back_off, pause. rewrite Hc, Hd, Hsl. destruct (tn_get tn) as [lcm|[]]; try done.
    destruct (negb _); [done|]. destruct (bool_decide _ && _); [done|]. destruct (Events _ _ _); [|done].
    cbv zeta. by destruct (commit _ _ _ _ _) as [[[]|] ?].
  - revert Hit. unfold iterate, process, back_off, pause. rewrite Hc, Hd, Hsl. destruct (tn_get tn) as [lcm|[]]; try done.
    destruct (negb _); [done|]. destruct (bool_decide _ && _); [done|]. destruct (Events _ _ _); [|done].
    cbv zeta. by destruct (commit _ _ _ _ _) as [[[]|] ?].
Qed.

(** A start comes after the cursor, or where the configuration or the tip says. *)
Lemma starts_at verified fl latest d lp : contiguous cfg chain d → (∀ k, fl k ≠ Some ErrNoCursor) →
  (∀ l, latest = Some l → is_u32 l) → boot cfg verified fl latest d = inr lp →
  poised cfg chain lp ∧ lp_db lp = d ∧
  match db_cursor d !! net with
  | Some c => lp_next lp = cur_Sequence c + 1
  | None => ∃ l, latest = Some l ∧ lp_next lp = if cf_StartLedger cfg =? 0 then l else cf_StartLedger cfg
  end.
Proof.
  destruct verified; [|done]. intros Hc Hfl Hl Hb. destruct (boot_resumes cfg chain fl latest d lp Hc Hfl Hl Hstart Hb) as [Hdb Hm].
  split_and!; [by eapply poised_boot|done|]. destruct (db_cursor d !! net) as [c|] eqn:Hcur; [apply Hm|].
  revert Hb. unfold boot. simpl negb. cbv iota. destruct (LoadCursor_answer cfg fl d Hfl) as [->|(e & -> & He)].
  - rewrite Hcur. unfold resumePoint. rewrite bool_decide_eq_true_2 by done. destruct latest as [l|]; [|done].
    intros [= <-]. by exists l.
  - unfold resumePoint. by rewrite bool_decide_eq_false_2.
Qed.

(** What a commit of the loop leaves. *)
Lemma commit_leaves rec r now d d' : run now (CommitLedger net rec (all_records r)) d = Ok (tt, d') →
  db_cursor d' !! net = Some (cursor_row rec (db_cursor d !! net)) ∧
  add_records net (all_records r) (get_tables d) = Ok (get_tables d').
Proof.
  rewrite run_CommitLedger. destruct (add_records _ _ _) as [t|]; [|done]. intros [= <-].
  by rewrite ledger_done_cursor, db_cursor_put, get_tables_ledger_done, get_put_tables.
Qed.

(** *** Progress *)
Context (Hopens : opens pass chain) (Hpl : placed pass chain) (Htext : storable pass chain).

(** A flawless turn commits: nothing refuses what the chain derives. *)
Lemma flawless_advances tn lp : poised cfg chain lp → sound_rows net pass chain (get_tables (lp_db lp)) →
  serves chain tn lp → flawless tn → ∃ lp', iterate cfg tn lp = (Again, lp') ∧ lp_next lp' = lp_next lp + 1.
Proof.
  intros Hp Hrows Hs (Hcan & (lcm & Hget) & Hfl & Hlost).
  destruct (Hs lcm Hget) as [-> Hmax]. pose proof Hp as (_ & Hn & _).
  destruct (Events_opens pass chain Hopens (tn_watch tn) (lp_next lp)) as [r Hev].
  destruct (add_records_accepted pass chain Hpl net (all_records r) (get_tables (lp_db lp)) Htext Hrows) as [t Hadd];
    [by eapply reading_from_chain|].
  destruct (good_turn_commits cfg tn lp (chain (lp_next lp)) r t) as (lp1 & Hit & Hnext & _); try done.
  - split_and!; [done| |by apply (poised_links cfg)|done]. simpl. rewrite chain_seq by done. by apply u32_small.
  - exists lp1. split; [done|]. rewrite Hnext. apply u32_small. uarith.
Qed.

Context (happens : nat → process_state → happening) (others : nat → db → db) (good : nat → bool) (base reach : Z).
Context (Hworld : kind_world cfg happens others chain good base reach).

(** The kinds every turn of the process watches. *)
Definition watching (cid kind : string) : Prop := ∀ i lp tn,
  happens i (Up lp) = Iterates tn → watches (tn_watch tn) cid kind = true.

(** Where the history may begin. *)
Context (begins : Z → Prop).

(** Up to the cursor every ledger is derived for what is watched. *)
Definition filled (d : db) : Prop := match db_cursor d !! net with
  | None => ∀ x, opening cfg base reach x → begins x
  | Some c => ∃ start, begins start ∧ ∀ cid kind l, watching cid kind → start ≤ l ≤ cur_Sequence c →
      derived_kind net pass chain cid kind l (get_tables d)
  end.

Record going (s : process_state) : Prop := {
  go_sound : sound_state cfg chain s;
  go_rows : sound_rows net pass chain (get_tables (db_of s));
  go_filled : filled (db_of s);
  go_fresh : ∀ lp, s = Up lp → db_cursor (lp_db lp) !! net = None → opening cfg base reach (lp_next lp) }.

(** The next ledger the process will ask for, or would when started. *)
Definition mark (s : process_state) : Z := match db_cursor (db_of s) !! net with
  | None => base
  | Some c => match s with Up lp => lp_next lp | Down _ => cur_Sequence c + 1 end
  end.

Lemma beside_going i s : going s → going (beside others i s) ∧ mark (beside others i s) = mark s.
Proof.
  intros [Hs Hr Hf Hfr]. destruct (kw_others _ _ _ _ _ _ _ Hworld i (db_of s)) as (Hfol & Hrows & Hkeep).
  assert (Hcur : db_cursor (others i (db_of s)) = db_cursor (db_of s)) by (by injection Hfol).
  unfold beside. split; [split; rewrite ?db_of_with|].
  - by apply sound_with.
  - by apply Hrows.
  - unfold filled. rewrite Hcur. unfold filled in Hf. destruct (_ !! _) as [c|]; [|done].
    destruct Hf as (start & Hb & Hd). exists start. split; [done|]. intros cid kind l Hw Hl.
    eapply derived_kind_keeps; [exact Hkeep|]. by apply Hd.
  - intros lp Heq. destruct s as [d|lp0]; [done|]. simpl in *. injection Heq as <-. simpl. rewrite Hcur. by apply Hfr.
  - unfold mark. rewrite db_of_with, Hcur. by destruct s.
Qed.

(** A process that ends is no further than its successor begins. *)
Lemma ends_going lp : going (Up lp) → going (Down (lp_db lp)) ∧ mark (Up lp) ≤ mark (Down (lp_db lp)).
Proof.
  intros [Hs Hr Hf Hfr]. split; [split; [apply Hs|done..]|]. unfold mark. simpl.
  destruct Hs as (_ & _ & Hcur). destruct (db_cursor (lp_db lp) !! net) as [c|]; [|done].
  destruct Hcur as [[-> _]|[-> _]]; lia.
Qed.

Lemma turn_going tn lp v lp' : going (Up lp) → serves chain tn lp →
  (∀ cid kind, watching cid kind → watches (tn_watch tn) cid kind = true) → iterate cfg tn lp = (v, lp') →
  going (Up lp') ∧ mark (Up lp) ≤ mark (Up lp').
Proof.
  intros [Hs Hr Hf Hfr] Hsrv Hwatch Hit. pose proof (poised_turn cfg chain tn lp v lp' Hs Hsrv Hit) as Hp'.
  pose proof Hs as (Hc & Hn & Hcur). specialize (Hfr lp eq_refl). simpl in Hr, Hf.
  apply iterate_cases in Hit as [(Hdb & Hnx & _)|(lcm & r & (Hget & Hseq & _ & Hev) & Hw & Hcase)].
  { split; [split; simpl; rewrite ?Hdb; try done|].
    - intros ? [= <-]. by rewrite Hdb, Hnx.
    - unfold mark. simpl. rewrite Hdb, Hnx. done. }
  destruct (Hsrv lcm Hget) as [-> Hmax]. unfold written in Hw. destruct (commit_leaves _ _ _ _ _ Hw) as [Hcur' Hadd].
  assert (Hnext : lp_next lp ≤ lp_next lp').
  { destruct Hcase as [(_ & -> & _)|(-> & _)]; [|done]. rewrite u32_small by uarith. lia. }
  assert (Hat : cur_Sequence (cursor_row (ledger_record (InfoOf (chain (lp_next lp)))) (db_cursor (lp_db lp) !! net)) = lp_next lp).
  { unfold cursor_row, ledger_record. cbn [lr_Sequence]. rewrite Hseq.
    destruct (db_cursor (lp_db lp) !! net) as [c|]; [|done].
    destruct (Z.ltb_spec (cur_Sequence c) (lp_next lp)); [done|]. destruct Hcur as [[? _]|[? _]]; lia. }
  assert (Hhere : ∀ cid kind, watching cid kind → derived_kind net pass chain cid kind (lp_next lp) (get_tables (lp_db lp'))).
  { intros cid kind Hk. eapply (derived_from (r := r)); [exists (tn_watch tn); split; [by apply Hwatch|exact Hev]| |exact Hadd].
    apply sub_records_trans with (2 := records_of_sub cid r), of_kind_sub. }
  assert (Hsound : sound_rows net pass chain (get_tables (lp_db lp'))).
  { eapply (sound_add net pass chain); [exact Hr| |exact Hadd]. by eapply reading_from_chain. }
  assert (Hkeep : keeps_stored net (get_tables (lp_db lp)) (get_tables (lp_db lp'))) by (by eapply add_records_keeps).
  split; [split; simpl; try done|].
  - unfold filled in *. rewrite Hcur', Hat. destruct (db_cursor (lp_db lp) !! net) as [c|] eqn:Hcr.
    + destruct Hf as (start & Hb & Hd). exists start. split; [done|]. intros cid kind l Hk Hl.
      destruct (decide (l = lp_next lp)) as [->|]; [by apply Hhere|].
      eapply derived_kind_keeps; [exact Hkeep|]. apply Hd; [done|]. destruct Hcur as [[? _]|[? _]]; lia.
    + exists (lp_next lp). split; [apply Hf, Hfr; done|]. intros cid kind l Hk Hl.
      assert (l = lp_next lp) as -> by lia. by apply Hhere.
  - intros ? [= <-]. by rewrite Hcur'.
  - unfold mark. simpl. rewrite Hcur'. destruct (db_cursor (lp_db lp) !! net) as [c|]; [lia|].
    destruct (Hfr eq_refl). lia.
Qed.

Lemma happen_going i s : going s →
  let s' := happen cfg (happens i s) s in
  going s' ∧ mark s ≤ mark s' ∧ (good i = true → is_up s = true → mark s ≤ reach → mark s < mark s').
Proof.
  intros Hg. cbv zeta. destruct s as [d|lp].
  - assert (Hstay : going (Down d) ∧ mark (Down d) ≤ mark (Down d) ∧ (good i = true → is_up (Down d) = true → mark (Down d) ≤ reach → mark (Down d) < mark (Down d))) by (by split_and!).
    destruct (happens i (Down d)) as [tn| |verified fl latest] eqn:Hh; simpl; [done..|].
    destruct (boot cfg verified fl latest d) as [e|lp] eqn:Hb; [done|].
    destruct (kw_start _ _ _ _ _ _ _ Hworld i d verified fl latest Hh) as [Hfl Hlat].
    pose proof Hg as [Hs Hr Hf _]. simpl in Hs, Hr, Hf.
    destruct (starts_at verified fl latest d lp Hs Hfl (λ l H, proj1 (Hlat l H)) Hb) as (Hp & Hdb & Hat).
    split_and!; [split|..]; simpl; rewrite ?Hdb; try done.
    + intros ? [= <-]. rewrite Hdb. intros Hnone. rewrite Hnone in Hat. destruct Hat as (l & Hl & ->).
      destruct (Hlat l Hl) as [_ Hrange]. split; [by apply Hrange|]. by destruct (Z.eqb_spec (cf_StartLedger cfg) 0).
    + unfold mark. simpl. rewrite Hdb. destruct (db_cursor d !! net) as [c|]; [lia|done].
  - destruct (happens i (Up lp)) as [tn| |verified fl latest] eqn:Hh; simpl.
    + pose proof (kw_turn _ _ _ _ _ _ _ Hworld i lp tn Hh) as Hsrv. pose proof Hg as [Hs Hr _ Hfr]. simpl in Hs, Hr.
      assert (Hwatch : ∀ cid kind, watching cid kind → watches (tn_watch tn) cid kind = true) by (intros cid kind Hw; by eapply Hw).
      assert (Hadv : good i = true → mark (Up lp) ≤ reach → ∃ lp', iterate cfg tn lp = (Again, lp') ∧ lp_next lp' = lp_next lp + 1).
      { intros Hgood Hle. destruct (kw_good _ _ _ _ _ _ _ Hworld i lp Hgood) as (tn' & Hh' & Hfl).
        - unfold mark in Hle. simpl in Hle. destruct (db_cursor (lp_db lp) !! net) eqn:Hc; [done|]. by apply (Hfr lp).
        - rewrite Hh in Hh'. injection Hh' as <-. by apply flawless_advances. }
      destruct (iterate cfg tn lp) as [v lp'] eqn:Hit.
      destruct (turn_going tn lp v lp' Hg Hsrv Hwatch Hit) as [Hg' Hle'].
      assert (Hmore : good i = true → mark (Up lp) ≤ reach → v = Again ∧ mark (Up lp) < mark (Up lp')).
      { intros Hgood Hle. destruct (Hadv Hgood Hle) as (lp2 & [= -> <-] & Hnx). split; [done|].
        pose proof Hit as [(_ & Hsame & _)|(lcm & r & (Hget & _) & Hw & _)]%iterate_cases; [lia|].
        destruct (Hsrv lcm Hget) as [-> _]. destruct (commit_leaves _ _ _ _ _ Hw) as [Hc' _].
        unfold mark. simpl. rewrite Hc', Hnx. destruct (db_cursor (lp_db lp) !! net) eqn:Hc; [lia|].
        destruct (Hfr lp eq_refl Hc). lia. }
      destruct v as [|e].
      * split_and!; [done..|]. intros Hgood _ Hle. by apply Hmore.
      * destruct (ends_going lp' Hg') as [Hg2 Hle2]. split_and!; [done|lia|]. intros Hgood _ Hle.
        by destruct (Hmore Hgood Hle).
    + destruct (ends_going lp Hg) as [Hg2 Hle2]. split_and!; [done..|]. intros Hgood _ Hle.
      destruct (kw_good _ _ _ _ _ _ _ Hworld i lp Hgood) as (tn' & Hh' & _); [|congruence].
      unfold mark in Hle. simpl in Hle. destruct (db_cursor (lp_db lp) !! net) eqn:Hc; [done|].
      by apply (go_fresh _ Hg lp).
    + split_and!; [done..|]. intros Hgood _ Hle.
      destruct (kw_good _ _ _ _ _ _ _ Hworld i lp Hgood) as (tn' & Hh' & _); [|congruence].
      unfold mark in Hle. simpl in Hle. destruct (db_cursor (lp_db lp) !! net) eqn:Hc; [done|].
      by apply (go_fresh _ Hg lp).
Qed.

Lemma met_nonneg n i s : 0 ≤ met cfg happens others good i n s.
Proof. revert i s. induction n as [|n IH]; intros i s; cbn [met]; [done|]. specialize (IH (Datatypes.S i) (happen cfg (happens i (beside others i s)) (beside others i s))). case_match; lia. Qed.

Lemma live_advances n i s : going s →
  going (live cfg happens others i n s) ∧
  Z.min (mark s + met cfg happens others good i n s) (reach + 1) ≤ mark (live cfg happens others i n s).
Proof.
  revert i s. induction n as [|n IH]; intros i s Hg; [simpl; split; [done|lia]|].
  destruct (beside_going i s Hg) as [Hg1 Hm1]. destruct (happen_going i _ Hg1) as (Hg2 & Hle & Hadv).
  destruct (IH (Datatypes.S i) _ Hg2) as [Hg' Hmin]. cbn [live met]. split; [done|].
  assert (Hsame : is_up (beside others i s) = is_up s) by (by destruct s). rewrite <- Hsame.
  pose proof (met_nonneg n (Datatypes.S i) (happen cfg (happens i (beside others i s)) (beside others i s))).
  destruct (good i) eqn:Hgood, (is_up (beside others i s)) eqn:Hup; simpl andb; cbv iota; lia.
Qed.
End life.

(** ** Properties *)

(** C7.  The live loop catches up.  A process is down on a database that is fresh or
    contiguous and whose histories are the chain's, before an honest source whose
    ledgers up to [reach] can be had, on a chain whose transfers hold no text that
    Postgres refuses.  Whatever happens: the source fails or has nothing new,
    statements fail, acknowledgements are lost, the context is cancelled, the
    process is killed, attempts to start it fail, the other components commit in
    between.  Once more good turns have met the process up than ledgers are
    missing, the cursor is at [reach] or beyond and follows the chain without a
    hole, and every ledger from where the history begins - after the cursor it
    found, or on a fresh database at the configured ledger - up to [reach] is derived for
    each contract and kind that the snapshots of its turns watch.  And a turn that
    neither the context nor the source's retention ends leaves the process up,
    whatever fails on it. *)
Theorem live_catches_up `{S : SDK} `{!SDKChanges} `{!SDKLaws} `{!LedgerHeaders} (cfg : Config) (chain : Z → LedgerCloseMeta)
    (happens : nat → process_state → happening) (others : nat → db → db) (good : nat → bool) (base reach : Z)
    (d : db) (n : nat) :
  let s := live cfg happens others 0 n (Down d) in
  let first := match db_cursor d !! cf_Network cfg with Some c => cur_Sequence c + 1 | None => base end in
  linked chain → is_u32 (cf_StartLedger cfg) → opens (cf_Passphrase cfg) chain → placed (cf_Passphrase cfg) chain →
  storable (cf_Passphrase cfg) chain → kind_world cfg happens others chain good base reach →
  contiguous cfg chain d → sound_rows (cf_Network cfg) (cf_Passphrase cfg) chain (get_tables d) →
  base ≤ reach → reach - first < met cfg happens others good 0 n (Down d) →
  (∃ c, db_cursor (db_of s) !! cf_Network cfg = Some c ∧ reach ≤ cur_Sequence c ∧ contiguous cfg chain (db_of s) ∧
    ∃ start, match db_cursor d !! cf_Network cfg with Some _ => start = first | None => opening cfg base reach start end ∧
      ∀ cid kind l, watching happens cid kind → start ≤ l ≤ reach →
        derived_kind (cf_Network cfg) (cf_Passphrase cfg) chain cid kind l (get_tables (db_of s))) ∧
  ∀ lp tn, beside others n s = Up lp → happens n (Up lp) = Iterates tn → survives tn →
    is_up (live cfg happens others n 1 s) = true.
Proof.
  intros s first Hlink Hst Hopens Hpl Htext Hworld Hc Hrows Hbase Hmet.
  set (begins := λ x, match db_cursor d !! cf_Network cfg with Some _ => x = first | None => opening cfg base reach x end).
  assert (Hg0 : going cfg chain happens base reach begins (Down d)).
  { split; simpl; try done. unfold filled, begins, first. destruct (db_cursor d !! cf_Network cfg) as [c|].
    - exists (cur_Sequence c + 1). split; [done|lia].
    - done. }
  destruct (live_advances cfg chain Hlink Hst Hopens Hpl Htext happens others good base reach Hworld begins n 0 (Down d) Hg0)
    as [Hg Hmin]. fold s in Hg, Hmin.
  assert (Hmark : mark cfg base (Down d) = first) by (unfold mark, first; simpl; by destruct (_ !! _)). rewrite Hmark in Hmin.
  split.
  - pose proof Hg as [Hs _ Hf _]. unfold filled in Hf. unfold mark in Hmin.
    destruct (db_cursor (db_of s) !! cf_Network cfg) as [c|] eqn:Hcur; [|lia].
    assert (reach ≤ cur_Sequence c).
    { destruct s as [d'|lp]; [lia|]. simpl in Hs, Hcur. destruct Hs as (_ & _ & Hpo). rewrite Hcur in Hpo.
      destruct Hpo as [[? _]|[? _]]; lia. }
    exists c. split_and!; [done|done|destruct s; [done|apply Hs]|].
    destruct Hf as (start & Hb & Hd). exists start. split; [exact Hb|]. intros cid kind l Hw Hl. apply Hd; [done|lia].
  - intros lp tn Hup Hh Hsv. cbn [live]. rewrite Hup, Hh. simpl.
    destruct (beside_going cfg chain happens others good base reach Hworld begins n s Hg) as [[Hs _ _ _] _].
    rewrite Hup in Hs. pose proof (kw_turn _ _ _ _ _ _ _ Hworld n lp tn Hh) as Hsrv.
    pose proof (iterate_survives cfg chain Hlink tn lp Hs Hsrv Hsv) as Hit.
    destruct (iterate cfg tn lp) as [v lp']. simpl in Hit. by subst v.
Qed.

(** ** Witness *)

#[local] Existing Instance demo_sdk.
#[local] Existing Instance demo_changes.
#[local] Existing Instance demo_laws.
#[local] Existing Instance demo_headers.
#[local] Transparent InfoOf.

Lemma pay_linked : linked (S := demo_sdk) pay_chain.
Proof.
  split.
  - intros l _. unfold pay_chain. by destruct (Z.eqb_spec l 9) as [->|].
  - intros l. simpl. unfold pay_chain. destruct (Z.eqb_spec (l + 1) 9) as [He|], (Z.eqb_spec l 9) as [->|]; simpl;
      do 2 f_equal; lia.
Qed.

Lemma pay_opens : opens (S := demo_sdk) "pass" pay_chain.
Proof. intros l. unfold pay_chain. destruct (l =? 9); eexists; reflexivity. Qed.

(** The chain's only transfer can be stored. *)
Lemma pay_storable : storable (S := demo_sdk) "pass" pay_chain.
Proof.
  intros l x (answers & r & Ha & Hx & Hsrc)%(record_source "pass" pay_chain rs_Transfers); [|done].
  destruct (so_transfers _ _ _ _ Hsrc x Hx) as (tx & ops & o & n & Hin & Hops & Ho & Hn & Hat).
  destruct (pay_one _ _ _ Ha Hin) as [-> ->]. injection Hops as <-. vm_compute in Ho. injection Ho as <-.
  vm_compute in Hn. apply list_elem_of_singleton in Hn as ->. revert Hat. clear.
  intros (cid & body & t0 & ts & sym & ty & Hc & Hb & Ht & Hsym & Hty & Hx). vm_compute in Hc, Hb.
  injection Hc as <-. injection Hb as <-. vm_compute in Ht. injection Ht as <- <-. vm_compute in Hsym.
  injection Hsym as <-. vm_compute in Hty. injection Hty as <-. vm_compute in Hx. by injection Hx as <-.
Qed.

(** A source of the chain with one payment up to ledger 100, which fails once; the
    process is killed once and started again. *)
Definition pay_turn (g : res (@LedgerCloseMeta demo_sdk)) : @turn demo_sdk :=
  @mkTurn demo_sdk false g false (Some 100) true demo_watch no_faults false 1 100.

Definition pay_happens (i : nat) (s : process_state) : @happening demo_sdk :=
  match s, i with
  | Down _, _ => Starts true no_faults (Some 20)
  | Up _, 2%nat => Iterates (pay_turn (Err ErrSQL))
  | Up _, 4%nat => Dies
  | Up lp, _ => Iterates (pay_turn (if lp_next lp <=? 100 then Ok (pay_chain (lp_next lp)) else Err ErrNotYetAvailable))
  end.

Definition pay_good (i : nat) : bool := negb ((i =? 2) || (i =? 4))%nat.

Lemma pay_kind : kind_world demo_cfg pay_happens (λ _ d, d) pay_chain pay_good 9 11.
Proof.
  assert (Hserve : ∀ i lp tn, pay_happens i (Up lp) = Iterates tn →
    tn = pay_turn (Err ErrSQL) ∨ tn = pay_turn (if lp_next lp <=? 100 then Ok (pay_chain (lp_next lp)) else Err ErrNotYetAvailable))
    by (intros [|[|[|[|[|i]]]]] lp tn; simpl; intros [= <-]; auto).
  split.
  - intros i lp tn [->| ->]%Hserve lcm; [done|]. simpl. destruct (Z.leb_spec (lp_next lp) 100); [|done].
    intros [= <-]. split; [done|uarith].
  - intros i d verified fl latest [= <- <- <-]. split; [done|]. intros l [= <-]. split; [uarith|]. intros _. simpl. lia.
  - by intros i d.
  - intros i lp Hi Hle. exists (pay_turn (if lp_next lp <=? 100 then Ok (pay_chain (lp_next lp)) else Err ErrNotYetAvailable)).
    split; [destruct i as [|[|[|[|[|i]]]]]; done|]. split; [done|]. split; [|done]. simpl.
    destruct (Z.leb_spec (lp_next lp) 100); [by eexists|lia].
Qed.

Definition pay_run : process_state := live demo_cfg pay_happens (λ _ d, d) 0 7 (Down empty_db).

Lemma pay_watching : watching pay_happens "CA" "movements".
Proof. intros i lp tn Hh. destruct i as [|[|[|[|[|i]]]]]; simpl in Hh; try discriminate; injection Hh as <-; vm_compute; reflexivity. Qed.

(** A fresh database, one failure, one death: ledger 11 is in, and the payment of
    ledger 9 is derived for its recipient. *)
Lemma live_catches_up_witness : ∃ c, db_cursor (db_of pay_run) !! cf_Network demo_cfg = Some c ∧ 11 ≤ cur_Sequence c ∧
  ∀ l, 9 ≤ l ≤ 11 → derived_kind (cf_Network demo_cfg) (cf_Passphrase demo_cfg) pay_chain "CA" "movements" l (get_tables (db_of pay_run)).
Proof.
  destruct (live_catches_up demo_cfg pay_chain pay_happens (λ _ d, d) pay_good 9 11 empty_db 7)
    as [(c & Hcur & Hr & _ & start & [_ Hstart] & Hd) _].
  - exact pay_linked.
  - simpl. uarith.
  - exact pay_opens.
  - exact pay_placed.
  - exact pay_storable.
  - exact pay_kind.
  - reflexivity.
  - apply sys_truthful, rtc_refl.
  - discriminate.
  - vm_compute. reflexivity.
  - exists c. split; [exact Hcur|]. split; [exact Hr|]. assert (Heq : start = 9) by (by apply Hstart). rewrite Heq in Hd.
    intros l Hl. exact (Hd "CA" "movements" l pay_watching Hl).
Defined.
