(* ===== verification/Drain.v ===== *)
(** * Every walk ends

    The other files show that the backfiller never claims what it did not do;
    here, that it does it.  While nothing fails and the source goes on serving
    the chain from its retention wall up, every round lowers every pending walk
    by a whole cell of the grid or ends it, so the number of rounds is known in
    advance. *)

From stdpp Require Import relations.
From S2P Require Import Prelude HealPlan Db Gaps Rows Registrations Commit Registry Query Api Extract Loop Workers System Backfill Derived Provenance Coverage Histories Accepted Together Follow.

(** ** Definitions *)

Section surroundings.
Context `{S : SDK} `{!SDKChanges} `{!LedgerHeaders} (passphrase : string) (w : world) (chain : Z → LedgerCloseMeta).

(** Nothing fails: no statement, no acknowledgement, no timer. *)
Record calm : Prop := {
  cm_faults : ∀ n, w_faults w n = no_faults;
  cm_lost : ∀ n, w_lost w n = false;
  cm_cancelled : ∀ n, w_cancelled w n = false;
  cm_slept : ∀ n, w_slept w n = true }.

(** The source serves the chain between its retention wall and its tip, some
    ledgers at a time, and says so below. *)
Definition supplies (oldest tip : Z) : Prop := ∀ n start limit, start ≤ tip → 1 ≤ limit →
  (oldest ≤ start → ∃ k, 1 ≤ k ≤ limit ∧ start + k ≤ tip + 1 ∧ w_batch w n start limit = Ok (chain <$> seqZ start k)) ∧
  (start < oldest → w_batch w n start limit = Err ErrBelowRetention).
End surroundings.

(** The row of the grid a watermark is in. *)
Definition cell (l : Z) : Z := (l - 1) / backfillChunkSize.

(** Total correctness of a computation. *)
Definition sure {St A} (P : outside → St → Prop) (m : Work St A) (Q : A → outside → St → Prop) : Prop :=
  ∀ o s, P o s → ∃ a o' s', m o s = Some (a, o', s') ∧ Q a o' s'.

(** ** Lemmas *)

(** *** Total correctness *)
Section sure.
Context {St : Type}.

Lemma sure_ret {A} (a : A) (P : outside → St → Prop) (Q : A → outside → St → Prop) :
  (∀ o s, P o s → Q a o s) → sure P (w_ret a) Q.
Proof. intros HQ o s HP. exists a, o, s. split; [done|by apply HQ]. Qed.

Lemma sure_bind {A B} (m : Work St A) (f : A → Work St B) P R Q :
  sure P m R → (∀ a, sure (R a) (f a) Q) → sure P (w_bind m f) Q.
Proof.
  intros Hm Hf o s HP. destruct (Hm o s HP) as (a & o1 & s1 & Heq & HR). unfold w_bind. rewrite Heq. by apply Hf.
Qed.

Lemma sure_conseq {A} (m : Work St A) P P' (Q Q' : A → outside → St → Prop) :
  (∀ o s, P o s → P' o s) → (∀ a o s, Q' a o s → Q a o s) → sure P' m Q' → sure P m Q.
Proof. intros HP HQ Hm o s Ho. destruct (Hm o s (HP _ _ Ho)) as (a & o1 & s1 & ? & ?). exists a, o1, s1. auto. Qed.

(** What is known of a computation if it ends is known when it does. *)
Lemma sure_with {A} (m : Work St A) P Q R : triple P m R → sure P m Q → sure P m (λ a o s, Q a o s ∧ R a o s).
Proof.
  intros Ht Hm o s HP. destruct (Hm o s HP) as (a & o1 & s1 & Heq & HQ). exists a, o1, s1. split; [done|].
  split; [done|]. specialize (Ht o s HP). by rewrite Heq in Ht.
Qed.
End sure.

Section drains.
Context `{S : SDK} `{!SDKChanges} `{!SDKLaws} `{!LedgerHeaders} (net pass : string) (w : world) (chain : Z → LedgerCloseMeta).
Context (Hcalm : calm w) (oldest tip : Z) (Hsup : supplies w chain oldest tip) (Htip : tip < max_u32).
Context (Hopens : opens pass chain) (Hlinked : linked chain).

Lemma sure_transact {A} (t : Tx A) P (Q : A → outside → backfiller → Prop) :
  (∀ n d s, P (mkOutside n d) s → ∃ a d', run (w_now w n) t (w_others w n d) = Ok (a, d') ∧ Q a (mkOutside (Datatypes.S n) d') s) →
  sure P (transact w t) (λ out o s, ∃ a, out = Ok a ∧ Q a o s).
Proof.
  intros Ht [n d] s HP. destruct (Ht n d s HP) as (a & d' & Hrun & HQ). unfold transact. cbn [o_calls o_db].
  rewrite (cm_faults w Hcalm n), BeginFunc_quiet, Hrun, (cm_lost w Hcalm n). eexists _, _, _. split; [done|]. by exists a.
Qed.

Lemma sure_ask {A} (f : nat → A) P (Q : A → outside → backfiller → Prop) :
  (∀ n d s, P (mkOutside n d) s → Q (f n) (mkOutside (Datatypes.S n) d) s) → sure P (ask f) Q.
Proof. intros HQ [n d] s HP. eexists _, _, _. split; [done|]. by apply HQ. Qed.

(** *** Scans *)

(** A run of the chain passes the checks. *)
Lemma scanBatch_passes snap k seq prev acc : 0 ≤ seq → seq + Z.of_nat k ≤ max_u32 →
  (prev = "" ∨ prev = LedgerHash (chain (seq - 1))) →
  ∃ prev' acc', scanBatch pass snap (chain <$> seqZ seq (Z.of_nat k)) seq prev acc
    = Ok (seq + Z.of_nat k, prev', acc') ∧ (prev' = "" ∨ prev' = LedgerHash (chain (seq + Z.of_nat k - 1))).
Proof.
  revert seq prev acc. induction k as [|k IH]; intros seq prev acc Hlo Hhi Hprev.
  { simpl. rewrite Z.add_0_r. eauto. }
  rewrite Nat2Z.inj_succ, seqZ_cons by lia. rewrite Z.pred_succ. cbn [fmap list_fmap scanBatch].
  assert (Hseq : in_Sequence (InfoOf (chain seq)) = seq) by (simpl; rewrite (chain_seq chain) by uarith; apply u32_small; uarith).
  rewrite Hseq, Z.eqb_refl. cbn [negb].
  assert (Hlink : bool_decide (prev ≠ "") && bool_decide (in_PreviousHash (InfoOf (chain seq)) ≠ prev) = false).
  { apply andb_false_iff. destruct Hprev as [->| ->]; [left|right]; apply bool_decide_eq_false; intros Hne; apply Hne; [done|].
    simpl. rewrite <- (chain_link chain (seq - 1)). f_equal. f_equal. lia. }
  rewrite Hlink. destruct (Events_opens pass chain Hopens snap seq) as [r ->]. rewrite u32_small by uarith.
  destruct (IH (seq + 1) (in_Hash (InfoOf (chain seq))) (res_app acc r)) as (prev' & acc' & Hs & Hp); [lia..| |].
  { right. simpl. f_equal. f_equal. lia. }
  change (Z.succ seq) with (seq + 1). rewrite Hs. exists prev', acc'. split; [f_equal; f_equal; f_equal; lia|].
  by replace (seq + Z.succ (Z.of_nat k) - 1) with (seq + 1 + Z.of_nat k - 1) by lia.
Qed.

Lemma scanLoop_succeeds fuel snap to seq prev acc o (s : backfiller) :
  0 ≤ seq → oldest ≤ seq → to ≤ tip → to - seq < Z.of_nat fuel → seq ≤ max_u32 →
  (prev = "" ∨ prev = LedgerHash (chain (seq - 1))) →
  ∃ r n, scanLoop pass w fuel snap to seq prev acc o s = Some (Ok r, mkOutside n (o_db o), s).
Proof.
  revert seq prev acc o. induction fuel as [|fuel IH]; intros seq prev acc o Hlo Hold Hto Hf Hmax Hprev; simpl.
  { destruct (Z.leb_spec seq to); [lia|]. simpl. exists acc, (o_calls o). by destruct o. }
  destruct (Z.leb_spec seq to) as [Hle|]; simpl; [|exists acc, (o_calls o); by destruct o].
  unfold w_bind, GetLedgerBatch, ask. cbn [o_calls o_db].
  destruct (Hsup (o_calls o) seq (Z.min (u32 (to - seq) + 1) backfillBatchLimit)) as [Hok _]; [lia| |].
  { rewrite u32_small by uarith. unfold backfillBatchLimit. lia. }
  destruct (Hok Hold) as (k & Hk & Hkt & ->).
  destruct (scanBatch_passes snap (Z.to_nat k) seq prev acc) as (prev' & acc' & Hs & Hp); [lia|lia|done|].
  rewrite Z2Nat.id in Hs, Hp by lia. rewrite Hs.
  destruct (IH (seq + k) prev' acc' (mkOutside (Datatypes.S (o_calls o)) (o_db o))) as (r & n & Hr); [lia..|done|].
  exists r, n. exact Hr.
Qed.

Lemma scan_succeeds fuel snap from to o (s : backfiller) :
  0 ≤ from → oldest ≤ from → to ≤ tip → to - from < Z.of_nat fuel → from ≤ max_u32 →
  ∃ r n, scan pass w fuel snap from to o s = Some (Ok r, mkOutside n (o_db o), s).
Proof. intros. unfold scan. apply scanLoop_succeeds; try done. by left. Qed.

(** Below the wall, the first batch says so. *)
Lemma scan_walled fuel snap from to o (s : backfiller) :
  0 ≤ from ≤ to → from < oldest → to ≤ tip →
  ∃ n, scan pass w (Datatypes.S fuel) snap from to o s = Some (Err ErrBelowRetention, mkOutside n (o_db o), s).
Proof.
  intros Hf Hold Hto. unfold scan. simpl. destruct (Z.leb_spec from to); [|lia]. simpl.
  unfold w_bind, GetLedgerBatch, ask. cbn [o_calls o_db].
  destruct (Hsup (o_calls o) from (Z.min (u32 (to - from) + 1) backfillBatchLimit)) as [_ Hno]; [lia| |].
  { rewrite u32_small by uarith. unfold backfillBatchLimit. lia. }
  rewrite Hno by done. eexists. done.
Qed.

Lemma supplies_walled : walled w oldest tip.
Proof.
  intros n s Hs. destruct (Hsup n s 1 Hs) as [Hok Hno]; [done|]. split; [|done].
  intros Ho. destruct (Hok Ho) as (k & _ & _ & ->). eauto.
Qed.

(** *** One round *)
Section round.
Context (Hby : bystanders net w) (Hgen : genuine w chain) (Hpl : placed pass chain) (Htext : storable pass chain).
Context (K : db → Prop) (HK : respected net pass w chain K).
Context (HKs : ∀ d, K d → sound_rows net pass chain (get_tables d)) (d0 : db).

Abbreviation Inv := (Inv net pass w chain K d0).

(** A walk that was pending when the round started has ended, at its target or
    at the source's wall, or is lower by a row of the grid. *)
Definition ended (done : bool) (clamp : option Z) : Prop := done = true ∧ ∀ wall, clamp = Some wall → wall ≤ oldest.

Definition settled (cid : string) (bf : gmap (string * string) backfill_row) : Prop :=
  ∀ b, db_backfill d0 !! (net, cid) = Some b →
    ∃ b', bf !! (net, cid) = Some b' ∧ (ended (b_done b') (b_clamped_at b') ∨ b_done b' = false ∧ cell (b_next_to b') < cell (b_next_to b)).

Definition all_settled (cs : string → Prop) (o : outside) : Prop := ∀ cid, cs cid → settled cid (db_backfill (o_db o)).

Lemma settled_update cid c (b' : backfill_row) bf :
  (∀ b, db_backfill d0 !! (net, cid) = Some b → ended (b_done b') (b_clamped_at b') ∨ b_done b' = false ∧ cell (b_next_to b') < cell (b_next_to b)) →
  c = cid ∨ settled c bf → settled c (<[(net, cid) := b']> bf).
Proof.
  intros Hb Hc b0 Hb0. destruct (decide (c = cid)) as [->|Hne].
  - exists b'. split; [apply lookup_insert_eq|by apply Hb].
  - destruct Hc as [?|Hc]; [done|]. destruct (Hc b0 Hb0) as (b1 & ? & ?). exists b1.
    rewrite lookup_insert_ne by congruence. done.
Qed.

(** What a group commits for a job settles its walk. *)
Lemma nextFor_settles rng wall job b : job_ok net d0 job → walkable (job_Backfill job) →
  cr_from rng = chunkFromFor (job_Backfill job) →
  db_backfill d0 !! (net, bf_ContractID (job_Backfill job)) = Some b → (∀ wl, wall = Some wl → wl ≤ oldest) →
  let nxt := nextFor rng wall (job_Backfill job) in
  ended (bf_Done nxt) (bf_ClampedAt nxt) ∨ bf_Done nxt = false ∧ cell (bf_NextTo nxt) < cell (b_next_to b).
Proof.
  intros (cid & b0 & c & Hb0 & _ & _ & Ht & Hn & _ & ->) Hw Hf Hb Hwall. simpl in *. rewrite Hb0 in Hb. injection Hb as <-.
  destruct wall as [wall|]; [left; split; [done|]; intros wl [= <-]; by apply Hwall|]. simpl.
  destruct (chunkFromFor_spec _ Hw) as (Hlo & Hsz & Hgrid). rewrite <- Hf in Hlo, Hsz, Hgrid. simpl in *.
  destruct (Z.leb_spec (cr_from rng) (b_target_from b0)); [by left; split|right; split; [done|]].
  destruct Hgrid as [Heq|Hgrid]; [lia|].
  unfold cell, backfillChunkSize in *. rewrite u32_small by uarith.
  pose proof (Z.div_mod (cr_from rng - 1) 2000). pose proof (Z.mod_pos_bound (cr_from rng - 1 - 1) 2000).
  pose proof (Z.div_mod (cr_from rng - 1 - 1) 2000). pose proof (Z.div_le_mono (cr_from rng - 1) (b_next_to b0 - 1) 2000). lia.
Qed.

(** A commit for a pending walk goes through. *)
Lemma sure_chunk nxt share debt b cs :
  db_backfill d0 !! (net, bf_ContractID nxt) = Some b → from_chain pass chain share →
  (ended (bf_Done nxt) (bf_ClampedAt nxt) ∨ bf_Done nxt = false ∧ cell (bf_NextTo nxt) < cell (b_next_to b)) →
  triple (Inv debt) (transact w (CommitBackfillChunk net nxt share)) (λ _ o s, Inv debt o s) →
  sure (λ o s, Inv debt o s ∧ all_settled cs o) (transact w (CommitBackfillChunk net nxt share))
    (λ out o s, out = Ok tt ∧ Inv debt o s ∧ all_settled (λ c, c = bf_ContractID nxt ∨ cs c) o).
Proof.
  intros Hb Hch Hnxt Htr.
  assert (Htr' : triple (λ o s, Inv debt o s ∧ all_settled cs o)
    (transact w (CommitBackfillChunk net nxt share)) (λ _ o s, Inv debt o s)).
  { eapply triple_pre; [|exact Htr]. by intros o s [? _]. }
  eapply (sure_conseq _ _ (λ o s, Inv debt o s ∧ all_settled cs o)); [done| |eapply sure_with; [exact Htr'|]].
  2: { apply (sure_transact _ _ (λ a o s, all_settled (λ c, c = bf_ContractID nxt ∨ cs c) o)).
    intros n d s [HI Hset]. pose proof (Inv_others net pass w chain Hby K HK d0 _ _ _ _ HI) as (Hh & _ & _ & _ & HKd).
    simpl in *. destruct (Hby n d) as (Hbf & _). rewrite run_CommitBackfillChunk.
    destruct (add_records_accepted pass chain Hpl net share (get_tables (w_others w n d)) Htext) as [t ->]; [by apply HKs|done|].
    destruct (held_row net pass chain d0 (w_others w n d) _ b Hh Hb) as (b1 & Hb1 & _). rewrite Hb1.
    exists tt. eexists. split; [done|]. intros c Hc.
    change (db_backfill (o_db (mkOutside (Datatypes.S n) (put_tables t ?x)))) with (db_backfill x).
    autorewrite with sierpe_simp. apply settled_update.
    - intros b0 Hb0. rewrite Hb in Hb0. injection Hb0 as <-. exact Hnxt.
    - destruct Hc as [->|Hc]; [by left|right]. specialize (Hset c Hc). simpl in Hset. by rewrite Hbf. }
  intros out o s [([] & -> & ?) ?]. done.
Qed.

Abbreviation cid_of := (λ job, ct_ContractID (job_Contract job)).

Lemma job_row job : job_ok net d0 job →
  bf_ContractID (job_Backfill job) = cid_of job ∧ ∃ b, db_backfill d0 !! (net, cid_of job) = Some b ∧
    bf_ClampedAt (job_Backfill job) = None.
Proof. intros (cid & b & c & Hb & _ & _ & _ & _ & _ & ->). split; [done|by exists b]. Qed.

Lemma sure_commit_job res rng wall debt job cs :
  cr_to rng < max_u32 → (∀ wl, wall = Some wl → wl ≤ oldest) → commit_ok net pass chain d0 res rng wall debt job →
  sure (λ o s, Inv debt o s ∧ all_settled cs o)
    (transact w (CommitBackfillChunk net (nextFor rng wall (job_Backfill job))
       (orEmpty (partitionResult res !! ct_ContractID (job_Contract job)))))
    (λ out o s, out = Ok tt ∧ Inv debt o s ∧ all_settled (λ c, c = cid_of job ∨ cs c) o).
Proof.
  intros Hto Hwall Hok. pose proof (commit_job_triple net pass w chain Hby K HK d0 res rng wall debt job Hto Hok) as Htr.
  destruct Hok as (Hj & Hwalk & Hfrom & _ & [Hch _] & _). destruct (job_row job Hj) as (Hid & b & Hb & _).
  assert (Hn : bf_ContractID (nextFor rng wall (job_Backfill job)) = cid_of job) by (rewrite <- Hid; by destruct wall).
  pose proof (sure_chunk (nextFor rng wall (job_Backfill job))
    (orEmpty (partitionResult res !! ct_ContractID (job_Contract job))) debt b cs) as Hsure.
  rewrite Hn in Hsure. apply Hsure; [done| | |exact Htr].
  - rewrite partitionResult_share. eapply from_chain_sub; [apply records_of_sub|exact Hch].
  - apply (nextFor_settles rng wall job b Hj Hwalk Hfrom); [by rewrite Hid|done].
Qed.

Lemma sure_commitJobs res rng wall debt jobs cs :
  cr_to rng < max_u32 → (∀ wl, wall = Some wl → wl ≤ oldest) → Forall (commit_ok net pass chain d0 res rng wall debt) jobs →
  sure (λ o s, Inv debt o s ∧ all_settled cs o) (commitJobs net w rng wall (partitionResult res) jobs)
    (λ n o s, n = Z.of_nat (length jobs) ∧ Inv debt o s ∧
       all_settled (λ c, c ∈ cid_of <$> jobs ∨ cs c) o).
Proof.
  intros Hto Hwall Hjobs. revert cs. induction Hjobs as [|job jobs Hjob Hjobs IH]; intros cs; simpl.
  { apply sure_ret. intros o s [HI Hs]. split; [done|]. split; [done|]. intros c [Hc|Hc]; [by apply elem_of_nil in Hc|auto]. }
  eapply sure_bind; [by eapply sure_commit_job|]. intros out.
  eapply (sure_bind _ _ _ (λ n o s, out = Ok tt ∧ n = Z.of_nat (length jobs) ∧ Inv debt o s ∧
    all_settled (λ c, c ∈ cid_of <$> (job :: jobs) ∨ cs c) o)).
  - intros o s (-> & HI & Hs). destruct (IH _ o s (conj HI Hs)) as (n & o1 & s1 & Heq & Hn & HI1 & Hs1).
    exists n, o1, s1. split; [done|]. split_and!; [done..|]. intros c Hc. apply Hs1. simpl in Hc.
    rewrite elem_of_cons in Hc. tauto.
  - intros n. apply sure_ret. intros o s (-> & -> & HI & Hs). split; [lia|done].
Qed.

(** The gaps below a wall are recorded. *)
Lemma recordGaps_succeeds wall (recorded : gset Z) jobs o (s : backfiller) :
  1 ≤ wall ≤ max_u32 → Forall (λ job, bf_TargetFrom (job_Backfill job) < wall) jobs →
  ∃ o', recordGaps net w wall recorded jobs o s = Some (Ok tt, o', s) ∧ db_backfill (o_db o') = db_backfill (o_db o).
Proof.
  intros Hw Hjobs. revert recorded o. induction Hjobs as [|job jobs Hjob Hjobs IH]; intros recorded o; simpl.
  { exists o. by destruct o. }
  case_decide; [apply IH|]. unfold w_bind at 1, transact. rewrite (cm_faults w Hcalm), BeginFunc_quiet, (cm_lost w Hcalm).
  rewrite RecordGap_run by (rewrite u32_small by uarith; lia).
  set (d1 := set_gaps _ _). destruct (IH ({[bf_TargetFrom (job_Backfill job)]} ∪ recorded)
    (mkOutside (Datatypes.S (o_calls o)) d1)) as (o1 & Hr & Hb). exists o1. split; [exact Hr|]. rewrite Hb.
  unfold d1. simpl. autorewrite with sierpe_simp. apply (Hby (o_calls o) (o_db o)).
Qed.

Context (fuel : nat) (Hfuel : backfillChunkSize ≤ Z.of_nat fuel).

Lemma readGroup_succeeds rng jobs ahead o s : group_ok net d0 rng jobs → cr_to rng ≤ tip →
  ∃ res wall cached o' s', readGroup net pass w fuel rng jobs ahead o s = Some (Some (res, wall, cached), o', s') ∧
    db_backfill (o_db o') = db_backfill (o_db o) ∧ ∀ wl, wall = Some wl → wl ≤ oldest.
Proof.
  intros Hg Ht. destruct (group_bounds net d0 rng jobs Hg) as (Hr & Hto & _ & Htf). destruct Hg as (_ & [_ Hsz] & _).
  unfold backfillChunkSize in *. unfold readGroup, w_get. unfold w_bind at 1.
  destruct (cachedScan s rng _) as [res|]; [by eexists _, _, _, _, _|].
  destruct (Z.le_gt_cases oldest (cr_from rng)) as [Hold|Hold].
  { destruct (scan_succeeds fuel (StaticSnapshot ((job_Contract <$> jobs) ++ (job_Contract <$> ahead)))
      (cr_from rng) (cr_to rng) o s) as (r & n & Hs); [lia..|]. unfold w_bind at 1. rewrite Hs. by eexists _, _, _, _, _. }
  destruct fuel as [|fuel'] eqn:Hfu; [lia|]. rewrite <- Hfu in *.
  destruct (scan_walled fuel' (StaticSnapshot ((job_Contract <$> jobs) ++ (job_Contract <$> ahead)))
    (cr_from rng) (cr_to rng) o s) as (n & Hs); [lia..|]. rewrite <- Hfu in Hs. unfold w_bind at 1. rewrite Hs.
  rewrite u32_small by uarith.
  destruct (findWall_finds w oldest tip 11 fuel (cr_from rng + 1) (cr_to rng) (mkOutside n (o_db o)) s)
    as (n1 & _ & Hf); [apply supplies_walled; done|done|lia|done|simpl; lia|lia|].
  unfold w_bind at 1. rewrite Hf. set (wall := Z.max _ _).
  destruct (recordGaps_succeeds wall ∅ jobs (mkOutside n1 (o_db (mkOutside n (o_db o)))) s) as (o1 & Hg1 & Hb1); [uarith| |].
  { eapply Forall_impl; [exact Htf|]. simpl. lia. }
  unfold w_bind at 1. rewrite Hg1. simpl in Hb1. destruct (Z.leb_spec wall (cr_to rng)).
  - destruct (scan_succeeds fuel (StaticSnapshot (job_Contract <$> jobs)) wall (cr_to rng) o1 s) as (r & n2 & Hs2); [lia..|].
    unfold w_bind. rewrite Hs2. eexists _, _, _, _, _. split; [done|]. split; [exact Hb1|]. intros wl [= <-]. lia.
  - eexists _, _, _, _, _. split; [done|]. split; [exact Hb1|]. intros wl [= <-]. lia.
Qed.

Lemma sure_processGroup rng jobs ahead cs : group_ok net d0 rng jobs → Forall (job_ok net d0) ahead → cr_to rng ≤ tip →
  sure (λ o s, Inv (λ _, False) o s ∧ all_settled cs o) (processGroup net pass w fuel rng jobs ahead)
    (λ done o s, done = true ∧ Inv (λ _, False) o s ∧
       all_settled (λ c, c ∈ cid_of <$> jobs ∨ cs c) o).
Proof.
  intros Hg Ha Ht o s [HI Hs]. unfold processGroup. unfold w_bind at 1.
  destruct (readGroup_succeeds rng jobs ahead o s Hg Ht) as (res & wall & cached & o1 & s1 & Hr & Hb & Hwall).
  pose proof (readGroup_triple net pass w chain Hby K HK d0 Hgen fuel rng jobs ahead Hg Ha o s HI) as Hread.
  rewrite Hr in *. destruct Hread as (debt & HI1 & Hok).
  assert (Hs1 : all_settled cs o1) by (intros c Hc; rewrite Hb; by apply Hs).
  destruct (sure_commitJobs res rng wall debt (order_by job_ltb jobs) cs) with (o := o1) (s := s1)
    as (n & o2 & s2 & Hc & -> & HI2 & Hs2); [apply Hg|done|by rewrite order_by_perm|done|].
  unfold w_bind at 1. rewrite Hc.
  rewrite (Permutation_length (order_by_perm job_ltb jobs)).
  assert (Hset : all_settled (λ c, c ∈ cid_of <$> jobs ∨ cs c) o2).
  { intros c [Hin|Hin]; apply Hs2; [left|by right]. by rewrite (order_by_perm job_ltb jobs). }
  assert (Hne : (0 < length jobs)%nat) by (destruct Hg as (? & _); by destruct jobs; [|simpl; lia]).
  destruct (Z.eqb_spec (Z.of_nat (length jobs)) 0); [lia|]. unfold w_bind.
  destruct cached; simpl; eexists _, _, _; (split; [done|]); (split; [done|]); (split; [|done]).
  - by eapply Inv_less; [|exact HI2].
  - eapply Inv_less; [|exact HI2]. done.
Qed.

(** *** Groups *)
Context (Htip0 : 0 ≤ tip).

(** The contract waits in a group. *)
Definition grouped (g : grouping) (order : list Z) (cid : string) : Prop :=
  ∃ from jobs job, from ∈ order ∧ gr_groups g !! from = Some jobs ∧ job ∈ jobs ∧ cid_of job = cid.

Definition grouping_fit (g : grouping) : Prop :=
  (∀ from jobs, gr_groups g !! from = Some jobs → from ∈ gr_order g) ∧ ∀ from, top_of g from ≤ tip.

Lemma add_job_fit job g : grouping_fit g → bf_NextTo (job_Backfill job) ≤ tip →
  grouping_fit (add_job job g) ∧
  ∀ c, c = cid_of job ∨ grouped g (gr_order g) c → grouped (add_job job g) (gr_order (add_job job g)) c.
Proof.
  intros [Hord Htop] Hn. set (from := chunkFromFor (job_Backfill job)).
  assert (Hin : from ∈ gr_order (add_job job g)).
  { simpl. fold from. destruct (gr_groups g !! from) as [jobs|] eqn:Hl; [by eapply Hord|].
    apply elem_of_app. right. by left. }
  assert (Hmore : ∀ f, f ∈ gr_order g → f ∈ gr_order (add_job job g)).
  { intros f Hf. simpl. fold from. destruct (gr_groups g !! from); [done|]. apply elem_of_app. by left. }
  split; [split|].
  - intros f jobs. simpl. fold from. destruct (decide (f = from)) as [->|Hne]; [done|].
    rewrite lookup_insert_ne by done. intros Hl. by eapply Hmore, Hord.
  - intros f. unfold top_of. simpl. fold from. destruct (decide (f = from)) as [->|Hne].
    + rewrite lookup_insert_eq. simpl. specialize (Htop from). unfold top_of in Htop. rewrite max32_max. lia.
    + rewrite lookup_insert_ne by done. apply Htop.
  - intros c [->|(f & jobs & j & Hf & Hl & Hj & <-)].
    + exists from. eexists. exists job. split; [done|]. simpl. fold from. rewrite lookup_insert_eq.
      split; [done|]. split; [|done]. apply elem_of_app. right. by left.
    + exists f. simpl. fold from. destruct (decide (f = from)) as [->|Hne].
      * eexists. exists j. split; [done|]. rewrite lookup_insert_eq, Hl. split; [done|].
        split; [|done]. apply elem_of_app. by left.
      * exists jobs, j. rewrite lookup_insert_ne by done. split; [by apply Hmore|done].
Qed.

Lemma sure_groupJobs jobs g cs :
  Forall (job_ok net d0) jobs → Forall (λ job, bf_NextTo (job_Backfill job) ≤ tip) jobs →
  grouping_ok net d0 g → grouping_fit g →
  sure (λ o s, Inv (λ _, False) o s ∧ all_settled cs o) (groupJobs net w jobs g)
    (λ g' o s, Inv (λ _, False) o s ∧ grouping_ok net d0 g' ∧ grouping_fit g' ∧
       (∀ c, grouped g (gr_order g) c → grouped g' (gr_order g') c) ∧
       ∀ c, c ∈ cid_of <$> jobs ∨ cs c → grouped g' (gr_order g') c ∨ settled c (db_backfill (o_db o))).
Proof.
  intros Hjobs. revert g cs. induction Hjobs as [|job jobs Hj Hjobs IH]; intros g cs Hn Hg Hfit; simpl.
  { apply sure_ret. intros o s [HI Hs]. split_and!; try done. intros c [Hc|Hc]; [by apply elem_of_nil in Hc|].
    right. by apply Hs. }
  apply Forall_cons in Hn as [Hnj Hn]. destruct (job_row job Hj) as (Hid & b & Hb & Hclamp).
  destruct (Z.ltb_spec (bf_NextTo (job_Backfill job)) (bf_TargetFrom (job_Backfill job))) as [Hlt|Hge].
  - eapply sure_bind.
    { apply (sure_chunk (closing (job_Backfill job)) no_records (λ _, False) b cs).
      - simpl. by rewrite Hid.
      - split_and!; by intros x ?%elem_of_nil.
      - left. split; [done|]. simpl. by rewrite Hclamp.
      - by apply (close_triple net pass w chain Hby K HK d0 job). }
    intros out o s (-> & HI & Hs). simpl in Hs. rewrite Hid in Hs.
    destruct (IH (mkGrouping (gr_groups g) (gr_tops g) (gr_order g) true) _ Hn Hg Hfit o s (conj HI Hs))
      as (g' & o1 & s1 & Heq & HI1 & Hg1 & Hf1 & Hkeep & Hset).
    exists g', o1, s1. split; [exact Heq|]. split_and!; [done..|]. intros c Hc. apply Hset.
    simpl in Hc. rewrite elem_of_cons in Hc. tauto.
  - intros o s HIs. destruct (add_job_fit job g Hfit Hnj) as [Hfit' Hadd].
    assert (Hg' : grouping_ok net d0 (add_job job g)).
    { apply add_job_ok; [done| |done]. destruct Hj as (cid & b' & c & _ & _ & _ & Ht & Hnx & _ & ->).
      simpl in *. split; simpl; lia. }
    destruct (IH (add_job job g) cs Hn Hg' Hfit' o s HIs) as (g' & o1 & s1 & Heq & HI1 & Hg1 & Hf1 & Hkeep & Hset).
    exists g', o1, s1. split; [exact Heq|]. split_and!; [done..| |].
    + intros c Hc. apply Hkeep, Hadd. by right.
    + intros c [Hc|Hc]; [|apply Hset; by right]. simpl in Hc. apply elem_of_cons in Hc as [->|Hc].
      * left. apply Hkeep, Hadd. by left.
      * apply Hset. by left.
Qed.

Lemma sure_runGroups g order worked cs :
  grouping_ok net d0 g → grouping_fit g → Forall (λ from, from ∈ gr_order g) order →
  sure (λ o s, Inv (λ _, False) o s ∧ all_settled cs o) (runGroups net pass w fuel g order worked)
    (λ _ o s, Inv (λ _, False) o s ∧ all_settled (λ c, grouped g order c ∨ cs c) o).
Proof.
  intros Hg Hfit Hord. revert worked cs. induction Hord as [|from order Hfrom Hord IH]; intros worked cs; simpl.
  { apply sure_ret. intros o s [HI Hs]. split; [done|]. intros c [(f & ? & ? & Hf & _)|Hc]; [by apply elem_of_nil in Hf|auto]. }
  eapply (sure_bind _ _ _ (λ dead o s, dead = false ∧ Inv (λ _, False) o s ∧ all_settled cs o)).
  { apply sure_ask. intros n d s HIs. split; [apply (cm_cancelled w Hcalm)|done]. }
  intros dead o s (-> & HIs). revert o s HIs.
  destruct Hg as (Hgr & Ho & Ht). destruct (Ho from Hfrom) as [jobs Hl]. rewrite Hl. cbn [default from_option id].
  change (sure (λ o s, Inv (λ _, False) o s ∧ all_settled cs o)
    (done_ <-w processGroup net pass w fuel (mkChunkRange from (top_of g from)) jobs
       (default [] (gr_groups g !! u32 (from + backfillChunkSize))) ;
     runGroups net pass w fuel g order (worked || done_))
    (λ _ o s, Inv (λ _, False) o s ∧ all_settled (λ c, grouped g (from :: order) c ∨ cs c) o)).
  eapply sure_bind.
  { apply sure_processGroup; [by apply Hgr| |apply Hfit].
    destruct (gr_groups g !! u32 (from + backfillChunkSize)) as [ahead|] eqn:Ha; [|constructor]. simpl.
    destruct (Hgr _ _ Ha) as (_ & _ & Hall). eapply Forall_impl; [exact Hall|]. by intros ? [? _]. }
  intros done_ o s (-> & HIs). destruct (IH (worked || true) _ o s HIs) as (a & o1 & s1 & Heq & HI1 & Hs1).
  exists a, o1, s1. split; [exact Heq|]. split; [done|]. intros c Hc. apply Hs1.
  destruct Hc as [(f & js & j & Hf & Hlf & Hj & <-)|Hc]; [|by right; right].
  apply elem_of_cons in Hf as [->|Hf]; [|left; by exists f, js, j].
  right. left. rewrite Hl in Hlf. injection Hlf as <-. apply list_elem_of_fmap. by exists j.
Qed.

(** *** A round *)

(** A walk of a registered contract that is not done. *)
Definition pending (d : db) (cid : string) (b : backfill_row) : Prop :=
  db_backfill d !! (net, cid) = Some b ∧ is_Some (db_contracts d !! (net, cid)) ∧ b_done b = false.

Lemma pending_listed d cid b : pending d cid b → cid ∈ cid_of <$> (sort_by fst (pending_jobs net d)).*2.
Proof.
  intros (Hb & [c Hc] & Hd). apply list_elem_of_fmap.
  exists (mkBackfillJob (mkBackfill cid (u32 (b_target_from b)) (u32 (b_next_to b)) (b_done b) None []) (contract_of ((net, cid), c))).
  split; [done|]. apply list_elem_of_fmap. eexists (b_updated_at b, _). split; [done|]. apply elem_of_sort_by.
  unfold pending_jobs. apply list_elem_of_omap. exists ((net, cid), b). simpl. rewrite Hc. split; [|done].
  apply elem_of_sel. split; [done|]. simpl. rewrite Hd. by rewrite bool_decide_true by done.
Qed.

Lemma sure_round : walks_wf net d0 → (∀ cid b, pending d0 cid b → b_next_to b ≤ tip) →
  sure (λ o s, Inv (λ _, False) o s ∧ o_db o = d0) (round net pass w fuel)
    (λ _ o s, Inv (λ _, False) o s ∧ all_settled (λ cid, ∃ b, pending d0 cid b) o).
Proof.
  intros Hwf Hn. unfold round.
  eapply (sure_bind _ _ _ (λ out o s, ∃ jobs, out = Ok jobs ∧ Inv (λ _, False) o s ∧ Forall (job_ok net d0) jobs ∧
    Forall (λ job, bf_NextTo (job_Backfill job) ≤ tip) jobs ∧ ∀ cid b, pending d0 cid b → cid ∈ cid_of <$> jobs)).
  { eapply (sure_conseq _ _ (λ o s, Inv (λ _, False) o s ∧ o_db o = d0)); [done| |eapply sure_with].
    2: { by apply (round_list_triple net pass w chain Hby K HK d0). }
    2: { apply (sure_transact _ _ (λ jobs o s, ∀ cid b, pending d0 cid b → cid ∈ cid_of <$> jobs)).
      intros n d s [_ Hd]. simpl in Hd. subst d. destruct (Hby n d0) as (Hb & Hc & _). eexists _, _. split; [done|].
      intros cid b Hp. apply (pending_listed _ cid b). unfold pending. by rewrite Hb, Hc. }
    intros out o s [(jobs & -> & Hall) (HI & Hj)]. exists jobs. specialize (Hj jobs eq_refl).
    split_and!; try done. eapply Forall_impl; [exact Hj|].
    intros job (cid & b & c & Hb & Hc & Hd & _ & _ & _ & ->). simpl. apply (Hn cid b). split_and!; by try eexists. }
  intros out o s (jobs & -> & HI & Hj & Hnj & Hall).
  destruct (sure_groupJobs jobs (mkGrouping ∅ ∅ [] false) (λ _, False) Hj Hnj (grouping_empty _ _)) with (o := o) (s := s)
    as (g & o1 & s1 & Heq & HI1 & Hg & Hfit & _ & Hset).
  { split; [intros f js Hl; simpl in Hl; by rewrite lookup_empty in Hl|]. intros f. unfold top_of. simpl. by rewrite lookup_empty. }
  { split; [done|]. by intros c. }
  unfold w_bind. rewrite Heq.
  destruct (sure_runGroups g (sort_by_desc id (gr_order g)) (gr_worked g)
    (λ c, settled c (db_backfill (o_db o1))) Hg Hfit) with (o := o1) (s := s1) as (a & o2 & s2 & Hr & HI2 & Hs2).
  { apply Forall_forall. intros f. by rewrite elem_of_sort_by_desc. }
  { split; [done|]. by intros c. }
  exists a, o2, s2. split; [exact Hr|]. split; [done|]. intros cid [b Hp]. apply Hs2.
  destruct (Hset cid) as [(f & js & j & Hf & ?)|?]; [left; by eapply Hall|left|by right].
  exists f, js, j. by rewrite elem_of_sort_by_desc.
Qed.
End round.

(** *** Rounds *)
Context (Hby : bystanders net w) (Hgen : genuine w chain) (Hpl : placed pass chain) (Htext : storable pass chain).
Context (K : db → Prop) (HK : respected net pass w chain K).
Context (HKs : ∀ d, K d → sound_rows net pass chain (get_tables d)).
Context (fuel : nat) (Hfuel : backfillChunkSize ≤ Z.of_nat fuel) (Htip0 : 0 ≤ tip).

Lemma pending_held d d' cid b' : held net pass chain d d' → pending d' cid b' →
  ∃ b, pending d cid b ∧ b_next_to b' ≤ b_next_to b.
Proof.
  intros Hh (Hb' & Hc & Hd). pose proof (hd_walks _ _ _ _ _ Hh (net, cid)) as Hk. rewrite Hb' in Hk.
  destruct (db_backfill d !! (net, cid)) as [b|] eqn:Hb; [|done]. rewrite (hd_contracts _ _ _ _ _ Hh) in Hc.
  exists b. destruct Hk as [->|(_ & c & _ & [Ho _ _ Hn _ _])]; [by split_and!|]. split; [by split_and!|lia].
Qed.

Lemma done_stays d d' k b : held net pass chain d d' → db_backfill d !! k = Some b → b_done b = true →
  db_backfill d' !! k = Some b.
Proof.
  intros Hh Hb Hd. pose proof (hd_walks _ _ _ _ _ Hh k) as Hk. rewrite Hb in Hk.
  destruct (db_backfill d' !! k) as [b'|]; [|done]. destruct Hk as [->|(_ & c & _ & [Ho _ _ _ _ _])]; [done|congruence].
Qed.

(** After [k] more rounds every pending walk is [k] rows lower. *)
Lemma Run_lowers rounds d s n k :
  walks_wf net d → gaps_wf (db_gaps d) → cache_ok pass w s → K d →
  (∀ cid b, pending d cid b → b_next_to b ≤ tip ∧ cell (b_next_to b) < k) →
  ∃ o' s', Run net pass w fuel rounds (mkOutside n d) s = Some (tt, o', s') ∧
    held net pass chain d (o_db o') ∧
    (∀ cid b, pending (o_db o') cid b → cell (b_next_to b) < k - Z.of_nat rounds) ∧
    ∀ cid b b', pending d cid b → db_backfill (o_db o') !! (net, cid) = Some b' → b_done b' = true →
      ended true (b_clamped_at b').
Proof.
  revert d s n k. induction rounds as [|rounds IH]; intros d s n k Hwf Hg Hc HKd Hp.
  { exists (mkOutside n d), s. split; [done|]. split; [done|]. split.
    - intros cid b Hb. destruct (Hp cid b Hb). simpl. lia.
    - intros cid b b' (Hb & _ & Hd) Hb' Hd'. simpl in Hb'. congruence. }
  destruct (sure_round Hby Hgen Hpl Htext K HK HKs d fuel Hfuel Htip0 Hwf) with (o := mkOutside n d) (s := s)
    as (worked & [n1 d1] & s1 & Hr & HI & Hset); [by intros cid b [? _]%Hp|split; [by split_and!|done]|].
  destruct HI as (Hh & Hg1 & Hc1 & _ & HK1). simpl in *.
  assert (Hwf1 : walks_wf net d1) by (by eapply walks_wf_held).
  assert (Hp1 : ∀ cid b, pending d1 cid b → b_next_to b ≤ tip ∧ cell (b_next_to b) < k - 1).
  { intros cid b' Hb'. destruct (pending_held d d1 cid b' Hh Hb') as (b & Hb & Hle). destruct (Hp cid b Hb) as [Ht Hk].
    split; [lia|]. destruct (Hset cid (ex_intro _ b Hb) b ltac:(apply Hb)) as (b1 & Hb1 & Hcase).
    simpl in Hb1. destruct Hb' as (Hrow & _ & Hd). rewrite Hrow in Hb1. injection Hb1 as <-.
    destruct Hcase as [[Hcase _]|[_ Hcase]]; [by rewrite Hcase in Hd|lia]. }
  assert (Hend : ∀ m s2, cache_ok pass w s2 → ∃ o' s', Run net pass w fuel rounds (mkOutside m d1) s2 = Some (tt, o', s') ∧
    held net pass chain d (o_db o') ∧ (∀ cid b, pending (o_db o') cid b → cell (b_next_to b) < k - Z.of_nat (Datatypes.S rounds)) ∧
    ∀ cid b b', pending d cid b → db_backfill (o_db o') !! (net, cid) = Some b' → b_done b' = true → ended true (b_clamped_at b')).
  { intros m s2 Hc2. destruct (IH d1 s2 m (k - 1) Hwf1 Hg1 Hc2 HK1 Hp1) as (o' & s' & Hrun & Hh' & Hlow & Hends).
    exists o', s'. split; [done|]. split; [by transitivity d1|]. split; [intros cid b Hb; specialize (Hlow cid b Hb); lia|].
    intros cid b b' Hb Hb' Hd'. destruct (Hset cid (ex_intro _ b Hb) b ltac:(apply Hb)) as (b1 & Hb1 & Hcase). simpl in Hb1.
    destruct (b_done b1) eqn:Hd1.
    - pose proof (done_stays d1 (o_db o') (net, cid) b1 Hh' Hb1 Hd1) as Hsame. rewrite Hb' in Hsame. injection Hsame as ->.
      by destruct Hcase as [[_ ?]|[? _]].
    - apply (Hends cid b1); [|done..]. split_and!; [done| |done]. rewrite (hd_contracts _ _ _ _ _ Hh). apply Hb. }
  unfold w_bind at 1. rewrite Hr. unfold w_bind at 1, cancelled, ask. cbn [o_calls o_db]. rewrite (cm_cancelled w Hcalm).
  destruct worked; [by apply Hend|]. unfold w_bind, w_modify. cbn [o_calls o_db]. rewrite (cm_slept w Hcalm). by apply Hend.
Qed.
End drains.

(** The system's databases accept what the chain derives. *)
Lemma walked_truthful `{S : SDK} `{!SDKChanges} net pass chain d d' :
  truthful net pass chain d → walked net pass chain d d' → truthful net pass chain d'.
Proof. intros Htr [_ Hr]. by eapply sys_keeps_rtc. Qed.

(** What became of the ledgers of a walk. *)
Lemma held_fate `{S : SDK} `{!SDKChanges} net pass chain oldest d d' cid b c b' :
  held net pass chain d d' → db_backfill d !! (net, cid) = Some b → db_contracts d !! (net, cid) = Some c →
  b_done b = false → db_backfill d' !! (net, cid) = Some b' → ended oldest (b_done b') (b_clamped_at b') →
  ∀ l, b_target_from b ≤ l ≤ b_next_to b →
    derived chain pass net cid (c_kinds c) l (get_tables d') ∨ (l < oldest ∧ owed (db_gaps d') net l).
Proof.
  intros Hh Hb Hc Hd Hb' [Hdone Hclamp] l Hl. pose proof (hd_walks _ _ _ _ _ Hh (net, cid)) as Hk.
  rewrite Hb, Hb' in Hk. destruct Hk as [->|(_ & c' & Hc' & Hav)]; [congruence|].
  simpl in Hc'. rewrite Hc in Hc'. injection Hc' as <-. destruct Hav as [_ _ _ Hn Hder Hend].
  destruct (Z.le_gt_cases l (b_next_to b')) as [Hle|Hgt]; [|left; apply Hder; lia].
  destruct (b_clamped_at b') as [wall|]; [|specialize (Hend Hdone); lia].
  destruct Hend as (_ & _ & Hnw & Howed). specialize (Hclamp wall eq_refl). right. split; [lia|apply Howed; lia].
Qed.

(** ** Properties *)

(** C8.  Every walk ends.  Take any database that declares the truth, as those
    the system reaches do, whose walks vouch for registered kinds only and start no
    higher than a tip the source serves; let nothing fail from now on: no
    statement, acknowledgement or timer; let the others leave walks, registrations
    and gaps alone and take steps of the system, as the live loop does; let the
    source serve the chain from ledger [oldest] up, in batches of any size; and let
    the chain's ledgers open, its positions identify its records and its transfers
    hold no text that Postgres refuses.  Then after one round for each row of the
    grid below the highest watermark, and one more, the backfiller has no pending
    walk left: each is done, every ledger of it that the source serves has its
    records stored, and each ledger below the source's retention is stored or
    promised by an open gap.  In particular no constraint refuses a commit. *)
Theorem backfill_drains `{S : SDK} `{!SDKChanges} `{!SDKLaws} `{!LedgerHeaders} (net pass : string) (w : world)
    (chain : Z → LedgerCloseMeta) (oldest tip : Z) (fuel rounds k n : nat) (d : db) (s : backfiller) :
  calm w → supplies w chain oldest tip → 0 ≤ tip < max_u32 →
  opens pass chain → linked chain → placed pass chain → storable pass chain →
  bystanders net w → orderly net pass w chain → genuine w chain → backfillChunkSize ≤ Z.of_nat fuel →
  truthful net pass chain d → walks_wf net d → registered net d → cache_ok pass w s →
  (∀ cid b, pending net d cid b → b_next_to b ≤ Z.min tip (backfillChunkSize * Z.of_nat k)) → (k < rounds)%nat →
  ∃ o' s', Backfill.Run net pass w fuel rounds (mkOutside n d) s = Some (tt, o', s') ∧
    (∀ now, run now (ListPendingBackfills net) (o_db o') = Ok ([], o_db o')) ∧
    ∀ cid b c, db_backfill d !! (net, cid) = Some b → db_contracts d !! (net, cid) = Some c → b_done b = false →
      ∃ b', db_backfill (o_db o') !! (net, cid) = Some b' ∧ b_done b' = true ∧
        ∀ l, b_target_from b ≤ l ≤ b_next_to b →
          derived chain pass net cid (c_kinds c) l (get_tables (o_db o')) ∨ (l < oldest ∧ owed (db_gaps (o_db o')) net l).
Proof.
  intros Hcalm Hsup [Htip0 Htip] Hopens Hlink Hpl Htext Hby Hord Hgen Hfuel Htr Hwf Hreg Hc Hp Hrounds.
  destruct (Run_lowers net pass w chain Hcalm oldest tip Hsup Htip Hopens Hlink Hby Hgen Hpl Htext (walked net pass chain d)
    (walked_respected net pass w chain d Hby Hord) (λ d' H, tr_sound (walked_truthful net pass chain d d' Htr H))
    fuel Hfuel Htip0 rounds d s n (Z.of_nat k)) as (o' & s' & Hrun & Hh & Hlow & Hends).
  { done. } { apply (tr_gaps Htr). } { done. } { split; [done|apply rtc_refl]. }
  { intros cid b Hb%Hp. unfold cell, backfillChunkSize in *. split; [lia|]. apply Z.div_lt_upper_bound; lia. }
  assert (Hnone : ∀ cid b, ¬ pending net (o_db o') cid b).
  { intros cid b Hb. pose proof (Hlow cid b Hb) as Hcell. destruct (walks_wf_held net pass chain d (o_db o') Hwf Hh) as [_ Hw].
    destruct Hb as (Hb & _ & Hd). destruct (Hw cid b Hb Hd) as [_ Hn]. unfold cell, backfillChunkSize in Hcell.
    pose proof (Z.div_le_mono (-2000) (b_next_to b - 1) 2000) as Hm. change (-2000 / 2000) with (-1) in Hm. lia. }
  exists o', s'. split; [done|]. split.
  - intros now. unfold ListPendingBackfills. simpl. enough (pending_jobs net (o_db o') = []) as -> by done.
    apply elem_of_nil_inv. intros [u job] Hin. unfold pending_jobs in Hin.
    apply list_elem_of_omap in Hin as ([[nw cid] b] & [Hb Hcond]%elem_of_sel & Hj). simpl in Hcond, Hj.
    apply andb_true_iff in Hcond as [->%bool_decide_eq_true Hd%negb_true_iff].
    destruct (db_contracts (o_db o') !! (net, cid)) as [c|] eqn:Hcc; [|done]. apply (Hnone cid b). split_and!; [done| |done]. by rewrite Hcc.
  - intros cid b c Hb Hcc Hd.
    pose proof (hd_walks _ _ _ _ _ Hh (net, cid)) as Hk. rewrite Hb in Hk.
    destruct (db_backfill (o_db o') !! (net, cid)) as [b'|] eqn:Hb'; [|done]. clear Hk. exists b'. split; [done|].
    assert (Hdone : b_done b' = true).
    { destruct (b_done b') eqn:E; [done|]. destruct (Hnone cid b'). split_and!; [done| |done].
      rewrite (hd_contracts _ _ _ _ _ Hh). by rewrite Hcc. }
    split; [done|]. eapply held_fate; try done. rewrite Hdone. apply (Hends cid b b'); [|done..].
    split_and!; [done|by rewrite Hcc|done].
Qed.

(** ** Witness *)

#[local] Existing Instance demo_sdk.
#[local] Existing Instance demo_changes.
#[local] Existing Instance demo_laws.
#[local] Existing Instance demo_headers.

(** A source of the chain with one payment, from ledger 7 to ledger 100. *)
Definition pay_batch (start limit : Z) : res (list (@LedgerCloseMeta demo_sdk)) :=
  if start <? 7 then Err ErrBelowRetention
  else if 100 <? start then Err ErrNotYetAvailable
  else Ok (pay_chain <$> seqZ start (Z.min limit (101 - start))).

Definition pay_world : @world demo_sdk :=
  @mkWorld demo_sdk (λ _, pay_batch) (λ _ _ _, Err ErrOther) (λ _ _, Err ErrOther)
    (λ _ d, d) (λ _, no_faults) (λ _, false) (λ n, Z.of_nat n) (λ _, false) (λ _, true) (λ _, demo_watch).

(** [CA] is registered for movements, from ledger 5; ledgers 5 to 9 are pending. *)
Definition walk_db : db := after (EnsureBackfill "testnet" "CA" 5 9 ["movements"]) pay_db1.

Lemma walk_row cid b : db_backfill walk_db !! ("testnet", cid) = Some b →
  cid = "CA" ∧ b_target_from b = 5 ∧ b_next_to b = 9 ∧ b_done b = false ∧ b_covered_kinds b = ["movements"].
Proof.
  intros Hb. apply elem_of_map_to_list in Hb. revert Hb. vm_compute map_to_list.
  rewrite elem_of_cons, elem_of_nil. by intros [[= -> ->]|[]].
Qed.

Lemma walk_contract k c : db_contracts walk_db !! k = Some c → k = ("testnet", "CA") ∧ c_kinds c = ["movements"].
Proof.
  intros Hc. apply elem_of_map_to_list in Hc. revert Hc. vm_compute map_to_list.
  rewrite elem_of_cons, elem_of_nil. by intros [[= -> ->]|[]].
Qed.

Lemma pay_supplies : supplies pay_world pay_chain 7 100.
Proof.
  intros n start limit Hs Hl. simpl. unfold pay_batch. split; intros Ho.
  - destruct (Z.ltb_spec start 7); [lia|]. destruct (Z.ltb_spec 100 start); [lia|].
    exists (Z.min limit (101 - start)). split; [lia|]. split; [lia|done].
  - by destruct (Z.ltb_spec start 7); [|lia].
Qed.

Lemma pay_seq l : in_Sequence (InfoOf (pay_chain l)) = u32 l.
Proof. unfold pay_chain. by destruct (Z.eqb_spec l 9) as [->|]. Qed.

Lemma pay_genuine : genuine pay_world pay_chain.
Proof.
  intros n start limit ls lcm. simpl. unfold pay_batch.
  destruct (Z.ltb_spec start 7); [done|]. destruct (Z.ltb_spec 100 start); [done|].
  intros [= <-] (l & -> & Hl%elem_of_seqZ)%list_elem_of_fmap. f_equal. etransitivity; [|symmetry; apply pay_seq].
  symmetry. apply u32_small. uarith.
Qed.

Lemma walk_truthful : truthful "testnet" "pass" pay_chain walk_db.
Proof.
  apply sys_truthful. apply (rtc_l _ _ pay_db1).
  { eapply AsideStep, (ContractStep _ _ _ _ _ (mkContract "testnet" "CA" "api" ["movements"] None 0) _ 1). vm_compute. reflexivity. }
  apply rtc_once. eapply AsideStep, (RegisterStep _ _ _ _ _ "CA" 5 9 ["movements"] 1); [uarith..|done|]. vm_compute. reflexivity.
Qed.

(** Two rounds store the payment and declare what the source no longer has. *)
Lemma backfill_drains_witness :
  ∃ o' s', Backfill.Run "testnet" "pass" pay_world (Z.to_nat 2000) 2 (mkOutside 0 walk_db) idle_backfiller = Some (tt, o', s') ∧
    run 9 (ListPendingBackfills "testnet") (o_db o') = Ok ([], o_db o') ∧
    (derived pay_chain "pass" "testnet" "CA" ["movements"] 5 (get_tables (o_db o')) ∨ (5 < 7 ∧ owed (db_gaps (o_db o')) "testnet" 5)).
Proof.
  destruct (backfill_drains "testnet" "pass" pay_world pay_chain 7 100 (Z.to_nat 2000) 2 1 0 walk_db idle_backfiller)
    as (o' & s' & Hrun & Hlist & Hall).
  - split; reflexivity.
  - exact pay_supplies.
  - uarith.
  - exact pay_opens.
  - exact pay_linked.
  - exact pay_placed.
  - exact pay_storable.
  - intros n d. do 3 (split; [reflexivity|]). intros r Hr. exact Hr.
  - intros n d. apply rtc_refl.
  - exact pay_genuine.
  - unfold backfillChunkSize. lia.
  - exact walk_truthful.
  - split.
    + intros k c Hc. destruct (walk_contract k c Hc) as [_ ->]. repeat constructor.
    + intros cid b Hb _. destruct (walk_row cid b Hb) as (_ & -> & -> & _). uarith.
  - intros cid b c kind Hb Hc. destruct (walk_row cid b Hb) as (_ & _ & _ & _ & ->).
    destruct (walk_contract _ c Hc) as [_ ->]. done.
  - intros e. discriminate.
  - intros cid b (Hb & _ & _). destruct (walk_row cid b Hb) as (_ & _ & -> & _). unfold backfillChunkSize. lia.
  - lia.
  - exists o', s'. split; [exact Hrun|]. split; [apply Hlist|].
    destruct (Hall "CA" (mkBackfillRow 5 9 false None ["movements"] 1) (mkContractRow "api" ["movements"] None 1))
      as (b' & _ & _ & Hfate); [vm_compute; reflexivity..|]. apply (Hfate 5). simpl. lia.
Defined.
