(* ===== verification/Fulfil.v ===== *)
(** * Every promise is kept

    The healer never drops a promise ([Heal]) and does nothing the system does
    not allow ([Together]); here, that it gets done.  A worker that is left
    alone with the gaps, while nothing fails and the archives serve the chain,
    takes one chunk off them per turn, so the number of turns after which no gap
    it owns is open is known in advance.  Of one worker: several may claim from
    stale listings and repeat chunks ([stale_claim_repeats_chunk]), which takes
    more turns. *)

From stdpp Require Import relations.
From S2P Require Import Prelude HealPlan Db Gaps Rows Registrations Commit Registry Query Api Extract Loop Workers System Backfill Heal Derived Provenance Coverage Histories Accepted Together Follow Drain.

(** ** Definitions *)

(** The archives serve the chain: a core starts and replays it. *)
Definition archived `{SDK} (w : world) (chain : Z → LedgerCloseMeta) : Prop :=
  (∀ n from to, w_prepare w n from to = Ok tt) ∧ ∀ n l, w_core w n l = Ok (chain l).

(** What the healer owns. *)
Definition replayable (net : string) (r : gap_row) : bool :=
  is_open net r && bool_decide (g_heal_mode r = HealModeReplay).

(** The chunks a gap takes, and all of them. *)
Definition chunks_of (net : string) (chunk : Z) (r : gap_row) : Z :=
  if replayable net r then (heal_next r - g_from r + chunk) / chunk else 0.

Definition chunks_left (net : string) (chunk : Z) (m : gmap string gap_row) : Z :=
  map_fold (λ _ r s, chunks_of net chunk r + s) 0 m.

(** ** Lemmas *)

(** *** Counting chunks *)
Section counting.
Context (net : string) (chunk : Z) (Hchunk : 1 ≤ chunk).
Implicit Types (m : gmap string gap_row).

Lemma chunks_left_delete m id r : m !! id = Some r →
  chunks_left net chunk m = chunks_of net chunk r + chunks_left net chunk (delete id m).
Proof. intros Hr. unfold chunks_left. refine (map_fold_delete_L _ _ id r m _ Hr). intros. lia. Qed.

Lemma chunks_left_update m id r r' : m !! id = Some r →
  chunks_left net chunk (<[id:=r']> m) = chunks_left net chunk m - chunks_of net chunk r + chunks_of net chunk r'.
Proof.
  intros Hr. rewrite (chunks_left_delete m id r Hr).
  rewrite (chunks_left_delete _ id r') by apply lookup_insert_eq. rewrite delete_insert_eq. lia.
Qed.

(** The gaps have watermarks in their ranges. *)
Definition ranged m : Prop := ∀ id r, m !! id = Some r → pending_row net r.

Lemma chunks_of_pos r : pending_row net r → replayable net r = true → 1 ≤ chunks_of net chunk r.
Proof.
  intros Hp Hr. unfold chunks_of. rewrite Hr. apply andb_true_iff in Hr as [Ho%is_open_spec _].
  destruct (Hp Ho) as [[_ Hle] _]. apply Z.div_le_lower_bound; lia.
Qed.

Lemma chunks_left_nonneg m : ranged m → 0 ≤ chunks_left net chunk m.
Proof.
  unfold chunks_left. apply (map_fold_weak_ind (λ s m, ranged m → 0 ≤ s)); [lia|].
  intros id r m' s Hid IH Hm. assert (0 ≤ s).
  { apply IH. intros k x Hk. apply (Hm k). rewrite lookup_insert_ne; [done|congruence]. }
  assert (0 ≤ chunks_of net chunk r); [|lia]. destruct (replayable net r) eqn:Hr.
  - pose proof (chunks_of_pos r (Hm id r (lookup_insert_eq _ _ _)) Hr). lia.
  - unfold chunks_of. by rewrite Hr.
Qed.

Lemma chunks_left_some m id r : ranged m → m !! id = Some r → replayable net r = true → 1 ≤ chunks_left net chunk m.
Proof.
  intros Hm Hr Hrep. rewrite (chunks_left_delete m id r Hr). pose proof (chunks_of_pos r (Hm id r Hr) Hrep).
  assert (0 ≤ chunks_left net chunk (delete id m)); [|lia]. apply chunks_left_nonneg.
  intros k x [_ Hk]%lookup_delete_Some. by eapply Hm.
Qed.

Lemma chunks_left_none m : (∀ id r, m !! id = Some r → replayable net r = false) → chunks_left net chunk m = 0.
Proof.
  unfold chunks_left. apply (map_fold_weak_ind (λ s m, (∀ id r, m !! id = Some r → replayable net r = false) → s = 0)); [done|].
  intros id r m' s Hid IH Hm. unfold chunks_of. rewrite (Hm id r (lookup_insert_eq _ _ _)), IH; [done|].
  intros k x Hk. apply (Hm k). rewrite lookup_insert_ne; [done|congruence].
Qed.

(** A committed chunk is one less. *)
Lemma chunk_counts r t goNow from : replayable net r = true → 1 ≤ g_from r ≤ heal_next r →
  from = Z.max (g_from r) (heal_next r - chunk + 1) → t = (if bool_decide (from = g_from r) then Some goNow else None) →
  chunks_of net chunk (advance_row (from - 1) t r) = chunks_of net chunk r - 1.
Proof.
  intros Hr Hle Hfrom ->. unfold chunks_of. rewrite Hr. unfold replayable, is_open in *.
  apply andb_true_iff in Hr as [[Hn Ho]%andb_true_iff Hm].
  destruct (decide (from = g_from r)) as [Hres|Hres];
    [rewrite (bool_decide_eq_true_2 (from = g_from r)) by done|rewrite (bool_decide_eq_false_2 (from = g_from r)) by done].
  - unfold advance_row. cbn [g_network g_resolved_at g_heal_mode].
    rewrite (bool_decide_eq_false_2 (Some goNow = None)) by done. rewrite andb_false_r. cbn [andb].
    assert (Hdiv : (heal_next r - g_from r + chunk) / chunk = 1); [|lia].
    symmetry. apply (Z.div_unique _ _ _ (heal_next r - g_from r)); lia.
  - simpl. rewrite Hn, Ho, Hm. simpl. change (heal_next (advance_row _ _ r)) with (from - 1).
    replace (from - 1 - g_from r + chunk) with (heal_next r - g_from r + chunk + (-1) * chunk) by lia.
    rewrite Z.div_add by lia. lia.
Qed.
End counting.

(** *** A chunk that gets done *)
Section chunks.
Context `{S : SDK} `{!SDKChanges} `{!SDKLaws} `{!LedgerHeaders} `{!LedgerMetas} (net pass : string) (chunk : Z) (w : world)
  (chain : Z → LedgerCloseMeta).
Context (Hcalm : calm w) (Harch : archived w chain) (Hlinked : linked chain) (Hopens : opens pass chain).

Lemma healLedger_passes snap seq x : 0 ≤ seq ≤ max_u32 → (x.1 = "" ∨ x.1 = LedgerHash (chain (seq - 1))) →
  ∃ acc, healLedger pass snap (chain seq) x = Ok (LedgerHash (chain seq), acc).
Proof.
  intros Hs Hprev. unfold healLedger.
  replace (bool_decide (x.1 ≠ "") && _) with false.
  2: { symmetry. apply andb_false_iff. destruct Hprev as [->| ->]; [left|right]; apply bool_decide_eq_false; intros Hne;
    apply Hne; [done|]. simpl. rewrite <- (chain_link chain (seq - 1)). f_equal. f_equal. lia. }
  destruct (Events_opens pass chain Hopens snap seq) as [r ->]. by eexists.
Qed.

Lemma replayLoop_succeeds fuel snap to seq x o (h : healer) :
  0 ≤ seq → to < max_u32 → span seq to ≤ Z.of_nat fuel → (x.1 = "" ∨ x.1 = LedgerHash (chain (seq - 1))) →
  ∃ y n, replayLoop w fuel (healLedger pass snap) to seq x o h = Some (Ok y, mkOutside n (o_db o), h).
Proof.
  intros Hseq Ht. revert seq Hseq x o. induction fuel as [|fuel IH]; intros seq Hseq x o Hf Hprev; cbn [replayLoop].
  - destruct (Z.leb_spec seq to); [uarith|]. exists x, (o_calls o). by destruct o.
  - destruct (Z.leb_spec seq to) as [Hle|]; cbn [negb]; [|exists x, (o_calls o); by destruct o].
    unfold w_bind, ask. cbn [o_calls o_db]. rewrite (proj2 Harch).
    assert (Hs : in_Sequence (InfoOf (chain seq)) = seq) by (simpl; rewrite (chain_seq chain) by uarith; apply u32_small; uarith).
    rewrite Hs, Z.eqb_refl. cbn [negb].
    destruct (healLedger_passes snap seq x ltac:(lia) Hprev) as [acc ->]. rewrite u32_small by uarith.
    apply (IH (seq + 1) ltac:(lia) _ (mkOutside (Datatypes.S (o_calls o)) (o_db o))); [uarith|].
    right. simpl. f_equal. f_equal. lia.
Qed.

Lemma archived_true : true_cores w chain.
Proof. intros n l lcm. rewrite (proj2 Harch). congruence. Qed.

Lemma bystanders_gaps : bystanders net w → gap_bystanders net w.
Proof. intros Hby n d. destruct (Hby n d) as (_ & _ & -> & ?). split; [done|]. split; [done|]. by left. Qed.

Lemma bystanders_informed : bystanders net w → ∀ n d, informed net w d → informed net w (w_others w n d).
Proof. intros Hby n d. apply informed_same. intros k b wall. destruct (Hby n d) as (-> & _). eauto. Qed.

Context (Hpl : placed pass chain) (Htext : storable pass chain) (Hby : bystanders net w) (Hord : orderly net pass w chain).
Context (Hchunk : 1 ≤ chunk ≤ max_u32) (fuel : nat) (Hfuel : chunk ≤ Z.of_nat fuel) (chunkNow : Z).
Context (d0 : db).

Abbreviation sound := (sound_rows net pass chain).

(** The histories stay the chain's; and from a truthful database, under informed
    snapshots, the worker takes steps of the system. *)
Definition chainly (d : db) : Prop :=
  sound (get_tables d) ∧ (truthful net pass chain d0 ∧ informed net w d0 → replayed net pass w chain d0 d).

(** The database as the worker keeps it. *)
Definition mending (d : db) : Prop := sound_db net pass w d0 chainly d.

Lemma mending_sound d : mending d → sound (get_tables d).
Proof. intros (_ & _ & Hs & _). exact Hs. Qed.

Lemma mending_truthful d : truthful net pass chain d0 → informed net w d0 → mending d → truthful net pass chain d.
Proof. intros Htr Hi (_ & _ & _ & Hr). destruct (Hr (conj Htr Hi)) as [_ Hsys]. by eapply sys_keeps_rtc. Qed.

Lemma mending_respected : heals_respected net pass chunk w chainly.
Proof.
  destruct (replayed_respected net pass chunk w chain d0 archived_true Hord (bystanders_informed Hby)) as [Ho Hc]. split.
  - intros n d [Hs Hr]. split; [exact (sys_sound (mkConfig net pass 0) chain d _ Hs (Hord n d))|]. intros Hd. apply Ho. by apply Hr.
  - intros g goNow acc r now d d' from [Hs Hr] ? ? ? ? ? Hread ? Hrun. split; [|intros Hd; eapply Hc; [by apply Hr|eassumption..]].
    rewrite run_CommitHealChunk in Hrun. destruct (add_records _ _ _) as [t|] eqn:Ha; [|done].
    destruct (_ =? 0); [done|]. cbv zeta in Hrun. injection Hrun as <-. rewrite get_put_tables.
    eapply sound_add; [exact Hs| |exact Ha]. eapply read_from_chain; [exact archived_true|exact Hread].
Qed.

Lemma mending_others n d : mending d → mending (w_others w n d).
Proof. eapply sound_others; [by apply bystanders_gaps|apply mending_respected]. Qed.

(** The chunk of an open gap commits: nothing refuses what was replayed. *)
Lemma healChunk_succeeds g o h r : mending (o_db o) → gap_ok net pass w (o_db o) g →
  db_gaps (o_db o) !! gap_ID g = Some r → row_open net r →
  ∃ n d' h', healChunk net pass chunk w fuel g chunkNow o h = Some (Ok tt, mkOutside n d', h').
Proof.
  intros Hm Hg Hr Ho. pose proof (proj1 Hg) as Hh. pose proof (chunkFrom_spec chunk g Hchunk Hh) as Hfrom.
  destruct Hh as [Hf Ht].
  destruct (healChunk_done net pass chunk w fuel g chunkNow o h Hchunk (proj1 Hg) ltac:(lia)) as (out & n & d' & h' & Hrun & _).
  exists n, d', h'. rewrite Hrun. do 3 f_equal. revert Hrun. unfold healChunk.
  set (from := chunkFrom chunk g) in *. clearbody from. unfold w_bind at 1, ask. cbn [o_calls o_db].
  set (snap := w_snap w (o_calls o)). unfold w_bind at 1.
  destruct (ReplayRange_replays w (healLedger pass snap) fuel from (gap_HealNextTo g) ("", no_result)
    ltac:(lia) Ht ltac:(uarith) (mkOutside (Datatypes.S (o_calls o)) (o_db o)) h) as (rep & k & Hrep & Hok).
  rewrite Hrep. assert (∃ y, rep = Ok y) as [[prev acc] ->].
  { revert Hrep. unfold ReplayRange. destruct (Z.eqb_spec from 0); [lia|].
    destruct (Z.ltb_spec (gap_HealNextTo g) from); [lia|]. simpl. unfold w_bind, ask. cbn [o_calls o_db].
    rewrite (proj1 Harch).
    edestruct (replayLoop_succeeds fuel snap (gap_HealNextTo g) from ("", no_result)) as (y & k' & ->);
      [lia|done|uarith|by left|]. intros [= <- _]. by exists y. }
  destruct (Hok _ eq_refl) as (lcms & Hcore & Hems). cbn [o_db o_calls].
  destruct (emits_healLedger pass w snap from (gap_HealNextTo g) lcms [] "" no_result prev acc)
    as [Hl Hx]; [done|lia|done|apply extracted_nil|done|].
  assert (Hread : chunk_read pass w from (gap_HealNextTo g) acc) by (exists (o_calls o), lcms; by split_and!).
  unfold w_bind at 1, transact. cbn [o_calls o_db].
  rewrite (cm_faults w Hcalm k), BeginFunc_quiet, run_CommitHealChunk.
  set (d1 := w_others w k (o_db o)). pose proof (mending_sound _ (mending_others k _ Hm)) as Hs.
  destruct (add_records_accepted pass chain Hpl net (all_records acc) (get_tables d1) Htext Hs) as [t ->].
  { eapply read_from_chain; [apply archived_true|exact Hread]. }
  destruct (Z.eqb_spec (affected (advance_cond net (gap_ID g)) (db_gaps d1)) 0) as [Hz|_].
  - rewrite affected_zero in Hz. unfold d1 in Hz. destruct (Hby k (o_db o)) as (_ & _ & Hgaps & _). rewrite Hgaps in Hz.
    specialize (Hz _ _ Hr). unfold advance_cond in Hz. by rewrite (proj2 (is_open_spec net r) Ho), bool_decide_eq_true_2 in Hz.
  - rewrite (cm_lost w Hcalm k). cbv zeta. by intros [= <-].
Qed.

(** *** A turn *)

(** A gap as it was, but for its watermark and resolution; as it was if the
    healer does not own it. *)
Definition kept_gaps (m0 m : gmap string gap_row) : Prop := ∀ id, option_Forall2 (λ r0 r,
  g_heal_mode r = g_heal_mode r0 ∧ (replayable net r0 = false → r = r0)) (m0 !! id) (m !! id).

Lemma some_related {A} (R : relation A) x y : option_Forall2 R (Some x) (Some y) → R x y.
Proof. by inversion 1. Qed.

Lemma kept_gaps_refl m : kept_gaps m m.
Proof. intros id. destruct (m !! id); by constructor. Qed.

Lemma kept_gaps_advance m0 m id r r' : kept_gaps m0 m → m !! id = Some r → replayable net r = true →
  g_heal_mode r' = g_heal_mode r → kept_gaps m0 (<[id:=r']> m).
Proof.
  intros Hk Hr Hrep Hm k. specialize (Hk k). destruct (decide (id = k)) as [<-|Hne]; [|by rewrite lookup_insert_ne].
  rewrite Hr in Hk. rewrite lookup_insert_eq. inversion Hk as [r0 ? [Hmode Hsame]|]; subst.
  constructor. split; [congruence|]. intros Hno. rewrite (Hsame Hno) in Hrep. congruence.
Qed.

Lemma replayable_open r : row_open net r → replayable net r = bool_decide (g_heal_mode r = HealModeReplay).
Proof. intros Ho. unfold replayable. by rewrite (proj2 (is_open_spec net r) Ho). Qed.

Lemma replayable_mode r : g_heal_mode r ≠ HealModeReplay → replayable net r = false.
Proof. intros Hm. unfold replayable. apply andb_false_iff. right. by apply bool_decide_eq_false. Qed.

(** When the healer owns nothing any more, what is promised is what it never
    owned. *)
Lemma kept_deferred m0 m l : kept_gaps m0 m → (∀ id r, m !! id = Some r → replayable net r = false) →
  owed m net l ↔ ∃ mode, mode ≠ HealModeReplay ∧ owes m0 net l mode.
Proof.
  intros Hk Hno. split.
  - intros (mode & id & r & Hr & Hrow). pose proof Hrow as (Hn & Ho & _ & Hmode).
    pose proof (Hno id r Hr) as Hrep. rewrite (replayable_open r (conj Hn Ho)), bool_decide_eq_false in Hrep.
    exists mode. split; [by rewrite <- Hmode|]. specialize (Hk id). rewrite Hr in Hk.
    destruct (m0 !! id) as [r0|] eqn:Hr0; [|by inversion Hk]. apply some_related in Hk as [Hm Hsame].
    exists id, r0. split; [done|]. rewrite <- Hsame; [done|]. apply replayable_mode. congruence.
  - intros (mode & Hne & id & r0 & Hr0 & Hrow). exists mode, id, r0. split; [|done]. specialize (Hk id).
    rewrite Hr0 in Hk. destruct (m !! id) as [r|]; [|by inversion Hk]. apply some_related in Hk as [_ Hsame].
    rewrite Hsame; [done|]. apply replayable_mode. destruct Hrow as (_ & _ & _ & Hmode). congruence.
Qed.

(** The gaps the store lists, in its order. *)
Definition listing (d : db) : list Gap :=
  scanGap <$> sort_by_desc (λ row, g_to row.2) (sel (λ _ r, replayable net r) (db_gaps d)).

Lemma listing_in d g : g ∈ listing d → ∃ r, db_gaps d !! gap_ID g = Some r ∧ replayable net r = true ∧ g = scanGap (gap_ID g, r).
Proof.
  intros ([id r] & -> & Hin)%list_elem_of_fmap. apply elem_of_sort_by_desc, elem_of_sel in Hin as [Hr Hrep].
  exists r. by split_and!.
Qed.

Lemma listing_nil d : listing d = [] → ∀ id r, db_gaps d !! id = Some r → replayable net r = false.
Proof.
  intros Hnil id r Hr. destruct (replayable net r) eqn:Hrep; [|done].
  assert (Hin : scanGap (id, r) ∈ listing d); [|rewrite Hnil in Hin; by apply elem_of_nil in Hin].
  apply list_elem_of_fmap. exists (id, r). split; [done|]. apply elem_of_sort_by_desc, elem_of_sel. by split.
Qed.

Lemma listing_gap_ok d g : mending d → g ∈ listing d → gap_ok net pass w d g.
Proof. intros (Hok & _) Hg. pose proof (listed_ok net pass w d0 d Hok) as Hall. rewrite Forall_forall in Hall. by apply Hall. Qed.

Lemma mending_ranged d : mending d → ranged net (db_gaps d).
Proof. intros ((Hrows & _) & _) id r Hr. by apply (Hrows id r Hr). Qed.

(** One chunk of a listed gap: one less is left. *)
Lemma chunk_heals g o h : mending (o_db o) → kept_gaps (db_gaps d0) (db_gaps (o_db o)) → g ∈ listing (o_db o) →
  ∃ n d' h', healChunk net pass chunk w fuel g chunkNow o h = Some (Ok tt, mkOutside n d', h') ∧
    mending d' ∧ kept_gaps (db_gaps d0) (db_gaps d') ∧ hl_inFlight h' = hl_inFlight h ∧
    chunks_left net chunk (db_gaps d') = chunks_left net chunk (db_gaps (o_db o)) - 1.
Proof.
  intros Hm Hk Hin. pose proof (listing_gap_ok _ g Hm Hin) as Hg.
  destruct (listing_in _ g Hin) as (r & Hr & Hrep & Hscan). assert (Ho : row_open net r) by
    (apply andb_true_iff in Hrep as [Ho _]; by apply is_open_spec).
  destruct (healChunk_succeeds g o h r Hm Hg Hr Ho) as (n & d' & h' & Hrun). exists n, d', h'. split; [done|].
  destruct (chunk_step_ok net pass chunk w (bystanders_gaps Hby) Hchunk d0 _ mending_respected fuel chunkNow Hfuel
    (o_db o) g o h (Ok tt) (mkOutside n d') h' eq_refl Hm Hg Hrun) as (Hm' & _ & Hfl).
  split; [exact Hm'|]. pose proof (chunkFrom_spec chunk g Hchunk (proj1 Hg)) as Hfrom.
  destruct (healChunk_done net pass chunk w fuel g chunkNow o h Hchunk (proj1 Hg) ltac:(lia)) as (out & n2 & d2 & h2 & Hrun2 & Hdone).
  rewrite Hrun in Hrun2. injection Hrun2 as <- <- <- <-. destruct Hdone as (k & acc & _ & Hcommit & _).
  assert (Hgaps : db_gaps (w_others w k (o_db o)) = db_gaps (o_db o)) by apply Hby.
  set (r' := advance_row (chunkFrom chunk g - 1) (if bool_decide (chunkFrom chunk g = gap_From g) then Some chunkNow else None) r).
  assert (Hnew : db_gaps d' = <[gap_ID g := r']> (db_gaps (o_db o))).
  { apply map_eq. intros id. apply option_eq. intros x.
    rewrite (commit_row net chunk _ d' g _ _ acc Hcommit r) by (by rewrite Hgaps).
    rewrite Hgaps, lookup_insert_Some. split; [intros [[? ?]|[-> ->]]; [right|left]; by split|].
    intros [[<- <-]|[? ?]]; [right|left]; by split. }
  rewrite Hnew. split; [by eapply kept_gaps_advance|]. split; [done|].
  rewrite (chunks_left_update _ _ _ _ r r' Hr).
  destruct (mending_ranged _ Hm _ _ Hr Ho) as [[Hf Hle] Hto].
  assert (Hgf : gap_From g = g_from r) by (rewrite Hscan; apply u32_small; uarith).
  assert (Hgn : gap_HealNextTo g = heal_next r).
  { rewrite Hscan. unfold heal_next in *. simpl. destruct (g_heal_next_to r); simpl in *; apply u32_small; uarith. }
  rewrite Hgf, Hgn in Hfrom. unfold r'. rewrite (chunk_counts net chunk ltac:(lia) r _ chunkNow (chunkFrom chunk g) Hrep ltac:(lia) Hfrom);
    [lia|by rewrite <- Hgf].
Qed.

Lemma run_ListOpenGaps now d : run now (ListOpenGaps net) d = Ok (listing d, d).
Proof. done. Qed.

Lemma listing_others n d : listing (w_others w n d) = listing d.
Proof. unfold listing. by destruct (Hby n d) as (_ & _ & -> & _). Qed.

Lemma claim_first g gaps : claim (g :: gaps) ∅ = Some (g, {[gap_ID g]}).
Proof. simpl. rewrite decide_False by set_solver. f_equal. f_equal. set_solver. Qed.

(** As many turns as chunks are left, and no gap of the healer's is open. *)
Lemma work_fulfils turns n d h : mending d → kept_gaps (db_gaps d0) (db_gaps d) → hl_inFlight h = ∅ →
  chunks_left net chunk (db_gaps d) ≤ Z.of_nat turns →
  ∃ o' h', work net pass chunk w fuel turns chunkNow (mkOutside n d) h = Some (tt, o', h') ∧
    mending (o_db o') ∧ kept_gaps (db_gaps d0) (db_gaps (o_db o')) ∧ listing (o_db o') = [].
Proof.
  revert n d h. induction turns as [|turns IH]; intros n d h Hm Hk Hfl Hleft.
  { exists (mkOutside n d), h. split_and!; [done..|]. cbn [o_db]. destruct (listing d) as [|g gaps] eqn:Hl; [done|].
    destruct (listing_in d g) as (r & Hr & Hrep & _); [rewrite Hl; by left|].
    pose proof (chunks_left_some net chunk ltac:(lia) _ _ r (mending_ranged d Hm) Hr Hrep). lia. }
  cbn [work]. unfold w_bind at 1, cancelled, ask. cbn [o_calls o_db]. rewrite (cm_cancelled w Hcalm).
  unfold w_bind at 1, transact. cbn [o_calls o_db]. rewrite (cm_faults w Hcalm), BeginFunc_quiet, run_ListOpenGaps.
  rewrite (cm_lost w Hcalm), listing_others. set (d1 := w_others w (Datatypes.S n) d).
  assert (Hm1 : mending d1) by by apply mending_others.
  assert (Hg1 : db_gaps d1 = db_gaps d) by apply Hby.
  unfold w_bind at 1, w_get. rewrite Hfl. destruct (listing d) as [|g gaps] eqn:Hl.
  - cbn [claim]. unfold w_bind at 1, nap, w_bind at 1, ask. cbn [o_calls o_db]. unfold w_bind at 1, w_modify, w_ret.
    rewrite (cm_slept w Hcalm). apply IH; [done|by rewrite Hg1|done|].
    rewrite Hg1, (chunks_left_none net chunk _ (listing_nil d Hl)). lia.
  - rewrite claim_first. unfold w_bind at 1, w_modify.
    destruct (chunk_heals g (mkOutside (Datatypes.S (Datatypes.S n)) d1) (set_inFlight {[gap_ID g]} h) Hm1)
      as (n2 & d2 & h2 & Hrun & Hm2 & Hk2 & Hfl2 & Hone); [by cbn [o_db]; rewrite Hg1| |].
    { cbn [o_db]. unfold d1. rewrite listing_others, Hl. by left. }
    unfold w_bind at 1. rewrite Hrun. unfold w_bind at 1. apply IH; [done|done| |].
    + cbn. rewrite Hfl2. unfold release. cbn. set_solver.
    + cbn [o_db] in Hone. rewrite Hg1 in Hone. lia.
Qed.
End chunks.

(** ** Properties *)

(** C9.  Every promise is kept.  Take any database whose histories are the chain's,
    as those the system reaches are; let nothing fail from now on: no statement,
    acknowledgement or timer; let the archives serve the chain; let the others leave
    walks, registrations and gaps alone and take steps of the system, as the live
    loop does; and let the chain's ledgers open, its positions identify its records
    and its transfers hold no text that Postgres refuses.  After as many turns as
    the open gaps the healer owns have chunks, its worker finds none left: every
    ledger they promised was replayed, under a snapshot the registry served, and is
    stored for every contract that snapshot watches; no constraint refused a
    commit; and what a plan deferred is promised still, and nothing else.  If the
    database declared the truth and every snapshot watches the walks held up by a
    gap, then below the watermark of such a walk each ledger is derived for its
    kinds or deferred. *)
Theorem promises_fulfilled `{S : SDK} `{!SDKChanges} `{!SDKLaws} `{!LedgerHeaders} `{!LedgerMetas} (net pass : string)
    (chunkLedgers chunkNow : Z) (w : world) (chain : Z → LedgerCloseMeta) (fuel turns n : nat) (d : db) (h : healer) :
  calm w → archived w chain → linked chain → opens pass chain → placed pass chain → storable pass chain →
  bystanders net w → orderly net pass w chain → is_u32 chunkLedgers → chunkOf chunkLedgers ≤ Z.of_nat fuel →
  sound_rows net pass chain (get_tables d) → (∀ id r, db_gaps d !! id = Some r → pending_row net r) →
  hl_inFlight h = ∅ → chunks_left net (chunkOf chunkLedgers) (db_gaps d) ≤ Z.of_nat turns →
  ∃ o' h', work net pass (chunkOf chunkLedgers) w fuel turns chunkNow (mkOutside n d) h = Some (tt, o', h') ∧
    (∀ now, run now (ListOpenGaps net) (o_db o') = Ok ([], o_db o')) ∧
    (∀ l, owes (db_gaps d) net l HealModeReplay → healed net pass w (o_db o') l) ∧
    (∀ l, owed (db_gaps (o_db o')) net l ↔ ∃ mode, mode ≠ HealModeReplay ∧ owes (db_gaps d) net l mode) ∧
    (truthful net pass chain d → informed net w d →
     ∀ cid b wall kind l, db_backfill (o_db o') !! (net, cid) = Some b → b_clamped_at b = Some wall →
      kind ∈ b_covered_kinds b → b_target_from b ≤ l ≤ b_next_to b →
      derived_kind net pass chain cid kind l (get_tables (o_db o')) ∨ owed (db_gaps (o_db o')) net l ∧ l < wall).
Proof.
  intros Hcalm Harch Hlink Hopens Hpl Htext Hby Hord Hc Hfuel Hs Hpend Hfl Hleft.
  destruct (work_fulfils net pass (chunkOf chunkLedgers) w chain Hcalm Harch Hlink Hopens Hpl Htext Hby Hord
    ltac:(by apply chunkOf_range) fuel Hfuel chunkNow d turns n d h) as (o' & h' & Hrun & Hm & Hk & Hnil).
  { split; [split|split; [apply grows_refl|split; [done|]]].
    - intros id r Hr. split; [by eapply Hpend|]. intros r0 Hr0. rewrite Hr in Hr0. by injection Hr0 as <-.
    - intros id r0 l Hr0 Ho Hl. left. by exists r0.
    - intros [_ Hi]. by split. }
  { apply kept_gaps_refl. } { done. } { done. }
  pose proof (listing_nil net _ Hnil) as Hno.
  exists o', h'. split; [done|]. split; [intros now; by rewrite run_ListOpenGaps, Hnil|]. split_and!.
  - intros l (id & r0 & Hr0 & Hn & Ho & Hl & Hmode). destruct Hm as ((_ & Hp) & _).
    destruct (Hp id r0 l Hr0 (conj Hn Ho) Hl) as [(r & Hr & Hopen & _)|Hh]; [exfalso|done].
    pose proof (Hno id r Hr) as Hrep. rewrite (replayable_open net r Hopen), bool_decide_eq_false in Hrep.
    specialize (Hk id). rewrite Hr, Hr0 in Hk. apply some_related in Hk as [Hm' _]. congruence.
  - intros l. by apply kept_deferred.
  - intros Htr Hi cid b wall kind l Hb Hcl Hkd Hl. eapply tr_clamp; [eapply mending_truthful|..]; eassumption.
Qed.

(** ** Witness *)

#[local] Existing Instance demo_sdk.
#[local] Existing Instance demo_changes.
#[local] Existing Instance demo_laws.
#[local] Existing Instance demo_headers.
#[local] Existing Instance demo_metas.

(** The ledgers 5 to 9 of [CA]'s walk are below the retention: a gap promises
    them, and the walk is held up by it. *)
Definition gap_db : db := after (RecordGap "testnet" 5 9 "retention") walk_db.
Definition held_db : db :=
  after (CommitBackfillChunk "testnet" (mkBackfill "CA" 5 9 true (Some 10) ["movements"]) no_records) gap_db.

(** Archives of the chain with one payment. *)
Definition archive_world : @world demo_sdk :=
  @mkWorld demo_sdk (λ _ _ _, Err ErrOther) (λ _ _ _, Ok tt) (λ _ l, Ok (pay_chain l)) (λ _ d, d) (λ _, no_faults)
    (λ _, false) (λ n, Z.of_nat n) (λ _, false) (λ _, true) (λ _, demo_watch).

Lemma held_gap id r : db_gaps held_db !! id = Some r → g_from r = 5 ∧ g_to r = 9 ∧ heal_next r = 9.
Proof.
  intros Hr. apply elem_of_map_to_list in Hr. revert Hr. vm_compute map_to_list.
  rewrite elem_of_cons, elem_of_nil. by intros [[= -> ->]|[]].
Qed.

Lemma held_truthful : truthful "testnet" "pass" pay_chain held_db.
Proof.
  apply (sys_keeps_rtc "testnet" "pass" pay_chain walk_db); [exact walk_truthful|]. apply (rtc_l _ _ gap_db).
  { eapply AsideStep, WorkerStep, (GapStep _ _ _ _ _ 5 9 "retention" 1); [lia|uarith|]. vm_compute. reflexivity. }
  apply rtc_once.
  eapply AsideStep, WorkerStep, (WalkStep _ _ _ _ _ (mkBackfill "CA" 5 9 true (Some 10) ["movements"])
    no_records (mkBackfillRow 5 9 false None ["movements"] 1) 1);
    [vm_compute; reflexivity| |vm_compute; reflexivity].
  split; [split_and!; by intros x ?%elem_of_nil|]. split; [simpl; uarith|]. split; [simpl; lia|].
  intros l Hl. simpl in Hl. split; [|lia]. exists HealModeReplay, (gap_id "testnet" 5 9). eexists. split; [vm_compute; reflexivity|].
  do 2 (split; [reflexivity|]). split; [exact Hl|reflexivity].
Qed.

Lemma held_informed : informed "testnet" archive_world held_db.
Proof.
  intros n cid b wall kind Hb _ Hk. apply elem_of_map_to_list in Hb. revert Hb Hk. vm_compute map_to_list.
  rewrite elem_of_cons, elem_of_nil. intros [[= -> ->]|[]] ->%list_elem_of_singleton. reflexivity.
Qed.

(** Two turns of three ledgers replay the five. *)
Lemma promises_fulfilled_witness :
  ∃ o' h', work "testnet" "pass" 3 archive_world 8 2 77 (mkOutside 0 held_db) idle_healer = Some (tt, o', h') ∧
    run 9 (ListOpenGaps "testnet") (o_db o') = Ok ([], o_db o') ∧
    healed "testnet" "pass" archive_world (o_db o') 9 ∧
    ∀ b, db_backfill (o_db o') !! ("testnet", "CA") = Some b → ∀ wall l, b_clamped_at b = Some wall →
      "movements" ∈ b_covered_kinds b → b_target_from b ≤ l ≤ b_next_to b →
      derived_kind "testnet" "pass" pay_chain "CA" "movements" l (get_tables (o_db o')) ∨
      owed (db_gaps (o_db o')) "testnet" l ∧ l < wall.
Proof.
  destruct (promises_fulfilled "testnet" "pass" 3 77 archive_world pay_chain 8 2 0 held_db idle_healer)
    as (o' & h' & Hrun & Hlist & Hheal & _ & Hwalk).
  - split; reflexivity.
  - split; reflexivity.
  - exact pay_linked.
  - exact pay_opens.
  - exact pay_placed.
  - exact pay_storable.
  - intros n d. do 3 (split; [reflexivity|]). intros r Hr. exact Hr.
  - intros n d. apply rtc_refl.
  - uarith.
  - vm_compute. discriminate.
  - apply held_truthful.
  - intros id r Hr _. destruct (held_gap id r Hr) as (-> & -> & ->). uarith.
  - reflexivity.
  - vm_compute. discriminate.
  - exists o', h'. split; [exact Hrun|]. split; [apply Hlist|]. split.
    + apply Hheal. exists (gap_id "testnet" 5 9). eexists. split; [vm_compute; reflexivity|]. do 2 (split; [reflexivity|]).
      split; [vm_compute; split; discriminate|reflexivity].
    + intros b Hb wall l. apply (Hwalk held_truthful held_informed "CA" b wall "movements" l Hb).
Defined.
